(* ===== verification/_CoqProject ===== *)
-Q . S2P
Prelude.v
SCCIterator.v
Doubles.v
Forest.v
DGEdge.v
DGNode.v
DGBase.v
DGInvariant.v
DGSpec.v
DGQuery.v
DGCopy.v
Samples.v
PDG.v
PDGSpec.v
SCC.v
SCCSpec.v
SCCCycle.v
BitMatrix.v
BitMatrixSpec.v
DataFlow.v
DataFlowSpec.v
SCCDAG.v
SCCDAGSpec.v
SCCDAGComponents.v
SCCDAGEdges.v
SCCDAGNewSpec.v
Partition.v
PartitionSpec.v
PartitionQuery.v
PartitionMerge.v
PartitionMergeSpec.v
Dominators.v
DominatorsQuery.v
DominatorsClone.v
DominatorsSpec.v
DominatorsInst.v
LoopStructure.v
LoopForest.v
LoopNesting.v
LoopTreeSpec.v
LoopVisit.v
LoopForestSpec.v
LoopCarried.v
LoopCarriedSpec.v
PDGValues.v
PDGModRef.v
PDGGenerator.v
PDGMetadata.v
PDGCompare.v
PDGGrowth.v
PDGModRefSpec.v
PDGControlSpec.v
PDGGeneratorSpec.v
PDGConstruction.v
PDGTrimSpec.v
PDGMetadataSpec.v
PDGCompareSpec.v
LoopEnvironment.v
LoopEnvironmentSpec.v
LoopEnvBuilder.v
LoopEnvBuilderSpec.v
IRModule.v
Hot.v
HotSpec.v
CallGraph.v
CallGraphSpec.v
CallGraphRemove.v
CallGraphRefine.v
CallGraphRefineSpec.v
FunctionsManager.v
CGIslands.v
CGIslandsSpec.v
Witnesses.v
ForestWitnesses.v
LoopWitnesses.v
EnvironmentWitnesses.v
HotWitnesses.v
CallGraphWitnesses.v
PartitionWitnesses.v
GeneratorWitnesses.v
