(* ===== verification/Prelude.v ===== *)
(** * NOELLE core: a verification development

    NOELLE extends llvm with program abstractions. Their common data structure is the
    dependence graph: values of the IR, typed edges between them, nodes that are internal
    (part of what is analysed) or external (its boundary). The program dependence graph of
    the whole program is cut into sub-graphs; the graph of a loop is decomposed into strongly
    connected components; the components form the SCCDAG, whose reachability and partitions
    drive parallelisation. Beside it stand data-flow analyses, dominator forests and loop
    forests. This library models those classes from their C++ sources and proves what makes
    them correct.

    ** The model

    Paths below are relative to src/src/core/.

    - An object is a record at an address ([Ptr]); a component's state is the record of its
      class plus the heaps it works on. Operations are functions in an error monad with state
      ([M S A := S → Res (S * A)], Prelude), composed in the order of the source.
      The errors are values of [Error]: a failed [assert] or llvm cast, a call to [abort], undefined
      behaviour (a null pointer, dead object or end iterator that is dereferenced), and the
      end of the fuel of a loop.
    - Sets of pointers are visited in an order that depends on addresses or hashing. The
      class [IterOrder] stands for that order and every theorem holds for each instance.
    - Objects allocated during an operation get fresh addresses; deleted ones leave the heap,
      so a later access fails.
    - Integers the code keeps at a machine width wrap ([u32], [u64], [i32]): indices of
      BitMatrix, counters of profiles, indices of an environment. Doubles of the profiles are
      the binary64 numbers of the Standard Library (Doubles).
    - Values, instructions, basic blocks and functions of llvm are addresses. What the code
      asks llvm about them is an argument with the documented facts as hypotheses: the
      control flow graph of a function, a dominator tree, the loops and their blocks
      ([selection_ok]), the calls and uses of a module, [llvm::scc_iterator] (the class in
      SCCIterator), [llvm::BitVector] (the class in BitMatrix), the answers of the alias analyses of
      llvm and SVF, the builder that emits instructions. The metadata of llvm is modelled as
      trees ([Metadata]).

    ** The files

    - Prelude: pointers and orders, the error monad with its weakest-precondition rules
      ([wp]), loops with fuel ([while], [while_spec]), list, set and sum lemmas, machine
      integers. Forest: objects linked to their children and parent, shared by dominator and
      loop trees.
    - DGEdge, DGNode, DGBase (dg/include: DGEdge.hpp, DataDependence.hpp and the other
      dependence classes, DGNode.hpp, DGBase.hpp): the heap of nodes and edges and the
      operations of the class template DG. DGInvariant: the invariant [wf] and the
      exact effect of each operation. DGSpec: refinement of an abstract labelled graph by every
      sequence of operations. DGQuery: the queries over a whole graph. DGCopy, Samples:
      copies of edges between graphs; concrete graphs.
    - PDG, PDGSpec (pdg/src/PDG.cpp): sub-graphs, clones and iteration over dependences.
    - SCC, SCCSpec, SCCCycle (sccdag/src/SCC.cpp): the constructor of a component and the
      cycle test. BitMatrix, BitMatrixSpec (basic_utilities/src/BitMatrix.cpp): the matrix
      and its closure. SCCDAG, SCCDAGSpec (sccdag/src/SCCDAG.cpp): the graph of components,
      which calls all of the above; a node of it holds an SCC, whose record is in the same
      world as the graph. SCCDAGComponents, SCCDAGEdges, SCCDAGNewSpec: its constructor, phase by
      phase.
    - DataFlow, DataFlowSpec (dataflow/src): the work-list engine, whose callbacks receive
      references to the sets of the result ([SetRef]), and the reachability analyses.
    - Partition, PartitionSpec, PartitionQuery, PartitionMerge, PartitionMergeSpec
      (loop_sccdag_attributes/src/SCCDAGPartition.cpp): sets of components as a dependence
      graph of their own; merging and ordering them.
    - Dominators, DominatorsQuery, DominatorsClone, DominatorsSpec, DominatorsInst
      (dominators/src): forests copied from dominator trees.
    - LoopStructure, LoopForest (loop_structure/src, loop_forest/src), LoopNesting,
      LoopTreeSpec, LoopVisit, LoopForestSpec: the nesting forest of selected loops, which is
      built by asking dominator forests.
    - LoopCarried, LoopCarriedSpec (loop_carried_dependences/src): which dependences of a loop
      cross its iterations, from the loop and the dominators.
    - PDGValues, PDGModRef, PDGGenerator (pdg_generator/src: PDGGenerator_library.cpp,
      PDGGenerator_memory.cpp, PDGGenerator.cpp, PDGGenerator_controlDependences.cpp; Utils.cpp):
      the phases that build the graph of a module: definitions and uses, memory (the alias
      analyses asked about each pair that reachability of instructions leaves), control, trimming.
      PDGGrowth: what it means to add edges to a graph ([adds], [grown]). PDGModRefSpec,
      PDGGeneratorSpec, PDGControlSpec, PDGConstruction, PDGTrimSpec: the phases one by one.
    - PDGMetadata, PDGMetadataSpec, PDGCompare, PDGCompareSpec (PDGGenerator_metadata*.cpp,
      PDGGenerator_compare.cpp): the graph in the metadata of a module, the comparison of two graphs,
      and getPDG, which calls both.
    - LoopEnvironment, LoopEnvironmentSpec, LoopEnvBuilder, LoopEnvBuilderSpec
      (loop_environment/src): the live-in and live-out values of a loop, the array that carries
      them, and the code that reads and writes it.
    - IRModule: what the analyses of whole programs read of a module. Doubles, Hot, HotSpec
      (hotprofiler/src): the counters of a profile. CallGraph, CallGraphSpec, CallGraphRemove
      (call_graph/src), CallGraphRefine, CallGraphRefineSpec (PDGGenerator_callGraph.cpp): the call
      graph and its refinement by analyses. CGIslands, CGIslandsSpec: its islands.
      FunctionsManager (functions_manager/src): the queries on functions.
    - Witnesses, PartitionWitnesses, ForestWitnesses, LoopWitnesses, EnvironmentWitnesses,
      HotWitnesses, CallGraphWitnesses, GeneratorWitnesses: the theorems with hypotheses applied
      to concrete programs on which the hypotheses hold.

    ** What is shown

    - Representation and refinement: the operations of DG implement an abstract graph
      ([dg_refines_abstract_graph]); the constructor of the SCCDAG builds the condensation of the
      dependence graph with its reachability ([SCCDAG_new_spec]); the constructors of the two kinds
      of forest build the forest they promise ([DominatorForest_ofTree_spec],
      [LoopForest_new_spec]); merging keeps a partition well-formed ([mergeSets_spec]), deletions
      keep a loop forest ([LoopTree_destroy_spec]) and a call graph ([removeSubEdge_spec]).
    - The generator: the dependences of the whole graph, phase by phase
      ([constructPDGFromAnalysis_spec]), a memory dependence wherever no analysis excludes one
      ([memory_dependences_sound]), the table of the dependences between two calls
      ([addEdgeFromFunctionModRef_call_spec]), the round trip through metadata
      ([metadata_roundtrip]), and what the comparison decides ([comparePDGs_spec]).
    - Functional behaviour and equivalences: sub-graphs ([createSubgraphFromValues_spec]), connected
      components ([getDisconnectedSubgraphs_components]), orders and cycles of a partition
      ([getDepthOrderedSets_spec], [isMergeIntroducingCycle_spec]), dominance
      ([dominance_queries_agree], [findNearestCommonDominator_spec]), visits ([visits_spec]), loop-carried
      dependences ([setLoopCarriedDependencies_spec]), the environment of a loop
      ([LoopEnvironment_new_spec]) and the types of its array ([LoopEnvironmentBuilder_layout],
      [addVariableToEnvironment_spec]), profiles ([Hot_new_spec], [calls_share_total]), the call graph
      ([CallGraph_new_spec], [getProgramCallGraph_spec]) and its islands ([getIslands_spec]).
    - Termination, bounds and arithmetic: the closure of a bit matrix
      ([transitiveClosure_correct]) and its indices ([resize_bounds]), the reachability analysis
      ([runReachableAnalysis_correct]), the cycle test, which misses no cycle ([hasCycle_complete]),
      reachable functions ([getFunctionsReachableFrom_spec]), environment variables and quotients of
      counters ([generateEnvVariables_bounds], [calleeTotalInstsPerInvocation_spec]).
    - Errors: merged components ([merged_SCC_has_no_index]), the forward data-flow engine
      ([applyForward_walks_past_end]), cyclic partitions ([isAncestor_diverges]), instructions in a partial
      forest ([dominatesInst_spec]); beside them, absent values, undefined dependences, acyclic
      components, clones and partial selections of loops.

    ** Fuel

    Loops run under fuel, and the theorems about them state that the loop returns.

    - Work lists over a graph: each node enters a visited set once, so the number of nodes or
      edges plus one is enough (components, cycle test, descendants, reachable functions, islands).
    - [closureFuel n = n²(n+1) + n + 1]: a row re-enters the work list only when one of the n²
      bits was set, and each round walks one row.
    - [reachFuel]: the sets of a block only grow, at most (instructions)² times.
    - Sub-trees of a forest: [weight], the length of the listing of a node in preorder, is at
      most the number of nodes; climbing to a root is bounded by the rank of the node.
    - Searches over the blocks of a loop or a function (loop-carried dependences, trimming): a block
      is pushed once, so the number of blocks, with the exits, plus two is enough.
    - The total counters of a profile: a function is evaluated once, so the number of functions.
    - The arguments in the metadata of a function: the positions up to the largest one.
    - [isAncestor] takes its fuel as an argument, because no bound is always enough: every
      fuel runs out on some cyclic partitions, and acyclic ones have a bound. The forward
      data-flow engine takes it too, and never returns.

    ** Not modelled

    Printers to streams; the parts that rewrite llvm IR in place (schedulers, loop
    transformers, outliner, tasks, whilifier); those whose logic is matching on
    scalar evolution or on instructions of llvm (induction variables, iteration spaces,
    classification of SCCs, memory cloning); the analyses of llvm and SVF themselves; the
    façade Noelle that collects passes; the command-line tools. *)

From stdpp Require Export base tactics option list list_numbers sorting gmap sets relations.
From Stdlib Require Export ZArith Lia.

(** ** Pointers and iteration order

    A C++ pointer is an address; [nullptr] is [None] where the code can hold it.
    A [std::set] or [std::unordered_set] of pointers is a [gset Ptr]. The order in
    which the code visits it depends on addresses or on hashing, so the model takes
    the order as an interface: every theorem holds for every choice of it. *)
Abbreviation Ptr := positive.

Class IterOrder := {
  visit : gset Ptr → list Ptr;
  visit_perm : ∀ s, visit s ≡ₚ elements s
}.

Definition visit_elements : IterOrder :=
  {| visit := elements; visit_perm := λ s, reflexivity (elements s) |}.

Program Definition visit_reversed : IterOrder :=
  {| visit := λ s, reverse (elements s) |}.
Next Obligation. intros s. apply reverse_Permutation. Qed.

Section visit_facts.
Context {IO : IterOrder}.

Lemma elem_of_visit (x : Ptr) s : x ∈ visit s ↔ x ∈ s.
Proof. rewrite visit_perm. apply elem_of_elements. Qed.

Lemma NoDup_visit s : NoDup (visit s).
Proof. rewrite visit_perm. apply NoDup_elements. Qed.

Lemma length_visit s : length (visit s) = size s.
Proof. by rewrite visit_perm. Qed.

Lemma list_to_set_visit s : list_to_set (visit s) = s.
Proof. apply set_eq. intros x. by rewrite elem_of_list_to_set, elem_of_visit. Qed.

(** the position of a loop over a set: the current element is new *)
Lemma visit_split s pre x post : visit s = pre ++ x :: post →
  x ∈ s ∧ x ∉ pre ∧ (∀ k, k ∈ pre → k ∈ s) ∧ length pre < size s.
Proof.
  intros H. assert (∀ k, k ∈ s ↔ k ∈ pre ∨ k = x ∨ k ∈ post) as Hs.
  { intros k. by rewrite <- elem_of_visit, H, elem_of_app, elem_of_cons. }
  pose proof (NoDup_visit s) as Hnd. rewrite H in Hnd. apply NoDup_app in Hnd as (_ & Hnd & _).
  split; [apply Hs; auto|]. split.
  - intros Hx. apply (Hnd x Hx), elem_of_cons. by left.
  - split; [intros k Hk; apply Hs; auto|].
    rewrite <- length_visit, H, length_app. simpl. lia.
Qed.

Lemma visit_nil_inv s : visit s = [] → s = ∅.
Proof. intros H. rewrite <- (list_to_set_visit s), H. done. Qed.
End visit_facts.

(** ** Results and errors *)
Inductive Error :=
  | UndefinedBehaviour   (* dereference of a null, dangling or end pointer, signed overflow *)
  | AssertionFailure     (* a failed assert, or a failed llvm cast *)
  | Aborted              (* an explicit call to abort *)
  | OutOfFuel.           (* the fuel of a modelled loop ran out *)

Inductive Res (A : Type) :=
  | Ok (a : A)
  | Fail (e : Error).
Arguments Ok {_} _.
Arguments Fail {_} _.

#[export] Instance Error_eq_dec : EqDecision Error.
Proof. solve_decision. Defined.

Definition rbind {A B} (m : Res A) (f : A → Res B) : Res B :=
  match m with Ok a => f a | Fail e => Fail e end.

(** [for (auto x : l) acc = f(acc, x);] for a loop that may fail *)
Fixpoint foldR {A B} (f : B → A → Res B) (b : B) (l : list A) : Res B :=
  match l with
  | [] => Ok b
  | x :: l => rbind (f b x) (λ b, foldR f b l)
  end.

(** The invariant of a fold is indexed by the elements done. *)
Lemma foldR_spec {A B} (f : B → A → Res B) (I : list A → B → Prop) l b :
  I [] b →
  (∀ pre x b, pre ++ [x] `prefix_of` l → I pre b → ∃ b', f b x = Ok b' ∧ I (pre ++ [x]) b') →
  ∃ b', foldR f b l = Ok b' ∧ I l b'.
Proof.
  intros HI Hstep.
  assert (∀ post pre b, l = pre ++ post → I pre b → ∃ b', foldR f b post = Ok b' ∧ I l b') as Hgo.
  { induction post as [|x post IH]; intros pre b' Hl H; simpl.
    - rewrite app_nil_r in Hl. subst pre. eauto.
    - destruct (Hstep pre x b') as (b'' & -> & H'); [|done|].
      { exists post. by rewrite <- (assoc_L _). }
      simpl. apply (IH (pre ++ [x])); [by rewrite <- (assoc_L _)|done]. }
  by apply (Hgo l []).
Qed.

(** ** A state and error monad *)
Definition M (S A : Type) : Type := S → Res (S * A).

Definition ret {S A} (a : A) : M S A := λ s, Ok (s, a).
Definition bind {S A B} (m : M S A) (f : A → M S B) : M S B :=
  λ s, match m s with Ok (s', a) => f a s' | Fail e => Fail e end.
Definition get {S} : M S S := λ s, Ok (s, s).
Definition put {S} (s : S) : M S unit := λ _, Ok (s, tt).
Definition gets {S A} (f : S → A) : M S A := λ s, Ok (s, f s).
Definition modify {S} (f : S → S) : M S unit := λ s, Ok (f s, tt).
Definition fail {S A} (e : Error) : M S A := λ _, Fail e.
(** [assert(b)] *)
Definition massert {S} (b : bool) : M S unit :=
  if b then ret tt else fail AssertionFailure.
(** the content of a pointer that must not be null, dangling or an end iterator *)
Definition deref {S A} (o : option A) : M S A :=
  match o with Some a => ret a | None => fail UndefinedBehaviour end.

Declare Scope noelle_scope.
Delimit Scope noelle_scope with noelle.
Notation "'let*' x := m 'in' k" := (bind m (λ x, k))
  (at level 200, x binder, m at level 100, k at level 200,
   format "'[v' 'let*'  x  :=  m  'in' '/' k ']'") : noelle_scope.
Notation "m ;;; k" := (bind m (λ _, k))
  (at level 199, right associativity, format "'[v' m ;;; '/' k ']'") : noelle_scope.
Open Scope noelle_scope.

(** [for (auto x : l) f(x);] *)
Fixpoint forM {S A} (f : A → M S unit) (l : list A) : M S unit :=
  match l with
  | [] => ret tt
  | x :: l => f x ;;; forM f l
  end.

(** the elements of [l] that pass an effectful test *)
Fixpoint filterM {S A} (f : A → M S bool) (l : list A) : M S (list A) :=
  match l with
  | [] => ret []
  | x :: l =>
      let* b := f x in
      let* r := filterM f l in
      ret (if b then x :: r else r)
  end.

Fixpoint mapM {S A B} (f : A → M S B) (l : list A) : M S (list B) :=
  match l with
  | [] => ret []
  | x :: l =>
      let* y := f x in
      let* r := mapM f l in
      ret (y :: r)
  end.

(** a loop that stops with [true] at the first element for which [f] returns [true] *)
Fixpoint anyM {S A} (f : A → M S bool) (l : list A) : M S bool :=
  match l with
  | [] => ret false
  | x :: l =>
      let* b := f x in
      if b : bool then ret true else anyM f l
  end.

(** [for (auto x : l) acc = f(acc, x);] *)
Fixpoint foldM {S A B} (f : B → A → M S B) (b : B) (l : list A) : M S B :=
  match l with
  | [] => ret b
  | x :: l => let* b := f b x in foldM f b l
  end.

(** a pure computation that may fail *)
Definition lift {S A} (r : Res A) : M S A :=
  match r with Ok a => ret a | Fail e => fail e end.

(** running a computation on a component of the state *)
Definition zoom {S T A} (gt : S → T) (st : T → S → S) (m : M T A) : M S A :=
  λ s, match m (gt s) with
       | Ok (t, a) => Ok (st t s, a)
       | Fail e => Fail e
       end.

Lemma forM_app_run {S A} (f : A → M S unit) l k s :
  forM f (l ++ k) s = bind (forM f l) (λ _, forM f k) s.
Proof.
  revert s. induction l as [|x l IH]; intros s; [done|]. simpl. unfold bind.
  destruct (f x s) as [[s' []]|]; [apply IH|done].
Qed.

(** a loop over the instructions of the blocks, or over the blocks of the functions *)
Lemma forM_join {S A B} (f : A → M S unit) (g : B → list A) l s :
  forM (λ y, forM f (g y)) l s = forM f (mjoin (g <$> l)) s.
Proof.
  revert s. induction l as [|y l IH]; intros s; [done|]. simpl. rewrite forM_app_run. unfold bind.
  destruct (forM f (g y) s) as [[s' []]|]; [apply IH|done].
Qed.

(** ** Total-correctness weakest preconditions *)
Definition wp {S A} (m : M S A) (Q : A → S → Prop) (s : S) : Prop :=
  match m s with Ok (s', a) => Q a s' | Fail _ => False end.

Section wp.
Context {S : Type}.
Implicit Types s : S.

Lemma wp_ok {A} (m : M S A) Q s :
  wp m Q s ↔ ∃ s' a, m s = Ok (s', a) ∧ Q a s'.
Proof.
  unfold wp. destruct (m s) as [[s' a]|e]; [|naive_solver].
  split; [eauto|]. by intros (? & ? & [= -> ->] & ?).
Qed.

Lemma wp_mono {A} (m : M S A) (Q Q' : A → S → Prop) s :
  wp m Q s → (∀ a s', Q a s' → Q' a s') → wp m Q' s.
Proof. unfold wp. destruct (m s) as [[??]|]; naive_solver. Qed.

Lemma wp_conj {A} (m : M S A) (Q Q' : A → S → Prop) s :
  wp m Q s → wp m Q' s → wp m (λ a s', Q a s' ∧ Q' a s') s.
Proof. unfold wp. destruct (m s) as [[??]|]; naive_solver. Qed.

Lemma wp_ret {A} (a : A) (Q : A → S → Prop) s : wp (ret a) Q s ↔ Q a s.
Proof. done. Qed.

Lemma wp_bind {A B} (m : M S A) (f : A → M S B) Q s :
  wp (bind m f) Q s ↔ wp m (λ a s', wp (f a) Q s') s.
Proof. unfold wp, bind. by destruct (m s) as [[??]|]. Qed.

Lemma bind_ok {A B} (m : M S A) (f : A → M S B) s s' a : m s = Ok (s', a) → bind m f s = f a s'.
Proof. unfold bind. by intros ->. Qed.

(** a step whose outcome is known *)
Lemma wp_bind_run {A B} (m : M S A) (f : A → M S B) Q s s' a :
  m s = Ok (s', a) → wp (f a) Q s' → wp (bind m f) Q s.
Proof. intros Hm. unfold wp, bind. by rewrite Hm. Qed.

Lemma wp_gets {A} (f : S → A) (Q : A → S → Prop) s : wp (gets f) Q s ↔ Q (f s) s.
Proof. done. Qed.

Lemma wp_get (Q : S → S → Prop) s : wp get Q s ↔ Q s s.
Proof. done. Qed.

Lemma wp_put s' (Q : unit → S → Prop) s : wp (put s') Q s ↔ Q tt s'.
Proof. done. Qed.

Lemma wp_modify f (Q : unit → S → Prop) s : wp (modify f) Q s ↔ Q tt (f s).
Proof. done. Qed.

Lemma wp_massert b (Q : unit → S → Prop) s : wp (massert b) Q s ↔ b = true ∧ Q tt s.
Proof. destruct b; unfold wp; naive_solver. Qed.

Lemma wp_deref {A} (o : option A) (Q : A → S → Prop) s :
  wp (deref o) Q s ↔ ∃ a, o = Some a ∧ Q a s.
Proof. destruct o; unfold wp; naive_solver. Qed.

Lemma wp_zoom {T A} (gt : S → T) st (m : M T A) (Q : A → S → Prop) s :
  wp (zoom gt st m) Q s ↔ wp m (λ a t, Q a (st t s)) (gt s).
Proof. unfold wp, zoom. by destruct (m (gt s)) as [[??]|]. Qed.

(** The invariant of a loop is indexed by the elements done and those left. *)
Lemma wp_forM {A} (f : A → M S unit) (I : list A → list A → S → Prop) l s :
  I [] l s →
  (∀ pre x post s, l = pre ++ x :: post → I pre (x :: post) s →
     wp (f x) (λ _ s', I (pre ++ [x]) post s') s) →
  wp (forM f l) (λ _ s', I l [] s') s.
Proof.
  intros HI Hstep.
  assert (∀ post pre s, l = pre ++ post → I pre post s →
            wp (forM f post) (λ _ s', I l [] s') s) as Hgo.
  { induction post as [|x post IH]; intros pre s' Hl H; simpl.
    - rewrite app_nil_r in Hl. by subst pre.
    - apply wp_bind. eapply wp_mono; [by apply Hstep|].
      intros [] s'' H'. apply (IH (pre ++ [x])); [by rewrite <- (assoc_L _)|done]. }
  by apply (Hgo l []).
Qed.

(** A simpler rule for an invariant that does not depend on the position. *)
Lemma wp_forM_inv {A} (f : A → M S unit) (I : S → Prop) l s :
  I s → (∀ x s, x ∈ l → I s → wp (f x) (λ _ s', I s') s) →
  wp (forM f l) (λ _ s', I s') s.
Proof.
  intros HI Hstep. apply (wp_forM f (λ _ _ s, I s)); [done|].
  intros pre x post s' Hl H. apply Hstep; [|done]. set_solver.
Qed.

Lemma wp_foldM {A B} (f : B → A → M S B) (I : list A → list A → B → S → Prop) b l s :
  I [] l b s →
  (∀ pre x post b s, l = pre ++ x :: post → I pre (x :: post) b s →
     wp (f b x) (λ b' s', I (pre ++ [x]) post b' s') s) →
  wp (foldM f b l) (λ b' s', I l [] b' s') s.
Proof.
  intros HI Hstep.
  assert (∀ post pre b s, l = pre ++ post → I pre post b s →
            wp (foldM f b post) (λ b' s', I l [] b' s') s) as Hgo.
  { induction post as [|x post IH]; intros pre b' s' Hl H; simpl.
    - rewrite app_nil_r in Hl. by subst pre.
    - apply wp_bind. eapply wp_mono; [by apply Hstep|].
      intros b'' s'' H'. apply (IH (pre ++ [x])); [by rewrite <- (assoc_L _)|done]. }
  by apply (Hgo l []).
Qed.

Lemma wp_lift {A} (r : Res A) (Q : A → S → Prop) s : wp (lift r) Q s ↔ ∃ a, r = Ok a ∧ Q a s.
Proof. destruct r; unfold wp; naive_solver. Qed.

(** Effectful filters and tests that only read the state. *)
Lemma wp_filterM {A} (f : A → M S bool) (P : A → Prop) `{!∀ x, Decision (P x)} l s Q :
  (∀ x, x ∈ l → f x s = Ok (s, bool_decide (P x))) →
  Q (filter P l) s →
  wp (filterM f l) Q s.
Proof.
  revert Q. induction l as [|x l IH]; intros Q Hf HQ; [done|].
  simpl. apply wp_bind. unfold wp at 1. rewrite (Hf x) by set_solver.
  apply wp_bind, IH; [set_solver|].
  rewrite filter_cons in HQ. case_bool_decide; by case_decide.
Qed.

Lemma wp_anyM {A} (f : A → M S bool) (p : A → bool) l s Q :
  (∀ x, x ∈ l → f x s = Ok (s, p x)) →
  Q (existsb p l) s →
  wp (anyM f l) Q s.
Proof.
  induction l as [|x l IH]; intros Hf HQ; [done|].
  simpl. apply wp_bind. unfold wp at 1. rewrite (Hf x) by set_solver.
  simpl in HQ. destruct (p x); [done|]. apply IH; [set_solver|done].
Qed.

Lemma wp_mapM {A B} (f : A → M S B) (g : A → B) l s Q :
  (∀ x, x ∈ l → f x s = Ok (s, g x)) → Q (g <$> l) s → wp (mapM f l) Q s.
Proof.
  revert Q. induction l as [|x l IH]; intros Q Hf HQ; [done|].
  simpl. apply wp_bind. unfold wp at 1. rewrite (Hf x) by set_solver.
  apply wp_bind, IH; [set_solver|]. done.
Qed.

Lemma mapM_run {A B} (f : A → M S B) (g : A → B) l s :
  (∀ x, x ∈ l → f x s = Ok (s, g x)) → mapM f l s = Ok (s, g <$> l).
Proof.
  induction l as [|x l IH]; intros Hf; [done|]. simpl. unfold bind.
  rewrite (Hf x), IH by set_solver. done.
Qed.

Lemma wp_mapM_rel {A B} (f : A → M S B) (R : A → B → Prop) l s Q :
  (∀ x, x ∈ l → ∃ y, f x s = Ok (s, y) ∧ R x y) →
  (∀ ys, Forall2 R l ys → Q ys s) → wp (mapM f l) Q s.
Proof.
  revert Q. induction l as [|x l IH]; intros Q Hf HQ; [by apply HQ|].
  destruct (Hf x) as (y & Hy & HR); [set_solver|].
  simpl. apply wp_bind. unfold wp at 1. rewrite Hy.
  apply wp_bind, IH; [set_solver|]. intros ys Hys. apply wp_ret, HQ. by constructor.
Qed.
End wp.

(** One symbolic step of a computation under [wp]. *)
Ltac wp_step :=
  first [ apply wp_bind | apply wp_ret | apply wp_gets | apply wp_get
        | apply wp_put | apply wp_modify | apply wp_zoom
        | apply wp_massert; split; [|] | apply wp_deref; eexists; split; [|] ].
Ltac wp_steps := repeat (wp_step; simpl).

(** ** Loops *)

(** [while] runs [body] until it returns [inr]; every loop of the code whose
    termination is not structural is an instance of it. *)
Fixpoint while {X A} (fuel : nat) (body : X → Res (X + A)) (x : X) : Res A :=
  match fuel with
  | O => Fail OutOfFuel
  | S fuel =>
      match body x with
      | Ok (inl x') => while fuel body x'
      | Ok (inr a) => Ok a
      | Fail e => Fail e
      end
  end.

(** The invariant rule: a measure that decreases at every iteration bounds the fuel. *)
Lemma while_spec {X A} (body : X → Res (X + A)) (I : X → Prop) (m : X → nat)
    (Q : A → Prop) fuel x :
  I x →
  (∀ x, I x → (∃ x', body x = Ok (inl x') ∧ I x' ∧ m x' < m x) ∨
              (∃ a, body x = Ok (inr a) ∧ Q a)) →
  m x < fuel →
  ∃ a, while fuel body x = Ok a ∧ Q a.
Proof.
  intros HI Hstep. revert x HI. induction fuel as [|fuel IH]; intros x HI Hm; [lia|].
  simpl. destruct (Hstep x HI) as [(x' & -> & HI' & Hlt)|(a & -> & HQ)]; [|eauto].
  apply IH; [done|lia].
Qed.

Lemma while_fuel_mono {X A} (body : X → Res (X + A)) n m x a :
  while n body x = Ok a → n ≤ m → while m body x = Ok a.
Proof.
  revert m x. induction n as [|n IH]; intros m x H Hle; [done|].
  destruct m as [|m]; [lia|]. simpl in *.
  destruct (body x) as [[x'|a']|e]; [|done..]. apply IH; [done|lia].
Qed.

(** the same loop with a state that the body changes *)
Definition whileM {S X A} (fuel : nat) (body : X → M S (X + A)) (x : X) : M S A :=
  λ s, while fuel (λ p : S * X,
    match body p.2 p.1 with
    | Ok (s', inl x') => Ok (inl (s', x'))
    | Ok (s', inr a) => Ok (inr (s', a))
    | Fail e => Fail e
    end) (s, x).

Lemma wp_whileM {S X A} (body : X → M S (X + A)) (I : X → S → Prop) (m : X → S → nat)
    (Q : A → S → Prop) fuel x s :
  I x s →
  (∀ x s, I x s → wp (body x) (λ r s', match r with
                                       | inl x' => I x' s' ∧ m x' s' < m x s
                                       | inr a => Q a s'
                                       end) s) →
  m x s < fuel →
  wp (whileM fuel body x) Q s.
Proof.
  intros HI Hstep Hm. apply wp_ok. unfold whileM.
  destruct (while_spec (λ p : S * X,
    match body p.2 p.1 with
    | Ok (s', inl x') => Ok (inl (s', x'))
    | Ok (s', inr a) => Ok (inr (s', a))
    | Fail e => Fail e
    end) (λ p, I p.2 p.1) (λ p, m p.2 p.1) (λ p, Q p.2 p.1) fuel (s, x)) as ([s' a] & ? & ?);
    [done| |done|eauto].
  intros [s1 x1] H1. specialize (Hstep x1 s1 H1). apply wp_ok in Hstep as (s2 & r & Hb & Hr).
  simpl. rewrite Hb. destruct r as [x2|a]; [left|right]; eauto.
Qed.

(** ** Reachability *)

Create HintDb noelle.
#[export] Hint Resolve rtc_refl rtc_once rtc_l rtc_r tc_once tc_l tc_r : noelle.

(** A set closed under a relation contains everything reachable from its elements. *)
Lemma rtc_closed {A} (R : relation A) (P : A → Prop) x y :
  (∀ a b, P a → R a b → P b) → P x → rtc R x y → P y.
Proof. intros HP Hx Hr. revert Hx. induction Hr; eauto. Qed.

Lemma tc_closed {A} (R : relation A) (P : A → Prop) x y :
  (∀ b, R x b → P b) → (∀ a b, P a → R a b → P b) → tc R x y → P y.
Proof.
  intros H0 H1 H. induction H as [x y Hxy|x z y Hxz Hzy IH]; [by apply H0|].
  apply IH. intros b Hb. apply (H1 z); [by apply H0|done].
Qed.

(** the last step of a path *)
Lemma tc_r_inv {A} (R : relation A) x y : tc R x y → R x y ∨ ∃ z, tc R x z ∧ R z y.
Proof.
  induction 1 as [x y H|x z y H _ [IH|(t & IH & Ht)]]; [by left|right..].
  - exists z. split; [by apply tc_once|done].
  - exists t. split; [by eapply tc_l|done].
Qed.

Lemma size_subseteq_lt (X Y : gset Ptr) x : X ⊆ Y → x ∈ Y → x ∉ X → size X < size Y.
Proof. intros HXY Hx Hn. apply subset_size. set_solver. Qed.

(** ** The last element of a list *)
Lemma elem_of_snoc {A} (l : list A) x y : y ∈ l ++ [x] ↔ y ∈ l ∨ y = x.
Proof. by rewrite elem_of_app, list_elem_of_singleton. Qed.

(** ** Propositions *)

Lemma and_iff_under (A B C : Prop) : (A → B ↔ C) → (A ∧ B ↔ A ∧ C).
Proof. tauto. Qed.

(** ** Filters *)
Section filters.
Context {A : Type} (P Q : A → Prop) `{!∀ x, Decision (P x), !∀ x, Decision (Q x)}.

Lemma list_filter_ext_in (l : list A) : (∀ x, x ∈ l → P x ↔ Q x) → filter P l = filter Q l.
Proof.
  induction l as [|x l IH]; intros Himp; [done|]. rewrite !filter_cons, IH by set_solver.
  pose proof (Himp x). repeat case_decide; set_solver.
Qed.

Lemma length_filter_mono (l : list A) :
  (∀ x, x ∈ l → P x → Q x) → length (filter P l) ≤ length (filter Q l).
Proof.
  induction l as [|x l IH]; intros Himp; [done|]. rewrite !filter_cons.
  specialize (IH ltac:(set_solver)). pose proof (Himp x).
  repeat case_decide; simpl; try lia. set_solver.
Qed.

Lemma length_filter_lt (l : list A) x :
  (∀ x, x ∈ l → P x → Q x) → x ∈ l → Q x → ¬ P x → length (filter P l) < length (filter Q l).
Proof.
  induction l as [|y l IH]; intros Himp Hx HQ HP; [set_solver|]. rewrite !filter_cons.
  pose proof (length_filter_mono l ltac:(set_solver)) as Hle.
  apply elem_of_cons in Hx as [<-|Hx].
  - rewrite decide_False, decide_True by done. simpl. lia.
  - specialize (IH ltac:(set_solver) Hx HQ HP). pose proof (Himp y).
    repeat case_decide; simpl; try lia. set_solver.
Qed.
End filters.

(** ** Sums and sizes *)
Section sums.
Context {A : Type}.
Implicit Types (g h : A → nat) (l : list A).

Lemma sum_list_with_in x g l : x ∈ l → g x ≤ sum_list_with g l.
Proof. induction 1; simpl; lia. Qed.

Lemma sum_list_with_le g h l : (∀ x, x ∈ l → g x ≤ h x) → sum_list_with g l ≤ sum_list_with h l.
Proof.
  induction l as [|x l IH]; intros H; simpl; [done|].
  pose proof (H x ltac:(set_solver)). specialize (IH ltac:(set_solver)). lia.
Qed.

Lemma sum_list_with_lt g h l y : y ∈ l → (∀ x, x ∈ l → g x ≤ h x) → g y < h y →
  sum_list_with g l < sum_list_with h l.
Proof.
  induction l as [|x l IH]; intros Hy H Hlt; simpl; [set_solver|].
  pose proof (H x ltac:(set_solver)). apply elem_of_cons in Hy as [<-|Hy].
  - pose proof (sum_list_with_le g h l ltac:(set_solver)). lia.
  - specialize (IH Hy ltac:(set_solver) Hlt). lia.
Qed.

Lemma sum_list_with_bound g l n : (∀ x, x ∈ l → g x ≤ n) → sum_list_with g l ≤ length l * n.
Proof.
  induction l as [|x l IH]; intros H; simpl; [done|].
  pose proof (H x ltac:(set_solver)). specialize (IH ltac:(set_solver)). lia.
Qed.
End sums.

Lemma size_list_to_set_le (l : list Ptr) : size (list_to_set l : gset Ptr) ≤ length l.
Proof.
  induction l as [|x l IH]; simpl; [done|].
  rewrite size_union_alt, size_singleton.
  pose proof (subseteq_size ((list_to_set l : gset Ptr) ∖ {[x]}) (list_to_set l) ltac:(set_solver)).
  lia.
Qed.

(** the elements that were not seen are added to a queue *)
Lemma push_unseen (l queue : list Ptr) (seen : gset Ptr) :
  ∃ new, foldl (λ (qe : list Ptr * gset Ptr) x, if decide (x ∈ qe.2) then qe else (qe.1 ++ [x], {[x]} ∪ qe.2))
               (queue, seen) l = (queue ++ new, list_to_set new ∪ seen) ∧
    NoDup new ∧ (∀ x, x ∈ new → x ∈ l ∧ x ∉ seen) ∧ ∀ x, x ∈ l → x ∈ new ∨ x ∈ seen.
Proof.
  revert queue seen. induction l as [|x l IH]; intros queue seen; simpl.
  { exists []. rewrite app_nil_r. split; [f_equal; set_solver|]. split; [constructor|]. set_solver. }
  case_decide as Hx.
  - destruct (IH queue seen) as (new & -> & Hnd & H1 & H2). exists new. split; [done|]. split; [done|]. set_solver.
  - destruct (IH (queue ++ [x]) ({[x]} ∪ seen)) as (new & -> & Hnd & H1 & H2). exists (x :: new).
    split; [f_equal; [by rewrite <- (assoc_L _)|set_solver]|].
    split; [constructor; [intros Hn%H1; set_solver|done]|]. set_solver.
Qed.

Lemma size_unseen (new : list Ptr) (seen : gset Ptr) : NoDup new → (∀ x, x ∈ new → x ∉ seen) →
  size (list_to_set new ∪ seen) = length new + size seen.
Proof. intros Hnd Hx. rewrite size_union, size_list_to_set by (done || set_solver). done. Qed.

(** ** Cycles of finite relations *)

(** A finite non-empty set in which every element has a predecessor contains a cycle. *)
Lemma finite_no_source_cycle (n : nat) : ∀ (R : relation Ptr) (U : gset Ptr),
  size U = n → U ≠ ∅ → (∀ u, u ∈ U → ∃ p, p ∈ U ∧ R p u) → ∃ x, x ∈ U ∧ tc R x x.
Proof.
  induction n as [|n IH]; intros R U Hn HU Hp.
  { apply size_empty_inv in Hn. set_solver. }
  apply set_choose_L in HU as [u Hu]. destruct (Hp u Hu) as (q & Hq & Hqu).
  destruct (decide (q = u)) as [->|Hne]; [eauto using tc_once|].
  destruct (IH (λ a b, R a b ∨ (R a u ∧ R u b)) (U ∖ {[u]})) as (x & Hx & Htc).
  - rewrite size_difference, size_singleton by set_solver. lia.
  - set_solver.
  - intros v Hv. destruct (Hp v) as (p & HpU & Hpv); [set_solver|].
    destruct (decide (p = u)) as [->|]; [exists q|exists p]; set_solver.
  - exists x. split; [set_solver|]. revert Htc. generalize x at 1 3. clear.
    intros y Htc. induction Htc as [y z [H|[H1 H2]]|y z t [H|[H1 H2]] _ IH];
      eauto using tc_once, tc_l.
Qed.

(** ** Invariants that every successful run keeps *)

Definition preserves {S A} (P : S → Prop) (m : M S A) : Prop :=
  ∀ s s' a, m s = Ok (s', a) → P s → P s'.

Section preserves.
Context {S : Type} (P : S → Prop).

Lemma pres_ret {A} (a : A) : preserves P (ret a).
Proof. by intros s s' b [= <- <-]. Qed.
Lemma pres_fail {A} e : preserves P (fail e : M S A).
Proof. by intros s s' b. Qed.
Lemma pres_gets {A} (f : S → A) : preserves P (gets f).
Proof. by intros s s' b [= <- <-]. Qed.
Lemma pres_get : preserves P get.
Proof. by intros s s' b [= <- <-]. Qed.
Lemma pres_modify f : (∀ s, P s → P (f s)) → preserves P (modify f).
Proof. intros Hf s s' b [= <- <-]. apply Hf. Qed.
Lemma pres_bind {A B} (m : M S A) (f : A → M S B) :
  preserves P m → (∀ a, preserves P (f a)) → preserves P (bind m f).
Proof.
  intros Hm Hf s s' b. unfold bind. destruct (m s) as [[s1 a]|] eqn:E; [|done].
  intros Hs HP. by eapply (Hf a s1), (Hm s).
Qed.
Lemma pres_deref {A} (o : option A) : preserves P (deref o).
Proof. destruct o; [apply pres_ret|apply pres_fail]. Qed.
Lemma pres_lift {A} (r : Res A) : preserves P (lift r).
Proof. destruct r; [apply pres_ret|apply pres_fail]. Qed.
Lemma pres_massert b : preserves P (massert b).
Proof. destruct b; [apply pres_ret|apply pres_fail]. Qed.
Lemma pres_forM {A} (f : A → M S unit) l : (∀ x, preserves P (f x)) → preserves P (forM f l).
Proof. intros Hf. induction l; simpl; [apply pres_ret|]. by apply pres_bind. Qed.
Lemma pres_foldM {A B} (f : B → A → M S B) b l :
  (∀ b x, preserves P (f b x)) → preserves P (foldM f b l).
Proof. intros Hf. revert b. induction l; simpl; intros b; [apply pres_ret|]. by apply pres_bind. Qed.
Lemma pres_mapM {A B} (f : A → M S B) l : (∀ x, preserves P (f x)) → preserves P (mapM f l).
Proof.
  intros Hf. induction l; simpl; [apply pres_ret|].
  apply pres_bind; [done|intros y]. apply pres_bind; [done|intros ys]. apply pres_ret.
Qed.
Lemma pres_filterM {A} (f : A → M S bool) l : (∀ x, preserves P (f x)) → preserves P (filterM f l).
Proof.
  intros Hf. induction l; simpl; [apply pres_ret|].
  apply pres_bind; [done|intros y]. apply pres_bind; [done|intros ys]. apply pres_ret.
Qed.
Lemma pres_zoom {T A} (gt : S → T) st (m : M T A) :
  (∀ s t a, m (gt s) = Ok (t, a) → P s → P (st t s)) → preserves P (zoom gt st m).
Proof.
  intros H s s' a. unfold zoom. destruct (m (gt s)) as [[t b]|] eqn:E; [|done].
  intros [= <- <-]. by eapply H.
Qed.
End preserves.

(** proves [preserves] of a composed method; [tac] handles its calls *)
Ltac pres_step tac :=
  first
    [ lazymatch goal with |- ∀ _, _ => intros ? end
    | apply pres_ret | apply pres_fail | apply pres_gets | apply pres_get | apply pres_deref
    | apply pres_lift | apply pres_massert | tac ()
    | apply pres_bind | apply pres_forM | apply pres_foldM | apply pres_mapM | apply pres_filterM
    | lazymatch goal with |- preserves _ (match ?x with _ => _ end) => destruct x end ].
Ltac pres_auto tac := repeat pres_step tac.

(** ** Integers of the machine

    The conversions to the unsigned and signed types of the program, as [Z] modulo a power of 2. *)
Section machine_integers.
#[local] Open Scope Z_scope.

(** [uint32_t], [uint64_t] and [int32_t] *)
Definition u32 (x : Z) : Z := x mod 2 ^ 32.
Definition u64 (x : Z) : Z := x mod 2 ^ 64.
Definition i32 (x : Z) : Z := (x + 2 ^ 31) mod 2 ^ 32 - 2 ^ 31.

Lemma u32_small x : 0 ≤ x < 2 ^ 32 → u32 x = x.
Proof. apply Z.mod_small. Qed.
Lemma u64_small x : 0 ≤ x < 2 ^ 64 → u64 x = x.
Proof. apply Z.mod_small. Qed.
Lemma i32_small x : 0 ≤ x < 2 ^ 31 → i32 x = x.
Proof. intros H. unfold i32. rewrite Z.mod_small; lia. Qed.
Lemma u32_range x : 0 ≤ u32 x < 2 ^ 32.
Proof. unfold u32. apply Z.mod_pos_bound. lia. Qed.

Lemma u64_add_l x y : u64 (u64 x + y) = u64 (x + y).
Proof. apply Zplus_mod_idemp_l. Qed.
Lemma u64_add_r x y : u64 (x + u64 y) = u64 (x + y).
Proof. apply Zplus_mod_idemp_r. Qed.
End machine_integers.
