(* ===== verification/SCCIterator.v ===== *)
(** * Strongly connected components of a graph (llvm::scc_iterator)

    The code lists the components of a graph with an iterator of llvm: an interface with its
    documented laws, and a reference implementation of it. *)
From S2P Require Import Prelude.

(** [scc_components nodes next entry] lists the components reachable from [entry] in the graph
    of the nodes [nodes] with the successors [next], each as the list of its nodes. *)
Class SCCIterator := scc_components : gset Ptr → (Ptr → list Ptr) → Ptr → list (list Ptr).

Definition reaches (next : Ptr → list Ptr) : relation Ptr := rtc (λ a b, b ∈ next a).
(** the successors of the nodes of the graph are nodes of it *)
Definition closed_graph (nodes : gset Ptr) (next : Ptr → list Ptr) : Prop :=
  ∀ n m, n ∈ nodes → m ∈ next n → m ∈ nodes.

(** the documented behaviour: the components partition the nodes reachable from the entry,
    and two nodes share a component when each reaches the other *)
Class SCCIteratorLaws (SI : SCCIterator) : Prop := {
  scc_cover nodes next entry n : closed_graph nodes next → entry ∈ nodes →
    (∃ c, c ∈ SI nodes next entry ∧ n ∈ c) ↔ reaches next entry n;
  scc_class nodes next entry c n m : closed_graph nodes next → entry ∈ nodes →
    c ∈ SI nodes next entry → n ∈ c → m ∈ c ↔ reaches next n m ∧ reaches next m n;
  scc_nonempty nodes next entry c : closed_graph nodes next → entry ∈ nodes →
    c ∈ SI nodes next entry → c ≠ []
}.

(** ** A reference implementation *)

Section reference.
Context (nodes : gset Ptr) (next : Ptr → list Ptr).

Definition grow (X : gset Ptr) : gset Ptr := X ∪ list_to_set (elements X ≫= next).
Definition reach_set (n : Ptr) : gset Ptr := Nat.iter (size nodes) grow {[n]}.
Definition component (n : Ptr) : gset Ptr := filter (λ m, n ∈ reach_set m) (reach_set n).
Definition reference_components (entry : Ptr) : list (list Ptr) :=
  remove_dups ((λ n, elements (component n)) <$> elements (reach_set entry)).

Context (Hclosed : closed_graph nodes next).

Lemma elem_of_grow X m : m ∈ grow X ↔ m ∈ X ∨ ∃ n, n ∈ X ∧ m ∈ next n.
Proof.
  unfold grow. rewrite elem_of_union, elem_of_list_to_set, list_elem_of_bind.
  setoid_rewrite elem_of_elements. naive_solver.
Qed.

Lemma grow_within X : X ⊆ nodes → grow X ⊆ nodes.
Proof. intros HX m [?|(n & ? & ?)]%elem_of_grow; [auto|]. eapply Hclosed; eauto. Qed.

(** growing either stops or adds a node *)
Lemma grow_progress k X : X ⊆ nodes → size nodes - size X ≤ k → grow (Nat.iter k grow X) = Nat.iter k grow X.
Proof.
  revert X. induction k as [|k IH]; intros X HX Hk.
  - simpl. assert (X = nodes) as ->; [|apply set_eq; intros m; rewrite elem_of_grow; naive_solver].
    apply set_eq. intros m. split; [auto|]. intros Hm. apply dec_stable. intros HmX.
    pose proof (size_subseteq_lt X nodes m HX Hm HmX). lia.
  - rewrite Nat.iter_succ_r. destruct (decide (grow X = X)) as [Heq|Hne].
    + assert (∀ j, Nat.iter j grow X = X) as Hfix by (induction j as [|j Hj]; simpl; congruence).
      by rewrite Heq, !Hfix.
    + apply IH; [by apply grow_within|]. assert (X ⊆ grow X) as Hsub by (intros m; rewrite elem_of_grow; auto).
      assert (∃ m, m ∈ grow X ∧ m ∉ X) as (m & Hm & HmX).
      { destruct (set_choose_or_empty (grow X ∖ X)) as [[m Hm%elem_of_difference]|He]; [eauto|].
        destruct Hne. apply (anti_symm (⊆)); [|done]. intros m Hm. apply dec_stable. intros HmX.
        apply (not_elem_of_empty (C := gset Ptr) m). rewrite <- He. by apply elem_of_difference. }
      pose proof (size_subseteq_lt X (grow X) m Hsub Hm HmX).
      pose proof (subseteq_size _ _ (grow_within X HX)). lia.
Qed.

Lemma elem_of_reach_set n m : n ∈ nodes → m ∈ reach_set n ↔ reaches next n m.
Proof.
  intros Hn. unfold reach_set. split.
  - assert (∀ k m, m ∈ Nat.iter k grow {[n]} → reaches next n m) as H; [|apply H].
    induction k as [|k IH]; simpl; intros m'.
    + intros ->%elem_of_singleton. apply rtc_refl.
    + intros [?|(a & Ha & Hm)]%elem_of_grow; [auto|]. eapply rtc_r; [by apply IH|done].
  - apply (rtc_closed (λ a b, b ∈ next a) (λ m, m ∈ Nat.iter (size nodes) grow {[n]})).
    + intros a b Ha Hab. rewrite <- (grow_progress (size nodes) {[n]}); [|set_solver|lia].
      apply elem_of_grow. eauto.
    + assert (∀ k, n ∈ Nat.iter k grow {[n]}) as H; [|apply H].
      induction k as [|k IH]; simpl; [set_solver|]. apply elem_of_grow. auto.
Qed.

Lemma reaches_node n m : n ∈ nodes → reaches next n m → m ∈ nodes.
Proof. intros Hn. apply (rtc_closed _ (λ m, m ∈ nodes)); [|done]. intros a b. apply Hclosed. Qed.

Lemma elem_of_component n m : n ∈ nodes → m ∈ component n ↔ reaches next n m ∧ reaches next m n.
Proof.
  intros Hn. unfold component. rewrite elem_of_filter, (elem_of_reach_set n m) by done. split.
  - intros [H1 H2]. split; [done|]. apply elem_of_reach_set in H1; [done|]. by eapply reaches_node.
  - intros [H1 H2]. split; [|done]. apply elem_of_reach_set; [|done]. by eapply reaches_node.
Qed.
End reference.

Definition reference_scc_iterator : SCCIterator := reference_components.
Lemma reference_laws : SCCIteratorLaws reference_scc_iterator.
Proof.
  assert (∀ nodes next entry c, closed_graph nodes next → entry ∈ nodes →
    c ∈ reference_components nodes next entry ↔
      ∃ n, reaches next entry n ∧ c = elements (component nodes next n)) as Hin.
  { intros nodes next entry c Hc He. unfold reference_components. rewrite elem_of_remove_dups, list_elem_of_fmap.
    setoid_rewrite elem_of_elements. setoid_rewrite (elem_of_reach_set nodes next Hc entry); [|done]. naive_solver. }
  split; intros nodes next entry.
  - intros n Hc He. setoid_rewrite (Hin nodes next entry); [|done..]. split.
    + intros (c & (m & Hm & ->) & Hn). apply elem_of_elements, elem_of_component in Hn as [? _]; [|done|].
      * by etransitivity.
      * by eapply reaches_node.
    + intros Hn. eexists. split; [by exists n|]. apply elem_of_elements, elem_of_component; [done|by eapply reaches_node|].
      split; apply rtc_refl.
  - intros c n m Hc He (k & Hk & ->)%Hin Hn; [|done..].
    assert (k ∈ nodes) as Hkn by by eapply reaches_node.
    rewrite elem_of_elements, elem_of_component in Hn |- * by done. destruct Hn as [H1 H2]. split.
    + intros [H3 H4]. split; by transitivity k.
    + intros [H3 H4]. split; by transitivity n.
  - intros c Hc He (k & Hk & ->)%Hin; [|done..]. intros Hnil.
    assert (k ∈ elements (component nodes next k)) as Hin'; [|rewrite Hnil in Hin'; by apply not_elem_of_nil in Hin'].
    apply elem_of_elements, elem_of_component; [done|by eapply reaches_node|]. split; apply rtc_refl.
Qed.
