(* ===== verification/Doubles.v ===== *)
(** * Doubles

    The profile divides counters as [double]s. A double is a binary64 number of the Standard
    Library's specification of floating-point arithmetic; here are the conversions of the
    code from and to uint64_t, and the proof that the truncated quotient of two counters is
    their quotient as integers as long as both are below 2^53. *)
From S2P Require Import Prelude.
From Stdlib Require Import Floats.SpecFloat.
Open Scope Z_scope.

Definition double : Type := spec_float.
Definition double_zero : double := S754_zero false.

(** [(double)n], rounded to the nearest, and [x / y] *)
Definition double_of_u64 (n : Z) : double := binary_normalize 53 1024 n 0 false.
Definition double_div (x y : double) : double := SFdiv 53 1024 x y.

(** [x == y] *)
Definition double_eq (x y : double) : bool := SFeqb x y.

(** the integer part of a positive finite double *)
Definition truncate (m e : Z) : Z := if 0 <=? e then m * 2 ^ e else m / 2 ^ (- e).

(** [(uint64_t)x]: undefined when the integer part does not fit *)
Definition u64_of_double (x : double) : Res Z :=
  match x with
  | S754_zero _ => Ok 0
  | S754_finite s m e =>
      let t := truncate (Zpos m) e in
      if s then (if t =? 0 then Ok 0 else Fail UndefinedBehaviour)
      else if t <? 2 ^ 64 then Ok t else Fail UndefinedBehaviour
  | S754_infinity _ | S754_nan => Fail UndefinedBehaviour
  end.

Example truncated_quotient_rounds :
  u64_of_double (double_div (double_of_u64 (2 ^ 53 + 1)) (double_of_u64 1)) = Ok (2 ^ 53).
Proof. vm_compute. reflexivity. Qed.
Example truncated_quotient_overflows :
  u64_of_double (double_div (double_of_u64 (2 ^ 64 - 1)) (double_of_u64 1)) = Fail UndefinedBehaviour.
Proof. vm_compute. reflexivity. Qed.

(** ** Numbers of binary digits *)

Lemma digits_bounds p : 2 ^ (Zpos (digits2_pos p) - 1) <= Zpos p < 2 ^ Zpos (digits2_pos p).
Proof.
  induction p as [p IH|p IH|]; cbn [digits2_pos]; [| |done].
  all: rewrite Pos2Z.inj_succ; unfold Z.succ;
    replace (Zpos (digits2_pos p) + 1 - 1) with (Zpos (digits2_pos p) - 1 + 1) by lia;
    rewrite !Z.pow_add_r by lia; lia.
Qed.

Lemma digits_unique p k : 2 ^ (k - 1) <= Zpos p < 2 ^ k -> 0 < k -> Zpos (digits2_pos p) = k.
Proof.
  intros [Hl Hu] Hk. pose proof (digits_bounds p) as [Hl' Hu'].
  destruct (Z.lt_trichotomy (Zpos (digits2_pos p)) k) as [H|[H|H]]; [|done|].
  - pose proof (Z.pow_le_mono_r 2 (Zpos (digits2_pos p)) (k - 1)). lia.
  - pose proof (Z.pow_le_mono_r 2 k (Zpos (digits2_pos p) - 1)). lia.
Qed.

Lemma shifted_by p d : Zpos (Pos.iter xO p d) = Zpos p * 2 ^ Zpos d.
Proof.
  revert p. induction d as [|d IH] using Pos.peano_ind; intros p; [simpl; lia|].
  rewrite Pos.iter_succ, Pos2Z.inj_xO, IH, Pos2Z.inj_succ, Z.pow_succ_r by lia. lia.
Qed.

Lemma digits_of p k : 2 ^ (k - 1) <= Zpos p < 2 ^ k -> 0 < k -> Zdigits2 (Zpos p) = k.
Proof. intros H Hk. by apply digits_unique. Qed.

(** ** Rounding *)

Lemma fexp_normal k e : k = 53 -> -1074 <= e -> fexp 53 1024 (k + e) = e.
Proof. unfold fexp, emin. lia. Qed.

Lemma shr_record_loc m l : loc_of_shr_record (shr_record_of_loc m l) = l.
Proof. by destruct l as [|[]]. Qed.
Lemma shr_record_m m l : shr_m (shr_record_of_loc m l) = m.
Proof. by destruct l as [|[]]. Qed.

Lemma truncate_half p e : truncate (Zpos p) (e + 1) = truncate (Zpos p * 2) e.
Proof.
  unfold truncate. destruct (Z.leb_spec 0 e), (Z.leb_spec 0 (e + 1)); try lia.
  - rewrite Z.pow_add_r by lia. lia.
  - assert (e = -1) as -> by lia. simpl. rewrite Z.div_mul by lia. lia.
  - replace (- e) with (- (e + 1) + 1) by lia. rewrite Z.pow_add_r by lia.
    rewrite Z.div_mul_cancel_r by (try apply Z.pow_nonzero; lia). done.
Qed.

(** the second pass of the rounding only has a carry to absorb *)
Lemma round_carry m e : 2 ^ 52 <= m <= 2 ^ 53 -> -1074 <= e ->
  ∃ p e', shr_fexp 53 1024 m e loc_Exact = (Build_shr_record (Zpos p) false false, e') ∧
    e' <= e + 1 ∧ truncate (Zpos p) e' = truncate m e.
Proof.
  intros Hm He. unfold shr_fexp. destruct (decide (m = 2 ^ 53)) as [->|Hne].
  - exists (2 ^ 52)%positive, (e + 1). replace (Zdigits2 (2 ^ 53)) with 54 by done.
    replace (fexp 53 1024 (54 + e) - e) with 1 by (unfold fexp, emin; lia).
    split; [done|]. split; [lia|]. by rewrite truncate_half.
  - destruct m as [|p|p]; [lia| |lia]. exists p, e.
    rewrite (digits_of p 53), fexp_normal, Z.sub_diag by lia. split; [done|]. split; [lia|done].
Qed.

(** one rounding of a mantissa of 53 bits *)
Lemma round_53 m e l : 2 ^ 52 <= m < 2 ^ 53 -> -1074 <= e -> e <= 900 ->
  ∃ p e', binary_round_aux 53 1024 false m e l = S754_finite false p e' ∧
    truncate (Zpos p) e' = truncate (round_nearest_even m l) e.
Proof.
  intros Hm He Hu. unfold binary_round_aux. destruct m as [|p|p]; [lia| |lia].
  unfold shr_fexp at 1. rewrite (digits_of p 53), fexp_normal, Z.sub_diag by lia. simpl shr.
  cbv beta iota. rewrite shr_record_loc, shr_record_m.
  destruct (round_carry (round_nearest_even (Zpos p) l) e) as (p' & e' & -> & He' & Ht).
  { destruct l as [|[]]; cbn [round_nearest_even]; try destruct (Z.even _); lia. }
  { done. }
  simpl shr_m. cbv beta iota. exists p', e'. split; [|done]. by rewrite (proj2 (Z.leb_le _ _)) by lia.
Qed.

(** the location of a mantissa whose lowest bit is shifted out *)
Definition shifted_loc (odd : bool) (l : location) : location :=
  match odd, l with
  | true, loc_Exact => loc_Inexact Eq
  | true, _ => loc_Inexact Gt
  | false, loc_Exact => loc_Exact
  | false, _ => loc_Inexact Lt
  end.

Lemma round_54 m e l : 2 ^ 53 <= m < 2 ^ 54 -> -1074 <= e -> e <= 900 ->
  binary_round_aux 53 1024 false m e l =
  binary_round_aux 53 1024 false (m / 2) (e + 1) (shifted_loc (Z.odd m) l).
Proof.
  intros Hm He Hu. unfold binary_round_aux. destruct m as [|p|p]; [lia| |lia].
  assert (fst (shr_fexp 53 1024 (Zpos p) e l) =
            shr_record_of_loc (Zpos p / 2) (shifted_loc (Z.odd (Zpos p)) l) ∧
          snd (shr_fexp 53 1024 (Zpos p) e l) = e + 1) as [H1 H2].
  { unfold shr_fexp. rewrite (digits_of p 54) by lia.
    replace (fexp 53 1024 (54 + e) - e) with 1 by (unfold fexp, emin; lia). simpl.
    rewrite <- Z.div2_div.
    destruct p as [p|p|], l as [|[]]; simpl; (split; [done|done]) || lia. }
  destruct (shr_fexp 53 1024 (Zpos p) e l) as [r e']; simpl in H1, H2; subst r e'.
  unfold shr_fexp at 2. destruct (Zpos p / 2) as [|p2|p2] eqn:Hp2.
  1, 3: exfalso; pose proof (Z.div_le_lower_bound (Zpos p) 2 1); lia.
  assert (2 ^ 52 <= Zpos p2 < 2 ^ 53) as Hb.
  { rewrite <- Hp2. split; [apply Z.div_le_lower_bound|apply Z.div_lt_upper_bound]; lia. }
  rewrite (digits_of p2 53), fexp_normal, Z.sub_diag by lia. done.
Qed.

Lemma round_exact p e : 2 ^ 52 <= Zpos p < 2 ^ 53 -> -1074 <= e -> e <= 900 ->
  binary_round_aux 53 1024 false (Zpos p) e loc_Exact = S754_finite false p e.
Proof.
  intros Hp He Hu. unfold binary_round_aux, shr_fexp.
  rewrite (digits_of p 53), fexp_normal, Z.sub_diag by lia. simpl.
  rewrite fexp_normal, Z.sub_diag by (try apply (digits_of p 53); lia). simpl.
  by rewrite (proj2 (Z.leb_le _ _)) by lia.
Qed.

(** a counter below 2^53 is converted exactly *)
Lemma double_of_u64_exact p k : Zdigits2 (Zpos p) = k -> k <= 53 ->
  ∃ m, double_of_u64 (Zpos p) = S754_finite false m (k - 53) ∧
       Zpos m = Zpos p * 2 ^ (53 - k) ∧ 2 ^ 52 <= Zpos m < 2 ^ 53.
Proof.
  intros Hk Hle. pose proof (digits_bounds p) as Hb. cbn [Zdigits2] in Hk. rewrite Hk in Hb.
  assert (∀ m, Zpos m = Zpos p * 2 ^ (53 - k) -> 2 ^ 52 <= Zpos m < 2 ^ 53) as Hm.
  { intros m ->. pose proof (Z.pow_pos_nonneg 2 (53 - k)).
    assert (2 ^ 52 = 2 ^ (k - 1) * 2 ^ (53 - k)) as -> by (rewrite <- Z.pow_add_r by lia; f_equal; lia).
    assert (2 ^ 53 = 2 ^ k * 2 ^ (53 - k)) as -> by (rewrite <- Z.pow_add_r by lia; f_equal; lia).
    nia. }
  unfold double_of_u64, binary_normalize, binary_round. rewrite Hk.
  replace (fexp 53 1024 (k + 0)) with (k - 53) by (unfold fexp, emin; lia).
  unfold shl_align. destruct (k - 53 - 0) as [|d|d] eqn:Hd; [|lia|].
  - exists p. assert (k = 53) as -> by lia. rewrite round_exact by (try apply Hm; simpl; lia).
    split; [done|]. split; [lia|]. apply Hm. lia.
  - exists (Pos.iter xO p d). assert (Zpos (Pos.iter xO p d) = Zpos p * 2 ^ (53 - k)) as Hs.
    { rewrite shifted_by. do 2 f_equal. lia. }
    rewrite round_exact by (try (by apply Hm); lia). split; [f_equal; lia|]. split; [done|]. by apply Hm.
Qed.

(** ** The truncated quotient *)

Lemma truncate_neg m k : 0 <= k -> truncate m (- k) = m / 2 ^ k.
Proof.
  intros Hk. unfold truncate. destruct (Z.leb_spec 0 (- k)).
  - assert (k = 0) as -> by lia. by rewrite Z.div_1_r, Z.mul_1_r.
  - do 2 f_equal. lia.
Qed.

(** rounding [n * 2^k / d] up does not reach the next integer multiple of [2^k] *)
Lemma rounding_keeps_floor n d k m : 0 < d -> 0 <= k -> d < 2 ^ (k + 1) ->
  m = n * 2 ^ k / d ∨ (m = n * 2 ^ k / d + 1 ∧ d <= 2 * ((n * 2 ^ k) mod d)) ->
  m / 2 ^ k = n / d.
Proof.
  intros Hd Hk Hlt Hm. rewrite Z.pow_add_r in Hlt by lia.
  pose proof (Z.pow_pos_nonneg 2 k ltac:(lia) Hk) as Hp.
  assert (n * 2 ^ k / d / 2 ^ k = n / d) as Hq.
  { rewrite Z.div_div by lia. by rewrite Z.div_mul_cancel_r by lia. }
  destruct Hm as [->|[-> Hr]]; [done|].
  set (q := n * 2 ^ k / d) in *. pose proof (Z.div_mod (n * 2 ^ k) d ltac:(lia)) as HN. fold q in HN.
  pose proof (Z.mod_pos_bound (n * 2 ^ k) d Hd). set (r := (n * 2 ^ k) mod d) in *.
  pose proof (Z.div_mod q (2 ^ k) ltac:(lia)) as HQ. rewrite Hq in HQ.
  pose proof (Z.mod_pos_bound q (2 ^ k) Hp).
  pose proof (Z.div_mod n d ltac:(lia)) as Hn. pose proof (Z.mod_pos_bound n d Hd).
  set (K := n / d) in *. set (u := q mod 2 ^ k) in *.
  symmetry. apply (Z.div_unique _ _ _ (u + 1)); [left|lia]. split; [lia|].
  destruct (decide (u + 1 < 2 ^ k)); [done|exfalso]. assert (u = 2 ^ k - 1) as Hu by lia.
  assert (d * (K + 1) * 2 ^ k = n * 2 ^ k - r + d) by nia.
  assert (n * 2 ^ k <= (d * (K + 1) - 1) * 2 ^ k) by (apply Z.mul_le_mono_nonneg_r; lia). nia.
Qed.

Lemma round_nearest_cases m l : round_nearest_even m l = m ∨
  (round_nearest_even m l = m + 1 ∧ (l = loc_Inexact Eq ∨ l = loc_Inexact Gt)).
Proof. destruct l as [|[]]; simpl; try destruct (Z.even m); auto. Qed.

Lemma new_location_up d r : 0 <= r < d ->
  new_location d r = loc_Inexact Eq ∨ new_location d r = loc_Inexact Gt -> d <= 2 * r.
Proof.
  intros Hr. unfold new_location, new_location_even, new_location_odd.
  destruct (Z.even d), (Z.eqb_spec r 0); try (intros [H|H]; congruence).
  - intros [[= H]|[= H]]; [apply Z.compare_eq in H|apply Z.compare_gt_iff in H]; lia.
  - destruct (Z.compare_spec (2 * r + 1) d); intros [[=]|[=]]; lia.
Qed.

(** both mantissas are shifted up to 53 bits: the quotient they give *)
Lemma shifted_quotient n d a b t : 0 < d -> 0 <= a -> 0 <= b -> 0 <= t -> a + 53 = t + b ->
  n * 2 ^ a * 2 ^ 53 / (d * 2 ^ b) = n * 2 ^ t / d ∧
  (n * 2 ^ a * 2 ^ 53) mod (d * 2 ^ b) = (n * 2 ^ t) mod d * 2 ^ b.
Proof.
  intros Hd Ha Hb Ht H. rewrite <- Z.mul_assoc, <- Z.pow_add_r by lia. rewrite H, Z.pow_add_r by lia.
  rewrite Z.mul_assoc. pose proof (Z.pow_pos_nonneg 2 b).
  split; [by rewrite Z.div_mul_cancel_r by lia|]. by rewrite Z.mul_mod_distr_r by lia.
Qed.

(** the rounding of an exact quotient [n * 2^t / d] of 53 or 54 bits *)
Lemma rounded_quotient n d b t q l : 0 < n -> 0 < d -> 0 <= b -> 1 <= t <= 1000 -> d < 2 ^ t ->
  q = n * 2 ^ t / d -> l = new_location (d * 2 ^ b) ((n * 2 ^ t) mod d * 2 ^ b) ->
  2 ^ 52 <= q < 2 ^ 54 ->
  ∃ p e, binary_round_aux 53 1024 false q (- t) l = S754_finite false p e ∧
    truncate (Zpos p) e = n / d.
Proof.
  intros Hn Hd Hb Ht Hlt Hq Hl Hrange.
  pose proof (Z.mod_pos_bound (n * 2 ^ t) d Hd) as Hr. pose proof (Z.pow_pos_nonneg 2 b ltac:(lia) Hb) as Hpb.
  pose proof (Z.div_mod (n * 2 ^ t) d ltac:(lia)) as HN. rewrite <- Hq in HN.
  set (r := (n * 2 ^ t) mod d) in *.
  assert (l = loc_Inexact Eq ∨ l = loc_Inexact Gt -> d <= 2 * r) as Hup.
  { rewrite Hl. intros H. apply new_location_up in H; nia. }
  destruct (Z.lt_ge_cases q (2 ^ 53)) as [Hq53|Hq53].
  - destruct (round_53 q (- t) l) as (p & e & -> & Ht'); [lia..|]. exists p, e.
    split; [done|]. rewrite Ht', truncate_neg by lia.
    apply rounding_keeps_floor; [lia|lia|rewrite Z.pow_add_r by lia; lia|].
    destruct (round_nearest_cases q l) as [->|[-> H]]; [by left|]. right. rewrite <- Hq. auto.
  - rewrite round_54 by lia.
    assert (2 ^ t = 2 ^ (t - 1) * 2) as Ht2.
    { replace t with (t - 1 + 1) at 1 by lia. by rewrite Z.pow_add_r by lia. }
    assert (n * 2 ^ (t - 1) / d = q / 2) as Hq2.
    { rewrite Hq, Ht2, Z.div_div by lia. rewrite Z.mul_assoc, Z.div_mul_cancel_r by lia. done. }
    destruct (round_53 (q / 2) (- t + 1) (shifted_loc (Z.odd q) l)) as (p & e & -> & Ht'); [|lia..|].
    { split; [apply Z.div_le_lower_bound|apply Z.div_lt_upper_bound]; lia. }
    exists p, e. split; [done|]. rewrite Ht'. replace (- t + 1) with (- (t - 1)) by lia.
    rewrite truncate_neg by lia.
    apply rounding_keeps_floor; [lia|lia|by replace (t - 1 + 1) with t by lia|]. rewrite Hq2.
    destruct (round_nearest_cases (q / 2) (shifted_loc (Z.odd q) l)) as [->|[-> H']]; [by left|right].
    split; [done|]. rewrite Zodd_mod in H'. pose proof (Z.div_mod q 2 ltac:(lia)) as Hq'.
    rewrite Z.mod_eq, Hq2 by lia.
    destruct (Z.eqb_spec (q mod 2) 1); [nia|]. destruct l as [|[]]; destruct H'; done.
Qed.

(** [(uint64_t)((double)n / (double)d)] is the quotient of [n] by [d] *)
Lemma truncated_quotient n d : 0 < n < 2 ^ 53 -> 0 < d < 2 ^ 53 ->
  u64_of_double (double_div (double_of_u64 n) (double_of_u64 d)) = Ok (n / d).
Proof.
  intros Hn Hd. destruct n as [|n|n]; [lia| |lia]. destruct d as [|d|d]; [lia| |lia].
  assert (∀ p, Zpos p < 2 ^ 53 -> 1 <= Zdigits2 (Zpos p) <= 53) as Hdig.
  { intros p Hp. pose proof (digits_bounds p). cbn [Zdigits2]. split; [lia|].
    destruct (Z.le_gt_cases (Zpos (digits2_pos p)) 53); [done|].
    pose proof (Z.pow_le_mono_r 2 53 (Zpos (digits2_pos p) - 1)). lia. }
  pose proof (Hdig n ltac:(lia)) as Hkn. pose proof (Hdig d ltac:(lia)) as Hkd.
  pose proof (digits_bounds d) as Hbd. cbn [Zdigits2] in Hkd, Hkn.
  set (kn := Zpos (digits2_pos n)) in *. set (kd := Zpos (digits2_pos d)) in *.
  destruct (double_of_u64_exact n kn) as (mx & -> & Hmx & Hbx); [done|lia|].
  destruct (double_of_u64_exact d kd) as (my & -> & Hmy & Hby); [done|lia|].
  unfold double_div, SFdiv, SFdiv_core_binary. rewrite !(digits_of _ 53) by lia.
  replace (fexp 53 1024 (53 + (kn - 53) - (53 + (kd - 53)))) with (kn - kd - 53)
    by (unfold fexp, emin; lia).
  replace (Z.min (kn - kd - 53) (kn - 53 - (kd - 53))) with (- (53 + kd - kn)) by lia.
  replace (kn - 53 - (kd - 53) - - (53 + kd - kn)) with 53 by lia. cbv beta iota zeta.
  rewrite Z.shiftl_mul_pow2 by lia.
  destruct (Z.div_eucl (Zpos mx * 2 ^ 53) (Zpos my)) as [q r] eqn:Hqr.
  assert (q = Zpos mx * 2 ^ 53 / Zpos my) as Hq by (unfold Z.div; by rewrite Hqr).
  assert (r = (Zpos mx * 2 ^ 53) mod Zpos my) as Hr by (unfold Z.modulo; by rewrite Hqr).
  pose proof (shifted_quotient (Zpos n) (Zpos d) (53 - kn) (53 - kd) (53 + kd - kn)) as [Hsq Hsr]; [lia..|].
  rewrite <- Hmx, <- Hmy, <- Hq in Hsq. rewrite <- Hmx, <- Hmy, <- Hr in Hsr.
  assert (2 ^ 52 <= q < 2 ^ 54).
  { rewrite Hq. split; [apply Z.div_le_lower_bound|apply Z.div_lt_upper_bound]; lia. }
  destruct (rounded_quotient (Zpos n) (Zpos d) (53 - kd) (53 + kd - kn) q (new_location (Zpos my) r))
    as (p & e & Hround & Hval); [lia..| |done|by rewrite Hmy, Hsr|done|].
  { pose proof (Z.pow_le_mono_r 2 kd (53 + kd - kn)). lia. }
  simpl xorb. rewrite Hround. unfold u64_of_double. rewrite Hval.
  assert (Zpos n / Zpos d <= Zpos n) by (apply Z.div_le_upper_bound; nia).
  by rewrite (proj2 (Z.ltb_lt _ _)) by lia.
Qed.
