(* ===== verification/Forest.v ===== *)
(** * Finite forests

    Dominator trees and loop trees are objects that point to their children and to their
    parent. What both share: a set of nodes whose two kinds of pointer agree, and a rank that
    grows from parent to child. *)
From S2P Require Import Prelude.

Lemma rtc_iff {A} (R R' : relation A) x y : (∀ a b, R a b ↔ R' a b) → rtc R x y ↔ rtc R' x y.
Proof. intros H. split; apply rtc_subrel; intros a b; apply H. Qed.

Section forest.
Variables (U : gset Ptr) (kids : Ptr → list Ptr) (par : Ptr → option Ptr) (rank : Ptr → nat).

Record is_forest : Prop := {
  fo_kids p : p ∈ U → NoDup (kids p);
  fo_link p c : p ∈ U → c ∈ kids p ↔ c ∈ U ∧ par c = Some p;
  fo_par c p : c ∈ U → par c = Some p → p ∈ U ∧ rank p < rank c
}.

Definition child (p c : Ptr) : Prop := p ∈ U ∧ c ∈ kids p.

(** [a] is [b] or an ancestor of [b] *)
Definition above : relation Ptr := rtc child.

(** the nodes of the sub-tree of [n], parents first *)
Fixpoint preorder (fuel : nat) (n : Ptr) : list Ptr :=
  match fuel with
  | O => []
  | S fuel => n :: mjoin (preorder fuel <$> kids n)
  end.

Definition height : nat := S (max_list (rank <$> elements U)).

(** the number of nodes of the sub-tree *)
Definition weight (n : Ptr) : nat := length (preorder height n).

Context (F : is_forest).

Lemma child_inv p c : child p c ↔ c ∈ U ∧ par c = Some p.
Proof.
  unfold child. split.
  - intros [Hp Hc]. by apply fo_link in Hc.
  - intros [Hc Hp]. destruct (fo_par F c p Hc Hp) as [HpU _]. split; [done|]. by apply fo_link.
Qed.

Lemma child_in p c : child p c → p ∈ U ∧ c ∈ U ∧ rank p < rank c.
Proof. intros [Hc Hp]%child_inv. destruct (fo_par F c p Hc Hp). done. Qed.

Lemma child_par p q c : child p c → child q c → p = q.
Proof. rewrite !child_inv. naive_solver. Qed.

Lemma above_in a b : above a b → a ∈ U ∨ b ∈ U → a ∈ U ∧ b ∈ U.
Proof.
  induction 1 as [a|a c b Hac _ IH]; [tauto|].
  destruct (child_in _ _ Hac) as (? & ? & _). intros _. split; [done|]. apply IH. by left.
Qed.

Lemma above_rank a b : above a b → rank a ≤ rank b ∧ (a = b ∨ rank a < rank b).
Proof.
  induction 1 as [a|a c b Hac _ IH]; [split; [lia|by left]|].
  destruct (child_in _ _ Hac) as (_ & _ & ?). split; [|right]; lia.
Qed.

Lemma above_antisym a b : above a b → above b a → a = b.
Proof. intros [_ [?|?]]%above_rank [? _]%above_rank; [done|lia]. Qed.

(** the ancestors of a node are ordered *)
Lemma above_comparable a b c : above a c → above b c → above a b ∨ above b a.
Proof.
  intros Ha Hb. revert Ha. induction Hb as [b|b d c Hbd Hdc IH]; intros Ha; [by left|].
  destruct (IH Ha) as [H|H].
  - apply rtc_inv_r in H as [->|(e & Hae & Hed)]; [right; by apply rtc_once|].
    left. by rewrite <- (child_par _ _ _ Hed Hbd).
  - right. by eapply rtc_l.
Qed.

Lemma above_parent a b : above a b ↔ a = b ∨ ∃ p, b ∈ U ∧ par b = Some p ∧ above a p.
Proof.
  split.
  - intros H%rtc_inv_r. destruct H as [->|(p & Hap & Hpb)]; [by left|].
    right. apply child_inv in Hpb as [? ?]. eauto.
  - intros [->|(p & Hb & Hp & Ha)]; [apply rtc_refl|].
    eapply rtc_r; [done|]. by apply child_inv.
Qed.

(** siblings have no common descendant *)
Lemma siblings_apart p c d x : child p c → child p d → above c x → above d x → c = d.
Proof.
  intros Hc Hd Hcx Hdx. destruct (child_in _ _ Hc) as (_ & _ & Rc).
  destruct (child_in _ _ Hd) as (_ & _ & Rd).
  assert (∀ u v, child p u → child p v → rank p < rank u → above u v → u = v) as Hgo.
  { intros u v Hu Hv Ru Huv. apply rtc_inv_r in Huv as [->|(e & Hue & Hev)]; [done|].
    rewrite (child_par _ _ _ Hev Hv) in Hue. apply above_rank in Hue. lia. }
  destruct (above_comparable c d x Hcx Hdx); [|symmetry]; eauto.
Qed.

Lemma height_bound n : n ∈ U → rank n < height.
Proof.
  intros Hn. unfold height. apply Nat.lt_succ_r, max_list_elem_of_le.
  apply list_elem_of_fmap. exists n. split; [done|]. by apply elem_of_elements.
Qed.

Lemma elem_of_preorder fuel n x : n ∈ U → height ≤ rank n + fuel →
  x ∈ preorder fuel n ↔ above n x.
Proof.
  revert n. induction fuel as [|fuel IH]; intros n Hn Hf.
  { pose proof (height_bound n Hn). lia. }
  simpl. rewrite elem_of_cons, list_elem_of_join. split.
  - intros [->|(l & Hx & (c & -> & Hc)%list_elem_of_fmap)]; [apply rtc_refl|].
    assert (child n c) as Hnc by done. destruct (child_in _ _ Hnc) as (_ & ? & ?).
    apply IH in Hx; [|done|lia]. by eapply rtc_l.
  - intros H. apply rtc_inv in H as [->|(c & Hnc & Hcx)]; [by left|right].
    destruct (child_in _ _ Hnc) as (_ & ? & ?). exists (preorder fuel c).
    split; [by apply IH; [done|lia|]|]. apply list_elem_of_fmap. exists c. split; [done|]. apply Hnc.
Qed.

Lemma preorder_fuel fuel fuel' n : n ∈ U → height ≤ rank n + fuel → height ≤ rank n + fuel' →
  preorder fuel n = preorder fuel' n.
Proof.
  revert fuel' n. induction fuel as [|fuel IH]; intros fuel' n Hn Hf Hf'.
  { pose proof (height_bound n Hn). lia. }
  destruct fuel' as [|fuel']; [pose proof (height_bound n Hn); lia|].
  simpl. do 2 f_equal. apply list_fmap_ext. intros i c Hc.
  assert (child n c) as Hnc by (split; [done|]; by eapply list_elem_of_lookup_2).
  destruct (child_in _ _ Hnc) as (_ & ? & ?). apply IH; [done|lia..].
Qed.

Lemma NoDup_preorder fuel n : n ∈ U → height ≤ rank n + fuel → NoDup (preorder fuel n).
Proof.
  revert n. induction fuel as [|fuel IH]; intros n Hn Hf; [apply NoDup_nil_2|].
  assert (∀ c, c ∈ kids n → child n c ∧ c ∈ U ∧ height ≤ rank c + fuel) as Hk.
  { intros c Hc. assert (child n c) as Hnc by done. destruct (child_in _ _ Hnc) as (_ & ? & ?).
    split; [done|]. split; [done|lia]. }
  simpl. apply NoDup_cons. split.
  - rewrite list_elem_of_join. intros (l & Hx & (c & -> & Hc)%list_elem_of_fmap).
    destruct (Hk c Hc) as (Hnc & HcU & Hcf). apply elem_of_preorder in Hx; [|done..].
    apply above_rank in Hx. apply child_in in Hnc. lia.
  - pose proof (fo_kids F n Hn) as Hnd. revert Hnd Hk. clear Hn Hf.
    induction (kids n) as [|c l IHl]; intros Hnd Hk; simpl; [apply NoDup_nil_2|].
    apply NoDup_cons in Hnd as [Hc Hnd]. apply NoDup_app.
    destruct (Hk c ltac:(by left)) as (Hnc & HcU & Hcf). split; [by apply IH|]. split.
    + intros x Hx. rewrite list_elem_of_join. intros (l' & Hx' & (d & -> & Hd)%list_elem_of_fmap).
      destruct (Hk d ltac:(by right)) as (Hnd' & HdU & Hdf).
      apply elem_of_preorder in Hx; [|done..]. apply elem_of_preorder in Hx'; [|done..].
      apply Hc. by rewrite (siblings_apart n c d x).
    + apply IHl; [done|]. intros d Hd. apply Hk. by right.
Qed.

(** *** The weight of a node, the measure of every traversal *)

Lemma weight_kids n : n ∈ U → weight n = S (sum_list_with weight (kids n)).
Proof.
  intros Hn. unfold weight at 1.
  rewrite (preorder_fuel height (S height) n) by (done || lia). cbn [preorder length]. f_equal.
  unfold weight. generalize (preorder height). intros f.
  induction (kids n) as [|c l IH]; [done|].
  change (mjoin (f <$> c :: l)) with (f c ++ mjoin (f <$> l)). rewrite length_app, IH. done.
Qed.

Lemma weight_pos n : n ∈ U → 0 < weight n.
Proof. intros Hn. rewrite weight_kids by done. lia. Qed.

Lemma weight_child p c : child p c → weight c < weight p.
Proof.
  intros Hc. rewrite (weight_kids p) by apply Hc.
  pose proof (sum_list_with_in c weight (kids p) (proj2 Hc)). lia.
Qed.

Lemma weight_bound n : n ∈ U → weight n ≤ size U.
Proof.
  intros Hn. unfold weight. rewrite <- (size_list_to_set (C := gset Ptr)).
  - apply subseteq_size. intros x. rewrite elem_of_list_to_set, elem_of_preorder by (done || lia).
    intros Hx. by apply (above_in _ _ Hx (or_introl Hn)).
  - apply NoDup_preorder; [done|lia].
Qed.

(** the weight is enough fuel *)
Lemma preorder_weight fuel n : n ∈ U → weight n ≤ fuel → preorder fuel n = preorder height n.
Proof.
  revert n. induction fuel as [|fuel IH]; intros n Hn Hf.
  { pose proof (weight_pos n Hn). lia. }
  rewrite (preorder_fuel height (S height) n) by (done || lia). cbn [preorder]. do 2 f_equal.
  apply list_fmap_ext. intros i c Hc.
  assert (child n c) as Hnc by (split; [done|]; by eapply list_elem_of_lookup_2).
  destruct (child_in _ _ Hnc) as (_ & ? & _). pose proof (weight_child _ _ Hnc). apply IH; [done|lia].
Qed.

(** the path from one node to another has one length *)
Lemma nsteps_unique k j a b : nsteps child k a b → nsteps child j a b → k = j.
Proof.
  assert (∀ k j a b, nsteps child k a b → nsteps child j a b → k ≤ j → k = j) as Hle.
  { clear k j a b. intros k. induction k as [|k IH]; intros j a b Hk Hj Hkj.
    - inversion Hk; subst. destruct j as [|j]; [done|]. apply nsteps_inv_r in Hj as (c & Hc & Hcb).
      apply child_in in Hcb as (_ & _ & Hr). apply rtc_nsteps_2, above_rank in Hc. lia.
    - destruct j as [|j]; [lia|]. apply nsteps_inv_r in Hk as (c & Hc & Hcb), Hj as (d & Hd & Hdb).
      rewrite (child_par _ _ _ Hdb Hcb) in Hd. f_equal. apply (IH j a c); [done|done|lia]. }
  intros Hk Hj. destruct (decide (k ≤ j)); [by eapply Hle|]. symmetry. eapply Hle; [done..|lia].
Qed.

(** a property proved of the children before the parent *)
Lemma forest_ind (P : Ptr → Prop) :
  (∀ n, n ∈ U → (∀ c, child n c → P c) → P n) → ∀ n, n ∈ U → P n.
Proof.
  intros Hstep n. induction n as [n IH] using (induction_ltof1 _ weight). intros Hn.
  apply Hstep; [done|]. intros c Hc. apply IH; [by apply weight_child|]. by apply (child_in n).
Qed.
End forest.

(** ** A decision procedure *)

Definition forest_check (U : gset Ptr) (kids : Ptr → list Ptr) (par : Ptr → option Ptr) (rank : Ptr → nat) : bool :=
  bool_decide (set_Forall (λ p, NoDup (kids p) ∧ Forall (λ c, c ∈ U ∧ par c = Some p) (kids p) ∧
    (match par p with
     | Some q => bool_decide (q ∈ U ∧ rank q < rank p ∧ p ∈ kids q)
     | None => true
     end = true)) U).

Lemma forest_check_sound U kids par rank : forest_check U kids par rank = true → is_forest U kids par rank.
Proof.
  intros H%bool_decide_eq_true. split.
  - intros p Hp. apply (H p Hp).
  - intros p c Hp. split.
    + intros Hc. destruct (H p Hp) as (_ & Hk & _). rewrite Forall_forall in Hk. by apply Hk.
    + intros [Hc Hcp]. destruct (H c Hc) as (_ & _ & Hq). rewrite Hcp in Hq. apply bool_decide_eq_true in Hq. tauto.
  - intros c p Hc Hp. destruct (H c Hc) as (_ & _ & Hq). rewrite Hp in Hq. apply bool_decide_eq_true in Hq. tauto.
Qed.

Lemma above_check U kids par rank a b : is_forest U kids par rank → a ∈ U →
  bool_decide (b ∈ preorder kids (height U rank) a) = true → above U kids a b.
Proof.
  intros F Ha Hb%bool_decide_eq_true. by apply (elem_of_preorder _ _ _ _ F) in Hb; [|done|lia].
Qed.
#[global] Arguments weight : simpl never.
#[global] Arguments height : simpl never.
