(* ===== verification/DGEdge.v ===== *)
(** * Dependence edges (src/core/dg: DGEdge.hpp, DataDependence.hpp and its sub-classes)

    The heap of nodes and edges shared by every graph of the program, the class
    hierarchy of dependences, and the operations of one edge. *)
From S2P Require Import Prelude.
From stdpp Require Import strings.

(** ** Kinds of dependences *)

(** [DGEdge::DependenceKind], in the order of the C++ enumeration *)
Inductive DependenceKind :=
  | CONTROL_DEPENDENCE
  | FIRST_DATA_DEPENDENCE
  | VARIABLE_DEPENDENCE
  | FIRST_MEMORY_DEPENDENCE
  | MAY_MEMORY_DEPENDENCE
  | MUST_MEMORY_DEPENDENCE
  | LAST_MEMORY_DEPENDENCE
  | LAST_DATA_DEPENDENCE
  | UNDEFINED_DEPENDENCE.

Definition kind_value (k : DependenceKind) : Z :=
  match k with
  | CONTROL_DEPENDENCE => 0
  | FIRST_DATA_DEPENDENCE => 1
  | VARIABLE_DEPENDENCE => 2
  | FIRST_MEMORY_DEPENDENCE => 3
  | MAY_MEMORY_DEPENDENCE => 4
  | MUST_MEMORY_DEPENDENCE => 5
  | LAST_MEMORY_DEPENDENCE => 6
  | LAST_DATA_DEPENDENCE => 7
  | UNDEFINED_DEPENDENCE => 8
  end.

(** [DataDependenceType] *)
Inductive DataDependenceType := DG_DATA_RAW | DG_DATA_WAR | DG_DATA_WAW.

#[export] Instance DependenceKind_eq_dec : EqDecision DependenceKind.
Proof. solve_decision. Defined.
#[export] Instance DataDependenceType_eq_dec : EqDecision DataDependenceType.
Proof. solve_decision. Defined.

(** ** Objects and the heap *)

(** An object of a concrete sub-class of [DGEdge]. [subEdges] is a pointer to a set
    ([None] = nullptr); [dataDepType] exists in the objects of the sub-classes of
    [DataDependence] only. *)
Record DGEdge := mkEdge {
  from : Ptr;
  to : Ptr;
  subEdges : option (gset Ptr);
  kind : DependenceKind;
  isLoopCarried : bool;
  dataDepType : option DataDependenceType
}.

(** An object of class [DGNode]; [ID] is an int32_t. *)
Record DGNode := mkNode {
  ID : Z;
  theT : Ptr;
  outgoingEdges : gset Ptr;
  incomingEdges : gset Ptr
}.

(** The live objects, by address. A pointer that is not in the domain dangles.
    [nextAddr] is the address of the next allocation. *)
Record Heap := mkHeap {
  hnodes : gmap Ptr DGNode;
  hedges : gmap Ptr DGEdge;
  nextAddr : Ptr
}.

Definition empty_heap : Heap := mkHeap ∅ ∅ 1%positive.

Definition set_hnodes f (h : Heap) : Heap := mkHeap (f (hnodes h)) (hedges h) (nextAddr h).
Definition set_hedges f (h : Heap) : Heap := mkHeap (hnodes h) (f (hedges h)) (nextAddr h).

(** reading, writing, allocating and deleting objects *)
Definition load_node (n : Ptr) : M Heap DGNode := λ h, deref (hnodes h !! n) h.
Definition load_edge (e : Ptr) : M Heap DGEdge := λ h, deref (hedges h !! e) h.
Definition store_node (n : Ptr) (x : DGNode) : M Heap unit := modify (set_hnodes <[n := x]>).
Definition store_edge (e : Ptr) (x : DGEdge) : M Heap unit := modify (set_hedges <[e := x]>).
Definition new_node (x : DGNode) : M Heap Ptr :=
  λ h, Ok (mkHeap (<[nextAddr h := x]> (hnodes h)) (hedges h) (Pos.succ (nextAddr h)),
           nextAddr h).
Definition new_edge (x : DGEdge) : M Heap Ptr :=
  λ h, Ok (mkHeap (hnodes h) (<[nextAddr h := x]> (hedges h)) (Pos.succ (nextAddr h)),
           nextAddr h).
Definition delete_node (n : Ptr) : M Heap unit := modify (set_hnodes (delete n)).
Definition delete_edge (e : Ptr) : M Heap unit := modify (set_hedges (delete e)).

Lemma wp_load_node n Q h : wp (load_node n) Q h ↔ ∃ x, hnodes h !! n = Some x ∧ Q x h.
Proof. unfold wp, load_node, deref, ret, fail. destruct (hnodes h !! n); naive_solver. Qed.
Lemma wp_load_edge e Q h : wp (load_edge e) Q h ↔ ∃ x, hedges h !! e = Some x ∧ Q x h.
Proof. unfold wp, load_edge, deref, ret, fail. destruct (hedges h !! e); naive_solver. Qed.

Section edge.
Context {IO : IterOrder}.

(** ** Constructors (DGEdge.hpp) *)

(** the constructor from a kind and two vertices *)
Definition DGEdge_new (k : DependenceKind) (src dst : Ptr) : DGEdge :=
  {| from := src; to := dst; subEdges := None; kind := k;
     isLoopCarried := false; dataDepType := None |}.

Definition set_subEdges s (e : DGEdge) : DGEdge :=
  mkEdge (from e) (to e) s (kind e) (isLoopCarried e) (dataDepType e).
Definition setLoopCarried (lc : bool) (e : DGEdge) : DGEdge :=
  mkEdge (from e) (to e) (subEdges e) (kind e) lc (dataDepType e).
Definition setSrcNode (f : Ptr) (e : DGEdge) : DGEdge :=
  mkEdge f (to e) (subEdges e) (kind e) (isLoopCarried e) (dataDepType e).
Definition setDstNode (t : Ptr) (e : DGEdge) : DGEdge :=
  mkEdge (from e) t (subEdges e) (kind e) (isLoopCarried e) (dataDepType e).

Definition getSrcNode (e : DGEdge) : Ptr := from e.
Definition getDstNode (e : DGEdge) : Ptr := to e.
Definition isLoopCarriedDependence (e : DGEdge) : bool := isLoopCarried e.
Definition getKind (e : DGEdge) : DependenceKind := kind e.

(** [getSubEdges]: a copy of the set, empty when there is none *)
Definition getSubEdges (e : DGEdge) : gset Ptr := default ∅ (subEdges e).

Definition getNumberOfSubEdges (e : DGEdge) : nat :=
  match subEdges e with None => 0 | Some s => size s end.

(** [addSubEdge]: [sub] is the sub-edge at address [p]. The set is allocated on the
    first use, and the edge becomes loop-carried if the sub-edge is. *)
Definition addSubEdge (e : DGEdge) (p : Ptr) (sub : DGEdge) : DGEdge :=
  let s := match subEdges e with None => ∅ | Some s => s end in
  let e := set_subEdges (Some ({[p]} ∪ s)) e in
  setLoopCarried (isLoopCarried e || isLoopCarriedDependence sub) e.

(** [removeSubEdges]: frees the set, if any, and clears the loop-carried flag *)
Definition removeSubEdges (e : DGEdge) : DGEdge :=
  match subEdges e with
  | None => e
  | Some _ => setLoopCarried false (set_subEdges None e)
  end.

(** [removeSubEdge]: aborts when there is no set *)
Definition removeSubEdge (e : DGEdge) (p : Ptr) : Res DGEdge :=
  match subEdges e with
  | None => Fail Aborted
  | Some s =>
      let e := set_subEdges (Some (s ∖ {[p]})) e in
      Ok (if bool_decide (getNumberOfSubEdges e = 0) then removeSubEdges e else e)
  end.

(** [addSubEdge] on the edge stored at [e] *)
Definition addSubEdgeTo (e p : Ptr) : M Heap unit :=
  let* sub := load_edge p in
  let* x := load_edge e in
  store_edge e (addSubEdge x p sub).

(** the loop of the copy constructor: add every sub-edge of the list *)
Fixpoint addSubEdges (c : DGEdge) (l : list Ptr) : M Heap DGEdge :=
  match l with
  | [] => ret c
  | p :: l => let* sub := load_edge p in addSubEdges (addSubEdge c p sub) l
  end.

(** the copy constructor [DGEdge(const DGEdge &)]; the sub-class copy constructors
    copy [dataDepType] as well *)
Definition DGEdge_copy (e : DGEdge) : M Heap DGEdge :=
  let c := {| from := getSrcNode e; to := getDstNode e; subEdges := None; kind := kind e;
              isLoopCarried := isLoopCarriedDependence e; dataDepType := None |} in
  match subEdges e with
  | None => ret c
  | Some s => addSubEdges c (visit s)
  end.

(** ** Sub-classes *)

(** [DataDependence(kind, src, dst, t)] and its copy constructor *)
Definition DataDependence_new (k : DependenceKind) (src dst : Ptr) (t : DataDependenceType)
    : DGEdge :=
  let e := DGEdge_new k src dst in
  mkEdge (from e) (to e) (subEdges e) (kind e) (isLoopCarried e) (Some t).

Definition DataDependence_copy (e : DGEdge) : M Heap DGEdge :=
  let* c := DGEdge_copy e in
  ret (mkEdge (from c) (to c) (subEdges c) (kind c) (isLoopCarried c) (dataDepType e)).

(** [MemoryDependence]'s constructors only forward *)
Definition MemoryDependence_new := DataDependence_new.
Definition MemoryDependence_copy := DataDependence_copy.

Definition ControlDependence_new (src dst : Ptr) : DGEdge :=
  DGEdge_new CONTROL_DEPENDENCE src dst.
Definition ControlDependence_copy : DGEdge → M Heap DGEdge := DGEdge_copy.
Definition UndefinedDependence_new (src dst : Ptr) : DGEdge :=
  DGEdge_new UNDEFINED_DEPENDENCE src dst.
Definition UndefinedDependence_copy : DGEdge → M Heap DGEdge := DGEdge_copy.
Definition VariableDependence_new (src dst : Ptr) (t : DataDependenceType) : DGEdge :=
  DataDependence_new VARIABLE_DEPENDENCE src dst t.
Definition VariableDependence_copy : DGEdge → M Heap DGEdge := DataDependence_copy.
Definition MayMemoryDependence_new (src dst : Ptr) (t : DataDependenceType) : DGEdge :=
  MemoryDependence_new MAY_MEMORY_DEPENDENCE src dst t.
Definition MayMemoryDependence_copy : DGEdge → M Heap DGEdge := MemoryDependence_copy.
Definition MustMemoryDependence_new (src dst : Ptr) (t : DataDependenceType) : DGEdge :=
  MemoryDependence_new MUST_MEMORY_DEPENDENCE src dst t.
Definition MustMemoryDependence_copy : DGEdge → M Heap DGEdge := MemoryDependence_copy.

(** [classof] of each class: what [isa<...>] tests *)
Definition ControlDependence_classof (e : DGEdge) : bool :=
  bool_decide (getKind e = CONTROL_DEPENDENCE).
Definition UndefinedDependence_classof (e : DGEdge) : bool :=
  bool_decide (getKind e = UNDEFINED_DEPENDENCE).
Definition VariableDependence_classof (e : DGEdge) : bool :=
  bool_decide (getKind e = VARIABLE_DEPENDENCE).
Definition MayMemoryDependence_classof (e : DGEdge) : bool :=
  bool_decide (getKind e = MAY_MEMORY_DEPENDENCE).
Definition MustMemoryDependence_classof (e : DGEdge) : bool :=
  bool_decide (getKind e = MUST_MEMORY_DEPENDENCE).
Definition MemoryDependence_classof (e : DGEdge) : bool :=
  let sKind := getKind e in
  (kind_value FIRST_MEMORY_DEPENDENCE <=? kind_value sKind)%Z &&
  (kind_value sKind <=? kind_value LAST_MEMORY_DEPENDENCE)%Z.
Definition DataDependence_classof (e : DGEdge) : bool :=
  let sKind := getKind e in
  (kind_value FIRST_DATA_DEPENDENCE <=? kind_value sKind)%Z &&
  (kind_value sKind <=? kind_value LAST_DATA_DEPENDENCE)%Z.

(** [isRAWDependence] and its siblings, on the stored type *)
Definition isRAWDependence (t : DataDependenceType) : bool := bool_decide (t = DG_DATA_RAW).
Definition isWARDependence (t : DataDependenceType) : bool := bool_decide (t = DG_DATA_WAR).
Definition isWAWDependence (t : DataDependenceType) : bool := bool_decide (t = DG_DATA_WAW).

(** ** Printing *)
Open Scope string_scope.

Definition dataDepToString (t : DataDependenceType) : Res string :=
  if isRAWDependence t then Ok "RAW"
  else if isWARDependence t then Ok "WAR"
  else if isWAWDependence t then Ok "WAW"
  else Fail Aborted.

Definition stringToDataDep (str : string) : Res DataDependenceType :=
  if bool_decide (str = "RAW") then Ok DG_DATA_RAW
  else if bool_decide (str = "WAR") then Ok DG_DATA_WAR
  else if bool_decide (str = "WAW") then Ok DG_DATA_WAW
  else Fail Aborted.

Definition newline : string := String (Ascii.ascii_of_nat 10) EmptyString.

(** the loop over the sub-edges that every [toString] starts with *)
Fixpoint subEdgesToString (rec : Ptr → Res string) (l : list Ptr) : Res string :=
  match l with
  | [] => Ok ""
  | p :: l => rbind (rec p) (λ s, rbind (subEdgesToString rec l) (λ r, Ok (s +:+ r)))
  end.

Definition loopCarriedString (e : DGEdge) : string :=
  if isLoopCarriedDependence e then "Loop-carried " else "".

(** [this->dataDepToString()]; an object that is not a data dependence has no such field *)
Definition dataDepString (e : DGEdge) : Res string :=
  match dataDepType e with Some t => dataDepToString t | None => Fail UndefinedBehaviour end.

Definition ControlDependence_toString (rec : Ptr → Res string) (e : DGEdge) : Res string :=
  if decide (0 < getNumberOfSubEdges e) then subEdgesToString rec (visit (getSubEdges e))
  else Ok ("Attributes: " +:+ loopCarriedString e +:+ "Control" +:+ newline).

Definition UndefinedDependence_toString (rec : Ptr → Res string) (e : DGEdge) : Res string :=
  if decide (0 < getNumberOfSubEdges e) then subEdgesToString rec (visit (getSubEdges e))
  else Ok ("Attributes: " +:+ loopCarriedString e +:+ "Undefined" +:+ newline).

Definition VariableDependence_toString (rec : Ptr → Res string) (e : DGEdge) : Res string :=
  if decide (0 < getNumberOfSubEdges e) then subEdgesToString rec (visit (getSubEdges e))
  else rbind (dataDepString e) (λ d,
         Ok ("Attributes: " +:+ loopCarriedString e +:+ "Data " +:+ d +:+ newline)).

Definition MayMemoryDependence_toString (rec : Ptr → Res string) (e : DGEdge) : Res string :=
  if decide (0 < getNumberOfSubEdges e) then subEdgesToString rec (visit (getSubEdges e))
  else rbind (dataDepString e) (λ d,
         Ok ("Attributes: " +:+ loopCarriedString e +:+ "Data " +:+ d
             +:+ " (may) from memory" +:+ newline)).

Definition MustMemoryDependence_toString (rec : Ptr → Res string) (e : DGEdge) : Res string :=
  if decide (0 < getNumberOfSubEdges e) then subEdgesToString rec (visit (getSubEdges e))
  else rbind (dataDepString e) (λ d,
         Ok ("Attributes: " +:+ loopCarriedString e +:+ "Data " +:+ d
             +:+ " (must) from memory" +:+ newline)).

(** the virtual call [edge->toString()]; [fuel] bounds the nesting of sub-edges *)
Fixpoint toString (fuel : nat) (h : Heap) (p : Ptr) : Res string :=
  match fuel with
  | O => Fail OutOfFuel
  | S fuel =>
      match hedges h !! p with
      | None => Fail UndefinedBehaviour
      | Some e =>
          match getKind e with
          | CONTROL_DEPENDENCE => ControlDependence_toString (toString fuel h) e
          | UNDEFINED_DEPENDENCE => UndefinedDependence_toString (toString fuel h) e
          | VARIABLE_DEPENDENCE => VariableDependence_toString (toString fuel h) e
          | MAY_MEMORY_DEPENDENCE => MayMemoryDependence_toString (toString fuel h) e
          | MUST_MEMORY_DEPENDENCE => MustMemoryDependence_toString (toString fuel h) e
          | _ => Fail UndefinedBehaviour
          end
      end
  end.

End edge.

(** ** Well-formed objects *)

(** The concrete classes: a data dependence has a type, the others have none. *)
Definition edge_class_ok (e : DGEdge) : Prop :=
  match kind e with
  | CONTROL_DEPENDENCE | UNDEFINED_DEPENDENCE => dataDepType e = None
  | VARIABLE_DEPENDENCE | MAY_MEMORY_DEPENDENCE | MUST_MEMORY_DEPENDENCE =>
      is_Some (dataDepType e)
  | _ => False
  end.

(** The class tests agree with the class hierarchy: on a concrete object, exactly one of
    the five leaf tests holds, and the tests of the abstract classes are the unions of
    those of their sub-classes. *)
Lemma classof_hierarchy e :
  edge_class_ok e →
  MemoryDependence_classof e = MayMemoryDependence_classof e || MustMemoryDependence_classof e ∧
  DataDependence_classof e = VariableDependence_classof e || MemoryDependence_classof e ∧
  (DataDependence_classof e = true ↔ is_Some (dataDepType e)) ∧
  ControlDependence_classof e || UndefinedDependence_classof e = negb (DataDependence_classof e).
Proof.
  unfold edge_class_ok, MemoryDependence_classof, DataDependence_classof,
    VariableDependence_classof, MayMemoryDependence_classof, MustMemoryDependence_classof,
    ControlDependence_classof, UndefinedDependence_classof, getKind.
  destruct e as [f t se k lc d]; destruct k, d; simpl; intros H; try done;
    try (by destruct H); repeat split; vm_compute; try done; eauto; by intros [? ?].
Qed.

Section edge_facts.
Context {IO : IterOrder}.

(** The loop-carried flag after [addSubEdge] and the set of sub-edges *)
Lemma addSubEdge_spec e p sub :
  getSubEdges (addSubEdge e p sub) = {[p]} ∪ getSubEdges e ∧
  isLoopCarried (addSubEdge e p sub) = isLoopCarried e || isLoopCarried sub ∧
  from (addSubEdge e p sub) = from e ∧ to (addSubEdge e p sub) = to e ∧
  kind (addSubEdge e p sub) = kind e ∧
  dataDepType (addSubEdge e p sub) = dataDepType e.
Proof. unfold addSubEdge, getSubEdges. by destruct (subEdges e). Qed.

Lemma addSubEdges_spec l c h :
  (∀ p, p ∈ l → is_Some (hedges h !! p)) →
  wp (addSubEdges c l) (λ c' h', h' = h ∧ from c' = from c ∧ to c' = to c ∧ kind c' = kind c ∧
    dataDepType c' = dataDepType c ∧ getSubEdges c' = list_to_set l ∪ getSubEdges c ∧
    (isLoopCarried c' = true ↔ isLoopCarried c = true ∨
       ∃ p x, p ∈ l ∧ hedges h !! p = Some x ∧ isLoopCarried x = true)) h.
Proof.
  revert c. induction l as [|p l IH]; intros c Hl; simpl.
  - apply wp_ret. set_solver.
  - apply wp_bind, wp_load_edge.
    destruct (Hl p) as [x Hx]; [set_solver|]. exists x. split; [done|].
    eapply wp_mono; [apply IH; set_solver|].
    intros c' h' (-> & Hf & Ht & Hk & Hd & Hss & Hlc).
    destruct (addSubEdge_spec c p x) as (E1 & E2 & E3 & E4 & E5 & E6).
    rewrite Hf, Ht, Hk, Hd, Hss, Hlc, E1, E2, E3, E4, E5, E6, orb_true_iff.
    do 6 (split; [done || set_solver|]). split.
    + intros [[?|?]|(q & y & ? & ? & ?)]; [tauto|right; exists p, x; set_solver|].
      right. exists q, y. set_solver.
    + intros [?|(q & y & Hq & Hy & ?)]; [tauto|].
      apply elem_of_cons in Hq as [->|Hq]; [left; right; congruence|].
      right. exists q, y. done.
Qed.

(** Copying an edge reads its sub-edges and changes nothing; the copy has the same
    vertices, kind and sub-edges, and is loop-carried if the edge or a sub-edge is. *)
Lemma DGEdge_copy_spec e h :
  (∀ p, p ∈ getSubEdges e → is_Some (hedges h !! p)) →
  wp (DGEdge_copy e) (λ c h', h' = h ∧ from c = from e ∧ to c = to e ∧ kind c = kind e ∧
    dataDepType c = None ∧ getSubEdges c = getSubEdges e ∧
    (isLoopCarried c = true ↔ isLoopCarried e = true ∨
       ∃ p x, p ∈ getSubEdges e ∧ hedges h !! p = Some x ∧ isLoopCarried x = true)) h.
Proof.
  intros Hsub. unfold DGEdge_copy.
  destruct (subEdges e) as [s|] eqn:Hs.
  - eapply wp_mono.
    + apply addSubEdges_spec. intros p. rewrite elem_of_visit. intros.
      apply Hsub. unfold getSubEdges. by rewrite Hs.
    + unfold getSubEdges. rewrite Hs. simpl. rewrite list_to_set_visit.
      setoid_rewrite elem_of_visit. rewrite (right_id_L ∅ _). naive_solver.
  - apply wp_ret. unfold getSubEdges. rewrite Hs. simpl. set_solver.
Qed.

Lemma DataDependence_copy_spec e h :
  (∀ p, p ∈ getSubEdges e → is_Some (hedges h !! p)) →
  wp (DataDependence_copy e) (λ c h', h' = h ∧ from c = from e ∧ to c = to e ∧
    kind c = kind e ∧ dataDepType c = dataDepType e ∧ getSubEdges c = getSubEdges e ∧
    (isLoopCarried c = true ↔ isLoopCarried e = true ∨
       ∃ p x, p ∈ getSubEdges e ∧ hedges h !! p = Some x ∧ isLoopCarried x = true)) h.
Proof.
  intros Hsub. unfold DataDependence_copy. apply wp_bind.
  eapply wp_mono; [by apply DGEdge_copy_spec|].
  intros c h' (-> & H). apply wp_ret. simpl. naive_solver.
Qed.
End edge_facts.
