(* ===== verification/DGNode.v ===== *)
(** * Nodes of a dependence graph (src/core/dg: DGNode.hpp)

    The operations of one node. Those that only touch the node's own fields are
    functions on [DGNode]; those that follow edges read the heap. *)
From S2P Require Import Prelude DGEdge.

(** [DGNode(id, node)] *)
Definition DGNode_new (id : Z) (node : Ptr) : DGNode :=
  {| ID := id; theT := node; outgoingEdges := ∅; incomingEdges := ∅ |}.

Definition set_outgoing (s : gset Ptr) (n : DGNode) : DGNode :=
  mkNode (ID n) (theT n) s (incomingEdges n).
Definition set_incoming (s : gset Ptr) (n : DGNode) : DGNode :=
  mkNode (ID n) (theT n) (outgoingEdges n) s.

Definition getT (n : DGNode) : Ptr := theT n.
Definition getAllEdges (n : DGNode) : gset Ptr := outgoingEdges n ∪ incomingEdges n.
Definition degree (n : DGNode) : nat := size (outgoingEdges n) + size (incomingEdges n).
Definition outDegree (n : DGNode) : nat := size (outgoingEdges n).
Definition inDegree (n : DGNode) : nat := size (incomingEdges n).
Definition addIncomingEdge (n : DGNode) (e : Ptr) : DGNode :=
  set_incoming ({[e]} ∪ incomingEdges n) n.
Definition addOutgoingEdge (n : DGNode) (e : Ptr) : DGNode :=
  set_outgoing ({[e]} ∪ outgoingEdges n) n.

(** [removeConnectedEdge]: the edge is dropped from the outgoing set if it is there,
    from the incoming set otherwise *)
Definition removeConnectedEdge (n : DGNode) (e : Ptr) : DGNode :=
  if decide (e ∈ outgoingEdges n)
  then set_outgoing (outgoingEdges n ∖ {[e]}) n
  else set_incoming (incomingEdges n ∖ {[e]}) n.

(** ** Through the heap *)

(** [edge->getSrc()] and [edge->getDst()]: the [T] of the vertices *)
Definition getSrc (e : DGEdge) : M Heap Ptr := let* n := load_node (from e) in ret (getT n).
Definition getDst (e : DGEdge) : M Heap Ptr := let* n := load_node (to e) in ret (getT n).

(** applying a node operation to the node stored at [p] *)
Definition update_node (p : Ptr) (f : DGNode → DGNode) : M Heap unit :=
  let* n := load_node p in store_node p (f n).

(** [removeConnectedNode(node)] on the node stored at [self] *)
Definition removeConnectedNode `{IterOrder} (self node : Ptr) : M Heap unit :=
  let* n := load_node self in
  let* outgoingEdgesToRemove :=
    filterM (λ e, let* x := load_edge e in ret (bool_decide (getDstNode x = node)))
            (visit (outgoingEdges n)) in
  update_node self
    (λ n, set_outgoing (outgoingEdges n ∖ list_to_set outgoingEdgesToRemove) n) ;;;
  let* n := load_node self in
  let* incomingEdgesToRemove :=
    filterM (λ e, let* x := load_edge e in ret (bool_decide (getSrcNode x = node)))
            (visit (incomingEdges n)) in
  update_node self
    (λ n, set_incoming (incomingEdges n ∖ list_to_set incomingEdgesToRemove) n).

Lemma wp_update_node p f Q h :
  wp (update_node p f) Q h ↔
  is_Some (hnodes h !! p) ∧ Q tt (set_hnodes (alter f p) h).
Proof.
  unfold update_node. rewrite wp_bind, wp_load_node.
  assert (∀ n, hnodes h !! p = Some n →
            set_hnodes <[p := f n]> h = set_hnodes (alter f p) h) as E.
  { intros n Hn. unfold set_hnodes. by rewrite (alter_alt_Some f _ _ _ Hn). }
  split.
  - intros (n & Hn & HQ). split; [eauto|]. by rewrite <- (E n).
  - intros [[n Hn] HQ]. exists n. split; [done|]. by rewrite <- (E n) in HQ.
Qed.

Lemma wp_getSrc e Q h :
  wp (getSrc e) Q h ↔ ∃ n, hnodes h !! from e = Some n ∧ Q (theT n) h.
Proof. unfold getSrc. rewrite wp_bind, wp_load_node. done. Qed.

Lemma wp_getDst e Q h :
  wp (getDst e) Q h ↔ ∃ n, hnodes h !! to e = Some n ∧ Q (theT n) h.
Proof. unfold getDst. rewrite wp_bind, wp_load_node. done. Qed.

(** The set of the edges of [s] that satisfy a decidable predicate on the stored edge *)
Definition edges_with (h : Heap) (P : DGEdge → Prop) `{∀ x, Decision (P x)} (s : gset Ptr)
    : gset Ptr :=
  filter (λ e, match hedges h !! e with Some x => bool_decide (P x) | None => false end = true) s.

Lemma elem_of_edges_with h P `{∀ x, Decision (P x)} s e :
  e ∈ edges_with h P s ↔ e ∈ s ∧ ∃ x, hedges h !! e = Some x ∧ P x.
Proof.
  unfold edges_with. rewrite elem_of_filter.
  destruct (hedges h !! e) as [x|]; [|naive_solver].
  rewrite bool_decide_eq_true. naive_solver.
Qed.

Lemma filterM_edges `{IterOrder} h (P : DGEdge → Prop) `{∀ x, Decision (P x)} s Q :
  (∀ e, e ∈ s → is_Some (hedges h !! e)) →
  (∀ l, list_to_set l = edges_with h P s → Q l h) →
  wp (filterM (λ e, let* x := load_edge e in ret (bool_decide (P x))) (visit s)) Q h.
Proof.
  intros Hs HQ.
  apply (wp_filterM _
    (λ e, match hedges h !! e with Some x => bool_decide (P x) | None => false end = true)).
  - intros e He. destruct (Hs e) as [x Hx]; [by apply elem_of_visit|].
    unfold bind, load_edge, deref, ret. rewrite Hx. repeat case_bool_decide; naive_solver.
  - apply HQ. unfold edges_with. apply set_eq. intros e.
    rewrite elem_of_list_to_set, list_elem_of_filter, elem_of_visit, elem_of_filter. done.
Qed.

(** A node without its edges to and from [node] *)
Definition drop_neighbour (h : Heap) (node : Ptr) (n : DGNode) : DGNode :=
  mkNode (ID n) (theT n)
    (outgoingEdges n ∖ edges_with h (λ x, to x = node) (outgoingEdges n))
    (incomingEdges n ∖ edges_with h (λ x, from x = node) (incomingEdges n)).

(** [removeConnectedNode] drops from the outgoing set the edges to [node] and from the
    incoming set the edges from [node], and changes nothing else. *)
Lemma removeConnectedNode_spec `{IterOrder} self node n h :
  hnodes h !! self = Some n →
  (∀ e, e ∈ getAllEdges n → is_Some (hedges h !! e)) →
  wp (removeConnectedNode self node)
     (λ _ h', h' = set_hnodes (alter (drop_neighbour h node) self) h) h.
Proof.
  intros Hn Hall. unfold removeConnectedNode.
  apply wp_bind, wp_load_node. exists n. split; [done|].
  apply wp_bind, (filterM_edges _ (λ x, getDstNode x = node)).
  { intros e He. apply Hall. unfold getAllEdges. set_solver. }
  intros l Hl. apply wp_bind, wp_update_node. split; [eauto|].
  apply wp_bind, wp_load_node. simpl. rewrite lookup_alter_eq, Hn. simpl.
  eexists. split; [done|].
  apply wp_bind, (filterM_edges _ (λ x, getSrcNode x = node)).
  { simpl. intros e He. apply Hall. unfold getAllEdges. set_solver. }
  intros l' Hl'. simpl. apply wp_update_node. simpl.
  split; [rewrite lookup_alter_eq, Hn; eauto|].
  unfold set_hnodes. simpl. f_equal. apply map_eq. intros i.
  destruct (decide (i = self)) as [->|Hi].
  - rewrite !lookup_alter_eq, Hn. simpl. unfold drop_neighbour. by rewrite Hl, Hl'.
  - by rewrite !lookup_alter_ne by done.
Qed.
