(* ===== verification/DGBase.v ===== *)
(** * Dependence graphs (src/core/dg: DGBase.hpp)

    The class [DG<T>]: its state, every operation that changes it, its queries, the
    well-formedness invariant and the proof that the operations preserve it. *)
From S2P Require Import Prelude DGEdge DGNode.

(** ** State *)

(** [entryNode] is [None] until it is first assigned: the constructor leaves it
    indeterminate. A mapped pointer can be null ([Some None] in a map). *)
Record DG := mkDG {
  nodeIdCounter : Z;
  allNodes : gset Ptr;
  allEdges : gset Ptr;
  entryNode : option (option Ptr);
  internalNodeMap : gmap Ptr (option Ptr);
  externalNodeMap : gmap Ptr (option Ptr);
  depLookupMap : option (gmap Ptr N)
}.

(** the state of a method of [DG]: the heap and the fields of [*this] *)
Abbreviation GSt := (Heap * DG)%type.

Definition on_heap {A} (m : M Heap A) : M GSt A := zoom fst (λ h s, (h, s.2)) m.
Definition this : M GSt DG := gets snd.
Definition set_this (f : DG → DG) : M GSt unit := modify (λ s, (s.1, f s.2)).

Definition set_nodeIdCounter c (g : DG) :=
  mkDG c (allNodes g) (allEdges g) (entryNode g) (internalNodeMap g) (externalNodeMap g)
       (depLookupMap g).
Definition set_allNodes s (g : DG) :=
  mkDG (nodeIdCounter g) s (allEdges g) (entryNode g) (internalNodeMap g) (externalNodeMap g)
       (depLookupMap g).
Definition set_allEdges s (g : DG) :=
  mkDG (nodeIdCounter g) (allNodes g) s (entryNode g) (internalNodeMap g) (externalNodeMap g)
       (depLookupMap g).
Definition setEntryNode n (g : DG) :=
  mkDG (nodeIdCounter g) (allNodes g) (allEdges g) (Some n) (internalNodeMap g)
       (externalNodeMap g) (depLookupMap g).
Definition set_internalNodeMap m (g : DG) :=
  mkDG (nodeIdCounter g) (allNodes g) (allEdges g) (entryNode g) m (externalNodeMap g)
       (depLookupMap g).
Definition set_externalNodeMap m (g : DG) :=
  mkDG (nodeIdCounter g) (allNodes g) (allEdges g) (entryNode g) (internalNodeMap g) m
       (depLookupMap g).
Definition setDepLookupMap m (g : DG) :=
  mkDG (nodeIdCounter g) (allNodes g) (allEdges g) (entryNode g) (internalNodeMap g)
       (externalNodeMap g) m.

(** [INT32_MAX] *)
Definition int32_max : Z := 2 ^ 31 - 1.

Section dg.
Context {IO : IterOrder}.

(** ** Construction and queries *)

Definition DG_new : DG := mkDG 0 ∅ ∅ None ∅ ∅ None.

Definition getEntryNode (g : DG) : Res (option Ptr) :=
  match entryNode g with Some n => Ok n | None => Fail UndefinedBehaviour end.

Definition isInternal (g : DG) (t : Ptr) : bool := bool_decide (is_Some (internalNodeMap g !! t)).
Definition isExternal (g : DG) (t : Ptr) : bool := bool_decide (is_Some (externalNodeMap g !! t)).
Definition isInGraph (g : DG) (t : Ptr) : bool := isInternal g t || isExternal g t.

Definition numNodes (g : DG) : nat := size (allNodes g).
Definition numInternalNodes (g : DG) : nat := size (internalNodeMap g).
Definition numExternalNodes (g : DG) : nat := size (externalNodeMap g).
Definition numEdges (g : DG) : nat := size (allEdges g).

Definition getEdgeID (g : DG) (e : Ptr) : option N :=
  match depLookupMap g with Some m => m !! e | None => None end.

(** the pairs of a node map, in iteration order *)
Definition nodePairs (m : gmap Ptr (option Ptr)) : list (Ptr * option Ptr) :=
  omap (λ t, (λ n, (t, n)) <$> m !! t) (visit (dom m)).
Definition internalNodePairs (g : DG) := nodePairs (internalNodeMap g).
Definition externalNodePairs (g : DG) := nodePairs (externalNodeMap g).

(** ** Nodes *)

(** [addNode(theT, inclusion)]; [nodeIdCounter++] overflows at INT32_MAX *)
Definition addNode (t : Ptr) (inclusion : bool) : M GSt Ptr :=
  let* g := this in
  (if decide (nodeIdCounter g < int32_max)%Z then ret tt else fail UndefinedBehaviour) ;;;
  let* node := on_heap (new_node (DGNode_new (nodeIdCounter g) t)) in
  set_this (set_nodeIdCounter (nodeIdCounter g + 1)%Z) ;;;
  set_this (λ g, set_allNodes ({[node]} ∪ allNodes g) g) ;;;
  set_this (λ g, if inclusion
                 then set_internalNodeMap (<[t := Some node]> (internalNodeMap g)) g
                 else set_externalNodeMap (<[t := Some node]> (externalNodeMap g)) g) ;;;
  ret node.

(** [fetchNode]: [externalNodeMap[theT]] inserts a null pointer when [theT] is absent *)
Definition fetchNode (t : Ptr) : M GSt (option Ptr) :=
  let* g := this in
  match internalNodeMap g !! t with
  | Some n => ret n
  | None =>
      match externalNodeMap g !! t with
      | Some n => ret n
      | None =>
          set_this (set_externalNodeMap (<[t := None]> (externalNodeMap g))) ;;;
          ret None
      end
  end.

(** [fetchConstNode]: [find(theT)->second] on a missing key dereferences [end()] *)
Definition fetchConstNode (g : DG) (t : Ptr) : Res (option Ptr) :=
  match internalNodeMap g !! t with
  | Some n => Ok n
  | None => match externalNodeMap g !! t with Some n => Ok n | None => Fail UndefinedBehaviour end
  end.

Definition fetchOrAddNode (t : Ptr) (inclusion : bool) : M GSt (option Ptr) :=
  let* g := this in
  if isInGraph g t then fetchNode t
  else let* n := addNode t inclusion in ret (Some n).

(** ** Edges *)

(** the common tail of the [add...Edge] methods: create the edge, register it in the
    graph and in its two vertices. Following a null vertex is undefined behaviour. *)
Definition registerEdge (fromNode toNode : option Ptr) (mk : Ptr → Ptr → DGEdge) : M GSt Ptr :=
  let* f := deref fromNode in
  let* t := deref toNode in
  let* edge := on_heap (new_edge (mk f t)) in
  set_this (λ g, set_allEdges ({[edge]} ∪ allEdges g) g) ;;;
  on_heap (update_node f (λ n, addOutgoingEdge n edge)) ;;;
  on_heap (update_node t (λ n, addIncomingEdge n edge)) ;;;
  ret edge.

Definition addVariableDataDependenceEdge (from to : Ptr) (t : DataDependenceType) : M GSt Ptr :=
  let* fromNode := fetchNode from in
  let* toNode := fetchNode to in
  registerEdge fromNode toNode (λ f d, VariableDependence_new f d t).

Definition addMemoryDataDependenceEdge (from to : Ptr) (t : DataDependenceType) (isMust : bool)
    : M GSt Ptr :=
  let* fromNode := fetchNode from in
  let* toNode := fetchNode to in
  registerEdge fromNode toNode
    (λ f d, if isMust then MustMemoryDependence_new f d t else MayMemoryDependence_new f d t).

Definition addControlDependenceEdge (from to : Ptr) : M GSt Ptr :=
  let* fromNode := fetchNode from in
  let* toNode := fetchNode to in
  registerEdge fromNode toNode ControlDependence_new.

Definition addUndefinedDependenceEdge (from to : Ptr) : M GSt Ptr :=
  let* fromNode := fetchNode from in
  let* toNode := fetchNode to in
  registerEdge fromNode toNode UndefinedDependence_new.

(** [fetchEdges(From, To)] *)
Definition fetchEdges (From To : Ptr) : M GSt (gset Ptr) :=
  let* n := on_heap (load_node From) in
  let* l := on_heap (filterM (λ e, let* x := load_edge e in ret (bool_decide (getDstNode x = To)))
                             (visit (outgoingEdges n))) in
  ret (list_to_set l).

(** the dispatch of [copyAddEdge] on the class of the edge; the last case is a
    [cast<MustMemoryDependence>], which asserts the class *)
Definition copyEdgeObject (x : DGEdge) : M Heap DGEdge :=
  if ControlDependence_classof x then ControlDependence_copy x
  else if VariableDependence_classof x then VariableDependence_copy x
  else if MayMemoryDependence_classof x then MayMemoryDependence_copy x
  else massert (MustMemoryDependence_classof x) ;;; MustMemoryDependence_copy x.

(** [copyAddEdge(edgeToCopy)]: the copy connects the nodes of this graph that hold the
    same values *)
Definition copyAddEdge (edgeToCopy : Ptr) : M GSt Ptr :=
  let* x := on_heap (load_edge edgeToCopy) in
  let* c := on_heap (copyEdgeObject x) in
  let* edge := on_heap (new_edge c) in
  set_this (λ g, set_allEdges ({[edge]} ∪ allEdges g) g) ;;;
  let* src := on_heap (getSrc x) in
  let* fromNode := fetchNode src in
  let* dst := on_heap (getDst x) in
  let* toNode := fetchNode dst in
  let* f := deref fromNode in
  let* t := deref toNode in
  on_heap (store_edge edge (setDstNode t (setSrcNode f c))) ;;;
  on_heap (update_node f (λ n, addOutgoingEdge n edge)) ;;;
  on_heap (update_node t (λ n, addIncomingEdge n edge)) ;;;
  ret edge.

(** ** Removal *)

Definition removeNode (node : Ptr) : M GSt unit :=
  let* n := on_heap (load_node node) in
  let theT := getT n in
  set_this (λ g, if isInternal g theT
                 then set_internalNodeMap (delete theT (internalNodeMap g)) g
                 else set_externalNodeMap (delete theT (externalNodeMap g)) g) ;;;
  set_this (λ g, set_allNodes (allNodes g ∖ {[node]}) g) ;;;
  let incomingToNode := incomingEdges n in
  let outgoingFromNode := outgoingEdges n in
  let allToAndFromNode := getAllEdges n in
  on_heap (forM (λ e, let* x := load_edge e in removeConnectedNode (getSrcNode x) node)
                (visit incomingToNode)) ;;;
  on_heap (forM (λ e, let* x := load_edge e in removeConnectedNode (getDstNode x) node)
                (visit outgoingFromNode)) ;;;
  forM (λ e, set_this (λ g, set_allEdges (allEdges g ∖ {[e]}) g) ;;; on_heap (delete_edge e))
       (visit allToAndFromNode) ;;;
  on_heap (delete_node node).

Definition removeEdge (edge : Ptr) : M GSt unit :=
  let* x := on_heap (load_edge edge) in
  on_heap (update_node (getSrcNode x) (λ n, removeConnectedEdge n edge)) ;;;
  on_heap (update_node (getDstNode x) (λ n, removeConnectedEdge n edge)) ;;;
  set_this (λ g, set_allEdges (allEdges g ∖ {[edge]}) g) ;;;
  on_heap (delete_edge edge).

Definition clear (g : DG) : DG :=
  mkDG (nodeIdCounter g) ∅ ∅ (Some None) ∅ ∅ (depLookupMap g).

(** ** Copies *)

(** [copyNodesIntoNewGraph]: [self] is the graph the method is called on, the state is
    [newGraph], a different object; [entry] is the entry node to look for *)
Definition copyNodesIntoNewGraph (self : DG) (nodesToPartition : gset Ptr) (entry : Ptr)
    : M GSt unit :=
  forM (λ node,
    let* n := on_heap (load_node node) in
    let theT := getT n in
    let* clonedNode := addNode theT (isInternal self theT) in
    let* en := on_heap (load_node entry) in
    if decide (theT = getT en) then set_this (setEntryNode (Some clonedNode)) else ret tt)
    (visit nodesToPartition) ;;;
  forM (λ node,
    let* n := on_heap (load_node node) in
    forM (λ edgeToCopy,
      let* x := on_heap (load_edge edgeToCopy) in
      let* incomingT := on_heap (getDst x) in
      let* g := this in
      if isInGraph g incomingT then copyAddEdge edgeToCopy ;;; ret tt else ret tt)
      (visit (outgoingEdges n)))
    (visit nodesToPartition).

(** ** Queries over the whole graph *)

(** [b &= f(x)] over all the elements of a loop *)
Definition allM {S A} (f : A → M S bool) (l : list A) : M S bool :=
  let* bs := mapM f l in ret (forallb id bs).

(** the test of [getTopLevelNodes] on one node *)
Definition isTopLevelNode (g : DG) (onlyInternal : bool) (node : Ptr) : M Heap bool :=
  let* n := load_node node in
  if onlyInternal && isExternal g (getT n) then ret false
  else
    allM (λ e,
      let* x := load_edge e in
      let edgeToSelf := bool_decide (getSrcNode x = node) in
      let* edgeToExternal :=
        (if onlyInternal then let* s := getSrc x in ret (isExternal g s) else ret false) in
      ret (edgeToSelf || edgeToExternal)) (visit (incomingEdges n)).

Definition getTopLevelNodes (onlyInternal : bool) : M GSt (gset Ptr) :=
  let* g := this in
  let* l := on_heap (filterM (isTopLevelNode g onlyInternal) (visit (allNodes g))) in
  ret (list_to_set l).

(** the test of [getLeafNodes] on one node *)
Definition isLeafNode (node : Ptr) : M Heap bool :=
  let* n := load_node node in
  allM (λ e, let* x := load_edge e in ret (bool_decide (getDstNode x = node)))
       (visit (outgoingEdges n)).

Definition getLeafNodes (onlyInternal : bool) : M GSt (gset Ptr) :=
  let* g := this in
  let* candidates :=
    (if onlyInternal then mapM (λ p, deref p.2) (internalNodePairs g)
     else ret (visit (allNodes g))) in
  let* l := on_heap (filterM isLeafNode candidates) in
  ret (list_to_set l).

(** [getNextDepthNodes] and [getPreviousDepthNodes] *)
Definition getNextDepthNodes (node : Ptr) : M Heap (gset Ptr) :=
  let* n := load_node node in
  let* ds := mapM (λ e, let* x := load_edge e in ret (getDstNode x)) (visit (outgoingEdges n)) in
  let incomingNodes : gset Ptr := list_to_set ds in
  let* l := filterM (λ incoming,
      let* m := load_node incoming in
      allM (λ e, let* x := load_edge e in ret (bool_decide (getSrcNode x ∉ incomingNodes)))
           (visit (incomingEdges m))) (visit incomingNodes) in
  ret (list_to_set l).

Definition getPreviousDepthNodes (node : Ptr) : M Heap (gset Ptr) :=
  let* n := load_node node in
  let* ss := mapM (λ e, let* x := load_edge e in ret (getSrcNode x)) (visit (incomingEdges n)) in
  let outgoingNodes : gset Ptr := list_to_set ss in
  let* l := filterM (λ outgoing,
      let* m := load_node outgoing in
      allM (λ e, let* x := load_edge e in ret (bool_decide (getDstNode x ∉ outgoingNodes)))
           (visit (outgoingEdges m))) (visit outgoingNodes) in
  ret (list_to_set l).

(** ** Connected components *)

(** the lambda [checkToVisitNode] on the pair (visited nodes, queue) *)
Definition checkToVisitNode (vq : gset Ptr * list Ptr) (node : Ptr) : gset Ptr * list Ptr :=
  if decide (node ∈ vq.1) then vq else ({[node]} ∪ vq.1, vq.2 ++ [node]).

(** following the edges of one direction *)
Definition visitEdges (h : Heap) (dir : DGEdge → Ptr) (vq : gset Ptr * list Ptr) (es : gset Ptr)
    : Res (gset Ptr * list Ptr) :=
  foldR (λ vq e, match hedges h !! e with
                 | Some x => Ok (checkToVisitNode vq (dir x))
                 | None => Fail UndefinedBehaviour
                 end) vq (visit es).

(** one iteration of the breadth-first search *)
Definition componentStep (h : Heap) (st : (gset Ptr * list Ptr) * gset Ptr)
    : Res ((gset Ptr * list Ptr) * gset Ptr + gset Ptr * gset Ptr) :=
  let '((visited, queue), component) := st in
  match queue with
  | [] => Ok (inr (visited, component))
  | currentNode :: queue =>
      match hnodes h !! currentNode with
      | None => Fail UndefinedBehaviour
      | Some n =>
          let component := {[currentNode]} ∪ component in
          rbind (visitEdges h getDstNode (visited, queue) (outgoingEdges n)) (λ vq,
          rbind (visitEdges h getSrcNode vq (incomingEdges n)) (λ vq,
          Ok (inl (vq, component))))
      end
  end.

(** [getDisconnectedSubgraphs]. Every node enters the queue at most once, so
    [S (numNodes)] iterations of each search are enough. *)
Definition getDisconnectedSubgraphs (h : Heap) (g : DG) : Res (list (gset Ptr)) :=
  rbind (foldR (λ '(visited, components) node,
    if decide (node ∈ visited) then Ok (visited, components)
    else rbind (while (S (numNodes g)) (componentStep h) (({[node]} ∪ visited, [node]), ∅))
           (λ '(visited, component), Ok (visited, components ++ [component])))
    (∅, []) (visit (allNodes g))) (λ '(_, components), Ok components).

(** ** Sorting *)

(** the comparison of [sortDependences]: by source, then by destination, as addresses *)
Definition depLess (a b : Ptr * Ptr * Ptr) : bool :=
  let '(src1, dst1, _) := a in
  let '(src2, dst2, _) := b in
  if (src1 <? src2)%positive then true
  else if (src2 <? src1)%positive then false
  else if (dst1 <? dst2)%positive then true
  else if (dst2 <? dst1)%positive then false
  else false.

(** the order [std::sort] establishes: no element is less than an earlier one *)
Definition depLe (a b : Ptr * Ptr * Ptr) : Prop := depLess b a = false.
#[global] Instance depLe_dec : RelDecision depLe.
Proof. intros a b. unfold depLe. apply _. Defined.

(** [sortDependences]. [std::sort] returns some permutation in which no element is
    less than an earlier one; the model takes the one of merge sort. *)
Definition sortDependences (s : gset Ptr) : M Heap (list Ptr) :=
  let* v := mapM (λ e, let* x := load_edge e in
                       let* a := getSrc x in
                       let* b := getDst x in
                       ret (a, b, e)) (visit s) in
  ret (snd <$> merge_sort depLe v).
End dg.
