(* ===== verification/DGInvariant.v ===== *)
(** * The well-formedness of dependence graphs, and what each operation does

    [wf] relates the node and edge sets of a graph, its two node maps and the adjacency
    sets stored in the nodes. Every operation of [DG] preserves it; the lemmas give the
    exact effect of each operation. *)
From S2P Require Import Prelude DGEdge DGNode DGBase.

(** every address in use is below the next one to be allocated *)
Definition heap_ok (h : Heap) : Prop :=
  (∀ p, is_Some (hnodes h !! p) → (p < nextAddr h)%positive) ∧
  (∀ p, is_Some (hedges h !! p) → (p < nextAddr h)%positive).

(** [n] is the node of [t] *)
Definition node_of (g : DG) (t n : Ptr) : Prop :=
  internalNodeMap g !! t = Some (Some n) ∨ externalNodeMap g !! t = Some (Some n).

Record wf (h : Heap) (g : DG) : Prop := {
  wf_heap : heap_ok h;
  wf_node n : n ∈ allNodes g → ∃ x, hnodes h !! n = Some x ∧ node_of g (theT x) n;
  wf_map t n : node_of g t n → n ∈ allNodes g ∧ ∃ x, hnodes h !! n = Some x ∧ theT x = t;
  wf_internal t p : internalNodeMap g !! t = Some p →
    is_Some p ∧ ∀ n, externalNodeMap g !! t ≠ Some (Some n);
  wf_edge e : e ∈ allEdges g →
    ∃ y, hedges h !! e = Some y ∧ from y ∈ allNodes g ∧ to y ∈ allNodes g;
  wf_out n x e : n ∈ allNodes g → hnodes h !! n = Some x →
    e ∈ outgoingEdges x ↔ e ∈ allEdges g ∧ ∃ y, hedges h !! e = Some y ∧ from y = n;
  wf_in n x e : n ∈ allNodes g → hnodes h !! n = Some x →
    e ∈ incomingEdges x ↔ e ∈ allEdges g ∧ ∃ y, hedges h !! e = Some y ∧ to y = n
}.

Lemma wp_on_heap {A} (m : M Heap A) Q (s : GSt) :
  wp (on_heap m) Q s ↔ wp m (λ a h, Q a (h, s.2)) s.1.
Proof. exact (wp_zoom fst (λ h (s : GSt), (h, s.2)) m Q s). Qed.

Lemma wp_this Q (s : GSt) : wp this Q s ↔ Q s.2 s.
Proof. done. Qed.

Lemma wp_set_this f (Q : unit → GSt → Prop) s : wp (set_this f) Q s ↔ Q tt (s.1, f s.2).
Proof. done. Qed.

Lemma wp_new_node x Q h :
  wp (new_node x) Q h ↔
  Q (nextAddr h) (mkHeap (<[nextAddr h := x]> (hnodes h)) (hedges h) (Pos.succ (nextAddr h))).
Proof. done. Qed.

Lemma wp_new_edge x Q h :
  wp (new_edge x) Q h ↔
  Q (nextAddr h) (mkHeap (hnodes h) (<[nextAddr h := x]> (hedges h)) (Pos.succ (nextAddr h))).
Proof. done. Qed.

Lemma wp_delete_edge e Q h : wp (delete_edge e) Q h ↔ Q tt (set_hedges (delete e) h).
Proof. done. Qed.
Lemma wp_delete_node n Q h : wp (delete_node n) Q h ↔ Q tt (set_hnodes (delete n) h).
Proof. done. Qed.
Lemma wp_store_edge e x Q h : wp (store_edge e x) Q h ↔ Q tt (set_hedges <[e := x]> h).
Proof. done. Qed.

(** One step of a computation over a graph state. *)
Ltac dg_step :=
  lazymatch goal with
  | |- wp (bind _ _) _ _ => apply wp_bind
  | |- wp (ret _) _ _ => apply wp_ret
  | |- wp (gets _) _ _ => apply wp_gets
  | |- wp this _ _ => apply wp_this
  | |- wp (set_this _) _ _ => apply wp_set_this
  | |- wp (on_heap _) _ _ => apply wp_on_heap
  | |- wp (zoom _ _ _) _ _ => apply wp_zoom
  | |- wp (new_node _) _ _ => apply wp_new_node
  | |- wp (new_edge _) _ _ => apply wp_new_edge
  | |- wp (delete_edge _) _ _ => apply wp_delete_edge
  | |- wp (delete_node _) _ _ => apply wp_delete_node
  | |- wp (store_edge _ _) _ _ => apply wp_store_edge
  | |- wp (load_node _) _ _ => apply wp_load_node
  | |- wp (load_edge _) _ _ => apply wp_load_edge
  | |- wp (update_node _ _) _ _ => apply wp_update_node
  | |- wp (getSrc _) _ _ => apply wp_getSrc
  | |- wp (getDst _) _ _ => apply wp_getDst
  end; cbn beta iota zeta in *; cbn [fst snd hnodes hedges nextAddr set_hnodes set_hedges] in *.
Ltac dg_steps := repeat dg_step.

Section facts.
Context {IO : IterOrder}.
Implicit Types (h : Heap) (g : DG).

Lemma heap_ok_fresh_node h : heap_ok h → hnodes h !! nextAddr h = None.
Proof.
  intros [H _]. destruct (hnodes h !! nextAddr h) eqn:E; [|done].
  exfalso. assert (nextAddr h < nextAddr h)%positive; [apply H; eauto|lia].
Qed.
Lemma heap_ok_fresh_edge h : heap_ok h → hedges h !! nextAddr h = None.
Proof.
  intros [_ H]. destruct (hedges h !! nextAddr h) eqn:E; [|done].
  exfalso. assert (nextAddr h < nextAddr h)%positive; [apply H; eauto|lia].
Qed.

Lemma wf_fresh_node h g : wf h g → nextAddr h ∉ allNodes g.
Proof.
  intros W Hin. destruct (wf_node _ _ W _ Hin) as (x & Hx & _).
  by rewrite heap_ok_fresh_node in Hx by apply W.
Qed.
Lemma wf_fresh_edge h g : wf h g → nextAddr h ∉ allEdges g.
Proof.
  intros W Hin. destruct (wf_edge _ _ W _ Hin) as (x & Hx & _).
  by rewrite heap_ok_fresh_edge in Hx by apply W.
Qed.

Lemma wf_node_of_inj h g t n n' : wf h g → node_of g t n → node_of g t n' → n = n'.
Proof.
  intros W [H|H] [H'|H']; try congruence;
    [destruct (wf_internal _ _ W _ _ H)|destruct (wf_internal _ _ W _ _ H')]; congruence.
Qed.

Lemma wf_node_of_T h g n x : wf h g → n ∈ allNodes g → hnodes h !! n = Some x →
  node_of g (theT x) n.
Proof. intros W Hn Hx. destruct (wf_node _ _ W n Hn) as (y & Hy & H). congruence. Qed.

Lemma node_of_in_graph g t n : node_of g t n → isInGraph g t = true.
Proof.
  unfold isInGraph, isInternal, isExternal.
  rewrite orb_true_iff, !bool_decide_eq_true. intros [->| ->]; eauto.
Qed.

Lemma isInGraph_false g t :
  isInGraph g t = false → internalNodeMap g !! t = None ∧ externalNodeMap g !! t = None.
Proof.
  unfold isInGraph, isInternal, isExternal.
  rewrite orb_false_iff, !bool_decide_eq_false, <- !eq_None_not_Some. done.
Qed.

Lemma wf_edges_live h g n x e :
  wf h g → n ∈ allNodes g → hnodes h !! n = Some x → e ∈ getAllEdges x →
  e ∈ allEdges g ∧ is_Some (hedges h !! e).
Proof.
  intros W Hn Hx. unfold getAllEdges. rewrite elem_of_union.
  rewrite (wf_out _ _ W n x) by done. rewrite (wf_in _ _ W n x) by done.
  intros [(? & ? & -> & _)|(? & ? & -> & _)]; eauto.
Qed.

(** *** Construction *)

Lemma DG_new_wf h : heap_ok h → wf h DG_new.
Proof.
  intros Hh. split; [done|..]; unfold node_of; simpl; try set_solver.
  all: try (intros t n [H|H]; by rewrite lookup_empty in H).
  all: try (intros t p H; by rewrite lookup_empty in H).
Qed.

Lemma empty_heap_ok : heap_ok empty_heap.
Proof. split; intros p [x Hx]; simpl in Hx; by rewrite lookup_empty in Hx. Qed.

Lemma clear_wf h g : wf h g → wf h (clear g).
Proof.
  intros W. split; [apply W|..]; unfold node_of; simpl; try set_solver.
  all: try (intros t n [H|H]; by rewrite lookup_empty in H).
  all: try (intros t p H; by rewrite lookup_empty in H).
Qed.

Lemma setEntryNode_wf h g n : wf h g → wf h (setEntryNode n g).
Proof. intros []; by split. Qed.

(** *** Nodes *)

(** the state after a successful [addNode] *)
Definition added_node (h : Heap) (g : DG) (t : Ptr) (b : bool) : GSt :=
  let n := nextAddr h in
  (mkHeap (<[n := DGNode_new (nodeIdCounter g) t]> (hnodes h)) (hedges h) (Pos.succ n),
   mkDG (nodeIdCounter g + 1) ({[n]} ∪ allNodes g) (allEdges g) (entryNode g)
     (if b then <[t := Some n]> (internalNodeMap g) else internalNodeMap g)
     (if b then externalNodeMap g else <[t := Some n]> (externalNodeMap g))
     (depLookupMap g)).

Lemma addNode_run h g t b :
  (nodeIdCounter g < int32_max)%Z → addNode t b (h, g) = Ok (added_node h g t b, nextAddr h).
Proof.
  intros Hc. unfold addNode, bind, this, gets. cbn [snd].
  rewrite decide_True by done. destruct b; reflexivity.
Qed.

Lemma added_node_wf h g t b :
  wf h g → (∀ n, ¬ node_of g t n) →
  wf (added_node h g t b).1 (added_node h g t b).2 ∧
  (∀ t' n', node_of (added_node h g t b).2 t' n' ↔
     (t' = t ∧ n' = nextAddr h) ∨ node_of g t' n').
Proof.
  intros W Hno.
  assert (internalNodeMap g !! t = None) as Hi.
  { destruct (internalNodeMap g !! t) as [p|] eqn:Hp; [|done].
    destruct (wf_internal _ _ W _ _ Hp) as [[n ->] _]. destruct (Hno n). by left. }
  assert (∀ n, externalNodeMap g !! t ≠ Some (Some n)) as He.
  { intros n Hn. destruct (Hno n). by right. }
  pose proof (wf_fresh_node _ _ W) as Hfn.
  assert (∀ t' n', node_of (added_node h g t b).2 t' n' ↔
            (t' = t ∧ n' = nextAddr h) ∨ node_of g t' n') as Hnode.
  { intros t' n'. unfold node_of. simpl.
    destruct b, (decide (t' = t)) as [->|Hne]; simplify_map_eq; naive_solver. }
  split; [|done].
  split; simpl.
  - destruct (wf_heap _ _ W) as [H1 H2]. split; simpl; intros p.
    + destruct (decide (p = nextAddr h)) as [->|Hp]; [lia|].
      rewrite lookup_insert_ne by done. intros ?%H1. lia.
    + intros ?%H2. lia.
  - intros n Hn. destruct (decide (n = nextAddr h)) as [->|Hne].
    + rewrite lookup_insert_eq. eexists. split; [done|]. apply Hnode. by left.
    + rewrite lookup_insert_ne by done. destruct (wf_node _ _ W n) as (x & Hx & ?); [set_solver|].
      exists x. split; [done|]. apply Hnode. by right.
  - intros t' n [[-> ->]|H]%Hnode.
    + split; [set_solver|]. rewrite lookup_insert_eq. eexists. split; done.
    + destruct (wf_map _ _ W _ _ H) as (Hn & x & Hx & HT). split; [set_solver|].
      rewrite lookup_insert_ne by (intros <-; done). eauto.
  - intros t' p. pose proof (wf_internal _ _ W t' p).
    destruct b, (decide (t' = t)) as [->|Hne]; simplify_map_eq; naive_solver.
  - intros e He'. destruct (wf_edge _ _ W e He') as (y & ? & ? & ?). exists y. set_solver.
  - intros n x e Hn. destruct (decide (n = nextAddr h)) as [->|Hne].
    + rewrite lookup_insert_eq. intros [= <-]. simpl. split; [set_solver|].
      intros (He' & y & Hy & Hf). destruct (wf_edge _ _ W e He') as (y' & ? & ? & ?). congruence.
    + rewrite lookup_insert_ne by done. intros Hx. apply (wf_out _ _ W); [set_solver|done].
  - intros n x e Hn. destruct (decide (n = nextAddr h)) as [->|Hne].
    + rewrite lookup_insert_eq. intros [= <-]. simpl. split; [set_solver|].
      intros (He' & y & Hy & Hf). destruct (wf_edge _ _ W e He') as (y' & ? & ? & ?). congruence.
    + rewrite lookup_insert_ne by done. intros Hx. apply (wf_in _ _ W); [set_solver|done].
Qed.

(** [fetchNode] on a value of the graph returns its node and changes nothing. *)
Lemma fetchNode_present h g t n :
  wf h g → node_of g t n → fetchNode t (h, g) = Ok ((h, g), Some n).
Proof.
  intros W Hn. unfold fetchNode, bind, this, gets. cbn [snd].
  destruct (internalNodeMap g !! t) as [p|] eqn:Hi.
  - destruct Hn as [Hn|Hn]; [by simplify_eq|].
    destruct (wf_internal _ _ W _ _ Hi). congruence.
  - destruct Hn as [Hn|Hn]; [congruence|]. by rewrite Hn.
Qed.

(** On an absent value it returns a null pointer and leaves a null entry behind. *)
Lemma fetchNode_absent h g t :
  isInGraph g t = false →
  fetchNode t (h, g) =
    Ok ((h, set_externalNodeMap (<[t := None]> (externalNodeMap g)) g), None).
Proof.
  intros [Hi He]%isInGraph_false. unfold fetchNode, bind, this, gets. cbn [snd].
  by rewrite Hi, He.
Qed.

Lemma phantom_wf h g t :
  wf h g → isInGraph g t = false →
  wf h (set_externalNodeMap (<[t := None]> (externalNodeMap g)) g).
Proof.
  intros W [Hi He]%isInGraph_false.
  assert (∀ t' n', node_of (set_externalNodeMap (<[t := None]> (externalNodeMap g)) g) t' n' ↔
            node_of g t' n') as Hnode.
  { intros t' n'. unfold node_of. simpl.
    destruct (decide (t' = t)) as [->|Hne]; simplify_map_eq; naive_solver. }
  split; simpl; [apply W| | | |apply W|apply W|apply W].
  - intros n Hn. destruct (wf_node _ _ W n Hn) as (x & ? & ?). exists x. by rewrite Hnode.
  - intros t' n. rewrite Hnode. apply W.
  - intros t' p Hp. destruct (wf_internal _ _ W _ _ Hp).
    rewrite lookup_insert_ne by congruence. done.
Qed.

(** *** Edges *)

(** the state after the edge object [y] has been registered *)
Definition added_edge (h : Heap) (g : DG) (y : DGEdge) : GSt :=
  let e := nextAddr h in
  (mkHeap (alter (λ n, addIncomingEdge n e) (to y)
            (alter (λ n, addOutgoingEdge n e) (from y) (hnodes h)))
          (<[e := y]> (hedges h)) (Pos.succ e),
   set_allEdges ({[e]} ∪ allEdges g) g).

Lemma added_edge_nodes h g y n :
  hnodes (added_edge h g y).1 !! n =
  (λ x, mkNode (ID x) (theT x)
     (if decide (n = from y) then {[nextAddr h]} ∪ outgoingEdges x else outgoingEdges x)
     (if decide (n = to y) then {[nextAddr h]} ∪ incomingEdges x else incomingEdges x))
  <$> hnodes h !! n.
Proof.
  simpl. rewrite !lookup_alter.
  destruct (hnodes h !! n) as [[]|] eqn:E; repeat case_decide; simplify_eq/=;
    try match goal with H : from y = to y |- _ => rewrite H end; rewrite ?E; done.
Qed.

Lemma added_edge_wf h g y :
  wf h g → from y ∈ allNodes g → to y ∈ allNodes g →
  wf (added_edge h g y).1 (added_edge h g y).2.
Proof.
  intros W Hf Ht. pose proof (wf_fresh_edge _ _ W) as Hfe.
  assert (∀ n x', hnodes (added_edge h g y).1 !! n = Some x' →
            ∃ x, hnodes h !! n = Some x ∧ theT x' = theT x) as Hback.
  { intros n x'. rewrite added_edge_nodes. destruct (hnodes h !! n); naive_solver. }
  assert (∀ n x, hnodes h !! n = Some x →
            ∃ x', hnodes (added_edge h g y).1 !! n = Some x' ∧ theT x' = theT x) as Hfwd.
  { intros n x Hx. rewrite added_edge_nodes, Hx. simpl. eauto. }
  split.
  - destruct (wf_heap _ _ W) as [H1 H2]. split; intros p.
    + intros [x' Hx']. destruct (Hback _ _ Hx') as (x & Hx & _). simpl.
      assert (p < nextAddr h)%positive by eauto. lia.
    + simpl. destruct (decide (p = nextAddr h)) as [->|Hp]; [lia|].
      rewrite lookup_insert_ne by done. intros ?%H2. lia.
  - intros n Hn. destruct (wf_node _ _ W n Hn) as (x & Hx & HT).
    destruct (Hfwd _ _ Hx) as (x' & Hx' & E). exists x'. rewrite E. done.
  - intros t n H. destruct (wf_map _ _ W t n H) as (Hn & x & Hx & HT).
    destruct (Hfwd _ _ Hx) as (x' & Hx' & E). split; [done|]. exists x'. by rewrite E.
  - apply W.
  - simpl. intros e He. destruct (decide (e = nextAddr h)) as [->|Hne].
    + rewrite lookup_insert_eq. eauto.
    + rewrite lookup_insert_ne by done. apply W. set_solver.
  - intros n x' e Hn Hx'. rewrite added_edge_nodes in Hx'.
    destruct (hnodes h !! n) as [x|] eqn:Hx; [|done]. simplify_eq/=.
    pose proof (wf_out _ _ W n x e Hn Hx) as Hout.
    assert (nextAddr h ∉ outgoingEdges x) as Hno.
    { intros H. apply (wf_out _ _ W n x) in H as [? _]; done. }
    destruct (decide (e = nextAddr h)) as [->|Hne].
    + rewrite lookup_insert_eq. case_decide; set_solver.
    + rewrite lookup_insert_ne by done.
      case_decide; rewrite ?elem_of_union, ?elem_of_singleton; naive_solver.
  - intros n x' e Hn Hx'. rewrite added_edge_nodes in Hx'.
    destruct (hnodes h !! n) as [x|] eqn:Hx; [|done]. simplify_eq/=.
    pose proof (wf_in _ _ W n x e Hn Hx) as Hin.
    assert (nextAddr h ∉ incomingEdges x) as Hno.
    { intros H. apply (wf_in _ _ W n x) in H as [? _]; done. }
    destruct (decide (e = nextAddr h)) as [->|Hne].
    + rewrite lookup_insert_eq. case_decide; set_solver.
    + rewrite lookup_insert_ne by done.
      case_decide; rewrite ?elem_of_union, ?elem_of_singleton; naive_solver.
Qed.

Lemma registerEdge_spec h g f t mk :
  wf h g → f ∈ allNodes g → t ∈ allNodes g → from (mk f t) = f → to (mk f t) = t →
  wp (registerEdge (Some f) (Some t) mk)
     (λ e s', e = nextAddr h ∧ s' = added_edge h g (mk f t)) (h, g).
Proof.
  intros W Hf Ht E1 E2.
  destruct (wf_node _ _ W f Hf) as (xf & Hxf & _).
  destruct (wf_node _ _ W t Ht) as (xt & Hxt & _).
  unfold registerEdge. dg_step. apply wp_deref. exists f. split; [done|].
  dg_step. apply wp_deref. exists t. split; [done|]. dg_steps.
  split; [eauto|]. dg_steps. split.
  { rewrite lookup_alter. case_decide; [|eauto]. subst. rewrite Hxt. eauto. }
  split; [done|]. unfold added_edge. simpl. rewrite E1, E2. done.
Qed.

(** what the [add...Edge] methods share: both values are in the graph *)
Lemma addEdge_spec h g src dst f t mk :
  wf h g → node_of g src f → node_of g dst t → from (mk f t) = f → to (mk f t) = t →
  wp (let* fromNode := fetchNode src in
      let* toNode := fetchNode dst in
      registerEdge fromNode toNode mk)
     (λ e s', e = nextAddr h ∧ s' = added_edge h g (mk f t)) (h, g).
Proof.
  intros W Hf Ht E1 E2. dg_step. unfold wp at 1. rewrite (fetchNode_present _ _ _ _ W Hf).
  dg_step. unfold wp at 1. rewrite (fetchNode_present _ _ _ _ W Ht).
  apply registerEdge_spec; try done; by eapply (wf_map _ _ W).
Qed.

(** *** Copies *)

(** the classes [copyAddEdge] supports: every class but [UndefinedDependence] *)
Lemma copyEdgeObject_spec x h :
  edge_class_ok x → kind x ≠ UNDEFINED_DEPENDENCE →
  (∀ p, p ∈ getSubEdges x → is_Some (hedges h !! p)) →
  wp (copyEdgeObject x) (λ c h', h' = h ∧ from c = from x ∧ to c = to x ∧ kind c = kind x ∧
    dataDepType c = dataDepType x ∧ getSubEdges c = getSubEdges x ∧
    (isLoopCarried c = true ↔ isLoopCarried x = true ∨
       ∃ p y, p ∈ getSubEdges x ∧ hedges h !! p = Some y ∧ isLoopCarried y = true)) h.
Proof.
  intros Hc Hu Hsub. unfold copyEdgeObject, ControlDependence_classof,
    VariableDependence_classof, MayMemoryDependence_classof, MustMemoryDependence_classof, getKind.
  unfold edge_class_ok in Hc.
  destruct (kind x) eqn:K; try done; cbn -[massert];
    try (eapply wp_mono; [by apply DataDependence_copy_spec|]; rewrite K; naive_solver).
  eapply wp_mono; [by apply DGEdge_copy_spec|]. rewrite K, Hc. naive_solver.
Qed.

(** [copyAddEdge] on an edge between two values of this graph *)
Lemma copyAddEdge_spec h g ep x ns nd f t :
  wf h g → hedges h !! ep = Some x → edge_class_ok x → kind x ≠ UNDEFINED_DEPENDENCE →
  (∀ p, p ∈ getSubEdges x → is_Some (hedges h !! p)) →
  hnodes h !! from x = Some ns → hnodes h !! to x = Some nd →
  node_of g (theT ns) f → node_of g (theT nd) t →
  wp (copyAddEdge ep) (λ e s', e = nextAddr h ∧ ∃ c,
    s' = added_edge h g c ∧ from c = f ∧ to c = t ∧ kind c = kind x ∧
    dataDepType c = dataDepType x ∧ getSubEdges c = getSubEdges x ∧
    (isLoopCarried c = true ↔ isLoopCarried x = true ∨
       ∃ p y, p ∈ getSubEdges x ∧ hedges h !! p = Some y ∧ isLoopCarried y = true)) (h, g).
Proof.
  intros W Hx Hc Hu Hsub Hns Hnd Hf Ht.
  assert (∀ g', internalNodeMap g' = internalNodeMap g → externalNodeMap g' = externalNodeMap g →
    ∀ h' t' n', node_of g t' n' → fetchNode t' (h', g') = Ok ((h', g'), Some n')) as Hfetch.
  { intros g' Ei Ee h' t' n' Hn'. pose proof (fetchNode_present _ _ _ _ W Hn') as E.
    unfold fetchNode, bind, this, gets in *. cbn [snd] in *. rewrite Ei, Ee.
    destruct (internalNodeMap g !! t'), (externalNodeMap g !! t');
      unfold ret, set_this, modify in *; simplify_eq; done. }
  destruct (wf_map _ _ W _ _ Hf) as (Hfn & xf & Hxf & _).
  destruct (wf_map _ _ W _ _ Ht) as (Htn & xt & Hxt & _).
  unfold copyAddEdge. dg_steps. exists x. split; [done|]. dg_steps.
  eapply wp_mono; [by apply copyEdgeObject_spec|].
  intros c h' (-> & C1 & C2 & C3 & C4 & C5 & C6). dg_steps.
  exists ns. split; [done|]. dg_step. unfold wp at 1.
  rewrite (Hfetch (set_allEdges _ g) eq_refl eq_refl _ _ _ Hf). dg_steps.
  exists nd. split; [done|]. dg_step. unfold wp at 1.
  rewrite (Hfetch (set_allEdges _ g) eq_refl eq_refl _ _ _ Ht). dg_step.
  apply wp_deref. exists f. split; [done|]. dg_step.
  apply wp_deref. exists t. split; [done|]. dg_steps.
  split; [eauto|]. dg_steps. split.
  { rewrite lookup_alter. case_decide; [|eauto]. subst. rewrite Hxt. eauto. }
  split; [done|]. exists (setDstNode t (setSrcNode f c)). split.
  { unfold added_edge, set_hnodes, set_hedges. simpl. by rewrite insert_insert_eq. }
  simpl. unfold getSubEdges in *. simpl. naive_solver.
Qed.

(** An undefined dependence cannot be copied: the last cast asserts. *)
Lemma copyAddEdge_undefined h g ep x :
  hedges h !! ep = Some x → kind x = UNDEFINED_DEPENDENCE →
  copyAddEdge ep (h, g) = Fail AssertionFailure.
Proof.
  intros Hx K. unfold copyAddEdge, bind, on_heap, zoom, load_edge, deref. cbn [fst snd].
  rewrite Hx. cbn. unfold copyEdgeObject, ControlDependence_classof,
    VariableDependence_classof, MayMemoryDependence_classof, MustMemoryDependence_classof, getKind.
  by rewrite K.
Qed.

(** *** Removal *)

(** a node without the edges of [D] *)
Definition drop_edges (D : gset Ptr) (n : DGNode) : DGNode :=
  mkNode (ID n) (theT n) (outgoingEdges n ∖ D) (incomingEdges n ∖ D).

(** [s'] is the graph [g] without its nodes [R] and its edges [D]: the objects of [R]
    and [D] are deleted, the other nodes of the graph lose the edges of [D], and the
    nodes of other graphs and all other edges are untouched. *)
Record shrunk (h : Heap) (g : DG) (R D : gset Ptr) (s' : GSt) : Prop := {
  sh_nodes : allNodes s'.2 = allNodes g ∖ R;
  sh_edges : allEdges s'.2 = allEdges g ∖ D;
  sh_kept n : n ∈ allNodes g → n ∉ R → hnodes s'.1 !! n = drop_edges D <$> hnodes h !! n;
  sh_other n : n ∉ allNodes g → hnodes s'.1 !! n = hnodes h !! n;
  sh_gone n : n ∈ R → hnodes s'.1 !! n = None;
  sh_hedges e : hedges s'.1 !! e = if decide (e ∈ D) then None else hedges h !! e;
  sh_next : nextAddr s'.1 = nextAddr h;
  sh_node_of t n : node_of s'.2 t n ↔ node_of g t n ∧ n ∉ R;
  sh_internal t p : internalNodeMap s'.2 !! t = Some p → internalNodeMap g !! t = Some p;
  sh_external t p : externalNodeMap s'.2 !! t = Some p → externalNodeMap g !! t = Some p;
  sh_counter : nodeIdCounter s'.2 = nodeIdCounter g
}.

Lemma shrunk_wf h g R D s' :
  wf h g → shrunk h g R D s' → R ⊆ allNodes g →
  (∀ e y, e ∈ allEdges g → hedges h !! e = Some y → from y ∈ R ∨ to y ∈ R → e ∈ D) →
  wf s'.1 s'.2.
Proof.
  intros W H HR Hinc. split.
  - destruct (wf_heap _ _ W) as [H1 H2]. split; intros p; rewrite (sh_next _ _ _ _ _ H).
    + intros Hp. apply H1. destruct (decide (p ∈ R)) as [HpR|HpR].
      { rewrite (sh_gone _ _ _ _ _ H) in Hp by done. by destruct Hp. }
      destruct (decide (p ∈ allNodes g)).
      * rewrite (sh_kept _ _ _ _ _ H) in Hp by done. by apply fmap_is_Some in Hp.
      * by rewrite (sh_other _ _ _ _ _ H) in Hp.
    + rewrite (sh_hedges _ _ _ _ _ H). case_decide; [by intros [? ?]|]. apply H2.
  - intros n. rewrite (sh_nodes _ _ _ _ _ H), elem_of_difference. intros [Hn HnR].
    destruct (wf_node _ _ W n Hn) as (x & Hx & Hnode).
    rewrite (sh_kept _ _ _ _ _ H), Hx by done. eexists. split; [done|]. simpl.
    by apply (sh_node_of _ _ _ _ _ H).
  - intros t n [Hno HnR]%(sh_node_of _ _ _ _ _ H).
    destruct (wf_map _ _ W t n Hno) as (Hn & x & Hx & HT).
    rewrite (sh_nodes _ _ _ _ _ H), elem_of_difference. split; [done|].
    rewrite (sh_kept _ _ _ _ _ H), Hx by done. eexists. split; done.
  - intros t p Hp%(sh_internal _ _ _ _ _ H). destruct (wf_internal _ _ W t p Hp) as [? He].
    split; [done|]. intros n Hn%(sh_external _ _ _ _ _ H). by destruct (He n).
  - intros e. rewrite (sh_edges _ _ _ _ _ H), elem_of_difference. intros [He HD].
    destruct (wf_edge _ _ W e He) as (y & Hy & Hf & Ht). exists y.
    rewrite (sh_hedges _ _ _ _ _ H), decide_False by done.
    rewrite (sh_nodes _ _ _ _ _ H), !elem_of_difference.
    pose proof (Hinc e y He Hy). naive_solver.
  - intros n x e. rewrite (sh_nodes _ _ _ _ _ H), elem_of_difference. intros [Hn HnR].
    rewrite (sh_kept _ _ _ _ _ H) by done.
    destruct (hnodes h !! n) as [x0|] eqn:Hx; [|done]. intros [= <-]. simpl.
    rewrite (sh_edges _ _ _ _ _ H), (sh_hedges _ _ _ _ _ H), !elem_of_difference.
    rewrite (wf_out _ _ W n x0 e Hn Hx). case_decide; naive_solver.
  - intros n x e. rewrite (sh_nodes _ _ _ _ _ H), elem_of_difference. intros [Hn HnR].
    rewrite (sh_kept _ _ _ _ _ H) by done.
    destruct (hnodes h !! n) as [x0|] eqn:Hx; [|done]. intros [= <-]. simpl.
    rewrite (sh_edges _ _ _ _ _ H), (sh_hedges _ _ _ _ _ H), !elem_of_difference.
    rewrite (wf_in _ _ W n x0 e Hn Hx). case_decide; naive_solver.
Qed.

(** [removeEdge] removes the edge and nothing else, self-edges included: on a self-edge
    the first call of [removeConnectedEdge] takes it out of the outgoing set and the
    second one out of the incoming set. *)
Lemma removeEdge_spec h g e :
  wf h g → e ∈ allEdges g → wp (removeEdge e) (λ _ s', shrunk h g ∅ {[e]} s') (h, g).
Proof.
  intros W He. destruct (wf_edge _ _ W e He) as (y & Hy & Hf & Ht).
  destruct (wf_node _ _ W _ Hf) as (xf & Hxf & _).
  destruct (wf_node _ _ W _ Ht) as (xt & Hxt & _).
  unfold removeEdge. dg_steps. exists y. split; [done|]. dg_steps. unfold getSrcNode, getDstNode.
  split; [eauto|]. dg_steps. split.
  { rewrite lookup_alter. case_decide as Heq; [|eauto]. rewrite Heq, Hxt. eauto. }
  dg_steps. unfold set_hnodes, set_hedges. split; simpl; try done.
  - by rewrite (difference_empty_L).
  - intros n Hn _.
    destruct (hnodes h !! n) as [x|] eqn:Hx.
    2:{ destruct (wf_node _ _ W n Hn) as (? & ? & _). congruence. }
    pose proof (wf_out _ _ W n x e Hn Hx) as Hout.
    pose proof (wf_in _ _ W n x e Hn Hx) as Hin.
    assert (e ∈ outgoingEdges x ↔ n = from y) as Hout' by naive_solver.
    assert (e ∈ incomingEdges x ↔ n = to y) as Hin' by naive_solver.
    clear Hout Hin.
    destruct (decide (n = to y)) as [E1|E1], (decide (n = from y)) as [E2|E2].
    + rewrite <- E1, <- E2, !lookup_alter_eq, Hx. simpl. f_equal.
      assert (removeConnectedEdge x e = set_outgoing (outgoingEdges x ∖ {[e]}) x) as ->.
      { unfold removeConnectedEdge. rewrite decide_True by tauto. done. }
      unfold removeConnectedEdge. simpl. rewrite decide_False by set_solver. done.
    + rewrite <- E1, lookup_alter_eq, lookup_alter_ne, Hx by done. simpl. f_equal.
      unfold removeConnectedEdge, drop_edges. rewrite decide_False by tauto.
      unfold set_incoming. f_equal. set_solver.
    + rewrite <- E2, lookup_alter_ne, lookup_alter_eq, Hx by done. simpl. f_equal.
      unfold removeConnectedEdge, drop_edges. rewrite decide_True by tauto.
      unfold set_outgoing. f_equal. set_solver.
    + rewrite !lookup_alter_ne, Hx by done. simpl. f_equal. destruct x as [i t o c].
      unfold drop_edges. simpl in *. f_equal; set_solver.
  - intros n Hn. rewrite !lookup_alter_ne by congruence. done.
  - intros e'. rewrite lookup_delete. repeat case_decide; set_solver.
  - intros t n. split; [|tauto]. intros Hn. split; [done|apply not_elem_of_empty].
Qed.

Lemma drop_neighbour_idemp h node x :
  drop_neighbour h node (drop_neighbour h node x) = drop_neighbour h node x.
Proof.
  unfold drop_neighbour. simpl. f_equal; apply set_eq; intros e;
    rewrite !elem_of_difference, !elem_of_edges_with, !elem_of_difference,
      ?elem_of_edges_with; naive_solver.
Qed.

(** [hc] is [h] after the nodes of [Z] have dropped their neighbour [node] *)
Definition dropped (h : Heap) (node : Ptr) (Z : gset Ptr) (hc : Heap) : Prop :=
  hedges hc = hedges h ∧ nextAddr hc = nextAddr h ∧
  ∀ n, hnodes hc !! n = (if decide (n ∈ Z) then drop_neighbour h node else id) <$> hnodes h !! n.

Lemma removeConnectedNode_dropped h g node Z hc self :
  wf h g → self ∈ allNodes g → dropped h node Z hc →
  wp (removeConnectedNode self node) (λ _, dropped h node ({[self]} ∪ Z)) hc.
Proof.
  intros W Hself (He & Hn & Hd).
  destruct (wf_node _ _ W _ Hself) as (x & Hx & _).
  assert (∀ n, drop_neighbour hc node n = drop_neighbour h node n) as Hdn.
  { intros n. unfold drop_neighbour, edges_with. by rewrite He. }
  assert (hnodes hc !! self = Some (if decide (self ∈ Z) then drop_neighbour h node x else x)) as Hc.
  { rewrite Hd, Hx. by case_decide. }
  eapply wp_mono; [apply (removeConnectedNode_spec _ _ _ _ Hc)|].
  - intros e Hee. rewrite He. eapply (wf_edges_live _ _ _ x e W Hself Hx).
    case_decide; [|done]. unfold getAllEdges, drop_neighbour in *. simpl in Hee. set_solver.
  - intros [] h' ->. split; [done|]. split; [done|]. intros n. simpl.
    destruct (decide (n = self)) as [->|Hne].
    + rewrite lookup_alter_eq, Hd, Hx. rewrite (decide_True (P:=self ∈ {[self]} ∪ Z)) by set_solver.
      case_decide; simpl; by rewrite Hdn, ?drop_neighbour_idemp.
    + rewrite lookup_alter_ne, Hd by done. destruct (decide (n ∈ Z)).
      * by rewrite decide_True by set_solver.
      * by rewrite decide_False by set_solver.
Qed.

(** the two loops of [removeNode] over the neighbours *)
Lemma drop_loop h g node (dir : DGEdge → Ptr) (es : gset Ptr) Z hc :
  wf h g → es ⊆ allEdges g → (∀ e y, e ∈ es → hedges h !! e = Some y → dir y ∈ allNodes g) →
  dropped h node Z hc → Z ⊆ allNodes g →
  wp (forM (λ e, let* x := load_edge e in removeConnectedNode (dir x) node) (visit es))
     (λ _ h', ∃ Z', dropped h node Z' h' ∧ Z ⊆ Z' ∧ Z' ⊆ allNodes g ∧
        ∀ e y, e ∈ es → hedges h !! e = Some y → dir y ∈ Z') hc.
Proof.
  intros W Hes Hdir HD HZ.
  eapply wp_mono; [apply (wp_forM _ (λ pre _ h', ∃ Z', dropped h node Z' h' ∧ Z ⊆ Z' ∧
    Z' ⊆ allNodes g ∧ ∀ e y, e ∈ pre → hedges h !! e = Some y → dir y ∈ Z'))|].
  - exists Z. set_solver.
  - intros pre e post h' Hl (Z' & HD' & HZ' & HZg & Hpre).
    assert (e ∈ es) as Hee. { apply elem_of_visit. rewrite Hl. set_solver. }
    destruct (wf_edge _ _ W e) as (y & Hy & _); [set_solver|].
    dg_step. apply wp_load_edge. exists y.
    split; [by destruct HD' as [-> _]|].
    eapply wp_mono; [eapply removeConnectedNode_dropped; eauto|].
    intros [] h'' HD''. exists ({[dir y]} ∪ Z'). split; [done|]. split; [set_solver|]. split.
    + pose proof (Hdir e y Hee Hy). set_solver.
    + intros e' y' [He'|He']%elem_of_app Hy'; [set_solver|].
      apply list_elem_of_singleton in He' as ->. simplify_eq. set_solver.
  - intros [] h' (Z' & ? & ? & ? & H). exists Z'. repeat (split; [done|]).
    intros e y He. apply H. by apply elem_of_visit.
Qed.

(** the loop of [removeNode] that deletes the edges *)
Lemma delete_edges_loop (D : gset Ptr) hc gc :
  wp (forM (λ e, set_this (λ g, set_allEdges (allEdges g ∖ {[e]}) g) ;;; on_heap (delete_edge e))
           (visit D))
     (λ _ s, hnodes s.1 = hnodes hc ∧ nextAddr s.1 = nextAddr hc ∧
        (∀ e, hedges s.1 !! e = if decide (e ∈ D) then None else hedges hc !! e) ∧
        s.2 = set_allEdges (allEdges gc ∖ D) gc) (hc, gc).
Proof.
  eapply wp_mono; [apply (wp_forM _ (λ pre _ (s : GSt), hnodes s.1 = hnodes hc ∧
    nextAddr s.1 = nextAddr hc ∧
    (∀ e, hedges s.1 !! e = if decide (e ∈ pre) then None else hedges hc !! e) ∧
    s.2 = set_allEdges (allEdges gc ∖ list_to_set pre) gc))|].
  - simpl. repeat split. destruct gc. unfold set_allEdges. simpl.
    by rewrite difference_empty_L.
  - intros pre e post [h' g'] _ (H1 & H2 & H3 & H4). dg_steps. split; [done|]. split; [done|].
    split.
    + intros e'. simpl. rewrite lookup_delete, H3. repeat case_decide; set_solver.
    + rewrite H4. unfold set_allEdges. simpl. f_equal. set_solver.
  - intros [] [h' g'] (H1 & H2 & H3 & H4). split; [done|]. split; [done|]. split.
    + intros e. rewrite H3. repeat case_decide; rewrite ?elem_of_visit in *; done.
    + rewrite H4. unfold set_allEdges. by rewrite list_to_set_visit.
Qed.

(** After the neighbours of [node] dropped it, a node of the graph has lost exactly the
    edges of [node]. *)
Lemma dropped_all h g node x Z hc n :
  wf h g → node ∈ allNodes g → hnodes h !! node = Some x → n ∈ allNodes g → n ≠ node →
  dropped h node Z hc →
  (∀ e y, e ∈ incomingEdges x → hedges h !! e = Some y → from y ∈ Z) →
  (∀ e y, e ∈ outgoingEdges x → hedges h !! e = Some y → to y ∈ Z) →
  hnodes hc !! n = drop_edges (getAllEdges x) <$> hnodes h !! n.
Proof.
  intros W Hnode Hx Hn Hne (_ & _ & Hd) Hin Hout. rewrite Hd.
  destruct (wf_node _ _ W n Hn) as (z & Hz & _). rewrite Hz. simpl. f_equal.
  pose proof (λ e, wf_out _ _ W _ _ e Hnode Hx) as Ox.
  pose proof (λ e, wf_in _ _ W _ _ e Hnode Hx) as Ix.
  pose proof (λ e, wf_out _ _ W _ _ e Hn Hz) as Oz.
  pose proof (λ e, wf_in _ _ W _ _ e Hn Hz) as Iz.
  assert (∀ e, e ∈ outgoingEdges z → e ∈ getAllEdges x ↔ ∃ y, hedges h !! e = Some y ∧ to y = node) as E1.
  { intros e He. unfold getAllEdges. rewrite elem_of_union, Ox, Ix.
    apply Oz in He as (He & y & Hy & Hf). naive_solver. }
  assert (∀ e, e ∈ incomingEdges z → e ∈ getAllEdges x ↔ ∃ y, hedges h !! e = Some y ∧ from y = node) as E2.
  { intros e He. unfold getAllEdges. rewrite elem_of_union, Ox, Ix.
    apply Iz in He as (He & y & Hy & Hf). naive_solver. }
  case_decide as HnZ.
  - unfold drop_neighbour, drop_edges. f_equal; apply set_eq; intros e;
      rewrite !elem_of_difference, elem_of_edges_with; naive_solver.
  - destruct z as [i t o c]. unfold drop_edges, id. simpl in *.
    f_equal; apply set_eq; intros e; rewrite elem_of_difference.
    + split; [|tauto]. intros He. split; [done|]. intros (y & Hy & Ht)%(E1 e He).
      apply HnZ. apply Oz in He as (He & y' & Hy' & Hf). simplify_eq.
      apply (Hin e y'); [|done]. apply Ix. eauto.
    + split; [|tauto]. intros He. split; [done|]. intros (y & Hy & Ht)%(E2 e He).
      apply HnZ. apply Iz in He as (He & y' & Hy' & Hf). simplify_eq.
      apply (Hout e y'); [|done]. apply Ox. eauto.
Qed.

(** the graph fields after [removeNode] has unregistered the node *)
Definition unregister (node T : Ptr) (g : DG) : DG :=
  let g1 := if isInternal g T then set_internalNodeMap (delete T (internalNodeMap g)) g
            else set_externalNodeMap (delete T (externalNodeMap g)) g in
  set_allNodes (allNodes g1 ∖ {[node]}) g1.

Lemma unregister_node_of h g node x :
  wf h g → node ∈ allNodes g → hnodes h !! node = Some x →
  ∀ t n, node_of (unregister node (theT x) g) t n ↔ node_of g t n ∧ n ≠ node.
Proof.
  intros W Hnode Hx t n.
  assert (n = node → node_of g t n → t = theT x) as HT.
  { intros -> Hn. destruct (wf_map _ _ W _ _ Hn) as (_ & x' & Hx' & <-). congruence. }
  pose proof (wf_node_of_T _ _ _ _ W Hnode Hx) as Hno.
  assert (node_of g (theT x) n → n = node) as Hinj by (intros; eapply wf_node_of_inj; eauto).
  unfold unregister, isInternal, node_of in *. case_bool_decide as Hi; simpl.
  - destruct (decide (t = theT x)) as [->|Hne]; simplify_map_eq; [|naive_solver].
    destruct Hi as [p Hi]. destruct (wf_internal _ _ W _ _ Hi) as [[m ->] He].
    destruct Hno as [Hno|Hno]; [|by destruct (He node)].
    rewrite Hi in Hno. simplify_eq. naive_solver.
  - apply eq_None_not_Some in Hi.
    destruct (decide (t = theT x)) as [->|Hne]; simplify_map_eq; naive_solver.
Qed.

(** [removeNode] removes the node, its edges and its entry in the node maps, and
    detaches it from its neighbours. *)
Lemma removeNode_spec h g node x :
  wf h g → node ∈ allNodes g → hnodes h !! node = Some x →
  wp (removeNode node) (λ _ s', shrunk h g {[node]} (getAllEdges x) s') (h, g).
Proof.
  intros W Hnode Hx.
  pose proof (λ e, wf_out _ _ W _ _ e Hnode Hx) as Ox.
  pose proof (λ e, wf_in _ _ W _ _ e Hnode Hx) as Ix.
  unfold removeNode. dg_steps. exists x. split; [done|]. dg_steps.
  eapply wp_mono; [apply (drop_loop h g node getSrcNode _ ∅ h W)|].
  { intros e He. by apply Ix in He as [? _]. }
  { intros e y [He _]%Ix Hy. destruct (wf_edge _ _ W e He) as (? & ? & ? & ?). by simplify_eq. }
  { split; [done|]. split; [done|]. intros n. rewrite decide_False by set_solver.
    by destruct (hnodes h !! n). }
  { set_solver. }
  intros [] h1 (Z1 & HD1 & _ & HZ1 & Hin). dg_steps.
  eapply wp_mono; [apply (drop_loop h g node getDstNode _ Z1 h1 W)|]; try done.
  { intros e He. by apply Ox in He as [? _]. }
  { intros e y [He _]%Ox Hy. destruct (wf_edge _ _ W e He) as (? & ? & ? & ?). by simplify_eq. }
  intros [] h2 (Z2 & HD2 & HZ12 & HZ2 & Hout). dg_steps.
  change (set_allNodes _ _) with (unregister node (theT x) g).
  eapply wp_mono; [apply delete_edges_loop|].
  intros [] [h3 g3] (E1 & E2 & E3 & E4). simpl in *. dg_steps.
  pose proof (dropped_all h g node x Z2 h2) as Hall.
  pose proof (unregister_node_of h g node x W Hnode Hx) as Hno.
  destruct HD2 as (F1 & F2 & F3). subst g3.
  split; simpl; try done.
  - unfold unregister. by destruct (isInternal g (theT x)).
  - unfold unregister. by destruct (isInternal g (theT x)).
  - intros n Hn Hne. rewrite lookup_delete_ne by set_solver. rewrite E1.
    apply Hall; try done; [set_solver|]. intros; eapply HZ12, Hin; eauto.
  - intros n Hn. rewrite lookup_delete_ne by (intros ->; done). rewrite E1, F3.
    rewrite decide_False by set_solver. by destruct (hnodes h !! n).
  - intros n ->%elem_of_singleton. apply lookup_delete_eq.
  - intros e. rewrite E3, F1. done.
  - rewrite E2. done.
  - intros t n. rewrite elem_of_singleton. apply Hno.
  - intros t p. unfold unregister, isInternal. case_bool_decide; simpl; [|done].
    intros Hp%lookup_delete_Some. tauto.
  - intros t p. unfold unregister, isInternal. case_bool_decide; simpl; [done|].
    intros Hp%lookup_delete_Some. tauto.
  - unfold unregister. by destruct (isInternal g (theT x)).
Qed.

Lemma removeNode_wf h g node x s' :
  wf h g → node ∈ allNodes g → hnodes h !! node = Some x →
  shrunk h g {[node]} (getAllEdges x) s' → wf s'.1 s'.2.
Proof.
  intros W Hnode Hx H. apply (shrunk_wf _ _ _ _ _ W H); [set_solver|].
  intros e y He Hy Hinc. unfold getAllEdges.
  rewrite elem_of_union, (wf_out _ _ W _ _ e Hnode Hx), (wf_in _ _ W _ _ e Hnode Hx).
  set_solver.
Qed.
End facts.
