(* ===== verification/DGSpec.v ===== *)
(** * The abstract specification of dependence graphs

    A dependence graph as its clients think of it: two sets of values and a finite map
    of edges between values. Every sequence of operations of the class [DG] implements
    the corresponding sequence of operations of the specification. *)
From S2P Require Import Prelude DGEdge DGNode DGBase DGInvariant.

(** ** The specification *)

Record AEdge := mkAEdge {
  a_src : Ptr;
  a_dst : Ptr;
  a_kind : DependenceKind;
  a_type : option DataDependenceType
}.

(** values inside and outside the region of the graph, edges, and the number of nodes
    ever created *)
Record AGraph := mkAGraph {
  a_internal : gset Ptr;
  a_external : gset Ptr;
  a_edges : gmap Ptr AEdge;
  a_count : Z
}.

Definition a_values (A : AGraph) : gset Ptr := a_internal A ∪ a_external A.
Definition a_empty : AGraph := mkAGraph ∅ ∅ ∅ 0.

(** the calls a client makes on a graph *)
Inductive dg_call :=
  | CallAddNode (t : Ptr) (inclusion : bool)
  | CallFetchOrAddNode (t : Ptr) (inclusion : bool)
  | CallAddVariable (src dst : Ptr) (t : DataDependenceType)
  | CallAddMemory (src dst : Ptr) (t : DataDependenceType) (isMust : bool)
  | CallAddControl (src dst : Ptr)
  | CallAddUndefined (src dst : Ptr)
  | CallCopyAddEdge (e : Ptr)
  | CallRemoveEdge (e : Ptr)
  | CallRemoveNodeOf (t : Ptr)
  | CallSetEntryNode (n : option Ptr).

Definition call_edge (c : dg_call) : option AEdge :=
  match c with
  | CallAddVariable s d t => Some (mkAEdge s d VARIABLE_DEPENDENCE (Some t))
  | CallAddMemory s d t must =>
      Some (mkAEdge s d (if must then MUST_MEMORY_DEPENDENCE else MAY_MEMORY_DEPENDENCE) (Some t))
  | CallAddControl s d => Some (mkAEdge s d CONTROL_DEPENDENCE None)
  | CallAddUndefined s d => Some (mkAEdge s d UNDEFINED_DEPENDENCE None)
  | _ => None
  end.

(** What each call does. The relation is not defined on the calls a client must not
    make: adding a value twice, an edge between values that are not in the graph,
    copying an undefined dependence, removing what is not there. *)
Inductive a_step (A : AGraph) : dg_call → AGraph → Prop :=
  | a_addNode c t b :
      c = CallAddNode t b ∨ c = CallFetchOrAddNode t b →
      t ∉ a_values A → (a_count A < int32_max)%Z →
      a_step A c
        (mkAGraph (if b then {[t]} ∪ a_internal A else a_internal A)
                  (if b then a_external A else {[t]} ∪ a_external A)
                  (a_edges A) (a_count A + 1))
  | a_fetchNode t b :
      t ∈ a_values A → a_step A (CallFetchOrAddNode t b) A
  | a_addEdge c x e :
      call_edge c = Some x → a_src x ∈ a_values A → a_dst x ∈ a_values A →
      a_edges A !! e = None →
      a_step A c (mkAGraph (a_internal A) (a_external A) (<[e := x]> (a_edges A)) (a_count A))
  | a_removeEdge e :
      is_Some (a_edges A !! e) →
      a_step A (CallRemoveEdge e)
        (mkAGraph (a_internal A) (a_external A) (delete e (a_edges A)) (a_count A))
  | a_removeNode t :
      t ∈ a_values A →
      a_step A (CallRemoveNodeOf t)
        (mkAGraph (a_internal A ∖ {[t]}) (a_external A ∖ {[t]})
           (filter (λ p, a_src p.2 ≠ t ∧ a_dst p.2 ≠ t) (a_edges A)) (a_count A))
  | a_setEntryNode n : a_step A (CallSetEntryNode n) A
  | a_copyEdge e x e' :
      a_edges A !! e = Some x → a_kind x ≠ UNDEFINED_DEPENDENCE → a_edges A !! e' = None →
      a_step A (CallCopyAddEdge e) (mkAGraph (a_internal A) (a_external A) (<[e' := x]> (a_edges A)) (a_count A)).

(** what a call answers: the address of the edge it adds, or nothing when it adds none *)
Definition replies (A A' : AGraph) (r : option Ptr) : Prop :=
  match r with
  | Some e => ∃ x, a_edges A !! e = None ∧ a_edges A' = <[e := x]> (a_edges A)
  | None => a_edges A' ⊆ a_edges A
  end.

(** a call the specification allows *)
Definition enabled (A : AGraph) (c : dg_call) : Prop := ∃ A', a_step A c A'.

(** the calls that add no edge *)
Lemma step_no_edge A c A' : a_step A c A' → call_edge c = None → (∀ e, c ≠ CallCopyAddEdge e) → replies A A' None.
Proof.
  intros [] Hc Hcopy; simpl; try done.
  - congruence.
  - apply delete_subseteq.
  - apply map_filter_subseteq.
  - by edestruct Hcopy.
Qed.

(** ** The implementation *)

Section spec.
Context {IO : IterOrder}.

(** the method each call stands for, with the edge it returns *)
Definition call (c : dg_call) : M GSt (option Ptr) :=
  match c with
  | CallAddNode t b => addNode t b ;;; ret None
  | CallFetchOrAddNode t b => fetchOrAddNode t b ;;; ret None
  | CallAddVariable s d t => let* e := addVariableDataDependenceEdge s d t in ret (Some e)
  | CallAddMemory s d t must => let* e := addMemoryDataDependenceEdge s d t must in ret (Some e)
  | CallAddControl s d => let* e := addControlDependenceEdge s d in ret (Some e)
  | CallAddUndefined s d => let* e := addUndefinedDependenceEdge s d in ret (Some e)
  | CallCopyAddEdge e => let* e' := copyAddEdge e in ret (Some e')
  | CallRemoveEdge e => removeEdge e ;;; ret None
  | CallRemoveNodeOf t => let* n := fetchNode t in let* n := deref n in removeNode n ;;; ret None
  | CallSetEntryNode n => set_this (setEntryNode n) ;;; ret None
  end.
Definition exec (c : dg_call) : M GSt unit := call c ;;; ret tt.

(** ** The refinement relation *)

(** the edge at [e] as the client sees it *)
Definition edge_view (h : Heap) (g : DG) (e : Ptr) : option AEdge :=
  if decide (e ∈ allEdges g) then
    y ← hedges h !! e;
    s ← hnodes h !! from y;
    d ← hnodes h !! to y;
    Some (mkAEdge (theT s) (theT d) (kind y) (dataDepType y))
  else None.

Record rep (h : Heap) (g : DG) (A : AGraph) : Prop := {
  rep_wf : wf h g;
  rep_internal t : t ∈ a_internal A ↔ ∃ n, internalNodeMap g !! t = Some (Some n);
  rep_external t : t ∈ a_external A ↔ ∃ n, externalNodeMap g !! t = Some (Some n);
  rep_phantom t : externalNodeMap g !! t ≠ Some None;
  rep_edges e : a_edges A !! e = edge_view h g e;
  rep_count : a_count A = nodeIdCounter g
}.

Lemma rep_values h g A t : rep h g A → t ∈ a_values A ↔ ∃ n, node_of g t n.
Proof.
  intros R. unfold a_values, node_of.
  rewrite elem_of_union, (rep_internal _ _ _ R), (rep_external _ _ _ R). naive_solver.
Qed.

Lemma in_graph_node_of h g A t :
  rep h g A → isInGraph g t = true → ∃ n, node_of g t n.
Proof.
  intros R. unfold isInGraph, isInternal, isExternal, node_of.
  rewrite orb_true_iff, !bool_decide_eq_true. intros [[p Hp]|[p Hp]].
  - destruct (wf_internal _ _ (rep_wf _ _ _ R) _ _ Hp) as [[n ->] _]. eauto.
  - destruct p as [n|]; [eauto|]. by destruct (rep_phantom _ _ _ R t).
Qed.

Lemma DG_new_rep h : heap_ok h → rep h DG_new a_empty.
Proof.
  intros Hh. split; simpl; [by apply DG_new_wf|..|done].
  - intros t. rewrite lookup_empty. set_solver.
  - intros t. rewrite lookup_empty. set_solver.
  - intros t. by rewrite lookup_empty.
  - intros e. unfold edge_view. simpl. by rewrite decide_False, lookup_empty by set_solver.
Qed.

Lemma edge_view_live h g e y :
  wf h g → e ∈ allEdges g → hedges h !! e = Some y → ∃ s d,
    hnodes h !! from y = Some s ∧ hnodes h !! to y = Some d ∧
    node_of g (theT s) (from y) ∧ node_of g (theT d) (to y) ∧
    edge_view h g e = Some (mkAEdge (theT s) (theT d) (kind y) (dataDepType y)).
Proof.
  intros W He Hy. destruct (wf_edge _ _ W e He) as (y' & Hy' & Hf & Ht). simplify_eq.
  destruct (wf_node _ _ W _ Hf) as (s & Hs & Hns).
  destruct (wf_node _ _ W _ Ht) as (d & Hd & Hnd).
  exists s, d. repeat split; try done. unfold edge_view.
  rewrite decide_True, Hy by done. simpl. rewrite Hs. simpl. by rewrite Hd.
Qed.

Lemma edge_view_inv h g e x :
  edge_view h g e = Some x → e ∈ allEdges g ∧ ∃ y, hedges h !! e = Some y.
Proof.
  unfold edge_view. case_decide; [|done]. destruct (hedges h !! e); naive_solver.
Qed.

Lemma edge_view_run h g e y s d :
  e ∈ allEdges g → hedges h !! e = Some y →
  theT <$> hnodes h !! from y = Some s → theT <$> hnodes h !! to y = Some d →
  edge_view h g e = Some (mkAEdge s d (kind y) (dataDepType y)).
Proof.
  intros He Hy Hs Hd. unfold edge_view. rewrite decide_True, Hy by done. simpl.
  destruct (hnodes h !! from y); simplify_eq/=.
  destruct (hnodes h !! to y); by simplify_eq/=.
Qed.

(** the view of an edge depends on its object and on the values of its vertices *)
Lemma edge_view_same h g h' g' e :
  (e ∈ allEdges g' ↔ e ∈ allEdges g) → hedges h' !! e = hedges h !! e →
  (∀ y, e ∈ allEdges g → hedges h !! e = Some y →
     theT <$> hnodes h' !! from y = theT <$> hnodes h !! from y ∧
     theT <$> hnodes h' !! to y = theT <$> hnodes h !! to y) →
  edge_view h' g' e = edge_view h g e.
Proof.
  intros He Hh Hn. unfold edge_view.
  destruct (decide (e ∈ allEdges g)) as [Hin|Hin]; [|by rewrite decide_False by naive_solver].
  rewrite decide_True by naive_solver. rewrite Hh.
  destruct (hedges h !! e) as [y|]; [|done]. destruct (Hn y) as [Hf Ht]; [done..|]. simpl.
  destruct (hnodes h !! from y), (hnodes h' !! from y); simplify_eq/=; [|done].
  destruct (hnodes h !! to y), (hnodes h' !! to y); simplify_eq/=; congruence.
Qed.

Lemma addNode_simulates h g A c t b :
  c = CallAddNode t b ∨ c = CallFetchOrAddNode t b →
  rep h g A → t ∉ a_values A → (a_count A < int32_max)%Z →
  wp (addNode t b) (λ _ s', ∃ A', a_step A c A' ∧ rep s'.1 s'.2 A') (h, g).
Proof.
  intros Hcall R Ht Hc. pose proof (rep_wf _ _ _ R) as W.
  assert (∀ n, ¬ node_of g t n) as Hno.
  { intros n Hn. apply Ht. apply (rep_values _ _ _ _ R). eauto. }
  destruct (added_node_wf h g t b W Hno) as [W' Hnode].
  unfold wp. rewrite addNode_run by (rewrite <- (rep_count _ _ _ R); done).
  eexists. split; [by apply a_addNode|]. split; [done|..].
  - intros t'. simpl. pose proof (rep_internal _ _ _ R t') as Hi.
    destruct b; [|done]. rewrite elem_of_union, elem_of_singleton, Hi.
    destruct (decide (t' = t)) as [->|Hne]; simplify_map_eq; naive_solver.
  - intros t'. simpl. pose proof (rep_external _ _ _ R t') as He.
    destruct b; [done|]. rewrite elem_of_union, elem_of_singleton, He.
    destruct (decide (t' = t)) as [->|Hne]; simplify_map_eq; naive_solver.
  - intros t'. simpl. pose proof (rep_phantom _ _ _ R t') as He.
    destruct b; [done|]. by destruct (decide (t' = t)) as [->|Hne]; simplify_map_eq.
  - intros e. simpl. rewrite (rep_edges _ _ _ R). unfold edge_view. simpl.
    case_decide as He; [|done].
    destruct (wf_edge _ _ W e He) as (y & Hy & Hf & Ht'). rewrite Hy. simpl.
    pose proof (wf_fresh_node _ _ W) as Hfn.
    assert (nextAddr h ≠ from y ∧ nextAddr h ≠ to y) as [? ?] by (split; congruence).
    by rewrite !lookup_insert_ne by done.
  - simpl. by rewrite (rep_count _ _ _ R).
Qed.

(** registering an edge object between two values *)
Lemma added_edge_rep h g A x f t y :
  rep h g A → node_of g (a_src x) f → node_of g (a_dst x) t →
  from y = f → to y = t → kind y = a_kind x → dataDepType y = a_type x →
  a_edges A !! nextAddr h = None ∧
  rep (added_edge h g y).1 (added_edge h g y).2
    (mkAGraph (a_internal A) (a_external A) (<[nextAddr h := x]> (a_edges A)) (a_count A)).
Proof.
  intros R Hf Ht M1 M2 M3 M4. pose proof (rep_wf _ _ _ R) as W.
  destruct (wf_map _ _ W _ _ Hf) as (Hfn & xf & Hxf & ETf).
  destruct (wf_map _ _ W _ _ Ht) as (Htn & xt & Hxt & ETt).
  pose proof (wf_fresh_edge _ _ W) as Hfe. split.
  - rewrite (rep_edges _ _ _ R). unfold edge_view. by rewrite decide_False.
  - split.
    + apply added_edge_wf; congruence.
    + apply (rep_internal _ _ _ R).
    + apply (rep_external _ _ _ R).
    + apply (rep_phantom _ _ _ R).
    + intros e. cbn [a_edges].
      assert (∀ n, theT <$> hnodes (added_edge h g y).1 !! n = theT <$> hnodes h !! n) as ET.
      { intros n. rewrite added_edge_nodes. by destruct (hnodes h !! n). }
      destruct (decide (e = nextAddr h)) as [->|Hne].
      * rewrite lookup_insert_eq. symmetry.
        rewrite (edge_view_run _ _ _ y (a_src x) (a_dst x)); rewrite ?M1, ?M2, ?ET, ?Hxf, ?Hxt; simpl.
        -- destruct x; simpl in *; congruence.
        -- set_solver.
        -- by rewrite lookup_insert_eq.
        -- congruence.
        -- congruence.
      * rewrite lookup_insert_ne by done. rewrite (rep_edges _ _ _ R). symmetry.
        apply edge_view_same; [simpl; set_solver|simpl; by rewrite lookup_insert_ne|done].
    + simpl. apply (rep_count _ _ _ R).
Qed.

Lemma addEdge_replies h g A c src dst x mk :
  rep h g A → call_edge c = Some x → a_src x = src → a_dst x = dst →
  src ∈ a_values A → dst ∈ a_values A →
  (∀ f t, from (mk f t) = f ∧ to (mk f t) = t ∧ kind (mk f t) = a_kind x ∧
          dataDepType (mk f t) = a_type x) →
  wp (let* fromNode := fetchNode src in
      let* toNode := fetchNode dst in
      registerEdge fromNode toNode mk)
     (λ e s', ∃ A', a_step A c A' ∧ replies A A' (Some e) ∧ rep s'.1 s'.2 A') (h, g).
Proof.
  intros R Hc <- <- Hs Hd Hmk. pose proof (rep_wf _ _ _ R) as W.
  pose proof Hs as Hs'. pose proof Hd as Hd'.
  apply (rep_values _ _ _ _ R) in Hs as [f Hf]. apply (rep_values _ _ _ _ R) in Hd as [t Ht].
  destruct (Hmk f t) as (M1 & M2 & M3 & M4).
  eapply wp_mono; [by apply (addEdge_spec _ _ _ _ _ _ _ W Hf Ht)|].
  intros e s' [-> ->]. destruct (added_edge_rep h g A x f t _ R Hf Ht M1 M2 M3 M4) as [Hnew R'].
  eexists. split; [by apply (a_addEdge _ _ x (nextAddr h))|]. split; [by exists x|exact R'].
Qed.
Lemma addEdge_simulates h g A c src dst x mk :
  rep h g A → call_edge c = Some x → a_src x = src → a_dst x = dst →
  src ∈ a_values A → dst ∈ a_values A →
  (∀ f t, from (mk f t) = f ∧ to (mk f t) = t ∧ kind (mk f t) = a_kind x ∧
          dataDepType (mk f t) = a_type x) →
  wp (let* fromNode := fetchNode src in
      let* toNode := fetchNode dst in
      registerEdge fromNode toNode mk)
     (λ _ s', ∃ A', a_step A c A' ∧ rep s'.1 s'.2 A') (h, g).
Proof.
  intros R Hc Es Ed Hs Hd Hmk. eapply wp_mono; [by apply (addEdge_replies h g A c src dst x mk)|].
  intros e s' (A' & ? & _ & ?). by exists A'.
Qed.

(** the edges of a shrunk graph *)
Lemma shrunk_view h g R D s' e :
  wf h g → shrunk h g R D s' →
  (∀ e y, e ∈ allEdges g → hedges h !! e = Some y → from y ∈ R ∨ to y ∈ R → e ∈ D) →
  edge_view s'.1 s'.2 e = if decide (e ∈ D) then None else edge_view h g e.
Proof.
  intros W H Hinc. case_decide as HD.
  - unfold edge_view. rewrite decide_False; [done|].
    rewrite (sh_edges _ _ _ _ _ H). set_solver.
  - apply edge_view_same.
    + rewrite (sh_edges _ _ _ _ _ H). set_solver.
    + rewrite (sh_hedges _ _ _ _ _ H). by rewrite decide_False.
    + intros y He Hy. destruct (wf_edge _ _ W e He) as (y' & Hy' & Hf & Ht).
      assert (y' = y) as -> by congruence. pose proof (Hinc e y He Hy).
      rewrite !(sh_kept _ _ _ _ _ H) by naive_solver.
      destruct (hnodes h !! from y), (hnodes h !! to y); done.
Qed.

Lemma removeEdge_simulates h g A e :
  rep h g A → is_Some (a_edges A !! e) →
  wp (removeEdge e) (λ _ s', ∃ A', a_step A (CallRemoveEdge e) A' ∧ rep s'.1 s'.2 A') (h, g).
Proof.
  intros R [x Hx]. pose proof (rep_wf _ _ _ R) as W. pose proof Hx as Hx'.
  rewrite (rep_edges _ _ _ R) in Hx'. destruct (edge_view_inv _ _ _ _ Hx') as [He _].
  eapply wp_mono; [by apply removeEdge_spec|]. intros [] s' H.
  eexists. split; [apply a_removeEdge; eauto|].
  assert (∀ t n, node_of s'.2 t n ↔ node_of g t n) as Hno.
  { intros t n. rewrite (sh_node_of _ _ _ _ _ H). set_solver. }
  assert (wf s'.1 s'.2) as W' by (apply (shrunk_wf _ _ _ _ _ W H); set_solver).
  split; simpl; [done| | | | |].
  - intros t. rewrite (rep_internal _ _ _ R). split; intros [n Hn].
    + destruct (proj2 (Hno t n) (or_introl Hn)) as [?|Hc]; [eauto|].
      apply (sh_external _ _ _ _ _ H) in Hc.
      destruct (wf_internal _ _ W _ _ Hn) as [_ []%(λ f, f n)]. done.
    + exists n. by apply (sh_internal _ _ _ _ _ H).
  - intros t. rewrite (rep_external _ _ _ R). split; intros [n Hn].
    + destruct (proj2 (Hno t n) (or_intror Hn)) as [Hc|?]; [|eauto].
      apply (sh_internal _ _ _ _ _ H) in Hc.
      destruct (wf_internal _ _ W _ _ Hc) as [_ []%(λ f, f n)]. done.
    + exists n. by apply (sh_external _ _ _ _ _ H).
  - intros t Ht%(sh_external _ _ _ _ _ H). by destruct (rep_phantom _ _ _ R t).
  - intros e'. rewrite lookup_delete, (shrunk_view _ _ _ _ _ _ W H) by set_solver.
    rewrite (rep_edges _ _ _ R). repeat case_decide; set_solver.
  - by rewrite (rep_count _ _ _ R), (sh_counter _ _ _ _ _ H).
Qed.

Lemma removeNode_simulates h g A t n :
  rep h g A → node_of g t n →
  wp (removeNode n)
     (λ _ s', ∃ A', a_step A (CallRemoveNodeOf t) A' ∧ rep s'.1 s'.2 A') (h, g).
Proof.
  intros R Hn. pose proof (rep_wf _ _ _ R) as W.
  destruct (wf_map _ _ W _ _ Hn) as (Hin & x & Hx & HT).
  eapply wp_mono; [by apply removeNode_spec|]. intros [] s' H.
  pose proof (removeNode_wf _ _ _ _ _ W Hin Hx H) as W'.
  eexists. split; [apply a_removeNode, (rep_values _ _ _ _ R); eauto|].
  assert (∀ m, n = m ↔ node_of g t m) as Hinj.
  { intros m. split; [by intros ->|]. intros Hm. exact (wf_node_of_inj _ _ _ _ _ W Hn Hm). }
  assert (∀ t' m, node_of s'.2 t' m ↔ node_of g t' m ∧ t' ≠ t) as Hno.
  { intros t' m. rewrite (sh_node_of _ _ _ _ _ H), elem_of_singleton.
    split; intros [Hm Hne]; (split; [done|]).
    - intros ->. apply Hne. symmetry. by apply Hinj.
    - intros ->. apply Hne. destruct (wf_map _ _ W _ _ Hm) as (_ & x' & Hx' & <-).
      congruence. }
  split; simpl; [done| | | | |].
  - intros t'. rewrite elem_of_difference, elem_of_singleton, (rep_internal _ _ _ R).
    split.
    + intros [[m Hm] Hne].
      destruct (proj2 (Hno t' m) (conj (or_introl Hm) Hne)) as [?|Hc]; [eauto|].
      apply (sh_external _ _ _ _ _ H) in Hc.
      destruct (wf_internal _ _ W _ _ Hm) as [_ []%(λ f, f m)]. done.
    + intros [m Hm]. split; [exists m; by apply (sh_internal _ _ _ _ _ H)|].
      by apply (Hno t' m); left.
  - intros t'. rewrite elem_of_difference, elem_of_singleton, (rep_external _ _ _ R).
    split.
    + intros [[m Hm] Hne].
      destruct (proj2 (Hno t' m) (conj (or_intror Hm) Hne)) as [Hc|?]; [|eauto].
      apply (sh_internal _ _ _ _ _ H) in Hc.
      destruct (wf_internal _ _ W _ _ Hc) as [_ []%(λ f, f m)]. done.
    + intros [m Hm]. split; [exists m; by apply (sh_external _ _ _ _ _ H)|].
      by apply (Hno t' m); right.
  - intros t' Ht%(sh_external _ _ _ _ _ H). by destruct (rep_phantom _ _ _ R t').
  - assert (∀ e y, e ∈ allEdges g → hedges h !! e = Some y →
              e ∈ getAllEdges x ↔ from y = n ∨ to y = n) as HD.
    { intros e y He Hy. unfold getAllEdges.
      rewrite elem_of_union, (wf_out _ _ W n x e), (wf_in _ _ W n x e) by done. naive_solver. }
    intros e. rewrite (shrunk_view _ _ _ _ _ _ W H) by set_solver.
    rewrite map_lookup_filter, (rep_edges _ _ _ R).
    destruct (edge_view h g e) as [v|] eqn:Hv; simpl.
    2:{ by case_decide. }
    destruct (edge_view_inv _ _ _ _ Hv) as (He & y & Hy).
    destruct (edge_view_live _ _ _ _ W He Hy) as (s & d & Hs & Hd & Ns & Nd & Hv').
    rewrite Hv in Hv'. simplify_eq/=.
    assert (theT s = theT x ↔ from y = n) as E1.
    { split; [intros E; rewrite E in Ns; symmetry; by apply Hinj|intros <-; congruence]. }
    assert (theT d = theT x ↔ to y = n) as E2.
    { split; [intros E; rewrite E in Nd; symmetry; by apply Hinj|intros <-; congruence]. }
    pose proof (HD e y He Hy) as HDe.
    destruct (decide (e ∈ getAllEdges x)) as [Hc|Hc].
    + rewrite option_guard_False; [done|]. simpl. naive_solver.
    + rewrite option_guard_True; [done|]. simpl. naive_solver.
  - by rewrite (rep_count _ _ _ R), (sh_counter _ _ _ _ _ H).
Qed.

(** *** Edge objects that can be copied *)

(** the edges of a graph are objects of concrete classes without sub-edges *)
Definition plain (h : Heap) (g : DG) : Prop :=
  ∀ e y, e ∈ allEdges g → hedges h !! e = Some y → edge_class_ok y ∧ getSubEdges y = ∅.

Lemma plain_shrunk h g R D s' : shrunk h g R D s' → plain h g → plain s'.1 s'.2.
Proof.
  intros H P e y. rewrite (sh_edges _ _ _ _ _ H), (sh_hedges _ _ _ _ _ H). intros [He HD]%elem_of_difference.
  rewrite decide_False by done. by apply P.
Qed.
Lemma plain_added h g y : plain h g → edge_class_ok y → getSubEdges y = ∅ →
  plain (added_edge h g y).1 (added_edge h g y).2.
Proof.
  intros P Hc Hs e z. simpl. intros He. destruct (decide (e = nextAddr h)) as [->|Hne].
  - rewrite lookup_insert_eq. by intros [= <-].
  - rewrite lookup_insert_ne by done. apply P. set_solver.
Qed.

(** copying an edge of the graph into the graph *)
Lemma copyAddEdge_replies h g A e x : rep h g A → plain h g → a_edges A !! e = Some x → a_kind x ≠ UNDEFINED_DEPENDENCE →
  wp (copyAddEdge e) (λ e' s', ∃ A', a_step A (CallCopyAddEdge e) A' ∧ replies A A' (Some e') ∧ rep s'.1 s'.2 A' ∧
    plain s'.1 s'.2) (h, g).
Proof.
  intros R P Hx Hu. pose proof (rep_wf _ _ _ R) as W. pose proof Hx as Hv. rewrite (rep_edges _ _ _ R) in Hv.
  destruct (edge_view_inv _ _ _ _ Hv) as (He & y & Hy). destruct (P e y He Hy) as [Yc Ys].
  destruct (edge_view_live h g e y W He Hy) as (s & d & Hs & Hd & Ns & Nd & Hv').
  rewrite Hv in Hv'. injection Hv' as ->. simpl in Hu. eapply wp_mono.
  { apply (copyAddEdge_spec h g e y s d (from y) (to y) W Hy Yc Hu); [|done..]. rewrite Ys. set_solver. }
  intros e' s' (-> & c & -> & C1 & C2 & C3 & C4 & C5 & _).
  destruct (added_edge_rep h g A (mkAEdge (theT s) (theT d) (kind y) (dataDepType y)) (from y) (to y) c R Ns Nd C1 C2 C3 C4) as [Hnew R'].
  eexists. split; [by eapply a_copyEdge|]. split; [by eexists|]. split; [exact R'|]. apply plain_added; [done| |by rewrite C5].
  unfold edge_class_ok. by rewrite C3, C4.
Qed.

(** Every call the specification allows runs without error, its effect is the one the
    specification gives, and it answers the edge that was added. *)
Lemma call_simulates h g A c :
  rep h g A → plain h g → enabled A c →
  wp (call c) (λ r s', ∃ A', a_step A c A' ∧ replies A A' r ∧ rep s'.1 s'.2 A' ∧ plain s'.1 s'.2) (h, g).
Proof.
  intros R P [A' Hstep]. pose proof (rep_wf _ _ _ R) as W.
  destruct Hstep as [c t b Hcall Ht Hc|t b Ht|c x e Hc Hs Hd He|e He|t Ht|n|e x e' Hx Hu He']; cbn [call].
  - assert (wp (addNode t b) (λ _ s', ∃ A', a_step A c A' ∧ replies A A' None ∧ rep s'.1 s'.2 A' ∧ plain s'.1 s'.2) (h, g)) as Hsim.
    { eapply wp_mono; [apply wp_conj; [by apply (addNode_simulates h g A c t b)|]|].
      - instantiate (1 := λ _ s', plain s'.1 s'.2). unfold wp. rewrite addNode_run; [|by rewrite <- (rep_count _ _ _ R)].
        exact P.
      - intros n s' [(A' & Hst & R') P']. exists A'. split_and!; [done| |done|done].
        destruct Hcall; subst; by eapply step_no_edge. }
    destruct Hcall as [-> | ->]; cbn [call]; [dg_step; eapply wp_mono; [exact Hsim|done]|].
    unfold fetchOrAddNode. dg_steps. destruct (isInGraph g t) eqn:Hg.
    { exfalso. apply Ht, (rep_values _ _ _ _ R). by apply (in_graph_node_of _ _ _ _ R). }
    dg_step. eapply wp_mono; [exact Hsim|done].
  - pose proof Ht as Ht'. apply (rep_values _ _ _ _ R) in Ht' as [n Hn].
    unfold fetchOrAddNode. dg_steps. rewrite (node_of_in_graph _ _ _ Hn).
    unfold wp at 1. rewrite (fetchNode_present _ _ _ _ W Hn). apply wp_ret.
    exists A. split_and!; [by apply a_fetchNode|by simpl|done|done].
  - assert (∀ mk, (∀ f t, from (mk f t) = f ∧ to (mk f t) = t ∧ kind (mk f t) = a_kind x ∧ dataDepType (mk f t) = a_type x ∧
        edge_class_ok (mk f t) ∧ getSubEdges (mk f t) = ∅) →
      wp (let* fromNode := fetchNode (a_src x) in let* toNode := fetchNode (a_dst x) in registerEdge fromNode toNode mk)
        (λ e s', ∃ A', a_step A c A' ∧ replies A A' (Some e) ∧ rep s'.1 s'.2 A' ∧ plain s'.1 s'.2) (h, g)) as Hsim.
    { intros mk Hmk. pose proof Hs as [f Hf]%(rep_values _ _ _ _ R). pose proof Hd as [u Hu]%(rep_values _ _ _ _ R).
      destruct (Hmk f u) as (F1 & F2 & _ & _ & F3 & F4). eapply wp_mono.
      - apply wp_conj; [apply (addEdge_replies h g A c _ _ x mk R Hc eq_refl eq_refl Hs Hd); intros f' t'; destruct (Hmk f' t'); tauto|].
        by apply (addEdge_spec h g _ _ f u mk).
      - intros e' s' [(A' & ? & ? & ?) [_ ->]]. exists A'. split_and!; [done..|]. by apply plain_added. }
    destruct c; simplify_eq/=; dg_step;
      (eapply wp_mono; [apply Hsim; intros f d; repeat case_match; split_and!; first [done|by eexists]|]; intros e' s' H'; by apply wp_ret).
  - dg_step. eapply wp_mono; [apply wp_conj; [by apply removeEdge_simulates|]|].
    + destruct He as [x Hx]. rewrite (rep_edges _ _ _ R) in Hx. destruct (edge_view_inv _ _ _ _ Hx) as [He _].
      by apply (removeEdge_spec h g e W).
    + intros [] s' [(A' & Hst & R') H]. apply wp_ret. exists A'. split_and!; [done|by eapply step_no_edge|done|by eapply plain_shrunk].
  - pose proof Ht as Ht'. apply (rep_values _ _ _ _ R) in Ht' as [n Hn]. destruct (wf_map _ _ W _ _ Hn) as (Hin & y & Hy & _).
    dg_step. unfold wp at 1. rewrite (fetchNode_present _ _ _ _ W Hn).
    dg_step. apply wp_deref. exists n. split; [done|]. dg_step.
    eapply wp_mono; [apply wp_conj; [by apply (removeNode_simulates h g A t n)|by apply (removeNode_spec h g n y W)]|].
    intros [] s' [(A' & Hst & R') H]. apply wp_ret. exists A'. split_and!; [done|by eapply step_no_edge|done|by eapply plain_shrunk].
  - dg_steps. exists A. split_and!; [constructor|by simpl| |done]. destruct R. split; try done.
    by apply setEntryNode_wf.
  - dg_step. eapply wp_mono; [by apply (copyAddEdge_replies h g A e x)|]. intros r s' H. by apply wp_ret.
Qed.

(** ** Clients *)

(** a client makes calls and goes on with what they answer *)
Inductive client :=
  | Done
  | Call (c : dg_call) (next : option Ptr → client).

(** the calls that a client makes *)
Fixpoint run (cl : client) : M GSt (list dg_call) :=
  match cl with
  | Done => ret []
  | Call c next =>
      let* r := call c in
      let* cs := run (next r) in
      ret (c :: cs)
  end.

(** each call is allowed when it is made, whatever the calls before have answered *)
Fixpoint well_behaved (A : AGraph) (cl : client) : Prop :=
  match cl with
  | Done => True
  | Call c next => enabled A c ∧ ∀ A' r, a_step A c A' → replies A A' r → well_behaved A' (next r)
  end.

Inductive a_trace : AGraph → list dg_call → AGraph → Prop :=
  | a_trace_nil A : a_trace A [] A
  | a_trace_cons A c A' cs A'' : a_step A c A' → a_trace A' cs A'' → a_trace A (c :: cs) A''.

(** (C1) The class DG refines the abstract graph: whatever calls a well-behaved client makes on a
    freshly constructed graph (it may copy and remove the edges that its calls return), no call
    dereferences a null or dangling pointer or fails an assertion, the final object represents a
    graph the specification reaches by the same calls, and the object is well formed. *)
Theorem dg_refines_abstract_graph h cl :
  heap_ok h → well_behaved a_empty cl →
  wp (run cl)
     (λ cs s', ∃ A', a_trace a_empty cs A' ∧ rep s'.1 s'.2 A' ∧ wf s'.1 s'.2) (h, DG_new).
Proof.
  intros Hh. pose proof (DG_new_rep h Hh) as R. assert (plain h DG_new) as P by (intros e y He; set_solver).
  revert R P. generalize DG_new, a_empty, h.
  induction cl as [|c next IH]; intros g A h' R P Hwb; cbn [run].
  - apply wp_ret. exists A. split; [constructor|]. split; [done|apply R].
  - destruct Hwb as [Hen Hnext]. apply wp_bind.
    eapply wp_mono; [by apply call_simulates|]. intros r [h1 g1] (A' & Hstep & Hr & R' & P').
    apply wp_bind. eapply wp_mono; [by apply (IH r g1 A' h1 R' P'), Hnext|].
    intros cs s' (A'' & Htr & ? & ?). apply wp_ret. exists A''. split; [by econstructor|done].
Qed.
End spec.
