(* ===== verification/DGQuery.v ===== *)
(** * Queries over a whole dependence graph

    What [getDisconnectedSubgraphs], [getTopLevelNodes], [getLeafNodes] and
    [sortDependences] return on a well-formed graph, and what the phantom entries left by
    [fetchNode] do to later calls. *)
From S2P Require Import Prelude DGEdge DGNode DGBase DGInvariant.

(** [n] and [m] are the two ends of an edge of the graph, in either direction *)
Definition adjacent (h : Heap) (g : DG) (n m : Ptr) : Prop :=
  ∃ e y, e ∈ allEdges g ∧ hedges h !! e = Some y ∧
    ((from y = n ∧ to y = m) ∨ (to y = n ∧ from y = m)).

Lemma adjacent_sym h g n m : adjacent h g n m → adjacent h g m n.
Proof. intros (e & y & ? & ? & ?). exists e, y. naive_solver. Qed.

Section query.
Context {IO : IterOrder}.
Implicit Types (h : Heap) (g : DG).

(** ** Connected components *)

Lemma visitEdges_spec h dir v q es :
  (∀ e, e ∈ es → is_Some (hedges h !! e)) →
  ∃ new, visitEdges h dir (v, q) es = Ok (v ∪ list_to_set new, q ++ new) ∧ NoDup new ∧
    (∀ x, x ∈ new ↔ x ∉ v ∧ ∃ e y, e ∈ es ∧ hedges h !! e = Some y ∧ dir y = x).
Proof.
  intros Hes. unfold visitEdges.
  destruct (foldR_spec
    (λ vq e, match hedges h !! e with
             | Some x => Ok (checkToVisitNode vq (dir x)) | None => Fail UndefinedBehaviour end)
    (λ pre vq, ∃ new, vq = (v ∪ list_to_set new, q ++ new) ∧ NoDup new ∧
      ∀ x, x ∈ new ↔ x ∉ v ∧ ∃ e y, e ∈ pre ∧ hedges h !! e = Some y ∧ dir y = x)
    (visit es) (v, q)) as (vq & -> & new & -> & Hnd & Hnew).
  - exists []. split; [f_equal; [set_solver|by rewrite app_nil_r]|]. split; [constructor|].
    set_solver.
  - intros pre e vq [post Hp] (new & -> & Hnd & Hnew).
    assert (e ∈ es) as He. { apply elem_of_visit. rewrite Hp. set_solver. }
    destruct (Hes e He) as [y Hy]. rewrite Hy. eexists. split; [done|].
    unfold checkToVisitNode. simpl. case_decide as Hin.
    + exists new. split; [done|]. split; [done|]. intros x. rewrite Hnew.
      assert (dir y ∉ v → dir y ∈ new) by set_solver. set_unfold. naive_solver.
    + exists (new ++ [dir y]). split; [f_equal; [set_solver|by rewrite (assoc_L _)]|].
      split.
      * apply NoDup_app. split; [done|]. split; [set_solver|]. apply NoDup_singleton.
      * intros x. rewrite elem_of_app, Hnew, list_elem_of_singleton. set_unfold. naive_solver.
  - exists new. split; [done|]. split; [done|]. intros x. rewrite Hnew.
    by setoid_rewrite elem_of_visit.
Qed.

(** the invariant of the search for the component of [node]; [V] is what earlier
    searches have visited *)
Record searching h g (node : Ptr) (V : gset Ptr) (st : (gset Ptr * list Ptr) * gset Ptr) : Prop := {
  s_visited x : x ∈ st.1.1 ↔ x ∈ V ∨ x ∈ st.1.2 ∨ x ∈ st.2;
  s_nodup : NoDup st.1.2;
  s_disjoint x : x ∈ st.1.2 → x ∉ st.2;
  s_reached x : x ∈ st.1.2 ∨ x ∈ st.2 → rtc (adjacent h g) node x ∧ x ∈ allNodes g;
  s_closed x y : x ∈ st.2 → adjacent h g x y → y ∈ st.1.1;
  s_start : node ∈ st.1.1
}.

Lemma component_spec h g node V :
  wf h g → node ∈ allNodes g → node ∉ V → (∀ x y, x ∈ V → adjacent h g x y → y ∈ V) →
  ∃ visited C, while (S (numNodes g)) (componentStep h) (({[node]} ∪ V, [node]), ∅)
               = Ok (visited, C) ∧
    visited = V ∪ C ∧ (∀ x, x ∈ C ↔ rtc (adjacent h g) node x) ∧ C ⊆ allNodes g ∧ C ## V.
Proof.
  intros W Hnode HnV HV.
  assert (∀ x, rtc (adjacent h g) node x → x ∉ V) as HreachV.
  { apply (rtc_ind_r (λ x, x ∉ V)); [done|]. intros x y _ Hxy IH Hy.
    apply IH, (HV y); [done|by apply adjacent_sym]. }
  destruct (while_spec (componentStep h) (searching h g node V)
    (λ st, numNodes g - size st.2)
    (λ r, r.1 = V ∪ r.2 ∧ (∀ x, x ∈ r.2 ↔ rtc (adjacent h g) node x) ∧
          r.2 ⊆ allNodes g ∧ r.2 ## V)
    (S (numNodes g)) (({[node]} ∪ V, [node]), ∅)) as ([visited C] & -> & H); [| |lia|eauto].
  - split; simpl; [set_solver|apply NoDup_singleton|set_solver| |set_solver|set_solver].
    intros x. rewrite list_elem_of_singleton. intros [->|?]; [|set_solver]. by split.
  - intros [[visited [|n queue]] C] [Hvis Hnd Hdis Hreach Hcl Hst]; simpl in *.
    + right. eexists. split; [done|]. simpl.
      assert (∀ x, x ∈ C ↔ rtc (adjacent h g) node x) as HC.
      { intros x. split; [intros; by apply Hreach; right|].
        apply (rtc_closed _ (λ x, x ∈ C)).
        - intros a b Ha Hab. pose proof (Hcl a b Ha Hab) as Hb%Hvis.
          destruct (Hreach a (or_intror Ha)) as [Hra _].
          pose proof (HreachV b (rtc_r _ _ _ Hra Hab)). set_solver.
        - pose proof Hst as Hst'. apply Hvis in Hst' as [?|[?|?]]; [done|set_solver|done]. }
      split; [set_solver|]. split; [done|]. split; [intros x Hx; by apply Hreach; right|].
      intros x Hx. by apply HreachV, HC.
    + left. destruct (Hreach n) as [Hrn Hn]; [set_solver|].
      apply NoDup_cons in Hnd as [Hnq Hnd].
      destruct (wf_node _ _ W n Hn) as (z & Hz & _). rewrite Hz.
      destruct (visitEdges_spec h getDstNode visited queue (outgoingEdges z))
        as (new1 & -> & Hnd1 & Hnew1).
      { intros e He. eapply wf_edges_live; eauto. unfold getAllEdges. set_solver. }
      cbn [rbind].
      destruct (visitEdges_spec h getSrcNode (visited ∪ list_to_set new1) (queue ++ new1)
        (incomingEdges z)) as (new2 & -> & Hnd2 & Hnew2).
      { intros e He. eapply wf_edges_live; eauto. unfold getAllEdges. set_solver. }
      cbn [rbind]. eexists. split; [done|].
      assert (∀ x, x ∈ new1 ++ new2 ↔ x ∉ visited ∧ adjacent h g n x) as Hnew.
      { intros x. pose proof (λ e, wf_out _ _ W n z e Hn Hz) as Ox.
        pose proof (λ e, wf_in _ _ W n z e Hn Hz) as Ix.
        rewrite elem_of_app, Hnew2, elem_of_union, elem_of_list_to_set.
        destruct (decide (x ∈ visited)) as [Hx|Hx].
        { split; [|tauto]. intros [[? _]%Hnew1|[? _]]; tauto. }
        unfold adjacent, getDstNode, getSrcNode in *. split.
        - intros [[_ (e & y & He%Ox & Hy & Hto)]%Hnew1|[_ (e & y & He%Ix & Hy & Hfr)]];
            (split; [done|exists e, y; naive_solver]).
        - intros [_ (e & y & He & Hy & Hends)].
          destruct (decide (x ∈ new1)) as [|Hx1]; [by left|].
          destruct Hends as [[Hf Ht]|[Ht Hf]].
          + destruct Hx1. apply Hnew1. split; [done|]. exists e, y. rewrite Ox. eauto 6.
          + right. split; [tauto|]. exists e, y. rewrite Ix. eauto 6. }
      rewrite <- (assoc_L (++) queue), <- (assoc_L (∪) visited).
      rewrite <- list_to_set_app_L. set (new := new1 ++ new2) in *.
      assert (NoDup new) as Hndn.
      { apply NoDup_app. split; [done|]. split; [|done]. intros x Hx [Hx' _]%Hnew2.
        set_solver. }
      clearbody new. clear new1 new2 Hnd1 Hnd2 Hnew1 Hnew2.
      assert (n ∉ C) as HnC by (apply Hdis; set_solver).
      split; [split|]; simpl.
      * intros x. rewrite elem_of_union, elem_of_list_to_set, Hvis. set_solver.
      * apply NoDup_app. split; [done|]. split; [|done].
        intros x Hx [Hx' _]%Hnew. apply Hx', Hvis. set_solver.
      * intros x. rewrite elem_of_app. intros [Hx|[Hx _]%Hnew].
        -- pose proof (Hdis x). set_solver.
        -- intros Hc. apply Hx, Hvis. set_solver.
      * intros x Hx. destruct (decide (x ∈ new)) as [[_ Ha]%Hnew|]; [|apply Hreach; set_solver].
        split; [by eapply rtc_r|]. destruct Ha as (e & y & He & Hy & Hends).
        destruct (wf_edge _ _ W e He) as (y' & ? & ? & ?). simplify_eq. naive_solver.
      * intros x y [->%elem_of_singleton|Hx]%elem_of_union Hxy.
        -- destruct (decide (y ∈ visited)); [set_solver|].
           apply elem_of_union_r, elem_of_list_to_set, Hnew. done.
        -- apply elem_of_union_l. by apply (Hcl x).
      * set_solver.
      * assert (size ({[n]} ∪ C) ≤ numNodes g).
        { unfold numNodes. apply subseteq_size. intros x [->%elem_of_singleton|Hx]%elem_of_union; [done|].
          apply Hreach. by right. }
        rewrite size_union, size_singleton in * by set_solver. unfold numNodes in *. lia.
Qed.

(** (C17) getDisconnectedSubgraphs returns the connected components of the graph: it
    terminates without error, the sets it returns are pairwise disjoint, they cover
    exactly the nodes of the graph, and each is the set of nodes connected to one node
    by edges followed in either direction. This holds for every iteration order. *)
Theorem getDisconnectedSubgraphs_components h g :
  wf h g → ∃ cs, getDisconnectedSubgraphs h g = Ok cs ∧ ⋃ cs = allNodes g ∧
    (∀ c, c ∈ cs → ∃ n, n ∈ allNodes g ∧ ∀ m, m ∈ c ↔ rtc (adjacent h g) n m) ∧
    (∀ i j c d, cs !! i = Some c → cs !! j = Some d → i ≠ j → c ## d).
Proof.
  intros W. unfold getDisconnectedSubgraphs.
  match goal with |- context [foldR ?f ?b ?l] =>
    destruct (foldR_spec f (λ pre (st : gset Ptr * list (gset Ptr)),
      st.1 = ⋃ st.2 ∧ list_to_set pre ⊆ st.1 ∧ st.1 ⊆ allNodes g ∧
      (∀ c, c ∈ st.2 → ∃ n, n ∈ allNodes g ∧ ∀ m, m ∈ c ↔ rtc (adjacent h g) n m) ∧
      (∀ i j c d, st.2 !! i = Some c → st.2 !! j = Some d → i ≠ j → c ## d)) l b)
      as ([V cs] & -> & H1 & H2 & H3 & H4 & H5)
  end.
  - simpl. split; [done|]. repeat (split; [set_solver|]). intros i j c d Hc. done.
  - intros pre node [V cs] [post Hpre] (H1 & H2 & H3 & H4 & H5). cbn [fst snd] in *.
    assert (node ∈ allNodes g) as Hnode. { apply elem_of_visit. rewrite Hpre. set_solver. }
    case_decide as HnV; [exists (V, cs); simpl; set_solver|].
    destruct (component_spec h g node V) as (V' & C & -> & -> & HC & HCg & HCV); try done.
    { intros x y. rewrite H1, !elem_of_union_list. intros (c & Hc & Hx) Hxy.
      exists c. split; [done|]. destruct (H4 c Hc) as (n & _ & Hcn).
      apply Hcn. apply Hcn in Hx. by eapply rtc_r. }
    eexists. split; [done|]. simpl. split; [|split; [|split; [|split]]].
    + rewrite union_list_app_L, H1. simpl. set_solver.
    + assert (node ∈ C) by by apply HC. set_solver.
    + set_solver.
    + intros c [Hc|Hc]%elem_of_app; [eauto|]. apply list_elem_of_singleton in Hc as ->. eauto.
    + intros a b c d Hc Hd Hab.
      assert (∀ k x, cs !! k = Some x → x ⊆ V) as Hsub.
      { intros k x Hk%list_elem_of_lookup_2. rewrite H1. intros y Hy. apply elem_of_union_list. eauto. }
      apply lookup_app_Some in Hc as [Hc|[Hla [Hc1 Hc2]%list_lookup_singleton_Some]];
        apply lookup_app_Some in Hd as [Hd|[Hlb [Hd1 Hd2]%list_lookup_singleton_Some]]; subst.
      * by apply (H5 a b).
      * pose proof (Hsub a c Hc). set_solver.
      * pose proof (Hsub b d Hd). set_solver.
      * lia.
  - exists cs. simpl in *. split; [done|]. split; [|done]. rewrite <- H1.
    rewrite list_to_set_visit in H2. set_solver.
Qed.

(** ** Top-level nodes and leaves *)

Lemma allM_run {S A} (f : A → M S bool) (p : A → bool) l s Q :
  (∀ x, x ∈ l → f x s = Ok (s, p x)) → Q (forallb p l) s → wp (allM f l) Q s.
Proof.
  intros Hf HQ. unfold allM. apply wp_bind, (wp_mapM _ p); [done|]. apply wp_ret.
  assert (forallb id (p <$> l) = forallb p l) as ->; [|done].
  clear. induction l as [|x l IH]; [done|]. cbn. unfold id at 1. f_equal. exact IH.
Qed.

(** what a node looks like to the two queries *)
Definition is_top_level h g (onlyInternal : bool) (n : Ptr) : Prop :=
  (onlyInternal = true → ∀ t, node_of g t n → isExternal g t = false) ∧
  ∀ e y s, e ∈ allEdges g → hedges h !! e = Some y → to y = n → node_of g s (from y) →
    from y = n ∨ (onlyInternal = true ∧ isExternal g s = true).

Definition is_leaf h g (n : Ptr) : Prop :=
  ∀ e y, e ∈ allEdges g → hedges h !! e = Some y → from y = n → to y = n.

Lemma node_of_inv h g t n x :
  wf h g → node_of g t n → hnodes h !! n = Some x → theT x = t.
Proof. intros W Hn Hx. destruct (wf_map _ _ W _ _ Hn) as (_ & x' & ? & ?). congruence. Qed.

Lemma isTopLevelNode_run h g b n :
  wf h g → n ∈ allNodes g → ∃ r, isTopLevelNode g b n h = Ok (h, r) ∧
    (r = true ↔ is_top_level h g b n).
Proof.
  intros W Hn. destruct (wf_node _ _ W n Hn) as (x & Hx & HT).
  assert (∀ t, node_of g t n → t = theT x) as HT'.
  { intros t Ht. symmetry. by eapply node_of_inv. }
  assert (∀ e, e ∈ incomingEdges x ↔ e ∈ allEdges g ∧ ∃ y, hedges h !! e = Some y ∧ to y = n) as Ix.
  { intros e. by apply wf_in. }
  enough (wp (isTopLevelNode g b n) (λ r h', h' = h ∧ (r = true ↔ is_top_level h g b n)) h) as H.
  { apply wp_ok in H as (h' & r & -> & -> & H). eauto. }
  unfold isTopLevelNode. dg_steps. exists x. split; [done|]. unfold getT.
  destruct (b && isExternal g (theT x)) eqn:Hb.
  { apply wp_ret. split; [done|]. apply andb_true_iff in Hb as [-> Hb]. split; [done|].
    intros [H _]. specialize (H eq_refl _ HT). congruence. }
  apply (allM_run _ (λ e, match hedges h !! e with
    | Some y => bool_decide (from y = n) || (b && match hnodes h !! from y with
                                                  | Some s => isExternal g (theT s)
                                                  | None => false end)
    | None => false end)).
  { intros e He. apply elem_of_visit, Ix in He as (He & y & Hy & Hto).
    destruct (wf_edge _ _ W e He) as (y' & Hy' & Hf & _). simplify_eq.
    destruct (wf_node _ _ W _ Hf) as (s & Hs & _).
    unfold bind, load_edge, deref, ret, getSrc, load_node. rewrite Hy.
    unfold getSrcNode. destruct b; simpl; [|done]. unfold bind, deref, ret. by rewrite Hs. }
  split; [done|]. rewrite forallb_forall. split.
  - intros H. split.
    { intros -> t ->%HT'. simpl in Hb. done. }
    intros e y s He Hy Hto Hs. specialize (H e).
    rewrite <- list_elem_of_In, elem_of_visit, Ix, Hy in H.
    apply orb_true_iff in H; [|eauto]. destruct H as [H|H].
    + left. by apply bool_decide_eq_true in H.
    + right. apply andb_true_iff in H as [-> H]. split; [done|].
      destruct (hnodes h !! from y) as [z|] eqn:Hz; [|done].
      by rewrite <- (node_of_inv _ _ _ _ _ W Hs Hz).
  - intros [_ H] e. rewrite <- list_elem_of_In, elem_of_visit, Ix. intros (He & y & Hy & Hto).
    rewrite Hy. destruct (wf_edge _ _ W e He) as (y' & Hy' & Hf & _). simplify_eq.
    destruct (wf_node _ _ W _ Hf) as (s & Hs & HTs). rewrite Hs.
    apply orb_true_iff. destruct (H e y (theT s)) as [->|[-> ->]]; try done.
    + left. by apply bool_decide_eq_true.
    + by right.
Qed.

Lemma isLeafNode_run h g n :
  wf h g → n ∈ allNodes g → ∃ r, isLeafNode n h = Ok (h, r) ∧ (r = true ↔ is_leaf h g n).
Proof.
  intros W Hn. destruct (wf_node _ _ W n Hn) as (x & Hx & HT).
  assert (∀ e, e ∈ outgoingEdges x ↔ e ∈ allEdges g ∧ ∃ y, hedges h !! e = Some y ∧ from y = n) as Ox.
  { intros e. by apply wf_out. }
  enough (wp (isLeafNode n) (λ r h', h' = h ∧ (r = true ↔ is_leaf h g n)) h) as H.
  { apply wp_ok in H as (h' & r & -> & -> & H). eauto. }
  unfold isLeafNode. dg_steps. exists x. split; [done|].
  apply (allM_run _ (λ e, match hedges h !! e with
    | Some y => bool_decide (to y = n) | None => false end)).
  { intros e He. apply elem_of_visit, Ox in He as (He & y & Hy & _).
    unfold bind, load_edge, deref, ret. by rewrite Hy. }
  split; [done|]. rewrite forallb_forall. unfold is_leaf. split.
  - intros H e y He Hy Hf. specialize (H e).
    rewrite <- list_elem_of_In, elem_of_visit, Ox, Hy in H.
    by apply bool_decide_eq_true in H; [|eauto].
  - intros H e. rewrite <- list_elem_of_In, elem_of_visit, Ox. intros (He & y & Hy & Hf).
    rewrite Hy. apply bool_decide_eq_true. eauto.
Qed.

Lemma filterM_nodes h (f : Ptr → M Heap bool) (P : Ptr → Prop) l Q :
  (∀ n, n ∈ l → ∃ r, f n h = Ok (h, r) ∧ (r = true ↔ P n)) →
  (∀ r, (∀ n, n ∈ r ↔ n ∈ l ∧ P n) → Q r h) → wp (filterM f l) Q h.
Proof.
  revert Q. induction l as [|n l IH]; intros Q Hf HQ; simpl.
  - apply HQ. set_solver.
  - destruct (Hf n) as (b & Hb & HP); [set_solver|].
    apply wp_bind. unfold wp at 1. rewrite Hb. apply wp_bind, IH; [set_solver|].
    intros r Hr. apply wp_ret, HQ. intros m. destruct b.
    + set_solver.
    + assert (¬ P n) by (intros ?%HP; done). set_solver.
Qed.

Lemma getTopLevelNodes_run h g b : wf h g →
  ∃ s, getTopLevelNodes b (h, g) = Ok ((h, g), s) ∧
     ∀ n, n ∈ s ↔ n ∈ allNodes g ∧ is_top_level h g b n.
Proof.
  intros W.
  enough (wp (getTopLevelNodes b) (λ s st, st = (h, g) ∧
    ∀ n, n ∈ s ↔ n ∈ allNodes g ∧ is_top_level h g b n) (h, g)) as H.
  { apply wp_ok in H as (st & s & -> & -> & H). eauto. }
  unfold getTopLevelNodes. dg_steps. apply (filterM_nodes _ _ (is_top_level h g b)).
  - intros n Hn%elem_of_visit. by apply isTopLevelNode_run.
  - intros r Hr. dg_steps. split; [done|]. intros n.
    by rewrite elem_of_list_to_set, Hr, elem_of_visit.
Qed.

(** getTopLevelNodes and getLeafNodes return exactly the boundary of the graph: a
    node is top level when every edge that enters it comes from itself (or, when only
    internal nodes count, from an external value), and a leaf when every edge that
    leaves it goes back to it. Neither call changes the graph or fails. *)
Theorem boundary_nodes_spec h g b :
  wf h g →
  (∃ s, getTopLevelNodes b (h, g) = Ok ((h, g), s) ∧
     ∀ n, n ∈ s ↔ n ∈ allNodes g ∧ is_top_level h g b n) ∧
  (∃ s, getLeafNodes b (h, g) = Ok ((h, g), s) ∧
     ∀ n, n ∈ s ↔ n ∈ allNodes g ∧ is_leaf h g n ∧
            (b = true → ∃ t, internalNodeMap g !! t = Some (Some n))).
Proof.
  intros W. split.
  - by apply getTopLevelNodes_run.
  - enough (wp (getLeafNodes b) (λ s st, st = (h, g) ∧
      ∀ n, n ∈ s ↔ n ∈ allNodes g ∧ is_leaf h g n ∧
            (b = true → ∃ t, internalNodeMap g !! t = Some (Some n))) (h, g)) as H.
    { apply wp_ok in H as (st & s & -> & -> & H). eauto. }
    unfold getLeafNodes. dg_steps.
    set (P n := n ∈ allNodes g ∧ (b = true → ∃ t, internalNodeMap g !! t = Some (Some n))).
    apply (wp_mono _ (λ l st, st = (h, g) ∧ ∀ n, n ∈ l ↔ P n)).
    { destruct b.
      - apply (wp_mapM _ (λ p, default 1%positive p.2)).
        + intros [t [n|]] Hp; [done|]. exfalso.
          unfold internalNodePairs, nodePairs in Hp. apply list_elem_of_omap in Hp as (t' & _ & Ht).
          apply fmap_Some in Ht as (p & Hp & ?). simplify_eq.
          by destruct (wf_internal _ _ W _ _ Hp) as [[? ?] _].
        + split; [done|]. intros n. rewrite list_elem_of_fmap. unfold P. split.
          * intros ([t p] & -> & Hp).
            apply list_elem_of_omap in Hp as (t' & _ & Ht).
            apply fmap_Some in Ht as (p' & Hp & ?). simplify_eq.
            destruct (wf_internal _ _ W _ _ Hp) as [[m ->] _]. simpl.
            split; [|eauto]. by apply (wf_map _ _ W _ m (or_introl Hp)).
          * intros [Hn Hi]. destruct (Hi eq_refl) as [t Ht].
            exists (t, Some n). split; [done|]. apply list_elem_of_omap. exists t.
            rewrite elem_of_visit, elem_of_dom, Ht. eauto.
      - apply wp_ret. split; [done|]. intros n. rewrite elem_of_visit. unfold P. naive_solver. }
    intros l st [-> Hl]. dg_steps. apply (filterM_nodes _ _ (is_leaf h g)).
    + intros n [Hn _]%Hl. by apply isLeafNode_run.
    + intros r Hr. dg_steps. split; [done|]. intros n.
      rewrite elem_of_list_to_set, Hr, Hl. unfold P. tauto.
Qed.

(** ** Sorting *)

Lemma StronglySorted_lookup_lt {A} (R : relation A) l i j x y :
  StronglySorted R l → i < j → l !! i = Some x → l !! j = Some y → R x y.
Proof.
  intros Hl. revert i j. induction Hl as [|z l Hl IH Hz]; intros i j Hij Hi Hj; [done|].
  destruct j as [|j]; [lia|]. destruct i as [|i]; simpl in *; [|apply (IH i j); auto; lia].
  simplify_eq. rewrite Forall_forall in Hz. apply Hz. by eapply list_elem_of_lookup_2.
Qed.

Lemma depLe_spec p q :
  depLe p q ↔ (p.1.1 < q.1.1 ∨ p.1.1 = q.1.1 ∧ p.1.2 ≤ q.1.2)%positive.
Proof.
  destruct p as [[a b] x], q as [[c d] y]. unfold depLe, depLess. simpl.
  destruct (Pos.ltb_spec c a), (Pos.ltb_spec a c), (Pos.ltb_spec d b), (Pos.ltb_spec b d);
    split; try done; lia.
Qed.
#[local] Instance depLe_total : Total depLe.
Proof. intros p q. rewrite !depLe_spec. lia. Qed.
#[local] Instance depLe_transitive : Transitive depLe.
Proof. intros p q r. rewrite !depLe_spec. lia. Qed.

(** the values an edge connects, by address *)
Definition edge_key h (e : Ptr) : option (Ptr * Ptr) :=
  y ← hedges h !! e; s ← hnodes h !! from y; d ← hnodes h !! to y; Some (theT s, theT d).

(** sortDependences returns every edge of the set once, in the order of the source
    addresses and, for one source, of the destination addresses. *)
Theorem sortDependences_sorted h g s :
  wf h g → s ⊆ allEdges g →
  ∃ l, sortDependences s h = Ok (h, l) ∧ l ≡ₚ elements s ∧
    ∀ i j e e' a b a' b', i < j → l !! i = Some e → l !! j = Some e' →
      edge_key h e = Some (a, b) → edge_key h e' = Some (a', b') →
      (a < a' ∨ a = a' ∧ b ≤ b')%positive.
Proof.
  intros W Hs.
  set (key e := default (1%positive, 1%positive) (edge_key h e)).
  set (v := (λ e, (key e, e)) <$> visit s).
  assert (sortDependences s h = Ok (h, snd <$> merge_sort depLe v)) as ->.
  { enough (wp (sortDependences s) (λ l h', h' = h ∧ l = snd <$> merge_sort depLe v) h) as H.
    { apply wp_ok in H as (h' & l & -> & -> & ->). done. }
    unfold sortDependences. apply wp_bind, (wp_mapM _ (λ e, (key e, e))); [|done].
    intros e He%elem_of_visit. destruct (wf_edge _ _ W e) as (y & Hy & Hf & Ht); [set_solver|].
    destruct (wf_node _ _ W _ Hf) as (a & Ha & _).
    destruct (wf_node _ _ W _ Ht) as (b & Hb & _).
    unfold bind, load_edge, deref, ret, getSrc, getDst, load_node, key, edge_key.
    rewrite Hy. unfold bind, deref, ret. simpl. rewrite Ha, Hb. simpl. done. }
  eexists. split; [done|]. split.
  - rewrite merge_sort_Permutation. unfold v. rewrite <- list_fmap_compose.
    rewrite (list_fmap_ext _ id), list_fmap_id by done. apply visit_perm.
  - intros i j e e' a b a' b' Hij Hi Hj Hk Hk'.
    apply list_lookup_fmap_Some in Hi as ([p e0] & ? & Hi).
    apply list_lookup_fmap_Some in Hj as ([p' e0'] & ? & Hj). simpl in *; subst e e'.
    assert (∀ k q x, merge_sort depLe v !! k = Some (q, x) → q = key x) as Hv.
    { intros k q x Hq%list_elem_of_lookup_2. rewrite merge_sort_Permutation in Hq.
      apply list_elem_of_fmap in Hq as (x' & ? & _). by simplify_eq. }
    pose proof (Hv _ _ _ Hi) as ->. pose proof (Hv _ _ _ Hj) as ->.
    pose proof (StronglySorted_lookup_lt _ _ _ _ _ _ (StronglySorted_merge_sort depLe v) Hij Hi Hj)
      as Hle.
    apply depLe_spec in Hle. unfold key in Hle. rewrite Hk, Hk' in Hle. exact Hle.
Qed.
End query.
