(* ===== verification/DGCopy.v ===== *)
(** * Copying edges from one dependence graph to another

    Sub-graphs of a PDG and the SCCs of an SCCDAG are built by creating nodes for some
    values and copying edges with [copyAddEdge]. This file holds what those constructions
    share: the correspondence between the edges of the source and their copies. *)
From S2P Require Import Prelude DGEdge DGNode DGBase DGInvariant DGSpec.

(** an edge that [copyAddEdge] can copy: an object of one of the four concrete classes it
    knows, whose sub-edges are live *)
Definition copyable (h : Heap) (e : Ptr) : Prop :=
  ∃ x, hedges h !! e = Some x ∧ edge_class_ok x ∧ kind x ≠ UNDEFINED_DEPENDENCE ∧
    ∀ p, p ∈ getSubEdges x → is_Some (hedges h !! p).

(** the loop-carried flag of a copy: that of the edge or of one of its sub-edges *)
Definition carried (h : Heap) (e : Ptr) : Prop :=
  ∃ x, hedges h !! e = Some x ∧ (isLoopCarried x = true ∨
    ∃ p y, p ∈ getSubEdges x ∧ hedges h !! p = Some y ∧ isLoopCarried y = true).

Definition internal_value (g : DG) (t : Ptr) : Prop :=
  ∃ n, internalNodeMap g !! t = Some (Some n).
Definition external_value (g : DG) (t : Ptr) : Prop :=
  ∃ n, externalNodeMap g !! t = Some (Some n).

(** [s] holds a graph whose edges are copies of edges of the graph [g0] of the heap [h0];
    [m] maps every edge that was copied to its copy *)
Record copying (h0 : Heap) (g0 : DG) (m : gmap Ptr Ptr) (s : GSt) : Prop := {
  cp_wf : wf s.1 s.2;
  cp_phantom t : externalNodeMap s.2 !! t ≠ Some None;
  cp_nodes n : is_Some (hnodes h0 !! n) →
    hnodes s.1 !! n = hnodes h0 !! n ∧ n ∉ allNodes s.2;
  cp_edges p x : hedges h0 !! p = Some x → hedges s.1 !! p = Some x;
  cp_image e' : e' ∈ allEdges s.2 ↔ ∃ e, m !! e = Some e';
  cp_inj e1 e2 e' : m !! e1 = Some e' → m !! e2 = Some e' → e1 = e2;
  cp_view e e' : m !! e = Some e' → e ∈ allEdges g0 ∧
    edge_view s.1 s.2 e' = edge_view h0 g0 e ∧
    (∃ y, hedges s.1 !! e' = Some y ∧ (isLoopCarried y = true ↔ carried h0 e))
}.

Section copying.
Context {IO : IterOrder}.

(** a graph without edges, next to the source *)
Lemma copying_start h0 g0 h g :
  wf h g → (∀ t, externalNodeMap g !! t ≠ Some None) → allEdges g = ∅ →
  (∀ n, is_Some (hnodes h0 !! n) → hnodes h !! n = hnodes h0 !! n ∧ n ∉ allNodes g) →
  (∀ p x, hedges h0 !! p = Some x → hedges h !! p = Some x) →
  copying h0 g0 ∅ (h, g).
Proof.
  intros W Hp He Hn Hh. split; simpl; try done.
  - intros e'. rewrite He. split; [set_solver|]. intros [e Hm]. by rewrite lookup_empty in Hm.
Qed.

Lemma internal_value_isInternal h g t :
  wf h g → isInternal g t = true ↔ internal_value g t.
Proof.
  intros W. unfold isInternal, internal_value. rewrite bool_decide_eq_true.
  split; [|intros [n ->]; eauto]. intros [p Hp].
  destruct (wf_internal _ _ W _ _ Hp) as [[n ->] _]. eauto.
Qed.

Lemma external_value_isExternal g t :
  (∀ t, externalNodeMap g !! t ≠ Some None) → isExternal g t = true ↔ external_value g t.
Proof.
  intros Hph. unfold isExternal, external_value. rewrite bool_decide_eq_true.
  split; [|intros [n ->]; eauto]. intros [[n|] Hp]; [eauto|]. by destruct (Hph t).
Qed.

Lemma node_of_values g t : (∃ n, node_of g t n) ↔ internal_value g t ∨ external_value g t.
Proof. unfold node_of, internal_value, external_value. naive_solver. Qed.

(** Adding a node keeps the correspondence. *)
Lemma added_node_copying h0 g0 m h g t b :
  copying h0 g0 m (h, g) → heap_ok h0 → (nextAddr h0 ≤ nextAddr h)%positive →
  (∀ n, ¬ node_of g t n) →
  copying h0 g0 m (added_node h g t b).
Proof.
  intros C Hok Hnext Hno. pose proof (cp_wf _ _ _ _ C) as W. simpl in W.
  destruct (added_node_wf h g t b W Hno) as [W' _].
  assert (∀ n, is_Some (hnodes h0 !! n) → n ≠ nextAddr h) as Hne.
  { intros n Hn. pose proof (proj1 Hok n Hn). lia. }
  split; [done|..].
  - intros t'. pose proof (cp_phantom _ _ _ _ C t'). simpl in *.
    destruct b; [done|]. by destruct (decide (t' = t)) as [->|]; simplify_map_eq.
  - intros n Hn. destruct (cp_nodes _ _ _ _ C n Hn). simpl in *.
    rewrite lookup_insert_ne by (symmetry; by apply Hne). pose proof (Hne n Hn). set_solver.
  - apply (cp_edges _ _ _ _ C).
  - apply (cp_image _ _ _ _ C).
  - apply (cp_inj _ _ _ _ C).
  - intros e e' Hm. destruct (cp_view _ _ _ _ C e e' Hm) as (He & Hv & Hl).
    split; [done|]. split; [|done]. rewrite <- Hv. simpl.
    assert (e' ∈ allEdges g) as He' by (apply (cp_image _ _ _ _ C); eauto).
    destruct (wf_edge _ _ W e' He') as (y & Hy & Hf & Ht).
    apply edge_view_same; try done. intros y' _ Hy'. simplify_eq. simpl.
    pose proof (wf_fresh_node _ _ W). rewrite !lookup_insert_ne by congruence. done.
Qed.

(** Copying one more edge, between two values of the new graph *)
Lemma copyAddEdge_copying h0 g0 m h g e v :
  copying h0 g0 m (h, g) → wf h0 g0 → e ∈ allEdges g0 → m !! e = None → copyable h0 e →
  edge_view h0 g0 e = Some v → (∃ n, node_of g (a_src v) n) → (∃ n, node_of g (a_dst v) n) →
  wp (copyAddEdge e) (λ e' s', copying h0 g0 (<[e := e']> m) s' ∧
    internalNodeMap s'.2 = internalNodeMap g ∧ externalNodeMap s'.2 = externalNodeMap g ∧
    nodeIdCounter s'.2 = nodeIdCounter g ∧ entryNode s'.2 = entryNode g ∧
    allNodes s'.2 = allNodes g ∧ nextAddr s'.1 = Pos.succ (nextAddr h)) (h, g).
Proof.
  intros C W0 He Hm (x & Hx & Hcls & Hku & Hsub) Hv [f Hf] [t Ht].
  pose proof (cp_wf _ _ _ _ C) as W. simpl in W.
  destruct (edge_view_live _ _ _ _ W0 He Hx) as (s & d & Hs & Hd & Ns & Nd & Hv').
  rewrite Hv in Hv'. simplify_eq/=.
  pose proof (cp_edges _ _ _ _ C) as Hkeep. simpl in Hkeep.
  destruct (wf_edge _ _ W0 e He) as (x' & Hx' & Hxf & Hxt). simplify_eq.
  destruct (cp_nodes _ _ _ _ C (from x)) as [Ef Ef']; [eauto|].
  destruct (cp_nodes _ _ _ _ C (to x)) as [Et Et']; [eauto|].
  simpl in *.
  destruct (wf_map _ _ W _ _ Hf) as (Hfn & xf & Hxf' & ETf).
  destruct (wf_map _ _ W _ _ Ht) as (Htn & xt & Hxt' & ETt).
  eapply wp_mono.
  { eapply (copyAddEdge_spec h g e x s d f t W); eauto; [|by rewrite Ef|by rewrite Et].
    intros p [y Hp]%Hsub. eauto. }
  intros e' s' (-> & c & -> & Ec1 & Ec2 & Ec3 & Ec4 & Ec5 & Ec6).
  pose proof (wf_fresh_edge _ _ W) as Hfe.
  assert (heap_ok h0) as Hok by apply W0. assert (heap_ok h) as Hokh by apply W.
  assert (∀ n, theT <$> hnodes (added_edge h g c).1 !! n = theT <$> hnodes h !! n) as ET.
  { intros n. rewrite added_edge_nodes. by destruct (hnodes h !! n). }
  repeat (split; [|done]). split.
  - apply added_edge_wf; congruence.
  - apply (cp_phantom _ _ _ _ C).
  - intros n Hn. destruct (cp_nodes _ _ _ _ C n Hn) as [En Hn']. simpl in En, Hn'.
    split; [|done]. rewrite added_edge_nodes, En.
    destruct (hnodes h0 !! n) as [[]|]; [|done]. simpl. by rewrite !decide_False by congruence.
  - intros p y Hp%Hkeep. simpl. rewrite lookup_insert_ne; [done|].
    intros <-. by rewrite heap_ok_fresh_edge in Hp.
  - intros e'. simpl. rewrite elem_of_union, elem_of_singleton, (cp_image _ _ _ _ C e').
    split.
    + intros [->|[e1 He1]]; [exists e; by rewrite lookup_insert_eq|].
      exists e1. rewrite lookup_insert_ne by congruence. done.
    + intros [e1 He1]. destruct (decide (e1 = e)) as [->|]; simplify_map_eq; eauto.
  - assert (∀ e1, m !! e1 ≠ Some (nextAddr h)) as Hfresh.
    { intros e1 He1. apply Hfe, (cp_image _ _ _ _ C). eauto. }
    intros e1 e2 e' H1 H2.
    destruct (decide (e1 = e)) as [->|], (decide (e2 = e)) as [->|]; simplify_map_eq; try done.
    + by destruct (Hfresh e2).
    + by destruct (Hfresh e1).
    + by eapply (cp_inj _ _ _ _ C).
  - intros e1 e' H1. destruct (decide (e1 = e)) as [->|Hne].
    + rewrite lookup_insert_eq in H1. simplify_eq. split; [done|]. split.
      * rewrite Hv. rewrite (edge_view_run _ _ _ c (theT s) (theT d)); try congruence.
        -- simpl. set_solver.
        -- simpl. by rewrite lookup_insert_eq.
        -- rewrite ET, Hxf'. simpl. congruence.
        -- rewrite ET, Hxt'. simpl. congruence.
      * exists c. simpl. rewrite lookup_insert_eq. split; [done|]. rewrite Ec6.
        unfold carried. split.
        -- intros H. exists x. split; [done|]. destruct H as [?|(p & y & Hp & Hy & ?)]; [by left|].
           right. exists p, y. destruct (Hsub p Hp) as [y' Hy'].
           pose proof (Hkeep _ _ Hy'). by simplify_eq.
        -- intros (x'' & ? & H). simplify_eq. destruct H as [?|(p & y & Hp & Hy & ?)]; [by left|].
           right. exists p, y. eauto.
    + rewrite lookup_insert_ne in H1 by done.
      destruct (cp_view _ _ _ _ C e1 e' H1) as (He1 & Hv1 & Hl1).
      assert (e' ∈ allEdges g) as He' by (apply (cp_image _ _ _ _ C); eauto).
      assert (nextAddr h ≠ e') by congruence.
      split; [done|]. split.
      * rewrite <- Hv1. apply edge_view_same; simpl; [set_solver|by rewrite lookup_insert_ne|].
        intros y Hy1 Hy2. split; apply ET.
      * simpl. by rewrite lookup_insert_ne.
Qed.
End copying.
