(* ===== verification/Samples.v ===== *)
(** * Sample graphs

    A decision procedure for well-formedness, and the small dependence graphs on which the
    witnesses instantiate the theorems. *)
From S2P Require Import Prelude DGEdge DGNode DGBase DGInvariant DGSpec DGCopy.

(** [P] holds of the content; of the content if there is one *)
Definition holds {A} (P : A → Prop) (o : option A) : Prop :=
  match o with Some a => P a | None => False end.
Definition holds_if {A} (P : A → Prop) (o : option A) : Prop :=
  match o with Some a => P a | None => True end.
#[export] Instance holds_dec {A} (P : A → Prop) `{∀ a, Decision (P a)} o : Decision (holds P o).
Proof. destruct o; simpl; apply _. Defined.
#[export] Instance holds_if_dec {A} (P : A → Prop) `{∀ a, Decision (P a)} o : Decision (holds_if P o).
Proof. destruct o; simpl; apply _. Defined.

Lemma holds_spec {A} (P : A → Prop) o : holds P o ↔ ∃ a, o = Some a ∧ P a.
Proof. destruct o; simpl; naive_solver. Qed.

(** every clause of [wf], as a property of finite maps and sets *)
Record wf_finite (h : Heap) (g : DG) : Prop := {
  f_heap : map_Forall (λ p _, (p < nextAddr h)%positive) (hnodes h) ∧
           map_Forall (λ p _, (p < nextAddr h)%positive) (hedges h);
  f_node : set_Forall (λ n, holds (λ x, internalNodeMap g !! theT x = Some (Some n) ∨
             externalNodeMap g !! theT x = Some (Some n)) (hnodes h !! n)) (allNodes g);
  f_internal_map : map_Forall (λ t p, holds_if (λ n, n ∈ allNodes g ∧
                     holds (λ x, theT x = t) (hnodes h !! n)) p) (internalNodeMap g);
  f_external_map : map_Forall (λ t p, holds_if (λ n, n ∈ allNodes g ∧
                     holds (λ x, theT x = t) (hnodes h !! n)) p) (externalNodeMap g);
  f_internal : map_Forall (λ t p, is_Some p ∧
                 holds_if (λ q, q = None) (externalNodeMap g !! t)) (internalNodeMap g);
  f_edge : set_Forall (λ e, holds (λ y, from y ∈ allNodes g ∧ to y ∈ allNodes g)
                                  (hedges h !! e)) (allEdges g);
  f_adjacent : set_Forall (λ n, holds (λ x,
      outgoingEdges x = filter (λ e, holds (λ y, from y = n) (hedges h !! e)) (allEdges g) ∧
      incomingEdges x = filter (λ e, holds (λ y, to y = n) (hedges h !! e)) (allEdges g))
      (hnodes h !! n)) (allNodes g)
}.

#[export] Instance wf_finite_dec h g : Decision (wf_finite h g).
Proof.
  refine (cast_if (decide (
    (map_Forall (λ p _, (p < nextAddr h)%positive) (hnodes h) ∧
     map_Forall (λ p _, (p < nextAddr h)%positive) (hedges h)) ∧
    set_Forall (λ n, holds (λ x, internalNodeMap g !! theT x = Some (Some n) ∨
      externalNodeMap g !! theT x = Some (Some n)) (hnodes h !! n)) (allNodes g) ∧
    map_Forall (λ t p, holds_if (λ n, n ∈ allNodes g ∧
      holds (λ x, theT x = t) (hnodes h !! n)) p) (internalNodeMap g) ∧
    map_Forall (λ t p, holds_if (λ n, n ∈ allNodes g ∧
      holds (λ x, theT x = t) (hnodes h !! n)) p) (externalNodeMap g) ∧
    map_Forall (λ t p, is_Some p ∧
      holds_if (λ q, q = None) (externalNodeMap g !! t)) (internalNodeMap g) ∧
    set_Forall (λ e, holds (λ y, from y ∈ allNodes g ∧ to y ∈ allNodes g)
      (hedges h !! e)) (allEdges g) ∧
    set_Forall (λ n, holds (λ x,
      outgoingEdges x = filter (λ e, holds (λ y, from y = n) (hedges h !! e)) (allEdges g) ∧
      incomingEdges x = filter (λ e, holds (λ y, to y = n) (hedges h !! e)) (allEdges g))
      (hnodes h !! n)) (allNodes g)))).
  - abstract (destruct_and!; by split).
  - abstract (intros []; tauto).
Defined.

Lemma wf_finite_sound h g : wf_finite h g → wf h g.
Proof.
  intros [[F1 F1'] F2 F3 F4 F5 F6 F7]. split.
  - split; intros p [x Hx]; [by eapply F1|by eapply F1'].
  - intros n Hn. by apply F2, holds_spec in Hn.
  - intros t n [Hn|Hn]; [apply F3 in Hn as [? H]|apply F4 in Hn as [? H]];
      (split; [done|]); by apply holds_spec in H.
  - intros t p Hp. apply F5 in Hp as [? H]. split; [done|].
    intros n Hn. rewrite Hn in H. done.
  - intros e He. by apply F6, holds_spec in He.
  - intros n x e Hn Hx. apply F7 in Hn. rewrite Hx in Hn. destruct Hn as [-> _].
    rewrite elem_of_filter, holds_spec. tauto.
  - intros n x e Hn Hx. apply F7 in Hn. rewrite Hx in Hn. destruct Hn as [_ ->].
    rewrite elem_of_filter, holds_spec. tauto.
Qed.

Lemma wf_check h g : bool_decide (wf_finite h g) = true → wf h g.
Proof. intros ?%bool_decide_eq_true. by apply wf_finite_sound. Qed.

(** ** A graph with a cycle, an external value and every kind of dependence but undefined *)

(** Four values inside, 11 to 14, and one outside, 20: the dependences 11-12, 12-13, 13-11,
    13-14, 12-20 and 14-14. *)
Definition sample_calls : list dg_call :=
  [ CallAddNode 11 true; CallAddNode 12 true; CallAddNode 13 true; CallAddNode 14 true;
    CallAddNode 20 false;
    CallAddVariable 11 12 DG_DATA_RAW; CallAddMemory 12 13 DG_DATA_RAW false;
    CallAddMemory 13 11 DG_DATA_WAR true; CallAddControl 13 14;
    CallAddVariable 12 20 DG_DATA_RAW; CallAddControl 14 14 ].

Definition sample_run : Res (GSt * unit) :=
  @forM GSt dg_call (@exec visit_elements) sample_calls (empty_heap, DG_new).

Definition sample : GSt :=
  match sample_run with Ok (s, _) => s | Fail _ => (empty_heap, DG_new) end.

Lemma sample_run_ok : sample_run = Ok (sample, tt).
Proof. vm_compute. reflexivity. Qed.

Definition sample_heap : Heap := sample.1.
Definition sample_graph : DG := sample.2.

Lemma sample_wf : wf sample_heap sample_graph.
Proof. apply wf_check. vm_compute. reflexivity. Qed.

(** every edge of the sample can be copied *)
Definition copyable_all (h : Heap) (g : DG) : Prop :=
  set_Forall (λ e, holds (λ y, kind y ≠ UNDEFINED_DEPENDENCE ∧ subEdges y = None ∧
    match kind y with
    | CONTROL_DEPENDENCE => dataDepType y = None
    | VARIABLE_DEPENDENCE | MAY_MEMORY_DEPENDENCE | MUST_MEMORY_DEPENDENCE => is_Some (dataDepType y)
    | _ => False
    end) (hedges h !! e)) (allEdges g).

#[export] Instance copyable_all_dec h g : Decision (copyable_all h g).
Proof.
  apply set_Forall_dec. intros e. apply holds_dec. intros y.
  apply and_dec; [apply _|]. apply and_dec; [apply _|]. destruct (kind y); apply _.
Defined.

Lemma copyable_check h g e :
  bool_decide (copyable_all h g) = true → e ∈ allEdges g → copyable h e.
Proof.
  intros H%bool_decide_eq_true He. apply H, holds_spec in He as (y & Hy & Hk & Hs & Hd).
  exists y. split; [done|]. unfold edge_class_ok, getSubEdges. rewrite Hs. simpl.
  split; [by destruct (kind y)|]. split; [done|]. set_solver.
Qed.

(** ** The abstract graph of a concrete one *)

Definition graph_view (h : Heap) (g : DG) : AGraph :=
  mkAGraph (dom (internalNodeMap g)) (dom (externalNodeMap g))
           (map_imap (λ e _, edge_view h g e) (hedges h)) (nodeIdCounter g).

Lemma graph_view_rep h g :
  bool_decide (wf_finite h g) = true →
  bool_decide (map_Forall (λ _ p, is_Some p) (externalNodeMap g)) = true →
  rep h g (graph_view h g).
Proof.
  intros W%wf_check He%bool_decide_eq_true. split; [done|intros t; simpl..|done].
  - rewrite elem_of_dom. split; [|naive_solver]. intros [p Hp].
    destruct (wf_internal _ _ W _ _ Hp) as [[n ->] _]. eauto.
  - rewrite elem_of_dom. split; [|naive_solver]. intros [p Hp].
    destruct (He _ _ Hp) as [n ->]. eauto.
  - intros Ht. by destruct (He _ _ Ht).
  - rewrite map_lookup_imap. unfold edge_view. case_decide; [|by destruct (hedges h !! t)].
    by destruct (hedges h !! t).
Qed.
