(* ===== verification/PDG.v ===== *)
(** * The program dependence graph (src/core/pdg: PDG.cpp)

    The constructors of [PDG], the construction of sub-graphs and the iteration over the
    dependences of one value. [Utils::sort] (src/core/basic_utilities) is here too. *)
From S2P Require Import Prelude DGEdge DGNode DGBase.

(** ** The code being analysed

    What the constructors read of an llvm module: the arguments of each function and the
    instructions of its blocks, in order. A declaration has no blocks. *)
Record Function := mkFunction {
  fn_args : list Ptr;
  fn_blocks : list (list Ptr)
}.
Definition isDeclaration (F : Function) : bool := bool_decide (fn_blocks F = []).

Record Module := mkModule {
  functions : list Function;
  mainFunction : option Function
}.

(** ** Utilities *)

(** [Utils::sort]: the elements of a set of pointers by address *)
Definition Utils_sort (s : gset Ptr) : list Ptr := merge_sort Pos.le (elements s).

(** [isa<ControlDependence>(edge)] and the other tests of the iterators *)
Definition dependence_selected (includeControl includeMemory includeRegister : bool)
    (x : DGEdge) : bool :=
  if includeControl && ControlDependence_classof x then true
  else if includeMemory && MemoryDependence_classof x then true
  else if includeRegister && VariableDependence_classof x then true
  else false.

Section pdg.
Context {IO : IterOrder}.

(** ** Construction *)

(** [addNodesOf(F)] *)
Definition addNodesOf (F : Function) : M GSt unit :=
  forM (λ arg, addNode arg true ;;; ret tt) (fn_args F) ;;;
  forM (λ B, forM (λ I, addNode I true ;;; ret tt) B) (fn_blocks F).

(** [this->entryNode = this->internalNodeMap[v]; assert(this->entryNode != nullptr)]: on
    an absent key the subscript creates a null entry *)
Definition setEntryValue (v : Ptr) : M GSt unit :=
  let* g := this in
  match internalNodeMap g !! v with
  | Some n => set_this (setEntryNode n) ;;; massert (bool_decide (is_Some n))
  | None =>
      set_this (set_internalNodeMap (<[v := None]> (internalNodeMap g))) ;;;
      set_this (setEntryNode None) ;;;
      massert false
  end.

(** [setEntryPointAt(F)]: the first instruction of the first block *)
Definition setEntryPointAt (F : Function) : M GSt unit :=
  let* B := deref (head (fn_blocks F)) in
  let* entryInstr := deref (head B) in
  setEntryValue entryInstr.

(** [PDG(Module &M)] *)
Definition PDG_ofModule (M : Module) : Prelude.M GSt unit :=
  forM (λ F, if isDeclaration F then ret tt else addNodesOf F) (functions M) ;;;
  let* mainF := (match mainFunction M with Some F => ret F | None => fail AssertionFailure end) in
  setEntryPointAt mainF ;;;
  let* g := this in
  forM (λ e, let* x := on_heap (load_edge e) in massert (negb (isLoopCarriedDependence x)))
       (visit (allEdges g)).

(** [PDG(Function &F)] *)
Definition PDG_ofFunction (F : Function) : M GSt unit :=
  addNodesOf F ;;; setEntryPointAt F.

(** [PDG(Loop *loop)]: [blocks] are the blocks of the loop, the header first *)
Definition PDG_ofLoop (blocks : list (list Ptr)) : M GSt unit :=
  forM (λ B, forM (λ I, addNode I true ;;; ret tt) B) blocks ;;;
  let* bbBegin := deref (head blocks) in
  let* inst := deref (head bbBegin) in
  setEntryValue inst.

(** [PDG(std::vector<Value *> &values)] *)
Definition PDG_ofValues (values : list Ptr) : M GSt unit :=
  forM (λ V, addNode V true ;;; ret tt) values ;;;
  let* V := deref (head values) in
  setEntryValue V.

(** ** Sub-graphs *)

(** [copyEdgesInto(newPDG, linkToExternal, edgesToIgnore)]; [self] is the graph the method
    is called on and the state holds [newPDG], a different object *)
Definition copyEdgesInto (self : DG) (linkToExternal : bool) (edgesToIgnore : gset Ptr)
    : M GSt unit :=
  forM (λ oldEdge,
    if decide (oldEdge ∈ edgesToIgnore) then ret tt
    else
      let* x := on_heap (load_edge oldEdge) in
      let* fromT := on_heap (getSrc x) in
      let* toT := on_heap (getDst x) in
      let* newPDG := this in
      let fromInclusion := isInternal newPDG fromT in
      let toInclusion := isInternal newPDG toT in
      if negb fromInclusion && negb toInclusion then ret tt
      else if negb linkToExternal && (negb fromInclusion || negb toInclusion) then ret tt
      else
        fetchOrAddNode fromT fromInclusion ;;;
        fetchOrAddNode toT toInclusion ;;;
        copyAddEdge oldEdge ;;;
        ret tt)
    (visit (allEdges self)).

(** the check that no edge of a new graph is marked loop-carried *)
Definition assertNoLoopCarried : M GSt unit :=
  let* g := this in
  forM (λ e, let* x := on_heap (load_edge e) in massert (negb (isLoopCarriedDependence x)))
       (visit (allEdges g)).

(** The methods below allocate the new graph. The heap is the state; the result is the
    new graph, or null. *)
Definition new_PDG (m : M GSt unit) : M Heap DG :=
  λ h, match m (h, DG_new) with
       | Ok ((h', g'), _) => Ok (h', g')
       | Fail e => Fail e
       end.

Definition createFunctionSubgraph (self : DG) (F : Function) : M Heap (option DG) :=
  if isDeclaration F then ret None
  else
    let* functionPDG := new_PDG (
      PDG_ofFunction F ;;;
      copyEdgesInto self true ∅ ;;;
      assertNoLoopCarried) in
    ret (Some functionPDG).

Definition createLoopsSubgraph (self : DG) (blocks : list (list Ptr)) : M Heap DG :=
  new_PDG (PDG_ofLoop blocks ;;; copyEdgesInto self true ∅).

Definition createSubgraphFromValues (self : DG) (valueList : list Ptr) (linkToExternal : bool)
    (edgesToIgnore : gset Ptr) : M Heap (option DG) :=
  match valueList with
  | [] => ret None
  | _ =>
      let* newPDG := new_PDG (
        PDG_ofValues valueList ;;;
        copyEdgesInto self linkToExternal edgesToIgnore) in
      ret (Some newPDG)
  end.

(** [clone(includeExternalNodes)] *)
Definition clone (self : DG) (includeExternalNodes : bool) : M Heap (option DG) :=
  let currentNodes :=
    (fst <$> internalNodePairs self) ++
    (if includeExternalNodes then fst <$> externalNodePairs self else []) in
  createSubgraphFromValues self currentNodes includeExternalNodes ∅.

(** ** Queries *)

(** a state that also holds [C], the variables a callback captures *)
Definition on_graph {C A} (m : M GSt A) : M (GSt * C) A := zoom fst (λ s p, (s, p.2)) m.
Definition on_client {C A} (m : M C A) : M (GSt * C) A := zoom snd (λ c p, (p.1, c)) m.

Definition iterateOverDependencesFrom {C} (from : Ptr)
    (includeControlDependences includeMemoryDataDependences includeRegisterDataDependences : bool)
    (functionToInvokePerDependence : Ptr → Ptr → M C bool) : M (GSt * C) bool :=
  let* pdgNode := on_graph (fetchNode from) in
  match pdgNode with
  | None => ret false
  | Some p =>
      let* n := on_graph (on_heap (load_node p)) in
      anyM (λ edge,
        let* x := on_graph (on_heap (load_edge edge)) in
        let* destValue := on_graph (on_heap (getDst x)) in
        if dependence_selected includeControlDependences includeMemoryDataDependences
             includeRegisterDataDependences x
        then on_client (functionToInvokePerDependence destValue edge)
        else ret false) (visit (outgoingEdges n))
  end.

Definition iterateOverDependencesTo {C} (toValue : Ptr)
    (includeControlDependences includeMemoryDataDependences includeRegisterDataDependences : bool)
    (functionToInvokePerDependence : Ptr → Ptr → M C bool) : M (GSt * C) bool :=
  let* pdgNode := on_graph (fetchNode toValue) in
  match pdgNode with
  | None => ret false
  | Some p =>
      let* n := on_graph (on_heap (load_node p)) in
      anyM (λ edge,
        let* x := on_graph (on_heap (load_edge edge)) in
        let* srcValue := on_graph (on_heap (getSrc x)) in
        if dependence_selected includeControlDependences includeMemoryDataDependences
             includeRegisterDataDependences x
        then on_client (functionToInvokePerDependence srcValue edge)
        else ret false) (visit (incomingEdges n))
  end.

Definition getSortedValues : M GSt (list Ptr) :=
  let* g := this in
  let* l := on_heap (mapM (λ node, let* n := load_node node in ret (getT n)) (visit (allNodes g))) in
  ret (Utils_sort (list_to_set l)).

Definition getSortedDependences : M GSt (list Ptr) :=
  let* g := this in on_heap (sortDependences (allEdges g)).

Definition getDependences (from to : Ptr) : M GSt (gset Ptr) :=
  let* srcNode := fetchNode from in
  let* dstNode := fetchNode to in
  match srcNode, dstNode with
  | Some s, Some d => fetchEdges s d
  | _, _ => ret ∅
  end.

Definition getNumberOfInstructionsIncluded (g : DG) : nat := numInternalNodes g.
Definition getNumberOfDependencesBetweenInstructions (g : DG) : nat := numEdges g.

(** [~PDG()] *)
Definition PDG_destroy : M GSt unit :=
  let* g := this in
  forM (λ e, on_heap (delete_edge e)) (visit (allEdges g)) ;;;
  forM (λ n, on_heap (delete_node n)) (visit (allNodes g)).
End pdg.
