(* ===== verification/PDGSpec.v ===== *)
(** * Sub-graphs of a program dependence graph

    A sub-graph built from some values has those values inside, the values at the other
    end of the copied edges outside, and one copy of each edge that qualifies. *)
From S2P Require Import Prelude DGEdge DGNode DGBase DGInvariant DGSpec DGCopy PDG.

Section subgraph.
Context {IO : IterOrder}.

(** [e] qualifies for a sub-graph with the values [vals]: it touches one of them, and if
    edges to external values are excluded it connects two of them *)
Definition qualifies (h0 : Heap) (g0 : DG) (vals : Ptr → Prop) (link : bool)
    (ignore : gset Ptr) (e : Ptr) : Prop :=
  e ∉ ignore ∧ ∃ v, edge_view h0 g0 e = Some v ∧ (vals (a_src v) ∨ vals (a_dst v)) ∧
    (link = false → vals (a_src v) ∧ vals (a_dst v)).

(** what a sub-graph looks like when the edges of [done] have been considered *)
Record subgraph (h0 : Heap) (g0 : DG) (vals : Ptr → Prop) (link : bool) (ignore : gset Ptr)
    (considered : Ptr → Prop) (m : gmap Ptr Ptr) (s : GSt) : Prop := {
  sg_copying : copying h0 g0 m s;
  sg_next : (nextAddr h0 ≤ nextAddr s.1)%positive;
  sg_internal t : internal_value s.2 t ↔ vals t;
  sg_edges e : is_Some (m !! e) ↔ considered e ∧ qualifies h0 g0 vals link ignore e;
  sg_external t : external_value s.2 t ↔
    ¬ vals t ∧ ∃ e v, is_Some (m !! e) ∧ edge_view h0 g0 e = Some v ∧
                      (t = a_src v ∨ t = a_dst v)
}.

(** one call of [addNode] while a copy is under construction *)
Lemma addNode_copying h0 g0 m s t b :
  wf h0 g0 → copying h0 g0 m s → (nextAddr h0 ≤ nextAddr s.1)%positive →
  (nodeIdCounter s.2 < int32_max)%Z → (∀ n, ¬ node_of s.2 t n) →
  wp (addNode t b) (λ n s', copying h0 g0 m s' ∧ (nextAddr h0 ≤ nextAddr s'.1)%positive ∧
    nodeIdCounter s'.2 = (nodeIdCounter s.2 + 1)%Z ∧ entryNode s'.2 = entryNode s.2 ∧
    (∀ t', internal_value s'.2 t' ↔ internal_value s.2 t' ∨ (t' = t ∧ b = true)) ∧
    (∀ t', external_value s'.2 t' ↔ external_value s.2 t' ∨ (t' = t ∧ b = false)) ∧
    node_of s'.2 t n) s.
Proof.
  intros W0 C Hnext Hc Hno. destruct s as [h g]. unfold wp.
  rewrite addNode_run by done. split.
  { apply added_node_copying; try done. apply W0. }
  unfold internal_value, external_value, node_of in *. simpl in *.
  split; [lia|]. split; [done|]. split; [done|].
  split; [|split]; [intros t'..|];
    destruct b; try (destruct (decide (t' = t)) as [->|]); simplify_map_eq; naive_solver.
Qed.

(** one call of [fetchOrAddNode] while a copy is under construction *)
Lemma fetchOrAddNode_copying h0 g0 m s t :
  wf h0 g0 → copying h0 g0 m s → (nextAddr h0 ≤ nextAddr s.1)%positive →
  (nodeIdCounter s.2 < int32_max)%Z →
  wp (fetchOrAddNode t (isInternal s.2 t))
    (λ _ s', copying h0 g0 m s' ∧ (nextAddr h0 ≤ nextAddr s'.1)%positive ∧
    (nodeIdCounter s'.2 ≤ nodeIdCounter s.2 + 1)%Z ∧
    (∀ t', internal_value s'.2 t' ↔ internal_value s.2 t') ∧
    (∀ t', external_value s'.2 t' ↔ external_value s.2 t' ∨ (t' = t ∧ ¬ internal_value s.2 t))) s.
Proof.
  intros W0 C Hnext Hc. destruct s as [h g]. pose proof (cp_wf _ _ _ _ C) as W. simpl in *.
  pose proof (internal_value_isInternal _ _ t W) as Ei.
  pose proof (external_value_isExternal g t (cp_phantom _ _ _ _ C)) as Ee.
  unfold fetchOrAddNode. dg_steps. unfold isInGraph.
  destruct (isInternal g t || isExternal g t) eqn:Hg.
  - assert (∃ n, node_of g t n) as [n Hn].
    { apply node_of_values. apply orb_true_iff in Hg. tauto. }
    unfold wp. rewrite (fetchNode_present _ _ _ _ W Hn). simpl.
    split; [done|]. split; [done|]. split; [lia|]. split; [done|]. intros t'.
    split; [by left|]. intros [?|[-> Hni]]; [done|].
    assert (∃ n, node_of g t n) as [?|?]%node_of_values by eauto; tauto.
  - apply orb_false_iff in Hg as [Hi He]. rewrite Hi in *. rewrite He in Ee.
    assert (∀ n, ¬ node_of g t n) as Hno.
    { intros n Hn. assert (∃ n, node_of g t n) as [?%Ei|?%Ee]%node_of_values by eauto; done. }
    dg_step. eapply wp_mono; [by apply (addNode_copying h0 g0 m (h, g))|].
    intros n s' (C' & Hnx & Hcnt & _ & Hin & Hex & _). dg_step. simpl in *.
    split; [done|]. split; [done|]. split; [lia|]. split.
    + intros t'. rewrite Hin. naive_solver.
    + intros t'. rewrite Hex. assert (¬ internal_value g t) by naive_solver. naive_solver.
Qed.

(** the iteration of [copyEdgesInto] on one edge *)
Lemma copyEdgesInto_step h0 g0 vals link ignore P m s e x :
  wf h0 g0 → subgraph h0 g0 vals link ignore P m s → (∀ t, Decision (vals t)) →
  e ∈ allEdges g0 → m !! e = None → hedges h0 !! e = Some x →
  (e ∉ ignore → copyable h0 e) → (nodeIdCounter s.2 + 1 < int32_max)%Z →
  wp (if decide (e ∈ ignore) then ret tt
      else
        let* x := on_heap (load_edge e) in
        let* fromT := on_heap (getSrc x) in
        let* toT := on_heap (getDst x) in
        let* newPDG := this in
        let fromInclusion := isInternal newPDG fromT in
        let toInclusion := isInternal newPDG toT in
        if negb fromInclusion && negb toInclusion then ret tt
        else if negb link && (negb fromInclusion || negb toInclusion) then ret tt
        else
          fetchOrAddNode fromT fromInclusion ;;;
          fetchOrAddNode toT toInclusion ;;;
          copyAddEdge e ;;;
          ret tt)
    (λ _ s', ∃ m', subgraph h0 g0 vals link ignore (λ e', P e' ∨ e' = e) m' s' ∧
       dom m' ⊆ {[e]} ∪ dom m ∧ (nodeIdCounter s'.2 ≤ nodeIdCounter s.2 + 2)%Z) s.
Proof.
  intros W0 S Hdec He Hm Hx Hcp Hcnt. pose proof (sg_copying _ _ _ _ _ _ _ _ S) as C.
  destruct (edge_view_live _ _ _ _ W0 He Hx) as (a & b & Ha & Hb & Na & Nb & Hv).
  destruct (wf_edge _ _ W0 e He) as (x' & Hx' & Hxf & Hxt). simplify_eq.
  pose proof (cp_wf _ _ _ _ C) as W.
  assert (¬ qualifies h0 g0 vals link ignore e →
    subgraph h0 g0 vals link ignore (λ e', P e' ∨ e' = e) m s) as Hskip.
  { intros Hq. destruct S as [S1 S2 S3 S4 S5]. split; try done.
    intros e'. rewrite S4. naive_solver. }
  case_decide as Hig.
  { apply wp_ret. exists m. split; [|split; [set_solver|simpl; lia]]. apply Hskip. by intros [? _]. }
  destruct s as [h g]. simpl in *. dg_steps.
  exists x. split; [by apply (cp_edges _ _ _ _ C)|]. dg_steps.
  exists a. split; [exact (eq_trans (proj1 (cp_nodes _ _ _ _ C (from x) (mk_is_Some _ _ Ha))) Ha)|]. dg_steps.
  exists b. split; [exact (eq_trans (proj1 (cp_nodes _ _ _ _ C (to x) (mk_is_Some _ _ Hb))) Hb)|]. dg_steps.
  pose proof (internal_value_isInternal _ _ (theT a) W) as Ia.
  pose proof (internal_value_isInternal _ _ (theT b) W) as Ib. simpl in Ia, Ib.
  pose proof (sg_internal _ _ _ _ _ _ _ _ S) as Si. simpl in Si. rewrite Si in Ia, Ib.
  destruct (negb (isInternal g (theT a)) && negb (isInternal g (theT b))) eqn:B1.
  { apply wp_ret. exists m. split; [|split; [set_solver|simpl; lia]]. apply Hskip.
    intros (_ & v & Hv' & Hor & _). simplify_eq/=.
    apply andb_true_iff in B1 as [B1 B2]. apply negb_true_iff in B1, B2.
    rewrite B1 in Ia. rewrite B2 in Ib. naive_solver. }
  destruct (negb link && (negb (isInternal g (theT a)) || negb (isInternal g (theT b)))) eqn:B2.
  { apply wp_ret. exists m. split; [|split; [set_solver|simpl; lia]]. apply Hskip.
    intros (_ & v & Hv' & _ & Hand). simplify_eq/=.
    apply andb_true_iff in B2 as [B2 B3]. apply negb_true_iff in B2.
    destruct (Hand B2) as [Ha'%Ia Hb'%Ib]. by rewrite Ha', Hb' in B3. }
  assert (qualifies h0 g0 vals link ignore e) as Hq.
  { split; [done|]. eexists. split; [exact Hv|]. simpl. split.
    - apply andb_false_iff in B1. rewrite !negb_false_iff in B1. tauto.
    - intros ->. apply orb_false_iff in B2. rewrite !negb_false_iff in B2. tauto. }
  dg_step. eapply wp_mono.
  { apply (fetchOrAddNode_copying h0 g0 m (h, g)); simpl; try done; [apply S|lia]. }
  intros _ [h1 g1] (C1 & Hn1 & Hc1 & In1 & Ex1). simpl in *.
  pose proof (cp_wf _ _ _ _ C1) as W1. simpl in W1.
  assert (isInternal g (theT b) = isInternal g1 (theT b)) as ->.
  { apply eq_true_iff_eq. rewrite Ib.
    rewrite (internal_value_isInternal _ _ (theT b) W1), In1, Si. done. }
  dg_step. eapply wp_mono.
  { apply (fetchOrAddNode_copying h0 g0 m (h1, g1)); simpl; try done. lia. }
  intros _ [h2 g2] (C2 & Hn2 & Hc2 & In2 & Ex2). simpl in *.
  dg_step. eapply wp_mono.
  { apply (copyAddEdge_copying h0 g0 m h2 g2 e _ C2 W0 He Hm (Hcp Hig) Hv);
      apply node_of_values; simpl.
    - rewrite In2, Ex2, In1, Ex1.
      destruct (Hdec (theT a)) as [?%Si|Hn]; [tauto|]. rewrite <- Si in Hn. tauto.
    - rewrite In2, Ex2, In1, Ex1.
      destruct (Hdec (theT b)) as [?%Si|Hn]; [tauto|]. rewrite <- Si in Hn. tauto. }
  intros e' [h3 g3] (C3 & Ei & Ee & Ec & _ & _ & Hn3). dg_step. simpl in *.
  exists (<[e := e']> m). split; [|split; [set_solver|lia]].
  assert (∀ t, external_value g3 t ↔ external_value g t ∨
    (t = theT a ∧ ¬ vals (theT a)) ∨ (t = theT b ∧ ¬ vals (theT b))) as Hex.
  { intros t. unfold external_value at 1. rewrite Ee. fold (external_value g2 t).
    rewrite Ex2, Ex1, In1, !Si. tauto. }
  split; simpl; [done|lia| | |].
  - intros t. unfold internal_value. rewrite Ei. fold (internal_value g2 t).
    by rewrite In2, In1.
  - intros e1. destruct (decide (e1 = e)) as [->|Hne].
    + rewrite lookup_insert_eq. split; [|eauto]. intros _. split; [by right|done].
    + rewrite lookup_insert_ne by done. rewrite (sg_edges _ _ _ _ _ _ _ _ S). naive_solver.
  - intros t. rewrite Hex, (sg_external _ _ _ _ _ _ _ _ S t).
    assert (∀ Q : Ptr → AEdge → Prop, (∃ e1 v, is_Some (<[e:=e']> m !! e1) ∧
       edge_view h0 g0 e1 = Some v ∧ Q e1 v) ↔
       Q e (mkAEdge (theT a) (theT b) (kind x) (dataDepType x)) ∨
       ∃ e1 v, is_Some (m !! e1) ∧ edge_view h0 g0 e1 = Some v ∧ Q e1 v) as Hins.
    { intros Q. split.
      - intros (e1 & v & Hs & Hv1 & HQ). destruct (decide (e1 = e)) as [->|Hne].
        + left. by simplify_eq.
        + right. exists e1, v. by rewrite lookup_insert_ne in Hs by done.
      - intros [HQ|(e1 & v & Hs & Hv1 & HQ)].
        + eexists e, _. rewrite lookup_insert_eq. eauto.
        + exists e1, v. destruct (decide (e1 = e)) as [->|]; [by rewrite Hm in Hs; destruct Hs|].
          by rewrite lookup_insert_ne. }
    rewrite (Hins (λ _ v, t = a_src v ∨ t = a_dst v)). simpl.
    split; [intros [?|[[-> ?]|[-> ?]]]|intros [? [[-> | ->]|?]]]; tauto.
Qed.

Lemma copyEdgesInto_run h0 g0 vals link ignore s :
  wf h0 g0 → subgraph h0 g0 vals link ignore (λ _, False) ∅ s → (∀ t, Decision (vals t)) →
  (∀ e, e ∈ allEdges g0 → e ∉ ignore → copyable h0 e) →
  (nodeIdCounter s.2 + 2 * Z.of_nat (numEdges g0) ≤ int32_max)%Z →
  wp (copyEdgesInto g0 link ignore)
     (λ _ s', ∃ m, subgraph h0 g0 vals link ignore (λ e, e ∈ allEdges g0) m s') s.
Proof.
  intros W0 S Hdec Hcp Hcnt. unfold copyEdgesInto.
  eapply wp_mono; [apply (wp_forM _ (λ pre _ s', ∃ m,
    subgraph h0 g0 vals link ignore (λ e, e ∈ pre) m s' ∧ dom m ⊆ list_to_set pre ∧
    (nodeIdCounter s'.2 ≤ nodeIdCounter s.2 + 2 * Z.of_nat (length pre))%Z))|].
  - exists ∅. split; [|split; [set_solver|simpl; lia]].
    destruct S as [S1 S2 S3 S4 S5]. split; try done.
    intros e. rewrite S4. set_solver.
  - intros pre e post s' Hl (m & S' & Hm & Hc).
    assert (e ∈ allEdges g0) as He. { apply elem_of_visit. rewrite Hl. set_solver. }
    pose proof (NoDup_visit (allEdges g0)) as Hnd. rewrite Hl in Hnd.
    apply NoDup_app in Hnd as (_ & Hnd & _).
    pose proof (length_visit (allEdges g0)) as Hlen. rewrite Hl, length_app in Hlen.
    simpl in Hlen. fold (numEdges g0) in Hlen.
    destruct (wf_edge _ _ W0 e He) as (x & Hx & _).
    eapply wp_mono.
    { apply (copyEdgesInto_step h0 g0 vals link ignore (λ e, e ∈ pre) m s' e x); eauto; [|lia].
      apply not_elem_of_dom. intros Hc'%Hm%elem_of_list_to_set. apply (Hnd e Hc'). set_solver. }
    intros [] s'' (m' & S'' & Hm' & Hc'). exists m'. split; [|split].
    + destruct S'' as [S1 S2 S3 S4 S5]. split; try done. intros e'. rewrite S4. set_solver.
    + set_solver.
    + rewrite length_app. simpl. lia.
  - intros [] s' (m & S' & _ & _). exists m.
    destruct S' as [S1 S2 S3 S4 S5]. split; try done.
    intros e. rewrite S4, elem_of_visit. done.
Qed.

Lemma PDG_ofValues_run h0 g0 values link ignore :
  wf h0 g0 → values ≠ [] → NoDup values → (Z.of_nat (length values) ≤ int32_max)%Z →
  wp (PDG_ofValues values)
     (λ _ s', subgraph h0 g0 (λ t, t ∈ values) link ignore (λ _, False) ∅ s' ∧
        nodeIdCounter s'.2 = Z.of_nat (length values)) (h0, DG_new).
Proof.
  intros W0 Hne Hnd Hcap. unfold PDG_ofValues. dg_step.
  eapply wp_mono; [apply (wp_forM _ (λ pre _ s', copying h0 g0 ∅ s' ∧
    (nextAddr h0 ≤ nextAddr s'.1)%positive ∧ nodeIdCounter s'.2 = Z.of_nat (length pre) ∧
    (∀ t, internal_value s'.2 t ↔ t ∈ pre) ∧ (∀ t, ¬ external_value s'.2 t)))|].
  - split.
    { apply copying_start; simpl; first [done | apply DG_new_wf, W0 | set_solver]. }
    split; [done|]. split; [done|]. unfold internal_value, external_value. simpl.
    split; [|intros t [n Hn]; by rewrite lookup_empty in Hn].
    intros t. split; [|set_solver]. intros [n Hn]. by rewrite lookup_empty in Hn.
  - intros pre t post s' -> (C & Hnx & Hc & Hi & Hx). dg_step.
    rewrite length_app in Hcap. simpl in Hcap.
    assert (t ∉ pre) as Ht by (apply NoDup_app in Hnd as (_ & Hnd & _); set_solver).
    eapply wp_mono.
    { apply (addNode_copying h0 g0 ∅ s' t true W0 C Hnx); [lia|].
      intros n Hn. assert (∃ n, node_of s'.2 t n) as [H|H]%node_of_values by eauto.
      - by apply Ht, Hi.
      - by apply (Hx t). }
    intros n s'' (C' & Hnx' & Hc' & _ & Hi' & Hx' & _). dg_step.
    split; [done|]. split; [done|]. split; [rewrite length_app; simpl; lia|]. split.
    + intros t'. rewrite Hi', Hi. set_solver.
    + intros t'. rewrite Hx'. naive_solver.
  - intros [] s' (C & Hnx & Hc & Hi & Hx).
    destruct values as [|V values]; [done|]. dg_step. apply wp_deref. exists V. split; [done|].
    unfold setEntryValue. dg_steps.
    destruct (proj2 (Hi V)) as [n Hn]; [set_solver|]. rewrite Hn. dg_steps.
    apply wp_massert. split; [by apply bool_decide_eq_true; eauto|]. split; [|done].
    split; simpl; [|done| | |].
    + destruct C as [C1 C2 C3 C4 C5 C6 C7]. split; simpl; try done. by apply setEntryNode_wf.
    + apply Hi.
    + intros e. rewrite lookup_empty. split; [by intros [? ?]|tauto].
    + intros t. split; [by intros ?%Hx|].
      intros (_ & e & v & [? Hm] & _). by rewrite lookup_empty in Hm.
Qed.

Lemma createSubgraph_run h0 g0 values link ignore :
  wf h0 g0 → values ≠ [] → NoDup values →
  (∀ e, e ∈ allEdges g0 → e ∉ ignore → copyable h0 e) →
  (Z.of_nat (length values) + 2 * Z.of_nat (numEdges g0) ≤ int32_max)%Z →
  ∃ h' g' m, createSubgraphFromValues g0 values link ignore h0 = Ok (h', Some g') ∧
    subgraph h0 g0 (λ t, t ∈ values) link ignore (λ e, e ∈ allEdges g0) m (h', g').
Proof.
  intros W0 Hne Hnd Hcp Hcap. unfold createSubgraphFromValues.
  assert (wp (PDG_ofValues values ;;; copyEdgesInto g0 link ignore) (λ _ s', ∃ m,
    subgraph h0 g0 (λ t, t ∈ values) link ignore (λ e, e ∈ allEdges g0) m s') (h0, DG_new)) as H.
  { dg_step. eapply wp_mono.
    { apply (PDG_ofValues_run h0 g0 values link ignore); try done. lia. }
    intros [] s' [S Hc]. apply (copyEdgesInto_run _ _ (λ t, t ∈ values)); try done.
    - intros t. apply _.
    - lia. }
  destruct values as [|V values]; [done|].
  unfold bind at 1, new_PDG. apply wp_ok in H as ([h' g'] & [] & -> & m & S).
  exists h', g', m. done.
Qed.

(** (C7) createSubgraphFromValues builds the sub-graph its arguments describe: the values
    of the list are the internal values of the result; every edge of the source that is
    not ignored and touches one of them (connects two of them when external values are
    excluded) has exactly one copy, with the same ends, kind and type, and the result has
    no other edge; the external values are the other ends of the copied edges. The
    result is well formed and the source graph is untouched. *)
Theorem createSubgraphFromValues_spec h0 g0 values link ignore :
  wf h0 g0 → values ≠ [] → NoDup values →
  (∀ e, e ∈ allEdges g0 → e ∉ ignore → copyable h0 e) →
  (Z.of_nat (length values) + 2 * Z.of_nat (numEdges g0) ≤ int32_max)%Z →
  ∃ h' g' m, createSubgraphFromValues g0 values link ignore h0 = Ok (h', Some g') ∧
    subgraph h0 g0 (λ t, t ∈ values) link ignore (λ e, e ∈ allEdges g0) m (h', g').
Proof. apply createSubgraph_run. Qed.

Lemma subgraph_ext h0 g0 vals vals' link ignore P m s :
  (∀ t, vals t ↔ vals' t) → subgraph h0 g0 vals link ignore P m s →
  subgraph h0 g0 vals' link ignore P m s.
Proof.
  intros E [S1 S2 S3 S4 S5]. split; try done.
  - intros t. by rewrite S3.
  - intros e. rewrite S4. unfold qualifies. setoid_rewrite E. done.
  - intros t. rewrite S5, E. done.
Qed.

Lemma elem_of_nodePairs m t p : (t, p) ∈ nodePairs m ↔ m !! t = Some p.
Proof.
  unfold nodePairs. rewrite list_elem_of_omap. split.
  - intros (t' & _ & (q & Hq & ?)%fmap_Some). by simplify_eq.
  - intros H. exists t. rewrite elem_of_visit, elem_of_dom, H. eauto.
Qed.

Lemma nodePairs_fst m : fst <$> nodePairs m = visit (dom m).
Proof.
  unfold nodePairs. assert (∀ t, t ∈ visit (dom m) → is_Some (m !! t)) as H.
  { intros t. by rewrite elem_of_visit, elem_of_dom. }
  induction (visit (dom m)) as [|t l IH]; [done|].
  destruct (H t) as [p Hp]; [set_solver|]. simpl. rewrite Hp. simpl. f_equal. apply IH.
  set_solver.
Qed.

(** clone copies the whole graph: the internal values, and the external ones when
    they are included, become the internal values of the clone, and every edge that
    touches them (connects two of them without the external values) has exactly one copy
    with the same ends, kind and type. *)
Theorem clone_spec h0 g0 b :
  wf h0 g0 → (∀ t, externalNodeMap g0 !! t ≠ Some None) →
  (∃ t, internal_value g0 t) → (∀ e, e ∈ allEdges g0 → copyable h0 e) →
  (Z.of_nat (numInternalNodes g0 + numExternalNodes g0) + 2 * Z.of_nat (numEdges g0)
     ≤ int32_max)%Z →
  ∃ h' g' m, clone g0 b h0 = Ok (h', Some g') ∧
    subgraph h0 g0 (λ t, internal_value g0 t ∨ (b = true ∧ external_value g0 t)) b ∅
      (λ e, e ∈ allEdges g0) m (h', g').
Proof.
  intros W Hph [t0 [n0 Ht0]] Hcp Hcap. unfold clone.
  set (l := (fst <$> internalNodePairs g0) ++ (if b then fst <$> externalNodePairs g0 else [])).
  assert (∀ t, t ∈ l ↔ internal_value g0 t ∨ (b = true ∧ external_value g0 t)) as Hl.
  { intros t. unfold l, internalNodePairs, externalNodePairs.
    rewrite <- (internal_value_isInternal _ _ t W), <- (external_value_isExternal _ t Hph).
    unfold isInternal, isExternal. rewrite !bool_decide_eq_true, elem_of_app, nodePairs_fst,
      elem_of_visit, elem_of_dom.
    destruct b; [rewrite nodePairs_fst, elem_of_visit, elem_of_dom; naive_solver|set_solver]. }
  assert (l ≠ []) as Hne.
  { intros E. assert (t0 ∈ l) by (apply Hl; left; by exists n0). rewrite E in *. set_solver. }
  assert (NoDup l ∧ length l ≤ numInternalNodes g0 + numExternalNodes g0) as [Hnd Hlen].
  { unfold l, internalNodePairs, externalNodePairs, numInternalNodes, numExternalNodes.
    rewrite length_app, !nodePairs_fst, length_visit, size_dom. split.
    - apply NoDup_app. split; [apply NoDup_visit|]. split; [|destruct b; [apply NoDup_visit|constructor]].
      intros t. rewrite elem_of_visit, elem_of_dom. intros [p Hp] Ht. destruct b; [|set_solver].
      rewrite elem_of_visit, elem_of_dom in Ht. destruct Ht as [[n|] Hn]; [|by apply (Hph t)].
      destruct (wf_internal _ _ W _ _ Hp) as [_ He]. by apply (He n).
    - destruct b; simpl; rewrite ?length_visit, ?size_dom; lia. }
  destruct (createSubgraph_run h0 g0 l b ∅) as (h' & g' & m & -> & S); try done.
  { intros e He _. by apply Hcp. }
  { lia. }
  exists h', g', m. split; [done|]. by apply (subgraph_ext _ _ _ _ _ _ _ _ _ Hl).
Qed.

(** ** Iterating over dependences *)

Lemma anyM_omap {C} (w : GSt) (es : list Ptr) (body : Ptr → M (GSt * C) bool)
    (q : Ptr → option (Ptr * Ptr)) (f : Ptr → Ptr → M C bool) c :
  (∀ e c, e ∈ es → body e (w, c) =
     match q e with
     | Some te => match f te.1 te.2 c with Ok (c', b) => Ok ((w, c'), b) | Fail err => Fail err end
     | None => Ok ((w, c), false)
     end) →
  anyM body es (w, c) =
  match anyM (λ te : Ptr * Ptr, f te.1 te.2) (omap q es) c with
  | Ok (c', b) => Ok ((w, c'), b) | Fail err => Fail err end.
Proof.
  revert c. induction es as [|e es IH]; intros c He; [done|].
  assert (∀ c, anyM body es (w, c) = _) as IH' by (intros; apply IH; set_solver).
  simpl. unfold bind at 1. rewrite (He e c) by set_solver.
  destruct (q e) as [te|]; [|apply IH']. simpl. unfold bind at 1.
  destruct (f te.1 te.2 c) as [[c' []]|err]; [done|apply IH'|done].
Qed.

Lemma anyM_selected {C} h g (es : list Ptr) (p : DGEdge → bool) (node : DGEdge → Ptr)
    (get : DGEdge → M Heap Ptr) (f : Ptr → Ptr → M C bool) c :
  (∀ e, e ∈ es → ∃ x s, hedges h !! e = Some x ∧ hnodes h !! node x = Some s ∧
     get x h = Ok (h, theT s)) →
  anyM (λ e,
    let* x := on_graph (on_heap (load_edge e)) in
    let* t := on_graph (on_heap (get x)) in
    if p x then on_client (f t e) else ret false) es ((h, g), c) =
  match anyM (λ te : Ptr * Ptr, f te.1 te.2)
    (omap (λ e, x ← hedges h !! e; s ← hnodes h !! node x;
                if p x then Some (theT s, e) else None) es) c with
  | Ok (c', b) => Ok ((h, g, c'), b)
  | Fail err => Fail err
  end.
Proof.
  intros He. apply (anyM_omap (h, g)). intros e c' Hin.
  destruct (He e Hin) as (x & s & Hx & Hs & Hg). rewrite Hx. simpl. rewrite Hs. simpl.
  unfold bind, on_graph, on_heap, zoom, load_edge, deref. cbn [fst snd]. rewrite Hx.
  cbn. rewrite Hg. cbn. by destruct (p x).
Qed.

(** On a value of the graph, the two iterators call the function once per edge of
    that direction whose class is selected, with the value at the other end, until the
    function returns true; they return true exactly in that case, and change the graph
    only through the function. *)
Theorem iterateOverDependences_spec h g t n b1 b2 b3 :
  wf h g → node_of g t n →
  (∃ l, NoDup l.*2 ∧
    (∀ t' e, (t', e) ∈ l ↔ ∃ x, e ∈ allEdges g ∧ hedges h !! e = Some x ∧
       from x = n ∧ node_of g t' (to x) ∧ dependence_selected b1 b2 b3 x = true) ∧
    ∀ C (f : Ptr → Ptr → M C bool) c,
      iterateOverDependencesFrom t b1 b2 b3 f ((h, g), c) =
      match anyM (λ te : Ptr * Ptr, f te.1 te.2) l c with
      | Ok (c', r) => Ok ((h, g, c'), r) | Fail err => Fail err end) ∧
  (∃ l, NoDup l.*2 ∧
    (∀ t' e, (t', e) ∈ l ↔ ∃ x, e ∈ allEdges g ∧ hedges h !! e = Some x ∧
       to x = n ∧ node_of g t' (from x) ∧ dependence_selected b1 b2 b3 x = true) ∧
    ∀ C (f : Ptr → Ptr → M C bool) c,
      iterateOverDependencesTo t b1 b2 b3 f ((h, g), c) =
      match anyM (λ te : Ptr * Ptr, f te.1 te.2) l c with
      | Ok (c', r) => Ok ((h, g, c'), r) | Fail err => Fail err end).
Proof.
  intros W Hn. destruct (wf_map _ _ W _ _ Hn) as (Hin & z & Hz & HT).
  assert (∀ es (node : DGEdge → Ptr), (∀ e x, e ∈ allEdges g → hedges h !! e = Some x →
      node x ∈ allNodes g) → (∀ e, e ∈ es → e ∈ allEdges g) →
    let l := omap (λ e, x ← hedges h !! e; s ← hnodes h !! node x;
                if dependence_selected b1 b2 b3 x then Some (theT s, e) else None) (visit es) in
    NoDup l.*2 ∧ ∀ t' e, (t', e) ∈ l ↔ ∃ x, e ∈ es ∧ hedges h !! e = Some x ∧
      node_of g t' (node x) ∧ dependence_selected b1 b2 b3 x = true) as Hlist.
  { intros es node Hnode Hes l. split.
    - unfold l. clear l. pose proof (NoDup_visit es) as Hnd.
      induction Hnd as [|e l' Hel Hnd IH]; [constructor|]. simpl.
      destruct (hedges h !! e) as [x|]; simpl; [|done].
      destruct (hnodes h !! node x); simpl; [|done].
      destruct (dependence_selected _ _ _ _); simpl; [|done]. constructor; [|done].
      intros ([a b] & ? & (e' & He' & Hb)%list_elem_of_omap)%list_elem_of_fmap. simplify_eq/=.
      destruct (hedges h !! e') as [x'|]; simplify_eq/=. destruct (hnodes h !! node x'); simplify_eq/=.
      case_match; by simplify_eq.
    - intros t' e. unfold l. rewrite list_elem_of_omap. setoid_rewrite elem_of_visit. split.
      + intros (e' & He' & Hb). destruct (hedges h !! e') as [x|] eqn:Hx; simplify_eq/=.
        destruct (hnodes h !! node x) as [s|] eqn:Hs; simplify_eq/=.
        case_match eqn:Hp; simplify_eq. exists x. repeat split; try done.
        apply (wf_node_of_T h); eauto.
      + intros (x & He & Hx & Hnx & Hp). exists e. split; [done|]. rewrite Hx. simpl.
        destruct (wf_map _ _ W _ _ Hnx) as (_ & s & Hs & <-). rewrite Hs. simpl.
        by rewrite Hp. }
  assert (∀ e x, e ∈ allEdges g → hedges h !! e = Some x → to x ∈ allNodes g) as Hto.
  { intros e x He Hx. destruct (wf_edge _ _ W e He) as (? & ? & ? & ?). by simplify_eq. }
  assert (∀ e x, e ∈ allEdges g → hedges h !! e = Some x → from x ∈ allNodes g) as Hfrom.
  { intros e x He Hx. destruct (wf_edge _ _ W e He) as (? & ? & ? & ?). by simplify_eq. }
  assert (∀ e, e ∈ outgoingEdges z → e ∈ allEdges g) as Ho.
  { intros e He. by apply (wf_out _ _ W n z e) in He as [? _]. }
  assert (∀ e, e ∈ incomingEdges z → e ∈ allEdges g) as Hi.
  { intros e He. by apply (wf_in _ _ W n z e) in He as [? _]. }
  assert (∀ e (node : DGEdge → Ptr), e ∈ allEdges g →
    (∀ e x, e ∈ allEdges g → hedges h !! e = Some x → node x ∈ allNodes g) →
    ∃ x s, hedges h !! e = Some x ∧ hnodes h !! node x = Some s) as Hlive.
  { intros e node He Hnode. destruct (wf_edge _ _ W e He) as (x & Hx & _).
    destruct (wf_node _ _ W (node x)) as (s & Hs & _); [by eapply Hnode|]. eauto. }
  split.
  - destruct (Hlist (outgoingEdges z) to Hto Ho) as [Hnd Hl]. eexists. split; [exact Hnd|].
    split.
    + intros t' e. rewrite Hl. setoid_rewrite (wf_out _ _ W n z e Hin Hz). naive_solver.
    + intros C f c. unfold iterateOverDependencesFrom, bind at 1, on_graph at 1, zoom. cbn [fst snd].
      rewrite (fetchNode_present _ _ _ _ W Hn). cbn [fst snd].
      unfold bind at 1, on_graph at 1, on_heap at 1, zoom, load_node, deref. cbn [fst snd].
      rewrite Hz. unfold ret at 1. cbn [fst snd].
      apply (anyM_selected h g _ _ to getDst). intros e He%elem_of_visit%Ho.
      destruct (Hlive e to He Hto) as (x & s & Hx & Hs). exists x, s. split; [done|].
      split; [done|]. unfold getDst, bind, load_node, deref. by rewrite Hs.
  - destruct (Hlist (incomingEdges z) from Hfrom Hi) as [Hnd Hl]. eexists. split; [exact Hnd|].
    split.
    + intros t' e. rewrite Hl. setoid_rewrite (wf_in _ _ W n z e Hin Hz). naive_solver.
    + intros C f c. unfold iterateOverDependencesTo, bind at 1, on_graph at 1, zoom. cbn [fst snd].
      rewrite (fetchNode_present _ _ _ _ W Hn). cbn [fst snd].
      unfold bind at 1, on_graph at 1, on_heap at 1, zoom, load_node, deref. cbn [fst snd].
      rewrite Hz. unfold ret at 1. cbn [fst snd].
      apply (anyM_selected h g _ _ from getSrc). intros e He%elem_of_visit%Hi.
      destruct (Hlive e from He Hfrom) as (x & s & Hx & Hs). exists x, s. split; [done|].
      split; [done|]. unfold getSrc, bind, load_node, deref. by rewrite Hs.
Qed.

(** ** What a query on an absent value leaves behind *)

(** Asking for the dependences of a value that is not in the graph returns false
    without calling the function, but the graph is changed: it now counts the value as
    an external one, and a later fetchOrAddNode on that value returns a null pointer
    instead of adding it. *)
Theorem query_of_absent_value h g t b1 b2 b3 incl :
  wf h g → isInGraph g t = false →
  ∃ g', (∀ C (f : Ptr → Ptr → M C bool) c,
           iterateOverDependencesFrom t b1 b2 b3 f ((h, g), c) = Ok ((h, g', c), false)) ∧
    wf h g' ∧ allNodes g' = allNodes g ∧ allEdges g' = allEdges g ∧
    isExternal g' t = true ∧ numExternalNodes g' = S (numExternalNodes g) ∧
    fetchOrAddNode t incl (h, g') = Ok ((h, g'), None).
Proof.
  intros W Ht. eexists. split.
  - intros C f c. unfold iterateOverDependencesFrom, bind, on_graph, zoom. cbn [fst snd].
    rewrite (fetchNode_absent h g t Ht). reflexivity.
  - split; [by apply phantom_wf|]. apply isInGraph_false in Ht as [Hi He].
    assert (isExternal (set_externalNodeMap (<[t:=None]> (externalNodeMap g)) g) t = true) as Hx.
    { unfold isExternal. simpl. rewrite lookup_insert_eq. apply bool_decide_eq_true. eauto. }
    split; [done|]. split; [done|]. split; [done|]. split.
    + unfold numExternalNodes. simpl. by rewrite map_size_insert_None.
    + unfold fetchOrAddNode, bind, this, gets, isInGraph. cbn [fst snd].
      rewrite Hx, orb_true_r. unfold fetchNode, bind, this, gets. cbn [fst snd].
      simpl. by rewrite Hi, lookup_insert_eq.
Qed.

(** An edge created with addUndefinedDependenceEdge, which is how the SCCDAG
    connects its nodes, can never be copied: the last cast of copyAddEdge asserts. *)
Theorem undefined_edges_cannot_be_copied h g a b f t g2 :
  wf h g → node_of g a f → node_of g b t →
  ∃ e h' g', addUndefinedDependenceEdge a b (h, g) = Ok ((h', g'), e) ∧ wf h' g' ∧
    copyAddEdge e (h', g2) = Fail AssertionFailure.
Proof.
  intros W Ha Hb.
  assert (wp (addUndefinedDependenceEdge a b) (λ e s', e = nextAddr h ∧
    s' = added_edge h g (UndefinedDependence_new f t)) (h, g)) as H.
  { by apply (addEdge_spec _ _ _ _ _ _ _ W Ha Hb). }
  apply wp_ok in H as ([h' g'] & e & He & -> & Hs).
  exists (nextAddr h), h', g'. split; [done|].
  assert (h' = (added_edge h g (UndefinedDependence_new f t)).1) as -> by by rewrite <- Hs.
  assert (g' = (added_edge h g (UndefinedDependence_new f t)).2) as -> by by rewrite <- Hs.
  split.
  - destruct (wf_map _ _ W _ _ Ha) as [? _]. destruct (wf_map _ _ W _ _ Hb) as [? _].
    by apply (added_edge_wf h g (UndefinedDependence_new f t)).
  - apply (copyAddEdge_undefined _ _ _ (UndefinedDependence_new f t)); [|done].
    simpl. by rewrite lookup_insert_eq.
Qed.
End subgraph.
