(* ===== verification/SCC.v ===== *)
(** * Strongly connected components (src/core/sccdag: SCC.cpp)

    The class [SCC], a dependence graph whose internal values form one component: its
    constructors, the cycle test and the iterators. *)
From S2P Require Import Prelude DGEdge DGNode DGBase.

Section scc.
Context {IO : IterOrder}.

(** ** Construction *)

(** the loop over one adjacency set of one node: copy the edges that [keep] accepts;
    [other] reads the value at the other end *)
Definition copyEdgesOf (other : DGEdge → M Heap Ptr) (keep : DG → Ptr → bool) (edges : gset Ptr)
    : M GSt unit :=
  forM (λ edge,
    let* x := on_heap (load_edge edge) in
    let* t := on_heap (other x) in
    let* g := this in
    if keep g t then copyAddEdge edge ;;; ret tt else ret tt) (visit edges).

(** [copyNodesAndEdges(internalNodes, externalNodes)] *)
Definition copyNodesAndEdges (internalNodes externalNodes : gset Ptr) : M GSt unit :=
  forM (λ node, let* n := on_heap (load_node node) in addNode (getT n) true ;;; ret tt)
       (visit internalNodes) ;;;
  forM (λ node, let* n := on_heap (load_node node) in addNode (getT n) false ;;; ret tt)
       (visit externalNodes) ;;;
  let* g := this in
  let* entry := deref (head (visit (allNodes g))) in
  set_this (setEntryNode (Some entry)) ;;;
  forM (λ node,
    let* n := on_heap (load_node node) in
    copyEdgesOf getDst (λ g t, negb (isExternal g t)) (outgoingEdges n)) (visit internalNodes) ;;;
  forM (λ node,
    let* n := on_heap (load_node node) in
    copyEdgesOf getDst (λ g t, negb (isInternal g t)) (outgoingEdges n) ;;;
    copyEdgesOf getSrc (λ g t, negb (isInternal g t)) (incomingEdges n)) (visit internalNodes).

(** the neighbours of one node along [edges] whose value is not in [internalValues] *)
Definition outsideNeighbours (other : DGEdge → M Heap Ptr) (end_ : DGEdge → Ptr)
    (internalValues : gset Ptr) (edges : gset Ptr) : M Heap (list Ptr) :=
  let* l := mapM (λ edge,
    let* x := load_edge edge in
    let* t := other x in
    ret (if decide (t ∈ internalValues) then None else Some (end_ x))) (visit edges) in
  ret (omap id l).

(** [SCC(internalNodes)] *)
Definition SCC_new (internalNodes : gset Ptr) : M GSt unit :=
  let* vals := on_heap (mapM (λ node, let* n := load_node node in ret (getT n))
                             (visit internalNodes)) in
  let internalValues : gset Ptr := list_to_set vals in
  let* ext := on_heap (mapM (λ node,
    let* n := load_node node in
    let* a := outsideNeighbours getDst getDstNode internalValues (outgoingEdges n) in
    let* b := outsideNeighbours getSrc getSrcNode internalValues (incomingEdges n) in
    ret (a ++ b)) (visit internalNodes)) in
  let externalNodes : gset Ptr := list_to_set (concat ext) in
  copyNodesAndEdges internalNodes externalNodes.

Definition numberOfInstructions (g : DG) : nat := numInternalNodes g.

(** ** Cycles *)

(** the nodes checked by all the searches, those seen by the current one, and its queue *)
Record CycleState := mkCycle {
  nodesChecked : gset Ptr;
  nodesSeen : gset Ptr;
  nodesToVisit : list Ptr
}.

(** one outgoing edge of the node being visited; [None] is [return true] *)
Definition cycleEdge (ignoreControlDep : bool) (h : Heap) (st : option CycleState) (edge : Ptr)
    : Res (option CycleState) :=
  match st with
  | None => Ok None
  | Some c =>
      match hedges h !! edge with
      | None => Fail UndefinedBehaviour
      | Some x =>
          if ignoreControlDep && ControlDependence_classof x then Ok (Some c)
          else
            let otherNode := getDstNode x in
            if decide (otherNode ∈ nodesSeen c) then Ok None
            else if decide (otherNode ∈ nodesChecked c) then Ok (Some c)
            else Ok (Some (mkCycle ({[otherNode]} ∪ nodesChecked c) ({[otherNode]} ∪ nodesSeen c)
                                   (nodesToVisit c ++ [otherNode])))
      end
  end.

(** one iteration of the search; the result is the final set of checked nodes, or [None]
    for [return true] *)
Definition cycleStep (ignoreControlDep : bool) (h : Heap) (c : CycleState)
    : Res (CycleState + option (gset Ptr)) :=
  match nodesToVisit c with
  | [] => Ok (inr (Some (nodesChecked c)))
  | node :: queue =>
      match hnodes h !! node with
      | None => Fail UndefinedBehaviour
      | Some n =>
          rbind (foldR (cycleEdge ignoreControlDep h)
                       (Some (mkCycle (nodesChecked c) (nodesSeen c) queue))
                       (visit (outgoingEdges n)))
            (λ st, Ok (match st with Some c => inl c | None => inr None end))
      end
  end.

(** [hasCycle(ignoreControlDep)]; a search visits each node at most once *)
Definition hasCycle (h : Heap) (g : DG) (ignoreControlDep : bool) : Res bool :=
  rbind (foldR (λ (st : option (gset Ptr)) nodePair,
    match st with
    | None => Ok None
    | Some nodesChecked =>
        match nodePair.2 with
        | None => Fail UndefinedBehaviour
        | Some node =>
            if decide (node ∈ nodesChecked) then Ok (Some nodesChecked)
            else while (S (numNodes g)) (cycleStep ignoreControlDep h)
                   (mkCycle ({[node]} ∪ nodesChecked) {[node]} [node])
        end
    end) (Some ∅) (internalNodePairs g))
  (λ st, Ok (match st with Some _ => false | None => true end)).

(** ** Iterators

    [isInstruction] is [isa<Instruction>]; [funcToInvoke] runs on the client's state [C]. *)
Context (isInstruction : Ptr → bool).

Definition iterateOverInstructions {C} (g : DG) (funcToInvoke : Ptr → M C bool) : M C bool :=
  anyM (λ p : Ptr * option Ptr, if isInstruction p.1 then funcToInvoke p.1 else ret false)
       (internalNodePairs g).

Definition getInstructions (g : DG) : M (gset Ptr) bool :=
  iterateOverInstructions g (λ i, modify (λ s, {[i]} ∪ s) ;;; ret false).

(** the values of the nodes of the graph, in the order of [getNodes] *)
Definition nodeValues (h : Heap) (g : DG) : Res (list Ptr) :=
  foldR (λ l node, match hnodes h !! node with
                   | Some n => Ok (l ++ [getT n])
                   | None => Fail UndefinedBehaviour
                   end) [] (visit (allNodes g)).

Definition iterateOverAllInstructions {C} (h : Heap) (g : DG) (funcToInvoke : Ptr → M C bool)
    : M C bool :=
  anyM (λ node,
    match hnodes h !! node with
    | Some n => if isInstruction (getT n) then funcToInvoke (getT n) else ret false
    | None => fail UndefinedBehaviour
    end) (visit (allNodes g)).

Definition iterateOverValues {C} (g : DG) (funcToInvoke : Ptr → M C bool) : M C bool :=
  anyM (λ p : Ptr * option Ptr, funcToInvoke p.1) (internalNodePairs g).

Definition iterateOverAllValues {C} (h : Heap) (g : DG) (funcToInvoke : Ptr → M C bool)
    : M C bool :=
  anyM (λ node,
    match hnodes h !! node with
    | Some n => funcToInvoke (getT n)
    | None => fail UndefinedBehaviour
    end) (visit (allNodes g)).

(** the dependences [print] writes: the first [maxEdges] of the sorted ones; the counter
    is a uint64_t that is compared before it is incremented *)
Definition printedEdges (g : DG) (maxEdges : nat) : M Heap (list Ptr) :=
  let* sortedDeps := sortDependences (allEdges g) in
  ret (take maxEdges sortedDeps).
End scc.
