(* ===== verification/SCCSpec.v ===== *)
(** * What the constructor of [SCC] builds, and what [hasCycle] decides *)
From S2P Require Import Prelude DGEdge DGNode DGBase DGInvariant DGSpec DGQuery DGCopy PDGSpec SCC.

(** the fields of a graph that creating an edge leaves alone *)
Definition same_nodes (g g' : DG) : Prop :=
  internalNodeMap g' = internalNodeMap g ∧ externalNodeMap g' = externalNodeMap g ∧
  allNodes g' = allNodes g ∧ entryNode g' = entryNode g.

Section scc.
Context {IO : IterOrder}.

(** ** Construction *)

Lemma copyEdgesOf_run h0 g0 other end_ keep es m s :
  wf h0 g0 → copying h0 g0 m s → es ⊆ allEdges g0 →
  (∀ x h z, hnodes h !! end_ x = Some z → other x h = Ok (h, theT z)) →
  (∀ e x, e ∈ allEdges g0 → hedges h0 !! e = Some x → end_ x ∈ allNodes g0) →
  (∀ g' t, same_nodes s.2 g' → keep g' t = keep s.2 t) →
  (∀ e x z v, e ∈ es → hedges h0 !! e = Some x → hnodes h0 !! end_ x = Some z →
     edge_view h0 g0 e = Some v → keep s.2 (theT z) = true →
     m !! e = None ∧ copyable h0 e ∧ (∃ n, node_of s.2 (a_src v) n) ∧ (∃ n, node_of s.2 (a_dst v) n)) →
  wp (copyEdgesOf other keep es) (λ _ s', ∃ m', copying h0 g0 m' s' ∧ same_nodes s.2 s'.2 ∧
    (nextAddr s.1 ≤ nextAddr s'.1)%positive ∧
    ∀ e, is_Some (m' !! e) ↔ is_Some (m !! e) ∨ (e ∈ es ∧ ∃ x z, hedges h0 !! e = Some x ∧
      hnodes h0 !! end_ x = Some z ∧ keep s.2 (theT z) = true)) s.
Proof.
  intros W0 C Hes Hother Hend Hkeep Hcopy. unfold copyEdgesOf.
  eapply wp_mono; [apply (wp_forM _ (λ pre _ s', ∃ m', copying h0 g0 m' s' ∧
    same_nodes s.2 s'.2 ∧ (nextAddr s.1 ≤ nextAddr s'.1)%positive ∧
    ∀ e, is_Some (m' !! e) ↔ is_Some (m !! e) ∨ (e ∈ pre ∧ ∃ x z, hedges h0 !! e = Some x ∧
      hnodes h0 !! end_ x = Some z ∧ keep s.2 (theT z) = true)))|].
  - exists m. split; [done|]. split; [done|]. split; [done|]. set_solver.
  - intros pre e post s' Hl (m' & C' & (Ei & Ee & En & Et) & Hnx & Hm').
    destruct (visit_split _ _ _ _ Hl) as (He & Hpre & _ & _).
    pose proof (Hes e He) as Heg.
    destruct (wf_edge _ _ W0 e Heg) as (x & Hx & Hf & Ht).
    destruct (wf_node _ _ W0 (end_ x)) as (z & Hz & _); [by eapply Hend|].
    destruct (edge_view_live _ _ _ _ W0 Heg Hx) as (a & b & _ & _ & _ & _ & Hv).
    dg_steps. exists x. split; [by apply (cp_edges _ _ _ _ C')|]. dg_step. dg_step.
    unfold wp at 1. rewrite (Hother x s'.1 z).
    2:{ destruct (cp_nodes _ _ _ _ C' (end_ x)) as [-> _]; eauto. }
    dg_step. dg_step. destruct s' as [h' g']. cbn [fst snd] in *.
    rewrite (Hkeep g') by done. destruct (keep s.2 (theT z)) eqn:Hk.
    + dg_step. destruct (Hcopy e x z _ He Hx Hz Hv Hk) as (Hm & Hcp & Hs & Hd).
      assert (m' !! e = None) as Hme.
      { apply eq_None_not_Some. intros [Hc|[Hc _]]%Hm'; [|done].
        rewrite Hm in Hc. by destruct Hc. }
      eapply wp_mono.
      { apply (copyAddEdge_copying h0 g0 m' h' g' e _ C' W0 Heg Hme Hcp Hv);
          unfold node_of in *; by rewrite Ei, Ee. }
      intros e' s'' (C'' & Ei' & Ee' & _ & Et' & En' & Hnx'). dg_step.
      exists (<[e := e']> m'). split; [done|].
      split; [unfold same_nodes; repeat split; congruence|]. split; [lia|].
      intros e1. destruct (decide (e1 = e)) as [->|Hne].
      * rewrite lookup_insert_eq, elem_of_snoc. split; [|eauto]. intros _. right. eauto 10.
      * rewrite lookup_insert_ne, Hm', elem_of_snoc by done. tauto.
    + apply wp_ret. exists m'. split; [done|]. split; [done|]. split; [done|].
      intros e1. rewrite Hm', elem_of_snoc. split; [tauto|].
      intros [?|[[?| ->] (x1 & z1 & Hx1 & Hz1 & Hk1)]]; [by left|right; eauto 10|].
      simplify_eq. congruence.
  - intros [] s' (m' & C' & Hs & Hnx & Hm'). exists m'. do 3 (split; [done|]).
    intros e. rewrite Hm', elem_of_visit. done.
Qed.

Lemma addNodes_run h0 g0 b ns s :
  wf h0 g0 → copying h0 g0 ∅ s → (nextAddr h0 ≤ nextAddr s.1)%positive → NoDup ns →
  (∀ n, n ∈ ns → n ∈ allNodes g0) →
  (∀ n t n', n ∈ ns → node_of g0 t n → ¬ node_of s.2 t n') →
  (nodeIdCounter s.2 + Z.of_nat (length ns) ≤ int32_max)%Z →
  wp (forM (λ node, let* n := on_heap (load_node node) in addNode (getT n) b ;;; ret tt) ns)
    (λ _ s', copying h0 g0 ∅ s' ∧ (nextAddr h0 ≤ nextAddr s'.1)%positive ∧
       nodeIdCounter s'.2 = (nodeIdCounter s.2 + Z.of_nat (length ns))%Z ∧
       (∀ t, internal_value s'.2 t ↔ internal_value s.2 t ∨
          (b = true ∧ ∃ n, n ∈ ns ∧ node_of g0 t n)) ∧
       (∀ t, external_value s'.2 t ↔ external_value s.2 t ∨
          (b = false ∧ ∃ n, n ∈ ns ∧ node_of g0 t n))) s.
Proof.
  intros W0 C Hnx Hnd Hns Hnew Hcap.
  apply (wp_forM _ (λ pre _ s', copying h0 g0 ∅ s' ∧ (nextAddr h0 ≤ nextAddr s'.1)%positive ∧
       nodeIdCounter s'.2 = (nodeIdCounter s.2 + Z.of_nat (length pre))%Z ∧
       (∀ t, internal_value s'.2 t ↔ internal_value s.2 t ∨
          (b = true ∧ ∃ n, n ∈ pre ∧ node_of g0 t n)) ∧
       (∀ t, external_value s'.2 t ↔ external_value s.2 t ∨
          (b = false ∧ ∃ n, n ∈ pre ∧ node_of g0 t n)))).
  { split; [done|]. split; [done|]. split; [simpl; lia|]. set_solver. }
  intros pre n post [h' g'] -> (C' & Hnx' & Hc & Hi & He). cbn [fst snd] in *.
  assert (n ∈ allNodes g0) as Hn by (apply Hns; set_solver).
  destruct (wf_node _ _ W0 n Hn) as (x & Hx & HT).
  apply NoDup_app in Hnd as (_ & Hnd & _). rewrite length_app in Hcap. simpl in Hcap.
  dg_steps. exists x. split; [exact (eq_trans (proj1 (cp_nodes _ _ _ _ C' n (mk_is_Some _ _ Hx))) Hx)|]. dg_step.
  eapply wp_mono.
  { apply (addNode_copying h0 g0 ∅ (h', g') (theT x) b W0 C' Hnx'); [simpl; lia|]. intros n' Hn'.
    assert (∃ n', node_of g' (theT x) n') as Hv by eauto. apply node_of_values in Hv.
    rewrite Hi, He in Hv.
    assert ((∃ n', node_of s.2 (theT x) n') ∨ ∃ m, m ∈ pre ∧ node_of g0 (theT x) m) as [[m Hm]|(m & Hm & HTm)].
    { rewrite node_of_values. naive_solver. }
    - apply (Hnew n (theT x) m); try done. set_solver.
    - pose proof (wf_node_of_inj _ _ _ _ _ W0 HT HTm) as <-. apply (Hnd n Hm). set_solver. }
  intros n' s'' (C'' & Hnx'' & Hc' & _ & Hi' & He' & _). dg_step.
  split; [done|]. split; [done|]. cbn [fst snd] in *. split; [rewrite length_app; simpl; lia|].
  assert (∀ t, (∃ m, m ∈ pre ++ [n] ∧ node_of g0 t m) ↔
    (∃ m, m ∈ pre ∧ node_of g0 t m) ∨ t = theT x) as Happ.
  { intros t. split.
    - intros (m & Hm & Ht). apply elem_of_app in Hm as [?|Hm]; [left; eauto|right].
      apply list_elem_of_singleton in Hm as ->. symmetry. by eapply node_of_inv.
    - intros [(m & ? & ?)| ->]; [exists m; set_solver|exists n; set_solver]. }
  split; intros t; [rewrite Hi', Hi, Happ|rewrite He', He, Happ]; clear; tauto.
Qed.

(** [n] is outside [I] and an edge connects it to a node of [I] *)
Definition borders (h0 : Heap) (g0 : DG) (I : gset Ptr) (n : Ptr) : Prop :=
  n ∉ I ∧ ∃ e y, e ∈ allEdges g0 ∧ hedges h0 !! e = Some y ∧
    ((from y ∈ I ∧ to y = n) ∨ (to y ∈ I ∧ from y = n)).

Lemma value_in h0 g0 (I V : gset Ptr) n x :
  wf h0 g0 → I ⊆ allNodes g0 → (∀ t, t ∈ V ↔ ∃ n, n ∈ I ∧ node_of g0 t n) →
  n ∈ allNodes g0 → hnodes h0 !! n = Some x → theT x ∈ V ↔ n ∈ I.
Proof.
  intros W0 HI HV Hn Hx. rewrite HV. pose proof (wf_node_of_T _ _ _ _ W0 Hn Hx) as HT. split.
  - intros (m & Hm & HTm). by rewrite (wf_node_of_inj _ _ _ _ _ W0 HT HTm).
  - eauto.
Qed.

Lemma outsideNeighbours_run h0 g0 other end_ (I V es : gset Ptr) :
  wf h0 g0 → I ⊆ allNodes g0 → (∀ t, t ∈ V ↔ ∃ n, n ∈ I ∧ node_of g0 t n) →
  es ⊆ allEdges g0 →
  (∀ x z, hnodes h0 !! end_ x = Some z → other x h0 = Ok (h0, theT z)) →
  (∀ e x, e ∈ allEdges g0 → hedges h0 !! e = Some x → end_ x ∈ allNodes g0) →
  ∃ l, outsideNeighbours other end_ V es h0 = Ok (h0, l) ∧
    ∀ n, n ∈ l ↔ n ∉ I ∧ ∃ e y, e ∈ es ∧ hedges h0 !! e = Some y ∧ end_ y = n.
Proof.
  intros W0 HI HV Hes Hother Hend.
  enough (wp (outsideNeighbours other end_ V es) (λ l h, h = h0 ∧
    ∀ n, n ∈ l ↔ n ∉ I ∧ ∃ e y, e ∈ es ∧ hedges h0 !! e = Some y ∧ end_ y = n) h0) as H.
  { apply wp_ok in H as (h & l & -> & -> & H). eauto. }
  unfold outsideNeighbours. apply wp_bind.
  apply (wp_mapM_rel _ (λ e o, ∃ y, hedges h0 !! e = Some y ∧
    o = if decide (end_ y ∈ I) then None else Some (end_ y))).
  - intros e He%elem_of_visit. destruct (wf_edge _ _ W0 e) as (y & Hy & _); [set_solver|].
    assert (end_ y ∈ allNodes g0) as Hn by (eapply Hend; [apply Hes, He|done]).
    destruct (wf_node _ _ W0 _ Hn) as (z & Hz & _).
    eexists. split.
    + unfold bind, load_edge, deref. rewrite Hy. unfold ret. rewrite (Hother _ _ Hz). done.
    + exists y. split; [done|].
      pose proof (value_in h0 g0 I V (end_ y) z W0 HI HV Hn Hz). repeat case_decide; tauto.
  - intros ys Hys. apply wp_ret. split; [done|]. intros n. rewrite list_elem_of_omap. split.
    + intros (o & Ho & Hid). unfold id in Hid. subst o.
      apply list_elem_of_lookup in Ho as [k Hk].
      destruct (Forall2_lookup_r _ _ _ _ _ Hys Hk) as (e & He & y & Hy & Hif).
      apply list_elem_of_lookup_2, elem_of_visit in He. case_decide; [done|]. simplify_eq.
      split; [done|]. eauto.
    + intros (HnI & e & y & He & Hy & <-). apply elem_of_visit in He.
      apply list_elem_of_lookup in He as [k Hk].
      destruct (Forall2_lookup_l _ _ _ _ _ Hys Hk) as (o & Ho & y' & Hy' & ->). simplify_eq.
      rewrite decide_False in Ho by done. eexists. split; [by eapply list_elem_of_lookup_2|done].
Qed.

(** the nodes of the new component: those of [I] inside, their neighbours outside *)
Record populated (h0 : Heap) (g0 : DG) (I : gset Ptr) (g : DG) : Prop := {
  pop_internal t : internal_value g t ↔ ∃ n, n ∈ I ∧ node_of g0 t n;
  pop_external t : external_value g t ↔ ∃ n, borders h0 g0 I n ∧ node_of g0 t n
}.

(** the edges between a node whose edges have been copied and ... *)
Definition linked (h0 : Heap) (g0 : DG) (P : DGEdge → Prop) (e : Ptr) : Prop :=
  e ∈ allEdges g0 ∧ ∃ y, hedges h0 !! e = Some y ∧ P y.

Lemma borders_in h0 g0 I n : wf h0 g0 → borders h0 g0 I n → n ∈ allNodes g0.
Proof.
  intros W0 (_ & e & y & He & Hy & Hends). destruct (wf_edge _ _ W0 e He) as (y' & ? & ? & ?).
  naive_solver.
Qed.

(** one pass over an adjacency set of the node [n] of [I]; [d] tells whether the copied
    edges are those to the nodes inside ([true]) or outside ([false]) *)
Lemma copyEdgesOf_pass h0 g0 (I : gset Ptr) other near end_ keep (d : bool) n es m s :
  wf h0 g0 → I ⊆ allNodes g0 → n ∈ I → copying h0 g0 m s → populated h0 g0 I s.2 →
  (∀ e, e ∈ es ↔ linked h0 g0 (λ y, near y = n) e) →
  (near = from ∧ end_ = to ∨ near = to ∧ end_ = from) →
  (∀ x h z, hnodes h !! end_ x = Some z → other x h = Ok (h, theT z)) →
  (∀ g t, keep g t = if d then negb (isExternal g t) else negb (isInternal g t)) →
  (∀ e, linked h0 g0 (λ y, near y = n) e → copyable h0 e) →
  (∀ e, linked h0 g0 (λ y, near y = n ∧ (end_ y ∈ I ↔ d = true)) e → m !! e = None) →
  wp (copyEdgesOf other keep es) (λ _ s', ∃ m', copying h0 g0 m' s' ∧ same_nodes s.2 s'.2 ∧
    (nextAddr s.1 ≤ nextAddr s'.1)%positive ∧
    ∀ e, is_Some (m' !! e) ↔ is_Some (m !! e) ∨
       linked h0 g0 (λ y, near y = n ∧ (end_ y ∈ I ↔ d = true)) e) s.
Proof.
  intros W0 HI Hn C P Hes Hdir Hother Hkeep Hcp Hm. pose proof (cp_wf _ _ _ _ C) as W.
  assert (∀ e x, e ∈ allEdges g0 → hedges h0 !! e = Some x →
    near x ∈ allNodes g0 ∧ end_ x ∈ allNodes g0) as Hends.
  { intros e x He Hx. destruct (wf_edge _ _ W0 e He) as (x' & ? & ? & ?). naive_solver. }
  assert (∀ e x z, linked h0 g0 (λ y, near y = n) e → hedges h0 !! e = Some x →
    hnodes h0 !! end_ x = Some z → keep s.2 (theT z) = true ↔ (end_ x ∈ I ↔ d = true)) as Hk.
  { intros e x z (He & y & Hy & Hnear) Hx Hz. assert (y = x) as -> by congruence.
    destruct (Hends e x He Hx) as [_ Hend].
    pose proof (wf_node_of_T _ _ _ _ W0 Hend Hz) as HT.
    assert (∀ Q : Ptr → Prop, (∃ m, Q m ∧ node_of g0 (theT z) m) ↔ Q (end_ x)) as Huniq.
    { intros Q. split; [|eauto]. intros (m' & ? & HTm). by rewrite (wf_node_of_inj _ _ _ _ _ W0 HT HTm). }
    rewrite Hkeep. destruct d.
    - rewrite negb_true_iff, <- not_true_iff_false.
      rewrite (external_value_isExternal _ _ (cp_phantom _ _ _ _ C)).
      rewrite (pop_external _ _ _ _ P), (Huniq (borders h0 g0 I)).
      unfold borders. split; [|naive_solver]. intros Hb. split; [done|]. intros _.
      destruct (decide (end_ x ∈ I)) as [|HnI]; [done|]. destruct Hb. split; [done|].
      exists e, x. split; [done|]. split; [done|]. destruct Hdir as [[-> ->]|[-> ->]]; rewrite Hnear; eauto.
    - rewrite negb_true_iff, <- not_true_iff_false, (internal_value_isInternal _ _ _ W).
      rewrite (pop_internal _ _ _ _ P), (Huniq (λ m, m ∈ I)). naive_solver. }
  eapply wp_mono; [apply (copyEdgesOf_run h0 g0 other end_ keep es m s W0 C)|].
  - intros e He. by apply Hes in He as [? _].
  - done.
  - intros e x He Hx. by apply (Hends e x).
  - intros g' t (Ei & Ee & _). rewrite !Hkeep. unfold isExternal, isInternal. by rewrite Ei, Ee.
  - intros e x z v He Hx Hz Hv Hkp. apply Hes in He as Hl. apply (Hk e x z Hl Hx Hz) in Hkp.
    destruct Hl as (Heg & y & Hy & Hnear). assert (y = x) as -> by congruence.
    assert (linked h0 g0 (λ y, near y = n) e) as Hl by (split; [done|]; eauto).
    split; [apply Hm; split; [done|]; eauto|]. split; [by apply Hcp|].
    destruct (edge_view_live _ _ _ _ W0 Heg Hx) as (a & b & Ha & Hb & Na & Nb & Hv').
    rewrite Hv in Hv'. simplify_eq/=. rewrite !node_of_values.
    rewrite !(pop_internal _ _ _ _ P), !(pop_external _ _ _ _ P).
    assert (∀ w t, (w ∈ I ∨ borders h0 g0 I w) → node_of g0 t w →
      (∃ n, n ∈ I ∧ node_of g0 t n) ∨ ∃ n, borders h0 g0 I n ∧ node_of g0 t n) as Hval.
    { intros w t [?|?] Hw; [left|right]; eauto. }
    assert (∀ w, w = from x ∨ w = to x → w ∈ I ∨ borders h0 g0 I w) as Hin.
    { intros w Hw. destruct (decide (w ∈ I)) as [|HwI]; [by left|right]. split; [done|].
      exists e, x. split; [done|]. split; [done|]. destruct Hdir as [[-> ->]|[-> ->]]; naive_solver. }
    split; (eapply Hval; [apply Hin|done]); auto.
  - intros _ s' (m' & C' & Hs & Hnx & Hm'). exists m'. do 3 (split; [done|]).
    intros e. rewrite Hm'. split; (intros [?|Hr]; [by left|right]).
    + destruct Hr as (He & x & z & Hx & Hz & Hkp). apply Hes in He as Hl.
      apply (Hk e x z Hl Hx Hz) in Hkp. destruct Hl as (Heg & y & Hy & Hnear). assert (y = x) as -> by congruence.
      split; [done|]. eauto.
    + destruct Hr as (Heg & y & Hy & Hnear & Hd).
      assert (linked h0 g0 (λ y, near y = n) e) as Hl by (split; [done|]; eauto).
      split; [by apply Hes|]. destruct (Hends e y Heg Hy) as [_ Hend].
      destruct (wf_node _ _ W0 _ Hend) as (z & Hz & _). exists y, z.
      split; [done|]. split; [done|]. by apply (Hk e y z).
Qed.

Lemma populated_same h0 g0 I g g' : same_nodes g g' → populated h0 g0 I g → populated h0 g0 I g'.
Proof.
  intros (Ei & Ee & _) [P1 P2]. split; intros t; unfold internal_value, external_value in *;
    rewrite ?Ei, ?Ee; auto.
Qed.
Lemma same_nodes_trans g1 g2 g3 : same_nodes g1 g2 → same_nodes g2 g3 → same_nodes g1 g3.
Proof. unfold same_nodes. intuition congruence. Qed.

Lemma getDst_run x h z : hnodes h !! to x = Some z → getDst x h = Ok (h, theT z).
Proof. intros Hz. unfold getDst, bind, load_node, deref. by rewrite Hz. Qed.
Lemma getSrc_run x h z : hnodes h !! from x = Some z → getSrc x h = Ok (h, theT z).
Proof. intros Hz. unfold getSrc, bind, load_node, deref. by rewrite Hz. Qed.

Lemma linked_iff h0 g0 P Q e : (∀ y, P y ↔ Q y) → linked h0 g0 P e ↔ linked h0 g0 Q e.
Proof. intros E. unfold linked. setoid_rewrite E. done. Qed.

Lemma out_linked h0 g0 n x e : wf h0 g0 → n ∈ allNodes g0 → hnodes h0 !! n = Some x →
  e ∈ outgoingEdges x ↔ linked h0 g0 (λ y, from y = n) e.
Proof. intros W0 Hn Hx. by rewrite (wf_out _ _ W0 n x e). Qed.
Lemma in_linked h0 g0 n x e : wf h0 g0 → n ∈ allNodes g0 → hnodes h0 !! n = Some x →
  e ∈ incomingEdges x ↔ linked h0 g0 (λ y, to y = n) e.
Proof. intros W0 Hn Hx. by rewrite (wf_in _ _ W0 n x e). Qed.

(** a loop over the nodes of [I] whose body extends the copied edges from [P pre] to
    [P (pre ++ [n])] *)
Lemma link_loop h0 g0 (I : gset Ptr) (P : list Ptr → DGEdge → Prop) body m s :
  wf h0 g0 → I ⊆ allNodes g0 → copying h0 g0 m s → populated h0 g0 I s.2 →
  (∀ e, is_Some (m !! e) ↔ linked h0 g0 (P []) e) →
  (∀ pre n x m s, n ∉ pre → (∀ k, k ∈ pre → k ∈ I) → n ∈ I → hnodes h0 !! n = Some x → copying h0 g0 m s →
     populated h0 g0 I s.2 → (∀ e, is_Some (m !! e) ↔ linked h0 g0 (P pre) e) →
     wp (body x) (λ _ s', ∃ m', copying h0 g0 m' s' ∧ same_nodes s.2 s'.2 ∧
       (nextAddr s.1 ≤ nextAddr s'.1)%positive ∧
       ∀ e, is_Some (m' !! e) ↔ linked h0 g0 (P (pre ++ [n])) e) s) →
  wp (forM (λ node, let* n := on_heap (load_node node) in body n) (visit I))
     (λ _ s', ∃ m', copying h0 g0 m' s' ∧ same_nodes s.2 s'.2 ∧
       (nextAddr s.1 ≤ nextAddr s'.1)%positive ∧
       ∀ e, is_Some (m' !! e) ↔ linked h0 g0 (P (visit I)) e) s.
Proof.
  intros W0 HI C Pop Hm Hbody.
  apply (wp_forM _ (λ pre _ s', ∃ m', copying h0 g0 m' s' ∧ same_nodes s.2 s'.2 ∧
    (nextAddr s.1 ≤ nextAddr s'.1)%positive ∧ ∀ e, is_Some (m' !! e) ↔ linked h0 g0 (P pre) e)).
  { exists m. split; [done|]. split; [done|]. by split. }
  intros pre n post [h' g'] Hl (m' & C' & Hs & Hnx & Hm').
  destruct (visit_split _ _ _ _ Hl) as (Hn & Hnp & HpI & _).
  destruct (wf_node _ _ W0 n (HI n Hn)) as (x & Hx & _).
  dg_steps. exists x.
  split; [exact (eq_trans (proj1 (cp_nodes _ _ _ _ C' n (mk_is_Some _ _ Hx))) Hx)|].
  eapply wp_mono;
    [exact (Hbody pre n x m' (h', g') Hnp HpI Hn Hx C' (populated_same _ _ _ _ _ Hs Pop) Hm')|].
  intros _ s'' (m'' & C'' & Hs' & Hnx' & Hm''). exists m''. split; [done|].
  split; [by eapply same_nodes_trans|]. split; [simpl in *; lia|done].
Qed.

(** the two loops of [copyNodesAndEdges] over the edges *)
Lemma link_internal h0 g0 (I : gset Ptr) s :
  wf h0 g0 → I ⊆ allNodes g0 → copying h0 g0 ∅ s → populated h0 g0 I s.2 →
  (∀ e, linked h0 g0 (λ y, from y ∈ I ∨ to y ∈ I) e → copyable h0 e) →
  wp (forM (λ node, let* n := on_heap (load_node node) in
        copyEdgesOf getDst (λ g t, negb (isExternal g t)) (outgoingEdges n)) (visit I))
     (λ _ s', ∃ m', copying h0 g0 m' s' ∧ same_nodes s.2 s'.2 ∧
       (nextAddr s.1 ≤ nextAddr s'.1)%positive ∧
       ∀ e, is_Some (m' !! e) ↔ linked h0 g0 (λ y, from y ∈ visit I ∧ to y ∈ I) e) s.
Proof.
  intros W0 HI C Pop Hcp.
  apply (link_loop h0 g0 I (λ pre y, from y ∈ pre ∧ to y ∈ I) _ ∅); try done.
  { intros e. rewrite lookup_empty. split; [by intros [? ?]|]. intros (_ & y & _ & Hy & _). set_solver. }
  intros pre n x m s' Hnp HpI Hn Hx C' Pop' Hm.
  eapply wp_mono.
  { apply (copyEdgesOf_pass h0 g0 I getDst from to _ true n _ m); try done.
    - intros e. by apply out_linked; [|apply HI|].
    - by left.
    - intros x' h z. apply getDst_run.
    - intros e (He & y & Hy & Hf). apply Hcp. split; [done|]. exists y. subst n. eauto.
    - intros e (He & y & Hy & Hf & _). apply eq_None_not_Some.
      intros (_ & y' & Hy' & Hf' & _)%Hm. assert (y' = y) as -> by congruence. subst n. done. }
  intros _ s'' (m' & C'' & Hs & Hnx & Hm'). exists m'. do 3 (split; [done|]).
  intros e. rewrite Hm', Hm. unfold linked. split.
  - intros [(He & y & Hy & Hf & Ht)|(He & y & Hy & Hf & Ht)]; (split; [done|]; exists y); set_solver.
  - intros (He & y & Hy & [Hf|Hf%list_elem_of_singleton]%elem_of_app & Ht);
      [left|right]; (split; [done|]; exists y); naive_solver.
Qed.

Lemma link_external h0 g0 (I : gset Ptr) m s :
  wf h0 g0 → I ⊆ allNodes g0 → copying h0 g0 m s → populated h0 g0 I s.2 →
  (∀ e, linked h0 g0 (λ y, from y ∈ I ∨ to y ∈ I) e → copyable h0 e) →
  (∀ e, is_Some (m !! e) ↔ linked h0 g0 (λ y, from y ∈ I ∧ to y ∈ I) e) →
  wp (forM (λ node, let* n := on_heap (load_node node) in
        copyEdgesOf getDst (λ g t, negb (isInternal g t)) (outgoingEdges n) ;;;
        copyEdgesOf getSrc (λ g t, negb (isInternal g t)) (incomingEdges n)) (visit I))
     (λ _ s', ∃ m', copying h0 g0 m' s' ∧ same_nodes s.2 s'.2 ∧
       (nextAddr s.1 ≤ nextAddr s'.1)%positive ∧
       ∀ e, is_Some (m' !! e) ↔ linked h0 g0 (λ y, (from y ∈ I ∧ to y ∈ I) ∨
         (from y ∈ visit I ∧ to y ∉ I) ∨ (to y ∈ visit I ∧ from y ∉ I)) e) s.
Proof.
  intros W0 HI C Pop Hcp Hm0.
  apply (link_loop h0 g0 I (λ pre y, (from y ∈ I ∧ to y ∈ I) ∨
    (from y ∈ pre ∧ to y ∉ I) ∨ (to y ∈ pre ∧ from y ∉ I))
    (λ n, copyEdgesOf getDst (λ g t, negb (isInternal g t)) (outgoingEdges n) ;;;
          copyEdgesOf getSrc (λ g t, negb (isInternal g t)) (incomingEdges n)) m); try done.
  { intros e. rewrite Hm0. apply linked_iff. set_solver. }
  intros pre n x m1 s' Hnp HpI Hn Hx C' Pop' Hm. apply wp_bind. eapply wp_mono.
  { apply (copyEdgesOf_pass h0 g0 I getDst from to _ false n _ m1); try done.
    - intros e. by apply out_linked; [|apply HI|].
    - by left.
    - intros x' h z. apply getDst_run.
    - intros e (He & y & Hy & Hf). apply Hcp. split; [done|]. exists y. subst n. eauto.
    - intros e (He & y & Hy & Hf & Ht). apply eq_None_not_Some.
      intros (_ & y' & Hy' & Hc)%Hm. assert (y' = y) as -> by congruence. subst n.
      assert (¬ to y ∈ I) by naive_solver. naive_solver. }
  intros _ s2 (m2 & C2 & Hs2 & Hnx2 & Hm2). eapply wp_mono.
  { apply (copyEdgesOf_pass h0 g0 I getSrc to from _ false n _ m2); try done.
    - by eapply populated_same.
    - intros e. by apply in_linked; [|apply HI|].
    - by right.
    - intros x' h z. apply getSrc_run.
    - intros e (He & y & Hy & Hf). apply Hcp. split; [done|]. exists y. subst n. eauto.
    - intros e (He & y & Hy & Hf & Ht). assert (¬ from y ∈ I) by naive_solver.
      apply eq_None_not_Some. subst n.
      intros [(_ & y' & Hy' & Hc)%Hm|(_ & y' & Hy' & Hc)]%Hm2;
        assert (y' = y) as -> by congruence; naive_solver. }
  intros _ s3 (m3 & C3 & Hs3 & Hnx3 & Hm3). exists m3. split; [done|].
  split; [by eapply same_nodes_trans|]. split; [lia|].
  assert (false ≠ true) as Hft by done.
  intros e. rewrite Hm3, Hm2, Hm. unfold linked. split.
  - intros [[(He & y & Hy & Hc)|(He & y & Hy & Hf & Hc)]|(He & y & Hy & Hf & Hc)];
      (split; [done|]; exists y; split; [done|]); rewrite !elem_of_snoc; tauto.
  - intros (He & y & Hy & Hc). rewrite !elem_of_app, !list_elem_of_singleton in Hc.
    destruct Hc as [Hc|[[[Hf|Hf] Hc]|[[Hf|Hf] Hc]]].
    + left. left. split; [done|]. exists y. tauto.
    + left. left. split; [done|]. exists y. tauto.
    + left. right. split; [done|]. exists y. naive_solver.
    + left. left. split; [done|]. exists y. tauto.
    + right. split; [done|]. exists y. naive_solver.
Qed.

(** the nodes that border [I], as the constructor collects them *)
Lemma borders_collected h0 g0 (I V : gset Ptr) :
  wf h0 g0 → I ⊆ allNodes g0 → (∀ t, t ∈ V ↔ ∃ n, n ∈ I ∧ node_of g0 t n) →
  wp (mapM (λ node,
    let* n := load_node node in
    let* a := outsideNeighbours getDst getDstNode V (outgoingEdges n) in
    let* b := outsideNeighbours getSrc getSrcNode V (incomingEdges n) in
    ret (a ++ b)) (visit I))
    (λ ls h, h = h0 ∧ ∀ n, n ∈ concat ls ↔ borders h0 g0 I n) h0.
Proof.
  intros W0 HI HV.
  assert (∀ e x, e ∈ allEdges g0 → hedges h0 !! e = Some x →
    from x ∈ allNodes g0 ∧ to x ∈ allNodes g0) as Hends.
  { intros e x He Hx. destruct (wf_edge _ _ W0 e He) as (x' & ? & ? & ?). naive_solver. }
  apply (wp_mapM_rel _ (λ n l, ∀ k, k ∈ l ↔ k ∉ I ∧ ∃ e y, e ∈ allEdges g0 ∧
    hedges h0 !! e = Some y ∧ ((from y = n ∧ to y = k) ∨ (to y = n ∧ from y = k)))).
  - intros n Hn%elem_of_visit. destruct (wf_node _ _ W0 n) as (x & Hx & _); [set_solver|].
    destruct (outsideNeighbours_run h0 g0 getDst getDstNode I V (outgoingEdges x)) as (a & Ha & Ea);
      try done.
    { intros e He. by apply (wf_out _ _ W0 n x e) in He as [? _]; [|apply HI|]. }
    { intros y z. apply getDst_run. }
    { intros e y He Hy. by apply (Hends e y). }
    destruct (outsideNeighbours_run h0 g0 getSrc getSrcNode I V (incomingEdges x)) as (b & Hb & Eb);
      try done.
    { intros e He. by apply (wf_in _ _ W0 n x e) in He as [? _]; [|apply HI|]. }
    { intros y z. apply getSrc_run. }
    { intros e y He Hy. by apply (Hends e y). }
    exists (a ++ b). split.
    + unfold bind, load_node, deref. rewrite Hx. unfold ret. rewrite Ha, Hb. done.
    + intros k. rewrite elem_of_app, Ea, Eb.
      setoid_rewrite (λ e, out_linked h0 g0 n x e W0 (HI n Hn) Hx).
      setoid_rewrite (λ e, in_linked h0 g0 n x e W0 (HI n Hn) Hx).
      unfold linked, getDstNode, getSrcNode. split.
      * intros [(Hk & e & y & (He & y' & Hy' & Hf) & Hy & Ht)|(Hk & e & y & (He & y' & Hy' & Hf) & Hy & Ht)];
          assert (y' = y) as -> by congruence; (split; [done|]; exists e, y; tauto).
      * intros (Hk & e & y & He & Hy & [[? ?]|[? ?]]); [left|right];
          (split; [done|]; exists e, y; split; [split; [done|]; eauto|done]).
  - intros ls Hls. split; [done|]. intros k. rewrite list_elem_of_In, in_concat. split.
    + intros (l & Hl & Hk). apply list_elem_of_In in Hl. apply list_elem_of_In in Hk.
      apply list_elem_of_lookup in Hl as [i Hl].
      destruct (Forall2_lookup_r _ _ _ _ _ Hls Hl) as (n & Hn & Hiff).
      apply list_elem_of_lookup_2, elem_of_visit in Hn.
      destruct (proj1 (Hiff k) Hk) as (HkI & e & y & He & Hy & Hc).
      split; [done|]. exists e, y. naive_solver.
    + intros (HkI & e & y & He & Hy & Hc).
      assert (∃ n, n ∈ I ∧ ((from y = n ∧ to y = k) ∨ (to y = n ∧ from y = k))) as (n & Hn & Hc').
      { destruct Hc as [[? ?]|[? ?]]; eauto. }
      apply elem_of_visit, list_elem_of_lookup in Hn as [i Hn].
      destruct (Forall2_lookup_l _ _ _ _ _ Hls Hn) as (l & Hl & Hiff).
      exists l. split; apply list_elem_of_In; [by eapply list_elem_of_lookup_2|].
      apply Hiff. split; [done|]. eauto.
Qed.

Lemma copyNodesAndEdges_run h0 g0 (I X : gset Ptr) :
  wf h0 g0 → I ⊆ allNodes g0 → I ≠ ∅ → (∀ n, n ∈ X ↔ borders h0 g0 I n) →
  (∀ e, linked h0 g0 (λ y, from y ∈ I ∨ to y ∈ I) e → copyable h0 e) →
  (Z.of_nat (numNodes g0) ≤ int32_max)%Z →
  wp (copyNodesAndEdges I X)
     (λ _ s', ∃ m, subgraph h0 g0 (λ t, ∃ n, n ∈ I ∧ node_of g0 t n) true ∅
                     (λ e, e ∈ allEdges g0) m s') (h0, DG_new).
Proof.
  intros W0 HI Hne HX Hcp Hcap.
  assert (X ⊆ allNodes g0) as HXg by (intros n ?%HX; by eapply borders_in).
  assert (X ## I) as Hdis by (intros n [? _]%HX; done).
  assert (size I + size X ≤ numNodes g0) as Hsize.
  { rewrite <- size_union by set_solver. unfold numNodes. apply subseteq_size. set_solver. }
  unfold copyNodesAndEdges. dg_step. eapply wp_mono.
  { apply (addNodes_run h0 g0 true (visit I) _ W0); simpl; try done.
    - apply copying_start; simpl; first [done | apply DG_new_wf, W0 | set_solver].
    - apply NoDup_visit.
    - intros n ?%elem_of_visit. set_solver.
    - intros n t n' _ _ [H|H]; simpl in H; by rewrite lookup_empty in H.
    - rewrite length_visit. lia. }
  intros [] s1 (C1 & Hnx1 & Hc1 & Hi1 & He1). dg_step. eapply wp_mono.
  { apply (addNodes_run h0 g0 false (visit X) s1 W0 C1 Hnx1).
    - apply NoDup_visit.
    - intros n ?%elem_of_visit. set_solver.
    - intros n t n' Hn%elem_of_visit HT Hn'.
      assert (∃ k, node_of s1.2 t k) as Hv by eauto. apply node_of_values in Hv.
      rewrite Hi1, He1 in Hv. unfold internal_value, external_value in Hv. simpl in Hv.
      setoid_rewrite lookup_empty in Hv.
      destruct Hv as [[[? ?]|[_ (k & Hk%elem_of_visit & HTk)]]|[[? ?]|[? _]]]; try done.
      rewrite (wf_node_of_inj _ _ _ _ _ W0 HT HTk) in Hn. set_solver.
    - rewrite length_visit. rewrite Hc1, length_visit. simpl. lia. }
  intros [] s2 (C2 & Hnx2 & Hc2 & Hi2 & He2). destruct s2 as [h2 g2]. cbn [fst snd] in *.
  assert (populated h0 g0 I g2) as Pop.
  { split; intros t.
    - rewrite Hi2, Hi1. setoid_rewrite elem_of_visit. unfold internal_value. simpl.
      setoid_rewrite lookup_empty. naive_solver.
    - rewrite He2, He1. setoid_rewrite elem_of_visit. setoid_rewrite HX.
      unfold external_value. simpl. setoid_rewrite lookup_empty. naive_solver. }
  dg_steps. destruct (visit (allNodes g2)) as [|entry ns] eqn:Hv.
  { apply visit_nil_inv in Hv. apply set_choose_L in Hne as [n Hn].
    destruct (wf_node _ _ W0 n) as (x & Hx & HT); [set_solver|].
    destruct (proj2 (pop_internal _ _ _ _ Pop (theT x))) as [k Hk]; [eauto|].
    destruct (wf_map _ _ (cp_wf _ _ _ _ C2) _ _ (or_introl Hk)) as [Hin _].
    simpl in Hin. set_solver. }
  apply wp_deref. exists entry. split; [done|]. dg_steps.
  assert (copying h0 g0 ∅ (h2, setEntryNode (Some entry) g2)) as C3.
  { destruct C2 as [D1 D2 D3 D4 D5 D6 D7]. split; simpl in *; try done. by apply setEntryNode_wf. }
  assert (populated h0 g0 I (setEntryNode (Some entry) g2)) as Pop3.
  { destruct Pop as [P1 P2]. split; [exact P1|exact P2]. }
  eapply wp_mono.
  { by apply (link_internal h0 g0 I (h2, setEntryNode (Some entry) g2)). }
  intros [] s4 (m4 & C4 & Hs4 & Hnx4 & Hm4). simpl in *. eapply wp_mono.
  { apply (link_external h0 g0 I m4 s4); try done; [by eapply populated_same|].
    intros e. rewrite Hm4. apply linked_iff. intros y. by rewrite elem_of_visit. }
  intros [] s5 (m5 & C5 & Hs5 & Hnx5 & Hm5). exists m5.
  assert (populated h0 g0 I s5.2) as Pop5.
  { eapply populated_same, Pop3. eapply same_nodes_trans, Hs5. by eapply same_nodes_trans, Hs4. }
  assert (∀ e, is_Some (m5 !! e) ↔ linked h0 g0 (λ y, from y ∈ I ∨ to y ∈ I) e) as Hm.
  { intros e. rewrite Hm5. apply linked_iff. intros y. rewrite !elem_of_visit.
    destruct (decide (from y ∈ I)), (decide (to y ∈ I)); tauto. }
  assert (∀ w t, node_of g0 t w → (∃ n, n ∈ I ∧ node_of g0 t n) ↔ w ∈ I) as Huniq.
  { intros w t Hw. split; [|eauto]. intros (n & Hn & HTn).
    by rewrite (wf_node_of_inj _ _ _ _ _ W0 Hw HTn). }
  split; [done|simpl in *; lia|apply Pop5| |].
  - intros e. rewrite Hm. split.
    + intros (He & y & Hy & Hor). split; [done|]. split; [set_solver|].
      destruct (edge_view_live _ _ _ _ W0 He Hy) as (a & b & _ & _ & Na & Nb & Hv').
      eexists. split; [exact Hv'|]. simpl. rewrite (Huniq _ _ Na), (Huniq _ _ Nb). done.
    + intros (He & _ & v & Hv' & Hor & _). split; [done|].
      destruct (wf_edge _ _ W0 e He) as (y & Hy & _). exists y. split; [done|].
      destruct (edge_view_live _ _ _ _ W0 He Hy) as (a & b & _ & _ & Na & Nb & Hv'').
      rewrite Hv' in Hv''. simplify_eq/=. by rewrite (Huniq _ _ Na), (Huniq _ _ Nb) in Hor.
  - intros t. rewrite (pop_external _ _ _ _ Pop5). split.
    + intros (n & (HnI & e & y & He & Hy & Hc) & HT). split; [by rewrite (Huniq _ _ HT)|].
      destruct (edge_view_live _ _ _ _ W0 He Hy) as (a & b & Ha & Hb & Na & Nb & Hv').
      exists e, (mkAEdge (theT a) (theT b) (kind y) (dataDepType y)).
      split; [apply Hm; split; [done|]; exists y; naive_solver|]. split; [done|]. simpl.
      destruct Hc as [[_ <-]|[_ <-]]; [right|left]; symmetry; by eapply node_of_inv.
    + intros (Hno & e & v & (He & y & Hy & Hor)%Hm & Hv' & Ht).
      destruct (edge_view_live _ _ _ _ W0 He Hy) as (a & b & _ & _ & Na & Nb & Hv'').
      rewrite Hv' in Hv''. simplify_eq/=.
      destruct Ht as [-> | ->]; [rewrite (Huniq _ _ Na) in Hno|rewrite (Huniq _ _ Nb) in Hno];
        eexists; (split; [split; [exact Hno|]|done]); exists e, y; naive_solver.
Qed.

Lemma SCC_new_run h0 g0 (I : gset Ptr) :
  wf h0 g0 → I ⊆ allNodes g0 → I ≠ ∅ →
  (∀ e, linked h0 g0 (λ y, from y ∈ I ∨ to y ∈ I) e → copyable h0 e) →
  (Z.of_nat (numNodes g0) ≤ int32_max)%Z →
  wp (SCC_new I)
     (λ _ s', ∃ m, subgraph h0 g0 (λ t, ∃ n, n ∈ I ∧ node_of g0 t n) true ∅
                     (λ e, e ∈ allEdges g0) m s') (h0, DG_new).
Proof.
  intros W0 HI Hne Hcp Hcap. unfold SCC_new. dg_steps.
  apply (wp_mapM_rel _ (λ n t, node_of g0 t n)).
  { intros n Hn%elem_of_visit. destruct (wf_node _ _ W0 n) as (x & Hx & HT); [set_solver|].
    exists (theT x). split; [|done]. unfold bind, load_node, deref. by rewrite Hx. }
  intros vals Hvals. dg_steps.
  assert (∀ t, t ∈ (list_to_set vals : gset Ptr) ↔ ∃ n, n ∈ I ∧ node_of g0 t n) as HV.
  { intros t. rewrite elem_of_list_to_set. split.
    - intros [k Hk]%list_elem_of_lookup. destruct (Forall2_lookup_r _ _ _ _ _ Hvals Hk) as (n & Hn & HT).
      exists n. split; [|done]. by eapply elem_of_visit, list_elem_of_lookup_2.
    - intros (n & Hn & HT). apply elem_of_visit, list_elem_of_lookup in Hn as [k Hk].
      destruct (Forall2_lookup_l _ _ _ _ _ Hvals Hk) as (t' & Ht' & HT').
      assert (t = t') as ->; [|by eapply list_elem_of_lookup_2].
      destruct (wf_map _ _ W0 _ _ HT) as (_ & x & Hx & <-). by eapply node_of_inv. }
  eapply wp_mono; [by apply (borders_collected h0 g0 I)|].
  intros ls h [-> Hls]. dg_steps. apply copyNodesAndEdges_run; try done.
  intros n. by rewrite elem_of_list_to_set.
Qed.
(** The constructor of SCC: from a non-empty set of nodes of a well-formed graph it
    builds a well-formed graph whose internal values are those of the nodes, whose edges
    are copies of exactly the edges that touch one of the nodes, each copied once with
    its ends, kind and type, and whose external values are the other ends of these edges.
    The graph the nodes come from is untouched. *)
Theorem SCC_new_spec h0 g0 (I : gset Ptr) :
  wf h0 g0 → I ⊆ allNodes g0 → I ≠ ∅ →
  (∀ e, linked h0 g0 (λ y, from y ∈ I ∨ to y ∈ I) e → copyable h0 e) →
  (Z.of_nat (numNodes g0) ≤ int32_max)%Z →
  wp (SCC_new I)
     (λ _ s', ∃ m, subgraph h0 g0 (λ t, ∃ n, n ∈ I ∧ node_of g0 t n) true ∅
                     (λ e, e ∈ allEdges g0) m s') (h0, DG_new).
Proof. apply SCC_new_run. Qed.
End scc.
