(* ===== verification/SCCCycle.v ===== *)
(** * The cycle test of a component

    [SCC::hasCycle] never misses a cycle; it can report one where there is none. *)
From S2P Require Import Prelude DGEdge DGNode DGBase DGInvariant DGSpec DGQuery SCC.

(** the edges the test follows *)
Definition succ (h : Heap) (g : DG) (ignoreControlDep : bool) (n m : Ptr) : Prop :=
  ∃ e y, e ∈ allEdges g ∧ hedges h !! e = Some y ∧ from y = n ∧ to y = m ∧
    (ignoreControlDep = true → kind y ≠ CONTROL_DEPENDENCE).

(** [v] comes after [u] in [l] *)
Definition after (l : list Ptr) (u v : Ptr) : Prop := ∃ l1 l2, l = l1 ++ u :: l2 ∧ v ∈ l2.

Lemma after_app_r l k u v : after l u v → after (l ++ k) u v.
Proof. intros (l1 & l2 & -> & ?). exists l1, (l2 ++ k). split; [by rewrite <- (assoc_L _)|set_solver]. Qed.
Lemma after_app_l l k u v : after l u v → after (k ++ l) u v.
Proof. intros (l1 & l2 & -> & ?). exists (k ++ l1), l2. by rewrite <- (assoc_L _). Qed.

(** A relation whose edges all go forward in a list without duplicates has no cycle. *)
Lemma forward_acyclic (R : relation Ptr) l :
  NoDup l → (∀ u v, u ∈ l → R u v → after l u v) → ∀ u, u ∈ l → ¬ tc R u u.
Proof.
  intros Hnd Hf.
  assert (∀ u v, tc R u v → u ∈ l → ∃ i j, l !! i = Some u ∧ l !! j = Some v ∧ i < j) as Hlt.
  { assert (∀ u v, u ∈ l → R u v → ∃ i j, l !! i = Some u ∧ l !! j = Some v ∧ i < j) as H1.
    { intros u v Hu Huv. destruct (Hf u v Hu Huv) as (l1 & l2 & -> & Hv).
      apply list_elem_of_lookup in Hv as [k Hk]. exists (length l1), (length l1 + S k).
      split; [by rewrite list_lookup_middle|]. split; [|lia].
      rewrite lookup_app_r by lia. by replace (length l1 + S k - length l1) with (S k) by lia. }
    induction 1 as [x y Hxy|x y z Hxy Hyz IH]; intros Hx; [eauto|].
    destruct (H1 x y Hx Hxy) as (i & j & Hi & Hj & ?).
    destruct (IH (list_elem_of_lookup_2 _ _ _ Hj)) as (j' & k & Hj' & Hk & ?).
    pose proof (NoDup_lookup _ _ _ _ Hnd Hj Hj') as <-. exists i, k. split; [done|]. split; [done|lia]. }
  intros u Hu Huu. destruct (Hlt u u Huu Hu) as (i & j & Hi & Hj & ?).
  pose proof (NoDup_lookup _ _ _ _ Hnd Hi Hj). lia.
Qed.

Section cycle.
Context {IO : IterOrder}.
Implicit Types (h : Heap) (g : DG).

(** the search from one node: [old] are the nodes of earlier searches and [P] those
    already visited by this one *)
Record search_inv h g (b : bool) (old : list Ptr) (root : Ptr) (P : list Ptr) (c : CycleState)
    : Prop := {
  c_seen : nodesSeen c = list_to_set (P ++ nodesToVisit c);
  c_checked : nodesChecked c = list_to_set (P ++ nodesToVisit c ++ old);
  c_nodup : NoDup (P ++ nodesToVisit c ++ old);
  c_nodes n : n ∈ P ++ nodesToVisit c → n ∈ allNodes g;
  c_root : root ∈ P ++ nodesToVisit c;
  c_forward u v : u ∈ P → succ h g b u v → v ∈ old ∨ after (P ++ nodesToVisit c) u v
}.

Lemma cycleEdges_spec h g b checked seen queue es :
  wf h g → es ⊆ allEdges g → seen ⊆ checked →
  ∃ st, foldR (cycleEdge b h) (Some (mkCycle checked seen queue)) (visit es) = Ok st ∧
    (st = None ∨ ∃ new, st = Some (mkCycle (list_to_set new ∪ checked) (list_to_set new ∪ seen)
                                           (queue ++ new)) ∧
      NoDup new ∧ (∀ n, n ∈ new → n ∉ checked ∧ n ∈ allNodes g) ∧
      ∀ e y, e ∈ es → hedges h !! e = Some y → (b = true → kind y ≠ CONTROL_DEPENDENCE) →
        to y ∈ new ∨ (to y ∈ checked ∧ to y ∉ seen)).
Proof.
  intros W Hes Hsub.
  destruct (foldR_spec (cycleEdge b h) (λ pre st,
    st = None ∨ ∃ new, st = Some (mkCycle (list_to_set new ∪ checked) (list_to_set new ∪ seen)
                                           (queue ++ new)) ∧
      NoDup new ∧ (∀ n, n ∈ new → n ∉ checked ∧ n ∈ allNodes g) ∧
      ∀ e y, e ∈ pre → hedges h !! e = Some y → (b = true → kind y ≠ CONTROL_DEPENDENCE) →
        to y ∈ new ∨ (to y ∈ checked ∧ to y ∉ seen))
    (visit es) (Some (mkCycle checked seen queue))) as (st & -> & H).
  - right. exists []. split; [f_equal; f_equal; first [by rewrite app_nil_r|set_solver]|].
    split; [constructor|]. set_solver.
  - intros pre e st [post Hp] [->|(new & -> & Hnd & Hnew & Hpre)]; [exists None; auto|].
    assert (e ∈ es) as He. { apply elem_of_visit. rewrite Hp. set_solver. }
    destruct (wf_edge _ _ W e) as (y & Hy & _ & Ht); [set_solver|].
    simpl. rewrite Hy. unfold ControlDependence_classof, getKind, getDstNode.
    destruct (b && bool_decide (kind y = CONTROL_DEPENDENCE)) eqn:Hc.
    { eexists. split; [done|]. right. exists new. do 3 (split; [done|]).
      intros e' y' [He'|He'%list_elem_of_singleton]%elem_of_app Hy' Hk; [eauto|].
      simplify_eq. apply andb_true_iff in Hc as [-> Hc%bool_decide_eq_true]. by destruct Hk. }
    clear Hc. simpl. case_decide as Hs; [exists None; auto|]. case_decide as Hch.
    + eexists. split; [done|]. right. exists new. do 3 (split; [done|]).
      intros e' y' [He'|He'%list_elem_of_singleton]%elem_of_app Hy' Hk; [eauto|].
      simplify_eq. set_solver.
    + eexists. split; [done|]. right. exists (new ++ [to y]).
      split; [rewrite (assoc_L (++)); f_equal; f_equal; first [done|set_solver]|].
      split; [apply NoDup_app; split; [done|]; split; [set_solver|apply NoDup_singleton]|].
      split; [set_solver|].
      intros e' y' [He'|He'%list_elem_of_singleton]%elem_of_app Hy' Hk.
      * destruct (Hpre e' y' He' Hy' Hk) as [?|?]; [left; set_solver|by right].
      * simplify_eq. left. set_solver.
  - exists st. split; [done|]. setoid_rewrite elem_of_visit in H. done.
Qed.

Lemma cycle_search_spec h g b old root :
  wf h g → root ∈ allNodes g → root ∉ old → NoDup old →
  ∃ r, while (S (numNodes g)) (cycleStep b h)
         (mkCycle ({[root]} ∪ list_to_set old) {[root]} [root]) = Ok r ∧
    (r = None ∨ ∃ P, r = Some (list_to_set (P ++ old)) ∧ NoDup (P ++ old) ∧ root ∈ P ∧
       (∀ n, n ∈ P → n ∈ allNodes g) ∧
       ∀ u v, u ∈ P → succ h g b u v → v ∈ old ∨ after P u v).
Proof.
  intros W Hroot Hro Hold.
  apply (while_spec _ (λ c, ∃ P, search_inv h g b old root P c)
    (λ c, numNodes g - (size (nodesSeen c) - length (nodesToVisit c)))).
  - exists []. split; simpl; try set_solver. constructor; [done|done].
  - intros c [P I]. destruct c as [checked seen [|n queue]].
    { right. eexists. split; [done|]. right. exists P. destruct I as [I1 I2 I3 I4 I5 I6]. simpl in *.
      rewrite app_nil_r in *. subst. done. }
    destruct I as [I1 I2 I3 I4 I5 I6]. simpl in *.
    change (P ++ n :: queue ++ old) with (P ++ (n :: queue) ++ old) in I3.
    assert (n ∈ allNodes g) as Hn by (apply I4; set_solver).
    destruct (wf_node _ _ W n Hn) as (x & Hx & _). unfold cycleStep. simpl. rewrite Hx.
    destruct (cycleEdges_spec h g b checked seen queue (outgoingEdges x)) as (st & -> & Hst); [done|..].
    { intros e He. by apply (wf_out _ _ W n x e) in He as [? _]. }
    { subst. intros k. rewrite !elem_of_list_to_set. set_solver. }
    simpl. destruct Hst as [->|(new & -> & Hnd & Hnew & Hcov)]; [right; eexists; split; [done|by left]|].
    left. eexists. split; [done|]. simpl. split.
    + exists (P ++ [n]). split; simpl.
      * subst. set_solver.
      * subst. set_solver.
      * replace ((P ++ [n]) ++ (queue ++ new) ++ old) with ((P ++ n :: queue) ++ new ++ old)
          by (by rewrite <- !(assoc_L (++))).
        rewrite (assoc_L (++)). rewrite (assoc_L (++)) in I3. apply NoDup_app in I3 as (N1 & N2 & N3).
        apply NoDup_app. split; [apply NoDup_app; split; [done|split; [|done]]|split; [|done]].
        -- intros k Hk Hkn. apply Hnew in Hkn as [Hkn _]. apply Hkn. subst. set_solver.
        -- intros k [Hk|Hk]%elem_of_app; [by apply N2|]. intros Ho.
           apply Hnew in Hk as [Hk _]. apply Hk. subst. set_solver.
      * intros k Hk. destruct (decide (k ∈ new)) as [Hkn|]; [by apply Hnew|]. apply I4. set_solver.
      * set_solver.
      * intros u v Hu Huv.
        replace ((P ++ [n]) ++ queue ++ new) with ((P ++ n :: queue) ++ new)
          by (by rewrite <- !(assoc_L (++))).
        apply elem_of_app in Hu as [Hu|Hu%list_elem_of_singleton].
        -- destruct (I6 u v Hu Huv) as [?|?]; [by left|right]. by apply after_app_r.
        -- subst u. destruct Huv as (e & y & He & Hy & Hf & Ht & Hk).
           destruct (Hcov e y) as [Hv|[Hv1 Hv2]]; [|done|done| |].
           ++ apply (wf_out _ _ W n x e Hn Hx). eauto.
           ++ right. exists P, (queue ++ new). split; [by rewrite <- (assoc_L (++))|]. set_solver.
           ++ left. subst. set_solver.
    + subst seen. rewrite list_to_set_app_L. rewrite (assoc_L (++)) in I3.
      apply NoDup_app in I3 as (N1 & N2 & N3).
      assert (size (list_to_set (P ++ n :: queue) : gset Ptr) = length (P ++ n :: queue)) as S1.
      { by apply size_list_to_set. }
      assert (size (list_to_set new ∪ (list_to_set P ∪ list_to_set (n :: queue)) : gset Ptr)
              = length new + length (P ++ n :: queue)) as S2.
      { rewrite <- list_to_set_app_L, <- list_to_set_app_L, size_list_to_set, length_app; [done|].
        apply NoDup_app. split; [done|]. split; [|done].
        intros k Hk Hk'. apply Hnew in Hk as [Hk _]. apply Hk. subst. set_solver. }
      rewrite <- list_to_set_app_L in S2 |- *.
      assert (length (P ++ n :: queue) ≤ numNodes g) as Hle.
      { rewrite <- S1. unfold numNodes. apply subseteq_size. intros k ?%elem_of_list_to_set. by apply I4. }
      rewrite S1. rewrite S2. rewrite !length_app in *. simpl in *. lia.
  - simpl. lia.
Qed.

(** (C19) hasCycle never misses a cycle: it terminates without error on every well-formed
    component, and when it returns false no internal node reaches itself by the edges it
    considers (all of them, or all but the control dependences). *)
Theorem hasCycle_complete h g b :
  wf h g → ∃ r, hasCycle h g b = Ok r ∧
    (r = false → ∀ t n, internalNodeMap g !! t = Some (Some n) → ¬ tc (succ h g b) n n).
Proof.
  intros W. unfold hasCycle.
  match goal with |- context [foldR ?f ?b0 ?l] =>
    destruct (foldR_spec f (λ pre st, st = None ∨ ∃ L, st = Some (list_to_set L) ∧ NoDup L ∧
      (∀ u v, u ∈ L → succ h g b u v → after L u v) ∧
      (∀ t n, (t, Some n) ∈ pre → n ∈ L)) l b0) as (st & -> & Hst)
  end.
  - right. exists []. split; [done|]. split; [constructor|]. set_solver.
  - intros pre [t p] st [post Hp] [->|(L & -> & Hnd & Hfwd & Hpre)]; [exists None; auto|].
    assert ((t, p) ∈ internalNodePairs g) as Hin by (rewrite Hp; set_solver).
    unfold internalNodePairs, nodePairs in Hin. apply list_elem_of_omap in Hin as (t' & _ & Ht).
    apply fmap_Some in Ht as (p' & Ht & ?). simplify_eq.
    destruct (wf_internal _ _ W _ _ Ht) as [[n ->] _]. cbn [snd].
    destruct (wf_map _ _ W _ _ (or_introl Ht)) as [Hn _]. case_decide as HL.
    { eexists. split; [done|]. right. exists L. do 3 (split; [done|]).
      intros t n' [?|Heq%list_elem_of_singleton]%elem_of_app; [eauto|]. set_solver. }
    destruct (cycle_search_spec h g b L n W Hn) as (r & -> & Hr); [set_solver|done|].
    eexists. split; [done|]. destruct Hr as [->|(P & -> & HndP & HnP & _ & HP)]; [by left|].
    right. exists (P ++ L). split; [done|]. split; [done|]. split.
    + intros u v Hu Huv. apply NoDup_app in HndP as (N1 & N2 & N3).
      apply elem_of_app in Hu as [Hu|Hu].
      * destruct (HP u v Hu Huv) as [Hv|Hv]; [|by apply after_app_r].
        apply list_elem_of_split in Hu as (l1 & l2 & ->). exists l1, (l2 ++ L).
        split; [by rewrite <- (assoc_L (++))|set_solver].
      * by apply after_app_l, Hfwd.
    + intros t n' [?|Heq%list_elem_of_singleton]%elem_of_app; [set_solver|]. set_solver.
  - eexists. split; [done|]. destruct Hst as [->|(L & -> & Hnd & Hfwd & Hall)]; [done|].
    intros _ t n Ht. apply (forward_acyclic _ L Hnd Hfwd). apply (Hall t).
    unfold internalNodePairs, nodePairs. apply list_elem_of_omap. exists t.
    rewrite elem_of_visit, elem_of_dom, Ht. eauto.
Qed.
End cycle.

(** ** A component without cycles for which the test answers true *)

(** One instruction (the value 10) that stores to a location read by a later call (the
    value 20): two dependences, one from it to the other, connect them. *)
Definition twin_edges `{IterOrder} : Res (GSt * unit) :=
  (addNode 10 true ;;; addNode 20 false ;;;
   addMemoryDataDependenceEdge 10 20 DG_DATA_RAW true ;;;
   addMemoryDataDependenceEdge 10 20 DG_DATA_WAW true ;;; ret tt) (empty_heap, DG_new).

(** The test of one search treats every second way to reach a node as a cycle. *)
Lemma no_step_acyclic (R : relation Ptr) a b :
  a ≠ b → (∀ u v, R u v → u = a ∧ v = b) → ∀ u, ¬ tc R u u.
Proof.
  intros Hab HR.
  assert (∀ u v, tc R u v → u = a ∧ v = b) as H.
  { induction 1 as [x y Hxy|x y z Hxy _ IH]; [by apply HR|].
    apply HR in Hxy as [-> ->]. destruct IH; congruence. }
  intros u Hu. apply H in Hu as [? ?]. congruence.
Qed.

Lemma all_edges_between h g b n m :
  bool_decide (map_Forall (λ _ y, from y = n ∧ to y = m) (hedges h)) = true →
  ∀ u v, succ h g b u v → u = n ∧ v = m.
Proof.
  intros Hall%bool_decide_eq_true u v (e & y & _ & Hy & <- & <- & _). exact (Hall e y Hy).
Qed.

(** hasCycle answers true on a component that has no cycle: one internal node with
    two dependences to the same external node. *)
Theorem hasCycle_false_positive :
  ∃ h g, @twin_edges visit_elements = Ok ((h, g), tt) ∧
    @hasCycle visit_elements h g false = Ok true ∧
    ∀ n, ¬ tc (succ h g false) n n.
Proof.
  do 2 eexists. split; [vm_compute; reflexivity|]. split; [vm_compute; reflexivity|].
  apply (no_step_acyclic _ 1%positive 2%positive); [done|].
  apply all_edges_between. vm_compute. reflexivity.
Qed.
