(* ===== verification/BitMatrix.v ===== *)
(** * Square bit matrices (src/core/basic_utilities: BitMatrix.cpp)

    The matrix that stores which SCC reaches which. The bits live in an llvm [BitVector],
    which is an interface here: a class of operations with the laws its documentation
    states, and a list-based instance. Indices are uint32_t and int32_t. *)
From S2P Require Import Prelude.
From stdpp Require Import list_numbers.

#[local] Open Scope Z_scope.

(** ** llvm::BitVector *)

(** [bv_resized n] is the vector after [clear()] and [resize(n)]. The searches return -1
    when there is no such bit. *)
Class BitVector := {
  BV : Type;
  bv_size : BV → Z;
  bv_test : BV → Z → bool;
  bv_resized : Z → BV;
  bv_set : BV → Z → BV;
  bv_reset : BV → Z → BV;
  bv_count : BV → Z;
  bv_find_first : BV → Z;
  bv_find_next : BV → Z → Z
}.

(** [r] is the first set bit of [b] in the open interval from [lo] to the end, or -1 *)
Definition first_bit_after `{BitVector} (b : BV) (lo r : Z) : Prop :=
  (r = -1 ∧ ∀ i, lo < i < bv_size b → bv_test b i = false) ∨
  (lo < r < bv_size b ∧ bv_test b r = true ∧ ∀ i, lo < i < r → bv_test b i = false).

Class BitVectorLaws `(BitVector) : Prop := {
  bv_size_resized n : 0 ≤ n → bv_size (bv_resized n) = n;
  bv_test_resized n i : bv_test (bv_resized n) i = false;
  bv_size_set b i : bv_size (bv_set b i) = bv_size b;
  bv_size_reset b i : bv_size (bv_reset b i) = bv_size b;
  bv_test_set b i j : 0 ≤ i < bv_size b → bv_test (bv_set b i) j = (j =? i) || bv_test b j;
  bv_test_reset b i j : 0 ≤ i < bv_size b → bv_test (bv_reset b i) j = negb (j =? i) && bv_test b j;
  bv_find_first_spec b : first_bit_after b (-1) (bv_find_first b);
  bv_find_next_spec b p : 0 ≤ p < bv_size b → first_bit_after b p (bv_find_next b p);
  bv_count_spec b : bv_count b = Z.of_nat (length (filter (λ i, bv_test b i = true) (seqZ 0 (bv_size b))))
}.

(** ** The class *)

Section bitmatrix.
Context `{BitVector}.

Record BitMatrix := mkBitMatrix { N : Z; bv : BV }.

Definition resize (n : Z) : BitMatrix := mkBitMatrix n (bv_resized (u32 (n * n))).

Definition idx (m : BitMatrix) (row col : Z) : Res Z :=
  if decide (row < N m) then
    if decide (col < N m) then Ok (u32 (row * N m + col)) else Fail AssertionFailure
  else Fail AssertionFailure.

Definition count (m : BitMatrix) : Z := u32 (bv_count (bv m)).

(** the accesses of BitVector assert that the index is in bounds *)
Definition set (m : BitMatrix) (row col : Z) (v : bool) : Res BitMatrix :=
  rbind (idx m row col) (λ i,
    if decide (i < bv_size (bv m)) then
      Ok (mkBitMatrix (N m) (if v then bv_set (bv m) i else bv_reset (bv m) i))
    else Fail AssertionFailure).

Definition test (m : BitMatrix) (row col : Z) : Res bool :=
  rbind (idx m row col) (λ i,
    if decide (i < bv_size (bv m)) then Ok (bv_test (bv m) i) else Fail AssertionFailure).

Definition firstSuccessor (m : BitMatrix) (row : Z) : Z :=
  let rowBegin := u32 (N m * row) in
  let next := if decide (0 = rowBegin) then bv_find_first (bv m)
              else bv_find_next (bv m) (u32 (rowBegin - 1)) in
  if decide (-1 = next) then -1
  else
    let rowEnd := u32 (rowBegin + N m) in
    if decide (rowEnd ≤ u32 next) then -1 else i32 (u32 next - rowBegin).

Definition nextSuccessor (m : BitMatrix) (row prev : Z) : Z :=
  let next := bv_find_next (bv m) (u32 (u32 (N m * row) + prev)) in
  if decide (-1 = next) then -1
  else
    let rowBegin := u32 (N m * row) in
    let rowEnd := u32 (rowBegin + N m) in
    if decide (rowEnd ≤ u32 next) then -1 else i32 (u32 next - rowBegin).

(** ** Transitive closure *)

(** what the nested loops change: the matrix, [changedI] and [nAdd] *)
Record ClosureState := mkClosure { matrix : BitMatrix; changedI : bool; nAdd : Z }.

(** one iteration of the loop over [k] *)
Definition closureStepK (i j : Z) (st : ClosureState * Z)
    : Res (ClosureState * Z + ClosureState) :=
  let '(c, k) := st in
  if decide (k = -1) then Ok (inr c)
  else
    rbind (test (matrix c) i k) (λ b,
      rbind (if b then Ok c
             else rbind (set (matrix c) i k true) (λ m, Ok (mkClosure m true (u32 (nAdd c + 1)))))
        (λ c', Ok (inl (c', nextSuccessor (matrix c') j k)))).

(** one iteration of the loop over [j] *)
Definition closureStepJ (i : Z) (st : ClosureState * Z)
    : Res (ClosureState * Z + ClosureState) :=
  let '(c, j) := st in
  if decide (j = -1) then Ok (inr c)
  else
    rbind (while (S (S (Z.to_nat (N (matrix c))))) (closureStepK i j)
                 (c, firstSuccessor (matrix c) j))
      (λ c', Ok (inl (c', nextSuccessor (matrix c') i j))).

(** the loop that puts the predecessors of a changed row back on the work list *)
Definition pushPredecessors (m : BitMatrix) (i : Z) (worklist : list Z) : Res (list Z) :=
  foldR (λ worklist p,
    rbind (test m p i) (λ b,
      Ok (if b then (if decide (p ∈ worklist) then worklist else worklist ++ [p])
          else worklist)))
    worklist (seqZ 0 (N m)).

(** one iteration of the loop over the work list; the state also holds [nAdd] *)
Definition closureStep (st : BitMatrix * Z * list Z) : Res (BitMatrix * Z * list Z + BitMatrix) :=
  let '(m, added, worklist) := st in
  match worklist with
  | [] => Ok (inr m)
  | i :: worklist =>
      rbind (while (S (S (Z.to_nat (N m)))) (closureStepJ i)
                   (mkClosure m false added, firstSuccessor m i))
        (λ c,
          if changedI c then
            rbind (pushPredecessors (matrix c) i worklist) (λ worklist,
              Ok (inl (matrix c, nAdd c, worklist)))
          else Ok (inl (matrix c, nAdd c, worklist)))
  end.

(** a bound on the iterations: the work list grows only when a bit is set *)
Definition closureFuel (n : Z) : nat := S (Z.to_nat (n * n * (n + 1) + n)).

Definition transitiveClosure (m : BitMatrix) : Res BitMatrix :=
  while (closureFuel (N m)) closureStep (m, 0, seqZ 0 (N m)).

(** the characters [dump] writes, row by row *)
Definition dump (m : BitMatrix) : Res (list (list bool)) :=
  foldR (λ rows row,
    rbind (foldR (λ cells col, rbind (test m row col) (λ b, Ok (cells ++ [b]))) [] (seqZ 0 (N m)))
      (λ cells, Ok (rows ++ [cells]))) [] (seqZ 0 (N m)).
End bitmatrix.

(** ** A concrete bit vector *)

Definition find_from (l : list bool) (lo : Z) : Z :=
  match list_find (λ i, lo < i ∧ l !! Z.to_nat i = Some true) (seqZ 0 (Z.of_nat (length l))) with
  | Some (_, i) => i
  | None => -1
  end.

Definition ListBitVector : BitVector := {|
  BV := list bool;
  bv_size l := Z.of_nat (length l);
  bv_test l i := if decide (0 ≤ i) then default false (l !! Z.to_nat i) else false;
  bv_resized n := replicate (Z.to_nat n) false;
  bv_set l i := <[Z.to_nat i := true]> l;
  bv_reset l i := <[Z.to_nat i := false]> l;
  bv_count l := Z.of_nat (length (filter (λ b, b = true) l));
  bv_find_first l := find_from l (-1);
  bv_find_next l p := find_from l p
|}.
