(* ===== verification/BitMatrixSpec.v ===== *)
(** * The transitive closure of a bit matrix

    Bounds of the index arithmetic, and the correctness and termination of the work-list
    algorithm of [BitMatrix::transitiveClosure]. *)
From stdpp Require Import list_numbers.
From S2P Require Import Prelude BitMatrix.

#[local] Open Scope Z_scope.

(** ** The list-based bit vector satisfies the laws *)

Lemma find_from_spec (l : list bool) lo :
  -1 ≤ lo → @first_bit_after ListBitVector l lo (find_from l lo).
Proof.
  intros Hlo. unfold first_bit_after, find_from. simpl.
  assert (∀ i, 0 ≤ i < Z.of_nat (length l) → seqZ 0 (Z.of_nat (length l)) !! Z.to_nat i = Some i) as Hseq.
  { intros i Hi. apply lookup_seqZ. lia. }
  destruct (list_find _ _) as [[k i]|] eqn:E.
  - right. apply list_find_Some in E as (Hk & [Hi Hl] & Hmin).
    apply lookup_seqZ in Hk as [-> Hk]. split; [lia|]. split.
    + rewrite decide_True by lia. by rewrite Hl.
    + intros i Hi'. rewrite decide_True by lia.
      destruct (l !! Z.to_nat i) as [[]|] eqn:Hli; [|done..]. exfalso.
      apply (Hmin (Z.to_nat i) i); [apply Hseq; lia|lia|]. split; [lia|done].
  - left. split; [done|]. intros i Hi. rewrite decide_True by lia.
    destruct (l !! Z.to_nat i) as [[]|] eqn:Hli; [|done..]. exfalso.
    apply list_find_None in E. rewrite Forall_forall in E. apply (E i); [|split; [lia|done]].
    eapply list_elem_of_lookup_2, Hseq. lia.
Qed.

Lemma list_count_spec (l : list bool) :
  length (filter (λ b, b = true) l) =
  length (filter (λ i, @bv_test ListBitVector l i = true) (seqZ 0 (Z.of_nat (length l)))).
Proof.
  induction l as [|b l IH] using rev_ind; [done|].
  rewrite filter_app, !length_app. simpl length at 3. rewrite Nat2Z.inj_add, seqZ_app by lia.
  rewrite filter_app, length_app, IH. f_equal.
  - f_equal. apply list_filter_ext_in. intros i Hi%elem_of_seqZ. simpl.
    by rewrite !decide_True, lookup_app_l by lia.
  - change (seqZ (0 + Z.of_nat (length l)) (Z.of_nat 1)) with [Z.succ 0 - 1 + Z.of_nat (length l)].
    rewrite !filter_cons, !filter_nil. simpl.
    rewrite (decide_True (P:=0 ≤ Z.succ 0 - 1 + Z.of_nat (length l))) by lia. rewrite lookup_app_r by lia.
    replace (Z.to_nat (Z.succ 0 - 1 + Z.of_nat (length l)) - length l)%nat with 0%nat by lia. simpl.
    by repeat case_decide.
Qed.

#[global] Instance ListBitVector_laws : BitVectorLaws ListBitVector.
Proof.
  split; simpl; intros.
  - rewrite length_replicate. lia.
  - case_decide; [|done]. destruct (replicate _ _ !! _) as [[]|] eqn:E; try done.
    by apply lookup_replicate in E as [? _].
  - by rewrite length_insert.
  - by rewrite length_insert.
  - case_decide; simpl; [|destruct (Z.eqb_spec j i); [lia|done]].
    destruct (Z.eqb_spec j i) as [->|].
    + rewrite list_lookup_insert_eq by lia. done.
    + rewrite list_lookup_insert_ne by lia. done.
  - case_decide; simpl; [|by destruct (j =? i)].
    destruct (Z.eqb_spec j i) as [->|].
    + rewrite list_lookup_insert_eq by lia. done.
    + rewrite list_lookup_insert_ne by lia. done.
  - apply find_from_spec. lia.
  - apply find_from_spec. lia.
  - f_equal. apply list_count_spec.
Qed.

(** ** Index arithmetic *)

(** row-major indices determine the row and the column *)
Lemma index_inj n a b c d :
  0 ≤ b < n → 0 ≤ d < n → a * n + b = c * n + d → a = c ∧ b = d.
Proof. intros Hb Hd E. assert (a = c) by nia. subst. lia. Qed.

Section spec.
Context `{BL : BitVectorLaws}.

(** [46340] is the largest [n] whose indices fit in the int32_t of the searches *)
Record good (m : BitMatrix) : Prop := {
  good_n : 0 ≤ N m ≤ 46340;
  good_size : bv_size (bv m) = N m * N m
}.

(** the relation the matrix stores *)
Definition rel (m : BitMatrix) (i j : Z) : Prop :=
  0 ≤ i < N m ∧ 0 ≤ j < N m ∧ bv_test (bv m) (i * N m + j) = true.

#[global] Instance rel_dec m i j : Decision (rel m i j).
Proof. unfold rel. apply _. Defined.

Lemma index_range m i j : good m → 0 ≤ i < N m → 0 ≤ j < N m →
  0 ≤ i * N m + j < N m * N m ∧ N m * N m < 2 ^ 31.
Proof. intros [Hn _] Hi Hj. nia. Qed.

Lemma idx_spec m i j : good m → 0 ≤ i < N m → 0 ≤ j < N m → idx m i j = Ok (i * N m + j).
Proof.
  intros G Hi Hj. unfold idx. rewrite !decide_True by lia.
  pose proof (index_range m i j G Hi Hj). by rewrite u32_small by lia.
Qed.

Lemma resize_good n : 0 ≤ n ≤ 46340 → good (resize n) ∧ ∀ i j, ¬ rel (resize n) i j.
Proof.
  intros Hn. unfold resize. split; [split; simpl|].
  - done.
  - rewrite u32_small by nia. apply bv_size_resized. nia.
  - intros i j (_ & _ & Ht). simpl in Ht. by rewrite bv_test_resized in Ht.
Qed.

Lemma test_spec m i j : good m → 0 ≤ i < N m → 0 ≤ j < N m →
  test m i j = Ok (bool_decide (rel m i j)).
Proof.
  intros G Hi Hj. unfold test. rewrite idx_spec by done. simpl.
  pose proof (index_range m i j G Hi Hj). rewrite (good_size _ G), decide_True by lia.
  f_equal. apply eq_true_iff_eq. rewrite bool_decide_eq_true. unfold rel. naive_solver.
Qed.

Lemma set_spec m i j v : good m → 0 ≤ i < N m → 0 ≤ j < N m →
  ∃ m', set m i j v = Ok m' ∧ good m' ∧ N m' = N m ∧
    ∀ a b, rel m' a b ↔ if decide (a = i ∧ b = j) then v = true else rel m a b.
Proof.
  intros G Hi Hj. unfold set. rewrite idx_spec by done. simpl.
  pose proof (index_range m i j G Hi Hj) as Hr. rewrite (good_size _ G), decide_True by lia.
  eexists. split; [done|]. split.
  { split; simpl; [apply G|]. destruct v; rewrite ?bv_size_set, ?bv_size_reset; apply G. }
  split; [done|]. intros a b. unfold rel. simpl.
  assert (0 ≤ i * N m + j < bv_size (bv m)) by (rewrite (good_size _ G); lia).
  assert (0 ≤ b < N m → a * N m + b = i * N m + j → a = i ∧ b = j) as Hinj.
  { intros Hb. by apply index_inj. }
  destruct v; rewrite ?bv_test_set, ?bv_test_reset by done;
    rewrite ?orb_true_iff, ?andb_true_iff, ?negb_true_iff, ?Z.eqb_eq, ?Z.eqb_neq; case_decide;
    naive_solver.
Qed.

(** the result of a search in row [row] for the first column after [lo] *)
Definition next_in_row (m : BitMatrix) (row lo r : Z) : Prop :=
  (r = -1 ∧ ∀ j, lo < j → ¬ rel m row j) ∨
  (lo < r < N m ∧ rel m row r ∧ ∀ j, lo < j < r → ¬ rel m row j).

Lemma search_spec m row lo next : good m → 0 ≤ row < N m → -1 ≤ lo < N m →
  first_bit_after (bv m) (row * N m + lo) next →
  next_in_row m row lo
    (if decide (-1 = next) then -1
     else if decide (u32 (u32 (N m * row) + N m) ≤ u32 next) then -1
     else i32 (u32 next - u32 (N m * row))).
Proof.
  intros G Hrow Hlo Hnext. pose proof (good_n _ G). unfold first_bit_after in Hnext.
  rewrite (good_size _ G) in Hnext. rewrite (u32_small (N m * row)) by nia.
  rewrite (u32_small (N m * row + N m)) by nia. unfold next_in_row, rel.
  destruct Hnext as [[-> Hno]|(Hlt & Hset & Hno)].
  - rewrite decide_True by done. left. split; [done|]. intros j Hj (_ & Hj' & Ht).
    rewrite Hno in Ht; [done|nia].
  - assert (0 ≤ next) by nia. rewrite decide_False by lia. rewrite (u32_small next) by nia.
    case_decide.
    + left. split; [done|]. intros j Hj (_ & Hj' & Ht). rewrite Hno in Ht; [done|nia].
    + right. rewrite i32_small by nia.
      replace (row * N m + (next - N m * row)) with next by lia.
      split; [nia|]. split; [split; [done|]; split; [nia|done]|].
      intros j Hj (_ & Hj' & Ht). rewrite Hno in Ht; [done|nia].
Qed.

Lemma firstSuccessor_spec m row : good m → 0 ≤ row < N m →
  next_in_row m row (-1) (firstSuccessor m row).
Proof.
  intros G Hrow. pose proof (good_n _ G). unfold firstSuccessor.
  apply search_spec; try done; [lia|].
  rewrite (u32_small (N m * row)) by nia. case_decide as E.
  - replace (row * N m + -1) with (-1) by nia. apply bv_find_first_spec.
  - rewrite u32_small by nia. replace (row * N m + -1) with (N m * row - 1) by lia.
    apply bv_find_next_spec. rewrite (good_size _ G). nia.
Qed.

Lemma nextSuccessor_spec m row prev : good m → 0 ≤ row < N m → 0 ≤ prev < N m →
  next_in_row m row prev (nextSuccessor m row prev).
Proof.
  intros G Hrow Hprev. pose proof (good_n _ G). unfold nextSuccessor.
  apply search_spec; try done; [lia|].
  rewrite (u32_small (N m * row)) by nia. rewrite u32_small by nia.
  replace (row * N m + prev) with (N m * row + prev) by lia.
  apply bv_find_next_spec. rewrite (good_size _ G). nia.
Qed.

(** ** The loops of the closure *)

(** the columns before [hi r] have been visited when a search has returned [r] *)
Definition hi (m : BitMatrix) (r : Z) : Z := if decide (r = -1) then N m else r.

Lemma next_hi m row lo r : next_in_row m row lo r →
  (r = -1 ∨ (lo < r < N m ∧ rel m row r)) ∧ ∀ b, lo < b < hi m r → ¬ rel m row b.
Proof.
  unfold hi. intros [[-> Hno]|(Hlt & Hr & Hno)].
  - split; [by left|]. intros b Hb. apply Hno. lia.
  - split; [by right|]. case_decide; [|done]. intros b Hb Hrb. destruct Hrb as (_ & ? & _).
    destruct Hr as (_ & ? & _). lia.
Qed.

Record kInv (m : BitMatrix) (ch : bool) (i j : Z) (st : ClosureState * Z) : Prop := {
  k_good : good (matrix st.1);
  k_n : N (matrix st.1) = N m;
  k_rel a b : rel (matrix st.1) a b ↔ rel m a b ∨ (a = i ∧ rel m j b ∧ b < hi m st.2);
  k_changed : changedI st.1 = true ↔ ch = true ∨ ∃ b, rel m j b ∧ ¬ rel m i b ∧ b < hi m st.2;
  k_pos : st.2 = -1 ∨ rel m j st.2
}.

Lemma rel_bounds m i j : rel m i j → 0 ≤ i < N m ∧ 0 ≤ j < N m.
Proof. by intros (? & ? & _). Qed.

Lemma kInv_next m ch i j st lo :
  0 ≤ j < N m → good (matrix st.1) → N (matrix st.1) = N m → 
  (∀ a b, rel (matrix st.1) a b ↔ rel m a b ∨ (a = i ∧ rel m j b ∧ b ≤ lo)) →
  (changedI st.1 = true ↔ ch = true ∨ ∃ b, rel m j b ∧ ¬ rel m i b ∧ b ≤ lo) →
  next_in_row (matrix st.1) j lo st.2 → kInv m ch i j st.
Proof.
  intros Hj G En Hrel Hch [Hpos Hno]%next_hi.
  assert (∀ b, rel (matrix st.1) j b ↔ rel m j b) as Hrow.
  { intros b. rewrite Hrel. naive_solver. }
  assert (∀ b, rel m j b ∧ b < hi m st.2 ↔ rel m j b ∧ b ≤ lo) as Hhi.
  { intros b. split; intros [Hb Hlt]; (split; [done|]).
    - destruct (decide (b ≤ lo)); [done|]. exfalso. apply (Hno b); [|by apply Hrow].
      unfold hi in *. rewrite En. lia.
    - destruct (rel_bounds _ _ _ Hb) as [_ ?]. unfold hi. rewrite En in Hpos.
      case_decide; lia. }
  split; [done|done| | |].
  - intros a b. rewrite Hrel. specialize (Hhi b). tauto.
  - rewrite Hch. split; (intros [?|(b & Hb & Hn & Hlt)]; [by left|right; exists b]);
      specialize (Hhi b); tauto.
  - destruct Hpos as [?|[_ Hr]]; [by left|]. right. by apply Hrow.
Qed.

Lemma loopK_spec c i j :
  good (matrix c) → 0 ≤ i < N (matrix c) → 0 ≤ j < N (matrix c) →
  ∃ c', while (S (S (Z.to_nat (N (matrix c))))) (closureStepK i j)
          (c, firstSuccessor (matrix c) j) = Ok c' ∧
    good (matrix c') ∧ N (matrix c') = N (matrix c) ∧
    (∀ a b, rel (matrix c') a b ↔ rel (matrix c) a b ∨ (a = i ∧ rel (matrix c) j b)) ∧
    (changedI c' = true ↔ changedI c = true ∨
       ∃ b, rel (matrix c) j b ∧ ¬ rel (matrix c) i b).
Proof.
  intros G Hi Hj. set (m := matrix c) in *.
  apply (while_spec _ (kInv m (changedI c) i j)
           (λ st, if decide (st.2 = -1) then 0%nat else Z.to_nat (N m - st.2))).
  - apply (kInv_next _ _ _ _ _ (-1)); simpl; try done.
    + intros a b. split; [by left|]. intros [?|(_ & Hb & ?)]; [done|].
      apply rel_bounds in Hb. lia.
    + split; [by left|]. intros [?|(b & Hb & _ & ?)]; [done|]. apply rel_bounds in Hb. lia.
    + by apply firstSuccessor_spec.
  - intros [c1 k] [Gk En Hrel Hch Hpos]. simpl in *. destruct (decide (k = -1)) as [->|Hk].
    { right. eexists. split; [done|]. split; [done|]. split; [done|].
      unfold hi in *. rewrite decide_True in * by done. split.
      - intros a b. rewrite Hrel. split; [naive_solver|]. intros [?|[-> Hb]]; [by left|].
        right. apply rel_bounds in Hb as ?. naive_solver lia.
      - rewrite Hch. split; [naive_solver|]. intros [?|(b & Hb & ?)]; [by left|].
        right. exists b. apply rel_bounds in Hb as ?. naive_solver lia. }
    left. destruct Hpos as [?|Hjk]; [done|]. pose proof Hjk as [_ Hkb]%rel_bounds.
    unfold hi in *. rewrite decide_False in * by done.
    rewrite test_spec by (try done; lia). cbn [rbind].
    assert (∀ c2, good (matrix c2) → N (matrix c2) = N m →
      (∀ a b, rel (matrix c2) a b ↔ rel m a b ∨ (a = i ∧ rel m j b ∧ b ≤ k)) →
      (changedI c2 = true ↔ changedI c = true ∨ ∃ b, rel m j b ∧ ¬ rel m i b ∧ b ≤ k) →
      let st := (c2, nextSuccessor (matrix c2) j k) in
      kInv m (changedI c) i j st ∧
      ((if decide (st.2 = -1)%Z then 0 else Z.to_nat (N m - st.2)) < Z.to_nat (N m - k))%nat) as Hnext.
    { intros c2 G2 En2 Hrel2 Hch2 st.
      assert (next_in_row (matrix c2) j k st.2) as Hn by (apply nextSuccessor_spec; try done; lia).
      split; [by apply (kInv_next _ _ _ _ _ k)|].
      apply next_hi in Hn as [Hn _]. case_decide; lia. }
    case_bool_decide as Hik.
    + exists (c1, nextSuccessor (matrix c1) j k). split; [done|]. apply Hnext; try done.
      * intros a b. rewrite Hrel. split; [naive_solver lia|].
        intros [?|(-> & Hb & Hle)]; [by left|]. destruct (decide (b = k)) as [->|].
        -- apply Hrel in Hik. naive_solver lia.
        -- right. naive_solver lia.
      * rewrite Hch. split; [naive_solver lia|].
        intros [?|(b & Hb & Hn & Hle)]; [by left|]. destruct (decide (b = k)) as [->|].
        -- apply Hrel in Hik. naive_solver lia.
        -- right. exists b. naive_solver lia.
    + destruct (set_spec (matrix c1) i k true Gk) as (m2 & -> & G2 & En2 & Hrel2); [lia..|].
      eexists. split; [reflexivity|]. apply Hnext; simpl; [done|congruence| |].
      * intros a b. rewrite Hrel2. case_decide as E; [|rewrite Hrel].
        -- destruct E as [-> ->]. split; [|done]. intros _. right. split; [done|]. split; [done|lia].
        -- assert (a = i → b ≤ k → b < k) by (intros; destruct (decide (b = k)); [by destruct E|lia]).
           split; (intros [?|(? & ? & ?)]; [by left|right]); split; try done; split; auto; lia.
      * split; [|done]. intros _. right. exists k. split; [done|]. split; [|lia].
        intros Hm. apply Hik, Hrel. by left.
  - pose proof (firstSuccessor_spec m j G Hj) as [Hn _]%next_hi. subst m. simpl.
    case_decide; lia.
Qed.

(** what processing row [i] has made of [m] when the columns before [b] are done *)
Record rowInv (m : BitMatrix) (i b : Z) (c : ClosureState) : Prop := {
  r_good : good (matrix c);
  r_n : N (matrix c) = N m;
  r_mono x y : rel m x y → rel (matrix c) x y;
  r_other x y : x ≠ i → rel (matrix c) x y → rel m x y;
  r_sound (T : Z → Z → Prop) : (∀ x y z, T x y → T y z → T x z) →
    (∀ x y, rel m x y → T x y) → ∀ x y, rel (matrix c) x y → T x y;
  r_complete j k : rel m i j → j < b → rel m j k → rel (matrix c) i k;
  r_same : changedI c = false → ∀ x y, rel (matrix c) x y → rel m x y;
  r_grown : changedI c = true → ∃ y, rel (matrix c) i y ∧ ¬ rel m i y
}.

Lemma rowInv_next m i b b' c :
  rowInv m i b c → (∀ j, b ≤ j < b' → ¬ rel m i j) → rowInv m i b' c.
Proof.
  intros [G1 G2 G3 G4 G5 G6 G7 G8] Hno. split; try done.
  intros j k Hij Hj Hjk. apply (G6 j); try done.
  destruct (decide (j < b)); [done|]. destruct (Hno j); [lia|done].
Qed.

(** Row [i] after the bits of row [j] have been added to it *)
Lemma rowInv_step m i j c c' :
  rowInv m i j c → rel (matrix c) i j → good (matrix c') → N (matrix c') = N (matrix c) →
  (∀ a b, rel (matrix c') a b ↔ rel (matrix c) a b ∨ (a = i ∧ rel (matrix c) j b)) →
  (changedI c' = true ↔ changedI c = true ∨
     ∃ b, rel (matrix c) j b ∧ ¬ rel (matrix c) i b) →
  rowInv m i (j + 1) c'.
Proof.
  intros [G1 G2 G3 G4 G5 G6 G7 G8] Hij G' En Hrel Hch. split.
  - done.
  - congruence.
  - intros x y ?%G3. apply Hrel. by left.
  - intros x y Hx [?|[? _]]%Hrel; [by apply G4|done].
  - intros T HT Hsub x y [?|[-> ?]]%Hrel; [by eapply G5|]. apply (HT i j y); by eapply G5.
  - intros j' k Hj' Hlt Hk. apply Hrel. destruct (decide (j' = j)) as [->|].
    + right. split; [done|]. by apply G3.
    + left. apply (G6 j'); [done|lia|done].
  - intros Hf x y Hxy.
    assert (¬ (changedI c = true ∨ ∃ b, rel (matrix c) j b ∧ ¬ rel (matrix c) i b)) as Hnc.
    { intros ?%Hch. congruence. }
    assert (changedI c = false) as Hcf by (destruct (changedI c); tauto).
    apply (G7 Hcf). apply Hrel in Hxy as [?|[-> Hy]]; [done|].
    destruct (decide (rel (matrix c) i y)); [done|]. destruct Hnc. eauto.
  - intros [Hc|(y & Hy & Hn)]%Hch.
    + destruct (G8 Hc) as (y & Hy & Hn). exists y. split; [apply Hrel; by left|done].
    + exists y. split; [apply Hrel; by right|]. intros ?%G3. done.
Qed.

Lemma loopJ_spec m a i :
  good m → 0 ≤ i < N m →
  ∃ c', while (S (S (Z.to_nat (N m)))) (closureStepJ i)
          (mkClosure m false a, firstSuccessor m i) = Ok c' ∧ rowInv m i (N m) c'.
Proof.
  intros G Hi.
  apply (while_spec _ (λ st, rowInv m i (hi m st.2) st.1 ∧ (st.2 = -1 ∨ rel (matrix st.1) i st.2))
           (λ st, if decide (st.2 = -1) then 0%nat else Z.to_nat (N m - st.2))).
  - simpl. pose proof (firstSuccessor_spec m i G Hi) as [Hpos Hno]%next_hi. split; [|tauto].
    apply (rowInv_next _ _ 0).
    + split; simpl; try done; try (by auto). intros j k Hj ?. apply rel_bounds in Hj. lia.
    + intros j Hj. apply Hno. lia.
  - intros [c j] [R Hpos]. cbn [fst snd] in *. unfold closureStepJ.
    destruct (decide (j = -1)) as [->|Hj].
    { right. eexists. split; [done|]. exact R. }
    left. destruct Hpos as [?|Hij]; [done|]. pose proof (r_n _ _ _ _ R) as En.
    pose proof (rel_bounds _ _ _ Hij) as [_ Hjb].
    destruct (loopK_spec c i j) as (c' & -> & G' & En' & Hrel & Hch);
      [apply R|lia|done|]. cbn [rbind].
    unfold hi in R. rewrite decide_False in R by done.
    pose proof (rowInv_step _ _ _ _ _ R Hij G' En' Hrel Hch) as R'.
    pose proof (nextSuccessor_spec (matrix c') i j G') as Hn.
    apply next_hi in Hn as [Hn Hno]; [|lia..].
    eexists. split; [done|]. simpl. split; [split; [|tauto]|].
    + apply (rowInv_next _ _ (j + 1)); [done|]. intros j' Hj' Hm.
      apply (Hno j'); [|by apply R']. unfold hi in *. rewrite (r_n _ _ _ _ R'). lia.
    + case_decide; lia.
  - simpl. pose proof (firstSuccessor_spec m i G Hi) as [Hn _]%next_hi. case_decide; lia.
Qed.

Lemma pushPredecessors_spec m i wl :
  good m → 0 ≤ i < N m → (∀ p, p ∈ wl → 0 ≤ p < N m) → NoDup wl →
  ∃ wl', pushPredecessors m i wl = Ok wl' ∧ NoDup wl' ∧
    ∀ p, p ∈ wl' ↔ p ∈ wl ∨ rel m p i.
Proof.
  intros G Hi Hwl Hnd. unfold pushPredecessors.
  match goal with |- context [foldR ?f _ ?l] =>
    destruct (foldR_spec f (λ pre wl', NoDup wl' ∧
      ∀ p, p ∈ wl' ↔ p ∈ wl ∨ (rel m p i ∧ p ∈ pre)) l wl) as (wl' & -> & Hnd' & Hwl')
  end.
  - split; [done|]. set_solver.
  - intros pre p wl1 [post Hpost] [Hnd1 Hwl1].
    assert (0 ≤ p < N m) as Hp.
    { assert (p ∈ seqZ 0 (N m)) as ?%elem_of_seqZ by (rewrite Hpost; set_solver). lia. }
    rewrite test_spec by done. simpl. eexists. split; [done|].
    assert (∀ q, q ∈ pre ++ [p] ↔ q ∈ pre ∨ q = p) as Hpre by set_solver.
    case_bool_decide; [case_decide|].
    + split; [done|]. intros q. rewrite Hwl1, Hpre.
      destruct (decide (q = p)) as [->|]; [|tauto]. apply Hwl1 in H1. tauto.
    + split; [apply NoDup_app; split; [done|]; split; [set_solver|apply NoDup_singleton]|].
      intros q. rewrite elem_of_app, list_elem_of_singleton, Hwl1, Hpre. naive_solver.
    + split; [done|]. intros q. rewrite Hwl1, Hpre. naive_solver.
  - exists wl'. split; [done|]. split; [done|]. intros p. rewrite Hwl'.
    split; [tauto|]. intros [?|Hr]; [tauto|]. right. split; [done|].
    apply elem_of_seqZ. apply rel_bounds in Hr. lia.
Qed.

(** the number of bits set *)
Definition bits (m : BitMatrix) : Z :=
  Z.of_nat (length (filter (λ t, bv_test (bv m) t = true) (seqZ 0 (N m * N m)))).

Lemma bits_bound m : 0 ≤ N m → 0 ≤ bits m ≤ N m * N m.
Proof.
  intros Hn. unfold bits. pose proof (length_filter (λ t, bv_test (bv m) t = true) (seqZ 0 (N m * N m))).
  rewrite length_seqZ in *. lia.
Qed.

Lemma test_rel m t : 0 ≤ N m → 0 ≤ t < N m * N m →
  bv_test (bv m) t = true ↔ rel m (t / N m) (t mod N m).
Proof.
  intros Hn Ht. assert (0 < N m) by nia. unfold rel.
  pose proof (Z.mod_pos_bound t (N m) ltac:(lia)).
  assert (0 ≤ t / N m < N m) by (split; [apply Z.div_pos; lia|apply Z.div_lt_upper_bound; lia]).
  replace (t / N m * N m + t mod N m) with t by (pose proof (Z.div_mod t (N m)); lia).
  tauto.
Qed.

Lemma bits_mono m m' :
  0 ≤ N m → N m' = N m → (∀ a b, rel m a b → rel m' a b) → bits m ≤ bits m' ∧
  ∀ a b, rel m' a b → ¬ rel m a b → bits m < bits m'.
Proof.
  intros Hn En Hmono. unfold bits. rewrite En.
  assert (∀ t, t ∈ seqZ 0 (N m * N m) → bv_test (bv m) t = true → bv_test (bv m') t = true) as Hin.
  { intros t Ht%elem_of_seqZ H1. rewrite test_rel in H1 by lia.
    apply test_rel; rewrite En; [lia..|]. by apply Hmono. }
  split; [apply inj_le, length_filter_mono, Hin|].
  intros a b Hab Hnew. apply inj_lt, (length_filter_lt _ _ _ (a * N m + b) Hin).
  - pose proof (rel_bounds _ _ _ Hab) as Hb. rewrite En in Hb. apply elem_of_seqZ. nia.
  - destruct Hab as (_ & _ & Hab). by rewrite En in Hab.
  - intros Ht. apply Hnew. pose proof (rel_bounds _ _ _ Hab) as Hb. rewrite En in Hb.
    split; [lia|]. split; [lia|done].
Qed.

Record wlInv (m0 m : BitMatrix) (wl : list Z) : Prop := {
  w_good : good m;
  w_n : N m = N m0;
  w_range p : p ∈ wl → 0 ≤ p < N m;
  w_nodup : NoDup wl;
  w_mono a b : rel m0 a b → rel m a b;
  w_sound (T : Z → Z → Prop) : (∀ x y z, T x y → T y z → T x z) →
    (∀ x y, rel m0 x y → T x y) → ∀ x y, rel m x y → T x y;
  w_complete a j k : rel m0 a j → rel m j k → rel m a k ∨ a ∈ wl
}.

Lemma wl_length n (wl : list Z) : NoDup wl → (∀ p, p ∈ wl → 0 ≤ p < n) →
  (length wl ≤ Z.to_nat n)%nat.
Proof.
  intros Hnd Hr. rewrite <- (length_seqZ 0 n). apply submseteq_length, NoDup_submseteq; [done|].
  intros p Hp. apply elem_of_seqZ. specialize (Hr p Hp). lia.
Qed.

(** one element of the work list processed *)
Lemma wlInv_step m0 m i wl c wl' :
  wlInv m0 m (i :: wl) → rowInv m i (N m) c →
  NoDup wl' → (∀ p, p ∈ wl' → 0 ≤ p < N m) → wl ⊆ wl' →
  (∀ a, changedI c = true → rel (matrix c) a i → a ∈ wl') →
  wlInv m0 (matrix c) wl'.
Proof.
  intros W R Hnd Hrange Hsub Hpred. pose proof (r_n _ _ _ _ R) as En.
  split.
  - apply R.
  - by rewrite En, (w_n _ _ _ W).
  - intros p Hp%Hrange. by rewrite En.
  - done.
  - intros a b Hab. apply (r_mono _ _ _ _ R), (w_mono _ _ _ W), Hab.
  - intros T HT HR x y Hxy. apply (r_sound _ _ _ _ R T HT); [|done].
    by apply (w_sound _ _ _ W).
  - intros a j k Haj Hjk. pose proof (w_mono _ _ _ W _ _ Haj) as Haj'.
    destruct (decide (a = i)) as [->|Hai].
    + left. destruct (decide (j = i)) as [->|Hji]; [done|].
      apply (r_complete _ _ _ _ R j); [done| |by apply (r_other _ _ _ _ R)].
      apply rel_bounds in Haj'. lia.
    + assert (rel m j k → rel (matrix c) a k ∨ a ∈ wl') as Hold.
      { intros Hm. destruct (w_complete _ _ _ W a j k Haj Hm) as [?|Ha].
        - left. by apply (r_mono _ _ _ _ R).
        - right. apply Hsub. apply elem_of_cons in Ha as [?|?]; done. }
      destruct (decide (j = i)) as [->|Hji]; [|by apply Hold, (r_other _ _ _ _ R)].
      destruct (changedI c) eqn:Hc.
      * right. apply Hpred; [done|]. by apply (r_mono _ _ _ _ R).
      * apply Hold. by apply (r_same _ _ _ _ R).
Qed.

Lemma transitiveClosure_run m0 :
  good m0 → ∃ m, transitiveClosure m0 = Ok m ∧ good m ∧ N m = N m0 ∧
    ∀ i j, rel m i j ↔ tc (rel m0) i j.
Proof.
  intros G0. pose proof (good_n _ G0) as Hn. unfold transitiveClosure.
  apply (while_spec _ (λ st : BitMatrix * Z * list Z, wlInv m0 st.1.1 st.2)
    (λ st, Z.to_nat ((N m0 * N m0 - bits st.1.1) * (N m0 + 1) + Z.of_nat (length st.2)))).
  - simpl. split; try done; [|by apply NoDup_seqZ|].
    + intros p Hp%elem_of_seqZ. lia.
    + intros a j k Haj _. right. apply elem_of_seqZ. apply rel_bounds in Haj. lia.
  - intros [[m added] wl] W. cbn [fst snd] in *. pose proof (w_n _ _ _ W) as En.
    pose proof (w_good _ _ _ W) as G.
    destruct wl as [|i wl].
    { right. exists m. split; [done|]. split; [done|]. split; [done|]. intros i j. split.
      - apply (w_sound _ _ _ W (tc (rel m0))); [intros ???; by etrans|]. intros ??. by apply tc_once.
      - induction 1 as [x y Hxy|x y z Hxy _ IH]; [by apply (w_mono _ _ _ W)|].
        destruct (w_complete _ _ _ W x y z Hxy IH) as [?|?]; [done|set_solver]. }
    left. assert (0 ≤ i < N m) as Hi by (apply (w_range _ _ _ W); set_solver).
    pose proof (w_nodup _ _ _ W) as [Hiw Hnd]%NoDup_cons.
    assert (∀ p, p ∈ wl → 0 ≤ p < N m) as Hwl by (intros; apply (w_range _ _ _ W); set_solver).
    destruct (loopJ_spec m added i G Hi) as (c & Hc & R). unfold closureStep. rewrite Hc.
    cbn [rbind]. pose proof (r_n _ _ _ _ R) as En'. pose proof (r_good _ _ _ _ R) as G'.
    destruct (bits_mono m (matrix c) ltac:(lia) En' (r_mono _ _ _ _ R)) as [Hb1 Hb2].
    pose proof (bits_bound m ltac:(lia)). pose proof (bits_bound (matrix c) ltac:(lia)).
    destruct (changedI c) eqn:Hch.
    + destruct (pushPredecessors_spec (matrix c) i wl) as (wl' & -> & Hnd' & Hwl'); try done.
      { lia. } { intros p Hp. rewrite En'. by apply Hwl. }
      assert (∀ p, p ∈ wl' → 0 ≤ p < N m) as Hr.
      { intros p [?|Hp]%Hwl'; [by apply Hwl|]. apply rel_bounds in Hp. lia. }
      eexists. split; [reflexivity|]. cbn [fst snd]. split.
      * apply (wlInv_step m0 m i wl); try done; [intros p; rewrite Hwl'; tauto|].
        intros a _ ?. apply Hwl'. by right.
      * destruct (r_grown _ _ _ _ R Hch) as (y & Hy & Hny). specialize (Hb2 _ _ Hy Hny).
        pose proof (wl_length _ wl' Hnd' Hr). simpl length. rewrite En', En in *. nia.
    + eexists. split; [reflexivity|]. cbn [fst snd]. split.
      * apply (wlInv_step m0 m i wl); try done. intros a ?. congruence.
      * simpl length. rewrite En', En in *. nia.
  - cbn [fst snd]. unfold closureFuel. pose proof (bits_bound m0 ltac:(lia)).
    rewrite length_seqZ. nia.
Qed.

(** (C9) transitiveClosure terminates and turns the relation the matrix stores into its
    transitive closure, for every matrix whose indices fit in 31 bits. *)
Theorem transitiveClosure_correct m0 :
  good m0 → ∃ m, transitiveClosure m0 = Ok m ∧ good m ∧ N m = N m0 ∧
    ∀ i j, rel m i j ↔ tc (rel m0) i j.
Proof. apply transitiveClosure_run. Qed.

(** (C18) The size of the bit vector is computed in 32 bits: up to 65535 rows every cell
    of a new matrix can be written, and with 65536 rows the size wraps to zero and no
    cell can. *)
Theorem resize_bounds n i j v :
  0 ≤ i < n → 0 ≤ j < n →
  (n ≤ 65535 → ∃ m, set (resize n) i j v = Ok m ∧ N m = n ∧ bv_size (bv m) = n * n) ∧
  (n = 65536 → set (resize n) i j v = Fail AssertionFailure).
Proof.
  intros Hi Hj. unfold set, idx, resize. simpl. rewrite !decide_True by lia. simpl. split.
  - intros Hn. rewrite (u32_small (n * n)) by nia. rewrite (u32_small (i * n + j)) by nia.
    rewrite (bv_size_resized (n * n)) by nia. rewrite decide_True by nia.
    eexists. split; [done|]. simpl. split; [done|].
    destruct v; rewrite ?bv_size_set, ?bv_size_reset; apply bv_size_resized; nia.
  - intros ->. replace (u32 (65536 * 65536)) with 0 by reflexivity.
    rewrite bv_size_resized by lia. rewrite decide_False; [done|].
    unfold u32. pose proof (Z.mod_pos_bound (i * 65536 + j) (2 ^ 32)). lia.
Qed.
End spec.

(** ** Witnesses *)

(** the edges 0-1, 1-2, 2-0 and 3-3 of a graph with five nodes *)
Definition sample_matrix : BitMatrix :=
  let put m ij := match m with Ok m => set m ij.1 ij.2 true | Fail e => Fail e end in
  match foldl put (Ok (@resize ListBitVector 5)) [(0, 1); (1, 2); (2, 0); (3, 3)] with
  | Ok m => m | Fail _ => @resize ListBitVector 0 end.

Lemma sample_matrix_good : good sample_matrix.
Proof. split; vm_compute; [split; congruence|reflexivity]. Qed.

Lemma transitiveClosure_correct_witness :
  (∃ m, transitiveClosure sample_matrix = Ok m ∧ test m 2 1 = Ok true ∧ test m 2 3 = Ok false) ∧
  ∃ m, transitiveClosure sample_matrix = Ok m ∧ good m ∧ N m = N sample_matrix ∧
    ∀ i j, rel m i j ↔ tc (rel sample_matrix) i j.
Proof.
  split.
  - eexists. split; [vm_compute; reflexivity|]. by split.
  - exact (transitiveClosure_correct sample_matrix sample_matrix_good).
Defined.

Lemma resize_bounds_witness :
  (65536 ≤ 65535 → ∃ m, set (@resize ListBitVector 65536) 7 9 true = Ok m ∧ N m = 65536 ∧
     bv_size (bv m) = 65536 * 65536) ∧
  (65536 = 65536 → set (@resize ListBitVector 65536) 7 9 true = Fail AssertionFailure).
Proof. apply (resize_bounds 65536 7 9 true); lia. Defined.
