(* ===== verification/DataFlow.v ===== *)
(** * Data-flow analyses (src/core/dataflow)

    The class [DataFlowResult] (DataFlowResult.cpp), the work-list engine
    [DataFlowEngine] (DataFlowEngine.cpp) and the analyses of [DataFlowAnalysis]
    (DataFlowAnalysis.cpp). The callbacks of the engine receive references to the sets
    of the result they may change; a reference is a [SetRef], the key of a set. *)
From S2P Require Import Prelude.

(** ** The code being analysed

    What the engine reads of an llvm function: its blocks in order, the instructions of
    each block, and the edges of the control flow graph. *)
Record CFG := mkCFG {
  blocks : list Ptr;
  insts : Ptr → list Ptr;
  getTerminator : Ptr → option Ptr;
  successors : Ptr → list Ptr;
  predecessors : Ptr → list Ptr
}.

(** [instructions(f)] *)
Definition instructions (f : CFG) : list Ptr := blocks f ≫= insts f.

(** ** DataFlowResult *)

Record DataFlowResult := mkDataFlowResult {
  gens : gmap Ptr (gset Ptr);
  kills : gmap Ptr (gset Ptr);
  ins : gmap Ptr (gset Ptr);
  outs : gmap Ptr (gset Ptr)
}.

Definition DataFlowResult_new : DataFlowResult := mkDataFlowResult ∅ ∅ ∅ ∅.

(** a [std::set<Value *> &] into one of the four maps *)
Inductive SetRef := GenOf (inst : Ptr) | KillOf (inst : Ptr) | InOf (inst : Ptr) | OutOf (inst : Ptr).
#[export] Instance SetRef_eq_dec : EqDecision SetRef.
Proof. solve_decision. Defined.

Definition read_set (df : DataFlowResult) (r : SetRef) : gset Ptr :=
  match r with
  | GenOf i => default ∅ (gens df !! i)
  | KillOf i => default ∅ (kills df !! i)
  | InOf i => default ∅ (ins df !! i)
  | OutOf i => default ∅ (outs df !! i)
  end.

Definition write_set (r : SetRef) (s : gset Ptr) (df : DataFlowResult) : DataFlowResult :=
  match r with
  | GenOf i => mkDataFlowResult (<[i := s]> (gens df)) (kills df) (ins df) (outs df)
  | KillOf i => mkDataFlowResult (gens df) (<[i := s]> (kills df)) (ins df) (outs df)
  | InOf i => mkDataFlowResult (gens df) (kills df) (<[i := s]> (ins df)) (outs df)
  | OutOf i => mkDataFlowResult (gens df) (kills df) (ins df) (<[i := s]> (outs df))
  end.

(** the subscript of a [std::map]: an absent key is inserted with an empty set *)
Definition subscript (r : SetRef) : M DataFlowResult SetRef :=
  modify (λ df, write_set r (read_set df r) df) ;;; ret r.

Definition GEN (inst : Ptr) : M DataFlowResult SetRef := subscript (GenOf inst).
Definition KILL (inst : Ptr) : M DataFlowResult SetRef := subscript (KillOf inst).
Definition IN (inst : Ptr) : M DataFlowResult SetRef := subscript (InOf inst).
Definition OUT (inst : Ptr) : M DataFlowResult SetRef := subscript (OutOf inst).

(** [r.insert(s.begin(), s.end())] *)
Definition insert_range (r : SetRef) (s : gset Ptr) : M DataFlowResult unit :=
  modify (λ df, write_set r (read_set df r ∪ s) df).
Definition insert_from (r from : SetRef) : M DataFlowResult unit :=
  let* s := gets (λ df, read_set df from) in insert_range r s.

(** ** The engine *)

Section engine.
Variable f : CFG.
Variables computeGEN computeKILL : Ptr → M DataFlowResult unit.

Definition computeGENAndKILL : M DataFlowResult unit :=
  forM (λ bb, forM (λ i, computeGEN i ;;; computeKILL i) (insts f bb)) (blocks f).

Variables initializeIN initializeOUT : Ptr → SetRef → M DataFlowResult unit.
Variables getPredecessors getSuccessors : Ptr → list Ptr.
Variable computeIN : Ptr → Ptr → SetRef → M DataFlowResult unit.
Variable computeOUT : Ptr → SetRef → M DataFlowResult unit.
Variable appendBB : list Ptr → Ptr → list Ptr.
Variables getFirstInstruction getLastInstruction : Ptr → option Ptr.
Variables getInSetOfInst getOutSetOfInst : Ptr → M DataFlowResult SetRef.
(** a [BasicBlock::iterator] is a position in the block, the length being [end()] *)
Variable getEndIterator : Ptr → nat.
Variable incrementIterator : nat → Res nat.

(** [BasicBlock::iterator iter(inst)] *)
Definition iteratorAt (bb inst : Ptr) : option nat := fst <$> list_find (eq inst) (insts f bb).

(** the loop over the rest of the block; it runs at most once per instruction *)
Fixpoint propagate (fuel : nat) (bb : Ptr) (iter : nat) (predI : Ptr)
    : M DataFlowResult unit :=
  if decide (iter = getEndIterator bb) then ret tt
  else
    match fuel with
    | O => fail OutOfFuel
    | S fuel =>
        let* iter := lift (incrementIterator iter) in
        let* i := deref (insts f bb !! iter) in
        let* inSetOfI := getInSetOfInst i in
        computeIN i predI inSetOfI ;;;
        let* outSetOfI := getOutSetOfInst i in
        computeOUT i outSetOfI ;;;
        propagate fuel bb iter i
    end.

(** One basic block. The result tells whether the successors are to be visited. *)
Definition processBlock (bb : Ptr) (computedOnce : gset Ptr) : M DataFlowResult bool :=
  let* inst := deref (getFirstInstruction bb) in
  let* inSetOfInst := getInSetOfInst inst in
  let* outSetOfInst := getOutSetOfInst inst in
  forM (λ predecessorBB,
    let* predecessorInst := deref (getLastInstruction predecessorBB) in
    computeIN inst predecessorInst inSetOfInst) (getPredecessors bb) ;;;
  let* oldSizeOut := gets (λ df, size (read_set df outSetOfInst)) in
  computeOUT inst outSetOfInst ;;;
  let* newSizeOut := gets (λ df, size (read_set df outSetOfInst)) in
  if bool_decide (bb ∉ computedOnce) || negb (newSizeOut =? oldSizeOut)%nat then
    let* iter := deref (iteratorAt bb inst) in
    propagate (S (length (insts f bb))) bb iter inst ;;;
    ret true
  else ret false.

(** one iteration of the loop over the working list *)
Definition workStep (st : DataFlowResult * list Ptr * gset Ptr)
    : Res (DataFlowResult * list Ptr * gset Ptr + DataFlowResult) :=
  let '(df, workingList, computedOnce) := st in
  match workingList with
  | [] => Ok (inr df)
  | bb :: workingList =>
      rbind (processBlock bb computedOnce df) (λ r,
        Ok (inl (if r.2 : bool
                 then (r.1, workingList ++ getSuccessors bb, {[bb]} ∪ computedOnce)
                 else (r.1, workingList, computedOnce))))
  end.

(** the two loops that come before the computation of the INs and OUTs *)
Definition initialize : M DataFlowResult unit :=
  forM (λ bb, forM (λ i,
    let* INSet := IN i in
    let* OUTSet := OUT i in
    initializeIN i INSet ;;;
    initializeOUT i OUTSet) (insts f bb)) (blocks f) ;;;
  computeGENAndKILL.

Definition applyGeneralizedForwardAnalysis (fuel : nat) : Res DataFlowResult :=
  rbind (initialize DataFlowResult_new) (λ r,
    while fuel workStep (r.1, foldl appendBB [] (blocks f), ∅)).
End engine.

(** an empty KILL set *)
Definition noKILL (_ : Ptr) : M DataFlowResult unit := ret tt.
(** [initializeIN] and [initializeOUT] of the backward analysis *)
Definition noInit (_ : Ptr) (_ : SetRef) : M DataFlowResult unit := ret tt.

(** [applyForward] with a KILL function *)
Definition applyForward (fuel : nat) (f : CFG) (computeGEN computeKILL : Ptr → M DataFlowResult unit)
    (initializeIN initializeOUT : Ptr → SetRef → M DataFlowResult unit)
    (computeIN : Ptr → Ptr → SetRef → M DataFlowResult unit)
    (computeOUT : Ptr → SetRef → M DataFlowResult unit) : Res DataFlowResult :=
  let appendBB workingList bb := workingList ++ [bb] in
  let getFirstInst bb := head (insts f bb) in
  let getEndIterator bb := length (insts f bb) in
  let incrementIterator iter := Ok (S iter) in
  applyGeneralizedForwardAnalysis f computeGEN computeKILL initializeIN initializeOUT
    (predecessors f) (successors f) computeIN computeOUT appendBB getFirstInst
    (getTerminator f) IN OUT getEndIterator incrementIterator fuel.

(** [applyForward] without a KILL function *)
Definition applyForward_noKILL (fuel : nat) (f : CFG) (computeGEN : Ptr → M DataFlowResult unit)
    (initializeIN initializeOUT : Ptr → SetRef → M DataFlowResult unit)
    (computeIN : Ptr → Ptr → SetRef → M DataFlowResult unit)
    (computeOUT : Ptr → SetRef → M DataFlowResult unit) : Res DataFlowResult :=
  applyForward fuel f computeGEN noKILL initializeIN initializeOUT computeIN computeOUT.

(** [applyBackward] with a KILL function: the roles of IN and OUT, of the predecessors and
    the successors and of the two ends of a block are exchanged *)
Definition applyBackward (fuel : nat) (f : CFG) (computeGEN computeKILL : Ptr → M DataFlowResult unit)
    (computeIN : Ptr → SetRef → M DataFlowResult unit)
    (computeOUT : Ptr → Ptr → SetRef → M DataFlowResult unit) : Res DataFlowResult :=
  let appendBB workingList bb := bb :: workingList in
  let getLastInst bb := head (insts f bb) in
  let getEndIterator (_ : Ptr) := 0 in
  let incrementIterator iter :=
    match iter with O => Fail UndefinedBehaviour | S iter => Ok iter end in
  applyGeneralizedForwardAnalysis f computeGEN computeKILL noInit noInit
    (successors f) (predecessors f) computeOUT computeIN appendBB (getTerminator f)
    getLastInst OUT IN getEndIterator incrementIterator fuel.

Definition applyBackward_noKILL (fuel : nat) (f : CFG) (computeGEN : Ptr → M DataFlowResult unit)
    (computeIN : Ptr → SetRef → M DataFlowResult unit)
    (computeOUT : Ptr → Ptr → SetRef → M DataFlowResult unit) : Res DataFlowResult :=
  applyBackward fuel f computeGEN noKILL computeIN computeOUT.

(** ** The analyses *)

(** [getFullSets(f)] *)
Definition getFullSets (f : CFG) : Res DataFlowResult :=
  rbind (forM (λ inst,
    let* inSetOfInst := IN inst in
    let* outSetOfInst := OUT inst in
    forM (λ inst2,
      insert_range inSetOfInst {[inst2]} ;;;
      insert_range outSetOfInst {[inst2]}) (instructions f)) (instructions f) DataFlowResult_new)
  (λ r, Ok r.1).

(** the equations of [runReachableAnalysis] *)
Definition reachGEN (filter : Ptr → bool) (i : Ptr) : M DataFlowResult unit :=
  if negb (filter i) then ret tt
  else let* gen := GEN i in insert_range gen {[i]}.
Definition reachOUT (inst succ : Ptr) (OUT : SetRef) : M DataFlowResult unit :=
  let* inS := IN succ in insert_from OUT inS.
Definition reachIN (inst : Ptr) (IN : SetRef) : M DataFlowResult unit :=
  let* genI := GEN inst in
  let* outI := OUT inst in
  insert_from IN genI ;;;
  insert_from IN outI.

(** enough iterations: every block is processed once at first, and then at most once per
    predecessor and per growth of the set of a successor *)
Definition reachFuel (f : CFG) : nat :=
  S (length (blocks f) +
     S (sum_list_with (λ b, length (predecessors f b)) (blocks f)) *
     (length (blocks f) * S (length (instructions f)))).

Definition runReachableAnalysis (f : CFG) (filter : Ptr → bool) : Res DataFlowResult :=
  applyBackward (reachFuel f) f (reachGEN filter) noKILL reachIN reachOUT.

(** [runReachableAnalysis(f)] with no filter *)
Definition runReachableAnalysis_all (f : CFG) : Res DataFlowResult :=
  runReachableAnalysis f (λ _, true).
