(* ===== verification/DataFlowSpec.v ===== *)
(** * The reachability analysis computes reachability

    The work-list engine run backwards with the equations of [runReachableAnalysis]
    terminates, and its result is the reachability of the control flow graph. The forward
    analysis walks past the end of a block. *)
From S2P Require Import Prelude DataFlow.

(** ** Control flow *)

(** a function as llvm keeps it: no instruction is in two places, a block ends in its
    terminator, and the predecessors are the inverse of the successors *)
Record wf_cfg (f : CFG) : Prop := {
  cf_unique b k b' k' i : b ∈ blocks f → b' ∈ blocks f →
    insts f b !! k = Some i → insts f b' !! k' = Some i → b = b' ∧ k = k';
  cf_terminator b : b ∈ blocks f → insts f b ≠ [] ∧ getTerminator f b = last (insts f b);
  cf_succ b b' : b ∈ blocks f → b' ∈ successors f b → b' ∈ blocks f;
  cf_pred b b' : b ∈ blocks f → b' ∈ predecessors f b ↔ b' ∈ blocks f ∧ b ∈ successors f b'
}.

(** [j] can be executed right after [i] *)
Definition next (f : CFG) (i j : Ptr) : Prop :=
  ∃ b, b ∈ blocks f ∧
    ((∃ k, insts f b !! k = Some i ∧ insts f b !! S k = Some j) ∨
     (∃ b', last (insts f b) = Some i ∧ b' ∈ successors f b ∧ head (insts f b') = Some j)).

Lemma elem_of_instructions f i :
  i ∈ instructions f ↔ ∃ b k, b ∈ blocks f ∧ insts f b !! k = Some i.
Proof.
  unfold instructions. rewrite list_elem_of_bind. setoid_rewrite list_elem_of_lookup.
  split; [intros (b & (k & ?) & ?); eauto|intros (b & k & ? & ?); eauto].
Qed.

(** ** The sets of a result *)

(** The analyses are about the sets a result holds; [operator[]] only adds empty ones. *)
Lemma read_write df r s r' :
  read_set (write_set r s df) r' = if decide (r = r') then s else read_set df r'.
Proof.
  case_decide as Hd; [subst; destruct r'; simpl; by rewrite lookup_insert_eq|].
  destruct r as [i|i|i|i], r' as [j|j|j|j]; simpl; try done;
    (rewrite lookup_insert_ne; [done|congruence]).
Qed.

Definition same_sets (df df' : DataFlowResult) : Prop := ∀ r, read_set df' r = read_set df r.
Definition set_updated (df : DataFlowResult) (r : SetRef) (s : gset Ptr) (df' : DataFlowResult) : Prop :=
  ∀ r', read_set df' r' = if decide (r = r') then s else read_set df r'.

Lemma wp_subscript r Q df :
  (∀ df', same_sets df df' → Q r df') → wp (subscript r) Q df.
Proof.
  intros HQ. unfold subscript. apply wp_bind, wp_modify, wp_ret, HQ. intros r'.
  rewrite read_write. by case_decide; subst.
Qed.

Lemma wp_insert_range r s Q df :
  (∀ df', set_updated df r (read_set df r ∪ s) df' → Q tt df') → wp (insert_range r s) Q df.
Proof. intros HQ. unfold insert_range. apply wp_modify, HQ. intros r'. apply read_write. Qed.

Lemma reachOUT_spec i j r df :
  wp (reachOUT i j r)
     (λ _ df', set_updated df r (read_set df r ∪ read_set df (InOf j)) df') df.
Proof.
  unfold reachOUT, IN, insert_from. apply wp_bind, wp_subscript. intros df1 H1.
  apply wp_bind, wp_gets, wp_insert_range. intros df2 H2 r'. rewrite H2, !H1. done.
Qed.

Lemma reachIN_spec i df :
  wp (reachIN i (InOf i))
     (λ _ df', set_updated df (InOf i)
        (read_set df (InOf i) ∪ read_set df (GenOf i) ∪ read_set df (OutOf i)) df') df.
Proof.
  unfold reachIN, GEN, OUT, insert_from. apply wp_bind, wp_subscript. intros df1 H1.
  apply wp_bind, wp_subscript. intros df2 H2.
  apply wp_bind, wp_bind, wp_gets, wp_insert_range. intros df3 H3.
  apply wp_bind, wp_gets, wp_insert_range. intros df4 H4 r'.
  rewrite H4. case_decide as Hd; [|by rewrite H3, decide_False, H2, H1].
  rewrite (H3 (InOf i)), decide_True, (H3 (OutOf i)), decide_False, !H2, !H1 by done. done.
Qed.

(** ** One block *)

Section reach.
Context (f : CFG) (filt : Ptr → bool) (WF : wf_cfg f).

(** Every set of the result is sound, and the GEN sets are those of the analysis. *)
Record good (df : DataFlowResult) : Prop := {
  g_gen i : i ∈ instructions f → read_set df (GenOf i) = if filt i then {[i]} else ∅;
  g_in i v : i ∈ instructions f → v ∈ read_set df (InOf i) → filt v = true ∧ rtc (next f) i v;
  g_out i v : i ∈ instructions f → v ∈ read_set df (OutOf i) → filt v = true ∧ tc (next f) i v
}.

(** the equations of the [k]-th instruction [i] of block [b] *)
Definition settled_at (df : DataFlowResult) (b : Ptr) (k : nat) (i : Ptr) : Prop :=
  read_set df (GenOf i) ∪ read_set df (OutOf i) ⊆ read_set df (InOf i) ∧
  ∀ j, insts f b !! S k = Some j → read_set df (InOf j) ⊆ read_set df (OutOf i).
Definition settled df b : Prop := ∀ k i, insts f b !! k = Some i → settled_at df b k i.

(** the equation of the edge from block [b] to block [b'] *)
Definition linked_to df (b b' : Ptr) : Prop :=
  ∀ t h, last (insts f b) = Some t → head (insts f b') = Some h →
    read_set df (InOf h) ⊆ read_set df (OutOf t).

Definition ref_inst (r : SetRef) : Ptr :=
  match r with GenOf i | KillOf i | InOf i | OutOf i => i end.

Lemma good_same df df' : same_sets df df' → good df → good df'.
Proof. intros H [G1 G2 G3]. split; intros i; [|intros v..]; rewrite H; auto. Qed.

Lemma good_out df df' i s : set_updated df (OutOf i) s df' → good df →
  (∀ v, v ∈ s → filt v = true ∧ tc (next f) i v) → good df'.
Proof.
  intros H [G1 G2 G3] Hs. split; intros i'; [|intros v..]; rewrite H.
  - rewrite decide_False by done. auto.
  - rewrite decide_False by done. auto.
  - case_decide as Hd; [|auto]. injection Hd as <-. auto.
Qed.

Lemma good_in df df' i :
  set_updated df (InOf i) (read_set df (InOf i) ∪ read_set df (GenOf i) ∪ read_set df (OutOf i)) df' →
  i ∈ instructions f → good df → good df'.
Proof.
  intros H Hi [G1 G2 G3]. split; intros i'; [|intros v..]; rewrite H.
  - rewrite decide_False by done. auto.
  - case_decide as Hd; [|auto]. injection Hd as <-. intros _. rewrite !elem_of_union.
    intros [[Hv|Hv]|Hv]; [by apply G2| |].
    + rewrite G1 in Hv by done. destruct (filt i) eqn:Hf; [|set_solver].
      apply elem_of_singleton in Hv as ->. auto with noelle.
    + destruct (G3 i v Hi Hv). split; [done|]. by apply tc_rtc.
  - rewrite decide_False by done. auto.
Qed.

Lemma in_block b k i : b ∈ blocks f → insts f b !! k = Some i → i ∈ instructions f.
Proof. intros Hb Hk. apply elem_of_instructions. eauto. Qed.

(** The loop over the rest of a block settles it. *)
Lemma propagate_spec b : b ∈ blocks f → ∀ k predI fuel df,
  insts f b !! k = Some predI → k < fuel → good df →
  (∀ k' i, k ≤ k' → insts f b !! k' = Some i → settled_at df b k' i) →
  wp (propagate f reachOUT reachIN OUT IN (λ _, 0)
        (λ iter, match iter with O => Fail UndefinedBehaviour | S iter => Ok iter end)
        fuel b k predI)
     (λ _ df', good df' ∧ settled df' b ∧ (∀ r, read_set df r ⊆ read_set df' r) ∧
        (∀ r, ref_inst r ∉ insts f b → read_set df' r = read_set df r)) df.
Proof.
  intros Hb. induction k as [|k IH]; intros predI fuel df Hk Hfuel Hg Hset;
    (destruct fuel as [|fuel]; [lia|]).
  { simpl. rewrite ?decide_True by done. apply wp_ret. split_and!; try done.
    intros k' i Hi. apply Hset; [lia|done]. }
  cbn [propagate]. rewrite decide_False by done.
  assert (is_Some (insts f b !! k)) as [i Hi].
  { apply lookup_lt_is_Some. apply lookup_lt_Some in Hk. lia. }
  pose proof (in_block _ _ _ Hb Hi) as Hin.
  assert (i ≠ predI) as Hne.
  { intros ->. destruct (cf_unique f WF b k b (S k) predI Hb Hb Hi Hk). lia. }
  apply wp_bind, wp_ret, wp_bind. rewrite Hi. apply wp_ret, wp_bind.
  apply wp_subscript. intros df1 H1. apply wp_bind.
  eapply wp_mono; [apply reachOUT_spec|]. intros [] df2 H2. apply wp_bind.
  apply wp_subscript. intros df3 H3. apply wp_bind.
  eapply wp_mono; [apply reachIN_spec|]. intros [] df4 H4.
  assert (good df2) as Hg2.
  { eapply good_out; [apply H2|by eapply good_same|]. intros v. rewrite !H1, elem_of_union.
    intros [Hv|Hv]; [by apply (g_out _ Hg)|].
    destruct (g_in _ Hg predI v (in_block _ _ _ Hb Hk) Hv) as [? Hr]. split; [done|].
    eapply tc_rtc_r; [|done]. apply tc_once. exists b. split; [done|]. left. eauto. }
  assert (good df4) as Hg4.
  { eapply good_in; [apply H4|done|]. by eapply good_same. }
  assert (∀ r, ref_inst r ≠ i → read_set df4 r = read_set df r) as Hframe.
  { intros r Hr. rewrite H4, decide_False by (intros <-; done).
    rewrite H3, H2, decide_False by (intros <-; done). apply H1. }
  assert (∀ r, read_set df r ⊆ read_set df4 r) as Hmono.
  { intros r. rewrite H4, !H3, !H2, !H1.
    repeat case_decide; simplify_eq; set_solver. }
  eapply wp_mono; [apply (IH i fuel df4 Hi); [lia|done|]|].
  - intros k' i' Hle Hi'. destruct (decide (k' = k)) as [->|Hk'].
    + assert (i' = i) as -> by congruence. split.
      * rewrite (H4 (InOf i)), decide_True by done.
        rewrite (H4 (GenOf i)), decide_False by done.
        rewrite (H4 (OutOf i)), decide_False by done. set_solver.
      * intros j Hj. assert (j = predI) as -> by congruence.
        rewrite (Hframe (InOf predI)) by (simpl; congruence).
        rewrite (H4 (OutOf i)), decide_False, H3, H2, decide_True by done.
        rewrite !H1. set_solver.
    + assert (i' ≠ i) as Hn.
      { intros ->. destruct (cf_unique f WF b k b k' i Hb Hb Hi Hi'). lia. }
      destruct (Hset k' i' ltac:(lia) Hi') as [Ha Hb']. split.
      * rewrite !Hframe by done. done.
      * intros j Hj. assert (j ≠ i) as Hnj.
        { intros ->. destruct (cf_unique f WF b k b (S k') i Hb Hb Hi Hj). lia. }
        rewrite !Hframe by done. by apply Hb'.
  - intros [] df' (Hg' & Hs' & Hm' & Hf'). split_and!; [done..| |].
    + intros r. etrans; [apply Hmono|apply Hm'].
    + intros r Hr. rewrite Hf' by done. apply Hframe. intros Heq. apply Hr. rewrite Heq.
      by eapply list_elem_of_lookup_2.
Qed.

(** What processing a block achieves; [r] tells whether its predecessors are pushed. *)
Record processed (df : DataFlowResult) (once : gset Ptr) (b : Ptr) (r : bool)
    (df' : DataFlowResult) : Prop := {
  pr_good : good df';
  pr_settled : settled df' b;
  pr_mono x : read_set df x ⊆ read_set df' x;
  pr_frame x : ref_inst x ∉ insts f b → read_set df' x = read_set df x;
  pr_linked b' : b' ∈ successors f b → (r = true → b' ≠ b) → linked_to df' b b';
  pr_true t : r = true → last (insts f b) = Some t →
    b ∉ once ∨ size (read_set df (InOf t)) < size (read_set df' (InOf t));
  pr_false : r = false → b ∈ once ∧ ∀ i, read_set df' (InOf i) = read_set df (InOf i)
}.

(** the loop that collects the INs of the successors into the OUT of the terminator *)
Lemma collect_spec b t df : b ∈ blocks f → last (insts f b) = Some t → good df →
  wp (forM (λ predecessorBB,
        let* predecessorInst := deref (head (insts f predecessorBB)) in
        reachOUT t predecessorInst (OutOf t)) (successors f b))
     (λ _ df', good df' ∧ (∀ b', b' ∈ successors f b → linked_to df' b b') ∧
        (∀ r, r ≠ OutOf t → read_set df' r = read_set df r) ∧
        read_set df (OutOf t) ⊆ read_set df' (OutOf t)) df.
Proof.
  intros Hb Ht Hg.
  apply (wp_forM _ (λ pre _ df', good df' ∧ (∀ b', b' ∈ pre → linked_to df' b b') ∧
        (∀ r, r ≠ OutOf t → read_set df' r = read_set df r) ∧
        read_set df (OutOf t) ⊆ read_set df' (OutOf t))).
  { split_and!; [done|set_solver|done..]. }
  intros pre b' post df1 Hl (Hg1 & Hlink & Hfr & Hsub).
  assert (b' ∈ successors f b) as Hb' by (rewrite Hl; set_solver).
  destruct (cf_terminator f WF b') as [Hne _]; [by eapply cf_succ|].
  destruct (insts f b') as [|h l] eqn:Hins; [done|]. apply wp_bind. simpl. apply wp_ret.
  eapply wp_mono; [apply reachOUT_spec|]. intros [] df2 H2.
  assert (next f t h) as Hnext.
  { exists b. split; [done|]. right. exists b'. by rewrite Hins. }
  split_and!.
  - eapply good_out; [apply H2|done|]. intros v. rewrite elem_of_union. intros [Hv|Hv].
    + destruct (decide (t ∈ instructions f)) as [Hi|Hi]; [by apply (g_out _ Hg1)|].
      destruct Hi. apply elem_of_instructions. apply last_Some_elem_of, list_elem_of_lookup in Ht as [??].
      eauto.
    + destruct (g_in _ Hg1 h v) as [? Hr]; [|done|].
      { eapply (in_block b' 0); [by eapply cf_succ|]. by rewrite Hins. }
      split; [done|]. eapply tc_rtc_r; [|done]. by apply tc_once.
  - intros b'' Hb'' t' h' Ht' Hh'. apply elem_of_snoc in Hb'' as [Hb''| ->]; (assert (t' = t) as -> by congruence);
      rewrite (H2 (OutOf t)), decide_True, (H2 (InOf h')), decide_False by done.
    + pose proof (Hlink b'' Hb'' t h' Ht Hh'). set_solver.
    + rewrite Hins in Hh'. injection Hh' as <-. set_solver.
  - intros r Hr. rewrite H2, decide_False by done. by apply Hfr.
  - change (read_set df (OutOf t) ⊆ read_set df2 (OutOf t)).
    rewrite (H2 (OutOf t)), decide_True by done. set_solver.
Qed.

(** the method applied to the equations of the analysis *)
Definition reachBlock (b : Ptr) (once : gset Ptr) : M DataFlowResult bool :=
  processBlock f (successors f) reachOUT reachIN (getTerminator f) (λ bb, head (insts f bb))
    OUT IN (λ _, 0)
    (λ iter, match iter with O => Fail UndefinedBehaviour | S iter => Ok iter end) b once.

Lemma iteratorAt_last b t : b ∈ blocks f → last (insts f b) = Some t →
  ∃ k, iteratorAt f b t = Some k ∧ insts f b !! k = Some t ∧
    S k = length (insts f b).
Proof.
  intros Hb Ht. rewrite last_lookup in Ht.
  destruct (list_find_elem_of (eq t) (insts f b) t) as [[k x] Hk];
    [by eapply list_elem_of_lookup_2|done|].
  unfold iteratorAt. rewrite Hk. exists k.
  apply list_find_Some in Hk as (Hk & <- & _). split_and!; [done..|].
  destruct (cf_unique f WF _ _ _ _ _ Hb Hb Hk Ht) as [_ ->].
  apply lookup_lt_Some in Hk. lia.
Qed.

(** [reachIN] at the terminator of a block *)
Lemma terminator_in_spec b t df df' : b ∈ blocks f → last (insts f b) = Some t → good df →
  set_updated df (InOf t) (read_set df (InOf t) ∪ read_set df (GenOf t) ∪ read_set df (OutOf t)) df' →
  good df' ∧ (∀ r, read_set df r ⊆ read_set df' r) ∧
  (∀ k i, length (insts f b) ≤ S k → insts f b !! k = Some i → settled_at df' b k i).
Proof.
  intros Hb Ht Hg H. split_and!.
  - eapply good_in; [done| |done]. rewrite last_lookup in Ht. by eapply in_block.
  - intros r. rewrite H. case_decide; [subst|done]. set_solver.
  - intros k i Hk Hi. pose proof (lookup_lt_Some _ _ _ Hi).
    assert (i = t) as ->.
    { rewrite last_lookup in Ht. replace (pred (length (insts f b))) with k in Ht by lia. congruence. }
    split.
    + rewrite (H (InOf t)), decide_True, (H (GenOf t)), decide_False, (H (OutOf t)), decide_False
        by done. set_solver.
    + intros j Hj. apply lookup_lt_Some in Hj. lia.
Qed.

Lemma size_grows (X Y : gset Ptr) : X ⊆ Y → size Y ≠ size X → size X < size Y.
Proof. intros HXY Hne. pose proof (subseteq_size X Y HXY). lia. Qed.
Lemma same_size (X Y : gset Ptr) : X ⊆ Y → size Y = size X → Y = X.
Proof.
  intros HXY Hs. apply set_eq. intros x. split; [|apply HXY]. intros Hx.
  destruct (decide (x ∈ X)) as [|Hn]; [done|]. pose proof (size_subseteq_lt X Y x HXY Hx Hn). lia.
Qed.

Lemma in_insts b k i : insts f b !! k = Some i → i ∈ insts f b.
Proof. apply list_elem_of_lookup_2. Qed.

Lemma processBlock_spec df once b : b ∈ blocks f → good df → (b ∈ once → settled df b) →
  wp (reachBlock b once) (processed df once b) df.
Proof.
  intros Hb Hg Hset. destruct (cf_terminator f WF b Hb) as [Hne Hterm].
  destruct (last (insts f b)) as [t|] eqn:Ht; [|by apply last_None in Ht].
  assert (t ∈ insts f b) as Htb by (rewrite last_lookup in Ht; by eapply in_insts).
  unfold reachBlock, processBlock. apply wp_bind. rewrite Hterm. apply wp_ret, wp_bind.
  apply wp_subscript. intros df1 H1. apply wp_bind, wp_subscript. intros df2 H2.
  apply wp_bind. eapply wp_mono; [eapply (collect_spec b t); [done..|]|].
  { eapply good_same; [apply H2|]. by eapply good_same. }
  intros [] df3 (Hg3 & Hlink3 & Hfr3 & Hsub3).
  apply wp_bind, wp_gets, wp_bind. eapply wp_mono; [apply reachIN_spec|]. intros [] df4 H4.
  destruct (terminator_in_spec b t df3 df4 Hb Ht Hg3 H4) as (Hg4 & Hm4 & Hs4).
  assert (∀ r, r ≠ OutOf t → r ≠ InOf t → read_set df4 r = read_set df r) as Hfr4.
  { intros r Hr Hr'. rewrite H4, decide_False, Hfr3, H2, H1 by done. done. }
  assert (∀ r, read_set df r ⊆ read_set df4 r) as Hmono.
  { intros r. etrans; [|apply Hm4]. destruct (decide (r = OutOf t)) as [->|Hr].
    - etrans; [|apply Hsub3]. by rewrite H2, H1.
    - by rewrite Hfr3, H2, H1. }
  assert (∀ b', b' ∈ successors f b → linked_to df3 b b') as Hl by done.
  apply wp_bind, wp_gets.
  assert (read_set df3 (InOf t) = read_set df (InOf t)) as E3.
  { by rewrite Hfr3, H2, H1. }
  assert (OutOf t ≠ InOf t) as Hneq by done.
  assert (read_set df4 (OutOf t) = read_set df3 (OutOf t)) as E4 by (by rewrite H4, decide_False).
  assert (∀ df', (∀ r, read_set df4 r ⊆ read_set df' r) →
            (∀ r, ref_inst r ∉ insts f b → read_set df' r = read_set df4 r) →
            ∀ b', b' ∈ successors f b → b' ≠ b → linked_to df' b b') as Hlinks.
  { intros df' Hm Hfr b' Hb' Hbb t' h Ht' Hh. assert (t' = t) as -> by congruence.
    assert (h ∉ insts f b) as Hh'.
    { intros [k Hk]%list_elem_of_lookup. rewrite head_lookup in Hh.
      destruct (cf_unique f WF b k b' 0 h); [done| by eapply cf_succ|done..]. }
    rewrite Hfr by done. rewrite Hfr4 by (intros [=]; by subst).
    etrans; [|apply Hm]. rewrite E4.
    pose proof (Hl b' Hb' t h Ht Hh) as Hx. rewrite Hfr3 in Hx by done.
    by rewrite H2, H1 in Hx. }
  destruct (bool_decide (b ∉ once) || negb (size (read_set df4 (InOf t)) =? size (read_set df3 (InOf t)))%nat)
    eqn:Hch.
  - destruct (iteratorAt_last b t Hb Ht) as (k & Hk & Hkt & Hlen).
    apply wp_bind. rewrite Hk. apply wp_ret, wp_bind.
    eapply wp_mono; [apply (propagate_spec b Hb k t); [done|lia|done|]|].
    { intros k' i Hle Hi. apply Hs4; [lia|done]. }
    intros [] df' (Hg' & Hs' & Hm' & Hf'). apply wp_ret. split; try done.
    + intros x. etrans; [apply Hmono|apply Hm'].
    + intros x Hx. rewrite Hf' by done. apply Hfr4; intros ->; done.
    + intros b' Hb' Hbb. by apply (Hlinks df'); auto.
    + intros t' _ Ht'. assert (t' = t) as -> by congruence.
      apply orb_true_iff in Hch as [Hch|Hch]; [left; by apply bool_decide_eq_true in Hch|].
      right. apply negb_true_iff, Nat.eqb_neq in Hch. rewrite E3 in Hch.
      pose proof (size_grows _ _ (Hmono (InOf t)) Hch).
      pose proof (subseteq_size _ _ (Hm' (InOf t))). lia.
  - apply orb_false_iff in Hch as [Hch1 Hch2]. apply bool_decide_eq_false, dec_stable in Hch1.
    apply negb_false_iff, Nat.eqb_eq in Hch2. rewrite E3 in Hch2.
    pose proof (same_size _ _ (Hmono (InOf t)) Hch2) as E.
    assert (∀ i, read_set df4 (InOf i) = read_set df (InOf i)) as Hin4.
    { intros i. destruct (decide (i = t)) as [->|]; [done|]. apply Hfr4; congruence. }
    apply wp_ret. split; try done.
    + intros k i Hi. destruct (decide (length (insts f b) ≤ S k)) as [|Hk]; [by apply Hs4|].
      assert (i ≠ t) as Hit.
      { intros ->. rewrite last_lookup in Ht.
        destruct (cf_unique f WF _ _ _ _ _ Hb Hb Hi Ht) as [_ ->]. destruct (insts f b); simpl in *; [done|lia]. }
      destruct (Hset Hch1 k i Hi) as [Ha Hb']. split.
      * rewrite !Hfr4 by congruence. done.
      * intros j Hj. rewrite Hin4, (Hfr4 (OutOf i)) by congruence. by apply Hb'.
    + intros x Hx. apply Hfr4; intros ->; done.
    + intros b' Hb' _ t' h Ht' Hh. assert (t' = t) as -> by congruence.
      rewrite Hin4, E4. pose proof (Hl b' Hb' t h Ht Hh) as Hx.
      rewrite Hfr3 in Hx by done. by rewrite H2, H1 in Hx.
Qed.

(** ** The working list *)

(** The invariant of the loop: what is not settled is still in the working list. *)
Record working (df : DataFlowResult) (wl : list Ptr) (once : gset Ptr) : Prop := {
  wk_good : good df;
  wk_blocks b : b ∈ wl → b ∈ blocks f;
  wk_once b : b ∈ blocks f → b ∈ once ∨ b ∈ wl;
  wk_settled b : b ∈ blocks f → b ∈ once → settled df b;
  wk_linked b b' : b ∈ blocks f → b' ∈ successors f b → b ∈ wl ∨ linked_to df b b'
}.

Lemma disjoint_blocks b c i : b ∈ blocks f → c ∈ blocks f → b ≠ c →
  i ∈ insts f b → i ∉ insts f c.
Proof.
  intros Hb Hc Hne [k Hk]%list_elem_of_lookup [k' Hk']%list_elem_of_lookup.
  by destruct (cf_unique f WF b k c k' i Hb Hc Hk Hk').
Qed.

Lemma working_step df b wl once r df' : working df (b :: wl) once →
  processed df once b r df' →
  working df' (if r then wl ++ predecessors f b else wl) (if r then {[b]} ∪ once else once).
Proof.
  intros [Hg Hbl Hon Hse Hli] [Pg Ps Pm Pf Pl Pt Pff].
  assert (b ∈ blocks f) as Hb by (apply Hbl; set_solver).
  assert (∀ c, c ∈ wl → c ∈ (if r then wl ++ predecessors f b else wl)) as Hin
    by (destruct r; set_solver).
  assert (b ∈ (if r then {[b]} ∪ once else once)) as Hbon.
  { destruct r; [set_solver|]. by apply Pff. }
  split; [done|..].
  - intros c Hc. destruct r; [|apply Hbl; set_solver].
    apply elem_of_app in Hc as [Hc|Hc]; [apply Hbl; set_solver|].
    by apply (cf_pred f WF) in Hc as [? _].
  - intros c Hc. destruct (decide (c = b)) as [->|Hcb]; [auto|].
    destruct (Hon c Hc) as [?|Hw]; [left; destruct r; set_solver|].
    right. apply Hin. set_solver.
  - intros c Hc Hco. destruct (decide (c = b)) as [->|Hcb]; [done|].
    intros k i Hi. destruct (Hse c Hc) with k i as [Ha Hb']; [destruct r; set_solver|done|].
    assert (∀ j k', insts f c !! k' = Some j → j ∉ insts f b) as Hout.
    { intros j k' Hj. eapply (disjoint_blocks c b); [done..|]. by eapply in_insts. }
    split; [rewrite !Pf by (simpl; eauto); done|].
    intros j Hj. rewrite !Pf by (simpl; eauto). by apply Hb'.
  - intros c c' Hc Hc'. destruct (decide (c = b)) as [->|Hcb].
    + destruct r; [|right; by apply Pl].
      destruct (decide (c' = b)) as [->|Hne]; [|right; by apply Pl].
      left. apply elem_of_app. right. by apply (cf_pred f WF).
    + destruct (Hli c c' Hc Hc') as [Hw|Hw]; [left; apply Hin; set_solver|].
      destruct (decide (r = true ∧ c' = b)) as [[-> ->]|Hn].
      * left. apply elem_of_app. right. by apply (cf_pred f WF).
      * right. intros t h Ht Hh. rewrite (Pf (OutOf t)).
        2:{ rewrite last_lookup in Ht. eapply (disjoint_blocks c b); [done..|]. by eapply in_insts. }
        destruct r.
        { rewrite Pf; [by apply Hw|]. rewrite head_lookup in Hh.
          eapply (disjoint_blocks c' b); [by eapply cf_succ|done|naive_solver|by eapply in_insts]. }
        destruct (Pff eq_refl) as [_ ->]. by apply Hw.
Qed.

(** ** Termination *)

(** how often a block can still push its predecessors *)
Definition pending (df : DataFlowResult) (once : gset Ptr) (b : Ptr) : nat :=
  (if decide (b ∈ once) then 0 else 1) +
  (length (instructions f) -
   match last (insts f b) with Some t => size (read_set df (InOf t)) | None => 0 end).
Definition fanIn : nat := sum_list_with (λ b, length (predecessors f b)) (blocks f).
Definition work (df : DataFlowResult) (wl : list Ptr) (once : gset Ptr) : nat :=
  length wl + S fanIn * sum_list_with (pending df once) (blocks f).

Lemma next_in i j : next f i j → j ∈ instructions f.
Proof.
  intros (b & Hb & [(k & _ & Hj)|(b' & _ & Hb' & Hh)]); apply elem_of_instructions; [eauto|].
  rewrite head_lookup in Hh. exists b', 0. split; [by eapply cf_succ|done].
Qed.

Lemma in_set_bound df t : good df → t ∈ instructions f →
  size (read_set df (InOf t)) ≤ length (instructions f).
Proof.
  intros Hg Ht. rewrite <- (size_list_to_set_le (instructions f)).
  apply subseteq_size. intros v Hv. apply elem_of_list_to_set.
  destruct (g_in _ Hg t v Ht Hv) as [_ Hr].
  by eapply (rtc_closed (next f) (λ x, x ∈ instructions f)); [intros; eapply next_in| |].
Qed.

Lemma pending_mono df once b r df' c : c ∈ blocks f → processed df once b r df' → good df →
  pending df' (if r then {[b]} ∪ once else once) c ≤ pending df once c ∧
  (r = true → c = b → pending df' ({[b]} ∪ once) c < pending df once c).
Proof.
  intros Hc Hp Hg. unfold pending.
  destruct (last (insts f c)) as [t|] eqn:Ht.
  2:{ apply last_None in Ht. by destruct (cf_terminator f WF c Hc). }
  assert (t ∈ instructions f) as Hti.
  { rewrite last_lookup in Ht. by eapply in_block. }
  pose proof (in_set_bound df' t (pr_good _ _ _ _ _ Hp) Hti) as Hle.
  pose proof (subseteq_size _ _ (pr_mono _ _ _ _ _ Hp (InOf t))) as Hm.
  split.
  - destruct r; repeat case_decide; set_solver by lia.
  - intros -> ->. rewrite (decide_True (P := b ∈ {[b]} ∪ once)) by set_solver.
    destruct (pr_true _ _ _ _ _ Hp t eq_refl Ht) as [Hn|Hs].
    + rewrite decide_False by done. lia.
    + case_decide; lia.
Qed.

Lemma work_decreases df b wl once r df' : working df (b :: wl) once →
  processed df once b r df' →
  work df' (if r then wl ++ predecessors f b else wl) (if r then {[b]} ∪ once else once) <
  work df (b :: wl) once.
Proof.
  intros Hw Hp. pose proof (wk_good _ _ _ Hw) as Hg.
  assert (b ∈ blocks f) as Hb by (apply (wk_blocks _ _ _ Hw); set_solver).
  unfold work. simpl length. destruct r.
  - assert (sum_list_with (pending df' ({[b]} ∪ once)) (blocks f) <
            sum_list_with (pending df once) (blocks f)) as Hlt.
    { apply sum_list_with_lt with b; [done| |].
      - intros c Hc. by apply (pending_mono df once b true df' c).
      - by apply (pending_mono df once b true df' b). }
    pose proof (sum_list_with_in b (λ b, length (predecessors f b)) (blocks f) Hb) as Hin.
    fold fanIn in Hin. cbv beta in Hin. rewrite length_app. nia.
  - assert (sum_list_with (pending df' once) (blocks f) ≤
            sum_list_with (pending df once) (blocks f)) as Hle; [|nia].
    apply sum_list_with_le. intros c Hc. by apply (pending_mono df once b false df' c).
Qed.

(** ** The initial state *)

(** the sets after the GEN sets of the instructions [done_] have been computed *)
Definition generated (done_ : list Ptr) (df : DataFlowResult) : Prop :=
  (∀ i, read_set df (InOf i) = ∅ ∧ read_set df (OutOf i) = ∅) ∧
  (∀ i, read_set df (GenOf i) ⊆ if filt i then {[i]} else ∅) ∧
  (∀ i, i ∈ done_ → read_set df (GenOf i) = if filt i then {[i]} else ∅).

Lemma generated_same done_ df df' : same_sets df df' → generated done_ df → generated done_ df'.
Proof.
  intros H (H1 & H2 & H3). split_and!; intros i; [|rewrite H|intros Hi; rewrite H]; auto.
  rewrite !H. auto.
Qed.

Lemma reachGEN_spec done_ i df : generated done_ df →
  wp (reachGEN filt i) (λ _ df', generated (done_ ++ [i]) df') df.
Proof.
  intros (H1 & H2 & H3). unfold reachGEN. destruct (filt i) eqn:Hf; simpl.
  - apply wp_bind, wp_subscript. intros df1 Hs. apply wp_insert_range. intros df2 Hu.
    split_and!.
    + intros j. rewrite !Hu, !decide_False, !Hs by done. apply H1.
    + intros j. rewrite Hu. case_decide as Hd; [|rewrite Hs; apply H2].
      injection Hd as <-. rewrite Hs, Hf. pose proof (H2 i) as Hg. rewrite Hf in Hg. set_solver.
    + intros j Hj. rewrite Hu. case_decide as Hd.
      * injection Hd as <-. rewrite Hs, Hf. pose proof (H2 i) as Hg. rewrite Hf in Hg. set_solver.
      * rewrite Hs. apply H3. apply elem_of_snoc in Hj as [|Hj]; [done|congruence].
  - apply wp_ret. split_and!; [done..|]. intros j Hj. apply elem_of_snoc in Hj as [| ->]; [auto|].
    pose proof (H2 i) as Hg. rewrite Hf in *. set_solver.
Qed.

Lemma initialize_spec :
  wp (initialize f (reachGEN filt) noKILL noInit noInit)
     (λ _ df, generated (instructions f) df) DataFlowResult_new.
Proof.
  unfold initialize. apply wp_bind. eapply wp_mono.
  { apply (wp_forM_inv _ (λ df, generated [] df)).
    - split_and!; [by split|by intros; apply empty_subseteq|set_solver].
    - intros b df _ Hdf. apply wp_forM_inv; [done|]. clear df Hdf. intros i df _ Hdf.
      apply wp_bind, wp_subscript. intros df1 H1. apply wp_bind, wp_subscript. intros df2 H2.
      apply wp_bind, wp_ret, wp_ret. eapply generated_same; [done|]. by eapply generated_same. }
  intros [] df Hdf. unfold computeGENAndKILL.
  apply (wp_forM _ (λ pre _ df, generated (pre ≫= insts f) df)); [done|]. clear df Hdf.
  intros pre b post df _ Hdf. rewrite bind_app. simpl. rewrite app_nil_r.
  apply (wp_forM _ (λ pre' _ df, generated ((pre ≫= insts f) ++ pre') df)); [by rewrite app_nil_r|].
  clear df Hdf. intros pre' i post' df _ Hdf. apply wp_bind.
  eapply wp_mono; [by apply reachGEN_spec|]. intros [] df' Hdf'. apply wp_ret.
  by rewrite (assoc_L (++)).
Qed.

Lemma foldl_cons_reverse (l acc : list Ptr) : foldl (λ wl bb, bb :: wl) acc l = reverse l ++ acc.
Proof.
  revert acc. induction l as [|x l IH]; intros acc; simpl; [done|].
  by rewrite IH, reverse_cons, <- (assoc_L (++)).
Qed.

Lemma working_start df : generated (instructions f) df →
  working df (foldl (λ wl bb, bb :: wl) [] (blocks f)) ∅.
Proof.
  intros (H1 & H2 & H3). rewrite foldl_cons_reverse, app_nil_r.
  split.
  - split; [done|..]; intros i v _; destruct (H1 i) as [Ha Hb]; rewrite ?Ha, ?Hb; set_solver.
  - intros b. by rewrite elem_of_reverse.
  - intros b. rewrite elem_of_reverse. auto.
  - set_solver.
  - intros b b' Hb _. left. by rewrite elem_of_reverse.
Qed.

Lemma work_start df : generated (instructions f) df →
  work df (foldl (λ wl bb, bb :: wl) [] (blocks f)) ∅ < reachFuel f.
Proof.
  intros Hdf. unfold work, reachFuel. rewrite foldl_cons_reverse, app_nil_r, length_reverse.
  fold fanIn. pose proof (sum_list_with_bound (pending df ∅) (blocks f)
    (S (length (instructions f)))) as Hs.
  assert (sum_list_with (pending df ∅) (blocks f) ≤
          length (blocks f) * S (length (instructions f))); [|nia].
  apply Hs. intros b _. unfold pending. destruct (decide _); lia.
Qed.

(** When the working list is empty the equations hold everywhere, so the sets are complete. *)
Lemma settled_complete df once : working df [] once →
  (∀ i v, i ∈ instructions f → rtc (next f) i v → filt v = true → v ∈ read_set df (InOf i)) ∧
  (∀ i v, i ∈ instructions f → tc (next f) i v → filt v = true → v ∈ read_set df (OutOf i)).
Proof.
  intros [Hg _ Hon Hse Hli].
  assert (∀ b, b ∈ blocks f → settled df b) as Hset.
  { intros b Hb. apply Hse; [done|]. destruct (Hon b Hb); set_solver. }
  assert (∀ i, i ∈ instructions f →
            read_set df (GenOf i) ∪ read_set df (OutOf i) ⊆ read_set df (InOf i)) as Hio.
  { intros i (b & k & Hb & Hk)%elem_of_instructions. by apply (Hset b Hb k i Hk). }
  assert (∀ i j, next f i j → read_set df (InOf j) ⊆ read_set df (OutOf i)) as Hnext.
  { intros i j (b & Hb & [(k & Hi & Hj)|(b' & Ht & Hb' & Hh)]).
    - by apply (Hset b Hb k i Hi).
    - destruct (Hli b b' Hb Hb') as [Hw|Hw]; [set_solver|]. by apply Hw. }
  assert (∀ i v, rtc (next f) i v → i ∈ instructions f → filt v = true →
            v ∈ read_set df (InOf i)) as Hin.
  { induction 1 as [v|i j v Hij Hr IH]; intros Hi Hv.
    - apply Hio; [done|]. rewrite (g_gen _ Hg), Hv by done. set_solver.
    - apply Hio; [done|]. apply elem_of_union. right. apply (Hnext i j Hij), IH; [|done].
      by eapply next_in. }
  split; [auto|]. intros i v Hi Htc Hv.
  inversion Htc as [? ? Hij|? j ? Hij Hr]; subst.
  - apply (Hnext i v Hij), Hin; [done|by eapply next_in|done].
  - apply (Hnext i j Hij), Hin; [by apply tc_rtc|by eapply next_in|done].
Qed.
End reach.

(** The loop ends in a state where the working list is empty. *)
Lemma reach_result f filter : wf_cfg f →
  ∃ df once, runReachableAnalysis f filter = Ok df ∧ working f filter df [] once.
Proof.
  intros WF. unfold runReachableAnalysis, applyBackward, applyGeneralizedForwardAnalysis.
  destruct (proj1 (wp_ok _ _ _) (initialize_spec f filter WF)) as (df0 & [] & -> & Hdf0). simpl.
  destruct (while_spec (workStep f (successors f) (predecessors f) reachOUT reachIN
      (getTerminator f) (λ bb, head (insts f bb)) OUT IN (λ _, 0)
      (λ iter, match iter with O => Fail UndefinedBehaviour | S iter => Ok iter end))
    (λ st, working f filter st.1.1 st.1.2 st.2) (λ st, work f st.1.1 st.1.2 st.2)
    (λ df, ∃ once, working f filter df [] once) (reachFuel f)
    (df0, foldl (λ wl bb, bb :: wl) [] (blocks f), ∅)) as (df & Hdf & once & Hw).
  - by apply working_start.
  - intros [[df wl] once] Hw. simpl in Hw. destruct wl as [|b wl]; [right; eauto|]. left.
    destruct (proj1 (wp_ok _ _ _) (processBlock_spec f filter WF df once b
      ltac:(apply (wk_blocks _ _ _ _ _ Hw); set_solver) (wk_good _ _ _ _ _ Hw)
      ltac:(apply (wk_settled _ _ _ _ _ Hw), (wk_blocks _ _ _ _ _ Hw); set_solver)))
      as (df' & r & Hrun & Hp).
    unfold workStep. unfold reachBlock in Hrun. rewrite Hrun. simpl.
    pose proof (working_step f filter WF df b wl once r df' Hw Hp).
    pose proof (work_decreases f filter WF df b wl once r df' Hw Hp).
    destruct r; eexists; split_and!; (reflexivity || done).
  - by apply work_start with filter.
  - by exists df, once.
Qed.

Lemma runReachableAnalysis_run f filter : wf_cfg f →
  ∃ df, runReachableAnalysis f filter = Ok df ∧
    ∀ i v, i ∈ instructions f →
      (v ∈ read_set df (InOf i) ↔ filter v = true ∧ rtc (next f) i v) ∧
      (v ∈ read_set df (OutOf i) ↔ filter v = true ∧ tc (next f) i v).
Proof.
  intros WF. destruct (reach_result f filter WF) as (df & once & Hrun & Hw).
  exists df. split; [done|]. intros i v Hi.
  destruct (settled_complete f filter WF df once Hw) as [Hci Hco].
  pose proof (wk_good _ _ _ _ _ Hw) as Hg.
  split; split.
- by apply (g_in _ _ _ Hg).
- intros [Hv Hr]. by apply Hci.
- by apply (g_out _ _ _ Hg).
- intros [Hv Hr]. by apply Hco.
Qed.

(** (C10) The reachability analysis terminates within its fuel on every well-formed function
    and is exact: IN[i] is the set of the instructions accepted by the filter that can be
    executed from i on, i included, and OUT[i] the set of those that can be executed
    after i. *)
Theorem runReachableAnalysis_correct f filter : wf_cfg f →
  ∃ df, runReachableAnalysis f filter = Ok df ∧
    ∀ i v, i ∈ instructions f →
      (v ∈ read_set df (InOf i) ↔ filter v = true ∧ rtc (next f) i v) ∧
      (v ∈ read_set df (OutOf i) ↔ filter v = true ∧ tc (next f) i v).
Proof. apply runReachableAnalysis_run. Qed.

(** ** The forward analysis *)

Lemma foldl_snoc_id (l acc : list Ptr) : foldl (λ wl bb, wl ++ [bb]) acc l = acc ++ l.
Proof.
  revert acc. induction l as [|x l IH]; intros acc; simpl; [by rewrite app_nil_r|].
  by rewrite IH, <- (assoc_L (++)).
Qed.

Section forward.
Context (f : CFG) (computeIN : Ptr → Ptr → SetRef → M DataFlowResult unit)
  (computeOUT : Ptr → SetRef → M DataFlowResult unit).

Definition never_fails {A} (m : M DataFlowResult A) : Prop := ∀ df, ∃ r, m df = Ok r.

Lemma bind_never_ok {A B} (m : M DataFlowResult A) (g : A → M DataFlowResult B) df r :
  bind m g df = Ok r → ∃ df' a, m df = Ok (df', a) ∧ g a df' = Ok r.
Proof. unfold bind. destruct (m df) as [[df' a]|]; [eauto|done]. Qed.

(** the loop over a block, started at one of its instructions, never ends normally *)
Lemma propagate_forward b fuel iter predI df r :
  iter < length (insts f b) →
  propagate f computeIN computeOUT IN OUT (λ bb, length (insts f bb)) (λ i, Ok (S i))
    fuel b iter predI df ≠ Ok r.
Proof.
  revert iter predI df. induction fuel as [|fuel IH]; intros iter predI df Hlt;
    simpl; rewrite decide_False by lia; [done|]. intros Hr.
  apply bind_never_ok in Hr as (? & ? & [= <- <-] & Hr).
  apply bind_never_ok in Hr as (? & i & Hd & Hr).
  assert (S iter < length (insts f b)) as Hl.
  { apply lookup_lt_is_Some. by destruct (insts f b !! S iter) as [j|]. }
  repeat (apply bind_never_ok in Hr as (? & ? & _ & Hr)). revert Hr. by apply IH.
Qed.

Lemma propagate_forward_fails b fuel iter predI df :
  (∀ i p r, never_fails (computeIN i p r)) → (∀ i r, never_fails (computeOUT i r)) →
  iter < length (insts f b) → length (insts f b) - iter ≤ fuel →
  propagate f computeIN computeOUT IN OUT (λ bb, length (insts f bb)) (λ i, Ok (S i))
    fuel b iter predI df = Fail UndefinedBehaviour.
Proof.
  intros HI HO. revert iter predI df. induction fuel as [|fuel IH]; intros iter predI df Hlt Hf; [lia|].
  simpl. rewrite decide_False by lia. unfold bind at 1, lift, ret.
  destruct (insts f b !! S iter) as [i|] eqn:Hi; [|done]. apply lookup_lt_Some in Hi as Hl.
  unfold bind. simpl.
  match goal with |- context [computeIN i predI ?r ?d] => destruct (HI i predI r d) as [[df1 []] ->] end.
  match goal with |- context [computeOUT i ?r ?d] => destruct (HO i r d) as [[df2 []] ->] end.
  apply IH; lia.
Qed.

(** the method with the customization of the forward analysis *)
Definition forwardBlock : Ptr → gset Ptr → M DataFlowResult bool :=
  processBlock f (predecessors f) computeIN computeOUT (λ bb, head (insts f bb))
    (getTerminator f) IN OUT (λ bb, length (insts f bb)) (λ i, Ok (S i)).

Lemma iteratorAt_head b inst l : insts f b = inst :: l → iteratorAt f b inst = Some 0.
Proof. intros Hins. unfold iteratorAt. rewrite Hins. simpl. by rewrite decide_True. Qed.

Lemma forwardBlock_never_ok b df r : insts f b ≠ [] → forwardBlock b ∅ df ≠ Ok r.
Proof.
  destruct (insts f b) as [|inst l] eqn:Hins; [done|]. intros _ Hp.
  unfold forwardBlock, processBlock in Hp. rewrite Hins in Hp. cbn [head] in Hp.
  apply bind_never_ok in Hp as (? & ? & [= <- <-] & Hp).
  do 6 (apply bind_never_ok in Hp as (? & ? & _ & Hp)).
  rewrite bool_decide_eq_true_2 in Hp by set_solver. cbn [orb] in Hp.
  rewrite (iteratorAt_head b inst l Hins) in Hp.
  apply bind_never_ok in Hp as (? & ? & [= <- <-] & Hp).
  apply bind_never_ok in Hp as (? & ? & Hp & _).
  revert Hp. rewrite <- Hins. apply propagate_forward. rewrite Hins. simpl. lia.
Qed.

Lemma nf_ret {A} (a : A) : never_fails (ret a).
Proof. intros df. by eexists. Qed.
Lemma nf_modify g : never_fails (modify g).
Proof. intros df. by eexists. Qed.
Lemma nf_gets {A} (g : DataFlowResult → A) : never_fails (gets g).
Proof. intros df. by eexists. Qed.
Lemma nf_bind {A B} (m : M DataFlowResult A) (g : A → M DataFlowResult B) :
  never_fails m → (∀ a, never_fails (g a)) → never_fails (bind m g).
Proof. intros Hm Hg df. unfold bind. destruct (Hm df) as [[df' a] ->]. apply Hg. Qed.
Lemma nf_forM {A} (g : A → M DataFlowResult unit) l :
  (∀ a, a ∈ l → never_fails (g a)) → never_fails (forM g l).
Proof.
  induction l as [|x l IH]; intros Hg; simpl; [apply nf_ret|].
  apply nf_bind; [apply Hg; set_solver|]. intros _. apply IH. set_solver.
Qed.
Lemma nf_subscript r : never_fails (subscript r).
Proof. apply nf_bind; [apply nf_modify|]. intros _. apply nf_ret. Qed.
Lemma nf_deref {A} (o : option A) : is_Some o → never_fails (deref o).
Proof. intros [a ->]. apply nf_ret. Qed.

Lemma bind_run {A B} (m : M DataFlowResult A) (g : A → M DataFlowResult B) df e :
  never_fails m → (∀ a df', g a df' = Fail e) → bind m g df = Fail e.
Proof. intros Hm Hg. unfold bind. destruct (Hm df) as [[df' a] ->]. apply Hg. Qed.

Lemma forwardBlock_fails b df : wf_cfg f → b ∈ blocks f →
  (∀ i p r, never_fails (computeIN i p r)) → (∀ i r, never_fails (computeOUT i r)) →
  forwardBlock b ∅ df = Fail UndefinedBehaviour.
Proof.
  intros WF Hb HI HO. destruct (cf_terminator f WF b Hb) as [Hne _].
  destruct (insts f b) as [|inst l] eqn:Hins; [done|].
  unfold forwardBlock, processBlock. rewrite Hins. cbn [head].
  change (bind (deref (Some inst)) ?g df) with (g inst df). cbv beta.
  apply bind_run; [apply nf_subscript|intros rin df2].
  apply bind_run; [apply nf_subscript|intros rout df3].
  apply bind_run; [apply nf_forM|intros _ df4].
  { intros p Hp. apply nf_bind; [|intros; apply HI]. apply nf_deref.
    apply (cf_pred f WF) in Hp as [Hp _]; [|done].
    destruct (cf_terminator f WF p Hp) as [Hnp ->]. by apply last_is_Some. }
  apply bind_run; [apply nf_gets|intros n df5].
  apply bind_run; [apply HO|intros _ df6].
  apply bind_run; [apply nf_gets|intros n' df7].
  rewrite bool_decide_eq_true_2 by set_solver. cbn [orb].
  rewrite (iteratorAt_head b inst l Hins). unfold bind. cbn [deref ret].
  rewrite <- Hins, propagate_forward_fails; [done..| |]; rewrite Hins; simpl; lia.
Qed.
End forward.

(** (C21) The forward analysis never returns a result: the loop over the rest of a block
    increments the iterator after comparing it with end() and then dereferences it, so on
    the last instruction of the first block it visits it dereferences end(). Whatever the
    callbacks do no result is produced, and when they do not fail themselves the outcome
    is undefined behaviour. *)
Theorem applyForward_walks_past_end f b bs computeGEN computeKILL initializeIN initializeOUT
    computeIN computeOUT fuel :
  blocks f = b :: bs → insts f b ≠ [] →
  (∀ df, applyForward fuel f computeGEN computeKILL initializeIN initializeOUT
           computeIN computeOUT ≠ Ok df) ∧
  (wf_cfg f → 0 < fuel →
   (∀ i, never_fails (computeGEN i) ∧ never_fails (computeKILL i)) →
   (∀ i r, never_fails (initializeIN i r) ∧ never_fails (initializeOUT i r)) →
   (∀ i p r, never_fails (computeIN i p r)) → (∀ i r, never_fails (computeOUT i r)) →
   applyForward fuel f computeGEN computeKILL initializeIN initializeOUT
     computeIN computeOUT = Fail UndefinedBehaviour).
Proof.
  intros Hbs Hne. unfold applyForward, applyGeneralizedForwardAnalysis. split.
  - intros df Hrun. destruct (initialize _ _ _ _ _ _) as [[df0 []]|]; [|done]. simpl in Hrun.
    destruct fuel as [|fuel]; [done|]. cbn [while] in Hrun.
    rewrite foldl_snoc_id, Hbs in Hrun. cbn [workStep app fst] in Hrun.
    destruct (processBlock _ _ _ _ _ _ _ _ _ _ b ∅ df0) as [r|] eqn:Hp; [|done].
    by apply forwardBlock_never_ok in Hp.
  - intros WF Hfuel HG Hinit HI HO.
    assert (never_fails (initialize f computeGEN computeKILL initializeIN initializeOUT)) as Hnf.
    { unfold initialize, computeGENAndKILL.
      apply nf_bind; [|intros _]; apply nf_forM; intros c _; apply nf_forM; intros i _.
      - do 2 (apply nf_bind; [apply nf_subscript|intros ?]).
        apply nf_bind; [apply Hinit|intros _; apply Hinit].
      - apply nf_bind; [apply HG|intros _; apply HG]. }
    destruct (Hnf DataFlowResult_new) as [[df0 []] ->]. cbn [rbind].
    destruct fuel as [|fuel]; [lia|]. cbn [while]. rewrite foldl_snoc_id, Hbs.
    cbn [workStep app fst].
    pose proof (forwardBlock_fails f computeIN computeOUT b df0 WF) as Hfail.
    unfold forwardBlock in Hfail. rewrite Hfail; [done|rewrite Hbs; set_solver|done..].
Qed.

(** ** Full sets *)

(** the rows of the instructions [done_] hold all of [all], no set holds more *)
Definition filled (all done_ : list Ptr) (df : DataFlowResult) : Prop :=
  (∀ i, read_set df (GenOf i) = ∅) ∧
  (∀ i, i ∈ done_ → read_set df (InOf i) = list_to_set all ∧ read_set df (OutOf i) = list_to_set all) ∧
  (∀ i, read_set df (InOf i) ⊆ list_to_set all ∧ read_set df (OutOf i) ⊆ list_to_set all).

Lemma fill_row all done_ i df : filled all done_ df →
  wp (let* inSetOfInst := IN i in
      let* outSetOfInst := OUT i in
      forM (λ inst2,
        insert_range inSetOfInst {[inst2]} ;;;
        insert_range outSetOfInst {[inst2]}) all)
     (λ _ df', filled all (done_ ++ [i]) df') df.
Proof.
  intros (H1 & H2 & H3). apply wp_bind, wp_subscript. intros df1 Hs1.
  apply wp_bind, wp_subscript. intros df2 Hs2.
  eapply wp_mono.
  { apply (wp_forM _ (λ pre _ df', filled all done_ df' ∧
      list_to_set pre ⊆ read_set df' (InOf i) ∧ list_to_set pre ⊆ read_set df' (OutOf i))).
    - split_and!; [|apply empty_subseteq..].
      split_and!; intros j; [|intros Hj|]; rewrite !Hs2, !Hs1; auto.
    - intros pre j post df3 Hl ((G1 & G2 & G3) & G4 & G5). apply wp_bind, wp_insert_range.
      intros df4 H4. apply wp_insert_range. intros df5 H5.
      assert (j ∈ all) as Hj by (rewrite Hl; set_solver).
      assert (∀ k, read_set df5 (GenOf k) = read_set df3 (GenOf k)) as E1.
      { intros k. by rewrite H5, decide_False, H4, decide_False. }
      assert (∀ k, read_set df5 (InOf k) =
        if decide (InOf i = InOf k) then read_set df3 (InOf i) ∪ {[j]} else read_set df3 (InOf k)) as E2.
      { intros k. by rewrite H5, decide_False, H4. }
      assert (∀ k, read_set df5 (OutOf k) =
        if decide (OutOf i = OutOf k) then read_set df3 (OutOf i) ∪ {[j]} else read_set df3 (OutOf k)) as E3.
      { intros k. rewrite H5, !H4, (decide_False (P := InOf i = OutOf i)),
          (decide_False (P := InOf i = OutOf k)) by done. done. }
      assert ({[j]} ⊆ (list_to_set all : gset Ptr)) as Hja.
      { intros x Hx. apply elem_of_singleton in Hx as ->. by apply elem_of_list_to_set. }
      destruct (G3 i) as [Gi Go].
      split_and!; [split_and!|..].
      + intros k. by rewrite E1.
      + intros k Hk. rewrite E2, E3. destruct (G2 k Hk) as [Ga Gb].
        split; case_decide; simplify_eq; rewrite ?Ga, ?Gb; clear -Hja; set_solver.
      + intros k. rewrite E2, E3. destruct (G3 k) as [Ga Gb].
        split; case_decide; simplify_eq; clear -Ga Gb Gi Go Hja; set_solver.
      + rewrite E2, decide_True by done. rewrite list_to_set_app_L. clear -G4. set_solver.
      + rewrite E3, decide_True by done. rewrite list_to_set_app_L. clear -G5. set_solver. }
  intros [] df' ((G1 & G2 & G3) & G4 & G5). split_and!; [done| |done].
  intros k Hk. apply elem_of_snoc in Hk as [Hk| ->]; [by apply G2|].
  destruct (G3 i). split; apply set_eq; set_solver.
Qed.

(** getFullSets gives every instruction the set of all the instructions of the
    function, as IN and as OUT; every result of the reachability analysis is below it. *)
Theorem getFullSets_top f :
  ∃ df, getFullSets f = Ok df ∧
    (∀ i, i ∈ instructions f → read_set df (InOf i) = list_to_set (instructions f) ∧
                               read_set df (OutOf i) = list_to_set (instructions f)) ∧
    (∀ i, read_set df (GenOf i) = ∅) ∧
    (wf_cfg f → ∀ filter df', runReachableAnalysis f filter = Ok df' →
       ∀ i, i ∈ instructions f → read_set df' (InOf i) ⊆ read_set df (InOf i) ∧
                                 read_set df' (OutOf i) ⊆ read_set df (OutOf i)).
Proof.
  assert (wp (forM (λ inst,
    let* inSetOfInst := IN inst in
    let* outSetOfInst := OUT inst in
    forM (λ inst2,
      insert_range inSetOfInst {[inst2]} ;;;
      insert_range outSetOfInst {[inst2]}) (instructions f)) (instructions f))
    (λ _ df, filled (instructions f) (instructions f) df) DataFlowResult_new) as Hwp.
  { apply (wp_forM _ (λ pre _ df, filled (instructions f) pre df)).
    { split; [done|]. split; [set_solver|]. intros i. split; apply empty_subseteq. }
    intros pre i post df _ Hdf. by apply fill_row. }
  apply wp_ok in Hwp as (df & [] & Hrun & Hgen & Hfull & _).
  exists df. unfold getFullSets. rewrite Hrun. split_and!; [done..|].
  intros WF filter df' Hrun' i Hi.
  destruct (reach_result f filter WF) as (df2 & once & Hrun2 & Hw).
  assert (df2 = df') as -> by congruence. pose proof (wk_good _ _ _ _ _ Hw) as Hg.
  destruct (Hfull i Hi) as [-> ->].
  split; intros v Hv; apply elem_of_list_to_set.
  - destruct (g_in _ _ _ Hg i v Hi Hv) as [_ Hr].
    by eapply (rtc_closed (next f) (λ x, x ∈ instructions f)); [intros; eapply next_in| |].
  - destruct (g_out _ _ _ Hg i v Hi Hv) as [_ Hr].
    eapply (tc_closed (next f) (λ x, x ∈ instructions f)); [intros; by eapply next_in..|done].
Qed.

(** ** Witnesses *)

(** a loop: the block 10 falls into the block 11, which branches to itself and to 12 *)
Definition sample_cfg : CFG :=
  mkCFG [10; 11; 12]%positive
    (λ b, if decide (b = 10%positive) then [1; 2]%positive
          else if decide (b = 11%positive) then [3; 4]%positive
          else if decide (b = 12%positive) then [5]%positive else [])
    (λ b, if decide (b = 10%positive) then Some 2%positive
          else if decide (b = 11%positive) then Some 4%positive
          else if decide (b = 12%positive) then Some 5%positive else None)
    (λ b, if decide (b = 10%positive) then [11]%positive
          else if decide (b = 11%positive) then [11; 12]%positive else [])
    (λ b, if decide (b = 11%positive) then [10; 11]%positive
          else if decide (b = 12%positive) then [11]%positive else []).

(** well-formedness of a concrete function can be computed *)
Definition cfg_check (f : CFG) : bool :=
  bool_decide (NoDup (instructions f)) &&
  forallb (λ b,
    bool_decide (insts f b ≠ []) && bool_decide (getTerminator f b = last (insts f b)) &&
    forallb (λ b', bool_decide (b' ∈ blocks f) && bool_decide (b ∈ predecessors f b'))
            (successors f b) &&
    forallb (λ b', bool_decide (b' ∈ blocks f) && bool_decide (b ∈ successors f b'))
            (predecessors f b)) (blocks f).

Lemma bind_NoDup_unique (g : Ptr → list Ptr) bs b k b' k' i : NoDup (bs ≫= g) →
  b ∈ bs → b' ∈ bs → g b !! k = Some i → g b' !! k' = Some i → b = b' ∧ k = k'.
Proof.
  induction bs as [|c bs IH]; intros Hnd Hb Hb' Hk Hk'; [set_solver|].
  simpl in Hnd. apply NoDup_app in Hnd as (Hc & Hdis & Hbs).
  assert (∀ d k, d ∈ bs → g d !! k = Some i → i ∈ bs ≫= g) as Hin.
  { intros d j Hd Hj. apply list_elem_of_bind. exists d. split; [|done]. by eapply list_elem_of_lookup_2. }
  apply elem_of_cons in Hb as [->|Hb], Hb' as [->|Hb']; [| | |by auto].
  - split; [done|]. by apply (NoDup_lookup _ _ _ _ Hc Hk Hk').
  - destruct (Hdis i); [by eapply list_elem_of_lookup_2|by eapply Hin].
  - destruct (Hdis i); [by eapply list_elem_of_lookup_2|by eapply Hin].
Qed.

Lemma cfg_check_wf f : cfg_check f = true → wf_cfg f.
Proof.
  unfold cfg_check. rewrite andb_true_iff, bool_decide_eq_true, forallb_forall.
  intros [Hnd Hall].
  assert (∀ b, b ∈ blocks f → insts f b ≠ [] ∧ getTerminator f b = last (insts f b) ∧
    (∀ b', b' ∈ successors f b → b' ∈ blocks f ∧ b ∈ predecessors f b') ∧
    (∀ b', b' ∈ predecessors f b → b' ∈ blocks f ∧ b ∈ successors f b')) as Hb.
  { intros b Hin%list_elem_of_In%Hall. rewrite !andb_true_iff, !bool_decide_eq_true, !forallb_forall in Hin.
    destruct Hin as [[[H1 H2] H3] H4]. split_and!; [done..| |];
      intros b' Hb'%list_elem_of_In; [apply H3 in Hb'|apply H4 in Hb'];
      by rewrite andb_true_iff, !bool_decide_eq_true in Hb'. }
  split.
  - intros. by eapply (bind_NoDup_unique (insts f)).
  - intros b Hin. by destruct (Hb b Hin) as (? & ? & _).
  - intros b b' Hin Hs. destruct (Hb b Hin) as (_ & _ & H & _). by apply H.
  - intros b b' Hin. split.
    + intros Hp. destruct (Hb b Hin) as (_ & _ & _ & H). by apply H.
    + intros [Hin' Hs]. destruct (Hb b' Hin') as (_ & _ & H & _). by apply H.
Qed.

Lemma sample_cfg_wf : wf_cfg sample_cfg.
Proof. apply cfg_check_wf. by vm_compute. Qed.

Lemma runReachableAnalysis_correct_witness :
  wf_cfg sample_cfg ∧
  ∃ df, runReachableAnalysis sample_cfg (λ i, Pos.ltb 2 i) = Ok df ∧
    ∀ i v, i ∈ instructions sample_cfg →
      (v ∈ read_set df (InOf i) ↔ Pos.ltb 2 v = true ∧ rtc (next sample_cfg) i v) ∧
      (v ∈ read_set df (OutOf i) ↔ Pos.ltb 2 v = true ∧ tc (next sample_cfg) i v).
Proof.
  split; [apply sample_cfg_wf|].
  apply (runReachableAnalysis_correct sample_cfg (λ i, Pos.ltb 2 i)), sample_cfg_wf.
Defined.

Lemma applyForward_walks_past_end_witness :
  applyForward 5 sample_cfg noKILL noKILL noInit noInit reachOUT (λ _ _, ret tt) =
    Fail UndefinedBehaviour.
Proof.
  apply (applyForward_walks_past_end sample_cfg 10 [11; 12]%positive).
  - reflexivity.
  - discriminate.
  - apply sample_cfg_wf.
  - lia.
  - intros i. split; intros df; by eexists.
  - intros i r. split; intros df; by eexists.
  - intros i p r df. by eexists.
  - intros i r df. by eexists.
Defined.

Lemma getFullSets_top_witness :
  ∃ df, getFullSets sample_cfg = Ok df ∧
    (∀ i, i ∈ instructions sample_cfg →
       read_set df (InOf i) = list_to_set (instructions sample_cfg)) ∧
    ∀ df', runReachableAnalysis sample_cfg (λ _, true) = Ok df' →
       ∀ i, i ∈ instructions sample_cfg → read_set df' (InOf i) ⊆ read_set df (InOf i).
Proof.
  destruct (getFullSets_top sample_cfg) as (df & Hrun & Hrows & _ & Htop).
  exists df. split; [done|]. split; [intros i Hi; by apply Hrows|].
  intros df' Hrun' i Hi. apply (Htop sample_cfg_wf (λ _, true) df' Hrun' i Hi).
Defined.
