(* ===== verification/SCCDAG.v ===== *)
(** * The graph of the strongly connected components (src/core/sccdag: SCCDAG.cpp)

    The class [SCCDAG]: a dependence graph whose values are SCC objects, the map from
    values to components, and the reachability matrix. *)
From S2P Require Import Prelude SCCIterator DGEdge DGNode DGBase SCC.
From S2P Require BitMatrix.

Section sccdag.
Context {IO : IterOrder} {SI : SCCIterator} `{BitMatrix.BitVector}.

(** ** State *)

Record SCCDAG := mkSCCDAG {
  dag : DG;
  valueToSCCNode : gmap Ptr (option Ptr);
  ordered : BitMatrix.BitMatrix;
  orderedDirty : bool;
  sccIndexes : gmap Ptr Z
}.

(** the heap of nodes and edges, the SCC objects, and [*this] *)
Record World := mkWorld {
  w_heap : Heap;
  w_sccs : gmap Ptr DG;
  w_dag : SCCDAG
}.

Definition set_dag g (d : SCCDAG) : SCCDAG :=
  mkSCCDAG g (valueToSCCNode d) (ordered d) (orderedDirty d) (sccIndexes d).
Definition set_valueToSCCNode m (d : SCCDAG) : SCCDAG :=
  mkSCCDAG (dag d) m (ordered d) (orderedDirty d) (sccIndexes d).
Definition set_ordered m (d : SCCDAG) : SCCDAG :=
  mkSCCDAG (dag d) (valueToSCCNode d) m (orderedDirty d) (sccIndexes d).
Definition set_orderedDirty b (d : SCCDAG) : SCCDAG :=
  mkSCCDAG (dag d) (valueToSCCNode d) (ordered d) b (sccIndexes d).
Definition set_sccIndexes m (d : SCCDAG) : SCCDAG :=
  mkSCCDAG (dag d) (valueToSCCNode d) (ordered d) (orderedDirty d) m.

Definition on_world_heap {A} (m : M Heap A) : M World A :=
  zoom w_heap (λ h w, mkWorld h (w_sccs w) (w_dag w)) m.
(** a method of the base class [DG<SCC>] on [*this] *)
Definition on_dag {A} (m : M GSt A) : M World A :=
  zoom (λ w, (w_heap w, dag (w_dag w)))
       (λ s w, mkWorld s.1 (w_sccs w) (set_dag s.2 (w_dag w))) m.
Definition self : M World SCCDAG := gets w_dag.
Definition set_self (f : SCCDAG → SCCDAG) : M World unit :=
  modify (λ w, mkWorld (w_heap w) (w_sccs w) (f (w_dag w))).

(** the SCC object behind a pointer *)
Definition load_scc (p : Ptr) : M World DG := λ w, deref (w_sccs w !! p) w.

(** [new SCC(nodes)] *)
Definition new_SCC (nodes : gset Ptr) : M World Ptr := λ w,
  let h := w_heap w in
  let p := nextAddr h in
  match SCC_new nodes (mkHeap (hnodes h) (hedges h) (Pos.succ p), DG_new) with
  | Ok ((h', g), _) => Ok (mkWorld h' (<[p := g]> (w_sccs w)) (w_dag w), p)
  | Fail e => Fail e
  end.

(** ** Values and dependences *)

Definition markValuesInSCC : M World unit :=
  set_self (set_valueToSCCNode ∅) ;;;
  let* d := self in
  forM (λ sccNode,
    let* n := on_world_heap (load_node sccNode) in
    let* scc := load_scc (getT n) in
    forM (λ instPair : Ptr * option Ptr,
      set_self (λ d, set_valueToSCCNode (<[instPair.1 := Some sccNode]> (valueToSCCNode d)) d))
      (internalNodePairs scc)) (visit (allNodes (dag d))).

(** [valueToSCCNode[v]]: the subscript creates a null entry for an unknown value *)
Definition valueToSCCNode_at (v : Ptr) : M World (option Ptr) :=
  let* d := self in
  match valueToSCCNode d !! v with
  | Some n => ret n
  | None => set_self (set_valueToSCCNode (<[v := None]> (valueToSCCNode d))) ;;; ret None
  end.

(** the edges between two nodes, in either direction *)
Definition edgesBetween (n : DGNode) (other : Ptr) : M Heap (gset Ptr) :=
  let* out := filterM (λ e, let* x := load_edge e in ret (bool_decide (getDstNode x = other)))
                      (visit (outgoingEdges n)) in
  let* inc := filterM (λ e, let* x := load_edge e in ret (bool_decide (getSrcNode x = other)))
                      (visit (incomingEdges n)) in
  ret (list_to_set out ∪ list_to_set inc).

(** one external value of one SCC; [clearedEdges] is threaded through the loops *)
Definition markEdge (outgoingSCCNode outgoingSCC : Ptr) (clearedEdges : gset Ptr)
    (externalNodePair : Ptr * option Ptr) : M World (gset Ptr) :=
  let* incomingNode := deref externalNodePair.2 in
  let* inNode := on_world_heap (load_node incomingNode) in
  if decide (inDegree inNode = 0) then ret clearedEdges
  else
    let* node := valueToSCCNode_at externalNodePair.1 in
    let* incomingSCCNode := deref node in
    let* inSCC := on_world_heap (load_node incomingSCCNode) in
    let incomingSCC := getT inSCC in
    let* outNode := on_world_heap (load_node outgoingSCCNode) in
    let* edgeSet := on_world_heap (edgesBetween outNode incomingSCCNode) in
    let* sccEdge := (match visit edgeSet with
                     | [] => on_dag (addUndefinedDependenceEdge outgoingSCC incomingSCC)
                     | e :: _ => ret e
                     end) in
    let* clearedEdges :=
      (if decide (sccEdge ∈ clearedEdges) then ret clearedEdges
       else
         let* x := on_world_heap (load_edge sccEdge) in
         on_world_heap (store_edge sccEdge (removeSubEdges x)) ;;;
         ret ({[sccEdge]} ∪ clearedEdges)) in
    forM (λ edge,
      let* x := on_world_heap (load_edge sccEdge) in
      let* sub := on_world_heap (load_edge edge) in
      on_world_heap (store_edge sccEdge (addSubEdge x edge sub))) (visit (incomingEdges inNode)) ;;;
    ret clearedEdges.

Definition markEdgesAndSubEdges : M World unit :=
  let* d := self in
  foldM (λ clearedEdges outgoingSCCNode,
    let* n := on_world_heap (load_node outgoingSCCNode) in
    let outgoingSCC := getT n in
    let* scc := load_scc outgoingSCC in
    foldM (markEdge outgoingSCCNode outgoingSCC) clearedEdges (externalNodePairs scc))
    ∅ (visit (allNodes (dag d))) ;;;
  ret tt.

(** ** Reachability *)

Definition computeReachabilityAmongSCCs : M World unit :=
  set_self (set_orderedDirty false) ;;;
  let* d := self in
  let Nscc := Z.of_nat (numNodes (dag d)) in
  foldM (λ index SCCNode,
    let* n := on_world_heap (load_node SCCNode) in
    set_self (λ d, set_sccIndexes (<[getT n := index]> (sccIndexes d)) d) ;;;
    ret (u32 (index + 1))) 0%Z (visit (allNodes (dag d))) ;;;
  set_self (set_ordered (BitMatrix.resize (u32 Nscc))) ;;;
  forM (λ SCCEdge,
    let* x := on_world_heap (load_edge SCCEdge) in
    let* srcSCC := on_world_heap (getSrc x) in
    let* dstSCC := on_world_heap (getDst x) in
    let* d := self in
    let i := default 0%Z (sccIndexes d !! srcSCC) in
    let j := default 0%Z (sccIndexes d !! dstSCC) in
    set_self (λ d, set_sccIndexes (<[srcSCC := i]> (<[dstSCC := j]> (sccIndexes d))) d) ;;;
    let* m := lift (BitMatrix.set (ordered d) i j true) in
    set_self (set_ordered m)) (visit (allEdges (dag d))) ;;;
  let* d := self in
  let* m := lift (BitMatrix.transitiveClosure (ordered d)) in
  set_self (set_ordered m).

(** [orderedBefore(earlySCC, lateSCC)]; [find(scc)->second] on a component without an
    index dereferences [end()] *)
Definition orderedBefore (d : SCCDAG) (earlySCC lateSCC : Ptr) : Res bool :=
  if orderedDirty d then Fail AssertionFailure
  else
    match sccIndexes d !! earlySCC, sccIndexes d !! lateSCC with
    | Some i, Some j => BitMatrix.test (ordered d) i j
    | _, _ => Fail UndefinedBehaviour
    end.

(** the two overloads on sets of components *)
Fixpoint orderedBeforeAny (d : SCCDAG) (earlySCC : Ptr) (lates : list Ptr) : Res bool :=
  match lates with
  | [] => Ok false
  | lscc :: lates =>
      rbind (orderedBefore d earlySCC lscc) (λ b, if b : bool then Ok true else orderedBeforeAny d earlySCC lates)
  end.
Fixpoint anyOrderedBefore (d : SCCDAG) (earlies : list Ptr) (lateSCC : Ptr) : Res bool :=
  match earlies with
  | [] => Ok false
  | escc :: earlies =>
      rbind (orderedBefore d escc lateSCC) (λ b, if b : bool then Ok true else anyOrderedBefore d earlies lateSCC)
  end.

Definition getSCCIndex (d : SCCDAG) (scc : Ptr) : Res Z :=
  match sccIndexes d !! scc with Some i => Ok i | None => Fail UndefinedBehaviour end.

(** ** Construction *)

(** the nodes the edges of a node lead to *)
Definition successors (h : Heap) (n : Ptr) : list Ptr :=
  match hnodes h !! n with
  | Some x => omap (λ e, to <$> hedges h !! e) (visit (outgoingEdges x))
  | None => []
  end.

(** one component found by the iterator *)
Definition addComponent (pdg : DG) (visited : gset Ptr) (sccNodes : list Ptr)
    : M World (gset Ptr) :=
  let* firstNode := deref (head sccNodes) in
  if decide (firstNode ∈ visited) then ret visited
  else
    let unwrappedNodes : gset Ptr := list_to_set sccNodes in
    let visited := unwrappedNodes ∪ visited in
    let* scc := new_SCC unwrappedNodes in
    let* flags := mapM (λ node,
      let* n := on_world_heap (load_node node) in ret (isInternal pdg (getT n)))
      (visit unwrappedNodes) in
    on_dag (addNode scc (existsb id flags)) ;;;
    ret visited.

(** the iterator runs from every node that no component has yet *)
Definition findComponents (pdg : DG) : M World (gset Ptr) :=
  foldM (λ visited nodeToVisit,
    if decide (nodeToVisit ∈ visited) then ret visited
    else
      let* h := gets w_heap in
      foldM (addComponent pdg) visited (scc_components (allNodes pdg) (successors h) nodeToVisit))
    ∅ (visit (allNodes pdg)).

(** [SCCDAG(pdg)]. The constructor changes the entry node of the PDG while it runs and
    restores it at the end. *)
Definition SCCDAG_new (pdg : DG) : M World unit :=
  let* originalEntryNode := lift (getEntryNode pdg) in
  findComponents pdg ;;;
  markValuesInSCC ;;;
  markEdgesAndSubEdges ;;;
  set_self (set_orderedDirty true) ;;;
  computeReachabilityAmongSCCs.

(** ** Merging *)

(** the nodes of the components to be merged *)
Definition nodesOfSCCs (sccSet : gset Ptr) : M World (gset Ptr) :=
  let* nodeLists := mapM (λ sccNode,
    let* n := on_world_heap (load_node sccNode) in
    let* scc := load_scc (getT n) in
    mapM (λ p : Ptr * option Ptr, deref p.2) (internalNodePairs scc)) (visit sccSet) in
  ret (list_to_set (concat nodeLists)).

Definition mergeSCCs (sccSet : gset Ptr) : M World unit :=
  if decide (size sccSet < 2) then ret tt
  else
    let* mergeNodes := nodesOfSCCs sccSet in
    let* mergeSCC := new_SCC mergeNodes in
    on_dag (addNode mergeSCC true) ;;;
    forM (λ sccNode, on_dag (removeNode sccNode)) (visit sccSet) ;;;
    markValuesInSCC ;;;
    markEdgesAndSubEdges.

(** ** Queries *)

Definition sccOfValue (h : Heap) (d : SCCDAG) (val : Ptr) : Res (option Ptr) :=
  match valueToSCCNode d !! val with
  | None => Ok None
  | Some None => Fail UndefinedBehaviour
  | Some (Some node) =>
      match hnodes h !! node with Some n => Ok (Some (getT n)) | None => Fail UndefinedBehaviour end
  end.

Definition doesItContain (h : Heap) (d : SCCDAG) (inst : Ptr) : Res bool :=
  rbind (sccOfValue h d inst) (λ o, Ok (bool_decide (is_Some o))).

Definition SCCDAG_numberOfInstructions : M World Z :=
  let* d := self in
  foldM (λ n SCCPair,
    let* scc := load_scc (SCCPair : Ptr * option Ptr).1 in
    ret (n + Z.of_nat (numberOfInstructions scc))%Z) 0%Z (internalNodePairs (dag d)).

(** the SCC objects of the nodes of the graph, in the order of [getNodes] *)
Definition getSCCs : M World (list Ptr) :=
  let* d := self in
  on_world_heap (mapM (λ sccNode, let* n := load_node sccNode in ret (getT n))
                      (visit (allNodes (dag d)))).

(** the iterators: [f] runs on every SCC object of a list until it returns true *)
Definition iterateOverSCCs (f : Ptr → M World bool) : M World bool :=
  let* l := getSCCs in anyM f l.
Definition SCCDAG_iterateOverInstructions (f : DG → M World bool) : M World bool :=
  let* d := self in
  anyM (λ p : Ptr * option Ptr, let* scc := load_scc p.1 in f scc) (internalNodePairs (dag d)).
Definition iterateOverLiveInAndLiveOut (f : DG → M World bool) : M World bool :=
  let* d := self in
  anyM (λ p : Ptr * option Ptr, let* scc := load_scc p.1 in f scc) (externalNodePairs (dag d)).
End sccdag.
