(* ===== verification/SCCDAGSpec.v ===== *)
(** * Reachability among strongly connected components

    [computeReachabilityAmongSCCs] and [orderedBefore] decide whether a path of dependences
    connects two components; merging components leaves the index out of date. *)
From stdpp Require Import list_numbers.
From S2P Require Import Prelude DGEdge DGNode DGBase DGInvariant DGSpec DGQuery SCC.
From S2P Require BitMatrix BitMatrixSpec.
From S2P Require Import SCCDAG.

(** an edge of the graph from the value [s] to the value [t] *)
Definition depends (h : Heap) (g : DG) (s t : Ptr) : Prop :=
  ∃ e v, edge_view h g e = Some v ∧ a_src v = s ∧ a_dst v = t.

Section reachability.
Context {IO : IterOrder} `{BL : BitMatrix.BitVectorLaws}.
Import BitMatrix BitMatrixSpec.

Lemma wp_self Q (w : World) : wp self Q w ↔ Q (w_dag w) w.
Proof. done. Qed.
Lemma wp_set_self f (Q : unit → World → Prop) w :
  wp (set_self f) Q w ↔ Q tt (mkWorld (w_heap w) (w_sccs w) (f (w_dag w))).
Proof. done. Qed.
Lemma wp_on_world_heap {A} (m : M Heap A) Q (w : World) :
  wp (on_world_heap m) Q w ↔ wp m (λ a h, Q a (mkWorld h (w_sccs w) (w_dag w))) (w_heap w).
Proof. apply wp_zoom. Qed.

(** the indices of the components: every value of the graph has one below the number of
    nodes, and two values have different ones *)
Record indexed (g : DG) (I : gmap Ptr Z) : Prop := {
  ix_some t n : node_of g t n → ∃ i, I !! t = Some i ∧ (0 ≤ i < Z.of_nat (numNodes g))%Z;
  ix_inj t n t' n' i : node_of g t n → node_of g t' n' → I !! t = Some i → I !! t' = Some i →
    t = t'
}.

(** the first loop *)
Lemma index_loop h g I0 Q (w : World) :
  wf h g → w_heap w = h → dag (w_dag w) = g → sccIndexes (w_dag w) = I0 →
  (Z.of_nat (numNodes g) < 2 ^ 32)%Z →
  (∀ z I, indexed g I → Q z (mkWorld h (w_sccs w) (set_sccIndexes I (w_dag w)))) →
  wp (foldM (λ index SCCNode,
    let* n := on_world_heap (load_node SCCNode) in
    set_self (λ d, set_sccIndexes (<[getT n := index]> (sccIndexes d)) d) ;;;
    ret (u32 (index + 1))) 0%Z (visit (allNodes g))) Q w.
Proof.
  intros W Hh Hg HI0 Hcap HQ.
  assert (length (visit (allNodes g)) = numNodes g) as Hlen by apply length_visit.
  eapply wp_mono; [apply (wp_foldM _ (λ pre _ index w',
    index = Z.of_nat (length pre) ∧ ∃ I, w' = mkWorld h (w_sccs w) (set_sccIndexes I (w_dag w)) ∧
    ∀ k n t, pre !! k = Some n → node_of g t n → I !! t = Some (Z.of_nat k)))|].
  - split; [done|]. exists I0. split; [|done]. destruct w as [? ? []]. simpl in *. by subst.
  - intros pre n post index w' Hl [-> (I & -> & HI)].
    assert (n ∈ allNodes g) as Hn. { apply elem_of_visit. rewrite Hl. set_solver. }
    destruct (wf_node _ _ W n Hn) as (x & Hx & HT).
    pose proof (NoDup_visit (allNodes g)) as Hnd. rewrite Hl in Hnd.
    apply NoDup_app in Hnd as (_ & Hnd & _).
    assert (length pre < numNodes g) as Hlt. { rewrite <- Hlen, Hl, length_app. simpl. lia. }
    apply wp_bind, wp_on_world_heap, wp_load_node. exists x. split; [done|].
    apply wp_bind, wp_set_self. apply wp_ret. rewrite length_app. simpl. split.
    { rewrite u32_small by lia. lia. }
    eexists. split; [reflexivity|]. unfold getT. simpl. intros k n' t Hk HT'.
    apply lookup_app_Some in Hk as [Hk|[Hk1 [Hk2 <-]%list_lookup_singleton_Some]].
    + rewrite lookup_insert_ne; [by apply (HI k n')|]. intros <-.
      pose proof (wf_node_of_inj _ _ _ _ _ W HT HT') as <-.
      apply list_elem_of_lookup_2 in Hk. apply (Hnd n Hk). set_solver.
    + assert (theT x = t) as <- by by eapply node_of_inv. rewrite lookup_insert_eq. f_equal. lia.
  - intros z w' (_ & I & -> & HI). apply HQ. split.
    + intros t n HT. destruct (wf_map _ _ W _ _ HT) as [Hn _].
      apply elem_of_visit, list_elem_of_lookup in Hn as [k Hk].
      exists (Z.of_nat k). split; [by eapply HI|]. apply lookup_lt_Some in Hk. lia.
    + intros t n t' n' i HT HT' Hi Hi'.
      destruct (wf_map _ _ W _ _ HT) as [Hn (x & Hx & <-)].
      destruct (wf_map _ _ W _ _ HT') as [Hn' (x' & Hx' & <-)].
      apply elem_of_visit, list_elem_of_lookup in Hn as [k Hk].
      apply elem_of_visit, list_elem_of_lookup in Hn' as [k' Hk'].
      rewrite (HI k n _ Hk HT) in Hi. rewrite (HI k' n' _ Hk' HT') in Hi'.
      assert (k = k') as <- by (simplify_eq; lia). congruence.
Qed.

(** the second loop *)
Lemma populate_loop h g I (w : World) m0 :
  wf h g → indexed g I → w_heap w = h → dag (w_dag w) = g → sccIndexes (w_dag w) = I →
  ordered (w_dag w) = m0 → good m0 → N m0 = Z.of_nat (numNodes g) → (∀ i j, ¬ rel m0 i j) →
  wp (forM (λ SCCEdge,
    let* x := on_world_heap (load_edge SCCEdge) in
    let* srcSCC := on_world_heap (getSrc x) in
    let* dstSCC := on_world_heap (getDst x) in
    let* d := self in
    let i := default 0%Z (sccIndexes d !! srcSCC) in
    let j := default 0%Z (sccIndexes d !! dstSCC) in
    set_self (λ d, set_sccIndexes (<[srcSCC := i]> (<[dstSCC := j]> (sccIndexes d))) d) ;;;
    let* m := lift (BitMatrix.set (ordered d) i j true) in
    set_self (set_ordered m)) (visit (allEdges g)))
    (λ _ w', ∃ m, w' = mkWorld h (w_sccs w) (set_ordered m (w_dag w)) ∧ good m ∧
       N m = Z.of_nat (numNodes g) ∧
       ∀ i j, rel m i j ↔ ∃ s t, depends h g s t ∧ I !! s = Some i ∧ I !! t = Some j) w.
Proof.
  intros W HI Hh Hg HI0 Hm0 Gm0 HN Hempty.
  eapply wp_mono; [apply (wp_forM _ (λ pre _ w', ∃ m,
    w' = mkWorld h (w_sccs w) (set_ordered m (w_dag w)) ∧ good m ∧ N m = Z.of_nat (numNodes g) ∧
    ∀ i j, rel m i j ↔ ∃ e v, e ∈ pre ∧ edge_view h g e = Some v ∧
      I !! a_src v = Some i ∧ I !! a_dst v = Some j))|].
  - exists m0. split; [destruct w as [? ? []]; simpl in *; by subst|].
    split; [done|]. split; [done|]. intros i j. split; [by intros ?%Hempty|set_solver].
  - intros pre e post w' Hl (m & -> & Gm & Nm & Hm).
    assert (e ∈ allEdges g) as He. { apply elem_of_visit. rewrite Hl. set_solver. }
    destruct (wf_edge _ _ W e He) as (x & Hx & _).
    destruct (edge_view_live _ _ _ _ W He Hx) as (a & b & Ha & Hb & Na & Nb & Hv).
    destruct (ix_some _ _ HI _ _ Na) as (i & Hi & Hib).
    destruct (ix_some _ _ HI _ _ Nb) as (j & Hj & Hjb).
    apply wp_bind, wp_on_world_heap, wp_load_edge. exists x. split; [done|].
    apply wp_bind, wp_on_world_heap, wp_getSrc. exists a. split; [done|].
    apply wp_bind, wp_on_world_heap, wp_getDst. exists b. split; [done|].
    apply wp_bind, wp_self. simpl. rewrite HI0, Hi, Hj. simpl.
    apply wp_bind, wp_set_self, wp_bind, wp_lift. simpl.
    destruct (set_spec m i j true Gm) as (m' & -> & Gm' & Nm' & Hm'); [lia..|].
    exists m'. split; [done|]. apply wp_set_self. simpl. exists m'. split.
    { rewrite HI0, (insert_id _ _ j Hj), (insert_id _ _ i Hi). f_equal.
      destruct w as [? ? []]. simpl in *. by subst. }
    split; [done|]. split; [lia|]. intros i' j'. rewrite Hm'. split.
    + case_decide as E.
      * destruct E as [-> ->]. intros _. exists e. eexists. split; [set_solver|]. by split.
      * intros (e' & v & He' & Hr)%Hm. exists e', v. split; [set_solver|done].
    + intros (e' & v & He' & Hv' & Hi' & Hj'). case_decide as E; [done|]. apply Hm.
      apply elem_of_app in He' as [He'|He'%list_elem_of_singleton]; [eauto 8|].
      simplify_eq/=. destruct E. split; congruence.
  - intros [] w' (m & -> & Gm & Nm & Hm). exists m. do 3 (split; [done|]). intros i j.
    rewrite Hm. unfold depends. split.
    + intros (e & v & He & Hv & Hi & Hj). eexists _, _. split; [eauto|done].
    + intros (s & t & (e & v & Hv & <- & <-) & Hi & Hj). exists e, v.
      split; [|done]. apply elem_of_visit. by apply edge_view_inv in Hv as [? _].
Qed.

(** paths in the matrix are paths of dependences *)
Lemma tc_index h g I (R : Z → Z → Prop) a b i j :
  wf h g → indexed g I →
  (∀ i j, R i j ↔ ∃ s t, depends h g s t ∧ I !! s = Some i ∧ I !! t = Some j) →
  (∃ n, node_of g a n) → I !! a = Some i → (∃ n, node_of g b n) → I !! b = Some j →
  tc R i j ↔ tc (depends h g) a b.
Proof.
  intros W HI HR Ha Hia Hb Hib.
  assert (∀ s t, depends h g s t → (∃ n, node_of g s n) ∧ ∃ n, node_of g t n) as Hval.
  { intros s t (e & v & Hv & <- & <-). destruct (edge_view_inv _ _ _ _ Hv) as (He & y & Hy).
    destruct (edge_view_live _ _ _ _ W He Hy) as (x & z & _ & _ & Nx & Nz & Hv').
    rewrite Hv in Hv'. simplify_eq/=. eauto. }
  assert (∀ i a s, (∃ n, node_of g a n) → (∃ n, node_of g s n) → I !! a = Some i →
    I !! s = Some i → a = s) as Hinj.
  { intros k x s [n Hn] [n' Hn'] H1 H2. by eapply ix_inj. }
  split.
  - intros Htc. revert a Ha Hia. induction Htc as [i j Hij|i k j Hik _ IH]; intros a Ha Hia.
    + apply HR in Hij as (s & t & Hst & Hs & Ht). destruct (Hval s t Hst) as [Vs Vt].
      rewrite (Hinj i a s), (Hinj j b t) by done. by apply tc_once.
    + apply HR in Hik as (s & t & Hst & Hs & Ht). destruct (Hval s t Hst) as [Vs Vt].
      rewrite (Hinj i a s) by done. eapply tc_l; [done|]. by apply IH.
  - intros Htc. revert i Ha Hia. induction Htc as [a b Hab|a c b Hac _ IH]; intros i Ha Hia.
    + apply tc_once, HR. eauto.
    + destruct (Hval a c Hac) as [_ Vc]. destruct Vc as [nc Hnc].
      destruct (ix_some _ _ HI _ _ Hnc) as (k & Hk & _).
      eapply (tc_l _ _ k); [apply HR; eauto|]. apply IH; eauto.
Qed.

Lemma computeReachability_run (w : World) :
  wf (w_heap w) (dag (w_dag w)) → (Z.of_nat (numNodes (dag (w_dag w))) ≤ 46340)%Z →
  wp computeReachabilityAmongSCCs (λ _ w',
    w_heap w' = w_heap w ∧ dag (w_dag w') = dag (w_dag w) ∧
    w_sccs w' = w_sccs w ∧ valueToSCCNode (w_dag w') = valueToSCCNode (w_dag w) ∧
    ∀ a b, (∃ n, node_of (dag (w_dag w)) a n) → (∃ n, node_of (dag (w_dag w)) b n) →
      ∃ r, orderedBefore (w_dag w') a b = Ok r ∧
        (r = true ↔ tc (depends (w_heap w) (dag (w_dag w))) a b)) w.
Proof.
  intros W Hcap. unfold computeReachabilityAmongSCCs.
  set (h := w_heap w) in *. set (g := dag (w_dag w)) in *.
  apply wp_bind, wp_set_self, wp_bind, wp_self, wp_bind.
  apply (index_loop h g (sccIndexes (w_dag w))); try done; [lia|].
  intros z I HI. apply wp_bind, wp_set_self. simpl. fold g. rewrite u32_small by lia.
  destruct (resize_good (Z.of_nat (numNodes g))) as [Gm Hempty]; [lia|].
  apply wp_bind. eapply wp_mono.
  { by apply (populate_loop h g I _ (resize (Z.of_nat (numNodes g)))). }
  intros [] w' (m & -> & Gm' & Nm & Hm). apply wp_bind, wp_self, wp_bind, wp_lift.
  destruct (transitiveClosure_run m Gm') as (m' & Hrun & Gm'' & Nm' & Hm').
  exists m'. split; [exact Hrun|]. apply wp_set_self. simpl. do 4 (split; [done|]).
  intros a b [na Ha] [nb Hb].
  destruct (ix_some _ _ HI _ _ Ha) as (i & Hi & Hib).
  destruct (ix_some _ _ HI _ _ Hb) as (j & Hj & Hjb).
  unfold orderedBefore. simpl. rewrite Hi, Hj.
  rewrite test_spec by (try done; lia). eexists. split; [done|].
  rewrite bool_decide_eq_true, Hm'. by eapply (tc_index h g I); eauto.
Qed.

(** After computeReachabilityAmongSCCs, orderedBefore answers for any two
    components of the graph, and answers true exactly when a non-empty path of
    dependences leads from the first to the second. The graph itself is not changed. The
    bound on the number of components is that of the matrix. *)
Theorem orderedBefore_decides_paths (w : World) :
  wf (w_heap w) (dag (w_dag w)) → (Z.of_nat (numNodes (dag (w_dag w))) ≤ 46340)%Z →
  wp computeReachabilityAmongSCCs (λ _ w',
    w_heap w' = w_heap w ∧ dag (w_dag w') = dag (w_dag w) ∧
    ∀ a b, (∃ n, node_of (dag (w_dag w)) a n) → (∃ n, node_of (dag (w_dag w)) b n) →
      ∃ r, orderedBefore (w_dag w') a b = Ok r ∧
        (r = true ↔ tc (depends (w_heap w) (dag (w_dag w))) a b)) w.
Proof.
  intros W Hcap. eapply wp_mono; [by apply computeReachability_run|].
  intros [] w' (Hh & Hg & _ & _ & Hord). by split_and!.
Qed.
End reachability.

(** ** What merging leaves behind *)
Section merge.
Context {IO : IterOrder} `{BitMatrix.BitVector}.

(** [m] leaves the reachability data and the SCC objects alone *)
Definition keeps {A} (m : M World A) : Prop := ∀ w w' a, m w = Ok (w', a) →
  sccIndexes (w_dag w') = sccIndexes (w_dag w) ∧
  orderedDirty (w_dag w') = orderedDirty (w_dag w) ∧ w_sccs w' = w_sccs w.

Lemma keeps_ret {A} (a : A) : keeps (ret a).
Proof. by intros w w' a' [= -> ->]. Qed.
Lemma keeps_fail {A} e : @keeps A (fail e).
Proof. done. Qed.
Lemma keeps_gets {A} (f : World → A) : keeps (gets f).
Proof. by intros w w' a [= -> _]. Qed.
Lemma keeps_bind {A B} (m : M World A) (f : A → M World B) :
  keeps m → (∀ a, keeps (f a)) → keeps (bind m f).
Proof.
  intros Hm Hf w w' b E. unfold bind in E. destruct (m w) as [[w1 a]|] eqn:E1; [|done].
  destruct (Hm _ _ _ E1) as (H1 & H2 & H3). destruct (Hf a _ _ _ E) as (G1 & G2 & G3).
  by rewrite G1, G2, G3, H1, H2, H3.
Qed.
Lemma keeps_deref {A} (o : option A) : keeps (deref o).
Proof. destruct o; [apply keeps_ret|apply keeps_fail]. Qed.
Lemma keeps_load_scc p : keeps (load_scc p).
Proof. intros w w' a. apply keeps_deref. Qed.
Lemma keeps_on_world_heap {A} (m : M Heap A) : keeps (on_world_heap m).
Proof. intros w w' a E. unfold on_world_heap, zoom in E. by destruct (m _) as [[? ?]|]; simplify_eq/=. Qed.
Lemma keeps_on_dag {A} (m : M GSt A) : keeps (on_dag m).
Proof. intros w w' a E. unfold on_dag, zoom in E. by destruct (m _) as [[? ?]|]; simplify_eq/=. Qed.
Lemma keeps_set_self f :
  (∀ d, sccIndexes (f d) = sccIndexes d ∧ orderedDirty (f d) = orderedDirty d) →
  keeps (set_self f).
Proof. intros Hf w w' a [= <- _]. simpl. by destruct (Hf (w_dag w)) as [-> ->]. Qed.
Lemma keeps_forM {A} (f : A → M World unit) l : (∀ x, keeps (f x)) → keeps (forM f l).
Proof. intros Hf. induction l; simpl; [apply keeps_ret|]. by apply keeps_bind. Qed.
Lemma keeps_foldM {A B} (f : B → A → M World B) b l : (∀ b x, keeps (f b x)) → keeps (foldM f b l).
Proof. intros Hf. revert b. induction l; simpl; intros b; [apply keeps_ret|]. by apply keeps_bind. Qed.
Lemma keeps_mapM {A B} (f : A → M World B) l : (∀ x, keeps (f x)) → keeps (mapM f l).
Proof.
  intros Hf. induction l; simpl; [apply keeps_ret|]. apply keeps_bind; [done|]. intros y.
  apply keeps_bind; [done|]. intros ys. apply keeps_ret.
Qed.

(** proves [keeps] of a composed method *)
Ltac keeps_auto :=
  repeat first
    [ lazymatch goal with |- ∀ _, _ => intros ? end | apply keeps_ret | apply keeps_gets | apply keeps_deref | apply keeps_load_scc
    | apply keeps_on_world_heap | apply keeps_on_dag | by apply keeps_set_self
    | apply keeps_bind | apply keeps_forM | apply keeps_foldM | apply keeps_mapM
    | progress case_match ].

Lemma markValuesInSCC_keeps : keeps markValuesInSCC.
Proof. unfold markValuesInSCC. keeps_auto. Qed.

Lemma markEdge_keeps n scc c p : keeps (markEdge n scc c p).
Proof. unfold markEdge, valueToSCCNode_at. keeps_auto. Qed.

Lemma markEdgesAndSubEdges_keeps : keeps markEdgesAndSubEdges.
Proof. unfold markEdgesAndSubEdges. keeps_auto. Qed.

Lemma new_SCC_effect nodes w w' p : new_SCC nodes w = Ok (w', p) →
  p = nextAddr (w_heap w) ∧ w_dag w' = w_dag w ∧ is_Some (w_sccs w' !! p).
Proof.
  unfold new_SCC. destruct (SCC_new _ _) as [[[h g] []]|] eqn:E; [|done].
  intros [= <- <-]. split; [done|]. split; [done|]. simpl. rewrite lookup_insert_eq. eauto.
Qed.

Lemma bind_inv {A B} (m : M World A) (f : A → M World B) w w' b :
  bind m f w = Ok (w', b) → ∃ w1 a, m w = Ok (w1, a) ∧ f a w1 = Ok (w', b).
Proof. unfold bind. destruct (m w) as [[w1 a]|]; [eauto|done]. Qed.

(** [m] does not change the state *)
Definition reads {A} (m : M World A) : Prop := ∀ w w' a, m w = Ok (w', a) → w' = w.
Lemma reads_deref {A} (o : option A) : reads (deref o).
Proof. destruct o; [by intros w w' a' [= -> _]|done]. Qed.
Lemma reads_load_scc p : reads (load_scc p).
Proof. intros w w' a. apply reads_deref. Qed.
Lemma reads_load_node p : reads (on_world_heap (load_node p)).
Proof.
  intros w w' a. unfold on_world_heap, zoom, load_node.
  destruct (hnodes (w_heap w) !! p); simpl; [|done]. intros [= <- _]. by destruct w.
Qed.
Lemma reads_bind {A B} (m : M World A) (f : A → M World B) :
  reads m → (∀ a, reads (f a)) → reads (bind m f).
Proof. intros Hm Hf w w' b (w1 & a & E1 & E2)%bind_inv. apply Hm in E1 as ->. by eapply Hf. Qed.
Lemma reads_mapM {A B} (f : A → M World B) l : (∀ x, reads (f x)) → reads (mapM f l).
Proof.
  intros Hf. induction l; simpl; [by intros w w' a' [= -> _]|]. apply reads_bind; [done|].
  intros y. apply reads_bind; [done|]. by intros ys w w' a' [= -> _].
Qed.

Lemma nodesOfSCCs_reads sccSet : reads (nodesOfSCCs sccSet).
Proof.
  apply reads_bind; [|by intros ls w w' a [= -> _]]. apply reads_mapM. intros n. apply reads_bind; [apply reads_load_node|].
  intros x. apply reads_bind; [apply reads_load_scc|]. intros scc. apply reads_mapM. intros q. apply reads_deref.
Qed.

(** (C20) Merging components does not update the reachability index: the merged component, which
    is built from the nodes of all of them, is new, and asking whether it is ordered before any other
    one, or for its index, dereferences the end of the index map, although the index is not marked
    dirty. *)
Theorem merged_SCC_has_no_index sccSet (w w' : World) :
  2 ≤ size sccSet → orderedDirty (w_dag w) = false →
  (∀ s, is_Some (sccIndexes (w_dag w) !! s) → (s < nextAddr (w_heap w))%positive) →
  mergeSCCs sccSet w = Ok (w', tt) →
  ∃ nodes w1 p, nodesOfSCCs sccSet w = Ok (w, nodes) ∧ new_SCC nodes w = Ok (w1, p) ∧ w_sccs w' !! p = w_sccs w1 !! p ∧
    is_Some (w_sccs w' !! p) ∧ sccIndexes (w_dag w) !! p = None ∧
    orderedDirty (w_dag w') = false ∧
    getSCCIndex (w_dag w') p = Fail UndefinedBehaviour ∧
    ∀ q, orderedBefore (w_dag w') p q = Fail UndefinedBehaviour.
Proof.
  intros Hsize Hdirty Hfresh E. unfold mergeSCCs in E. rewrite decide_False in E by lia.
  apply bind_inv in E as (w1 & nodes & E1 & E). assert (w1 = w) as -> by by eapply nodesOfSCCs_reads.
  apply bind_inv in E as (w2 & p & E2 & E). destruct (new_SCC_effect _ _ _ _ E2) as (-> & Ed & Hp).
  assert (keeps (on_dag (addNode (nextAddr (w_heap w)) true) ;;;
    forM (λ sccNode, on_dag (removeNode sccNode)) (visit sccSet) ;;;
    markValuesInSCC ;;; markEdgesAndSubEdges)) as Hk.
  { keeps_auto. }
  destruct (Hk _ _ _ E) as (Hi & Hd & Hs).
  assert (sccIndexes (w_dag w) !! nextAddr (w_heap w) = None) as Hnone.
  { apply eq_None_not_Some. intros Hc%Hfresh. lia. }
  exists nodes, w2, (nextAddr (w_heap w)). rewrite Hs, Hd, Ed. split_and!; try done.
  all: unfold getSCCIndex, orderedBefore; by rewrite ?Hi, ?Hd, ?Ed, ?Hdirty, ?Hnone.
Qed.
End merge.
