(* ===== verification/SCCDAGComponents.v ===== *)
(** * The components of the SCCDAG

    The first loop of the constructor of [SCCDAG]: every node of the dependence graph ends in
    exactly one SCC object, together with the nodes it shares a cycle with. Then the states of the
    loops after it: the map from values to components, and the edges with their sub-edges. *)
From S2P Require Import Prelude SCCIterator DGEdge DGNode DGBase DGInvariant DGSpec DGQuery DGCopy PDGSpec SCC SCCSpec.
From S2P Require BitMatrix BitMatrixSpec.
From S2P Require Import SCCDAG SCCDAGSpec.

(** [h] holds what [h0] held *)
Record keeps_heap (h0 h : Heap) : Prop := {
  kh_nodes n x : hnodes h0 !! n = Some x → hnodes h !! n = Some x;
  kh_edges e y : hedges h0 !! e = Some y → hedges h !! e = Some y;
  kh_next : (nextAddr h0 ≤ nextAddr h)%positive
}.

Lemma keeps_refl h : keeps_heap h h.
Proof. split; [done|done|lia]. Qed.
Lemma keeps_trans h1 h2 h3 : keeps_heap h1 h2 → keeps_heap h2 h3 → keeps_heap h1 h3.
Proof. intros [] []. split; [auto|auto|lia]. Qed.

Section kept.
Context (h h' : Heap) (g : DG) (W : wf h g) (K : keeps_heap h h').

Lemma kept_node n : n ∈ allNodes g → hnodes h' !! n = hnodes h !! n.
Proof. intros Hn. destruct (wf_node _ _ W n Hn) as (x & Hx & _). rewrite Hx. by apply K. Qed.
Lemma kept_edge e : e ∈ allEdges g → hedges h' !! e = hedges h !! e.
Proof. intros He. destruct (wf_edge _ _ W e He) as (y & Hy & _). rewrite Hy. by apply K. Qed.

Lemma wf_kept : heap_ok h' → wf h' g.
Proof.
  intros Hok. split; try done.
  - intros n Hn. rewrite kept_node by done. by apply W.
  - intros t n HT. destruct (wf_map _ _ W t n HT) as (Hn & Hx). by rewrite kept_node.
  - apply W.
  - intros e He. rewrite kept_edge by done. by apply W.
  - intros n x e Hn. rewrite kept_node by done. intros Hx. rewrite (wf_out _ _ W n x e Hn Hx).
    apply and_iff_under. intros He. by rewrite kept_edge.
  - intros n x e Hn. rewrite kept_node by done. intros Hx. rewrite (wf_in _ _ W n x e Hn Hx).
    apply and_iff_under. intros He. by rewrite kept_edge.
Qed.
End kept.

Lemma heap_ok_fresh h : heap_ok h → hnodes h !! nextAddr h = None ∧ hedges h !! nextAddr h = None.
Proof. split; [by apply heap_ok_fresh_node|by apply heap_ok_fresh_edge]. Qed.

Lemma keeps_added_node h g t b : heap_ok h → keeps_heap h (added_node h g t b).1.
Proof.
  intros Hok. split; simpl; [|done|lia]. intros n x Hx. rewrite lookup_insert_ne; [done|].
  intros <-. by rewrite (proj1 (heap_ok_fresh h Hok)) in Hx.
Qed.

(** ** The dependence graph *)

Section sccdag.
Context {IO : IterOrder} `{BL : BitMatrix.BitVectorLaws} {SI : SCCIterator} {SL : SCCIteratorLaws SI}.
Context (h0 : Heap) (pdg : DG) (W0 : wf h0 pdg).

(** the dependence [e] leads from the node [a] to the node [b] *)
Definition ends (e a b : Ptr) : Prop :=
  e ∈ allEdges pdg ∧ ∃ y, hedges h0 !! e = Some y ∧ from y = a ∧ to y = b.
Definition dep : relation Ptr := λ a b, ∃ e, ends e a b.
(** two nodes on a cycle, or one node *)
Definition mutual : relation Ptr := λ a b, rtc dep a b ∧ rtc dep b a.

Lemma mutual_refl a : mutual a a.
Proof. split; apply rtc_refl. Qed.
Lemma mutual_sym a b : mutual a b → mutual b a.
Proof. by intros []. Qed.
Lemma mutual_trans a b c : mutual a b → mutual b c → mutual a c.
Proof. intros [] []. split; by etransitivity. Qed.

Lemma dep_nodes a b : dep a b → a ∈ allNodes pdg ∧ b ∈ allNodes pdg.
Proof. intros (e & He & y & Hy & <- & <-). destruct (wf_edge _ _ W0 e He) as (y' & ? & ? & ?). by simplify_eq. Qed.
Lemma rtc_nodes a b : rtc dep a b → a ∈ allNodes pdg → b ∈ allNodes pdg.
Proof. intros Hab Ha. apply (rtc_closed dep (λ b, b ∈ allNodes pdg) a b); [|done..]. by intros x y _ []%dep_nodes. Qed.

Lemma elem_of_successors h n m : keeps_heap h0 h → n ∈ allNodes pdg → m ∈ successors h n ↔ dep n m.
Proof.
  intros K Hn. destruct (wf_node _ _ W0 n Hn) as (x & Hx & _). unfold successors.
  rewrite (kh_nodes _ _ K n x Hx), list_elem_of_omap. setoid_rewrite elem_of_visit.
  setoid_rewrite (wf_out _ _ W0 n x); [|done..]. split.
  - intros (e & (He & y & Hy & Hf) & Hm). rewrite (kh_edges _ _ K e y Hy) in Hm. simplify_eq/=. by exists e; split; [|exists y].
  - intros (e & He & y & Hy & Hf & Ht). exists e. rewrite (kh_edges _ _ K e y Hy). simpl. subst. split; [|done].
    split; [done|]. by exists y.
Qed.

Lemma reaches_dep h n m : keeps_heap h0 h → n ∈ allNodes pdg → reaches (successors h) n m ↔ rtc dep n m.
Proof.
  intros K Hn. split.
  - intros Hr. induction Hr as [|a b c Hab _ IH]; [done|]. apply (elem_of_successors h) in Hab; [|done..].
    eapply rtc_l; [done|]. apply IH. by destruct (dep_nodes _ _ Hab).
  - intros Hr. induction Hr as [|a b c Hab _ IH]; [apply rtc_refl|]. destruct (dep_nodes _ _ Hab).
    eapply rtc_l; [by apply (elem_of_successors h)|]. by apply IH.
Qed.

Lemma pdg_closed h : keeps_heap h0 h → closed_graph (allNodes pdg) (successors h).
Proof. intros K n m Hn Hm. apply (elem_of_successors h) in Hm; [|done..]. by destruct (dep_nodes _ _ Hm). Qed.

(** a list of nodes that is a component *)
Definition is_component (c : list Ptr) : Prop :=
  c ≠ [] ∧ ∀ n, n ∈ c → n ∈ allNodes pdg ∧ ∀ m, m ∈ c ↔ mutual n m.

Lemma components_listed h n : keeps_heap h0 h → n ∈ allNodes pdg →
  (∀ c, c ∈ scc_components (allNodes pdg) (successors h) n → is_component c) ∧
  ∃ c, c ∈ scc_components (allNodes pdg) (successors h) n ∧ n ∈ c.
Proof.
  intros K Hn. pose proof (pdg_closed h K) as Hcl. split.
  - intros c Hc. split; [by eapply scc_nonempty|]. intros k Hk.
    assert (k ∈ allNodes pdg) as Hkn.
    { apply (rtc_nodes n k); [|done]. apply (reaches_dep h); [done..|]. apply (scc_cover _ _ n k Hcl Hn). eauto. }
    split; [done|]. intros m. rewrite (scc_class _ _ n c k m Hcl Hn Hc Hk). unfold mutual.
    rewrite reaches_dep by done. split; intros [H1 H2]; (split; [done|]).
    + apply (reaches_dep h); [done| |done]. by eapply rtc_nodes.
    + apply (reaches_dep h); [done| |done]. by eapply rtc_nodes.
  - apply (scc_cover _ _ n n Hcl Hn). apply rtc_refl.
Qed.

(** ** SCC objects *)

(** the SCC object [g] of the nodes [I]; [m] maps the dependences it copied to their copies *)
Record scc_object (h : Heap) (I : gset Ptr) (g : DG) (m : gmap Ptr Ptr) : Prop := {
  so_internal t : internal_value g t ↔ ∃ n, n ∈ I ∧ node_of pdg t n;
  so_pairs t o : internalNodeMap g !! t = Some o → is_Some o;
  so_external t o : externalNodeMap g !! t = Some o → ∃ k n x, o = Some k ∧ node_of pdg t n ∧ n ∉ I ∧
    hnodes h !! k = Some x ∧
    ∀ e', e' ∈ incomingEdges x ↔ ∃ e a, m !! e = Some e' ∧ a ∈ I ∧ ends e a n;
  so_borders t a n : a ∈ I → dep a n → n ∉ I → node_of pdg t n → external_value g t;
  so_copied e a n : a ∈ I → ends e a n → ∃ e' y, m !! e = Some e' ∧ hedges h !! e' = Some y
}.

Lemma scc_object_kept h h' I g m : keeps_heap h h' → scc_object h I g m → scc_object h' I g m.
Proof.
  intros K [H1 H2 H3 H4 H5]. split; try done.
  - intros t o Ho. destruct (H3 t o Ho) as (k & n & x & ? & ? & ? & Hx & ?). exists k, n, x.
    split_and!; try done. by apply K.
  - intros e a n Ha He. destruct (H5 e a n Ha He) as (e' & y & ? & Hy). exists e', y. split; [done|]. by apply K.
Qed.

Lemma node_value n : n ∈ allNodes pdg → ∃ t x, node_of pdg t n ∧ hnodes h0 !! n = Some x ∧ theT x = t.
Proof. intros Hn. destruct (wf_node _ _ W0 n Hn) as (x & Hx & HT). eauto. Qed.
Lemma value_unique t t' n : node_of pdg t n → node_of pdg t' n → t = t'.
Proof.
  intros H1 H2. destruct (wf_map _ _ W0 _ _ H1) as (_ & x & ? & ?).
  destruct (wf_map _ _ W0 _ _ H2) as (_ & x' & ? & ?). by simplify_eq.
Qed.
Lemma node_unique t n n' : node_of pdg t n → node_of pdg t n' → n = n'.
Proof. by apply (wf_node_of_inj _ _ _ _ _ W0). Qed.

(** the ends of a dependence as its view gives them *)
Lemma ends_view h e a b : keeps_heap h0 h → ends e a b →
  ∃ s t v, node_of pdg s a ∧ node_of pdg t b ∧ edge_view h pdg e = Some v ∧ a_src v = s ∧ a_dst v = t.
Proof.
  intros K (He & y & Hy & <- & <-). destruct (edge_view_live _ _ _ _ W0 He Hy) as (x & z & Hx & Hz & Nx & Nz & _).
  exists (theT x), (theT z), (mkAEdge (theT x) (theT z) (kind y) (dataDepType y)).
  split; [done|]. split; [done|]. split; [|done].
  unfold edge_view. rewrite decide_True, (kh_edges _ _ K e y Hy) by done. simpl.
  rewrite (kh_nodes _ _ K _ x Hx). simpl. by rewrite (kh_nodes _ _ K _ z Hz).
Qed.
Lemma edge_view_nodes h e v : keeps_heap h0 h → edge_view h pdg e = Some v →
  ∃ a b, node_of pdg (a_src v) a ∧ node_of pdg (a_dst v) b ∧ ends e a b.
Proof.
  intros K Hv. destruct (edge_view_inv _ _ _ _ Hv) as [He _]. destruct (wf_edge _ _ W0 e He) as (y & Hy & _ & _).
  assert (ends e (from y) (to y)) as Hends by (split; [done|by exists y]).
  destruct (ends_view h e _ _ K Hends) as (s & t & v' & Hs & Ht & Hv' & <- & <-). simplify_eq. eauto.
Qed.

Lemma subgraph_object h1 I m s : keeps_heap h0 h1 → wf h1 pdg → I ⊆ allNodes pdg →
  subgraph h1 pdg (λ t, ∃ n, n ∈ I ∧ node_of pdg t n) true ∅ (λ e, e ∈ allEdges pdg) m s →
  keeps_heap h1 s.1 ∧ heap_ok s.1 ∧ scc_object s.1 I s.2 m.
Proof.
  intros K W1 HI [C Hnx Hint Hm Hext]. pose proof (cp_wf _ _ _ _ C) as W.
  assert (∀ t n, node_of pdg t n → (∃ k, k ∈ I ∧ node_of pdg t k) ↔ n ∈ I) as Hin.
  { intros t n Hn. split; [|eauto]. intros (k & Hk & HT). by rewrite (node_unique _ _ _ Hn HT). }
  assert (∀ e a b, ends e a b → a ∈ I ∨ b ∈ I → ∃ e', m !! e = Some e' ∧ ∃ v, edge_view s.1 s.2 e' = Some v ∧
    node_of pdg (a_src v) a ∧ node_of pdg (a_dst v) b) as Hcopy.
  { intros e a b Hends Hab. destruct (ends_view h1 e a b K Hends) as (x & y & v & Hx & Hy & Hv & <- & <-).
    destruct (proj2 (Hm e)) as [e' He'].
    { split; [apply Hends|]. split; [set_solver|]. exists v. split; [done|]. rewrite !(Hin _ _ Hx), !(Hin _ _ Hy). done. }
    exists e'. split; [done|]. exists v. split; [|done]. destruct (cp_view _ _ _ _ C e e' He') as (_ & -> & _). done. }
  split; [|split; [apply W|]].
  { split; [|apply C|done]. intros n x Hx. destruct (cp_nodes _ _ _ _ C n) as [-> _]; [eauto|done]. }
  split.
  - intros t. apply Hint.
  - intros t o Ho. by destruct (wf_internal _ _ W t o Ho).
  - intros t [k|] Ho; [|by destruct (cp_phantom _ _ _ _ C t)].
    assert (external_value s.2 t) as Hev by (by exists k). apply Hext in Hev as [Hno (e & v & [e' He'] & Hv & Ht)].
    assert (∃ n, node_of pdg t n) as [n HT].
    { destruct (edge_view_nodes h1 e v K Hv) as (a & b & Ha & Hb & _). destruct Ht as [-> | ->]; eauto. }
    destruct (wf_map _ _ W t k (or_intror Ho)) as (Hk & x & Hx & HTk).
    exists k, n, x. split_and!; [done..|by rewrite (Hin _ _ HT) in Hno|done|]. intros e1.
    rewrite (wf_in _ _ W k x e1 Hk Hx), (cp_image _ _ _ _ C). split.
    + intros [[e2 He2] (y & Hy & Hto)].
      destruct (cp_view _ _ _ _ C e2 e1 He2) as (_ & Hv2 & _).
      assert (is_Some (m !! e2)) as Hq by eauto. apply Hm in Hq as (_ & _ & v2 & Hv2' & Hq & _).
      destruct (edge_view_nodes h1 e2 v2 K Hv2') as (a & b & Ha & Hb & Hends).
      exists e2, a. split; [done|]. rewrite Hv2' in Hv2.
      assert (a_dst v2 = t) as Hdst.
      { destruct (edge_view_live _ _ _ _ W (proj2 (cp_image _ _ _ _ C e1) (ex_intro _ e2 He2)) Hy) as (? & z & _ & Hz & _ & _ & Hv3).
        rewrite Hv2 in Hv3. simplify_eq/=. done. }
      rewrite Hdst in Hb. rewrite (node_unique _ _ _ HT Hb). split; [|done].
      rewrite (Hin _ _ Ha), Hdst, (Hin _ _ HT) in Hq. rewrite (Hin _ _ HT) in Hno. tauto.
    + intros (e2 & a & He2 & Ha & Hends). split; [eauto|].
      destruct (Hcopy e2 a n Hends) as (e3 & He3 & v2 & Hv2 & Hsrc & Hdst); [by left|]. simplify_eq.
      destruct (edge_view_inv _ _ _ _ Hv2) as (He1 & y & Hy). exists y. split; [done|].
      destruct (edge_view_live _ _ _ _ W He1 Hy) as (? & z & _ & _ & _ & Nz & Hv3). rewrite Hv2 in Hv3. simplify_eq/=.
      rewrite (value_unique _ _ _ Hdst HT) in Nz. by apply (wf_node_of_inj _ _ _ _ _ W Nz (or_intror Ho)).
  - intros t a n Ha [e Hends] Hn HT. apply Hext. split; [by rewrite (Hin _ _ HT)|].
    destruct (ends_view h1 e a n K Hends) as (x & y & v & Hx & Hy & Hv & Hs & Ht).
    destruct (Hcopy e a n Hends) as (e' & He' & _); [by left|]. exists e, v. split; [eauto|]. split; [done|].
    right. rewrite Ht. by eapply value_unique.
  - intros e a n Ha Hends. destruct (Hcopy e a n Hends) as (e' & He' & v & Hv & _); [by left|]. exists e'.
    destruct (edge_view_inv _ _ _ _ Hv) as (_ & y & Hy). eauto.
Qed.

(** ** The loop *)

(** the SCC objects built so far: [C] maps each to its nodes, [mm] to its copies of dependences *)
Record built (C : gmap Ptr (gset Ptr)) (mm : gmap Ptr (gmap Ptr Ptr)) (visited : gset Ptr) (w : World) : Prop := {
  bu_keeps : keeps_heap h0 (w_heap w);
  bu_wf : wf (w_heap w) (dag (w_dag w));
  bu_edges : allEdges (dag (w_dag w)) = ∅;
  bu_nodes p : (∃ n, node_of (dag (w_dag w)) p n) ↔ is_Some (C !! p);
  bu_fresh p : is_Some (C !! p) → (p < nextAddr (w_heap w))%positive;
  bu_count : numNodes (dag (w_dag w)) ≤ size visited ∧
             nodeIdCounter (dag (w_dag w)) = Z.of_nat (numNodes (dag (w_dag w)));
  bu_object p I : C !! p = Some I → ∃ g m, w_sccs w !! p = Some g ∧ mm !! p = Some m ∧ scc_object (w_heap w) I g m;
  bu_class p I n : C !! p = Some I → n ∈ I → n ∈ allNodes pdg ∧ ∀ k, k ∈ I ↔ mutual n k;
  bu_nonempty p I : C !! p = Some I → I ≠ ∅;
  bu_disjoint p q I J n : C !! p = Some I → C !! q = Some J → n ∈ I → n ∈ J → p = q;
  bu_apart p g t k : is_Some (C !! p) → w_sccs w !! p = Some g → node_of g t k →
    is_Some (hnodes (w_heap w) !! k) ∧ k ∉ allNodes (dag (w_dag w));
  bu_new k : k ∈ allNodes (dag (w_dag w)) → hnodes h0 !! k = None;
  bu_visited n : n ∈ visited ↔ ∃ p I, C !! p = Some I ∧ n ∈ I
}.

Context (Hcp : ∀ e, e ∈ allEdges pdg → copyable h0 e) (Hcap : (Z.of_nat (numNodes pdg) ≤ 46340)%Z).

Lemma copyable_kept h e : keeps_heap h0 h → copyable h0 e → copyable h e.
Proof.
  intros K (x & Hx & ? & ? & Hsub). exists x. split; [by apply K|]. split_and!; [done..|].
  intros p [y Hy]%Hsub. exists y. by apply K.
Qed.

Definition fresh_heap (h : Heap) : Heap := mkHeap (hnodes h) (hedges h) (Pos.succ (nextAddr h)).
Lemma keeps_fresh h : keeps_heap h (fresh_heap h).
Proof. split; simpl; [done|done|lia]. Qed.
Lemma fresh_heap_ok h : heap_ok h → heap_ok (fresh_heap h).
Proof. intros [H1 H2]. split; simpl; intros p Hp; [pose proof (H1 p Hp)|pose proof (H2 p Hp)]; lia. Qed.

Lemma new_SCC_spec (I : gset Ptr) w : keeps_heap h0 (w_heap w) → heap_ok (w_heap w) → I ⊆ allNodes pdg → I ≠ ∅ →
  wp (new_SCC I) (λ p w', p = nextAddr (w_heap w) ∧ w_dag w' = w_dag w ∧ keeps_heap (w_heap w) (w_heap w') ∧
    (p < nextAddr (w_heap w'))%positive ∧ heap_ok (w_heap w') ∧
    ∃ g m, w_sccs w' = <[p := g]> (w_sccs w) ∧ scc_object (w_heap w') I g m ∧
      ∀ t k, node_of g t k → is_Some (hnodes (w_heap w') !! k) ∧ hnodes (w_heap w) !! k = None) w.
Proof.
  intros K Hok HI Hne. set (h1 := fresh_heap (w_heap w)).
  assert (keeps_heap h0 h1) as K1 by (eapply keeps_trans; [done|apply keeps_fresh]).
  assert (wf h1 pdg) as W1 by (eapply wf_kept; [exact W0|done|by apply fresh_heap_ok]).
  assert (wp (SCC_new I) (λ _ s', ∃ m, subgraph h1 pdg (λ t, ∃ n, n ∈ I ∧ node_of pdg t n) true ∅
    (λ e, e ∈ allEdges pdg) m s') (h1, DG_new)) as Hrun.
  { apply SCC_new_run; [done..| |].
    - intros e [He _]. eapply copyable_kept; eauto.
    - unfold int32_max. lia. }
  apply wp_ok in Hrun as ([h' g] & [] & Hrun & m & Hsg).
  destruct (subgraph_object h1 I m (h', g) K1 W1 HI Hsg) as (K' & Hok' & Hobj). simpl in *.
  unfold wp, new_SCC. change (mkHeap _ _ _) with h1. rewrite Hrun. simpl.
  pose proof (kh_next _ _ K') as Hnx. simpl in Hnx.
  split_and!; [done|done|by eapply keeps_trans; [apply keeps_fresh|]|lia|done|].
  exists g, m. split_and!; [done..|]. intros t k Hk. pose proof (sg_copying _ _ _ _ _ _ _ _ Hsg) as Cp.
  destruct (wf_map _ _ (cp_wf _ _ _ _ Cp) t k Hk) as (Hkn & x & Hx & _). simpl in *. split; [eauto|].
  apply eq_None_not_Some. intros Hold. by destruct (cp_nodes _ _ _ _ Cp k Hold).
Qed.

Lemma wp_on_dag {A} (m : M GSt A) Q (w : World) :
  wp (on_dag m) Q w ↔ wp m (λ a s, Q a (mkWorld s.1 (w_sccs w) (set_dag s.2 (w_dag w)))) (w_heap w, dag (w_dag w)).
Proof.
  exact (wp_zoom (λ w : World, (w_heap w, dag (w_dag w))) (λ s w, mkWorld s.1 (w_sccs w) (set_dag s.2 (w_dag w))) m Q w).
Qed.

Lemma built_extended C mm visited w w' p I g m b : built C mm visited w → p = nextAddr (w_heap w) →
  keeps_heap (w_heap w) (w_heap w') → (p < nextAddr (w_heap w'))%positive → heap_ok (w_heap w') →
  w_sccs w' = <[p := g]> (w_sccs w) → scc_object (w_heap w') I g m → I ≠ ∅ → I ## visited →
  (∀ n, n ∈ I → n ∈ allNodes pdg ∧ ∀ k, k ∈ I ↔ mutual n k) →
  (∀ t k, node_of g t k → is_Some (hnodes (w_heap w') !! k) ∧ hnodes (w_heap w) !! k = None) →
  let s := added_node (w_heap w') (dag (w_dag w)) p b in
  built (<[p := I]> C) (<[p := m]> mm) (I ∪ visited) (mkWorld s.1 (w_sccs w') (set_dag s.2 (w_dag w))).
Proof.
  intros B Hp K Hfr Hok Hsccs Hobj Hne Hdis Hcls Hapart s.
  assert (C !! p = None) as HCp.
  { apply eq_None_not_Some. intros HpC. pose proof (bu_fresh _ _ _ _ B p HpC). lia. }
  assert (∀ n, ¬ node_of (dag (w_dag w)) p n) as Hno.
  { intros n Hn. assert (is_Some (C !! p)) as [? ?] by (apply (bu_nodes _ _ _ _ B); eauto). congruence. }
  assert (wf (w_heap w') (dag (w_dag w))) as W' by (eapply wf_kept; [apply B|done..]).
  destruct (added_node_wf _ _ p b W' Hno) as [Ws Hnode]. fold s in Ws, Hnode.
  assert (keeps_heap (w_heap w') s.1) as Ks by by apply keeps_added_node.
  pose proof (bu_count _ _ _ _ B) as [Hc1 Hc2].
  assert (numNodes s.2 = S (numNodes (dag (w_dag w)))) as Hnum.
  { unfold numNodes. simpl. rewrite size_union, size_singleton; [done|].
    apply disjoint_singleton_l. by apply (wf_fresh_node _ _ W'). }
  split; cbn [w_heap w_sccs w_dag dag set_dag].
  - eapply keeps_trans; [apply B|]. by eapply keeps_trans.
  - exact Ws.
  - apply B.
  - intros q. rewrite lookup_insert_is_Some, <- (bu_nodes _ _ _ _ B q). setoid_rewrite Hnode.
    destruct (decide (p = q)) as [->|Hpq]; [naive_solver|]. split; [|naive_solver].
    intros (n & [[-> _]|Hn]); [done|]. right. eauto.
  - intros q. rewrite lookup_insert_is_Some. pose proof (kh_next _ _ K). pose proof (kh_next _ _ Ks).
    intros [<-|[_ Hq]]; [lia|]. pose proof (bu_fresh _ _ _ _ B q Hq). lia.
  - rewrite Hnum.
    rewrite size_union by done. assert (size I ≠ 0) by (apply size_non_empty_iff; by intros ?%leibniz_equiv).
    split; [lia|]. simpl. rewrite Hc2. lia.
  - intros q J [[<- <-]|[Hq HJ]]%lookup_insert_Some.
    + exists g, m. rewrite Hsccs, !lookup_insert_eq. split_and!; [done..|]. by eapply scc_object_kept.
    + destruct (bu_object _ _ _ _ B q J HJ) as (g' & m' & ? & ? & Ho). exists g', m'.
      rewrite Hsccs, !lookup_insert_ne by done. split_and!; [done..|]. eapply scc_object_kept; [|done].
      by eapply keeps_trans.
  - intros q J n [[<- <-]|[Hq HJ]]%lookup_insert_Some; [apply Hcls|by apply (bu_class _ _ _ _ B q)].
  - intros q J [[<- <-]|[Hq HJ]]%lookup_insert_Some; [done|by apply (bu_nonempty _ _ _ _ B q)].
  - assert (∀ q J n, C !! q = Some J → n ∈ J → n ∉ I) as Hout.
    { intros q J n HJ HnJ HnI. apply (Hdis n HnI). apply (bu_visited _ _ _ _ B). eauto. }
    intros q1 q2 J1 J2 n [[<- <-]|[Hq1 HJ1]]%lookup_insert_Some [[<- <-]|[Hq2 HJ2]]%lookup_insert_Some H1 H2.
    + done.
    + by destruct (Hout q2 J2 n).
    + by destruct (Hout q1 J1 n).
    + by eapply (bu_disjoint _ _ _ _ B).
  - intros q g' t k. rewrite Hsccs. intros HqC Hq Hk.
    assert (is_Some (hnodes (w_heap w') !! k) ∧ k ∉ allNodes (dag (w_dag w))) as [[x Hx] Hkn].
    { apply lookup_insert_Some in Hq as [[<- <-]|[Hpq Hq]].
      - destruct (Hapart t k Hk) as [? Hnone]. split; [done|]. intros Hin.
        destruct (wf_node _ _ (bu_wf _ _ _ _ B) k Hin) as (? & ? & _). congruence.
      - rewrite lookup_insert_ne in HqC by done. destruct (bu_apart _ _ _ _ B q g' t k HqC Hq Hk) as [[x Hx] ?].
        split; [exists x; by apply K|done]. }
    split; [exists x; by apply Ks|]. simpl. rewrite not_elem_of_union, not_elem_of_singleton. split; [|done].
    intros ->. by rewrite (proj1 (heap_ok_fresh _ Hok)) in Hx.
  - intros k. simpl. intros [->%elem_of_singleton|Hk]%elem_of_union; [|by apply (bu_new _ _ _ _ B)].
    apply eq_None_not_Some. intros [x Hx]. pose proof (proj1 (heap_ok_fresh _ Hok)) as Hn.
    by rewrite (kh_nodes _ _ K _ x (kh_nodes _ _ (bu_keeps _ _ _ _ B) _ x Hx)) in Hn.
  - intros n. rewrite elem_of_union, (bu_visited _ _ _ _ B). split.
    + intros [Hn|(q & J & HJ & Hn)]; [exists p, I; by rewrite lookup_insert_eq|].
      exists q, J. rewrite lookup_insert_ne by congruence. done.
    + intros (q & J & [[<- <-]|[_ HJ]]%lookup_insert_Some & Hn); [auto|right; eauto].
Qed.

Lemma addComponent_spec C mm visited w c : built C mm visited w → is_component c →
  wp (addComponent pdg visited c) (λ visited' w', ∃ C' mm', built C' mm' visited' w' ∧ visited ⊆ visited' ∧
    ∀ n, n ∈ c → n ∈ visited') w.
Proof.
  intros B [Hne Hc]. unfold addComponent. destruct c as [|f c]; [done|]. apply wp_bind, wp_deref. exists f. split; [done|].
  assert (∀ p I n, C !! p = Some I → n ∈ I → n ∈ f :: c → ∀ k, k ∈ I ↔ k ∈ f :: c) as Hsame.
  { intros p I n HI HnI Hn k. destruct (bu_class _ _ _ _ B p I n HI HnI) as [_ ->]. by destruct (Hc n Hn) as [_ ->]. }
  case_decide as Hf.
  { apply wp_ret. exists C, mm. split_and!; [done..|]. intros n Hn. apply (bu_visited _ _ _ _ B) in Hf as (p & I & HI & HfI).
    apply (bu_visited _ _ _ _ B). exists p, I. split; [done|]. eapply Hsame; [done|exact HfI|set_solver|done]. }
  set (I := list_to_set (f :: c) : gset Ptr).
  assert (∀ n, n ∈ I ↔ n ∈ f :: c) as HI by (intros; apply elem_of_list_to_set).
  assert (I ⊆ allNodes pdg) as Hsub by (intros n Hn%HI; by apply Hc).
  assert (I ≠ ∅) as HIne. { intros He. apply (not_elem_of_empty (C := gset Ptr) f). rewrite <- He. apply HI. set_solver. }
  assert (I ## visited) as Hdis.
  { intros n Hn%HI Hv. apply Hf. apply (bu_visited _ _ _ _ B) in Hv as (p & J & HJ & HnJ).
    apply (bu_visited _ _ _ _ B). exists p, J. split; [done|]. eapply Hsame; [done|exact HnJ|done|set_solver]. }
  apply wp_bind. eapply wp_mono.
  { apply (new_SCC_spec I w); [apply B|apply (wf_heap _ _ (bu_wf _ _ _ _ B))|done..]. }
  intros p w1 (Hp & Hdag & K & Hfr & Hok & g & m & Hsccs & Hobj & Hapart). apply wp_bind.
  apply (wp_mapM _ (λ n, match hnodes h0 !! n with Some x => isInternal pdg (theT x) | None => false end)).
  { intros n Hn%elem_of_visit. destruct (wf_node _ _ W0 n) as (x & Hx & _); [by apply Hsub|].
    rewrite Hx. unfold bind, on_world_heap, zoom, load_node. rewrite (kh_nodes _ _ K n x); [by destruct w1|].
    by apply (kh_nodes _ _ (bu_keeps _ _ _ _ B)). }
  apply wp_bind, wp_on_dag. rewrite Hdag. unfold wp at 1. rewrite addNode_run.
  - apply wp_ret. eexists _, _. split; [|split].
    + eapply (built_extended C mm visited w w1 p I g m); try done.
      intros n Hn%HI. split; [by apply Hc|]. intros k. rewrite HI. by apply Hc.
    + set_solver.
    + intros n Hn%HI. set_solver.
  - destruct (bu_count _ _ _ _ B) as [Hc1 ->].
    assert (size visited ≤ size (allNodes pdg)); [|unfold int32_max, numNodes in *; lia].
    apply subseteq_size. intros n (q & J & HJ & Hn)%(bu_visited _ _ _ _ B).
    by apply (bu_class _ _ _ _ B q J n).
Qed.

Lemma addComponents_spec C mm visited w l : built C mm visited w → (∀ c, c ∈ l → is_component c) →
  wp (foldM (addComponent pdg) visited l) (λ visited' w', ∃ C' mm', built C' mm' visited' w' ∧ visited ⊆ visited' ∧
    ∀ c n, c ∈ l → n ∈ c → n ∈ visited') w.
Proof.
  intros B Hl. eapply wp_mono.
  { apply (wp_foldM _ (λ pre _ visited' w', ∃ C' mm', built C' mm' visited' w' ∧ visited ⊆ visited' ∧
      ∀ c n, c ∈ pre → n ∈ c → n ∈ visited')).
    - exists C, mm. split_and!; [done..|]. by intros c n ?%not_elem_of_nil.
    - intros pre c post v1 w1 -> (C1 & mm1 & B1 & Hsub & Hpre). eapply wp_mono.
      { apply (addComponent_spec C1 mm1 v1 w1 c B1), Hl. set_solver. }
      intros v2 w2 (C2 & mm2 & B2 & Hsub2 & Hc). exists C2, mm2. split; [done|]. split; [by etransitivity|].
      intros c' n [Hc'| ->]%elem_of_snoc Hn; [|auto]. apply Hsub2. by eapply Hpre. }
  done.
Qed.

Lemma findComponents_spec w : w_heap w = h0 → dag (w_dag w) = DG_new →
  wp (findComponents pdg) (λ _ w', ∃ C mm, built C mm (allNodes pdg) w') w.
Proof.
  intros Hh Hd. unfold findComponents. eapply wp_mono.
  { apply (wp_foldM _ (λ pre _ visited w', ∃ C mm, built C mm visited w' ∧ ∀ n, n ∈ pre → n ∈ visited)).
    - exists ∅, ∅. split; [|set_solver]. split; rewrite ?Hh, ?Hd; simpl; try done.
      + apply DG_new_wf, W0.
      + intros p. rewrite lookup_empty. split; [|by intros []].
        intros (n & [Hn|Hn]); simpl in Hn; by rewrite lookup_empty in Hn.
      + intros p. rewrite lookup_empty. by intros [].
      + intros p g t k. rewrite lookup_empty. by intros [].
      + intros n. split; [by intros ?%elem_of_empty|]. by intros (p & I & Hp & _).
    - intros pre n post visited w1 Hl (C & mm & B & Hpre).
      assert (n ∈ allNodes pdg) as Hn by (apply elem_of_visit; rewrite Hl; set_solver).
      case_decide as Hv.
      { apply wp_ret. exists C, mm. split; [done|]. intros k [Hk| ->]%elem_of_snoc; auto. }
      apply wp_bind, wp_gets. destruct (components_listed (w_heap w1) n (bu_keeps _ _ _ _ B) Hn) as [Hcs (c & Hc & Hnc)].
      eapply wp_mono; [by apply (addComponents_spec C mm visited w1)|].
      intros v2 w2 (C2 & mm2 & B2 & Hsub & Hall). exists C2, mm2. split; [done|].
      intros k [Hk| ->]%elem_of_snoc; [by apply Hsub, Hpre|by eapply Hall]. }
  intros visited w' (C & mm & B & Hall). exists C, mm. replace (allNodes pdg) with visited; [done|].
  apply set_eq. intros n. split; [|by intros Hn; apply Hall, elem_of_visit].
  intros (q & J & HJ & Hn)%(bu_visited _ _ _ _ B). by apply (bu_class _ _ _ _ B q J n).
Qed.
End sccdag.

(** ** The map from values to components, and the edges *)

Section construction.
Context {IO : IterOrder} `{BL : BitMatrix.BitVectorLaws}.
Context (h0 : Heap) (pdg : DG) (W0 : wf h0 pdg).
Context (C : gmap Ptr (gset Ptr)) (mm : gmap Ptr (gmap Ptr Ptr)).

(** ** Values *)

(** the node [k] of the SCCDAG [g] stands for the component of the value [v] *)
Definition component_node (g : DG) (v k : Ptr) : Prop :=
  ∃ p I n, node_of g p k ∧ C !! p = Some I ∧ n ∈ I ∧ node_of pdg v n.

Definition with_values (vs : gmap Ptr (option Ptr)) (w : World) : World :=
  mkWorld (w_heap w) (w_sccs w) (set_valueToSCCNode vs (w_dag w)).

Lemma component_node_unique w v k k' : built h0 pdg C mm (allNodes pdg) w →
  component_node (dag (w_dag w)) v k → component_node (dag (w_dag w)) v k' → k = k'.
Proof.
  intros B (p & I & n & Hk & HI & Hn & Hv) (q & J & n' & Hk' & HJ & Hn' & Hv').
  rewrite (node_unique h0 pdg W0 v n' n) in Hn' by done.
  rewrite (bu_disjoint _ _ _ _ _ _ B q p J I n) in Hk' by done.
  by eapply wf_node_of_inj; [apply B|..].
Qed.

Lemma elem_of_nodePairs_keys (m : gmap Ptr (option Ptr)) v : v ∈ (nodePairs m).*1 ↔ is_Some (m !! v).
Proof.
  unfold nodePairs. rewrite list_elem_of_fmap. setoid_rewrite list_elem_of_omap. split.
  - intros ([v' o] & -> & x & _ & Hx). simpl. destruct (m !! x) eqn:Hm; simplify_eq/=. eauto.
  - intros [o Ho]. exists (v, o). split; [done|]. exists v. rewrite Ho. split; [|done].
    apply elem_of_visit, elem_of_dom. eauto.
Qed.

Lemma mark_values k (l : list (Ptr * option Ptr)) vs w :
  wp (forM (λ instPair : Ptr * option Ptr,
      set_self (λ d, set_valueToSCCNode (<[instPair.1 := Some k]> (valueToSCCNode d)) d)) l)
     (λ _ w', ∃ vs', w' = with_values vs' w ∧
        ∀ v o, vs' !! v = Some o ↔ (v ∈ l.*1 ∧ o = Some k) ∨ (v ∉ l.*1 ∧ vs !! v = Some o)) (with_values vs w).
Proof.
  apply (wp_forM _ (λ pre _ w', ∃ vs', w' = with_values vs' w ∧
    ∀ v o, vs' !! v = Some o ↔ (v ∈ pre.*1 ∧ o = Some k) ∨ (v ∉ pre.*1 ∧ vs !! v = Some o))).
  - exists vs. split; [done|]. intros v o. simpl. rewrite elem_of_nil. tauto.
  - intros pre [t o] post w' _ (vs' & -> & Hvs). apply wp_set_self. eexists. split; [reflexivity|]. simpl.
    intros v o'. rewrite fmap_app, elem_of_app. simpl. rewrite list_elem_of_singleton.
    destruct (decide (v = t)) as [->|Hne]; [rewrite lookup_insert_eq; naive_solver|].
    rewrite lookup_insert_ne, Hvs by done. tauto.
Qed.

(** what the map from values to components holds *)
Definition marked (g : DG) (vs : gmap Ptr (option Ptr)) : Prop :=
  ∀ v o, vs !! v = Some o ↔ ∃ k, o = Some k ∧ component_node g v k.

Lemma markValuesInSCC_spec w : built h0 pdg C mm (allNodes pdg) w →
  wp markValuesInSCC (λ _ w', ∃ vs, w' = with_values vs w ∧ marked (dag (w_dag w)) vs) w.
Proof.
  intros B. unfold markValuesInSCC. apply wp_bind, wp_set_self, wp_bind, wp_self. simpl.
  set (g := dag (w_dag w)). eapply wp_mono.
  { apply (wp_forM _ (λ pre _ w', ∃ vs, w' = with_values vs w ∧
      ∀ v o, vs !! v = Some o ↔ ∃ k, o = Some k ∧ k ∈ pre ∧ component_node g v k)).
    - exists ∅. split; [done|]. intros v o. rewrite lookup_empty. split; [done|]. by intros (k & _ & ?%not_elem_of_nil & _).
    - intros pre k post w' Hl (vs & -> & Hvs).
      assert (k ∈ allNodes g) as Hk by (apply elem_of_visit; rewrite Hl; set_solver).
      destruct (wf_node _ _ (bu_wf _ _ _ _ _ _ B) k Hk) as (x & Hx & HT).
      assert (is_Some (C !! theT x)) as [I HI] by (apply (bu_nodes _ _ _ _ _ _ B); by exists k).
      destruct (bu_object _ _ _ _ _ _ B _ I HI) as (o & m & Ho & _ & Hobj).
      apply wp_bind, wp_on_world_heap, wp_load_node. exists x. split; [done|].
      apply wp_bind. unfold load_scc, getT. unfold wp at 1. simpl. rewrite Ho. simpl.
      change (mkWorld _ _ _) with (with_values vs w). eapply wp_mono; [apply mark_values|].
      intros [] w' (vs' & -> & Hvs'). exists vs'. split; [done|]. intros v o'. rewrite Hvs'.
      assert (v ∈ (internalNodePairs o).*1 ↔ component_node g v k) as ->.
      { unfold internalNodePairs. rewrite elem_of_nodePairs_keys. split.
        - intros [i Hi]. destruct (so_pairs _ _ _ _ _ _ Hobj v i Hi) as [n ->].
          assert (internal_value o v) as (n' & Hn' & HTn)%(so_internal _ _ _ _ _ _ Hobj) by by exists n.
          by exists (theT x), I, n'.
        - intros (p & J & n & Hp & HJ & Hn & HTn).
          rewrite (node_of_inv _ _ _ _ _ (bu_wf _ _ _ _ _ _ B) Hp Hx) in HI. simplify_eq.
          destruct (proj2 (so_internal _ _ _ _ _ _ Hobj v)) as [? ->]; [by exists n|eauto]. }
      rewrite Hvs. setoid_rewrite elem_of_snoc. split.
      + intros [[Hc ->]|[Hc (k' & -> & Hk' & Hc')]]; [exists k; auto|exists k'; auto].
      + intros (k' & -> & [Hk'| ->] & Hc'); [|by left]. destruct (decide (k' = k)) as [->|Hne]; [by left|].
        right. split; [|by exists k']. intros Hc. by apply Hne, (component_node_unique w v k' k). }
  intros [] w' (vs & -> & Hvs). exists vs. split; [done|]. intros v o. rewrite Hvs. f_equiv. intros k.
  split; [tauto|]. intros (-> & Hc). split_and!; [done| |done]. apply elem_of_visit.
  destruct Hc as (p & I & n & Hk & _). by apply (wf_map _ _ (bu_wf _ _ _ _ _ _ B) p k).
Qed.
End construction.
