(* ===== verification/SCCDAGEdges.v ===== *)
(** * The edges of the SCCDAG

    The last loops of the constructor of [SCCDAG]: an edge between two components for the
    dependences between their values, which are its sub-edges. *)
From S2P Require Import Prelude SCCIterator DGEdge DGNode DGBase DGInvariant DGSpec DGQuery DGCopy PDGSpec SCC SCCSpec.
From S2P Require BitMatrix BitMatrixSpec.
From S2P Require Import SCCDAG SCCDAGSpec SCCDAGComponents.

(** ** Edges on a heap *)

(** an edge changes, but not its ends *)
Lemma store_edge_wf h g e y y' : wf h g → hedges h !! e = Some y → from y' = from y → to y' = to y →
  wf (set_hedges <[e := y']> h) g.
Proof.
  intros W Hy Hf Ht.
  assert (∀ e1 (P : Ptr → Ptr → Prop), (∃ z, <[e := y']> (hedges h) !! e1 = Some z ∧ P (from z) (to z)) ↔
    ∃ z, hedges h !! e1 = Some z ∧ P (from z) (to z)) as Hiff.
  { intros e1 P. destruct (decide (e1 = e)) as [->|Hne]; [|by rewrite lookup_insert_ne].
    rewrite lookup_insert_eq, Hy. split; intros (z & [= <-] & HP); eexists; (split; [done|]); congruence. }
  split; simpl.
  - destruct (wf_heap _ _ W) as [H1 H2]. split; simpl; [done|]. intros q.
    rewrite lookup_insert_is_Some. intros [<-|[_ Hq]]; apply H2; eauto.
  - apply W.
  - apply W.
  - apply W.
  - intros e1 He1. apply (Hiff e1 (λ a b, a ∈ allNodes g ∧ b ∈ allNodes g)). by apply W.
  - intros n x e1 Hn Hx. rewrite (wf_out _ _ W n x e1 Hn Hx). by rewrite (Hiff e1 (λ a _, a = n)).
  - intros n x e1 Hn Hx. rewrite (wf_in _ _ W n x e1 Hn Hx). by rewrite (Hiff e1 (λ _ b, b = n)).
Qed.

Section heap.
Context {IO : IterOrder} `{BV : BitMatrix.BitVector}.

(** the edges between the nodes [k] and [k'] *)
Lemma edgesBetween_spec h g k k' x : wf h g → k ∈ allNodes g → hnodes h !! k = Some x →
  ∃ es, edgesBetween x k' h = Ok (h, es) ∧ ∀ e, e ∈ es ↔ e ∈ allEdges g ∧
    ∃ y, hedges h !! e = Some y ∧ ((from y = k ∧ to y = k') ∨ (to y = k ∧ from y = k')).
Proof.
  intros W Hk Hx. 
  assert (∀ (end_ : DGEdge → Ptr) (s : gset Ptr), (∀ e, e ∈ s → is_Some (hedges h !! e)) →
    ∃ l, filterM (λ e, let* x := load_edge e in ret (bool_decide (end_ x = k'))) (visit s) h = Ok (h, l) ∧
      ∀ e, e ∈ l ↔ e ∈ s ∧ ∃ y, hedges h !! e = Some y ∧ end_ y = k') as Hfilter.
  { intros end_ s Hs.
    assert (wp (filterM (λ e, let* x := load_edge e in ret (bool_decide (end_ x = k'))) (visit s)) (λ l h', h' = h ∧
      l = filter (λ e, default k' (end_ <$> hedges h !! e) = k') (visit s)) h) as Hwp.
    { apply (wp_filterM _ (λ e, default k' (end_ <$> hedges h !! e) = k')); [|done].
      intros e He%elem_of_visit. destruct (Hs e He) as [y Hy]. unfold bind, load_edge, deref. by rewrite Hy. }
    apply wp_ok in Hwp as (h' & l & Hrun & -> & ->). eexists. split; [done|]. intros e.
    rewrite list_elem_of_filter, elem_of_visit. split.
    - intros [Hd He]. destruct (Hs e He) as [y Hy]. rewrite Hy in Hd. simpl in Hd. eauto.
    - intros (He & y & -> & <-). done. }
  unfold edgesBetween.
  destruct (Hfilter getDstNode (outgoingEdges x)) as (l1 & Hr1 & H1).
  { intros e (_ & y & Hy & _)%(wf_out _ _ W k x); eauto. }
  destruct (Hfilter getSrcNode (incomingEdges x)) as (l2 & Hr2 & H2).
  { intros e (_ & y & Hy & _)%(wf_in _ _ W k x); eauto. }
  eexists. split; [by rewrite (bind_ok _ _ _ _ _ Hr1), (bind_ok _ _ _ _ _ Hr2)|]. intros e.
  rewrite elem_of_union, !elem_of_list_to_set, H1, H2, (wf_out _ _ W k x), (wf_in _ _ W k x) by done.
  unfold getDstNode, getSrcNode. naive_solver.
Qed.

(** sub-edges are added to the edge [e] *)
Lemma sub_edges_added e (es : gset Ptr) (w : World) y : hedges (w_heap w) !! e = Some y → e ∉ es →
  (∀ e', e' ∈ es → is_Some (hedges (w_heap w) !! e')) →
  wp (forM (λ edge,
      let* x := on_world_heap (load_edge e) in
      let* sub := on_world_heap (load_edge edge) in
      on_world_heap (store_edge e (addSubEdge x edge sub))) (visit es))
     (λ _ w', ∃ y', w' = mkWorld (set_hedges <[e := y']> (w_heap w)) (w_sccs w) (w_dag w) ∧
        from y' = from y ∧ to y' = to y ∧ ∀ e', e' ∈ getSubEdges y' ↔ e' ∈ getSubEdges y ∨ e' ∈ es) w.
Proof.
  intros Hy He Hes. eapply wp_mono.
  { apply (wp_forM _ (λ pre _ w', ∃ y', w' = mkWorld (set_hedges <[e := y']> (w_heap w)) (w_sccs w) (w_dag w) ∧
        from y' = from y ∧ to y' = to y ∧ ∀ e', e' ∈ getSubEdges y' ↔ e' ∈ getSubEdges y ∨ e' ∈ pre)).
    - exists y. split_and!; [|done|done|set_solver]. destruct w as [[] ? ?]. unfold set_hedges. simpl in *.
      by rewrite insert_id.
    - intros pre e' post w' Hl (y' & -> & Hf & Ht & Hs).
      assert (e' ∈ es) as He' by (apply elem_of_visit; rewrite Hl; set_solver).
      destruct (Hes e' He') as [z Hz].
      apply wp_bind, wp_on_world_heap, wp_load_edge. exists y'. split; [apply lookup_insert_eq|].
      apply wp_bind, wp_on_world_heap, wp_load_edge. exists z. split.
      { simpl. rewrite lookup_insert_ne; [done|]. by intros <-. }
      apply wp_on_world_heap, wp_store_edge. exists (addSubEdge y' e' z). simpl. split_and!; [|done|done|].
      + unfold set_hedges. simpl. by rewrite insert_insert_eq.
      + intros e1. rewrite elem_of_snoc. unfold addSubEdge, getSubEdges. simpl.
        rewrite elem_of_union, elem_of_singleton. specialize (Hs e1). unfold getSubEdges in Hs.
        destruct (subEdges y'); simpl in *; rewrite Hs || (rewrite <- or_assoc, <- Hs); set_solver. }
  intros [] w' (y' & -> & Hf & Ht & Hs). exists y'. split_and!; try done. intros e'. by rewrite Hs, elem_of_visit.
Qed.
End heap.

(** ** The loops over the external values *)
Section edges.
Context {IO : IterOrder} `{BL : BitMatrix.BitVectorLaws}.
Context (h0 : Heap) (pdg : DG) (W0 : wf h0 pdg).
Context (C : gmap Ptr (gset Ptr)) (mm : gmap Ptr (gmap Ptr Ptr)).
Context (w1 : World) (B : built h0 pdg C mm (allNodes pdg) w1).
Context (vs : gmap Ptr (option Ptr)) (Hvs : marked pdg C (dag (w_dag w1)) vs).
Notation h1 := (w_heap w1).
Notation g1 := (dag (w_dag w1)).

(** the node [k] of the SCCDAG stands for the component of the node [n] *)
Definition in_component (k n : Ptr) : Prop := ∃ p I, node_of g1 p k ∧ C !! p = Some I ∧ n ∈ I.
(** the SCC object of [k] holds the copy [e'] of the dependence [e] *)
Definition copies (k e e' : Ptr) : Prop := ∃ p m, node_of g1 p k ∧ mm !! p = Some m ∧ m !! e = Some e'.
(** [e'] is a copy in the component [k] of a dependence on the value [t] of the component [k'] *)
Definition sub_edge (k t e' k' : Ptr) : Prop := ∃ e a n, ends h0 pdg e a n ∧ in_component k a ∧
  in_component k' n ∧ k ≠ k' ∧ node_of pdg t n ∧ copies k e e'.

(** the external values [done] have been handled; the edges of [X] have no sub-edge yet *)
Record wired (done : Ptr → Ptr → Prop) (X cleared : gset Ptr) (w : World) : Prop := {
  wi_sccs : w_sccs w = w_sccs w1;
  wi_values : valueToSCCNode (w_dag w) = vs;
  wi_nodes n x : n ∉ allNodes g1 → hnodes h1 !! n = Some x → hnodes (w_heap w) !! n = Some x;
  wi_old e y : hedges h1 !! e = Some y → hedges (w_heap w) !! e = Some y ∧ e ∉ allEdges (dag (w_dag w));
  wi_wf : wf (w_heap w) (dag (w_dag w));
  wi_same : same_nodes g1 (dag (w_dag w));
  wi_cleared : cleared = allEdges (dag (w_dag w));
  wi_sub e y e' : e ∈ allEdges (dag (w_dag w)) → hedges (w_heap w) !! e = Some y →
    e' ∈ getSubEdges y ↔ ∃ t, done (from y) t ∧ sub_edge (from y) t e' (to y);
  wi_some k t e' k' : done k t → sub_edge k t e' k' → ∃ e y, e ∈ allEdges (dag (w_dag w)) ∧
    hedges (w_heap w) !! e = Some y ∧ from y = k ∧ to y = k';
  wi_only e y : e ∉ X → e ∈ allEdges (dag (w_dag w)) → hedges (w_heap w) !! e = Some y → getSubEdges y ≠ ∅;
  wi_unique e1 e2 y1 y2 : e1 ∈ allEdges (dag (w_dag w)) → e2 ∈ allEdges (dag (w_dag w)) →
    hedges (w_heap w) !! e1 = Some y1 → hedges (w_heap w) !! e2 = Some y2 →
    from y1 = from y2 → to y1 = to y2 → e1 = e2
}.

Lemma in_component_class k a b : in_component k a → in_component k b ↔ mutual h0 pdg a b.
Proof.
  intros (p & I & Hp & HI & Ha). destruct (bu_class _ _ _ _ _ _ B p I a HI Ha) as [_ Hcls]. rewrite <- Hcls. split.
  - intros (q & J & Hq & HJ & Hb). destruct (wf_map _ _ (bu_wf _ _ _ _ _ _ B) _ _ Hp) as (_ & x & Hx & <-).
    rewrite (node_of_inv _ _ _ _ _ (bu_wf _ _ _ _ _ _ B) Hq Hx) in HI. by simplify_eq.
  - intros Hb. by exists p, I.
Qed.
Lemma in_component_unique k k' n : in_component k n → in_component k' n → k = k'.
Proof.
  intros (p & I & Hp & HI & Hn) (q & J & Hq & HJ & Hn').
  rewrite (bu_disjoint _ _ _ _ _ _ B q p J I n) in Hq by done. by eapply wf_node_of_inj; [apply B|..].
Qed.
Lemma in_component_some n : n ∈ allNodes pdg → ∃ k, in_component k n.
Proof.
  intros (p & I & HI & Hn)%(bu_visited _ _ _ _ _ _ B).
  destruct (proj2 (bu_nodes _ _ _ _ _ _ B p)) as [k Hk]; [eauto|]. by exists k, p, I.
Qed.
Lemma in_component_node k n : in_component k n → k ∈ allNodes g1.
Proof. intros (p & I & Hp & _). by apply (wf_map _ _ (bu_wf _ _ _ _ _ _ B) p k). Qed.

(** dependences do not lead back *)
Lemma no_way_back k k' a n b c : dep h0 pdg a n → in_component k a → in_component k' n →
  dep h0 pdg b c → in_component k' b → in_component k c → k = k'.
Proof.
  intros Han Ha Hn Hbc Hb Hc. apply (in_component_unique k k' n); [|done].
  apply (in_component_class k a n Ha). split; [by apply rtc_once|].
  apply (in_component_class k' n b Hn) in Hb as [Hnb _]. apply (in_component_class k c a Hc) in Ha as [Hca _].
  transitivity b; [done|]. eapply rtc_l; done.
Qed.

(** what the loop finds at an external value *)
Lemma external_found k p g t o : node_of g1 p k → w_sccs w1 !! p = Some g → externalNodeMap g !! t = Some o →
  ∃ kx x n, o = Some kx ∧ hnodes h1 !! kx = Some x ∧ kx ∉ allNodes g1 ∧ node_of pdg t n ∧
    ∀ e', e' ∈ incomingEdges x ↔ ∃ k', sub_edge k t e' k'.
Proof.
  intros Hk Hg Ho. assert (is_Some (C !! p)) as [I HI] by (apply (bu_nodes _ _ _ _ _ _ B); eauto).
  destruct (bu_object _ _ _ _ _ _ B p I HI) as (g' & m & Hg' & Hm & Hobj).
  assert (g' = g) as -> by congruence.
  destruct (so_external _ _ _ _ _ _ Hobj t o Ho) as (kx & n & x & -> & Hn & HnI & Hx & Hinc).
  exists kx, x, n. split_and!; [done|done| |done|].
  { apply (bu_apart _ _ _ _ _ _ B p g t); [eauto|done|by right]. }
  intros e'. rewrite Hinc. split.
  - intros (e & a & He & Ha & Hends). destruct (wf_map _ _ W0 _ _ Hn) as [Hnn _].
    destruct (in_component_some n Hnn) as [k' Hk']. exists k', e, a, n. split_and!; try done.
    + by exists p, I.
    + intros <-. destruct Hk' as (q & J & Hq & HJ & HnJ).
      destruct (wf_map _ _ (bu_wf _ _ _ _ _ _ B) _ _ Hk) as (_ & z & Hz & <-).
      rewrite (node_of_inv _ _ _ _ _ (bu_wf _ _ _ _ _ _ B) Hq Hz) in HI. by simplify_eq.
    + by exists p, m.
  - intros (k' & e & a & n' & Hends & Ha & Hk' & Hne & Hn' & q & m' & Hq & Hm' & He).
    destruct (wf_map _ _ (bu_wf _ _ _ _ _ _ B) _ _ Hk) as (_ & z & Hz & <-).
    rewrite (node_of_inv _ _ _ _ _ (bu_wf _ _ _ _ _ _ B) Hq Hz) in Hm. simplify_eq.
    rewrite (node_unique h0 pdg W0 t n n') in * by done. exists e, a. split_and!; try done.
    destruct Ha as (q' & J & Hq' & HJ & Ha). rewrite (node_of_inv _ _ _ _ _ (bu_wf _ _ _ _ _ _ B) Hq' Hz) in HI. by simplify_eq.
Qed.

Lemma sub_edge_target k t e' k' v : sub_edge k t e' k' → vs !! t = Some v → v = Some k'.
Proof.
  intros (e & a & n & _ & _ & (p & I & Hp & HI & Hn) & _ & HT & _) (k2 & -> & Hk2)%Hvs. f_equal.
  eapply component_node_unique; [exact W0|exact B|done|]. by exists p, I, n.
Qed.
Lemma sub_edge_marked k t e' k' : sub_edge k t e' k' → vs !! t = Some (Some k').
Proof.
  intros (e & a & n & _ & _ & (p & I & Hp & HI & Hn) & _ & HT & _). apply Hvs. exists k'. split; [done|]. by exists p, I, n.
Qed.
Lemma sub_edge_live k t e' k' : sub_edge k t e' k' → is_Some (hedges h1 !! e').
Proof.
  intros (e & a & n & Hends & (q & I & Hq & HI & Ha) & _ & _ & _ & p & m & Hp & Hm & He).
  destruct (wf_map _ _ (bu_wf _ _ _ _ _ _ B) _ _ Hp) as (_ & z & Hz & <-).
  rewrite <- (node_of_inv _ _ _ _ _ (bu_wf _ _ _ _ _ _ B) Hq Hz) in HI.
  destruct (bu_object _ _ _ _ _ _ B _ I HI) as (g & m' & _ & Hm' & Hobj). simplify_eq.
  destruct (so_copied _ _ _ _ _ _ Hobj e a n Ha Hends) as (e'' & y & ? & ?). simplify_eq. eauto.
Qed.

Lemma wired_more done done' X cleared w : wired done X cleared w →
  (∀ k t e' k', sub_edge k t e' k' → done k t ↔ done' k t) → wired done' X cleared w.
Proof.
  intros [] Hd. split; try done.
  - intros e y e' He Hy. rewrite wi_sub0 by done. f_equiv. intros t. split; intros [? Hs]; (split; [|done]); by eapply Hd.
  - intros k t e' k' Hk Hs. eapply wi_some0; [|done]. by eapply Hd.
Qed.

Lemma wired_add_edge done cleared w k k' : wired done ∅ cleared w → k ∈ allNodes g1 → k' ∈ allNodes g1 →
  (∀ e y, e ∈ allEdges (dag (w_dag w)) → hedges (w_heap w) !! e = Some y → from y = k → to y ≠ k') →
  let e := nextAddr (w_heap w) in
  let s := added_edge (w_heap w) (dag (w_dag w)) (UndefinedDependence_new k k') in
  wired done {[e]} ({[e]} ∪ cleared) (mkWorld s.1 (w_sccs w) (set_dag s.2 (w_dag w))).
Proof.
  intros Wi Hk Hk' Hno e s. pose proof (wi_wf _ _ _ _ Wi) as W. destruct (wi_same _ _ _ _ Wi) as (Si & Se & Sn & St).
  set (y0 := UndefinedDependence_new k k') in *.
  assert (e ∉ allEdges (dag (w_dag w))) as Hfresh by by apply wf_fresh_edge.
  assert (∀ e1 y, e1 ∈ allEdges s.2 → hedges s.1 !! e1 = Some y →
    (e1 = e ∧ y = y0) ∨ (e1 ≠ e ∧ e1 ∈ allEdges (dag (w_dag w)) ∧ hedges (w_heap w) !! e1 = Some y)) as Hcase.
  { intros e1 y. simpl. fold e. rewrite elem_of_union, elem_of_singleton. intros He1.
    destruct (decide (e1 = e)) as [->|Hne]; [rewrite lookup_insert_eq; intros [= <-]; by left|].
    rewrite lookup_insert_ne by done. right. tauto. }
  assert (e ∈ allEdges s.2 ∧ hedges s.1 !! e = Some y0) as [Hein Hey].
  { simpl. fold e. rewrite lookup_insert_eq. set_solver. }
  assert (∀ e1 y, e1 ∈ allEdges (dag (w_dag w)) → hedges (w_heap w) !! e1 = Some y →
    e1 ∈ allEdges s.2 ∧ hedges s.1 !! e1 = Some y) as Hkeep.
  { intros e1 y He1 Hy. simpl. fold e. rewrite lookup_insert_ne by (by intros <-). split; [set_solver|done]. }
  split; cbn [w_heap w_sccs w_dag dag set_dag valueToSCCNode].
  - apply Wi.
  - apply Wi.
  - intros n x Hn Hx. unfold s. rewrite added_edge_nodes, (wi_nodes _ _ _ _ Wi n x Hn Hx). simpl.
    rewrite !decide_False by (by intros ->). by destruct x.
  - intros e1 y Hy. destruct (wi_old _ _ _ _ Wi e1 y Hy) as [Hy1 Hn1]. simpl. fold e.
    assert (e1 ≠ e).
    { intros ->. pose proof (heap_ok_fresh_edge _ (wf_heap _ _ W)) as Hnone. fold e in Hnone. congruence. }
    rewrite lookup_insert_ne by done. split; [done|]. set_solver.
  - apply added_edge_wf; simpl; rewrite ?Sn; done.
  - split_and!; done.
  - simpl. fold e. by rewrite (wi_cleared _ _ _ _ Wi).
  - intros e1 y e' He1 Hy. destruct (Hcase e1 y He1 Hy) as [[-> ->]|(_ & He2 & Hy2)].
    + simpl. split; [by intros ?%elem_of_empty|]. intros (t & Hd & Hs).
      destruct (wi_some _ _ _ _ Wi k t e' k' Hd Hs) as (e2 & y2 & He2 & Hy2 & Hf & Ht). by destruct (Hno e2 y2).
    + by apply (wi_sub _ _ _ _ Wi e1).
  - intros k1 t e' k2 Hd Hs. destruct (wi_some _ _ _ _ Wi k1 t e' k2 Hd Hs) as (e2 & y2 & He2 & Hy2 & Hft).
    exists e2, y2. destruct (Hkeep e2 y2 He2 Hy2). tauto.
  - intros e1 y Hne He1 Hy. destruct (Hcase e1 y He1 Hy) as [[-> _]|(_ & He2 & Hy2)]; [set_solver|].
    by apply (wi_only _ _ _ _ Wi e1 y); [apply not_elem_of_empty|..].
  - intros e1 e2 y1 y2 He1 He2 Hy1 Hy2 Hf Ht.
    destruct (Hcase e1 y1 He1 Hy1) as [[-> ->]|(_ & He1' & Hy1')], (Hcase e2 y2 He2 Hy2) as [[-> ->]|(_ & He2' & Hy2')].
    + done.
    + by destruct (Hno e2 y2).
    + by destruct (Hno e1 y1).
    + by apply (wi_unique _ _ _ _ Wi e1 e2 y1 y2).
Qed.

Lemma wired_sub_edges done X cleared w k k' t e y y' (es : gset Ptr) : wired done X cleared w → X ⊆ {[e]} →
  e ∈ allEdges (dag (w_dag w)) → hedges (w_heap w) !! e = Some y → from y = k → to y = k' →
  (∀ e' k2, sub_edge k t e' k2 ↔ e' ∈ es ∧ k2 = k') → es ≠ ∅ → from y' = k → to y' = k' →
  (∀ e', e' ∈ getSubEdges y' ↔ e' ∈ getSubEdges y ∨ e' ∈ es) →
  wired (λ k1 t1, done k1 t1 ∨ (k1 = k ∧ t1 = t)) ∅ cleared
    (mkWorld (set_hedges <[e := y']> (w_heap w)) (w_sccs w) (w_dag w)).
Proof.
  intros Wi HX He Hy Hf Ht Hes Hne Hf' Ht' Hsub.
  assert (∀ e1 y1, <[e := y']> (hedges (w_heap w)) !! e1 = Some y1 →
    (e1 = e ∧ y1 = y') ∨ (e1 ≠ e ∧ hedges (w_heap w) !! e1 = Some y1)) as Hcase.
  { intros e1 y1 [[<- <-]|[? ?]]%lookup_insert_Some; auto. }
  split; cbn [w_heap w_sccs w_dag set_hedges hnodes hedges].
  - apply Wi.
  - apply Wi.
  - apply Wi.
  - intros e1 y1 Hy1. destruct (wi_old _ _ _ _ Wi e1 y1 Hy1) as [Hy2 Hn]. split; [|done].
    rewrite lookup_insert_ne; [done|]. by intros <-.
  - apply (store_edge_wf _ _ e y y'); [apply Wi|done|congruence|congruence].
  - apply Wi.
  - apply Wi.
  - intros e1 y1 e' He1 [[-> ->]|[Hne1 Hy1]]%Hcase.
    + rewrite Hsub, Hf', Ht', (wi_sub _ _ _ _ Wi e y e' He Hy), Hf, Ht. split.
      * intros [(t1 & Hd & Hs)|He']; [exists t1; auto|]. exists t. split; [auto|]. by apply Hes.
      * intros (t1 & [Hd|[_ ->]] & Hs); [left; eauto|]. right. by apply Hes in Hs as [? _].
    + rewrite (wi_sub _ _ _ _ Wi e1 y1 e' He1 Hy1). split; intros (t1 & Hd & Hs); exists t1; (split; [|done]); [by left|].
      destruct Hd as [Hd|[Hk ->]]; [done|]. rewrite Hk in Hs. apply Hes in Hs as [_ Hto].
      destruct Hne1. apply (wi_unique _ _ _ _ Wi e1 e y1 y); congruence.
  - intros k1 t1 e' k2 [Hd|[-> ->]] Hs.
    + destruct (wi_some _ _ _ _ Wi k1 t1 e' k2 Hd Hs) as (e2 & y2 & He2 & Hy2 & Hf2 & Ht2).
      destruct (decide (e2 = e)) as [->|Hne2].
      * exists e, y'. rewrite lookup_insert_eq. simplify_eq. split_and!; congruence.
      * exists e2, y2. by rewrite lookup_insert_ne.
    + apply Hes in Hs as [_ ->]. exists e, y'. by rewrite lookup_insert_eq.
  - intros e1 y1 _ He1 [[-> ->]|[Hne1 Hy1]]%Hcase.
    + apply set_choose_L in Hne as [e' He']. intros Hem.
      apply (not_elem_of_empty (C := gset Ptr) e'). rewrite <- Hem, Hsub. by right.
    + apply (wi_only _ _ _ _ Wi e1 y1); [|done..]. intros ?%HX%elem_of_singleton. done.
  - intros e1 e2 y1 y2 He1 He2 [[-> ->]|[Hn1 Hy1]]%Hcase [[-> ->]|[Hn2 Hy2]]%Hcase Hff Htt.
    + done.
    + apply (wi_unique _ _ _ _ Wi e e2 y y2); congruence.
    + apply (wi_unique _ _ _ _ Wi e1 e y1 y); congruence.
    + by apply (wi_unique _ _ _ _ Wi e1 e2 y1 y2).
Qed.

(** the sub-edges are added to the edge that was found or made *)
Lemma addSubEdges_wired done X cleared w k k' t e y (es : gset Ptr) : wired done X cleared w → X ⊆ {[e]} →
  e ∈ allEdges (dag (w_dag w)) → hedges (w_heap w) !! e = Some y → from y = k → to y = k' →
  (∀ e' k2, sub_edge k t e' k2 ↔ e' ∈ es ∧ k2 = k') → es ≠ ∅ →
  wp (forM (λ edge,
        let* x := on_world_heap (load_edge e) in
        let* sub := on_world_heap (load_edge edge) in
        on_world_heap (store_edge e (addSubEdge x edge sub))) (visit es) ;;;
      ret cleared)
     (λ cleared' w', wired (λ k1 t1, done k1 t1 ∨ (k1 = k ∧ t1 = t)) ∅ cleared' w') w.
Proof.
  intros Wi HX He Hy Hf Ht Hes Hne.
  assert (∀ e', e' ∈ es → ∃ z, hedges (w_heap w) !! e' = Some z ∧ e' ∉ allEdges (dag (w_dag w))) as Hold.
  { intros e' He'. assert (sub_edge k t e' k') as Hs by by apply Hes. destruct (sub_edge_live _ _ _ _ Hs) as [z Hz].
    exists z. by apply (wi_old _ _ _ _ Wi). }
  apply wp_bind. eapply wp_mono; [apply (sub_edges_added e es w y Hy)|].
  - intros Hin. by destruct (Hold e Hin) as (_ & _ & ?).
  - intros e' Hin. destruct (Hold e' Hin) as (z & -> & _). eauto.
  - intros [] w' (y' & -> & Hf' & Ht' & Hsub). apply wp_ret.
    eapply (wired_sub_edges done X cleared w k k' t e y y' es); try done; congruence.
Qed.

Lemma markEdge_spec done cleared w k p g t o : wired done ∅ cleared w → node_of g1 p k → w_sccs w1 !! p = Some g →
  externalNodeMap g !! t = Some o →
  wp (markEdge k p cleared (t, o)) (λ cleared' w', wired (λ k1 t1, done k1 t1 ∨ (k1 = k ∧ t1 = t)) ∅ cleared' w') w.
Proof.
  intros Wi Hk Hg Ho. pose proof (wi_wf _ _ _ _ Wi) as W. destruct (wi_same _ _ _ _ Wi) as (Si & Se & Sn & St).
  destruct (external_found k p g t o Hk Hg Ho) as (kx & x & n & -> & Hx & Hkx & HT & Hinc).
  unfold markEdge. cbn [fst snd]. apply wp_bind, wp_deref. exists kx. split; [done|].
  apply wp_bind, wp_on_world_heap, wp_load_node. exists x. split; [by apply (wi_nodes _ _ _ _ Wi)|].
  assert (mkWorld (w_heap w) (w_sccs w) (w_dag w) = w) as Eta by by destruct w.
  destruct (decide (inDegree x = 0)) as [Hzero|Hpos].
  { apply wp_ret. rewrite Eta. eapply wired_more; [done|]. intros k1 t1 e' k' Hs. split; [auto|].
    intros [?|[-> ->]]; [done|]. assert (e' ∈ incomingEdges x) as He' by (apply Hinc; eauto).
    unfold inDegree in Hzero. apply size_empty_inv in Hzero. by apply Hzero in He'. }
  rewrite Eta. assert (incomingEdges x ≠ ∅) as Hne by (intros Hem; apply Hpos; unfold inDegree; by rewrite Hem).
  pose proof Hne as [e0 He0]%set_choose_L. apply Hinc in He0 as [k' Hs0].
  assert (∀ e' k2, sub_edge k t e' k2 ↔ e' ∈ incomingEdges x ∧ k2 = k') as Hes.
  { intros e' k2. rewrite Hinc. split; [|intros [[k3 Hs] ->]].
    - intros Hs. split; [eauto|]. pose proof (sub_edge_marked _ _ _ _ Hs). pose proof (sub_edge_marked _ _ _ _ Hs0). congruence.
    - pose proof (sub_edge_marked _ _ _ _ Hs). pose proof (sub_edge_marked _ _ _ _ Hs0). congruence. }
  assert (k ∈ allNodes g1) as Hkn by by apply (wf_map _ _ (bu_wf _ _ _ _ _ _ B) p k).
  assert (k' ∈ allNodes g1) as Hkn'. { destruct Hs0 as (? & ? & ? & _ & _ & Hk' & _). by eapply in_component_node. }
  assert (k ≠ k') as Hkk. { by destruct Hs0 as (? & ? & ? & _ & _ & _ & ? & _). }
  apply wp_bind. unfold valueToSCCNode_at. apply wp_bind, wp_self. rewrite (wi_values _ _ _ _ Wi), (sub_edge_marked _ _ _ _ Hs0).
  apply wp_ret. apply wp_bind, wp_deref. exists k'. split; [done|].
  destruct (wf_node _ _ W k') as (xk' & Hxk' & HTk'); [by rewrite Sn|].
  destruct (wf_node _ _ W k) as (xk & Hxk & HTk); [by rewrite Sn|].
  apply wp_bind, wp_on_world_heap, wp_load_node. exists xk'. split; [done|]. rewrite Eta.
  apply wp_bind, wp_on_world_heap, wp_load_node. exists xk. split; [done|]. rewrite Eta.
  destruct (edgesBetween_spec (w_heap w) (dag (w_dag w)) k k' xk W ltac:(by rewrite Sn) Hxk) as (es & Hrun & Hees).
  apply wp_bind, wp_on_world_heap. unfold wp at 1. rewrite Hrun, Eta.
  assert (∀ e, e ∈ es → e ∈ allEdges (dag (w_dag w)) ∧ ∃ y, hedges (w_heap w) !! e = Some y ∧ from y = k ∧ to y = k') as Hfwd.
  { intros e (He & y & Hy & [?|[Hyk Hyk']])%Hees; [split; [done|by exists y]|]. exfalso. apply Hkk.
    pose proof (wi_only _ _ _ _ Wi e y (not_elem_of_empty _) He Hy) as [e' He']%set_choose_L.
    apply (wi_sub _ _ _ _ Wi e y e' He Hy) in He' as (t' & _ & Hback). rewrite Hyk, Hyk' in Hback.
    destruct Hs0 as (d & a & b & Hd & Ha & Hb & _), Hback as (d' & a' & b' & Hd' & Ha' & Hb' & _).
    eapply no_way_back; [by exists d|exact Ha|exact Hb|by exists d'|done|done]. }
  assert (∀ e', e' ∈ incomingEdges x → is_Some (hedges h1 !! e')) as Hlive.
  { intros e' [k2 Hs]%Hinc. by eapply sub_edge_live. }
  destruct (visit es) as [|e l] eqn:Hv.
  - apply visit_nil_inv in Hv. subst es.
    assert (node_of (dag (w_dag w)) (getT xk') k' ∧ node_of (dag (w_dag w)) p k) as [HTT' HTT].
    { split; [done|]. unfold node_of. rewrite Si, Se. exact Hk. }
    apply wp_bind, wp_on_dag. eapply wp_mono.
    { by apply (addEdge_spec _ _ _ _ k k' (λ f t, UndefinedDependence_new f t)). }
    intros e s [-> ->].
    assert (wired done {[nextAddr (w_heap w)]} ({[nextAddr (w_heap w)]} ∪ cleared)
      (mkWorld (added_edge (w_heap w) (dag (w_dag w)) (UndefinedDependence_new k k')).1 (w_sccs w)
        (set_dag (added_edge (w_heap w) (dag (w_dag w)) (UndefinedDependence_new k k')).2 (w_dag w)))) as Wi2.
    { apply wired_add_edge; [done..|]. intros e y He Hy Hf Ht. apply (not_elem_of_empty (C := gset Ptr) e), Hees.
      split; [done|]. exists y. auto. }
    clear Eta. match type of Wi2 with wired _ _ _ ?w' => set (w2 := w') in * end. set (e := nextAddr (w_heap w)) in *.
    assert (hedges (w_heap w2) !! e = Some (UndefinedDependence_new k k') ∧ e ∈ allEdges (dag (w_dag w2))) as [He2 Hin2].
    { simpl. fold e. rewrite lookup_insert_eq. split; [done|]. set_solver. }
    apply wp_bind. case_decide as Hcl.
    { rewrite (wi_cleared _ _ _ _ Wi) in Hcl. by apply wf_fresh_edge in Hcl. }
    apply wp_bind, wp_on_world_heap, wp_load_edge. eexists. split; [exact He2|].
    apply wp_bind, wp_on_world_heap, wp_store_edge. apply wp_ret.
    match goal with |- wp _ _ ?w' => assert (w' = w2) as -> end.
    { cbn [removeSubEdges UndefinedDependence_new DGEdge_new subEdges w_heap w_sccs w_dag]. unfold set_hedges.
      rewrite insert_id by exact He2. by destruct w2 as [[] ? ?]. }
    eapply addSubEdges_wired; [exact Wi2|done|done|exact He2|done|done|exact Hes|exact Hne].
  - destruct (Hfwd e) as (He & y & Hy & Hf & Ht); [apply elem_of_visit; rewrite Hv; set_solver|].
    apply wp_bind, wp_ret, wp_bind. rewrite decide_True by (by rewrite (wi_cleared _ _ _ _ Wi)). apply wp_ret.
    eapply addSubEdges_wired; [exact Wi|set_solver|done|exact Hy|done|done|exact Hes|exact Hne].
Qed.

Lemma markEdges_of_component done cleared w k p g : wired done ∅ cleared w → node_of g1 p k → w_sccs w1 !! p = Some g →
  wp (foldM (markEdge k p) cleared (externalNodePairs g)) (λ cleared' w',
    wired (λ k1 t1, done k1 t1 ∨ (k1 = k ∧ is_Some (externalNodeMap g !! t1))) ∅ cleared' w') w.
Proof.
  intros Wi Hk Hg. eapply wp_mono.
  { apply (wp_foldM _ (λ pre _ cleared' w', wired (λ k1 t1, done k1 t1 ∨ (k1 = k ∧ t1 ∈ pre.*1)) ∅ cleared' w')).
    - eapply wired_more; [done|]. intros k1 t1 e' k' _. simpl. rewrite elem_of_nil. tauto.
    - intros pre [t o] post c w' Hl Wi'. eapply wp_mono.
      { apply (markEdge_spec _ c w' k p g t o Wi' Hk Hg). apply elem_of_nodePairs.
        unfold externalNodePairs in Hl. rewrite Hl. set_solver. }
      intros c2 w2 Wi2. eapply wired_more; [done|]. intros k1 t1 e' k' _.
      rewrite fmap_app, elem_of_app. simpl. rewrite list_elem_of_singleton. tauto. }
  intros c w' Wi'. eapply wired_more; [done|]. intros k1 t1 e' k' _.
  unfold externalNodePairs. by rewrite elem_of_nodePairs_keys.
Qed.

(** the value at the far end of a dependence is external to the component *)
Lemma sub_edge_external k t e' k' : sub_edge k t e' k' →
  ∃ p g, node_of g1 p k ∧ w_sccs w1 !! p = Some g ∧ is_Some (externalNodeMap g !! t).
Proof.
  intros (e & a & n & Hends & (p & I & Hp & HI & Ha) & Hk' & Hne & HT & _).
  destruct (bu_object _ _ _ _ _ _ B p I HI) as (g & m & Hg & _ & Hobj). exists p, g. split_and!; [done..|].
  destruct (so_borders _ _ _ _ _ _ Hobj t a n Ha) as [kx ->]; [by exists e| |done|eauto].
  intros HnI. apply Hne, (in_component_unique k k' n); [by exists p, I|done].
Qed.

Lemma markEdgesAndSubEdges_spec w : wired (λ _ _, False) ∅ ∅ w →
  wp markEdgesAndSubEdges (λ _ w', ∃ cleared, wired (λ _ _, True) ∅ cleared w') w.
Proof.
  intros Wi. unfold markEdgesAndSubEdges. apply wp_bind, wp_self, wp_bind.
  destruct (wi_same _ _ _ _ Wi) as (Si & Se & Sn & St). rewrite Sn. eapply wp_mono.
  { apply (wp_foldM _ (λ pre _ cleared w', wired (λ k t, k ∈ pre ∧ ∃ p g, node_of g1 p k ∧ w_sccs w1 !! p = Some g ∧
      is_Some (externalNodeMap g !! t)) ∅ cleared w')).
    - eapply wired_more; [done|]. intros k t e' k' _. split; [done|]. by intros [?%not_elem_of_nil _].
    - intros pre k post c w' Hl Wi'. assert (k ∈ allNodes g1) as Hk by (apply elem_of_visit; rewrite Hl; set_solver).
      destruct (wi_same _ _ _ _ Wi') as (Si' & Se' & Sn' & St').
      destruct (wf_node _ _ (wi_wf _ _ _ _ Wi') k) as (x & Hx & HT); [by rewrite Sn'|].
      assert (node_of g1 (theT x) k) as HT1. { unfold node_of in *. by rewrite <- Si', <- Se'. }
      assert (is_Some (C !! theT x)) as [I HI] by (apply (bu_nodes _ _ _ _ _ _ B); eauto).
      destruct (bu_object _ _ _ _ _ _ B _ I HI) as (g & m & Hg & _).
      apply wp_bind, wp_on_world_heap, wp_load_node. exists x. split; [done|].
      apply wp_bind. unfold load_scc, getT. unfold wp at 1. simpl. rewrite (wi_sccs _ _ _ _ Wi'), Hg. simpl.
      replace (mkWorld _ _ _) with w' by (rewrite <- (wi_sccs _ _ _ _ Wi'); by destruct w').
      eapply wp_mono; [exact (markEdges_of_component _ c w' k _ g Wi' HT1 Hg)|].
      intros c2 w2 Wi2. eapply wired_more; [done|]. intros k1 t1 e' k' Hs. rewrite elem_of_snoc. split.
      + intros [[? ?]|[-> ?]]; [auto|]. split; [auto|]. by exists (theT x), g.
      + intros [[?| ->] Hex]; [left; auto|right]. split; [done|]. destruct Hex as (p & g' & Hp & Hg' & Ht).
        rewrite <- (node_of_inv _ _ _ _ _ (wi_wf _ _ _ _ Wi') ltac:(unfold node_of in *; rewrite Si', Se'; exact Hp) Hx) in Hg'.
        by simplify_eq. }
  intros c w' Wi'. apply wp_ret. exists c. eapply wired_more; [done|]. intros k t e' k' Hs. split; [done|]. intros _.
  split; [|by eapply sub_edge_external]. apply elem_of_visit. destruct Hs as (? & ? & ? & _ & Hk & _). by eapply in_component_node.
Qed.

Lemma wired_start w : w_heap w = h1 → w_sccs w = w_sccs w1 → dag (w_dag w) = g1 → valueToSCCNode (w_dag w) = vs →
  wired (λ _ _, False) ∅ ∅ w.
Proof.
  intros Hh Hs Hd Hv. pose proof (bu_edges _ _ _ _ _ _ B) as He. split; rewrite ?Hh, ?Hs, ?Hd, ?Hv, ?He; try done.
  apply B.
Qed.

(** two components depend on each other as their nodes do *)
Lemma wired_depends cleared w k k' p q : wired (λ _ _, True) ∅ cleared w → node_of g1 p k → node_of g1 q k' →
  depends (w_heap w) (dag (w_dag w)) p q ↔
    k ≠ k' ∧ ∃ a n, in_component k a ∧ in_component k' n ∧ dep h0 pdg a n.
Proof.
  intros Wi Hp Hq. pose proof (wi_wf _ _ _ _ Wi) as W. destruct (wi_same _ _ _ _ Wi) as (Si & Se & Sn & St).
  assert (node_of (dag (w_dag w)) p k) as Hp' by (unfold node_of in *; by rewrite Si, Se).
  assert (node_of (dag (w_dag w)) q k') as Hq' by (unfold node_of in *; by rewrite Si, Se).
  split.
  - intros (e & v & Hv & <- & <-). destruct (edge_view_inv _ _ _ _ Hv) as (He & y & Hy).
    destruct (edge_view_live _ _ _ _ W He Hy) as (x & z & _ & _ & Nx & Nz & Hv'). rewrite Hv in Hv'. simplify_eq/=.
    pose proof (wi_only _ _ _ _ Wi e y (not_elem_of_empty _) He Hy) as [e' He']%set_choose_L.
    apply (wi_sub _ _ _ _ Wi e y e' He Hy) in He' as (t & _ & d & a & n & Hd & Ha & Hn & Hne & _).
    rewrite (wf_node_of_inj _ _ _ _ _ W Hp' Nx), (wf_node_of_inj _ _ _ _ _ W Hq' Nz).
    split; [done|]. exists a, n. split_and!; [done..|]. by exists d.
  - intros (Hne & a & n & Ha & Hn & d & Hd).
    destruct (dep_nodes h0 pdg W0 a n) as [_ Hnn]; [by exists d|].
    destruct (wf_node _ _ W0 n Hnn) as (xn & _ & HT).
    assert (∃ e', sub_edge k (theT xn) e' k') as [e' Hs].
    { destruct Ha as (p' & I & Hp0 & HI & Ha). destruct (bu_object _ _ _ _ _ _ B p' I HI) as (g & m & Hg & Hm & Hobj).
      destruct (so_copied _ _ _ _ _ _ Hobj d a n Ha Hd) as (e' & y & He' & _). exists e', d, a, n.
      split_and!; try done; [by exists p', I|]. by exists p', m. }
    destruct (wi_some _ _ _ _ Wi k _ e' k' I Hs) as (e & y & He & Hy & Hf & Ht).
    destruct (edge_view_live _ _ _ _ W He Hy) as (x & z & _ & _ & Nx & Nz & Hv). exists e. eexists. split; [done|]. simpl.
    rewrite Hf in Nx. rewrite Ht in Nz.
    destruct (wf_map _ _ W _ _ Hp') as (_ & x' & Hx' & <-). destruct (wf_map _ _ W _ _ Hq') as (_ & z' & Hz' & <-).
    split; symmetry; by eapply node_of_inv.
Qed.
End edges.
