(* ===== verification/SCCDAGNewSpec.v ===== *)
(** * The constructor of the SCCDAG is correct

    The graph it builds is the condensation of the dependence graph: its nodes are the strongly
    connected components, its edges the dependences between them, and its matrix their paths. *)
From S2P Require Import Prelude SCCIterator DGEdge DGNode DGBase DGInvariant DGSpec DGQuery DGCopy PDGSpec SCC SCCSpec.
From S2P Require BitMatrix BitMatrixSpec.
From S2P Require Import SCCDAG SCCDAGSpec SCCDAGComponents SCCDAGEdges.

Section new.
Context {IO : IterOrder} `{BL : BitMatrix.BitVectorLaws} {SI : SCCIterator} {SL : SCCIteratorLaws SI}.
Context (h0 : Heap) (pdg : DG) (W0 : wf h0 pdg).

(** the SCC object [p] is the component of the node [a] *)
Definition component_of (w : World) (a p : Ptr) : Prop :=
  ∃ v, node_of pdg v a ∧ sccOfValue (w_heap w) (w_dag w) v = Ok (Some p).

(** ** Paths between components *)

Section paths.
Context (C : gmap Ptr (gset Ptr)) (mm : gmap Ptr (gmap Ptr Ptr)).
Context (w1 : World) (B : built h0 pdg C mm (allNodes pdg) w1).
Context (vs : gmap Ptr (option Ptr)) (cleared : gset Ptr) (w : World).
Context (Wi : wired h0 pdg C mm w1 vs (λ _ _, True) ∅ cleared w).
Notation g1 := (dag (w_dag w1)).
Notation comp := (in_component C w1).
Notation D := (depends (w_heap w) (dag (w_dag w))).

Lemma node_same p k : node_of (dag (w_dag w)) p k ↔ node_of g1 p k.
Proof. destruct (wi_same _ _ _ _ _ _ _ _ _ _ Wi) as (Si & Se & _). unfold node_of. by rewrite Si, Se. Qed.

Lemma depends_nodes p q : D p q → ∃ k k', node_of g1 p k ∧ node_of g1 q k'.
Proof.
  intros (e & v & Hv & <- & <-). destruct (edge_view_inv _ _ _ _ Hv) as (He & y & Hy).
  destruct (edge_view_live _ _ _ _ (wi_wf _ _ _ _ _ _ _ _ _ _ Wi) He Hy) as (x & z & _ & _ & Nx & Nz & Hv').
  rewrite Hv in Hv'. simplify_eq/=. exists (from y), (to y). by rewrite <- !node_same.
Qed.

Lemma comp_of_node p k : node_of g1 p k → ∃ a, comp k a.
Proof.
  intros Hk. destruct (proj1 (bu_nodes _ _ _ _ _ _ B p)) as [I HI]; [eauto|].
  pose proof (bu_nonempty _ _ _ _ _ _ B p I HI) as [a Ha]%set_choose_L. by exists a, p, I.
Qed.

(** nodes of one component reach each other *)
Lemma comp_path k a b : comp k a → comp k b → rtc (dep h0 pdg) a b.
Proof. intros Ha Hb. by apply (in_component_class h0 pdg C mm w1 B k a b Ha) in Hb as [? _]. Qed.

Lemma path_of_depends p q : tc D p q → ∀ k k', node_of g1 p k → node_of g1 q k' →
  ∀ a b, comp k a → comp k' b → rtc (dep h0 pdg) a b.
Proof.
  assert (∀ p q k k' a b, D p q → node_of g1 p k → node_of g1 q k' → comp k a → comp k' b → rtc (dep h0 pdg) a b) as H1.
  { intros p' q' k k' a b Hd Hk Hk' Ha Hb.
    apply (wired_depends h0 pdg W0 C mm w1 B vs cleared w k k' p' q' Wi Hk Hk') in Hd as (_ & c & d & Hc & Hd & Hcd).
    transitivity c; [by eapply comp_path|]. eapply rtc_l; [done|]. by eapply comp_path. }
  induction 1 as [p q Hpq|p r q Hpr _ IH]; intros k k' Hk Hk' a b Ha Hb; [by eapply H1|].
  destruct (depends_nodes p r Hpr) as (_ & kr & _ & Hkr). destruct (comp_of_node r kr Hkr) as [c Hc].
  transitivity c; [by eapply H1|]. by eapply IH.
Qed.

Lemma depends_of_path a b : rtc (dep h0 pdg) a b → ∀ p q k k', node_of g1 p k → node_of g1 q k' →
  comp k a → comp k' b → k = k' ∨ tc D p q.
Proof.
  induction 1 as [a|a c b Hac Hcb IH]; intros p q k k' Hk Hk' Ha Hb.
  - left. by eapply in_component_unique.
  - destruct (dep_nodes h0 pdg W0 a c Hac) as [_ Hcn].
    destruct (in_component_some h0 pdg C mm w1 B c Hcn) as [kc Hc]. pose proof Hc as (r & I & Hr & _).
    destruct (decide (k = kc)) as [->|Hne].
    + apply (IH p q kc k'); done.
    + right. assert (D p r) as Hpr.
      { apply (wired_depends h0 pdg W0 C mm w1 B vs cleared w k kc p r Wi Hk Hr). split; [done|]. by exists a, c. }
      destruct (IH r q kc k' Hr Hk' Hc Hb) as [->|Hrq]; [|by eapply tc_l].
      pose proof (bu_wf _ _ _ _ _ _ B) as W1.
      destruct (wf_map _ _ W1 _ _ Hr) as (_ & x & Hx & <-). rewrite <- (node_of_inv _ _ _ _ _ W1 Hk' Hx). by apply tc_once.
Qed.

Lemma tc_depends p q k k' : node_of g1 p k → node_of g1 q k' →
  tc D p q ↔ k ≠ k' ∧ ∃ a b, comp k a ∧ comp k' b ∧ rtc (dep h0 pdg) a b.
Proof.
  intros Hk Hk'. split.
  - intros Hpq. destruct (comp_of_node p k Hk) as [a Ha], (comp_of_node q k' Hk') as [b Hb].
    split; [|exists a, b; split_and!; [done..|]; by eapply path_of_depends].
    intros <-. destruct (tc_r_inv D p q Hpq) as [Hd|(r & Hpr & Hrq)].
    + by apply (wired_depends h0 pdg W0 C mm w1 B vs cleared w k k p q Wi Hk Hk') in Hd as [? _].
    + destruct (depends_nodes r q Hrq) as (kr & _ & Hkr & _).
      rewrite (wired_depends h0 pdg W0 C mm w1 B vs cleared w kr k r q Wi Hkr Hk') in Hrq.
      destruct Hrq as (Hne & c & d & Hc & Hd & Hcd).
      apply Hne, (in_component_unique h0 pdg C mm w1 B kr k c); [done|].
      apply (in_component_class h0 pdg C mm w1 B k a c Ha). split.
      * by apply (path_of_depends p r Hpr k kr Hk Hkr).
      * eapply rtc_l; [done|]. by eapply comp_path.
  - intros (Hne & a & b & Ha & Hb & Hab). by destruct (depends_of_path a b Hab p q k k' Hk Hk' Ha Hb).
Qed.
End paths.
End new.

(** ** The constructor *)
Section spec.
Context {IO : IterOrder} `{BL : BitMatrix.BitVectorLaws} {SI : SCCIterator} {SL : SCCIteratorLaws SI}.

(** the SCCDAG of [w] is the condensation of the graph [pdg] of the heap [h0] *)
Record condensation (h0 : Heap) (pdg : DG) (w : World) : Prop := {
  cd_wf : wf (w_heap w) (dag (w_dag w));
  cd_kept_nodes n : n ∈ allNodes pdg → hnodes (w_heap w) !! n = hnodes h0 !! n;
  cd_kept_edges e : e ∈ allEdges pdg → hedges (w_heap w) !! e = hedges h0 !! e;
  cd_value n : n ∈ allNodes pdg → ∃ p k, component_of pdg w n p ∧ node_of (dag (w_dag w)) p k;
  cd_other v : (∀ n, ¬ node_of pdg v n) → sccOfValue (w_heap w) (w_dag w) v = Ok None;
  cd_nonempty p k : node_of (dag (w_dag w)) p k → ∃ a, component_of pdg w a p;
  cd_class a b p : component_of pdg w a p → component_of pdg w b p ↔ mutual h0 pdg a b;
  cd_edge p q k k' : node_of (dag (w_dag w)) p k → node_of (dag (w_dag w)) q k' →
    depends (w_heap w) (dag (w_dag w)) p q ↔
      p ≠ q ∧ ∃ a b, component_of pdg w a p ∧ component_of pdg w b q ∧ dep h0 pdg a b;
  cd_order p q k k' : node_of (dag (w_dag w)) p k → node_of (dag (w_dag w)) q k' →
    ∃ r, orderedBefore (w_dag w) p q = Ok r ∧
      (r = true ↔ p ≠ q ∧ ∃ a b, component_of pdg w a p ∧ component_of pdg w b q ∧ rtc (dep h0 pdg) a b)
}.

(** the map from values to components after the construction *)
Section lookup.
Context (h0 : Heap) (pdg : DG) (W0 : wf h0 pdg).
Context (C : gmap Ptr (gset Ptr)) (mm : gmap Ptr (gmap Ptr Ptr)).
Context (w1 : World) (B : built h0 pdg C mm (allNodes pdg) w1).
Context (vs : gmap Ptr (option Ptr)) (Hvs : marked pdg C (dag (w_dag w1)) vs) (w : World).
Context (W : wf (w_heap w) (dag (w_dag w))) (Hsame : same_nodes (dag (w_dag w1)) (dag (w_dag w))).
Context (Hv : valueToSCCNode (w_dag w) = vs).

Lemma node_same' p k : node_of (dag (w_dag w)) p k ↔ node_of (dag (w_dag w1)) p k.
Proof using Hsame. destruct Hsame as (Si & Se & _). unfold node_of. by rewrite Si, Se. Qed.

Lemma sccOfValue_marked v p : sccOfValue (w_heap w) (w_dag w) v = Ok (Some p) ↔
  ∃ k, component_node pdg C (dag (w_dag w1)) v k ∧ node_of (dag (w_dag w)) p k.
Proof using All.
  unfold sccOfValue. rewrite Hv. split.
  - destruct (vs !! v) as [o|] eqn:Ho; [|done]. apply Hvs in Ho as (k & -> & Hk). intros Hp.
    exists k. split; [done|]. destruct Hk as (q & I & n & Hq & _). apply node_same' in Hq.
    destruct (wf_map _ _ W _ _ Hq) as (_ & x & Hx & <-). rewrite Hx in Hp. by simplify_eq.
  - intros (k & Hk & Hp). assert (vs !! v = Some (Some k)) as -> by (apply Hvs; eauto).
    destruct (wf_map _ _ W _ _ Hp) as (_ & x & -> & <-). done.
Qed.

Lemma component_of_iff a p : component_of pdg w a p ↔
  ∃ k, node_of (dag (w_dag w)) p k ∧ in_component C w1 k a.
Proof using All.
  split.
  - intros (v & Ha & (k & (q & I & n & Hq & HI & Hn & Hvn) & Hp)%sccOfValue_marked).
    rewrite (node_unique h0 pdg W0 v n a) in Hn by done. exists k. split; [done|]. by exists q, I.
  - intros (k & Hp & q & I & Hq & HI & Ha).
    destruct (bu_class _ _ _ _ _ _ B q I a HI Ha) as [Han _].
    destruct (node_value h0 pdg W0 a Han) as (v & x & Hva & _). exists v. split; [done|].
    apply sccOfValue_marked. exists k. split; [|done]. by exists q, I, a.
Qed.

Lemma component_of_node k p a : node_of (dag (w_dag w)) p k → component_of pdg w a p ↔ in_component C w1 k a.
Proof using All.
  intros Hp. rewrite component_of_iff. split; [|eauto]. intros (k' & Hk' & Ha).
  by rewrite (wf_node_of_inj _ _ _ _ _ W Hp Hk').
Qed.

Lemma sccOfValue_unmarked v : (∀ n, ¬ node_of pdg v n) → sccOfValue (w_heap w) (w_dag w) v = Ok None.
Proof using All.
  intros Hno. unfold sccOfValue. rewrite Hv. destruct (vs !! v) as [o|] eqn:Ho; [|done].
  apply Hvs in Ho as (k & _ & p & I & n & _ & _ & _ & Hn). by destruct (Hno n).
Qed.

Lemma node_ptrs p q k k' : node_of (dag (w_dag w)) p k → node_of (dag (w_dag w)) q k' → p ≠ q ↔ k ≠ k'.
Proof using W.
  intros Hp Hq. destruct (wf_map _ _ W _ _ Hp) as (_ & x & Hx & Hxp). destruct (wf_map _ _ W _ _ Hq) as (_ & y & Hy & Hyq).
  split; intros Hne ->; apply Hne; [congruence|]. by eapply wf_node_of_inj.
Qed.
End lookup.

Lemma built_condensation h0 pdg C mm w1 vs cleared w2 w : wf h0 pdg →
  built h0 pdg C mm (allNodes pdg) w1 → marked pdg C (dag (w_dag w1)) vs →
  wired h0 pdg C mm w1 vs (λ _ _, True) ∅ cleared w2 →
  w_heap w = w_heap w2 → dag (w_dag w) = dag (w_dag w2) → valueToSCCNode (w_dag w) = valueToSCCNode (w_dag w2) →
  (∀ a b, (∃ n, node_of (dag (w_dag w2)) a n) → (∃ n, node_of (dag (w_dag w2)) b n) →
      ∃ r, orderedBefore (w_dag w) a b = Ok r ∧ (r = true ↔ tc (depends (w_heap w2) (dag (w_dag w2))) a b)) →
  condensation h0 pdg w.
Proof.
  intros W0 B Hvs Wi Hh Hd Hv Hord. pose proof (wi_same _ _ _ _ _ _ _ _ _ _ Wi) as Hsame.
  pose proof (wi_wf _ _ _ _ _ _ _ _ _ _ Wi) as W. rewrite (wi_values _ _ _ _ _ _ _ _ _ _ Wi) in Hv.
  rewrite <- ?Hh, <- ?Hd in *.
  pose proof (component_of_node h0 pdg W0 C mm w1 B vs Hvs w W Hsame Hv) as Hof.
  pose proof (node_same' w1 w Hsame) as Hns. pose proof (bu_keeps _ _ _ _ _ _ B) as K.
  split.
  - exact W.
  - intros n Hn. destruct (wf_node _ _ W0 n Hn) as (x & Hx & _). rewrite Hx, Hh.
    apply (wi_nodes _ _ _ _ _ _ _ _ _ _ Wi); [|by apply K]. intros Hin.
    by rewrite (bu_new _ _ _ _ _ _ B n Hin) in Hx.
  - intros e He. destruct (wf_edge _ _ W0 e He) as (y & Hy & _). rewrite Hy, Hh.
    apply (wi_old _ _ _ _ _ _ _ _ _ _ Wi). by apply K.
  - intros n Hn. destruct (in_component_some h0 pdg C mm w1 B n Hn) as [k Hk]. pose proof Hk as (p & I & Hp%Hns & _).
    exists p, k. by rewrite (Hof k).
  - by apply (sccOfValue_unmarked h0 pdg W0 C mm w1 B vs Hvs w W Hsame Hv).
  - intros p k Hk. pose proof (comp_of_node h0 pdg C mm w1 B p k) as [a Ha]; [by apply Hns|]. exists a. by apply (Hof k).
  - intros a b p (k & Hk & Ha)%(component_of_iff h0 pdg W0 C mm w1 B vs Hvs w W Hsame Hv).
    rewrite (Hof k p b Hk). by apply (in_component_class h0 pdg C mm w1 B).
  - intros p q k k' Hk Hk'. rewrite (node_ptrs w W p q k k' Hk Hk'). setoid_rewrite (Hof k p _ Hk).
    setoid_rewrite (Hof k' q _ Hk'). rewrite Hh, Hd.
    apply (wired_depends h0 pdg W0 C mm w1 B vs cleared w2 k k' p q Wi); by apply Hns.
  - intros p q k k' Hk Hk'. destruct (Hord p q) as (r & -> & Hr); [eauto..|]. exists r. split; [done|].
    rewrite Hr, (node_ptrs w W p q k k' Hk Hk'). setoid_rewrite (Hof k p _ Hk). setoid_rewrite (Hof k' q _ Hk').
    rewrite Hh, Hd. apply (tc_depends h0 pdg W0 C mm w1 B vs cleared w2 Wi p q k k'); by apply Hns.
Qed.

(** (C2) The SCCDAG of a dependence graph is its condensation: every value of the graph is in
    one component and no other value is; two values share a component exactly when each depends
    on the other along paths of dependences; a component depends on another one exactly when one
    of its values does on a value of the other; orderedBefore answers for any two components,
    and answers true exactly when they differ and a path of dependences leads from the values of
    the first to those of the second. The dependence graph itself is left as it was. The bound on
    the number of values is that of the matrix. *)
Theorem SCCDAG_new_spec (w : World) (pdg : DG) :
  wf (w_heap w) pdg → is_Some (entryNode pdg) →
  (∀ e, e ∈ allEdges pdg → copyable (w_heap w) e) → (Z.of_nat (numNodes pdg) ≤ 46340)%Z →
  dag (w_dag w) = DG_new →
  wp (SCCDAG_new pdg) (λ _ w', condensation (w_heap w) pdg w') w.
Proof.
  intros W0 [n0 Hn0] Hcp Hcap Hdag. unfold SCCDAG_new.
  apply wp_bind, wp_lift. exists (default None (entryNode pdg)). split; [unfold getEntryNode; by rewrite Hn0|].
  apply wp_bind. eapply wp_mono; [by apply (findComponents_spec (w_heap w) pdg W0 Hcp Hcap w)|].
  intros _ w1 (C & mm & B). apply wp_bind. eapply wp_mono; [by apply (markValuesInSCC_spec (w_heap w) pdg W0 C mm)|].
  intros _ w1' (vs & -> & Hvs). apply wp_bind. eapply wp_mono.
  { apply (markEdgesAndSubEdges_spec (w_heap w) pdg W0 C mm w1 B vs Hvs).
    by apply (wired_start (w_heap w) pdg C mm w1 B). }
  intros _ w2 [cleared Wi]. apply wp_bind, wp_set_self. pose proof (wi_wf _ _ _ _ _ _ _ _ _ _ Wi) as W.
  destruct (wi_same _ _ _ _ _ _ _ _ _ _ Wi) as (_ & _ & Sn & _). eapply wp_mono.
  { apply computeReachability_run; [exact W|]. simpl. unfold numNodes. rewrite Sn.
    pose proof (proj1 (bu_count _ _ _ _ _ _ B)). unfold numNodes in *. lia. }
  intros _ w' (Hh & Hd & _ & Hv & Hord). by eapply (built_condensation _ pdg C mm w1 vs cleared w2).
Qed.
End spec.
