(* ===== verification/Partition.v ===== *)
(** * Partitions of an SCCDAG (src/core/loop_sccdag_attributes: SCCDAGPartition.cpp)

    The class [SCCDAGPartition], a dependence graph whose values are sets of SCCs, and
    [SCCDAGPartitioner], which merges the sets of one and answers queries about it. *)
From S2P Require Import Prelude SCCIterator DGEdge DGNode DGBase.
From S2P Require BitMatrix.
From S2P Require Import SCCDAG.

Section partition.
Context {IO : IterOrder} {SI : SCCIterator} {BVc : BitMatrix.BitVector}.

(** ** State *)

(** [this->sccdag] is the SCCDAG being partitioned. *)
Record SCCDAGPartition := mkPartition {
  p_graph : DG;
  sccToSetMap : gmap Ptr Ptr;
  sccdag : SCCDAG
}.

(** the heap of nodes and edges, the [SCCSet] objects, and [*this] *)
Record PWorld := mkPWorld {
  pw_heap : Heap;
  pw_sets : gmap Ptr (gset Ptr);
  pw_part : SCCDAGPartition
}.

Definition set_p_graph g (p : SCCDAGPartition) := mkPartition g (sccToSetMap p) (sccdag p).
Definition set_sccToSetMap m (p : SCCDAGPartition) := mkPartition (p_graph p) m (sccdag p).

(** a method of the base class [DG<SCCSet>] on [*this] *)
Definition on_p {A} (m : M GSt A) : M PWorld A :=
  zoom (λ w, (pw_heap w, p_graph (pw_part w)))
       (λ s w, mkPWorld s.1 (pw_sets w) (set_p_graph s.2 (pw_part w))) m.
Definition this_p : M PWorld SCCDAGPartition := gets pw_part.
Definition map_scc (scc set : Ptr) : M PWorld unit :=
  modify (λ w, mkPWorld (pw_heap w) (pw_sets w)
                 (set_sccToSetMap (<[scc := set]> (sccToSetMap (pw_part w))) (pw_part w))).

(** [new SCCSet()] with the given contents, [set->sccs], an assignment to it, [delete set] *)
Definition new_set (sccs : gset Ptr) : M PWorld Ptr := λ w,
  let h := pw_heap w in
  let p := nextAddr h in
  Ok (mkPWorld (mkHeap (hnodes h) (hedges h) (Pos.succ p)) (<[p := sccs]> (pw_sets w)) (pw_part w), p).
Definition sccs_of (set : Ptr) : M PWorld (gset Ptr) := λ w, deref (pw_sets w !! set) w.
Definition set_sccs (set : Ptr) (sccs : gset Ptr) : M PWorld unit :=
  modify (λ w, mkPWorld (pw_heap w) (<[set := sccs]> (pw_sets w)) (pw_part w)).
Definition delete_set (set : Ptr) : M PWorld unit :=
  modify (λ w, mkPWorld (pw_heap w) (delete set (pw_sets w)) (pw_part w)).

(** [fetchNode(set)], which must not be null where the code dereferences it *)
Definition node_of_set (set : Ptr) : M PWorld Ptr :=
  let* n := on_p (fetchNode set) in deref n.

(** ** SCCDAGPartition *)

(** [isIncludedInPartitioning(scc)]; [scc] can be null *)
Definition isIncludedInPartitioning (p : SCCDAGPartition) (scc : option Ptr) : bool :=
  match scc with
  | Some scc => bool_decide (is_Some (sccToSetMap p !! scc))
  | None => false
  end.

(** [sccToSetMap.at(scc)]: an absent key throws, and exceptions are not caught *)
Definition sccToSetMap_at (scc : Ptr) : M PWorld Ptr :=
  let* p := this_p in
  match sccToSetMap p !! scc with Some s => ret s | None => fail Aborted end.

Definition setOfSCC (scc : Ptr) : M PWorld Ptr :=
  let* p := this_p in
  massert (isIncludedInPartitioning p (Some scc)) ;;;
  sccToSetMap_at scc.

Definition getSCCDAG (p : SCCDAGPartition) : SCCDAG := sccdag p.

Definition partition_sccOfValue (w : PWorld) (V : Ptr) : Res (option Ptr) :=
  sccOfValue (pw_heap w) (sccdag (pw_part w)) V.

(** an edge between the sets [from] and [to], unless there is one *)
Definition addEdgeOnce (fromNode toNode from to : Ptr) : M PWorld unit :=
  let* es := on_p (fetchEdges fromNode toNode) in
  if decide (size es = 0) then on_p (addUndefinedDependenceEdge from to) ;;; ret tt
  else ret tt.

(** [SCCDAGPartition(sccdag, initialSets, sccToParentsMap)], on a fresh graph *)
Definition SCCDAGPartition_new (initialSets : gset Ptr) (sccToParentsMap : gmap Ptr (gset Ptr))
    : M PWorld unit :=
  forM (λ initialSet,
    let* sccs := sccs_of initialSet in
    let* set := new_set sccs in
    on_p (addNode set true) ;;;
    forM (λ scc,
      let* p := this_p in
      match sccToSetMap p !! scc with
      | Some _ => ret tt
      | None => map_scc scc set
      end) (visit sccs)) (visit initialSets) ;;;
  forM (λ scc,
    let* p := this_p in
    match sccToSetMap p !! scc with
    | None => ret tt
    | Some selfSet =>
        let* selfNode := on_p (fetchNode selfSet) in
        forM (λ parent,
          let* p := this_p in
          match sccToSetMap p !! parent with
          | None => ret tt
          | Some parentSet =>
              let* parentNode := node_of_set parentSet in
              let* selfNode := deref selfNode in
              addEdgeOnce parentNode selfNode parentSet selfSet
          end) (visit (default ∅ (sccToParentsMap !! scc)))
    end) (visit (dom sccToParentsMap)).

(** [~SCCDAGPartition()] *)
Definition SCCDAGPartition_destroy : M PWorld unit :=
  let* p := this_p in
  forM (λ node,
    let* n := on_p (on_heap (load_node node)) in
    delete_set (getT n)) (visit (allNodes (p_graph p))).

(** one edge that enters a set being merged: it enters the merged set, unless it comes
    from another set being merged *)
Definition moveIncoming (mergedSet mergedSetNode edge : Ptr) : M PWorld unit :=
  let* x := on_p (on_heap (load_edge edge)) in
  let* parentSet := on_p (on_heap (getSrc x)) in
  let* parentNode := on_p (fetchNode parentSet) in
  let* sccs := sccs_of parentSet in
  let* anySCCInParentSet := deref (head (visit sccs)) in
  let* s := sccToSetMap_at anySCCInParentSet in
  if decide (s = mergedSet) then ret tt
  else let* parentNode := deref parentNode in addEdgeOnce parentNode mergedSetNode parentSet mergedSet.
Definition moveOutgoing (mergedSet mergedSetNode edge : Ptr) : M PWorld unit :=
  let* x := on_p (on_heap (load_edge edge)) in
  let* childSet := on_p (on_heap (getDst x)) in
  let* childNode := on_p (fetchNode childSet) in
  let* sccs := sccs_of childSet in
  let* anySCCInChildSet := deref (head (visit sccs)) in
  let* s := sccToSetMap_at anySCCInChildSet in
  if decide (s = mergedSet) then ret tt
  else let* childNode := deref childNode in addEdgeOnce mergedSetNode childNode mergedSet childSet.

(** The three loops of [mergeSets]: the members of the sets move to the merged set, the
    edges follow, and the old sets are deleted. *)
Definition moveMembers (sets : gset Ptr) (mergedSet : Ptr) : M PWorld unit :=
  forM (λ set,
    let* sccs := sccs_of set in
    let* merged := sccs_of mergedSet in
    set_sccs mergedSet (merged ∪ sccs) ;;;
    forM (λ scc, map_scc scc mergedSet) (visit sccs)) (visit sets).
Definition moveEdges (sets : gset Ptr) (mergedSet mergedSetNode : Ptr) : M PWorld unit :=
  forM (λ set,
    let* setNode := node_of_set set in
    let* n := on_p (on_heap (load_node setNode)) in
    forM (moveIncoming mergedSet mergedSetNode) (visit (incomingEdges n)) ;;;
    let* n := on_p (on_heap (load_node setNode)) in
    forM (moveOutgoing mergedSet mergedSetNode) (visit (outgoingEdges n))) (visit sets).
Definition dropSet (set : Ptr) : M PWorld unit :=
  let* node := node_of_set set in
  on_p (removeNode node) ;;;
  delete_set set.
Definition dropSets (sets : gset Ptr) : M PWorld unit := forM dropSet (visit sets).

(** [mergeSets(sets)] *)
Definition mergeSets (sets : gset Ptr) : M PWorld unit :=
  let* mergedSet := new_set ∅ in
  moveMembers sets mergedSet ;;;
  let* mergedSetNode := on_p (addNode mergedSet true) in
  moveEdges sets mergedSet mergedSetNode ;;;
  dropSets sets.

(** the address of a new object that the graph does not store *)
Definition alloc : M PWorld Ptr := λ w,
  let h := pw_heap w in
  Ok (mkPWorld (mkHeap (hnodes h) (hedges h) (Pos.succ (nextAddr h))) (pw_sets w) (pw_part w),
      nextAddr h).

(** One component found from an entry node. [collapsedSets] is a [std::set] of pointers to
    the allocated sets. *)
Definition collapseComponent (st : gset Ptr * gmap Ptr (gset Ptr)) (setNodes : list Ptr)
    : M PWorld (gset Ptr * gmap Ptr (gset Ptr)) :=
  let '(visited, collapsedSets) := st in
  let* sets := mapM (λ node, let* n := on_p (on_heap (load_node node)) in ret (getT n)) setNodes in
  let* firstSet := deref (head sets) in
  if decide (firstSet ∈ visited) then ret st
  else
    let unwrappedSets : gset Ptr := list_to_set sets in
    let* p := alloc in
    ret (unwrappedSets ∪ visited, <[p := unwrappedSets]> collapsedSets).

Definition collapseCycles : M PWorld unit :=
  let* p := this_p in
  let* st := foldM (λ (st : gset Ptr * gmap Ptr (gset Ptr)) nodeToVisit,
    let* n := on_p (on_heap (load_node nodeToVisit)) in
    if decide (getT n ∈ st.1) then ret st
    else
      on_p (set_this (setEntryNode (Some nodeToVisit))) ;;;
      let* h := gets pw_heap in
      foldM collapseComponent st (scc_components (allNodes (p_graph p)) (successors h) nodeToVisit))
    (∅, ∅) (visit (allNodes (p_graph p))) in
  forM (λ setsToMerge,
    let sets := default ∅ (st.2 !! setsToMerge) in
    if decide (1 < size sets) then mergeSets sets else ret tt) (visit (dom st.2)).

Definition mergeSetsAndCollapseResultingCycles (sets : gset Ptr) : M PWorld unit :=
  mergeSets sets ;;; collapseCycles.

(** the values at the other end of the edges of a node *)
Definition parentSets (n : DGNode) : M PWorld (list Ptr) :=
  mapM (λ edge, let* x := on_p (on_heap (load_edge edge)) in on_p (on_heap (getSrc x)))
       (visit (incomingEdges n)).
Definition childSets (n : DGNode) : M PWorld (list Ptr) :=
  mapM (λ edge, let* x := on_p (on_heap (load_edge edge)) in on_p (on_heap (getDst x)))
       (visit (outgoingEdges n)).

(** one iteration of [getDepthOrderedSets]; the queue, the sets encountered, the result *)
Definition depthStep (st : list Ptr * gset Ptr * list Ptr)
    : M PWorld (list Ptr * gset Ptr * list Ptr + list Ptr) :=
  let '(setsToCheck, encountered, depthOrderedSets) := st in
  match setsToCheck with
  | [] => ret (inr depthOrderedSets)
  | set :: setsToCheck =>
      let* node := on_p (fetchNode set) in
      if decide (set ∈ encountered) then ret (inl (setsToCheck, encountered, depthOrderedSets))
      else
        let* node := deref node in
        let* n := on_p (on_heap (load_node node)) in
        let* parents := parentSets n in
        if negb (bool_decide (inDegree n = 0)) && existsb (λ p, bool_decide (p ∉ encountered)) parents
        then ret (inl (setsToCheck, encountered, depthOrderedSets))
        else
          let* children := childSets n in
          ret (inl (setsToCheck ++ children, {[set]} ∪ encountered, depthOrderedSets ++ [set]))
  end.

(** a node enters the queue once per edge, and the roots once more *)
Definition getDepthOrderedSets : M PWorld (list Ptr) :=
  let* rootNodes := on_p (getTopLevelNodes false) in
  massert (bool_decide (size rootNodes ≠ 0)) ;;;
  let* roots := mapM (λ rootNode, let* n := on_p (on_heap (load_node rootNode)) in ret (getT n))
                     (visit rootNodes) in
  let* p := this_p in
  let* depthOrderedSets := whileM (S (length roots + numEdges (p_graph p))) depthStep (roots, ∅, []) in
  massert (bool_decide (length depthOrderedSets = numNodes (p_graph p))) ;;;
  ret depthOrderedSets.

(** ** SCCDAGPartitioner: queries *)

Definition numberOfPartitions (p : SCCDAGPartition) : nat := numNodes (p_graph p).

(** [isAncestor(parentTarget, target)]: the search does not mark the sets it has seen *)
Definition ancestorStep (parentTarget : Ptr) (setToCheck : list Ptr) : M PWorld (list Ptr + bool) :=
  match setToCheck with
  | [] => ret (inr false)
  | set :: setToCheck =>
      let* node := node_of_set set in
      let* n := on_p (on_heap (load_node node)) in
      let* parents := parentSets n in
      if existsb (λ p, bool_decide (p = parentTarget)) parents then ret (inr true)
      else ret (inl (setToCheck ++ parents))
  end.
Definition isAncestor (fuel : nat) (parentTarget target : Ptr) : M PWorld bool :=
  whileM fuel (ancestorStep parentTarget) [target].

Definition getParentChildPair (fuel : nat) (setA setB : Ptr) : M PWorld (option (Ptr * Ptr)) :=
  let* ab := isAncestor fuel setA setB in
  if ab : bool then ret (Some (setA, setB))
  else
    let* ba := isAncestor fuel setB setA in
    if ba : bool then ret (Some (setB, setA)) else ret None.

Definition getOverlap (setsA setsB : gset Ptr) : gset Ptr := filter (λ s, s ∈ setsB) setsA.

(** the closure loops; the queue and the sets found *)
Definition closureStep (neighbours : DGNode → M PWorld (list Ptr)) (st : list Ptr * gset Ptr)
    : M PWorld (list Ptr * gset Ptr + gset Ptr) :=
  let '(setToCheck, found) := st in
  match setToCheck with
  | [] => ret (inr found)
  | set :: setToCheck =>
      let* node := node_of_set set in
      let* n := on_p (on_heap (load_node node)) in
      let* others := neighbours n in
      ret (inl (foldl (λ st other,
        if decide (other ∈ st.2) then st
        else (st.1 ++ [other], {[other]} ∪ st.2)) (setToCheck, found) others))
  end.
Definition getDescendants (startingSet : Ptr) : M PWorld (gset Ptr) :=
  let* p := this_p in
  whileM (S (S (numNodes (p_graph p)))) (closureStep childSets) ([startingSet], ∅).
Definition getAncestors (startingSet : Ptr) : M PWorld (gset Ptr) :=
  let* p := this_p in
  whileM (S (S (numNodes (p_graph p)))) (closureStep parentSets) ([startingSet], ∅).

Definition isMergeIntroducingCycle (fuel : nat) (setA setB : Ptr) : M PWorld bool :=
  let* parentChild := getParentChildPair fuel setA setB in
  match parentChild with
  | None => ret false
  | Some (parent, child) =>
      let* parentDescendants := getDescendants parent in
      let* childAncestors := getAncestors child in
      ret (bool_decide (0 < size (getOverlap parentDescendants childAncestors)))
  end.

Definition getCycleIntroducedByMerging (fuel : nat) (setA setB : Ptr) : M PWorld (gset Ptr) :=
  let* parentChild := getParentChildPair fuel setA setB in
  match parentChild with
  | None => ret {[setA; setB]}
  | Some (parent, child) =>
      let* parentDescendants := getDescendants parent in
      let* childAncestors := getAncestors child in
      ret ({[child]} ∪ ({[parent]} ∪ getOverlap parentDescendants childAncestors))
  end.

Definition getParents (set : Ptr) : M PWorld (gset Ptr) :=
  let* node := node_of_set set in
  let* n := on_p (on_heap (load_node node)) in
  let* l := parentSets n in ret (list_to_set l).
Definition getChildren (set : Ptr) : M PWorld (gset Ptr) :=
  let* node := node_of_set set in
  let* n := on_p (on_heap (load_node node)) in
  let* l := childSets n in ret (list_to_set l).

(** the values of a set of nodes *)
Definition setsOfNodes (nodes : gset Ptr) : M PWorld (gset Ptr) :=
  let* l := mapM (λ node, let* n := on_p (on_heap (load_node node)) in ret (getT n)) (visit nodes) in
  ret (list_to_set l).
Definition getSets : M PWorld (gset Ptr) :=
  let* p := this_p in setsOfNodes (allNodes (p_graph p)).
Definition getRoots : M PWorld (gset Ptr) :=
  let* nodes := on_p (getTopLevelNodes false) in setsOfNodes nodes.

(** ** SCCDAGPartitioner: merging *)

(** [mergePair(setA, setB)] reads [setA->sccs] after the merge *)
Definition mergePair (setA setB : Ptr) : M PWorld Ptr :=
  mergeSetsAndCollapseResultingCycles {[setA; setB]} ;;;
  let* sccs := sccs_of setA in
  let* anySCCInMergedSet := deref (head (visit sccs)) in
  setOfSCC anySCCInMergedSet.

Definition mergeAllPairs (pairs : list (Ptr * Ptr)) : M PWorld unit :=
  forM (λ pair : Ptr * Ptr,
    let* setProducer := setOfSCC pair.1 in
    let* setConsumer := setOfSCC pair.2 in
    if decide (setProducer = setConsumer) then ret tt
    else mergeSetsAndCollapseResultingCycles {[setProducer; setConsumer]}) pairs.

(** a [std::set] of pairs of pointers, in its order *)
Definition pairLe (p q : Ptr * Ptr) : Prop :=
  (p.1 < q.1)%positive ∨ (p.1 = q.1 ∧ (p.2 ≤ q.2)%positive).
#[export] Instance pairLe_dec : RelDecision pairLe.
Proof. intros p q. unfold pairLe. apply _. Defined.
Definition sortedPairs (s : gset (Ptr * Ptr)) : list (Ptr * Ptr) := merge_sort pairLe (elements s).

(** [mergeAlongMemoryEdges()]: the pairs of SCCs connected by a memory dependence *)
Definition memoryPair (edge : Ptr) : M PWorld (option (Ptr * Ptr)) :=
  let* x := on_p (on_heap (load_edge edge)) in
  let* flags := mapM (λ subEdge,
    let* y := on_p (on_heap (load_edge subEdge)) in ret (MemoryDependence_classof y))
    (visit (getSubEdges x)) in
  if negb (existsb id flags) then ret None
  else
    let* producerSCC := on_p (on_heap (getSrc x)) in
    let* consumerSCC := on_p (on_heap (getDst x)) in
    let* p := this_p in
    if isIncludedInPartitioning p (Some producerSCC) && isIncludedInPartitioning p (Some consumerSCC)
    then ret (Some (producerSCC, consumerSCC)) else ret None.
Definition mergeAlongMemoryEdges : M PWorld unit :=
  let* p := this_p in
  let* l := mapM memoryPair (visit (allEdges (dag (getSCCDAG p)))) in
  mergeAllPairs (sortedPairs (list_to_set (omap id l))).

(** [mergeLCSSAPhisWithTheValuesTheyPropagate()]: [exitPhis] are the phis of the exit blocks
    of the loops nested in the root loop, [incoming phi] the values of a phi *)
Definition lcssaPairsOf (incoming : Ptr → list Ptr) (phi : Ptr) : M PWorld (list (Ptr * Ptr)) :=
  let* w := get in
  let* consumerSCC := lift (partition_sccOfValue w phi) in
  if negb (isIncludedInPartitioning (pw_part w) consumerSCC) then ret []
  else
    let* l := mapM (λ incomingValue,
      let* producerSCC := lift (partition_sccOfValue w incomingValue) in
      ret (match producerSCC, consumerSCC with
           | Some producer, Some consumer =>
               if isIncludedInPartitioning (pw_part w) (Some producer)
               then Some (producer, consumer) else None
           | _, _ => None
           end)) (incoming phi) in
    ret (omap id l).
Definition mergeLCSSAPhisWithTheValuesTheyPropagate (exitPhis : gset Ptr)
    (incoming : Ptr → list Ptr) : M PWorld unit :=
  let* l := mapM (lcssaPairsOf incoming) (visit exitPhis) in
  mergeAllPairs (sortedPairs (list_to_set (concat l))).

(** ** The debug order *)

(** What [resetPartitioner] reads of the outermost loop: its header, the blocks it
    includes, their instructions and their successors. *)
Record TopLoop := mkTopLoop {
  header : Ptr;
  isIncluded : Ptr → bool;
  bb_insts : Ptr → list Ptr;
  bb_succs : Ptr → list Ptr
}.

(** the local state of the traversal: the order, the index, the SCCs and the blocks seen *)
Record DebugState := mkDebug {
  SCCDebugOrder : list (option Ptr);
  SCCDebugIndex : gmap Ptr nat;
  debugCount : nat;
  sccEncountered : gset Ptr;
  bbsEncountered : gset Ptr
}.

(** one instruction of a block; the subscript of the vector is not checked *)
Definition debugInst (w : PWorld) (st : DebugState) (I : Ptr) : Res DebugState :=
  rbind (partition_sccOfValue w I) (λ scc,
    match scc with
    | Some s =>
        if negb (isIncludedInPartitioning (pw_part w) scc) then Ok st
        else if decide (s ∈ sccEncountered st) then Ok st
        else if decide (debugCount st < length (SCCDebugOrder st)) then
          Ok (mkDebug (<[debugCount st := Some s]> (SCCDebugOrder st))
                (<[s := debugCount st]> (SCCDebugIndex st)) (S (debugCount st))
                ({[s]} ∪ sccEncountered st) (bbsEncountered st))
        else Fail UndefinedBehaviour
    | None => Ok st
    end).

(** one block of the depth-first traversal *)
Definition debugStep (w : PWorld) (topLoop : TopLoop) (st : DebugState * list Ptr)
    : Res (DebugState * list Ptr + DebugState) :=
  let '(d, todos) := st in
  match todos with
  | [] => Ok (inr d)
  | bb :: todos =>
      if negb (isIncluded topLoop bb) then Ok (inl (d, todos))
      else if decide (bb ∈ bbsEncountered d) then Ok (inl (d, todos))
      else
        let d := mkDebug (SCCDebugOrder d) (SCCDebugIndex d) (debugCount d) (sccEncountered d)
                         ({[bb]} ∪ bbsEncountered d) in
        rbind (foldR (debugInst w) d (bb_insts topLoop bb)) (λ d,
          Ok (inl (d, foldl (λ todos succBB,
            if decide (succBB ∈ bbsEncountered d) then todos else succBB :: todos)
            todos (bb_succs topLoop bb))))
  end.

(** [resetPartitioner()]: the index is not cleared, the order is resized *)
Definition resetPartitioner (fuel : nat) (topLoop : TopLoop) (order : list (option Ptr))
    (index : gmap Ptr nat) : M PWorld DebugState :=
  let* p := this_p in
  let* sizes := mapM (λ node,
    let* n := on_p (on_heap (load_node node)) in
    let* sccs := sccs_of (getT n) in
    ret (size sccs)) (visit (allNodes (p_graph p))) in
  let numberOfSCCs := sum_list_with id sizes in
  let order := take numberOfSCCs order ++ replicate (numberOfSCCs - length order) None in
  let* w := get in
  let* d := lift (while fuel (debugStep w topLoop) (mkDebug order index 0 ∅ ∅, [header topLoop])) in
  massert (bool_decide (size (SCCDebugIndex d) = numberOfSCCs)) ;;;
  ret d.
End partition.
