(* ===== verification/PartitionSpec.v ===== *)
(** * What the partition graph computes

    The queries of [SCCDAGPartitioner] on a well-formed partition, in terms of the abstract
    graph of its sets. *)
From S2P Require Import Prelude DGEdge DGNode DGBase DGInvariant DGSpec DGQuery.
From S2P Require BitMatrix.
From S2P Require Import SCCDAG Partition.

(** there is an edge from the set [a] to the set [b] *)
Definition p_edge (A : AGraph) (a b : Ptr) : Prop :=
  ∃ e x, a_edges A !! e = Some x ∧ a_src x = a ∧ a_dst x = b.

Section queries.
Context {IO : IterOrder} {BVc : BitMatrix.BitVector}.

(** the partition of [w] represents the abstract graph [A] *)
Definition p_rep (w : PWorld) (A : AGraph) : Prop := rep (pw_heap w) (p_graph (pw_part w)) A.

(** the edges that leave, and that enter, a set *)
Definition out_edges (A : AGraph) (t : Ptr) : gmap Ptr AEdge := filter (λ p, a_src p.2 = t) (a_edges A).
Definition in_edges (A : AGraph) (t : Ptr) : gmap Ptr AEdge := filter (λ p, a_dst p.2 = t) (a_edges A).

Lemma on_p_run {A} (m : M GSt A) w g' a :
  m (pw_heap w, p_graph (pw_part w)) = Ok ((pw_heap w, p_graph (pw_part w)), a) →
  g' = w → on_p m w = Ok (g', a).
Proof.
  intros Hm ->. unfold on_p, zoom. rewrite Hm. by destruct w as [h s []].
Qed.

Lemma rep_node h g A t : rep h g A → t ∈ a_values A →
  ∃ n x, node_of g t n ∧ n ∈ allNodes g ∧ hnodes h !! n = Some x ∧ theT x = t.
Proof.
  intros R Ht. apply (rep_values _ _ _ _ R) in Ht as [n Hn].
  destruct (wf_map _ _ (rep_wf _ _ _ R) _ _ Hn) as (? & x & ? & ?). eauto 10.
Qed.

(** the edges of a node are the edges of its value *)
Lemma out_edges_spec h g A t n x e : rep h g A → node_of g t n → hnodes h !! n = Some x →
  e ∈ outgoingEdges x ↔ ∃ y, a_edges A !! e = Some y ∧ a_src y = t.
Proof.
  intros R Hn Hx. pose proof (rep_wf _ _ _ R) as W.
  destruct (wf_map _ _ W _ _ Hn) as (Hin & x' & Hx' & HT). simplify_eq.
  rewrite (wf_out _ _ W n x) by done. setoid_rewrite (rep_edges _ _ _ R).
  split.
  - intros (He & y & Hy & <-). destruct (edge_view_live h g e y W He Hy) as (s & d & Hs & Hd & _ & _ & Hv).
    eexists. split; [done|]. simpl. congruence.
  - intros (y & Hv & Hsrc). destruct (edge_view_inv _ _ _ _ Hv) as (He & z & Hz).
    destruct (edge_view_live h g e z W He Hz) as (s & d & Hs & Hd & Hns & Hnd & Hv').
    split; [done|]. exists z. split; [done|]. rewrite Hv in Hv'. injection Hv' as ->. simpl in Hsrc.
    eapply (wf_node_of_inj _ _ (theT x)); [done| |done]. by rewrite <- Hsrc.
Qed.

Lemma in_edges_spec h g A t n x e : rep h g A → node_of g t n → hnodes h !! n = Some x →
  e ∈ incomingEdges x ↔ ∃ y, a_edges A !! e = Some y ∧ a_dst y = t.
Proof.
  intros R Hn Hx. pose proof (rep_wf _ _ _ R) as W.
  destruct (wf_map _ _ W _ _ Hn) as (Hin & x' & Hx' & HT). simplify_eq.
  rewrite (wf_in _ _ W n x) by done. setoid_rewrite (rep_edges _ _ _ R).
  split.
  - intros (He & y & Hy & <-). destruct (edge_view_live h g e y W He Hy) as (s & d & Hs & Hd & _ & _ & Hv).
    eexists. split; [done|]. simpl. congruence.
  - intros (y & Hv & Hdst). destruct (edge_view_inv _ _ _ _ Hv) as (He & z & Hz).
    destruct (edge_view_live h g e z W He Hz) as (s & d & Hs & Hd & Hns & Hnd & Hv').
    split; [done|]. exists z. split; [done|]. rewrite Hv in Hv'. injection Hv' as ->. simpl in Hdst.
    eapply (wf_node_of_inj _ _ (theT x)); [done| |done]. by rewrite <- Hdst.
Qed.

(** the edges between two nodes are the edges between their values *)
Lemma fetchEdges_edges h g A a b na nb : rep h g A → node_of g a na → node_of g b nb →
  ∃ s, fetchEdges na nb (h, g) = Ok ((h, g), s) ∧
    ∀ e, e ∈ s ↔ ∃ y, a_edges A !! e = Some y ∧ a_src y = a ∧ a_dst y = b.
Proof.
  intros R Ha Hb. pose proof (rep_wf _ _ _ R) as W.
  destruct (wf_map _ _ W _ _ Ha) as (Hain & xa & Hxa & HTa).
  destruct (wf_map _ _ W _ _ Hb) as (Hbin & xb & Hxb & HTb).
  enough (wp (fetchEdges na nb) (λ s st, st = (h, g) ∧
    ∀ e, e ∈ s ↔ e ∈ outgoingEdges xa ∧ ∃ y, hedges h !! e = Some y ∧ to y = nb) (h, g)) as H.
  { apply wp_ok in H as (st & s & Hrun & -> & Hs). exists s. split; [done|].
    intros e. rewrite Hs, (out_edges_spec _ _ _ _ _ _ e R Ha Hxa).
    setoid_rewrite (rep_edges _ _ _ R). split.
    - intros [(y & Hy & Hsrc) (z & Hz & Hto)]. exists y. split; [done|]. split; [done|].
      destruct (edge_view_inv _ _ _ _ Hy) as [He _].
      destruct (edge_view_live h g e z W He Hz) as (xs & xd & Hxs & Hxd & _ & _ & Hv).
      rewrite Hy in Hv. injection Hv as ->. simpl. congruence.
    - intros (y & Hy & Hsrc & Hdst). split; [eauto|].
      destruct (edge_view_inv _ _ _ _ Hy) as (He & z & Hz). exists z. split; [done|].
      destruct (edge_view_live h g e z W He Hz) as (xs & xd & Hxs & Hxd & _ & Hnd & Hv).
      rewrite Hy in Hv. injection Hv as ->. simpl in Hdst.
      eapply (wf_node_of_inj _ _ (theT xd)); [done..|]. by rewrite Hdst. }
  unfold fetchEdges. dg_steps. exists xa. split; [done|]. dg_steps.
  apply (filterM_nodes _ _ (λ e, ∃ y, hedges h !! e = Some y ∧ to y = nb)).
  - intros e He%elem_of_visit. apply (wf_out _ _ W na xa) in He as (He & y & Hy & _); [|done..].
    exists (bool_decide (getDstNode y = nb)). split.
    + unfold bind, load_edge. rewrite Hy. done.
    + rewrite bool_decide_eq_true. unfold getDstNode. naive_solver.
  - intros r Hr. dg_steps. split; [done|]. intros e. by rewrite elem_of_list_to_set, Hr, elem_of_visit.
Qed.

(** reading the two ends of an edge *)
Lemma edge_ends h g A e y : rep h g A → a_edges A !! e = Some y →
  ∃ x s d, hedges h !! e = Some x ∧ hnodes h !! from x = Some s ∧ hnodes h !! to x = Some d ∧
    theT s = a_src y ∧ theT d = a_dst y.
Proof.
  intros R Hy. pose proof (rep_wf _ _ _ R) as W. rewrite (rep_edges _ _ _ R) in Hy.
  destruct (edge_view_inv _ _ _ _ Hy) as (He & x & Hx).
  destruct (edge_view_live h g e x W He Hx) as (s & d & Hs & Hd & _ & _ & Hv).
  rewrite Hy in Hv. injection Hv as ->. exists x, s, d. done.
Qed.

Lemma node_of_set_run w A t : p_rep w A → t ∈ a_values A →
  ∃ n x, node_of_set t w = Ok (w, n) ∧ node_of (p_graph (pw_part w)) t n ∧
    hnodes (pw_heap w) !! n = Some x ∧ on_p (on_heap (load_node n)) w = Ok (w, x).
Proof.
  intros R Ht. destruct (rep_node _ _ _ _ R Ht) as (n & x & Hn & Hin & Hx & HT).
  exists n, x. split_and!; try done.
  - unfold node_of_set, bind. erewrite on_p_run; [|by apply fetchNode_present; [apply R|]|done]. done.
  - apply on_p_run; [|done]. unfold on_heap, zoom, load_node. simpl. by rewrite Hx.
Qed.

Lemma read_src_run w A e y : p_rep w A → a_edges A !! e = Some y →
  (let* x := on_p (on_heap (load_edge e)) in on_p (on_heap (getSrc x))) w = Ok (w, a_src y).
Proof.
  intros R Hy. destruct (edge_ends _ _ _ _ _ R Hy) as (x & s & d & Hx & Hs & Hd & <- & _).
  unfold bind. rewrite (on_p_run _ w w x); [| |done].
  - apply on_p_run; [|done]. unfold on_heap, zoom, getSrc, bind, load_node. simpl. by rewrite Hs.
  - unfold on_heap, zoom, load_edge. simpl. by rewrite Hx.
Qed.
Lemma read_dst_run w A e y : p_rep w A → a_edges A !! e = Some y →
  (let* x := on_p (on_heap (load_edge e)) in on_p (on_heap (getDst x))) w = Ok (w, a_dst y).
Proof.
  intros R Hy. destruct (edge_ends _ _ _ _ _ R Hy) as (x & s & d & Hx & Hs & Hd & _ & <-).
  unfold bind. rewrite (on_p_run _ w w x); [| |done].
  - apply on_p_run; [|done]. unfold on_heap, zoom, getDst, bind, load_node. simpl. by rewrite Hd.
  - unfold on_heap, zoom, load_edge. simpl. by rewrite Hx.
Qed.

Lemma in_edges_size h g A t n x : rep h g A → node_of g t n → hnodes h !! n = Some x →
  size (incomingEdges x) = size (in_edges A t).
Proof.
  intros R Hn Hx. rewrite <- size_dom. f_equal. apply set_eq. intros e.
  rewrite (in_edges_spec _ _ _ _ _ _ e R Hn Hx), elem_of_dom. unfold is_Some.
  setoid_rewrite map_lookup_filter_Some. naive_solver.
Qed.
Lemma out_edges_size h g A t n x : rep h g A → node_of g t n → hnodes h !! n = Some x →
  size (outgoingEdges x) = size (out_edges A t).
Proof.
  intros R Hn Hx. rewrite <- size_dom. f_equal. apply set_eq. intros e.
  rewrite (out_edges_spec _ _ _ _ _ _ e R Hn Hx), elem_of_dom. unfold is_Some.
  setoid_rewrite map_lookup_filter_Some. naive_solver.
Qed.

Lemma parentSets_run w A t n x : p_rep w A → node_of (p_graph (pw_part w)) t n →
  hnodes (pw_heap w) !! n = Some x →
  ∃ l, parentSets x w = Ok (w, l) ∧ length l = size (in_edges A t) ∧
       inDegree x = size (in_edges A t) ∧ ∀ a, a ∈ l ↔ p_edge A a t.
Proof.
  intros R Hn Hx. pose proof (λ e, in_edges_spec _ _ _ _ _ _ e R Hn Hx) as He.
  pose proof (in_edges_size _ _ _ _ _ _ R Hn Hx) as Hs.
  exists ((λ e, default 1%positive (a_src <$> a_edges A !! e)) <$> visit (incomingEdges x)).
  split_and!; [|by rewrite length_fmap, length_visit|done|].
  - apply mapM_run. intros e Hin%elem_of_visit. apply He in Hin as (y & Hy & _).
    rewrite Hy. by apply (read_src_run w A e y).
  - intros a. rewrite list_elem_of_fmap. unfold p_edge. split.
    + intros (e & -> & Hin%elem_of_visit). apply He in Hin as (y & Hy & Hd). rewrite Hy. eauto.
    + intros (e & y & Hy & <- & Hd). exists e. rewrite Hy. split; [done|]. apply elem_of_visit, He. eauto.
Qed.
Lemma childSets_run w A t n x : p_rep w A → node_of (p_graph (pw_part w)) t n →
  hnodes (pw_heap w) !! n = Some x →
  ∃ l, childSets x w = Ok (w, l) ∧ length l = size (out_edges A t) ∧
       ∀ b, b ∈ l ↔ p_edge A t b.
Proof.
  intros R Hn Hx. pose proof (λ e, out_edges_spec _ _ _ _ _ _ e R Hn Hx) as He.
  pose proof (out_edges_size _ _ _ _ _ _ R Hn Hx) as Hs.
  exists ((λ e, default 1%positive (a_dst <$> a_edges A !! e)) <$> visit (outgoingEdges x)).
  split_and!; [|by rewrite length_fmap, length_visit|].
  - apply mapM_run. intros e Hin%elem_of_visit. apply He in Hin as (y & Hy & _).
    rewrite Hy. by apply (read_dst_run w A e y).
  - intros b. rewrite list_elem_of_fmap. unfold p_edge. split.
    + intros (e & -> & Hin%elem_of_visit). apply He in Hin as (y & Hy & Hd). rewrite Hy. eauto.
    + intros (e & y & Hy & Hsrc & <-). exists e. rewrite Hy. split; [done|]. apply elem_of_visit, He. eauto.
Qed.

(** The ends of an edge are sets of the partition. *)
Lemma p_edge_values w A a b : p_rep w A → p_edge A a b → a ∈ a_values A ∧ b ∈ a_values A.
Proof.
  intros R (e & x & Hx & <- & <-). pose proof (rep_wf _ _ _ R) as W.
  pose proof Hx as Hx'. rewrite (rep_edges _ _ _ R) in Hx'.
  destruct (edge_view_inv _ _ _ _ Hx') as (He & y & Hy).
  destruct (edge_view_live _ _ e y W He Hy) as (s & d & Hs & Hd & Hns & Hnd & Hv).
  rewrite Hx' in Hv. injection Hv as ->.
  rewrite !(rep_values _ _ _ _ R). simpl. eauto.
Qed.
Lemma p_tc_values w A a b : p_rep w A → tc (p_edge A) a b → a ∈ a_values A ∧ b ∈ a_values A.
Proof.
  intros R H. induction H as [a b H|a b c H _ [? IH]]; [by apply (p_edge_values w)|].
  split; [|done]. by apply (p_edge_values w A a b).
Qed.

(** The edges of the graph are those of the abstract graph. *)
Lemma edges_dom h g A e : rep h g A → e ∈ allEdges g ↔ is_Some (a_edges A !! e).
Proof.
  intros R. pose proof (rep_wf _ _ _ R) as W. rewrite (rep_edges _ _ _ R). split.
  - intros He. destruct (wf_edge _ _ W e He) as (y & Hy & _). destruct (edge_view_live _ _ _ _ W He Hy) as (s & d & _ & _ & _ & _ & ->). by eexists.
  - intros [x Hx]. by apply edge_view_inv in Hx as [? _].
Qed.

Lemma numEdges_edges h g A : rep h g A → numEdges g = size (a_edges A).
Proof.
  intros R. unfold numEdges. rewrite <- (size_dom (D := gset Ptr)). f_equal. apply set_eq. intros e.
  by rewrite elem_of_dom, (edges_dom _ _ _ _ R).
Qed.

(** The graph has one node per set. *)
Lemma numNodes_values h g A : rep h g A → numNodes g = size (a_values A).
Proof.
  intros R. pose proof (rep_wf _ _ _ R) as W.
  set (T := λ n, match hnodes h !! n with Some x => theT x | None => 1%positive end).
  assert (∀ n, n ∈ allNodes g → node_of g (T n) n) as HT.
  { intros n Hn. destruct (wf_node _ _ W n Hn) as (x & Hx & Hno). unfold T. by rewrite Hx. }
  assert (NoDup (T <$> elements (allNodes g))) as Hnd.
  { apply NoDup_fmap_2_strong; [|apply NoDup_elements].
    intros n n' Hn%elem_of_elements Hn'%elem_of_elements E.
    eapply (wf_node_of_inj _ _ (T n)); [done|by apply HT|]. rewrite E. by apply HT. }
  unfold numNodes. unfold size at 1, set_size. simpl. rewrite <- (length_fmap T).
  rewrite <- (size_list_to_set (C := gset Ptr)) by done. f_equal. apply set_eq. intros t.
  rewrite elem_of_list_to_set, list_elem_of_fmap, (rep_values _ _ _ _ R). split.
  - intros (n & -> & Hn%elem_of_elements). eauto.
  - intros (n & Hn). destruct (wf_map _ _ W _ _ Hn) as (Hin & x & Hx & Hth).
    exists n. split; [unfold T; by rewrite Hx|by apply elem_of_elements].
Qed.
End queries.
