(* ===== verification/PartitionQuery.v ===== *)
(** * Orders, ancestors and cycles in a partition

    What [getDepthOrderedSets], [isAncestor], [getDescendants], [getAncestors] and
    [isMergeIntroducingCycle] answer, in terms of the edges between the sets. *)
From S2P Require Import Prelude DGEdge DGNode DGBase DGInvariant DGSpec DGQuery.
From S2P Require BitMatrix.
From S2P Require Import SCCDAG Partition PartitionSpec.

Definition acyclic (A : AGraph) : Prop := ∀ x, ¬ tc (p_edge A) x x.

Section queries.
Context {IO : IterOrder} {BVc : BitMatrix.BitVector}.

(** ** Closures *)

(** the loop over the neighbours of one set *)
Lemma closure_fold l q found :
  let st := foldl (λ (st : list Ptr * gset Ptr) other,
    if decide (other ∈ st.2) then st else (st.1 ++ [other], {[other]} ∪ st.2)) (q, found) l in
  (∀ b, b ∈ st.2 ↔ b ∈ found ∨ b ∈ l) ∧
  (∀ b, b ∈ st.1 ↔ b ∈ q ∨ (b ∈ l ∧ b ∉ found)) ∧
  length st.1 + size found = length q + size st.2.
Proof.
  revert q found. induction l as [|y l IH]; intros q found; cbn [foldl].
  { cbn [fst snd]. split_and!; [..|lia]; intros b; rewrite elem_of_nil; tauto. }
  cbn [fst snd]. destruct (decide (y ∈ found)) as [Hd|Hd].
  - destruct (IH q found) as (H1 & H2 & H3). split_and!; [intros b..|exact H3];
      rewrite ?H1, ?H2, elem_of_cons; [|]; destruct (decide (b = y)) as [->|]; tauto.
  - destruct (IH (q ++ [y]) ({[y]} ∪ found)) as (H1 & H2 & H3).
    rewrite length_app, size_union, size_singleton in H3 by set_solver. simpl in H3.
    split_and!; [intros b..|lia]; rewrite ?H1, ?H2, ?elem_of_snoc, ?elem_of_cons, ?elem_of_union, ?elem_of_singleton;
      destruct (decide (b = y)) as [->|]; tauto.
Qed.

(** The two closure loops are one search along a relation. *)
Lemma closure_spec (neigh : DGNode → M PWorld (list Ptr)) (R : relation Ptr) w A start :
  p_rep w A → start ∈ a_values A →
  (∀ t n x, node_of (p_graph (pw_part w)) t n → hnodes (pw_heap w) !! n = Some x →
     ∃ l, neigh x w = Ok (w, l) ∧ ∀ b, b ∈ l ↔ R t b) →
  (∀ a b, R a b → b ∈ a_values A) →
  wp (whileM (S (S (numNodes (p_graph (pw_part w))))) (closureStep neigh) ([start], ∅))
     (λ found w', w' = w ∧ ∀ b, b ∈ found ↔ tc R start b) w.
Proof.
  intros Rp Hstart Hneigh HR. rewrite (numNodes_values _ _ _ Rp).
  apply (wp_whileM _ (λ (st : list Ptr * gset Ptr) w', w' = w ∧
      (∀ b, b ∈ st.1 → b ∈ a_values A ∧ (b = start ∨ b ∈ st.2)) ∧
      st.2 ⊆ a_values A ∧ (∀ b, b ∈ st.2 → tc R start b) ∧
      (∀ a b, a = start ∨ a ∈ st.2 → R a b → a ∈ st.1 ∨ b ∈ st.2))
    (λ st _, length st.1 + (size (a_values A) - size st.2))).
  - split_and!; simpl; set_solver.
  - intros [q found] w' (-> & Hq & Hsub & Hsound & Hclosed). simpl in *.
    destruct q as [|t q]; simpl.
    + split; [done|]. intros b. split; [auto|]. intros Htc.
      apply (tc_closed R (λ x, x ∈ found)) with start; [..|done];
        intros *; [intros Hs; destruct (Hclosed start b0)|intros Ha Hs; destruct (Hclosed a b0)]; set_solver.
    + destruct (Hq t) as [Ht Htf]; [set_solver|].
      destruct (node_of_set_run w A t Rp Ht) as (n & x & Hrun & Hn & Hx & Hload).
      destruct (Hneigh t n x Hn Hx) as (l & Hl & Hlr).
      apply wp_bind. unfold wp at 1. rewrite Hrun. apply wp_bind. unfold wp at 1. rewrite Hload.
      apply wp_bind. unfold wp at 1. rewrite Hl. apply wp_ret.
      destruct (closure_fold l q found) as (F2 & F1 & Fl).
      destruct (foldl _ (q, found) l) as [q' found']. cbn [fst snd] in *.
      assert (found' ⊆ a_values A) as Hsub'.
      { intros b Hb. apply F2 in Hb as [Hb|Hb]; [auto|]. apply (HR t). by apply Hlr. }
      split; [split_and!; [done|..]|].
      * intros b Hb. apply F1 in Hb as [Hb|[Hb _]].
        { destruct (Hq b) as [? [?|?]]; [set_solver|auto|]. split; [done|]. right. apply F2. auto. }
        split; [apply (HR t); by apply Hlr|]. right. apply F2. auto.
      * done.
      * intros b Hb. apply F2 in Hb as [Hb|Hb]; [auto|]. apply Hlr in Hb.
        destruct Htf as [->|Htf]; [by apply tc_once|]. eapply tc_r; [by apply Hsound|done].
      * intros a b Ha Hab. destruct (decide (a = t)) as [->|Hat].
        { right. apply F2. right. by apply Hlr. }
        assert (a = start ∨ a ∈ found ∨ (a ∈ l ∧ a ∉ found)) as [Ha'|[Ha'|Ha']].
        { destruct Ha as [|Ha]; [auto|]. apply F2 in Ha. destruct (decide (a ∈ found)); naive_solver. }
        1,2: destruct (Hclosed a b) as [Hin|Hin]; [auto|done| |right; apply F2; auto];
          apply elem_of_cons in Hin as [?|Hin]; [done|]; left; apply F1; auto.
        left. apply F1. auto.
      * pose proof (subseteq_size _ _ Hsub'). pose proof (subseteq_size _ _ Hsub). lia.
  - simpl. lia.
Qed.

Lemma getDescendants_run w A t : p_rep w A → t ∈ a_values A →
  ∃ s, getDescendants t w = Ok (w, s) ∧ ∀ b, b ∈ s ↔ tc (p_edge A) t b.
Proof.
  intros R Ht. assert (wp (getDescendants t) (λ s w', w' = w ∧ ∀ b, b ∈ s ↔ tc (p_edge A) t b) w) as H.
  { unfold getDescendants. apply wp_bind, wp_gets, (closure_spec _ (p_edge A)) with A; [done..| |].
    - intros t' n x Hn Hx. destruct (childSets_run w A t' n x R Hn Hx) as (l & ? & _ & ?). eauto.
    - intros a b Hab. by apply (p_edge_values w A a b). }
  apply wp_ok in H as (w' & s & ? & -> & ?). eauto.
Qed.

Lemma tc_flip {X} (R : relation X) x y : tc (flip R) x y ↔ tc R y x.
Proof.
  split; intros H.
  - induction H as [x y H|x y z H _ IH]; [by apply tc_once|]. by eapply tc_r.
  - induction H as [x y H|x y z H _ IH]; [by apply tc_once|]. by eapply tc_r.
Qed.

Lemma getAncestors_run w A t : p_rep w A → t ∈ a_values A →
  ∃ s, getAncestors t w = Ok (w, s) ∧ ∀ a, a ∈ s ↔ tc (p_edge A) a t.
Proof.
  intros R Ht. assert (wp (getAncestors t) (λ s w', w' = w ∧ ∀ b, b ∈ s ↔ tc (p_edge A) b t) w) as H.
  { unfold getAncestors. apply wp_bind, wp_gets. eapply wp_mono.
    - apply (closure_spec _ (flip (p_edge A))) with A; [done..| |].
      + intros t' n x Hn Hx. destruct (parentSets_run w A t' n x R Hn Hx) as (l & ? & _ & _ & ?). eauto.
      + intros a b Hab. by apply (p_edge_values w A b a).
    - intros s w' [-> Hs]. split; [done|]. intros b. by rewrite Hs, tc_flip. }
  apply wp_ok in H as (w' & s & ? & -> & ?). eauto.
Qed.
End queries.

(** ** The depth order *)

Section depth.
Context {IO : IterOrder} {BVc : BitMatrix.BitVector}.

(** every edge leaves one set *)
Lemma sum_out_edges_map (m : gmap Ptr AEdge) (l : list Ptr) : NoDup l →
  sum_list_with (λ t, size (filter (λ p, a_src p.2 = t) m)) l ≤ size m.
Proof.
  intros Hl. induction m as [|e x m Hm IH] using map_ind.
  - rewrite map_size_empty. clear Hl. induction l as [|t l IH]; simpl; [done|].
    rewrite map_filter_empty, map_size_empty. lia.
  - rewrite map_size_insert_None by done.
    assert (∀ t, size (filter (λ p, a_src p.2 = t) (<[e:=x]> m)) =
                 (if decide (a_src x = t) then 1 else 0) + size (filter (λ p, a_src p.2 = t) m)) as Hs.
    { intros t. case_decide.
      - rewrite map_filter_insert_True by done. rewrite map_size_insert_None; [done|].
        apply map_lookup_filter_None. auto.
      - rewrite map_filter_insert_False by done. by rewrite delete_id. }
    assert (∀ l, sum_list_with (λ t, size (filter (λ p, a_src p.2 = t) (<[e:=x]> m))) l =
      sum_list_with (λ t, if decide (a_src x = t) then 1 else 0) l +
      sum_list_with (λ t, size (filter (λ p, a_src p.2 = t) m)) l) as ->.
    { clear Hl. intros l'. induction l' as [|t l' IHl]; simpl; [done|]. rewrite Hs, IHl. lia. }
    assert (sum_list_with (λ t, if decide (a_src x = t) then 1 else 0) l ≤ 1); [|lia].
    clear -Hl. induction Hl as [|t l Ht Hl IH]; simpl; [lia|]. case_decide; [|lia]. subst.
    assert (sum_list_with (λ t, if decide (a_src x = t) then 1 else 0) l = 0) as ->; [|lia].
    clear -Ht. induction l as [|t l IH]; simpl; [done|]. rewrite decide_False by set_solver.
    apply IH. set_solver.
Qed.

(** ** One step of the loop *)

(** the number of edges that leave a set *)
Definition out_degree (A : AGraph) (t : Ptr) : nat := size (out_edges A t).

(** every set in [ord] comes after its parents *)
Definition parents_first (A : AGraph) (ord : list Ptr) : Prop :=
  ∀ j a b, ord !! j = Some b → p_edge A a b → ∃ i, i < j ∧ ord !! i = Some a.

Record depth_inv (A : AGraph) (q : list Ptr) (enc : gset Ptr) (ord : list Ptr) : Prop := {
  di_ord b : b ∈ ord ↔ b ∈ enc;
  di_nodup : NoDup ord;
  di_queue b : b ∈ q → b ∈ a_values A;
  di_values b : b ∈ enc → b ∈ a_values A;
  di_first : parents_first A ord;
  di_ready c : c ∈ a_values A → (∀ p, p_edge A p c → p ∈ enc) → c ∈ enc ∨ c ∈ q
}.

Definition depth_measure (A : AGraph) (q : list Ptr) (enc : gset Ptr) : nat :=
  length q + sum_list_with (out_degree A) (elements (a_values A ∖ enc)).

Lemma depth_inv_next A q enc ord t (children : list Ptr) :
  depth_inv A (t :: q) enc ord → t ∉ enc → (∀ p, p_edge A p t → p ∈ enc) →
  (∀ b, b ∈ children ↔ p_edge A t b) → (∀ b, p_edge A t b → b ∈ a_values A) →
  depth_inv A (q ++ children) ({[t]} ∪ enc) (ord ++ [t]).
Proof.
  intros [D1 D2 D3 D4 D5 D6] Ht Hp Hc Hv. split.
  - intros b. rewrite elem_of_snoc, elem_of_union, elem_of_singleton, D1. tauto.
  - apply NoDup_app. split; [done|]. split; [|apply NoDup_singleton].
    intros x Hx Hxt. apply list_elem_of_singleton in Hxt as ->. by apply Ht, D1.
  - intros b Hb. apply elem_of_app in Hb as [Hb|Hb]; [apply D3; set_solver|]. by apply Hv, Hc.
  - intros b Hb. apply elem_of_union in Hb as [Hb|Hb]; [|auto].
    apply elem_of_singleton in Hb as ->. apply D3. set_solver.
  - intros j a b Hj Hab. destruct (decide (j < length ord)) as [Hlt|Hlt].
    + rewrite lookup_app_l in Hj by done. destruct (D5 j a b Hj Hab) as (i & Hi & Hia).
      exists i. split; [done|]. rewrite lookup_app_l by lia. done.
    + rewrite lookup_app_r in Hj by lia.
      destruct (j - length ord) as [|k] eqn:Hk; [|done].
      injection Hj as <-. apply Hp, D1, list_elem_of_lookup in Hab as [i Hi].
      pose proof (lookup_lt_Some _ _ _ Hi). exists i. split; [lia|]. by rewrite lookup_app_l by lia.
  - intros c Hcv Hpar. destruct (decide (c = t)) as [->|Hct]; [left; set_solver|].
    destruct (decide (c ∈ children)) as [He|He].
    + right. apply elem_of_app. by right.
    + destruct (D6 c Hcv) as [H|H]; [|set_solver|].
      * intros p Hpc. specialize (Hpar p Hpc). apply elem_of_union in Hpar as [Hpar|]; [|done].
        apply elem_of_singleton in Hpar as ->. by destruct He; apply Hc.
      * right. apply elem_of_app. left. set_solver.
Qed.

Lemma sum_list_with_perm {X} (g : X → nat) l l' : l ≡ₚ l' → sum_list_with g l = sum_list_with g l'.
Proof. induction 1; simpl; lia. Qed.

Lemma depth_measure_next A q enc t children :
  t ∈ a_values A → t ∉ enc → length children = out_degree A t →
  depth_measure A (q ++ children) ({[t]} ∪ enc) < depth_measure A (t :: q) enc.
Proof.
  intros Ht Hn Hl. unfold depth_measure. rewrite length_app. simpl.
  assert (a_values A ∖ enc = {[t]} ∪ (a_values A ∖ ({[t]} ∪ enc))) as E.
  { apply set_eq. intros x. destruct (decide (x = t)) as [->|]; set_solver. }
  rewrite E. generalize (a_values A ∖ ({[t]} ∪ enc)), (elements_union_singleton
    (a_values A ∖ ({[t]} ∪ enc)) t ltac:(set_solver)). intros X HX.
  rewrite (sum_list_with_perm _ _ _ HX). simpl. lia.
Qed.

Lemma depthStep_spec w A q enc ord : p_rep w A → depth_inv A q enc ord →
  wp (depthStep (q, enc, ord)) (λ r w', w' = w ∧
    match r with
    | inl (q', enc', ord') => depth_inv A q' enc' ord' ∧ depth_measure A q' enc' < depth_measure A q enc
    | inr l => q = [] ∧ l = ord
    end) w.
Proof.
  intros R D. destruct q as [|t q]; [done|]. cbn [depthStep].
  assert (t ∈ a_values A) as Ht by (apply (di_queue _ _ _ _ D); set_solver).
  destruct (rep_node _ _ _ _ R Ht) as (n & x & Hn & Hin & Hx & HT).
  apply wp_bind. unfold wp at 1. erewrite on_p_run; [|by apply fetchNode_present; [apply R|]|done].
  destruct (decide (t ∈ enc)) as [He|He].
  { apply wp_ret. split; [done|]. split; [|unfold depth_measure; simpl; lia].
    destruct D as [D1 D2 D3 D4 D5 D6]. split; try done.
    - intros b Hb. apply D3. set_solver.
    - intros c Hc Hp. destruct (D6 c Hc Hp); set_solver. }
  apply wp_bind, wp_ret, wp_bind. unfold wp at 1. rewrite (on_p_run _ w w x); [| |done].
  2:{ unfold on_heap, zoom, load_node. simpl. by rewrite Hx. }
  destruct (parentSets_run w A t n x R Hn Hx) as (parents & Hpar & Hplen & Hdeg & Hp).
  apply wp_bind. unfold wp at 1. rewrite Hpar.
  destruct (negb (bool_decide (inDegree x = 0)) && existsb (λ p, bool_decide (p ∉ enc)) parents) eqn:Hb.
  - apply andb_true_iff in Hb as [_ (p & Hpin & Hpe)%existsb_exists].
    apply bool_decide_eq_true in Hpe. apply list_elem_of_In, Hp in Hpin.
    apply wp_ret. split; [done|]. split; [|unfold depth_measure; simpl; lia].
    destruct D as [D1 D2 D3 D4 D5 D6]. split; try done.
    + intros b Hb. apply D3. set_solver.
    + intros c Hc Hpc. destruct (D6 c Hc Hpc) as [?|Hcq]; [auto|].
      apply elem_of_cons in Hcq as [->|?]; [|auto]. by destruct Hpe; apply Hpc.
  - assert (∀ p, p_edge A p t → p ∈ enc) as Hall.
    { intros p Hpt. destruct (decide (p ∈ enc)) as [|Hnp]; [done|].
      apply Hp in Hpt. apply andb_false_iff in Hb as [Hb|Hb].
      - apply negb_false_iff, bool_decide_eq_true in Hb.
        destruct parents; [by apply elem_of_nil in Hpt|simpl in *; lia].
      - assert (existsb (λ p, bool_decide (p ∉ enc)) parents = true); [|congruence].
        apply existsb_exists. exists p. split; [by apply list_elem_of_In|by apply bool_decide_eq_true]. }
    destruct (childSets_run w A t n x R Hn Hx) as (children & Hch & Hclen & Hc).
    apply wp_bind. unfold wp at 1. rewrite Hch. apply wp_ret. split; [done|]. split.
    + apply (depth_inv_next A q enc ord t); [done..|]. intros b Hb'. by apply (p_edge_values w A t b).
    + by apply depth_measure_next.
Qed.

(** The loop ends with the sets whose ancestors are all reachable in parent order. *)
Lemma depth_loop w A roots fuel : p_rep w A →
  (∀ b, b ∈ roots → b ∈ a_values A) →
  (∀ c, c ∈ a_values A → (∀ p, ¬ p_edge A p c) → c ∈ roots) →
  length roots + size (a_edges A) < fuel →
  wp (whileM fuel depthStep (roots, ∅, [])) (λ ord w', w' = w ∧ ∃ enc, depth_inv A [] enc ord) w.
Proof.
  intros R Hr Hroots Hf.
  apply (wp_whileM _ (λ st w', w' = w ∧ depth_inv A st.1.1 st.1.2 st.2)
                     (λ st _, depth_measure A st.1.1 st.1.2)).
  - split; [done|]. split; simpl; try done.
    + intros b. rewrite elem_of_nil. set_solver.
    + constructor.
    + intros c Hc Hp. right. apply Hroots; [done|]. intros p Hpc. specialize (Hp p Hpc). set_solver.
  - intros [[q enc] ord] w' [-> D]. simpl in D. eapply wp_mono; [by apply depthStep_spec|].
    intros [[[q' enc'] ord']|l] w' [-> H]; simpl.
    + destruct H. done.
    + destruct H as [-> ->]. eauto.
  - unfold depth_measure. simpl.
    pose proof (sum_out_edges_map (a_edges A) (elements (a_values A ∖ ∅)) (NoDup_elements _)) as Hs.
    unfold out_degree, out_edges. lia.
Qed.

(** On an acyclic graph every set is reached, on a cyclic one some set is not. *)
Lemma depth_complete w A enc ord : p_rep w A → depth_inv A [] enc ord → acyclic A →
  ∀ c, c ∈ a_values A → c ∈ ord.
Proof.
  intros R D Hac c Hc. destruct (decide (c ∈ ord)) as [|Hn]; [done|]. exfalso.
  destruct (finite_no_source_cycle _ (p_edge A) (a_values A ∖ enc) eq_refl) as (x & _ & Hx).
  - rewrite (di_ord _ _ _ _ D) in Hn. set_solver.
  - intros u Hu. apply elem_of_difference in Hu as [Hu Hue].
    destruct (Exists_dec (λ p, p ∉ enc ∧ u ∈ elements (list_to_set (a_dst <$>
      (map_to_list (out_edges A p)).*2) : gset Ptr)) (elements (a_values A))) as [He|He].
    + apply Exists_exists in He as (p & Hpv & Hpe & Hpu). exists p.
      apply elem_of_elements in Hpv. split; [set_solver|].
      apply elem_of_elements, elem_of_list_to_set, list_elem_of_fmap in Hpu as (y & -> & Hy).
      apply list_elem_of_fmap in Hy as ([e y'] & -> & Hy%elem_of_map_to_list).
      apply map_lookup_filter_Some in Hy as [Hy Hs]. simpl in *. exists e, y'. done.
    + exfalso. destruct (di_ready _ _ _ _ D u Hu) as [|Hq]; [|done|by apply elem_of_nil in Hq].
      intros p Hp. destruct (decide (p ∈ enc)) as [|Hpe]; [done|]. destruct He.
      apply Exists_exists. exists p. split; [apply elem_of_elements; by apply (p_edge_values w A p u)|].
      split; [done|]. destruct Hp as (e & y & Hy & Hs & Hd).
      apply elem_of_elements, elem_of_list_to_set, list_elem_of_fmap. exists y. split; [done|].
      apply list_elem_of_fmap. exists (e, y). split; [done|]. apply elem_of_map_to_list.
      by apply map_lookup_filter_Some.
  - by destruct (Hac x).
Qed.

Lemma parents_first_tc A ord a b j : parents_first A ord → tc (p_edge A) a b →
  ord !! j = Some b → ∃ i, i < j ∧ ord !! i = Some a.
Proof.
  intros Hp Htc. revert j. induction Htc as [a b Hab|a b c Hab _ IH]; intros j Hj; [by eapply Hp|].
  destruct (IH j Hj) as (i & Hi & Hib). destruct (Hp i a b Hib Hab) as (k & Hk & Hka).
  exists k. split; [lia|done].
Qed.

Lemma depth_cyclic A enc ord x : depth_inv A [] enc ord → tc (p_edge A) x x → x ∉ ord.
Proof.
  intros D Hx [j Hj]%list_elem_of_lookup.
  destruct (parents_first_tc A ord x x j (di_first _ _ _ _ D) Hx Hj) as (i & Hi & Hxi).
  pose proof (NoDup_lookup _ _ _ _ (di_nodup _ _ _ _ D) Hj Hxi). lia.
Qed.

(** without sources the loop has nothing to do *)
Lemma depth_inv_no_roots A :
  (∀ c, c ∈ a_values A → (∀ p, ¬ p_edge A p c) → c ∈ ([] : list Ptr)) → depth_inv A [] ∅ [].
Proof.
  intros Hroots. split.
  - intros b. rewrite elem_of_nil, elem_of_empty. done.
  - constructor.
  - intros b Hb. by apply elem_of_nil in Hb.
  - intros b Hb. by apply elem_of_empty in Hb.
  - intros j a b Hj. done.
  - intros c Hc Hp. exfalso. destruct (not_elem_of_nil c). apply Hroots; [done|].
    intros p Hpc. by apply Hp, elem_of_empty in Hpc.
Qed.

(** the run of the method, up to its two assertions *)
Lemma getDepthOrderedSets_run w A : p_rep w A →
  ∃ (roots : list Ptr) enc ord, depth_inv A [] enc ord ∧
    (∀ b, b ∈ roots → b ∈ a_values A) ∧ (roots = [] → depth_inv A [] ∅ []) ∧
    getDepthOrderedSets w =
      if decide (roots = []) then Fail AssertionFailure
      else if decide (length ord = size (a_values A)) then Ok (w, ord) else Fail AssertionFailure.
Proof.
  intros R. pose proof (rep_wf _ _ _ R) as W.
  destruct (getTopLevelNodes_run _ _ false W) as (s & Hs & Hin).
  set (T := λ n, match hnodes (pw_heap w) !! n with Some x => theT x | None => 1%positive end).
  assert (∀ n, n ∈ allNodes (p_graph (pw_part w)) → node_of (p_graph (pw_part w)) (T n) n ∧
    on_p (on_heap (load_node n)) w = Ok (w, match hnodes (pw_heap w) !! n with Some x => x
                                            | None => mkNode 0 1 ∅ ∅ end) ∧
    T n = getT match hnodes (pw_heap w) !! n with Some x => x | None => mkNode 0 1 ∅ ∅ end) as HT.
  { intros n Hn. destruct (wf_node _ _ W n Hn) as (x & Hx & Hno). unfold T. rewrite Hx.
    split_and!; [done| |done]. apply on_p_run; [|done].
    unfold on_heap, zoom, load_node. simpl. by rewrite Hx. }
  assert (∀ b, b ∈ T <$> visit s → b ∈ a_values A) as Hrv.
  { intros b (n & -> & Hn%elem_of_visit%Hin)%list_elem_of_fmap.
    destruct Hn as [Hn _]. apply (rep_values _ _ _ _ R). exists n. by apply HT. }
  assert (∀ c, c ∈ a_values A → (∀ p, ¬ p_edge A p c) → c ∈ T <$> visit s) as Hroots.
  { intros c Hc Hno. destruct (rep_node _ _ _ _ R Hc) as (n & x & Hn & Hnin & Hx & HTc).
    apply list_elem_of_fmap. exists n. split; [unfold T; by rewrite Hx, HTc|].
    apply elem_of_visit, Hin. split; [done|]. split; [done|].
    intros e y sv He Hy Hto Hsv. exfalso. apply (Hno sv).
    destruct (edge_view_live _ _ e y W He Hy) as (xs & xd & Hxs & Hxd & _ & _ & Hv).
    exists e. eexists. rewrite (rep_edges _ _ _ R). split; [exact Hv|]. simpl.
    rewrite Hto in Hxd. split; [by eapply node_of_inv|congruence]. }
  assert (length (T <$> visit s) + size (a_edges A) <
          S (length (T <$> visit s) + numEdges (p_graph (pw_part w)))) as Hfuel.
  { rewrite (numEdges_edges _ _ _ R). apply Nat.lt_succ_diag_r. }
  destruct (proj1 (wp_ok _ _ _) (depth_loop w A _ _ R Hrv Hroots Hfuel)) as (w' & ord & Hrun & -> & enc & D).
  exists (T <$> visit s), enc, ord. split; [done|]. split; [done|]. split.
  { intros E. rewrite E in Hroots. by apply depth_inv_no_roots. }
  assert (mapM (λ rootNode, let* n := on_p (on_heap (load_node rootNode)) in ret (getT n)) (visit s) w =
          Ok (w, T <$> visit s)) as Hmap.
  { apply mapM_run. intros n Hn%elem_of_visit%Hin. destruct Hn as [Hn _].
    destruct (HT n Hn) as (_ & Hl & HTn). unfold bind. rewrite Hl. by rewrite HTn. }
  unfold getDepthOrderedSets. rewrite (bind_ok _ _ _ _ _ (on_p_run _ w w s Hs eq_refl)).
  rewrite <- (length_visit s).
  destruct (decide (T <$> visit s = [])) as [E|E].
  - apply fmap_nil_inv in E. by rewrite E.
  - rewrite bool_decide_eq_true_2 by (intros H0; apply E; destruct (visit s); [done|discriminate H0]).
    rewrite (bind_ok _ _ w w tt eq_refl), (bind_ok _ _ _ _ _ Hmap), (bind_ok _ _ w w _ eq_refl),
      (bind_ok _ _ _ _ _ Hrun), (numNodes_values _ _ _ R).
    case_decide as Hd; [by rewrite bool_decide_eq_true_2|by rewrite bool_decide_eq_false_2].
Qed.

Lemma depth_length A enc ord : depth_inv A [] enc ord →
  length ord = size (a_values A) ↔ ∀ c, c ∈ a_values A → c ∈ ord.
Proof.
  intros D.
  assert (size (list_to_set ord : gset Ptr) = length ord) as Hs.
  { apply size_list_to_set, D. }
  assert ((list_to_set ord : gset Ptr) ⊆ a_values A) as Hsub.
  { intros x Hx%elem_of_list_to_set. apply (di_values _ _ _ _ D). by apply (di_ord _ _ _ _ D). }
  rewrite <- Hs. split.
  - intros E c Hc. destruct (decide (c ∈ ord)) as [|Hn]; [done|]. exfalso.
    pose proof (size_subseteq_lt _ _ c Hsub Hc ltac:(by rewrite elem_of_list_to_set)). lia.
  - intros H. f_equal. apply set_eq. intros x. rewrite elem_of_list_to_set. split; [|auto].
    intros Hx. apply Hsub. by apply elem_of_list_to_set.
Qed.
End depth.

(** (C22) On a partition graph without cycles, getDepthOrderedSets returns every set once,
    each after all the sets it depends on; on one with a cycle, and on an empty one, an
    assertion fails. *)
Theorem getDepthOrderedSets_spec `{IO : IterOrder, BVc : BitMatrix.BitVector} w A : p_rep w A →
  (acyclic A → a_values A ≠ ∅ →
     ∃ l, getDepthOrderedSets w = Ok (w, l) ∧ NoDup l ∧ (∀ t, t ∈ l ↔ t ∈ a_values A) ∧
          parents_first A l) ∧
  (∀ x, tc (p_edge A) x x → getDepthOrderedSets w = Fail AssertionFailure) ∧
  (a_values A = ∅ → getDepthOrderedSets w = Fail AssertionFailure).
Proof.
  intros R. destruct (getDepthOrderedSets_run w A R) as (roots & enc & ord & D & Hrv & Hroots & ->).
  split; [|split].
  - intros Hac Hne. rewrite decide_False.
    2:{ intros Hr. apply set_choose_L in Hne as [c Hc].
        by apply (depth_complete w A ∅ [] R (Hroots Hr) Hac), elem_of_nil in Hc. }
    pose proof (depth_complete w A enc ord R D Hac) as Hall.
    rewrite decide_True by (by apply (depth_length A enc)).
    exists ord. split_and!; [done|apply D| |apply D].
    intros t. split; [|auto]. intros Ht. apply (di_values _ _ _ _ D). by apply (di_ord _ _ _ _ D).
  - intros x Hx. case_decide; [done|]. rewrite decide_False; [done|].
    rewrite (depth_length A enc ord D). intros Hall.
    apply (depth_cyclic A enc ord x D Hx), Hall. by apply (p_tc_values w A x x).
  - intros Hv. rewrite decide_True; [done|]. destruct roots as [|b roots]; [done|].
    specialize (Hrv b ltac:(set_solver)). set_solver.
Qed.

(** ** Ancestors *)

Section ancestors.
Context {IO : IterOrder} {BVc : BitMatrix.BitVector}.

(** Acyclic edges go up in some ranking of the sets. *)
Lemma acyclic_rank w A : p_rep w A → acyclic A →
  ∃ rank : Ptr → nat, (∀ a b, p_edge A a b → rank a < rank b) ∧
    ∀ t, t ∈ a_values A → rank t < size (a_values A).
Proof.
  intros R Hac. destruct (getDepthOrderedSets_run w A R) as (roots & enc & ord & D & _).
  pose proof (depth_complete w A enc ord R D Hac) as Hall.
  pose proof (proj2 (depth_length A enc ord D) Hall) as Hlen.
  set (rank := λ t, match list_find (eq t) ord with Some (i, _) => i | None => 0 end).
  assert (∀ t, t ∈ a_values A → ord !! rank t = Some t) as Hrank.
  { intros t Ht. destruct (list_find_elem_of (eq t) ord t (Hall t Ht) eq_refl) as [[i y] Hi].
    unfold rank. rewrite Hi. by apply list_find_Some in Hi as (Hi & <- & _). }
  exists rank. split.
  - intros a b Hab. destruct (p_edge_values w A a b R Hab) as [Ha Hb].
    destruct (di_first _ _ _ _ D _ _ _ (Hrank b Hb) Hab) as (i & Hi & Hia).
    by rewrite (NoDup_lookup _ _ _ _ (di_nodup _ _ _ _ D) (Hrank a Ha) Hia).
  - intros t Ht. rewrite <- Hlen. eapply lookup_lt_Some. by apply Hrank.
Qed.

(** the paths backwards from a set are fewer than this *)
Definition path_bound (A : AGraph) : nat := S (size (a_edges A)) ^ size (a_values A).

Lemma sum_parents_bound (rank : Ptr → nat) (M r : nat) (l : list Ptr) :
  length l ≤ M → (∀ p, p ∈ l → rank p < r) →
  sum_list_with (λ q, S M ^ rank q) l < S M ^ r.
Proof.
  intros Hl Hr. destruct r as [|r].
  - destruct l as [|p l]; [simpl; lia|]. specialize (Hr p ltac:(set_solver)). lia.
  - pose proof (sum_list_with_bound (λ q, S M ^ rank q) l (S M ^ r)) as Hb.
    assert (sum_list_with (λ q, S M ^ rank q) l ≤ length l * S M ^ r).
    { apply Hb. intros p Hp. apply Nat.pow_le_mono_r; [done|]. specialize (Hr p Hp). lia. }
    pose proof (Nat.pow_nonzero (S M) r ltac:(done)). rewrite Nat.pow_succ_r'. nia.
Qed.

Lemma sum_list_with_app_eq {X} (g : X → nat) l l' :
  sum_list_with g (l ++ l') = sum_list_with g l + sum_list_with g l'.
Proof. induction l; simpl; lia. Qed.

Lemma isAncestor_run w A parent t fuel : p_rep w A → acyclic A → t ∈ a_values A →
  path_bound A < fuel →
  ∃ b, isAncestor fuel parent t w = Ok (w, b) ∧ (b = true ↔ tc (p_edge A) parent t).
Proof.
  intros R Hac Ht Hf. destruct (acyclic_rank w A R Hac) as (rank & Hrank & Hbound).
  assert (wp (isAncestor fuel parent t) (λ b w', w' = w ∧ (b = true ↔ tc (p_edge A) parent t)) w) as H.
  { unfold isAncestor. apply (wp_whileM _
      (λ q w', w' = w ∧ (∀ b, b ∈ q → b ∈ a_values A ∧ rtc (p_edge A) b t) ∧
         (tc (p_edge A) parent t → ∃ b, b ∈ q ∧ tc (p_edge A) parent b))
      (λ q _, sum_list_with (λ b, S (size (a_edges A)) ^ rank b) q)).
    - split; [done|]. split.
      + intros b Hb. apply list_elem_of_singleton in Hb as ->. by split.
      + intros Htc. exists t. split; [by apply list_elem_of_singleton|done].
    - intros q w' (-> & Hq & Hfind). destruct q as [|b q]; cbn [ancestorStep].
      + apply wp_ret. split; [done|]. split; [done|]. intros Htc.
        destruct (Hfind Htc) as (b & Hb & _). by apply elem_of_nil in Hb.
      + destruct (Hq b ltac:(set_solver)) as [Hb Hbt].
        destruct (node_of_set_run w A b R Hb) as (n & x & Hrun & Hn & Hx & Hload).
        destruct (parentSets_run w A b n x R Hn Hx) as (parents & Hpar & Hplen & _ & Hp).
        apply wp_bind. unfold wp at 1. rewrite Hrun. apply wp_bind. unfold wp at 1. rewrite Hload.
        apply wp_bind. unfold wp at 1. rewrite Hpar.
        destruct (existsb _ parents) eqn:He.
        * apply wp_ret. split; [done|]. split; [|done]. intros _.
          apply existsb_exists in He as (p & Hpin & Hpp). apply bool_decide_eq_true in Hpp as ->.
          apply list_elem_of_In, Hp in Hpin. eapply tc_rtc_r; [by apply tc_once|done].
        * assert (¬ p_edge A parent b) as Hno.
          { intros Hpb. apply Hp in Hpb. apply not_true_iff_false in He. apply He, existsb_exists.
            exists parent. split; [by apply list_elem_of_In|by apply bool_decide_eq_true]. }
          apply wp_ret. split; [split; [done|split]|].
          -- intros c Hc. apply elem_of_app in Hc as [Hc|Hc]; [apply Hq; set_solver|].
             apply Hp in Hc. split; [by apply (p_edge_values w A c b)|]. by eapply rtc_l.
          -- intros Htc. destruct (Hfind Htc) as (c & Hc & Hpc).
             apply elem_of_cons in Hc as [->|Hc].
             2:{ exists c. split; [apply elem_of_app; by left|done]. }
             apply tc_r_inv in Hpc as [|(d & Hpd & Hdb)]; [done|].
             exists d. split; [apply elem_of_app; right; by apply Hp|done].
          -- rewrite sum_list_with_app_eq. simpl.
             pose proof (sum_parents_bound rank (size (a_edges A)) (rank b) parents) as Hs.
             assert (length parents ≤ size (a_edges A)).
             { rewrite Hplen. unfold in_edges. rewrite <- !size_dom. apply subseteq_size, dom_filter_subseteq. }
             specialize (Hs ltac:(done) ltac:(intros p Hpp; apply Hrank; by apply Hp)). simpl in Hs. lia.
    - simpl. pose proof (Nat.pow_le_mono_r (S (size (a_edges A))) (rank t) (size (a_values A))) as Hpow.
      specialize (Hpow ltac:(done) ltac:(apply Nat.lt_le_incl; by apply Hbound)).
      unfold path_bound in Hf. simpl in *. lia. }
  apply wp_ok in H as (w' & b & ? & -> & ?). eauto.
Qed.
End ancestors.

(** ** Merging two sets *)

(** the edges after [a] and [b] have become one set, which keeps no edge to itself *)
Definition collapse (a b x : Ptr) : Ptr := if decide (x = b) then a else x.
Definition merged_edge (R : relation Ptr) (a b : Ptr) (x y : Ptr) : Prop :=
  x ≠ y ∧ ∃ u v, R u v ∧ collapse a b u = x ∧ collapse a b v = y.

Section merged.
Context (R : relation Ptr) (a b : Ptr).

Lemma merged_path u v : tc R u v → rtc (merged_edge R a b) (collapse a b u) (collapse a b v).
Proof.
  assert (∀ u v, R u v → rtc (merged_edge R a b) (collapse a b u) (collapse a b v)) as H1.
  { intros x y Hxy. destruct (decide (collapse a b x = collapse a b y)) as [->|Hn]; [done|].
    apply rtc_once. split; [done|]. eauto. }
  induction 1 as [u v H|u v t H _ IH]; [by apply H1|]. etrans; [by apply H1|done].
Qed.

Lemma merged_cycle_intro u z v : collapse a b u = a → collapse a b v = a → z ≠ a → z ≠ b →
  tc R u z → tc R z v → tc (merged_edge R a b) a a.
Proof.
  intros Eu Ev Hza Hzb Huz Hzv.
  pose proof (merged_path _ _ Huz) as H1. pose proof (merged_path _ _ Hzv) as H2.
  assert (collapse a b z = z) as Ez by (unfold collapse; by rewrite decide_False).
  rewrite Ez, Eu in H1. rewrite Ez, Ev in H2.
  apply rtc_tc in H1 as [->|H1]; [done|]. by eapply tc_rtc_r.
Qed.

(** a path of the merged graph that ends at the merged set *)
Lemma merged_to_set x y : rtc (merged_edge R a b) x y → x ≠ a → y = a →
  tc R x a ∨ tc R x b.
Proof.
  induction 1 as [x|x x' y (Hne & u & v & Huv & <- & <-) _ IH]; [done|].
  intros Hu ->. assert (collapse a b u = u) as Eu.
  { unfold collapse in *. by case_decide. }
  rewrite Eu in *. destruct (decide (collapse a b v = a)) as [Ev|Ev].
  - unfold collapse in Ev. case_decide; subst; [right|left]; by apply tc_once.
  - destruct (IH Ev eq_refl) as [IH'|IH']; (assert (collapse a b v = v) as Ev' by (unfold collapse in *; by case_decide));
      rewrite Ev' in IH'; [left|right]; by eapply tc_l.
Qed.

(** a path of the merged graph is one of the graph, or it meets the merged set *)
Lemma merged_through x y : tc (merged_edge R a b) x y →
  tc R x y ∨ (rtc (merged_edge R a b) x a ∧ rtc (merged_edge R a b) a y).
Proof.
  assert (∀ x y, merged_edge R a b x y → R x y ∨ x = a ∨ y = a) as Hstep.
  { intros x' y' (_ & u & v & Huv & <- & <-). unfold collapse.
    destruct (decide (u = b)), (decide (v = b)); auto. }
  induction 1 as [x y H|x y z H Htc [IH|[IH1 IH2]]].
  - destruct (Hstep x y H) as [?|[->| ->]]; [left; by apply tc_once|right..];
      split; try done; by apply rtc_once.
  - destruct (Hstep x y H) as [?|[->| ->]]; [left; by eapply tc_l|right..].
    + split; [done|]. eapply rtc_l; [done|]. by apply tc_rtc.
    + split; [by apply rtc_once|]. by apply tc_rtc.
  - right. split; [by eapply rtc_l|done].
Qed.

Lemma merged_cycle_elim : (∀ x, ¬ tc R x x) → (∃ x, tc (merged_edge R a b) x x) →
  ∃ z, (tc R a z ∧ tc R z b) ∨ (tc R b z ∧ tc R z a).
Proof.
  intros Hac [x Hx].
  assert (tc (merged_edge R a b) a a) as Ha.
  { destruct (merged_through _ _ Hx) as [H|[H1 H2]]; [by destruct (Hac x)|].
    apply rtc_tc in H2 as [->|H2]; [done|]. by eapply tc_rtc_r. }
  inversion Ha as [? ? (Hne & _)|? z ? Hfirst Hrest]; subst; [done|].
  destruct Hfirst as (Hne & u & v & Huv & Hu & Hv).
  assert (v = z) as ->.
  { unfold collapse in Hv. case_decide; [by subst|done]. }
  destruct (merged_to_set z a (tc_rtc _ _ Hrest) ltac:(done) eq_refl) as [Hz|Hz];
    (unfold collapse in Hu; case_decide as Hub; subst); exists z.
  - right. split; [by apply tc_once|done].
  - exfalso. apply (Hac a). by eapply tc_l.
  - exfalso. apply (Hac b). by eapply tc_l.
  - left. split; [by apply tc_once|done].
Qed.
End merged.

Lemma size_pos_iff (X : gset Ptr) : 0 < size X ↔ ∃ z, z ∈ X.
Proof.
  split; [apply size_pos_elem_of|]. intros [z Hz].
  destruct (decide (size X = 0)) as [H0|]; [|lia]. apply size_empty_inv in H0. set_solver.
Qed.

(** (C23) On a partition graph without cycles, isMergeIntroducingCycle answers whether
    merging the two sets would put a cycle in the graph; getCycleIntroducedByMerging
    returns the sets of that cycle, or the pair when they are unrelated. *)
Theorem isMergeIntroducingCycle_spec `{IO : IterOrder, BVc : BitMatrix.BitVector} w A a b fuel :
  p_rep w A → acyclic A → a ∈ a_values A → b ∈ a_values A → path_bound A < fuel →
  (∃ r, isMergeIntroducingCycle fuel a b w = Ok (w, r) ∧
     (r = true ↔ ∃ x, tc (merged_edge (p_edge A) a b) x x)) ∧
  (∃ s, getCycleIntroducedByMerging fuel a b w = Ok (w, s) ∧
     ∀ z, z ∈ s ↔ z = a ∨ z = b ∨ (tc (p_edge A) a z ∧ tc (p_edge A) z b) ∨
                  (tc (p_edge A) b z ∧ tc (p_edge A) z a)).
Proof.
  intros R Hac Ha Hb Hf. set (E := p_edge A).
  assert (∀ x y z, tc E x y → tc E y z → tc E x z) as Htrans by (intros *; apply tc_transitive).
  destruct (isAncestor_run w A a b fuel R Hac Hb Hf) as (ab & Hrun1 & Hab).
  destruct (isAncestor_run w A b a fuel R Hac Ha Hf) as (ba & Hrun2 & Hba).
  assert (∃ pc, getParentChildPair fuel a b w = Ok (w, pc) ∧
    match pc with
    | Some (p, c) => ((p = a ∧ c = b) ∨ (p = b ∧ c = a)) ∧ tc E p c
    | None => ¬ tc E a b ∧ ¬ tc E b a
    end) as (pc & Hpc & Hspec).
  { unfold getParentChildPair, bind. rewrite Hrun1. destruct ab.
    - exists (Some (a, b)). split; [done|]. split; [auto|]. by apply Hab.
    - rewrite Hrun2. destruct ba.
      + exists (Some (b, a)). split; [done|]. split; [auto|]. by apply Hba.
      + exists None. split; [done|]. unfold E. rewrite <- Hab, <- Hba. split; discriminate. }
  assert ((∃ x, tc (merged_edge E a b) x x) ↔ ∃ z, (tc E a z ∧ tc E z b) ∨ (tc E b z ∧ tc E z a)) as Hcyc.
  { split; [by apply merged_cycle_elim|].
    assert (collapse a b a = a ∧ collapse a b b = a) as [Ea Eb].
    { unfold collapse. split; [by case_decide|by rewrite decide_True]. }
    intros (z & Hz). exists a.
    assert (z ≠ a ∧ z ≠ b) as [Hza Hzb].
    { split; intros ->; destruct Hz as [[? ?]|[? ?]];
        [by apply (Hac a)|by apply (Hac a)|by apply (Hac b)|by apply (Hac b)]. }
    destruct Hz as [[H1 H2]|[H1 H2]];
      [by apply (merged_cycle_intro E a b a z b)|by apply (merged_cycle_intro E a b b z a)]. }
  unfold isMergeIntroducingCycle, getCycleIntroducedByMerging. fold E in Hcyc.
  rewrite !(bind_ok _ _ _ _ _ Hpc). fold E. setoid_rewrite Hcyc.
  destruct pc as [[p c]|].
  - destruct Hspec as [Hpair Hpcd].
    assert (p ∈ a_values A ∧ c ∈ a_values A) as [Hp Hc] by (destruct Hpair as [[-> ->]|[-> ->]]; done).
    destruct (getDescendants_run w A p R Hp) as (ds & Hds & Hdesc).
    destruct (getAncestors_run w A c R Hc) as (cs & Hcs & Hanc).
    rewrite !(bind_ok _ _ _ _ _ Hds), !(bind_ok _ _ _ _ _ Hcs).
    assert (∀ z, z ∈ getOverlap ds cs ↔ tc E p z ∧ tc E z c) as Hov.
    { intros z. unfold getOverlap. rewrite elem_of_filter, Hdesc, Hanc. fold E. tauto. }
    assert (∀ z, tc E p z ∧ tc E z c ↔ (tc E a z ∧ tc E z b) ∨ (tc E b z ∧ tc E z a)) as Hz.
    { intros z. assert (¬ (tc E c z ∧ tc E z p)) as Hno.
      { intros [H1 H2]. apply (Hac z). eapply Htrans; [apply H2|]. by eapply Htrans. }
      destruct Hpair as [[-> ->]|[-> ->]]; tauto. }
    split.
    + eexists. split; [done|]. rewrite bool_decide_eq_true. setoid_rewrite <- Hz. setoid_rewrite <- Hov.
      apply size_pos_iff.
    + eexists. split; [done|]. intros z. rewrite !elem_of_union, !elem_of_singleton, Hov, Hz.
      destruct Hpair as [[-> ->]|[-> ->]]; tauto.
  - destruct Hspec as [H1 H2].
    assert (∀ z, ¬ ((tc E a z ∧ tc E z b) ∨ (tc E b z ∧ tc E z a))) as Hno.
    { intros z [[Hx Hy]|[Hx Hy]]; [apply H1|apply H2]; by eapply Htrans. }
    split.
    + eexists. split; [done|]. split; [done|]. intros [z Hz]. by destruct (Hno z).
    + eexists. split; [done|]. intros z. rewrite elem_of_union, !elem_of_singleton.
      specialize (Hno z). tauto.
Qed.
