(* ===== verification/PartitionMerge.v ===== *)
(** * Merging the sets of a partition

    What [mergeSets] does to the sets, to the map and to the edges, and two ways in which
    the partitioner fails: the ancestor search on a cyclic graph and [mergePair]. *)
From S2P Require Import Prelude SCCIterator DGEdge DGNode DGBase DGInvariant DGSpec DGQuery.
From S2P Require BitMatrix.
From S2P Require Import SCCDAG Partition PartitionSpec PartitionQuery.

Section fails.
Context {IO : IterOrder} {BVc : BitMatrix.BitVector}.

(** ** The ancestor search *)

(** a set with an ancestor, or itself, on a cycle *)
Definition below_cycle (A : AGraph) (t : Ptr) : Prop :=
  ∃ x, tc (p_edge A) x x ∧ rtc (p_edge A) x t.

Lemma below_cycle_parent A t : below_cycle A t → ∃ p, p_edge A p t ∧ below_cycle A p.
Proof.
  intros (x & Hc & Hr). apply rtc_inv_r in Hr as [<-|(y & Hxy & Hyt)].
  - destruct (tc_r_inv _ _ _ Hc) as [H|(z & Hz & Hzx)]; [exists x|exists z]; (split; [done|]);
      exists x; (split; [done|]); [done|by apply tc_rtc].
  - exists y. split; [done|]. by exists x.
Qed.

Lemma ancestorStep_run w A parent b q : p_rep w A → b ∈ a_values A → ¬ p_edge A parent b →
  ∃ parents, ancestorStep parent (b :: q) w = Ok (w, inl (q ++ parents)) ∧
    ∀ a, a ∈ parents ↔ p_edge A a b.
Proof.
  intros R Hb Hno. destruct (node_of_set_run w A b R Hb) as (n & x & Hrun & Hn & Hx & Hload).
  destruct (parentSets_run w A b n x R Hn Hx) as (parents & Hpar & _ & _ & Hp).
  exists parents. split; [|done]. cbn [ancestorStep].
  rewrite (bind_ok _ _ _ _ _ Hrun), (bind_ok _ _ _ _ _ Hload), (bind_ok _ _ _ _ _ Hpar).
  destruct (existsb _ parents) eqn:He; [|done]. exfalso.
  apply existsb_exists in He as (p & Hpin & Hpp). apply bool_decide_eq_true in Hpp as ->.
  by apply Hno, Hp, list_elem_of_In.
Qed.
End fails.

(** (C24) The search of isAncestor does not mark the sets it has seen: when the target, or
    one of its ancestors, is on a cycle of the partition graph and the set looked for is
    not an ancestor, no number of iterations is enough. *)
Theorem isAncestor_diverges `{IO : IterOrder, BVc : BitMatrix.BitVector} w A parent t fuel :
  p_rep w A → t ∈ a_values A → below_cycle A t → ¬ tc (p_edge A) parent t →
  isAncestor fuel parent t w = Fail OutOfFuel.
Proof.
  intros R Ht Hcyc Hno. unfold isAncestor, whileM.
  assert (∀ q, (∀ b, b ∈ q → b ∈ a_values A ∧ rtc (p_edge A) b t) → (∃ b, b ∈ q ∧ below_cycle A b) →
    whileM fuel (ancestorStep parent) q w = Fail OutOfFuel) as Hloop.
  { induction fuel as [|fuel IH]; intros q Hq (c & Hc & Hbc); [done|].
    destruct q as [|b q]; [by apply elem_of_nil in Hc|].
    destruct (Hq b ltac:(set_solver)) as [Hb Hbt].
    destruct (ancestorStep_run w A parent b q R Hb) as (parents & Hrun & Hp).
    { intros Hpb. apply Hno. eapply tc_rtc_r; [by apply tc_once|done]. }
    unfold whileM. cbn [while fst snd]. rewrite Hrun. apply IH.
    - intros d Hd. apply elem_of_app in Hd as [Hd|Hd]; [apply Hq; set_solver|].
      apply Hp in Hd. split; [by apply (p_edge_values w A d b)|]. by eapply rtc_l.
    - apply elem_of_cons in Hc as [->|Hc].
      + destruct (below_cycle_parent A b Hbc) as (p & Hpb & Hpc). exists p.
        split; [apply elem_of_app; right; by apply Hp|done].
      + exists c. split; [apply elem_of_app; by left|done]. }
  apply Hloop.
  - intros b Hb. apply list_elem_of_singleton in Hb as ->. by split.
  - exists t. split; [by apply list_elem_of_singleton|done].
Qed.

(** ** mergePair *)

Section dead.
Context {IO : IterOrder} {SI : SCCIterator} {BVc : BitMatrix.BitVector}.

(** the operations of the graph only allocate new addresses *)
Definition below (x : Ptr) (s : GSt) : Prop := (x < nextAddr s.1)%positive.
Definition below_h (x : Ptr) (h : Heap) : Prop := (x < nextAddr h)%positive.

Lemma pres_on_heap x {A} (m : M Heap A) : preserves (below_h x) m → preserves (below x) (on_heap m).
Proof. intros Hm. apply pres_zoom. intros [h g] h' a Hrun Hs. by eapply (Hm h). Qed.

Lemma pres_load {A} (P : Heap → Prop) (f : Heap → option A) : preserves P (λ h, deref (f h) h).
Proof. intros h h' a. unfold deref. destruct (f h); [by intros [= <- <-]|done]. Qed.
Lemma pres_new_node x n : preserves (below_h x) (new_node n).
Proof. intros h h' a [= <- <-] Hx. unfold below_h in *. simpl. lia. Qed.
Lemma pres_new_edge x e : preserves (below_h x) (new_edge e).
Proof. intros h h' a [= <- <-] Hx. unfold below_h in *. simpl. lia. Qed.
Lemma pres_set_this x f : preserves (below x) (set_this f).
Proof. by apply pres_modify. Qed.

Ltac below_call _ :=
  lazymatch goal with
  | |- preserves _ (on_heap _) => apply pres_on_heap
  | |- preserves _ (load_node _) => apply pres_load
  | |- preserves _ (load_edge _) => apply pres_load
  | |- preserves _ (new_node _) => apply pres_new_node
  | |- preserves _ (new_edge _) => apply pres_new_edge
  | |- preserves _ (store_node _ _) => by apply pres_modify
  | |- preserves _ (store_edge _ _) => by apply pres_modify
  | |- preserves _ (delete_node _) => by apply pres_modify
  | |- preserves _ (delete_edge _) => by apply pres_modify
  | |- preserves _ this => apply pres_gets
  | |- preserves _ (set_this _) => apply pres_set_this
  | |- preserves _ (update_node _ _) => unfold update_node
  | |- preserves _ (getSrc _) => unfold getSrc
  | |- preserves _ (getDst _) => unfold getDst
  end.

Lemma addNode_below x t b : preserves (below x) (addNode t b).
Proof. unfold addNode. pres_auto below_call. Qed.
Lemma fetchNode_below x t : preserves (below x) (fetchNode t).
Proof. unfold fetchNode. pres_auto below_call. Qed.
Lemma fetchEdges_below x f t : preserves (below x) (fetchEdges f t).
Proof. unfold fetchEdges. pres_auto below_call. Qed.
Lemma addUndefined_below x f t : preserves (below x) (addUndefinedDependenceEdge f t).
Proof. unfold addUndefinedDependenceEdge, registerEdge. pres_auto below_call; apply fetchNode_below. Qed.
Lemma removeConnectedNode_below x n m : preserves (below_h x) (removeConnectedNode n m).
Proof. unfold removeConnectedNode. pres_auto below_call. Qed.
Lemma removeNode_below x n : preserves (below x) (removeNode n).
Proof. unfold removeNode. pres_auto below_call; apply removeConnectedNode_below. Qed.

(** The address [x] is in use; when [b] holds, the [SCCSet] there has been deleted. *)
Definition dead (b : bool) (x : Ptr) (w : PWorld) : Prop :=
  below_h x (pw_heap w) ∧ (b = true → pw_sets w !! x = None).

Lemma dead_on_p b x {A} (m : M GSt A) : preserves (below x) m → preserves (dead b x) (on_p m).
Proof. intros Hm. apply pres_zoom. intros w s a Hrun [Hx Hs]. split; [by apply (Hm _ _ _ Hrun)|done]. Qed.
Lemma dead_new_set b x s : preserves (dead b x) (new_set s).
Proof.
  intros w w' a [= <- <-] [Hx Hs]. unfold dead, below_h in *. simpl. split; [lia|].
  intros Hb. rewrite lookup_insert_ne; [auto|lia].
Qed.
Lemma dead_alloc b x : preserves (dead b x) alloc.
Proof. intros w w' a [= <- <-] [Hx Hs]. unfold dead, below_h in *. simpl. split; [lia|done]. Qed.
Lemma dead_sccs_of b x s : preserves (dead b x) (sccs_of s).
Proof. intros w w' a. unfold sccs_of, deref. destruct (pw_sets w !! s); [by intros [= <- <-]|done]. Qed.
Lemma dead_delete_set b x s : preserves (dead b x) (delete_set s).
Proof.
  apply pres_modify. intros w [Hx Hs]. split; [done|]. simpl. rewrite lookup_delete_None. auto.
Qed.
(** writing to the new set, which is not the dead one *)
Lemma dead_set_sccs b x s v : x ≠ s → preserves (dead b x) (set_sccs s v).
Proof.
  intros Hne. apply pres_modify. intros w [Hx Hs]. split; [done|]. simpl.
  by rewrite lookup_insert_ne.
Qed.

Ltac dead_call _ :=
  lazymatch goal with
  | |- preserves _ (on_p _) => apply dead_on_p
  | |- preserves _ (sccs_of _) => apply dead_sccs_of
  | |- preserves _ (delete_set _) => apply dead_delete_set
  | |- preserves _ (map_scc _ _) => by apply pres_modify
  | |- preserves _ alloc => apply dead_alloc
  | |- preserves _ this_p => apply pres_gets
  | |- preserves _ (node_of_set _) => unfold node_of_set
  | |- preserves _ (sccToSetMap_at _) => unfold sccToSetMap_at
  | |- preserves _ (addEdgeOnce _ _ _ _) => unfold addEdgeOnce
  | |- preserves _ (fetchNode _) => apply fetchNode_below
  | |- preserves _ (fetchEdges _ _) => apply fetchEdges_below
  | |- preserves _ (addUndefinedDependenceEdge _ _) => apply addUndefined_below
  | |- preserves _ (removeNode _) => apply removeNode_below
  | |- preserves _ (addNode _ _) => apply addNode_below
  | _ => below_call ()
  end.

Lemma moveMembers_dead b x sets m : x ≠ m → preserves (dead b x) (moveMembers sets m).
Proof. intros Hne. unfold moveMembers. pres_auto dead_call. by apply dead_set_sccs. Qed.
Lemma moveEdges_dead b x sets m n : preserves (dead b x) (moveEdges sets m n).
Proof. unfold moveEdges, moveIncoming, moveOutgoing. pres_auto dead_call. Qed.

Lemma dropSet_dead b x set : preserves (dead b x) (dropSet set).
Proof. unfold dropSet. pres_auto dead_call. Qed.

Lemma dropSet_kills x w w' : dropSet x w = Ok (w', tt) → dead false x w → dead true x w'.
Proof.
  intros Hrun Hw. pose proof (dropSet_dead false x x _ _ _ Hrun Hw) as [Hb _]. split; [done|].
  intros _. unfold dropSet, bind in Hrun.
  destruct (node_of_set x w) as [[w2 n]|]; [|done].
  destruct (on_p (removeNode n) w2) as [[w3 []]|]; [|done].
  injection Hrun as <-. simpl. apply lookup_delete_eq.
Qed.

Lemma dropSets_dead b x sets : preserves (dead b x) (dropSets sets).
Proof. apply pres_forM. intros y. apply dropSet_dead. Qed.

Lemma dropSets_kills x sets w w' : dropSets sets w = Ok (w', tt) → x ∈ sets →
  dead false x w → dead true x w'.
Proof.
  intros Hrun Hx%elem_of_visit. revert w Hrun. unfold dropSets.
  induction Hx as [x l|x y l Hx IH]; intros w Hrun Hw; cbn [forM] in Hrun; unfold bind in Hrun.
  - destruct (dropSet x w) as [[w1 []]|] eqn:E; [|done].
    eapply (pres_forM (dead true x) dropSet l); [intros z; apply dropSet_dead|done|].
    by eapply dropSet_kills.
  - destruct (dropSet y w) as [[w1 []]|] eqn:E; [|done].
    apply (IH w1); [done|]. by eapply dropSet_dead.
Qed.

(** the run of [mergeSets] up to its last loop *)
Lemma mergeSets_split b x sets w w' : mergeSets sets w = Ok (w', tt) → dead b x w →
  ∃ w1, dead b x w1 ∧ dropSets sets w1 = Ok (w', tt).
Proof.
  intros Hrun Hw. unfold mergeSets in Hrun. unfold bind at 1 in Hrun.
  destruct (new_set ∅ w) as [[w1 m]|] eqn:E1; [|done].
  pose proof (dead_new_set b x ∅ w w1 m E1 Hw) as Hw1.
  assert (x ≠ m) as Hne.
  { injection E1 as <- <-. destruct Hw as [Hw _]. unfold below_h in Hw. lia. }
  unfold bind in Hrun. destruct (moveMembers sets m w1) as [[w2 []]|] eqn:E2; [|done].
  pose proof (moveMembers_dead b x sets m Hne _ _ _ E2 Hw1) as Hw2.
  destruct (on_p (addNode m true) w2) as [[w3 n]|] eqn:E3; [|done].
  assert (preserves (dead b x) (on_p (addNode m true))) as P3 by pres_auto dead_call.
  destruct (moveEdges sets m n w3) as [[w4 []]|] eqn:E4; [|done].
  exists w4. split; [|done]. eapply moveEdges_dead; [done|]. by eapply P3.
Qed.

Lemma mergeSets_dead b x sets : preserves (dead b x) (mergeSets sets).
Proof.
  intros w w' [] Hrun Hw. destruct (mergeSets_split b x sets w w' Hrun Hw) as (w1 & Hw1 & Hrun1).
  by eapply dropSets_dead.
Qed.

Lemma mergeSets_kills x sets w w' : mergeSets sets w = Ok (w', tt) → x ∈ sets →
  dead false x w → dead true x w'.
Proof.
  intros Hrun Hx Hw. destruct (mergeSets_split false x sets w w' Hrun Hw) as (w1 & Hw1 & Hrun1).
  by eapply dropSets_kills.
Qed.

Ltac collapse_call _ :=
  lazymatch goal with
  | |- preserves _ (mergeSets _) => apply mergeSets_dead
  | _ => dead_call ()
  end.

Lemma collapseCycles_dead b x : preserves (dead b x) collapseCycles.
Proof.
  unfold collapseCycles, collapseComponent. pres_auto collapse_call.
Qed.
End dead.

(** mergePair never returns: the merge deletes the set it was given as its first
    argument and mergePair then reads the members of that set. *)
Theorem mergePair_reads_deleted_set `{IO : IterOrder, SI : SCCIterator, BVc : BitMatrix.BitVector} a b w :
  (a < nextAddr (pw_heap w))%positive → ¬ ∃ r, mergePair a b w = Ok r.
Proof.
  intros Ha [r Hrun]. unfold mergePair, mergeSetsAndCollapseResultingCycles in Hrun.
  unfold bind at 1 in Hrun. unfold bind at 1 in Hrun.
  destruct (mergeSets {[a; b]} w) as [[w1 []]|] eqn:E1; [|done].
  destruct (collapseCycles w1) as [[w2 []]|] eqn:E2; [|done].
  assert (dead true a w2) as [_ Hd].
  { eapply collapseCycles_dead; [done|]. eapply mergeSets_kills; [done|set_solver|]. by split. }
  unfold bind, sccs_of in Hrun. by rewrite Hd in Hrun.
Qed.
