(* ===== verification/PartitionMergeSpec.v ===== *)
(** * The effect of mergeSets

    [mergeSets] replaces the sets it is given by their union and moves their edges; the
    partition stays well-formed. *)
From S2P Require Import Prelude DGEdge DGNode DGBase DGInvariant DGSpec DGQuery.
From S2P Require BitMatrix.
From S2P Require Import SCCDAG Partition PartitionSpec.

Section merge.
Context {IO : IterOrder} {BVc : BitMatrix.BitVector}.

(** A well-formed partition: its graph represents [A], the values of the graph are live,
    non-empty sets, and the map takes an SCC to the set of the graph that holds it. *)
Record p_wf (w : PWorld) (A : AGraph) : Prop := {
  pw_rep : p_rep w A;
  pw_live t : t ∈ a_values A → ∃ s, pw_sets w !! t = Some s ∧ s ≠ ∅;
  pw_below t : is_Some (pw_sets w !! t) → (t < nextAddr (pw_heap w))%positive;
  pw_map scc t : sccToSetMap (pw_part w) !! scc = Some t ↔
    t ∈ a_values A ∧ ∃ s, pw_sets w !! t = Some s ∧ scc ∈ s
}.

(** the members of the set at [t] *)
Definition members (w : PWorld) (t : Ptr) : gset Ptr := default ∅ (pw_sets w !! t).

Lemma wp_on_p {A} (m : M GSt A) Q w :
  wp (on_p m) Q w ↔
  wp m (λ a s, Q a (mkPWorld s.1 (pw_sets w) (set_p_graph s.2 (pw_part w))))
     (pw_heap w, p_graph (pw_part w)).
Proof. unfold on_p. by rewrite wp_zoom. Qed.

(** *** Allocation *)

Lemma rep_alloc h g A p : (nextAddr h ≤ p)%positive → rep h g A →
  rep (mkHeap (hnodes h) (hedges h) p) g A.
Proof.
  intros Hp [W R1 R2 R3 R4 R5]. split; [|done..].
  destruct W as [[Hh1 Hh2] W2 W3 W4 W5 W6 W7]. split; [|done..].
  split; intros q Hq; [specialize (Hh1 q Hq)|specialize (Hh2 q Hq)]; simpl; lia.
Qed.

(** *** Members *)

Lemma moveMembers_spec (sets : gset Ptr) m w s0 :
  pw_sets w !! m = Some s0 → m ∉ sets → (∀ t, t ∈ sets → is_Some (pw_sets w !! t)) →
  wp (moveMembers sets m) (λ _ w',
    pw_heap w' = pw_heap w ∧ p_graph (pw_part w') = p_graph (pw_part w) ∧
    (∀ t, t ≠ m → pw_sets w' !! t = pw_sets w !! t) ∧
    (∃ s, pw_sets w' !! m = Some s ∧
       ∀ scc, scc ∈ s ↔ scc ∈ s0 ∨ ∃ t, t ∈ sets ∧ scc ∈ members w t) ∧
    (∀ scc t, t ∈ sets → scc ∈ members w t → sccToSetMap (pw_part w') !! scc = Some m) ∧
    (∀ scc, (∀ t, t ∈ sets → scc ∉ members w t) →
       sccToSetMap (pw_part w') !! scc = sccToSetMap (pw_part w) !! scc)) w.
Proof.
  intros Hm Hms Hlive. unfold moveMembers.
  eapply wp_mono; [apply (wp_forM _ (λ pre _ w',
    pw_heap w' = pw_heap w ∧ p_graph (pw_part w') = p_graph (pw_part w) ∧
    (∀ t, t ≠ m → pw_sets w' !! t = pw_sets w !! t) ∧
    (∃ s, pw_sets w' !! m = Some s ∧
       ∀ scc, scc ∈ s ↔ scc ∈ s0 ∨ ∃ t, t ∈ pre ∧ scc ∈ members w t) ∧
    (∀ scc t, t ∈ pre → scc ∈ members w t → sccToSetMap (pw_part w') !! scc = Some m) ∧
    (∀ scc, (∀ t, t ∈ pre → scc ∉ members w t) →
       sccToSetMap (pw_part w') !! scc = sccToSetMap (pw_part w) !! scc)))|].
  - split_and!; [done..| |set_solver|done]. exists s0. split; [done|]. set_solver.
  - intros pre t post w1 Hl (H1 & H2 & H3 & (s & H4 & H4') & H5 & H6).
    assert (t ∈ sets) as Ht by (apply elem_of_visit; rewrite Hl; set_solver).
    assert (t ≠ m) as Htm by (intros ->; done).
    destruct (Hlive t Ht) as [st Hst].
    assert (pw_sets w1 !! t = Some st) as Hst1 by (by rewrite H3).
    assert (members w t = st) as Hmem by (unfold members; by rewrite Hst).
    apply wp_bind. unfold wp at 1, sccs_of. rewrite Hst1. apply wp_bind. unfold wp at 1.
    rewrite H4. apply wp_bind, wp_modify.
    eapply wp_mono; [apply (wp_forM _ (λ pre' _ w', pw_heap w' = pw_heap w1 ∧
      p_graph (pw_part w') = p_graph (pw_part w1) ∧ pw_sets w' = <[m := s ∪ st]> (pw_sets w1) ∧
      (∀ scc, sccToSetMap (pw_part w') !! scc =
         if decide (scc ∈ pre') then Some m else sccToSetMap (pw_part w1) !! scc)))|].
    + done.
    + intros pre' scc post' w2 _ (E1 & E2 & E3 & E4). apply wp_modify. split_and!; [done..|].
      intros scc'. simpl. destruct (decide (scc' = scc)) as [->|Hne].
      * rewrite lookup_insert_eq, decide_True; [done|]. apply elem_of_snoc. by right.
      * rewrite lookup_insert_ne, E4 by done. destruct (decide (scc' ∈ pre')) as [Hi|Hi].
        -- rewrite decide_True; [done|]. apply elem_of_snoc. by left.
        -- rewrite decide_False; [done|]. rewrite elem_of_snoc. tauto.
    + intros [] w2 (E1 & E2 & E3 & E4). rewrite E1, E2, E3, H1, H2.
      split_and!; [done|done|..].
      * intros t' Ht'. rewrite lookup_insert_ne by done. by apply H3.
      * exists (s ∪ st). split; [apply lookup_insert_eq|]. intros scc.
        rewrite elem_of_union, H4'. setoid_rewrite elem_of_snoc. rewrite <- Hmem. naive_solver.
      * intros scc t' [Ht'| ->]%elem_of_snoc Hscc; rewrite E4; case_decide as Hd; try done.
        -- by eapply H5.
        -- destruct Hd. apply elem_of_visit. by rewrite <- Hmem.
      * intros scc Hno. rewrite E4, decide_False.
        -- apply H6. intros t' Ht'. apply Hno, elem_of_snoc. by left.
        -- rewrite elem_of_visit, <- Hmem. apply Hno, elem_of_snoc. by right.
  - intros [] w' (H1 & H2 & H3 & (s & H4 & H4') & H5 & H6). setoid_rewrite elem_of_visit in H4'.
    setoid_rewrite elem_of_visit in H5. setoid_rewrite elem_of_visit in H6. eauto 10.
Qed.

(** *** Edges *)

Lemma fetchEdges_run h g A a b na nb : rep h g A → node_of g a na → node_of g b nb →
  ∃ s, fetchEdges na nb (h, g) = Ok ((h, g), s) ∧ (size s = 0 ↔ ¬ p_edge A a b).
Proof.
  intros R Ha Hb. destruct (fetchEdges_edges _ _ _ _ _ _ _ R Ha Hb) as (s & Hrun & Hs).
  exists s. split; [done|]. split.
  - intros H0 (e & y & He). apply size_empty_inv in H0.
    assert (e ∈ s) by (apply Hs; eauto). set_solver.
  - intros Hno. apply size_empty_iff, elem_of_equiv_empty. intros e He. apply Hs in He as (y & ?). apply Hno. by exists e, y.
Qed.

(** the state of the second loop: the graph of [A1] with some new edges at [m] *)
Record moving (A1 : AGraph) (sets : gset Ptr) (m : Ptr) (w1 w : PWorld) (A : AGraph) : Prop := {
  mv_rep : p_rep w A;
  mv_sets : pw_sets w = pw_sets w1;
  mv_map : sccToSetMap (pw_part w) = sccToSetMap (pw_part w1);
  mv_next : (nextAddr (pw_heap w1) ≤ nextAddr (pw_heap w))%positive;
  mv_nodes t n : node_of (p_graph (pw_part w)) t n ↔ node_of (p_graph (pw_part w1)) t n;
  mv_internal : a_internal A = a_internal A1;
  mv_external : a_external A = a_external A1;
  mv_old : a_edges A1 ⊆ a_edges A;
  mv_new e x : a_edges A !! e = Some x → a_edges A1 !! e = Some x ∨
    (a_src x ∉ sets ∧ a_dst x = m ∧ ∃ t, t ∈ sets ∧ p_edge A1 (a_src x) t) ∨
    (a_dst x ∉ sets ∧ a_src x = m ∧ ∃ t, t ∈ sets ∧ p_edge A1 t (a_dst x))
}.

Lemma p_edge_dec A a b : Decision (p_edge A a b).
Proof.
  destruct (decide (map_Exists (λ _ x, a_src x = a ∧ a_dst x = b) (a_edges A))) as [H|H].
  - left. destruct H as (e & x & ? & ?). by exists e, x.
  - right. intros (e & x & ? & ?). apply H. by exists e, x.
Qed.

Lemma p_edge_mono A A' a b : a_edges A ⊆ a_edges A' → p_edge A a b → p_edge A' a b.
Proof. intros Hsub (e & x & Hx & H). exists e, x. split; [|done]. by eapply lookup_weaken. Qed.

(** one edge added at the merged set *)
Lemma addEdgeOnce_spec A1 sets m w1 w A a b na nb :
  moving A1 sets m w1 w A → node_of (p_graph (pw_part w)) a na →
  node_of (p_graph (pw_part w)) b nb →
  (a ∉ sets ∧ b = m ∧ (∃ t, t ∈ sets ∧ p_edge A1 a t)) ∨
  (b ∉ sets ∧ a = m ∧ (∃ t, t ∈ sets ∧ p_edge A1 t b)) →
  wp (addEdgeOnce na nb a b) (λ _ w', ∃ A', moving A1 sets m w1 w' A' ∧
     a_edges A ⊆ a_edges A' ∧ p_edge A' a b) w.
Proof.
  intros Hmv Ha Hb Hab. pose proof (mv_rep _ _ _ _ _ _ Hmv) as R.
  destruct (fetchEdges_run _ _ _ _ _ _ _ R Ha Hb) as (es & Hes & Hsize).
  unfold addEdgeOnce. apply wp_bind. unfold wp at 1. rewrite (on_p_run _ w w es Hes eq_refl).
  destruct (decide (size es = 0)) as [H0|H0].
  2:{ apply wp_ret. exists A. split; [done|]. split; [done|].
      destruct (p_edge_dec A a b) as [|Hn]; [done|]. by apply Hsize in Hn. }
  apply wp_bind, wp_on_p.
  set (mk := λ f t, UndefinedDependence_new f t).
  eapply wp_mono; [apply wp_conj; [apply (addEdge_simulates _ _ A (CallAddUndefined a b) a b
      (mkAEdge a b UNDEFINED_DEPENDENCE None) mk); try done
    |apply (addEdge_spec _ _ a b na nb mk); try done; apply R]|].
  { apply (rep_values _ _ _ _ R). eauto. }
  { apply (rep_values _ _ _ _ R). eauto. }
  intros e s' [(A' & Hstep & R') [-> ->]]. apply wp_ret. exists A'.
  inversion Hstep as [c t i Hc| |c x e' Hc Hs Hd He'| | | |]; subst;
    [by destruct Hc|]. simpl in Hc. injection Hc as <-.
  split; [|split; [by apply insert_subseteq|]].
  2:{ exists e', (mkAEdge a b UNDEFINED_DEPENDENCE None). split; [apply lookup_insert_eq|done]. }
  destruct Hmv as [M1 M2 M3 M4 M5 M6 M7 M8 M9]. split; try done.
  - simpl. lia.
  - simpl. etrans; [apply M8|]. by apply insert_subseteq.
  - intros e x. simpl. intros [[<- <-]|[_ Hx]]%lookup_insert_Some; [|by apply M9].
    right. simpl. naive_solver.
Qed.

(** reading the ends of an edge, then going on *)
Lemma wp_read_src {X} (rest : Ptr → M PWorld X) w A e y Q : p_rep w A → a_edges A !! e = Some y →
  wp (rest (a_src y)) Q w →
  wp (let* x := on_p (on_heap (load_edge e)) in
      let* s := on_p (on_heap (getSrc x)) in rest s) Q w.
Proof.
  intros R Hy Hrest. destruct (edge_ends _ _ _ _ _ R Hy) as (x & s & d & Hx & Hs & Hd & Hsrc & _).
  apply wp_bind. unfold wp at 1. rewrite (on_p_run _ w w x); [| |done].
  2:{ unfold on_heap, zoom, load_edge. simpl. by rewrite Hx. }
  apply wp_bind. unfold wp at 1. rewrite (on_p_run _ w w (a_src y)); [done| |done].
  unfold on_heap, zoom, getSrc, bind, load_node. simpl. rewrite Hs, <- Hsrc. done.
Qed.
Lemma wp_read_dst {X} (rest : Ptr → M PWorld X) w A e y Q : p_rep w A → a_edges A !! e = Some y →
  wp (rest (a_dst y)) Q w →
  wp (let* x := on_p (on_heap (load_edge e)) in
      let* s := on_p (on_heap (getDst x)) in rest s) Q w.
Proof.
  intros R Hy Hrest. destruct (edge_ends _ _ _ _ _ R Hy) as (x & s & d & Hx & Hs & Hd & _ & Hdst).
  apply wp_bind. unfold wp at 1. rewrite (on_p_run _ w w x); [| |done].
  2:{ unfold on_heap, zoom, load_edge. simpl. by rewrite Hx. }
  apply wp_bind. unfold wp at 1. rewrite (on_p_run _ w w (a_dst y)); [done| |done].
  unfold on_heap, zoom, getDst, bind, load_node. simpl. rewrite Hd, <- Hdst. done.
Qed.

Section edges.
(** the state [w1] in which the members have moved and the merged set [m] has a node [mn] *)
Context (A1 : AGraph) (sets : gset Ptr) (m mn : Ptr) (w1 : PWorld).
Context (Hmn : node_of (p_graph (pw_part w1)) m mn) (Hm : m ∉ sets) (Hsets : sets ⊆ a_values A1).
Context (Hfresh : ∀ e x, a_edges A1 !! e = Some x → a_src x ≠ m ∧ a_dst x ≠ m).
Context (Hmap : ∀ a, a ∈ a_values A1 → ∃ s, pw_sets w1 !! a = Some s ∧ s ≠ ∅ ∧
  ∀ c, c ∈ s → sccToSetMap (pw_part w1) !! c = Some (if decide (a ∈ sets) then m else a)).

Lemma moving_values w A : moving A1 sets m w1 w A → a_values A = a_values A1.
Proof. intros H. unfold a_values. by rewrite (mv_internal _ _ _ _ _ _ H), (mv_external _ _ _ _ _ _ H). Qed.

(** the test whether the other set of an edge is one of those merged *)
Lemma wp_same_set {X} w A a na (rest : option Ptr → Ptr → M PWorld X) Q :
  moving A1 sets m w1 w A → a ∈ a_values A → node_of (p_graph (pw_part w)) a na →
  wp (rest (Some na) (if decide (a ∈ sets) then m else a)) Q w →
  wp (let* node := on_p (fetchNode a) in
      let* sccs := sccs_of a in
      let* any := deref (head (visit sccs)) in
      let* s := sccToSetMap_at any in rest node s) Q w.
Proof.
  intros Hmv Ha Hna Hrest. pose proof (mv_rep _ _ _ _ _ _ Hmv) as R.
  eapply wp_bind_run; [apply (on_p_run _ w w (Some na)); [|done]|].
  { apply fetchNode_present; [apply R|done]. }
  rewrite (moving_values w A Hmv) in Ha. destruct (Hmap a Ha) as (s & Hs & Hne & Hc).
  apply (wp_bind_run _ _ _ w w s).
  { unfold sccs_of. by rewrite (mv_sets _ _ _ _ _ _ Hmv), Hs. }
  destruct (visit s) as [|c l] eqn:Hv; [by apply visit_nil_inv in Hv|].
  eapply wp_bind_run; [reflexivity|]. eapply wp_bind_run; [|done].
  assert (c ∈ s) as Hcs by (apply elem_of_visit; rewrite Hv; set_solver).
  unfold sccToSetMap_at. rewrite (bind_ok _ _ w w _ eq_refl).
  by rewrite (mv_map _ _ _ _ _ _ Hmv), (Hc c Hcs).
Qed.

Lemma moveIncoming_spec w A e y : moving A1 sets m w1 w A →
  a_edges A1 !! e = Some y → a_dst y ∈ sets →
  wp (moveIncoming m mn e) (λ _ w', ∃ A', moving A1 sets m w1 w' A' ∧
    a_edges A ⊆ a_edges A' ∧ (a_src y ∉ sets → p_edge A' (a_src y) m)) w.
Proof.
  intros Hmv Hy1 Hd. pose proof (mv_rep _ _ _ _ _ _ Hmv) as R.
  assert (a_edges A !! e = Some y) as Hy.
  { eapply lookup_weaken; [done|]. by apply Hmv. }
  assert (a_src y ∈ a_values A) as Ha by (apply (p_edge_values w A _ (a_dst y)); [done|by exists e, y]).
  pose proof Ha as [na Hna]%(rep_values _ _ _ _ R).
  unfold moveIncoming. apply (wp_read_src _ w A e y); [done..|].
  apply (wp_same_set w A (a_src y) na); [done..|].
  destruct (decide (a_src y ∈ sets)) as [Hin|Hin].
  { rewrite decide_True by done. apply wp_ret. exists A. done. }
  rewrite decide_False by apply (Hfresh e y Hy1). apply wp_bind, wp_ret.
  eapply wp_mono; [apply (addEdgeOnce_spec A1 sets m w1 w A (a_src y) m na mn); [done..|by apply (mv_nodes _ _ _ _ _ _ Hmv)|]|].
  - left. split; [done|]. split; [done|]. exists (a_dst y). split; [done|]. by exists e, y.
  - intros [] w' (A' & ? & ? & ?). eauto.
Qed.

Lemma moveOutgoing_spec w A e y : moving A1 sets m w1 w A →
  a_edges A1 !! e = Some y → a_src y ∈ sets →
  wp (moveOutgoing m mn e) (λ _ w', ∃ A', moving A1 sets m w1 w' A' ∧
    a_edges A ⊆ a_edges A' ∧ (a_dst y ∉ sets → p_edge A' m (a_dst y))) w.
Proof.
  intros Hmv Hy1 Hs. pose proof (mv_rep _ _ _ _ _ _ Hmv) as R.
  assert (a_edges A !! e = Some y) as Hy.
  { eapply lookup_weaken; [done|]. by apply Hmv. }
  assert (a_dst y ∈ a_values A) as Ha by (apply (p_edge_values w A (a_src y)); [done|by exists e, y]).
  pose proof Ha as [na Hna]%(rep_values _ _ _ _ R).
  unfold moveOutgoing. apply (wp_read_dst _ w A e y); [done..|].
  apply (wp_same_set w A (a_dst y) na); [done..|].
  destruct (decide (a_dst y ∈ sets)) as [Hin|Hin].
  { rewrite decide_True by done. apply wp_ret. exists A. done. }
  rewrite decide_False by apply (Hfresh e y Hy1). apply wp_bind, wp_ret.
  eapply wp_mono; [apply (addEdgeOnce_spec A1 sets m w1 w A m (a_dst y) mn na); [done|by apply (mv_nodes _ _ _ _ _ _ Hmv)|done|]|].
  - right. split; [done|]. split; [done|]. exists (a_src y). split; [done|]. by exists e, y.
  - intros [] w' (A' & ? & ? & ?). eauto.
Qed.

(** a loop over edges of the old graph *)
Lemma moveLoop_spec (f : Ptr → M PWorld unit) (P : AEdge → AGraph → Prop) (es : gset Ptr) w A :
  moving A1 sets m w1 w A →
  (∀ y A A', P y A → a_edges A ⊆ a_edges A' → P y A') →
  (∀ e, e ∈ es → ∃ y, a_edges A1 !! e = Some y ∧ ∀ w A, moving A1 sets m w1 w A →
     wp (f e) (λ _ w', ∃ A', moving A1 sets m w1 w' A' ∧ a_edges A ⊆ a_edges A' ∧ P y A') w) →
  wp (forM f (visit es)) (λ _ w', ∃ A', moving A1 sets m w1 w' A' ∧ a_edges A ⊆ a_edges A' ∧
    ∀ e y, e ∈ es → a_edges A1 !! e = Some y → P y A') w.
Proof.
  intros Hmv HP Hf. eapply wp_mono; [apply (wp_forM _ (λ pre _ w', ∃ A',
    moving A1 sets m w1 w' A' ∧ a_edges A ⊆ a_edges A' ∧
    ∀ e y, e ∈ pre → a_edges A1 !! e = Some y → P y A'))|].
  - exists A. split; [done|]. split; [done|]. intros e y He. by apply elem_of_nil in He.
  - intros pre e post w2 Hl (A2 & Hmv2 & Hsub2 & Hpre).
    destruct (Hf e) as (y & Hy & Hrun); [apply elem_of_visit; rewrite Hl; set_solver|].
    eapply wp_mono; [by apply (Hrun w2 A2)|]. intros [] w3 (A3 & Hmv3 & Hsub3 & HP3).
    exists A3. split; [done|]. split; [by etrans|].
    intros e' y' He' Hy'. apply elem_of_snoc in He' as [He'| ->].
    + eapply HP; [by eapply Hpre|done].
    + by assert (y' = y) as -> by congruence.
  - intros [] w' (A' & ? & ? & H). exists A'. split; [done|]. split; [done|].
    intros e y He%elem_of_visit. by apply H.
Qed.

(** an edge at one of the merged sets is an old one *)
Lemma moving_in w A t e y : moving A1 sets m w1 w A → t ∈ sets →
  a_edges A !! e = Some y → a_dst y = t ∨ a_src y = t → a_edges A1 !! e = Some y.
Proof.
  intros Hmv Ht Hy Hor. destruct (mv_new _ _ _ _ _ _ Hmv e y Hy) as [|[(H1 & H2 & _)|(H1 & H2 & _)]];
    [done|..]; destruct Hor as [<-|<-]; congruence.
Qed.

Lemma moveEdges_spec w A : moving A1 sets m w1 w A →
  wp (moveEdges sets m mn) (λ _ w', ∃ A', moving A1 sets m w1 w' A' ∧
    ∀ e y, a_edges A1 !! e = Some y →
      (a_dst y ∈ sets → a_src y ∉ sets → p_edge A' (a_src y) m) ∧
      (a_src y ∈ sets → a_dst y ∉ sets → p_edge A' m (a_dst y))) w.
Proof.
  intros Hmv. unfold moveEdges. eapply wp_mono; [apply (wp_forM _ (λ pre _ w', ∃ A',
    moving A1 sets m w1 w' A' ∧ ∀ e y, a_edges A1 !! e = Some y →
      (a_dst y ∈ pre → a_src y ∉ sets → p_edge A' (a_src y) m) ∧
      (a_src y ∈ pre → a_dst y ∉ sets → p_edge A' m (a_dst y))))|].
  - exists A. split; [done|]. intros e y _. split; intros Hn; by apply elem_of_nil in Hn.
  - clear w A Hmv. intros pre t post w Hl (A & Hmv & Hpre).
    assert (t ∈ sets) as Ht by (apply elem_of_visit; rewrite Hl; set_solver).
    assert (∀ w A, moving A1 sets m w1 w A → ∃ n x, node_of_set t w = Ok (w, n) ∧
      node_of (p_graph (pw_part w)) t n ∧
      hnodes (pw_heap w) !! n = Some x ∧ on_p (on_heap (load_node n)) w = Ok (w, x)) as Hnode.
    { intros w' A' Hmv'. apply (node_of_set_run w' A' t); [by apply Hmv'|].
      rewrite (moving_values w' A' Hmv'). by apply Hsets. }
    destruct (Hnode w A Hmv) as (n & x & Hrun & Hn & Hx & Hload).
    apply wp_bind. unfold wp at 1. rewrite Hrun. apply wp_bind. unfold wp at 1. rewrite Hload.
    apply wp_bind. eapply wp_mono; [apply (moveLoop_spec _
      (λ y A', a_src y ∉ sets → p_edge A' (a_src y) m) _ w A Hmv)|].
    + intros y A2 A3 H Hsub Hs. by eapply p_edge_mono, H.
    + intros e He. apply (in_edges_spec _ _ _ _ _ _ e (mv_rep _ _ _ _ _ _ Hmv) Hn Hx) in He as (y & Hy & Hd).
      pose proof (moving_in w A t e y Hmv Ht Hy ltac:(by left)) as Hy1.
      exists y. split; [done|]. intros w2 A2 Hmv2. apply moveIncoming_spec; [done..|by rewrite Hd].
    + intros [] w2 (A2 & Hmv2 & Hsub2 & Hin2).
      assert (node_of (p_graph (pw_part w2)) t n) as Hn2.
      { apply (mv_nodes _ _ _ _ _ _ Hmv2). by apply (mv_nodes _ _ _ _ _ _ Hmv). }
      destruct (Hnode w2 A2 Hmv2) as (n2 & x2 & _ & Hn2' & Hx2 & Hload2).
      assert (n2 = n) as -> by (eapply wf_node_of_inj; [apply (mv_rep _ _ _ _ _ _ Hmv2)|done..]).
      eapply wp_bind_run; [done|]. eapply wp_mono; [apply (moveLoop_spec _
        (λ y A', a_dst y ∉ sets → p_edge A' m (a_dst y)) _ w2 A2 Hmv2)|].
      * intros y A3 A4 H Hsub Hd. by eapply p_edge_mono, H.
      * intros e He. apply (out_edges_spec _ _ _ _ _ _ e (mv_rep _ _ _ _ _ _ Hmv2) Hn2 Hx2) in He
          as (y & Hy & Hs). pose proof (moving_in w2 A2 t e y Hmv2 Ht Hy ltac:(by right)) as Hy1.
        exists y. split; [done|]. intros w3 A3 Hmv3. apply moveOutgoing_spec; [done..|by rewrite Hs].
      * intros [] w3 (A3 & Hmv3 & Hsub3 & Hout3). exists A3. split; [done|]. intros e y Hy.
        destruct (Hpre e y Hy) as [Hp1 Hp2]. split; intros Hd Hn'.
        -- apply elem_of_snoc in Hd as [Hd|Hd].
           { eapply p_edge_mono; [|by apply Hp1]. by etrans. }
           eapply p_edge_mono; [done|]. apply (Hin2 e y); [|done..].
           apply (in_edges_spec _ _ _ _ _ _ e (mv_rep _ _ _ _ _ _ Hmv) Hn Hx). exists y.
           split; [|done]. eapply lookup_weaken; [done|]. by apply Hmv.
        -- apply elem_of_snoc in Hd as [Hd|Hd].
           { eapply p_edge_mono; [|by apply Hp2]. by etrans. }
           apply (Hout3 e y); [|done..].
           apply (out_edges_spec _ _ _ _ _ _ e (mv_rep _ _ _ _ _ _ Hmv2) Hn2 Hx2). exists y.
           split; [|done]. eapply lookup_weaken; [done|]. by apply Hmv2.
  - intros [] w' (A' & ? & H). exists A'. split; [done|]. by setoid_rewrite elem_of_visit in H.
Qed.
End edges.

(** *** The old sets *)

Lemma dropSet_spec w A t : p_rep w A → t ∈ a_values A →
  wp (dropSet t) (λ _ w', ∃ A', p_rep w' A' ∧ a_values A' = a_values A ∖ {[t]} ∧
    a_edges A' = filter (λ p, a_src p.2 ≠ t ∧ a_dst p.2 ≠ t) (a_edges A) ∧
    pw_sets w' = delete t (pw_sets w) ∧
    sccToSetMap (pw_part w') = sccToSetMap (pw_part w) ∧
    nextAddr (pw_heap w') = nextAddr (pw_heap w)) w.
Proof.
  intros R Ht. destruct (rep_node _ _ _ _ R Ht) as (n & x & Hn & Hin & Hx & HT).
  destruct (node_of_set_run w A t R Ht) as (n' & x' & Hrun & Hn' & _).
  assert (n' = n) as -> by (eapply wf_node_of_inj; [apply (rep_wf _ _ _ R)|done..]).
  unfold dropSet. eapply wp_bind_run; [done|]. apply wp_bind, wp_on_p.
  eapply wp_mono; [apply wp_conj; [by apply (removeNode_simulates _ _ A t n)|
    apply (removeNode_spec _ _ n x); [apply R|done..]]|].
  intros [] s' [(A' & Hstep & R') Hsh]. apply wp_modify.
  inversion Hstep as [c ? ? Hc| |c ? ? Hc| |t' Ht'| |]; subst; [by destruct Hc|done|].
  eexists. split; [exact R'|]. split_and!; try done; [|apply (sh_next _ _ _ _ _ Hsh)].
  unfold a_values. simpl. apply set_eq. intros z. set_solver.
Qed.

Lemma dropSets_spec sets w A : p_rep w A → sets ⊆ a_values A →
  wp (dropSets sets) (λ _ w', ∃ A', p_rep w' A' ∧ a_values A' = a_values A ∖ sets ∧
    (∀ e x, a_edges A' !! e = Some x ↔ a_edges A !! e = Some x ∧ a_src x ∉ sets ∧ a_dst x ∉ sets) ∧
    (∀ t, pw_sets w' !! t = if decide (t ∈ sets) then None else pw_sets w !! t) ∧
    sccToSetMap (pw_part w') = sccToSetMap (pw_part w) ∧
    nextAddr (pw_heap w') = nextAddr (pw_heap w)) w.
Proof.
  intros R Hsub. unfold dropSets. eapply wp_mono; [apply (wp_forM _ (λ pre _ w', ∃ A', p_rep w' A' ∧
    (∀ t, t ∈ a_values A' ↔ t ∈ a_values A ∧ t ∉ pre) ∧
    (∀ e x, a_edges A' !! e = Some x ↔ a_edges A !! e = Some x ∧ a_src x ∉ pre ∧ a_dst x ∉ pre) ∧
    (∀ t, pw_sets w' !! t = if decide (t ∈ pre) then None else pw_sets w !! t) ∧
    sccToSetMap (pw_part w') = sccToSetMap (pw_part w) ∧
    nextAddr (pw_heap w') = nextAddr (pw_heap w)))|].
  - exists A. split_and!; try done; intros *; rewrite ?elem_of_nil; tauto.
  - intros pre t post w1 Hl (A1 & R1 & Hv1 & He1 & Hs1 & Hm1 & Hn1).
    destruct (visit_split _ _ _ _ Hl) as (Ht & Hpre & _).
    eapply wp_mono; [apply (dropSet_spec w1 A1 t R1); apply Hv1; split; [by apply Hsub|done]|].
    intros [] w2 (A2 & R2 & Hv2 & He2 & Hs2 & Hm2 & Hn2). exists A2. split_and!; [done|..].
    + intros z. rewrite Hv2, elem_of_difference, elem_of_singleton, Hv1, elem_of_snoc. tauto.
    + intros e x. rewrite He2, map_lookup_filter_Some, He1, !elem_of_snoc. simpl. tauto.
    + intros z. rewrite Hs2. destruct (decide (z = t)) as [->|Hz].
      * rewrite lookup_delete_eq, decide_True; [done|]. apply elem_of_snoc. by right.
      * rewrite lookup_delete_ne, Hs1 by done. destruct (decide (z ∈ pre)) as [Hp|Hp].
        -- rewrite decide_True; [done|]. apply elem_of_snoc. by left.
        -- rewrite decide_False; [done|]. rewrite elem_of_snoc. tauto.
    + by rewrite Hm2.
    + by rewrite Hn2.
  - intros [] w' (A' & R' & Hv & He & Hs & Hm & Hn). exists A'. split_and!; try done.
    + apply set_eq. intros z. by rewrite elem_of_difference, Hv, elem_of_visit.
    + intros e x. by rewrite He, !elem_of_visit.
    + intros z. rewrite Hs. destruct (decide (z ∈ visit sets)) as [Hz|Hz];
        rewrite elem_of_visit in Hz; by case_decide.
Qed.
End merge.

(** what a set becomes when [sets] are merged into [m] *)
Definition merged_into (sets : gset Ptr) (m t : Ptr) : Ptr := if decide (t ∈ sets) then m else t.

(** The state after the members have moved and the merged set has its node. *)
Lemma merge_prepared `{IO : IterOrder, BVc : BitMatrix.BitVector} w A (sets : gset Ptr) m :
  p_wf w A → sets ⊆ a_values A → sets ≠ ∅ → (a_count A < int32_max)%Z → m = nextAddr (pw_heap w) →
  ∃ w2 mn A1,
    (∀ rest Q, wp (rest mn) Q w2 →
       wp (moveMembers sets m ;;; let* n := on_p (addNode m true) in rest n) Q
         (mkPWorld (mkHeap (hnodes (pw_heap w)) (hedges (pw_heap w)) (Pos.succ m))
            (<[m := ∅]> (pw_sets w)) (pw_part w)) (A := unit)) ∧
    p_rep w2 A1 ∧ node_of (p_graph (pw_part w2)) m mn ∧
    a_values A1 = {[m]} ∪ a_values A ∧ a_edges A1 = a_edges A ∧
    (nextAddr (pw_heap w2) > m)%positive ∧
    (∀ t, t ≠ m → pw_sets w2 !! t = pw_sets w !! t) ∧
    (∃ s, pw_sets w2 !! m = Some s ∧ ∀ scc, scc ∈ s ↔ ∃ t, t ∈ sets ∧ scc ∈ members w t) ∧
    (∀ scc t, t ∈ sets → scc ∈ members w t → sccToSetMap (pw_part w2) !! scc = Some m) ∧
    (∀ scc, (∀ t, t ∈ sets → scc ∉ members w t) →
       sccToSetMap (pw_part w2) !! scc = sccToSetMap (pw_part w) !! scc).
Proof.
  intros [R Hlive Hbelow Hmap] Hsub Hne Hcount ->. set (m := nextAddr (pw_heap w)).
  assert (m ∉ a_values A) as Hm.
  { intros Hin. destruct (Hlive m Hin) as (s & Hs & _). specialize (Hbelow m ltac:(eauto)). lia. }
  set (w0 := mkPWorld _ _ _).
  assert (∀ t, t ∈ sets → members w0 t = members w t ∧ is_Some (pw_sets w0 !! t)) as Hmem.
  { intros t Ht. assert (t ≠ m) as Htm by (intros ->; by apply Hm, Hsub).
    unfold members. simpl. rewrite lookup_insert_ne by done.
    destruct (Hlive t (Hsub t Ht)) as (s & -> & _). eauto. }
  pose proof (moveMembers_spec sets m w0 ∅ (lookup_insert_eq _ _ _)
    ltac:(intros Hms; by apply Hm, Hsub) (λ t Ht, proj2 (Hmem t Ht))) as Hmv.
  apply wp_ok in Hmv as (w1 & [] & Hrun & Hheap & Hgraph & Hkeep & (sm & Hsm & Hin) & Hto & Hother).
  assert (rep (pw_heap w1) (p_graph (pw_part w1)) A) as R1.
  { rewrite Hheap, Hgraph. simpl. apply rep_alloc; [lia|done]. }
  pose proof (addNode_simulates _ _ A (CallAddNode m true) m true ltac:(by left) R1 Hm Hcount) as Hsim.
  assert (nodeIdCounter (p_graph (pw_part w1)) < int32_max)%Z as Hc1.
  { by rewrite <- (rep_count _ _ _ R1). }
  unfold wp in Hsim. rewrite addNode_run in Hsim by done. destruct Hsim as (A1 & Hstep & R2).
  destruct (added_node_wf _ _ m true (rep_wf _ _ _ R1)) as [_ Hnodes].
  { intros n Hn. apply Hm, (rep_values _ _ _ _ R1). eauto. }
  set (s2 := added_node (pw_heap w1) (p_graph (pw_part w1)) m true) in *.
  exists (mkPWorld s2.1 (pw_sets w1) (set_p_graph s2.2 (pw_part w1))), (nextAddr (pw_heap w1)), A1.
  inversion Hstep as [c t b Hc| |c x e Hc| | | |]; subst; [|done].
  assert (t = m ∧ b = true) as [-> ->] by (destruct Hc as [[= <- <-]|Hc]; done).
  split_and!.
  - intros rest Q Hrest. eapply wp_bind_run; [done|]. eapply wp_bind_run; [|done].
    unfold on_p, zoom. by rewrite addNode_run.
  - done.
  - simpl. apply Hnodes. by left.
  - unfold a_values. simpl. apply set_eq. set_solver.
  - done.
  - simpl. rewrite Hheap. simpl. lia.
  - intros t Ht. simpl. rewrite Hkeep by done. simpl. by rewrite lookup_insert_ne.
  - exists sm. split; [done|]. intros scc. rewrite Hin.
    split; [intros [?|(t & Ht & Hs)]; [set_solver|]|intros (t & Ht & Hs); right];
      exists t; split; try done; by destruct (Hmem t Ht) as [E _]; rewrite E in *.
  - intros scc t Ht Hs. apply (Hto scc t Ht). by destruct (Hmem t Ht) as [-> _].
  - intros scc Hno. simpl. rewrite Hother; [done|]. intros t Ht. destruct (Hmem t Ht) as [-> _].
    by apply Hno.
Qed.

(** the edges that are left once the old sets are gone *)
Lemma merged_edges_of `{IO : IterOrder, BVc : BitMatrix.BitVector} A A1 A2 A3 (sets : gset Ptr) m w1 w :
  m ∉ sets → moving A1 sets m w1 w A2 → a_edges A1 = a_edges A →
  (∀ e y, a_edges A1 !! e = Some y →
      (a_dst y ∈ sets → a_src y ∉ sets → p_edge A2 (a_src y) m) ∧
      (a_src y ∈ sets → a_dst y ∉ sets → p_edge A2 m (a_dst y))) →
  (∀ e x, a_edges A3 !! e = Some x ↔ a_edges A2 !! e = Some x ∧ a_src x ∉ sets ∧ a_dst x ∉ sets) →
  ∀ a b, p_edge A3 a b ↔ ∃ u v, p_edge A u v ∧ ¬ (u ∈ sets ∧ v ∈ sets) ∧
    merged_into sets m u = a ∧ merged_into sets m v = b.
Proof.
  intros Hm Hmv He1 Hedges He3 a b. unfold merged_into.
  assert (∀ u v, p_edge A1 u v ↔ p_edge A u v) as HA by (intros u v; unfold p_edge; by rewrite He1).
  assert (∀ u v, p_edge A3 u v ↔ p_edge A2 u v ∧ u ∉ sets ∧ v ∉ sets) as H3.
  { intros u v. split.
    - intros (e & x & Hx & <- & <-). apply He3 in Hx as (Hx & ? & ?). split; [by exists e, x|done].
    - intros [(e & x & Hx & <- & <-) ?]. exists e, x. by rewrite He3. }
  rewrite H3. split.
  - intros [(e & x & Hx & <- & <-) [Hs Hd]].
    destruct (mv_new _ _ _ _ _ _ Hmv e x Hx) as [Hx1|[(_ & E & t & Ht & Htt)|(_ & E & t & Ht & Htt)]].
    + exists (a_src x), (a_dst x). split; [apply HA; by exists e, x|]. split; [tauto|].
      by rewrite !decide_False.
    + exists (a_src x), t. split; [by apply HA|]. split; [tauto|].
      rewrite decide_False, decide_True by done. done.
    + exists t, (a_dst x). split; [by apply HA|]. split; [tauto|].
      rewrite decide_True, decide_False by done. done.
  - intros (u & v & Huv & Hn & <- & <-). apply HA in Huv as (e & x & Hx & <- & <-).
    destruct (Hedges e x Hx) as [H1 H2].
    destruct (decide (a_src x ∈ sets)), (decide (a_dst x ∈ sets)); [tauto|auto|auto|].
    split; [|done]. apply (p_edge_mono A1); [apply Hmv|]. by exists e, x.
Qed.

(** (C25) mergeSets replaces sets of a well-formed partition by one new set: it holds the
    members of the sets merged and the map leads there, the other sets keep their members,
    and the edges are those of the old graph between sets that are not both merged. The
    partition stays well-formed. *)
Theorem mergeSets_spec `{IO : IterOrder, BVc : BitMatrix.BitVector} w A sets :
  p_wf w A → sets ⊆ a_values A → sets ≠ ∅ → (a_count A < int32_max)%Z →
  wp (mergeSets sets) (λ _ w', ∃ A' m, p_wf w' A' ∧ m ∉ a_values A ∧
    a_values A' = {[m]} ∪ (a_values A ∖ sets) ∧
    (∀ scc, scc ∈ members w' m ↔ ∃ t, t ∈ sets ∧ scc ∈ members w t) ∧
    (∀ t, t ∈ a_values A → t ∉ sets → members w' t = members w t) ∧
    (∀ a b, p_edge A' a b ↔ ∃ u v, p_edge A u v ∧ ¬ (u ∈ sets ∧ v ∈ sets) ∧
       merged_into sets m u = a ∧ merged_into sets m v = b)) w.
Proof.
  intros Wp Hsub Hne Hcount. set (m := nextAddr (pw_heap w)).
  destruct (merge_prepared w A sets m Wp Hsub Hne Hcount eq_refl) as
    (w2 & mn & A1 & Hwp & R2 & Hmn & Hv1 & He1 & Hnext & Hkeep & (sm & Hsm & Hin) & Hto & Hother).
  destruct Wp as [R Hlive Hbelow Hmap].
  assert (m ∉ a_values A) as Hm.
  { intros Hin'. destruct (Hlive m Hin') as (s & Hs & _). specialize (Hbelow m ltac:(eauto)). lia. }
  assert (m ∉ sets) as Hms by (intros Hms; by apply Hm, Hsub).
  assert (∀ t s, t ∈ a_values A → pw_sets w !! t = Some s → pw_sets w2 !! t = Some s) as Hkeep'.
  { intros t s Ht Hs. rewrite Hkeep; [done|]. by intros ->. }
  assert (∀ a, a ∈ a_values A1 → ∃ s, pw_sets w2 !! a = Some s ∧ s ≠ ∅ ∧
    ∀ c, c ∈ s → sccToSetMap (pw_part w2) !! c = Some (if decide (a ∈ sets) then m else a)) as HM.
  { intros a Ha. rewrite Hv1 in Ha. apply elem_of_union in Ha as [Ha|Ha].
    - apply elem_of_singleton in Ha as ->. exists sm. split; [done|]. split.
      + apply set_choose_L in Hne as [t Ht]. destruct (Hlive t (Hsub t Ht)) as (s & Hs & Hsne).
        apply set_choose_L in Hsne as [c Hc].
        assert (c ∈ sm) as Hcm; [|set_solver]. apply Hin. exists t. split; [done|].
        unfold members. by rewrite Hs.
      + intros c (t & Ht & Hc)%Hin. rewrite decide_False by done. by eapply Hto.
    - destruct (Hlive a Ha) as (s & Hs & Hsne). exists s. split; [by apply Hkeep'|]. split; [done|].
      intros c Hc. case_decide as Hd.
      + apply (Hto c a Hd). unfold members. by rewrite Hs.
      + rewrite Hother; [apply Hmap; eauto|]. intros t Ht Hct. apply Hd.
        assert (sccToSetMap (pw_part w) !! c = Some a) as E1 by (apply Hmap; eauto).
        destruct (Hlive t (Hsub t Ht)) as (st & Hst & _). unfold members in Hct. rewrite Hst in Hct.
        assert (sccToSetMap (pw_part w) !! c = Some t) as E2 by (apply Hmap; eauto). congruence. }
  unfold mergeSets. eapply wp_bind_run; [reflexivity|]. fold m. apply Hwp. clear Hwp.
  assert (∀ e x, a_edges A1 !! e = Some x → a_src x ≠ m ∧ a_dst x ≠ m) as Hfresh.
  { intros e x Hx. rewrite He1 in Hx.
    destruct (p_edge_values w A (a_src x) (a_dst x) R ltac:(by exists e, x)).
    split; intros E; apply Hm; by rewrite <- E. }
  assert (sets ⊆ a_values A1) as Hsub1 by (rewrite Hv1; set_solver).
  assert (moving A1 sets m w2 w2 A1) as Hmv0 by (split; auto; lia).
  apply wp_bind. eapply wp_mono; [exact (moveEdges_spec A1 sets m mn w2 Hmn Hms Hsub1 Hfresh HM w2 A1 Hmv0)|].
  intros [] w3 (A2 & Hmv & Hedges).
  assert (a_values A2 = {[m]} ∪ a_values A) as Hv2.
  { unfold a_values in *. by rewrite (mv_internal _ _ _ _ _ _ Hmv), (mv_external _ _ _ _ _ _ Hmv). }
  eapply wp_mono; [apply (dropSets_spec sets w3 A2); [apply Hmv|rewrite Hv2; set_solver]|].
  intros [] w' (A3 & R3 & Hv3 & He3 & Hs3 & Hm3 & Hn3). exists A3, m.
  assert (a_values A3 = {[m]} ∪ (a_values A ∖ sets)) as Hv.
  { rewrite Hv3, Hv2. apply set_eq. set_solver. }
  assert (∀ t, t ∈ a_values A3 → t ∉ sets ∧ t ∈ a_values A1 ∧ pw_sets w' !! t = pw_sets w2 !! t) as Hkeep3.
  { intros t Ht. rewrite Hv in Ht. assert (t ∉ sets) as Hts by set_solver. split; [done|].
    split; [rewrite Hv1; set_solver|]. by rewrite Hs3, decide_False, (mv_sets _ _ _ _ _ _ Hmv). }
  assert (pw_sets w' !! m = Some sm) as Hsm3.
  { by rewrite Hs3, decide_False, (mv_sets _ _ _ _ _ _ Hmv). }
  split_and!; [|done|done|..].
  - split; [done|..].
    + intros t Ht. destruct (Hkeep3 t Ht) as (_ & Ht1 & ->). destruct (HM t Ht1) as (s & ? & ? & _). eauto.
    + intros t. rewrite Hs3, Hn3, (mv_sets _ _ _ _ _ _ Hmv). case_decide; [by intros []|].
      intros Hlt. pose proof (mv_next _ _ _ _ _ _ Hmv). destruct (decide (t = m)) as [->|Htm]; [lia|].
      rewrite Hkeep in Hlt by done. specialize (Hbelow t Hlt). lia.
    + intros scc t. rewrite Hm3, (mv_map _ _ _ _ _ _ Hmv). split.
      * intros Hscc. destruct (decide (scc ∈ sm)) as [Hs|Hs].
        -- pose proof Hs as (t0 & Ht0 & Hc)%Hin. rewrite (Hto scc t0 Ht0 Hc) in Hscc.
           injection Hscc as <-. split; [rewrite Hv; set_solver|eauto].
        -- rewrite Hother in Hscc.
           2:{ intros t0 Ht0 Hc. apply Hs, Hin. eauto. }
           apply Hmap in Hscc as (Ht & s & Hts & Hc).
           assert (t ∉ sets) as Hn.
           { intros Hd. apply Hs, Hin. exists t. split; [done|]. unfold members. by rewrite Hts. }
           assert (t ∈ a_values A3) as Ht3 by (rewrite Hv; set_solver).
           split; [done|]. exists s. split; [|done]. destruct (Hkeep3 t Ht3) as (_ & _ & ->). by apply Hkeep'.
      * intros (Ht & s & Hs & Hc). destruct (Hkeep3 t Ht) as (Hn & Ht1 & E). rewrite E in Hs.
        destruct (HM t Ht1) as (s' & Hs' & _ & HM'). assert (s' = s) as -> by congruence.
        rewrite (HM' scc Hc). by rewrite decide_False.
  - unfold members at 1. by rewrite Hsm3.
  - intros t Ht Hn. unfold members. rewrite Hs3, decide_False, (mv_sets _ _ _ _ _ _ Hmv), Hkeep; [done| |done].
    by intros ->.
  - by apply (merged_edges_of A A1 A2 A3 sets m w2 w3).
Qed.
