(* ===== verification/Dominators.v ===== *)
(** * Dominator forests (src/core/dominators: DominatorForest.cpp, DominatorNode.cpp)

    The class [DominatorForest]: a copy of a dominator tree of llvm, or of the part of one
    that covers given basic blocks, and its queries. *)
From S2P Require Import Prelude.

(** ** llvm

    A dominator tree of llvm as the constructors read it: its nodes, each with its block
    ([None] for the virtual exit of a post-dominator tree), its depth and its children, the
    root blocks, and the root node. *)
Record LLVMDomNode := mkLLVMDomNode {
  ln_block : option Ptr;
  ln_level : Z;
  ln_children : list Ptr
}.
Record LLVMDomTree := mkLLVMDomTree {
  lt_nodes : gmap Ptr LLVMDomNode;
  lt_roots : list Ptr;
  lt_getNode : Ptr → option Ptr;
  lt_getRootNode : option Ptr
}.

(** the instructions of basic blocks, and where the instructions are *)
Record IRBlocks := mkIRBlocks {
  getParent : Ptr → Ptr;
  getNextNode : Ptr → option Ptr;
  block_insts : Ptr → list Ptr
}.

Section dominators.
Context {IO : IterOrder}.

(** ** State *)

(** [DominatorNode] *)
Record DominatorNode := mkDominatorNode {
  dn_B : option Ptr;
  dn_level : Z;
  dn_parent : option Ptr;
  dn_children : list Ptr
}.

(** [DominatorForest]. [post] is [None] while the code has not initialised it. *)
Record DominatorForest := mkDominatorForest {
  df_nodes : gset Ptr;
  df_bbNodeMap : gmap (option Ptr) Ptr;
  df_post : option bool
}.

Record DomHeap := mkDomHeap {
  dh_nodes : gmap Ptr DominatorNode;
  dh_next : Ptr
}.

Definition DSt : Type := DomHeap * DominatorForest.

Definition load_dom (n : Ptr) : M DSt DominatorNode := λ s, deref (dh_nodes s.1 !! n) s.
Definition store_dom (n : Ptr) (x : DominatorNode) : M DSt unit :=
  modify (λ s, (mkDomHeap (<[n := x]> (dh_nodes s.1)) (dh_next s.1), s.2)).
Definition new_dom (x : DominatorNode) : M DSt Ptr := λ s,
  let p := dh_next s.1 in
  Ok ((mkDomHeap (<[p := x]> (dh_nodes s.1)) (Pos.succ p), s.2), p).
Definition this_f : M DSt DominatorForest := gets snd.
Definition set_f (f : DominatorForest → DominatorForest) : M DSt unit :=
  modify (λ s, (s.1, f s.2)).

(** ** Construction *)

(** [DominatorNode(node)], for a node of llvm and for a node of a forest *)
Definition DominatorNode_new (B : option Ptr) (level : Z) : DominatorNode :=
  mkDominatorNode B level None [].

(** [collectNodesOfTree(T)]: the list is the stack, with its top first. The root node comes
    after the nodes of the roots, which are visited twice. *)
Definition collectStep (T : LLVMDomTree) (st : list (option Ptr) * gset Ptr)
    : Res (list (option Ptr) * gset Ptr + gset Ptr) :=
  let '(worklist, nodes) := st in
  match worklist with
  | [] => Ok (inr nodes)
  | None :: _ => Fail UndefinedBehaviour
  | Some node :: worklist =>
      match lt_nodes T !! node with
      | None => Fail UndefinedBehaviour
      | Some x => Ok (inl (reverse (Some <$> ln_children x) ++ worklist, {[node]} ∪ nodes))
      end
  end.
Definition collectNodesOfTree (T : LLVMDomTree) : Res (gset Ptr) :=
  let worklist := reverse ((lt_getNode T <$> lt_roots T) ++ [lt_getRootNode T]) in
  while (S (length worklist * size (dom (lt_nodes T)))) (collectStep T) (worklist, ∅).

(** [filterNodes(nodes, bbSubset)] *)
Definition filterNodes (nodes : gset Ptr) (bbSubset : gset (option Ptr)) : M DSt (gset Ptr) :=
  let* l := filterM (λ node,
    let* x := load_dom node in
    ret (bool_decide (dn_B x ∈ bbSubset))) (visit nodes) in
  ret (list_to_set l).

(** [cloneLLVMNodes] and [cloneNodes], which differ in the nodes they read: the first loop
    allocates the copies, the second links a copy to those of its children that have one. *)
Definition cloneOne (read : Ptr → M DSt (option Ptr * Z * list Ptr))
    (nodeMap : gmap Ptr Ptr) (node : Ptr) : M DSt (gmap Ptr Ptr) :=
  let* x := read node in
  let* summary := new_dom (DominatorNode_new x.1.1 x.1.2) in
  set_f (λ f, mkDominatorForest ({[summary]} ∪ df_nodes f) (<[x.1.1 := summary]> (df_bbNodeMap f))
                                (df_post f)) ;;;
  ret (<[node := summary]> nodeMap).
Definition linkChild (nodeMap : gmap Ptr Ptr) (summary child : Ptr) : M DSt unit :=
  match nodeMap !! child with
  | None => ret tt
  | Some childSummary =>
      let* c := load_dom childSummary in
      store_dom childSummary (mkDominatorNode (dn_B c) (dn_level c) (Some summary) (dn_children c)) ;;;
      let* s := load_dom summary in
      store_dom summary (mkDominatorNode (dn_B s) (dn_level s) (dn_parent s)
                                         (dn_children s ++ [childSummary]))
  end.
Definition linkOne (read : Ptr → M DSt (option Ptr * Z * list Ptr))
    (nodeMap : gmap Ptr Ptr) (node : Ptr) : M DSt unit :=
  let* summary := deref (nodeMap !! node) in
  let* x := read node in
  forM (linkChild nodeMap summary) x.2.
Definition cloneFrom (read : Ptr → M DSt (option Ptr * Z * list Ptr)) (nodesToClone : gset Ptr)
    : M DSt unit :=
  let* nodeMap := foldM (cloneOne read) ∅ (visit nodesToClone) in
  forM (linkOne read nodeMap) (visit nodesToClone).

Definition readLLVMNode (T : LLVMDomTree) (node : Ptr) : M DSt (option Ptr * Z * list Ptr) :=
  let* x := deref (lt_nodes T !! node) in
  ret (ln_block x, ln_level x, ln_children x).
Definition readNode (node : Ptr) : M DSt (option Ptr * Z * list Ptr) :=
  let* x := load_dom node in
  ret (dn_B x, dn_level x, dn_children x).
Definition cloneLLVMNodes (T : LLVMDomTree) : gset Ptr → M DSt unit := cloneFrom (readLLVMNode T).
Definition cloneNodes : gset Ptr → M DSt unit := cloneFrom readNode.

Definition emptyForest : DominatorForest := mkDominatorForest ∅ ∅ None.
Definition set_post (b : bool) (f : DominatorForest) : DominatorForest :=
  mkDominatorForest (df_nodes f) (df_bbNodeMap f) (Some b).

(** [DominatorForest(DT)] and [DominatorForest(PDT)] *)
Definition DominatorForest_ofTree (T : LLVMDomTree) (post : bool) : M DSt unit :=
  let* nodes := lift (collectNodesOfTree T) in
  set_f (λ _, emptyForest) ;;;
  cloneLLVMNodes T nodes ;;;
  set_f (set_post post).

(** [DominatorForest(DTS, bbSubset)], which leaves [post] uninitialised *)
Definition DominatorForest_subset (DTS : DominatorForest) (bbSubset : gset (option Ptr)) : M DSt unit :=
  let* nodes := filterNodes (df_nodes DTS) bbSubset in
  set_f (λ _, emptyForest) ;;;
  cloneNodes nodes.

(** [~DominatorForest()] *)
Definition DominatorForest_destroy : M DSt unit :=
  let* f := this_f in
  forM (λ node, modify (λ s, (mkDomHeap (delete node (dh_nodes s.1)) (dh_next s.1), s.2)))
       (visit (df_nodes f)) ;;;
  set_f (λ f, mkDominatorForest ∅ ∅ (df_post f)).

(** [transferToClones(bbCloneMap)]; [bbNodeMap] keeps its keys *)
Definition transferToClones (bbCloneMap : gmap (option Ptr) (option Ptr)) : M DSt unit :=
  let* f := this_f in
  forM (λ node,
    let* x := load_dom node in
    massert (bool_decide (is_Some (bbCloneMap !! dn_B x))) ;;;
    let* b := deref (bbCloneMap !! dn_B x) in
    store_dom node (mkDominatorNode b (dn_level x) (dn_parent x) (dn_children x)))
    (visit (df_nodes f)).

(** ** Queries *)

Definition getNode (B : option Ptr) : M DSt (option Ptr) :=
  let* f := this_f in ret (df_bbNodeMap f !! B).

(** [dominates(node1, node2)]: a breadth-first search of the sub-tree *)
Definition dominatesStep (node2 : Ptr) (worklist : list Ptr) : M DSt (list Ptr + bool) :=
  match worklist with
  | [] => ret (inr false)
  | node :: worklist =>
      if decide (node = node2) then ret (inr true)
      else
        let* x := load_dom node in
        ret (inl (worklist ++ dn_children x))
  end.
Definition dominatesNode (node1 node2 : Ptr) : M DSt bool :=
  let* f := this_f in
  whileM (S (size (df_nodes f))) (dominatesStep node2) [node1].

Definition dominatesBlock (B1 B2 : option Ptr) : M DSt bool :=
  let* nodeB1 := getNode B1 in
  let* nodeB2 := getNode B2 in
  match nodeB1, nodeB2 with
  | Some n1, Some n2 => dominatesNode n1 n2
  | _, _ => fail AssertionFailure
  end.

Definition strictlyDominatesBlock (B1 B2 : option Ptr) : M DSt bool :=
  if decide (B1 = B2) then ret false else dominatesBlock B1 B2.

(** [dominates(I, J)]: within a block, the list of instructions is walked from [I] *)
Definition walkStep (ir : IRBlocks) (secondOne : Ptr) (firstOne : option Ptr)
    : Res (option Ptr + bool) :=
  match firstOne with
  | None => Ok (inr false)
  | Some i => if decide (i = secondOne) then Ok (inr true) else Ok (inl (getNextNode ir i))
  end.
Definition dominatesInst (ir : IRBlocks) (I J : Ptr) : M DSt bool :=
  let B1 := getParent ir I in
  let B2 := getParent ir J in
  if decide (B1 = B2) then
    let* found := lift (while (S (S (length (block_insts ir B1)))) (walkStep ir J) (Some I)) in
    let* f := this_f in
    let* post := deref (df_post f) in
    ret (if post : bool then negb found else found)
  else dominatesBlock (Some B1) (Some B2).

Definition strictlyDominatesInst (ir : IRBlocks) (I J : Ptr) : M DSt bool :=
  if decide (I = J) then ret false else dominatesInst ir I J.

(** [dominates(node)]: the node and its ancestors *)
Definition climbStep (st : option Ptr * gset Ptr) : M DSt (option Ptr * gset Ptr + gset Ptr) :=
  match st.1 with
  | None => ret (inr st.2)
  | Some node =>
      let* x := load_dom node in
      ret (inl (dn_parent x, {[node]} ∪ st.2))
  end.
Definition dominatorsOf (node : option Ptr) : M DSt (gset Ptr) :=
  let* f := this_f in
  whileM (S (S (size (df_nodes f)))) climbStep (node, ∅).

Definition getDominatorsOf (ir : IRBlocks) (s : gset Ptr) (dominatedBB : Ptr) : M DSt (gset Ptr) :=
  let* r := filterM (λ value, dominatesBlock (Some (getParent ir value)) (Some dominatedBB))
                    (visit s) in
  ret (list_to_set r).

(** [addDescendants(n, ds)], recursive on the children *)
Fixpoint addDescendants (fuel : nat) (ds : gset (option Ptr)) (n : Ptr)
    : M DSt (gset (option Ptr)) :=
  match fuel with
  | O => fail OutOfFuel
  | S fuel =>
      let* x := load_dom n in
      foldM (addDescendants fuel) ({[dn_B x]} ∪ ds) (dn_children x)
  end.
Definition getDescendants (bb : option Ptr) : M DSt (gset (option Ptr)) :=
  let* bbNode := getNode bb in
  match bbNode with
  | None => fail AssertionFailure
  | Some n => let* f := this_f in addDescendants (S (size (df_nodes f))) ∅ n
  end.

Definition getInstructionsThatDoNotDominateAnyOther (ir : IRBlocks) (s : gset Ptr)
    : M DSt (gset Ptr) :=
  let* r := filterM (λ value,
    let* isDominatingOthers := anyM (λ otherValue,
      if decide (value = otherValue) then ret false else dominatesInst ir value otherValue)
      (visit s) in
    ret (negb isDominatingOthers)) (visit s) in
  ret (list_to_set r).

(** [findNearestCommonDominator] on nodes, climbing from the first one, and on blocks *)
Definition nearestStep (dominatorsOf2 : gset Ptr) (node : option Ptr)
    : M DSt (option Ptr + option Ptr) :=
  match node with
  | None => ret (inr None)
  | Some n =>
      if decide (n ∈ dominatorsOf2) then ret (inr (Some n))
      else let* x := load_dom n in ret (inl (dn_parent x))
  end.
Definition findNearestCommonDominatorNode (node1 node2 : Ptr) : M DSt (option Ptr) :=
  let* dominatorsOf2 := dominatorsOf (Some node2) in
  let* f := this_f in
  whileM (S (S (size (df_nodes f)))) (nearestStep dominatorsOf2) (Some node1).
Definition findNearestCommonDominator (B1 B2 : option Ptr) : M DSt (option Ptr) :=
  massert (bool_decide (B1 ≠ None)) ;;;
  massert (bool_decide (B2 ≠ None)) ;;;
  let* n1 := getNode B1 in
  let* n2 := getNode B2 in
  match n1, n2 with
  | Some n1, Some n2 =>
      let* c := findNearestCommonDominatorNode n1 n2 in
      match c with
      | Some c => let* x := load_dom c in ret (dn_B x)
      | None => fail AssertionFailure
      end
  | _, _ => fail AssertionFailure
  end.
End dominators.
