(* ===== verification/DominatorsQuery.v ===== *)
(** * The queries of a dominator forest

    On a well-formed forest the searches terminate and agree with the ancestor relation. *)
From S2P Require Import Prelude Forest Dominators.

Definition kids_of (h : DomHeap) (n : Ptr) : list Ptr := default [] (dn_children <$> dh_nodes h !! n).
Definition par_of (h : DomHeap) (n : Ptr) : option Ptr := dh_nodes h !! n ≫= dn_parent.
Definition rank_of (h : DomHeap) (n : Ptr) : nat := Z.to_nat (default 0%Z (dn_level <$> dh_nodes h !! n)).
Definition block_of (h : DomHeap) (n : Ptr) : option Ptr := dh_nodes h !! n ≫= dn_B.

(** the nodes are live, they form a forest, and the map takes a block to its node *)
Record dom_wf (h : DomHeap) (f : DominatorForest) : Prop := {
  dw_live n : n ∈ df_nodes f → is_Some (dh_nodes h !! n);
  dw_forest : is_forest (df_nodes f) (kids_of h) (par_of h) (rank_of h);
  dw_map b n : df_bbNodeMap f !! b = Some n ↔ n ∈ df_nodes f ∧ block_of h n = b;
  dw_next n : is_Some (dh_nodes h !! n) → (n < dh_next h)%positive
}.

(** [a] is [b] or an ancestor of it *)
Definition dom_above (h : DomHeap) (f : DominatorForest) : relation Ptr :=
  above (df_nodes f) (kids_of h).

Section queries.
Context {IO : IterOrder} (h : DomHeap) (f : DominatorForest) (W : dom_wf h f).
Local Abbreviation U := (df_nodes f).
Local Abbreviation F := (dw_forest h f W).
Local Abbreviation wt := (weight U (kids_of h) (rank_of h)).

Lemma load_dom_run n : n ∈ U → ∃ x, dh_nodes h !! n = Some x ∧ load_dom n (h, f) = Ok ((h, f), x) ∧
  dn_children x = kids_of h n ∧ dn_parent x = par_of h n ∧ dn_B x = block_of h n.
Proof.
  intros [x Hx]%(dw_live h f W). exists x. unfold load_dom, kids_of, par_of, block_of. simpl.
  by rewrite Hx.
Qed.

Lemma dominatesNode_run n1 n2 : n1 ∈ U →
  ∃ b, dominatesNode n1 n2 (h, f) = Ok ((h, f), b) ∧ (b = true ↔ dom_above h f n1 n2).
Proof.
  intros Hn1. assert (wp (dominatesNode n1 n2) (λ b s', s' = (h, f) ∧
    (b = true ↔ dom_above h f n1 n2)) (h, f)) as Hwp.
  { unfold dominatesNode. apply wp_bind, wp_gets.
    apply (wp_whileM _ (λ q s, s = (h, f) ∧ (∀ n, n ∈ q → n ∈ U) ∧
             (dom_above h f n1 n2 ↔ ∃ n, n ∈ q ∧ dom_above h f n n2))
             (λ q _, sum_list_with wt q)).
    - split; [done|]. split; [set_solver|]. split.
      + intros H. exists n1. split; [by left|done].
      + intros (n & ->%list_elem_of_singleton & H). done.
    - intros [|n q] s (-> & Hq & Hab); cbn [dominatesStep].
      { apply wp_ret. split; [done|]. rewrite Hab. split; [done|].
        intros (n & Hn & _). by apply elem_of_nil in Hn. }
      assert (n ∈ U) as Hn by (apply Hq; by left).
      case_decide as Hne.
      { apply wp_ret. split; [done|]. split; [|done]. intros _. apply Hab. exists n.
        split; [by left|]. subst. apply rtc_refl. }
      destruct (load_dom_run n Hn) as (x & _ & Hrun & Hk & _).
      apply (wp_bind_run _ _ _ _ _ _ Hrun), wp_ret. rewrite Hk. split.
      + split; [done|]. split.
        * intros m [Hm|Hm]%elem_of_app; [apply Hq; by right|].
          by apply (child_in _ _ _ _ F n m).
        * rewrite Hab. split.
          -- intros (m & [->|Hm]%elem_of_cons & Hmn); [|exists m; split; [|done]; apply elem_of_app; by left].
             apply rtc_inv in Hmn as [->|(c & [_ Hc] & Hcn)]; [done|].
             exists c. split; [|done]. apply elem_of_app. by right.
          -- intros (m & [Hm|Hm]%elem_of_app & Hmn); [exists m; split; [by right|done]|].
             exists n. split; [by left|]. eapply rtc_l; [|done]. done.
      + rewrite sum_list_with_app. cbn [sum_list_with]. rewrite (weight_kids _ _ _ _ F n) by done. lia.
    - cbn [sum_list_with snd]. pose proof (weight_bound _ _ _ _ F n1 Hn1). lia. }
  apply wp_ok in Hwp as ([h' f'] & b & Hrun & [= -> ->] & Hb). eauto.
Qed.

(** climbing to the parent makes the sub-tree grow *)
Lemma weight_parent n p : n ∈ U → par_of h n = Some p →
  p ∈ U ∧ wt n < wt p ∧ wt p ≤ size U ∧ ∀ a, dom_above h f a n ↔ a = n ∨ dom_above h f a p.
Proof.
  intros Hn Hp. destruct (fo_par _ _ _ _ F n p Hn Hp) as [HpU _].
  assert (child U (kids_of h) p n) as Hc by (by apply (child_inv _ _ _ _ F)).
  split; [done|]. split; [by apply (weight_child _ _ _ _ F)|].
  split; [by apply (weight_bound _ _ _ _ F)|]. intros a.
  unfold dom_above. rewrite (above_parent _ _ _ _ F a n). naive_solver.
Qed.

Lemma above_root n a : n ∈ U → par_of h n = None → dom_above h f a n ↔ a = n.
Proof.
  intros Hn Hp. unfold dom_above. rewrite (above_parent _ _ _ _ F a n). naive_solver.
Qed.

(** how far a node is from a root, for the fuel of the climbs *)
Definition climb_measure (node : option Ptr) : nat :=
  match node with None => 0 | Some n => S (size U - wt n) end.

Lemma climb_parent n : n ∈ U → climb_measure (par_of h n) < climb_measure (Some n).
Proof.
  intros Hn. destruct (par_of h n) as [p|] eqn:Hp; simpl; [|lia].
  destruct (weight_parent n p Hn Hp) as (_ & ? & ? & _). lia.
Qed.

Lemma climb_fuel n : n ∈ U → climb_measure (Some n) < S (S (size U)).
Proof. intros Hn. simpl. lia. Qed.

Lemma dominatorsOf_run n : n ∈ U →
  ∃ s, dominatorsOf (Some n) (h, f) = Ok ((h, f), s) ∧ ∀ a, a ∈ s ↔ dom_above h f a n.
Proof.
  intros Hn. assert (wp (dominatorsOf (Some n)) (λ s s', s' = (h, f) ∧
    ∀ a, a ∈ s ↔ dom_above h f a n) (h, f)) as Hwp.
  { unfold dominatorsOf. apply wp_bind, wp_gets.
    apply (wp_whileM _ (λ st s, s = (h, f) ∧ (∀ m, st.1 = Some m → m ∈ U) ∧
             ∀ a, dom_above h f a n ↔ a ∈ st.2 ∨ ∃ m, st.1 = Some m ∧ dom_above h f a m)
             (λ st _, climb_measure st.1)).
    - split; [done|]. split; [naive_solver|]. intros a. set_solver.
    - intros [[m|] acc] s (-> & Hm & Hab); unfold climbStep; simpl in *.
      2:{ apply wp_ret. split; [done|]. intros a. rewrite Hab. naive_solver. }
      specialize (Hm m eq_refl). destruct (load_dom_run m Hm) as (x & _ & Hrun & _ & Hp & _).
      apply (wp_bind_run _ _ _ _ _ _ Hrun), wp_ret. rewrite Hp. simpl.
      split; [|by apply climb_parent]. split; [done|]. split.
      + intros p Hp'. by apply (weight_parent m p Hm Hp').
      + intros a. rewrite Hab, elem_of_union, elem_of_singleton. destruct (par_of h m) as [p|] eqn:Hp'.
        * destruct (weight_parent m p Hm Hp') as (_ & _ & _ & Ha). specialize (Ha a). naive_solver.
        * pose proof (above_root m a Hm Hp'). naive_solver.
    - by apply climb_fuel. }
  apply wp_ok in Hwp as ([h' f'] & s & Hrun & [= -> ->] & Hs). eauto.
Qed.

Lemma findNearestCommonDominatorNode_run n1 n2 : n1 ∈ U → n2 ∈ U →
  ∃ r, findNearestCommonDominatorNode n1 n2 (h, f) = Ok ((h, f), r) ∧
    match r with
    | Some c => dom_above h f c n1 ∧ dom_above h f c n2 ∧
        ∀ a, dom_above h f a n1 → dom_above h f a n2 → dom_above h f a c
    | None => ∀ a, dom_above h f a n1 → ¬ dom_above h f a n2
    end.
Proof.
  intros Hn1 Hn2. destruct (dominatorsOf_run n2 Hn2) as (doms & Hdoms & Hin).
  assert (wp (findNearestCommonDominatorNode n1 n2) (λ r s', s' = (h, f) ∧
    match r with
    | Some c => dom_above h f c n1 ∧ dom_above h f c n2 ∧
        ∀ a, dom_above h f a n1 → dom_above h f a n2 → dom_above h f a c
    | None => ∀ a, dom_above h f a n1 → ¬ dom_above h f a n2
    end) (h, f)) as Hwp.
  { unfold findNearestCommonDominatorNode. apply (wp_bind_run _ _ _ _ _ _ Hdoms).
    apply wp_bind, wp_gets.
    apply (wp_whileM _ (λ c s, s = (h, f) ∧ (∀ m, c = Some m → m ∈ U ∧ dom_above h f m n1) ∧
             ∀ a, dom_above h f a n1 → dom_above h f a n2 → ∃ m, c = Some m ∧ dom_above h f a m)
             (λ c _, climb_measure c)).
    - split; [done|]. split; [intros m [= <-]; split; [done|apply rtc_refl]|]. eauto.
    - intros [m|] s (-> & Hm & Hab); simpl.
      2:{ apply wp_ret. split; [done|]. intros a H1 H2. by destruct (Hab a H1 H2) as (? & ? & _). }
      destruct (Hm m eq_refl) as [HmU Hmn].
      case_decide as Hd.
      { apply wp_ret. split; [done|]. split; [done|]. split; [by apply Hin|].
        intros a H1 H2. by destruct (Hab a H1 H2) as (? & [= <-] & ?). }
      destruct (load_dom_run m HmU) as (x & _ & Hrun & _ & Hp & _).
      apply (wp_bind_run _ _ _ _ _ _ Hrun), wp_ret. rewrite Hp.
      split; [|by apply climb_parent]. split; [done|]. split.
      + intros p Hp'. destruct (weight_parent m p HmU Hp') as (? & _ & _ & Ha). split; [done|].
        transitivity m; [|exact Hmn]. apply Ha. right. apply rtc_refl.
      + intros a H1 H2. destruct (Hab a H1 H2) as (? & [= <-] & Ham).
        destruct (par_of h m) as [p|] eqn:Hp'.
        * apply (weight_parent m p HmU Hp') in Ham as [->|Ham]; [|by eauto]. by apply Hin in H2.
        * apply (above_root m a HmU Hp') in Ham as ->. by apply Hin in H2.
    - by apply climb_fuel. }
  apply wp_ok in Hwp as ([h' f'] & r & Hrun & [= -> ->] & Hr). eauto.
Qed.

Lemma addDescendants_run fuel ds n : n ∈ U → wt n ≤ fuel →
  ∃ s, addDescendants fuel ds n (h, f) = Ok ((h, f), s) ∧
    ∀ b, b ∈ s ↔ b ∈ ds ∨ ∃ m, dom_above h f n m ∧ block_of h m = b.
Proof.
  revert ds n. induction fuel as [|fuel IH]; intros ds n Hn Hf.
  { pose proof (weight_pos _ _ _ _ F n Hn). lia. }
  destruct (load_dom_run n Hn) as (x & _ & Hrun & Hk & _ & HB).
  assert (wp (addDescendants (S fuel) ds n) (λ s s', s' = (h, f) ∧
    ∀ b, b ∈ s ↔ b ∈ ds ∨ ∃ m, dom_above h f n m ∧ block_of h m = b) (h, f)) as Hwp.
  { simpl. apply (wp_bind_run _ _ _ _ _ _ Hrun). rewrite Hk, HB.
    eapply wp_mono; [apply (wp_foldM _ (λ pre _ acc s, s = (h, f) ∧ ∀ b, b ∈ acc ↔
      b ∈ ds ∨ b = block_of h n ∨ ∃ c m, c ∈ pre ∧ dom_above h f c m ∧ block_of h m = b))|].
    - split; [done|]. intros b. rewrite elem_of_union, elem_of_singleton. split; [tauto|].
      intros [?|[?|(c & m & Hc & _)]]; [tauto..|]. by apply elem_of_nil in Hc.
    - intros pre c post acc s Hl (-> & Hacc).
      assert (child U (kids_of h) n c) as Hc by (split; [done|]; rewrite Hl; set_solver).
      destruct (IH acc c) as (s & Hs & Hin).
      { by apply (child_in _ _ _ _ F n c). }
      { pose proof (weight_child _ _ _ _ F n c Hc). lia. }
      unfold wp. rewrite Hs. split; [done|]. intros b. rewrite Hin, Hacc.
      setoid_rewrite elem_of_snoc. clear. naive_solver.
    - intros s s' (-> & Hs). split; [done|]. intros b. rewrite Hs. split.
      + intros [?|[->|(c & m & Hc & Hcm & Hb)]]; [by left|right..].
        * exists n. split; [apply rtc_refl|done].
        * exists m. split; [|done]. by eapply rtc_l.
      + intros [?|(m & Hnm & Hb)]; [by left|right].
        apply rtc_inv in Hnm as [->|(c & [_ Hc] & Hcm)]; [by left|right]. by exists c, m. }
  apply wp_ok in Hwp as ([h' f'] & s & Hr & [= -> ->] & Hs). eauto.
Qed.

(** *** By blocks *)

Lemma getNode_run b : getNode b (h, f) = Ok ((h, f), df_bbNodeMap f !! b).
Proof. done. Qed.

Lemma node_in b n : df_bbNodeMap f !! b = Some n → n ∈ U ∧ block_of h n = b.
Proof. apply (dw_map h f W). Qed.

Lemma dominatesBlock_run b1 b2 n1 n2 :
  df_bbNodeMap f !! b1 = Some n1 → df_bbNodeMap f !! b2 = Some n2 →
  ∃ r, dominatesBlock b1 b2 (h, f) = Ok ((h, f), r) ∧ (r = true ↔ dom_above h f n1 n2).
Proof.
  intros H1 H2. unfold dominatesBlock, bind. rewrite !getNode_run, H1, H2.
  apply dominatesNode_run. by apply (node_in b1).
Qed.
End queries.
