(* ===== verification/DominatorsClone.v ===== *)
(** * Building a dominator forest

    The copy of a set of nodes of a forest is a well-formed forest: it has one node per node
    copied, with its block and its depth, and the links whose two ends are copied. *)
From S2P Require Import Prelude Forest Dominators DominatorsQuery.

Lemma map_insert_inj (m : gmap Ptr Ptr) k v a b q :
  (∀ a b q, m !! a = Some q → m !! b = Some q → a = b) → (∀ a, m !! a ≠ Some v) →
  <[k := v]> m !! a = Some q → <[k := v]> m !! b = Some q → a = b.
Proof.
  intros Hinj Hv. rewrite !lookup_insert_Some.
  intros [[<- <-]|[? Ha]] [[<- Hq]|[? Hb]]; [done|by destruct (Hv b)| |by eapply Hinj].
  subst. by destruct (Hv a).
Qed.

Section clone.
Context {IO : IterOrder}.
Variables (read : Ptr → M DSt (option Ptr * Z * list Ptr)) (S0 : gset Ptr).
Variables (src_block : Ptr → option Ptr) (src_level : Ptr → Z) (src_kids : Ptr → list Ptr).
Variables (V : gset Ptr) (src_par : Ptr → option Ptr).
Variable base : gmap Ptr DominatorNode.

(** the source is a forest whose blocks differ, and allocation does not disturb it *)
Context (SF : is_forest V src_kids src_par (λ n, Z.to_nat (src_level n))).
Context (Sub : S0 ⊆ V).
Context (Hblock : ∀ a b, a ∈ S0 → b ∈ S0 → src_block a = src_block b → a = b).
Context (Hread : ∀ n s, n ∈ S0 → base ⊆ dh_nodes s.1 →
  read n s = Ok (s, (src_block n, src_level n, src_kids n))).

(** *** The copies *)

Record copied (pre : list Ptr) (m : gmap Ptr Ptr) (s : DSt) : Prop := {
  co_base : base ⊆ dh_nodes s.1;
  co_dom n : is_Some (m !! n) ↔ n ∈ pre;
  co_node n q : m !! n = Some q →
    dh_nodes s.1 !! q = Some (mkDominatorNode (src_block n) (src_level n) None []) ∧ base !! q = None;
  co_inj a b q : m !! a = Some q → m !! b = Some q → a = b;
  co_nodes q : q ∈ df_nodes s.2 ↔ ∃ n, m !! n = Some q;
  co_map b q : df_bbNodeMap s.2 !! b = Some q ↔ ∃ n, m !! n = Some q ∧ src_block n = b;
  co_next q : is_Some (dh_nodes s.1 !! q) → (q < dh_next s.1)%positive;
  co_post : df_post s.2 = None
}.

Lemma cloneOne_spec pre m s n : copied pre m s → n ∈ S0 → n ∉ pre → (∀ k, k ∈ pre → k ∈ S0) →
  wp (cloneOne read m n) (λ m' s', copied (pre ++ [n]) m' s') s.
Proof.
  intros C Hn Hpre Hsub. unfold cloneOne.
  apply (wp_bind_run _ _ _ _ _ _ (Hread n s Hn (co_base _ _ _ C))). simpl.
  apply wp_bind. unfold wp at 1, new_dom. apply wp_bind, wp_modify, wp_ret. simpl.
  set (p := dh_next s.1).
  assert (dh_nodes s.1 !! p = None) as Hp.
  { apply eq_None_not_Some. intros Hp%(co_next _ _ _ C). unfold p in Hp. lia. }
  assert (m !! n = None) as Hmn by (apply eq_None_not_Some; by rewrite (co_dom _ _ _ C)).
  assert (∀ a, m !! a ≠ Some p) as Hmp.
  { intros a Ha. apply (co_node _ _ _ C) in Ha as [Ha _]. congruence. }
  destruct C as [C1 C2 C3 C4 C5 C6 C7 C8]. split; simpl.
  - by apply insert_subseteq_r; [apply (lookup_weaken_None _ _ _ Hp)|].
  - intros k. rewrite elem_of_snoc, lookup_insert_is_Some. rewrite C2.
    destruct (decide (n = k)); naive_solver.
  - intros k q. rewrite lookup_insert_Some. intros [[<- <-]|[Hk Hq]].
    + rewrite lookup_insert_eq. split; [done|]. by apply (lookup_weaken_None _ _ _ Hp).
    + rewrite lookup_insert_ne by (intros ->; by destruct (Hmp k)). by apply C3.
  - intros a b q. by apply map_insert_inj.
  - intros q. rewrite elem_of_union, elem_of_singleton, C5. setoid_rewrite lookup_insert_Some.
    split; [|naive_solver]. intros [->|(k & Hk)]; [eauto|]. exists k. right. split; [congruence|done].
  - intros b q. rewrite lookup_insert_Some, C6. setoid_rewrite lookup_insert_Some. split.
    + intros [[<- <-]|(Hb & k & Hk & <-)]; [eauto|]. exists k. split; [right|]; [|done].
      split; [congruence|done].
    + intros (k & [[<- <-]|[Hk Hq]] & Hb); [by left|right]. split; [|eauto]. intros Hb'.
      apply Hk, Hblock; [done| |congruence]. apply Hsub, C2. eauto.
  - intros q. rewrite lookup_insert_is_Some. intros [<-|[_ Hq%C7]]; lia.
  - done.
Qed.

Lemma cloneOnes_spec s :
  dh_nodes s.1 = base → (∀ q, is_Some (base !! q) → (q < dh_next s.1)%positive) → s.2 = emptyForest →
  wp (foldM (cloneOne read) ∅ (visit S0)) (λ m s', copied (visit S0) m s') s.
Proof.
  intros Hb Hnext Hf.
  eapply wp_mono; [apply (wp_foldM _ (λ pre _ m s', copied pre m s'))|done].
  - split; rewrite ?Hb, ?Hf; simpl; try done; intros *; rewrite ?lookup_empty; try done.
    + split; [by intros []|]. by intros ?%elem_of_nil.
    + split; [by intros ?%elem_of_empty|]. intros [n Hn]. done.
    + split; [done|]. by intros (n & Hn & _).
  - intros pre x post m s' Hl C. destruct (visit_split _ _ _ _ Hl) as (Hx & Hpre & Hin & _).
    by apply cloneOne_spec.
Qed.

(** *** The links *)

(** [lk n] is the part of the children of [n] that has been linked *)
Record linked (m : gmap Ptr Ptr) (f : DominatorForest) (lk : Ptr → list Ptr) (s : DSt) : Prop := {
  li_f : s.2 = f;
  li_base : base ⊆ dh_nodes s.1;
  li_kids n c : c ∈ lk n → n ∈ S0 ∧ c ∈ src_kids n;
  li_node n q : m !! n = Some q → base !! q = None ∧
    ∃ x, dh_nodes s.1 !! q = Some x ∧ dn_B x = src_block n ∧ dn_level x = src_level n ∧
      dn_children x = omap (m !!.) (lk n) ∧
      ∀ pq, dn_parent x = Some pq ↔ ∃ p, m !! p = Some pq ∧ n ∈ lk p;
  li_next q : is_Some (dh_nodes s.1 !! q) → (q < dh_next s.1)%positive
}.

Definition link_more (lk : Ptr → list Ptr) (n c : Ptr) (k : Ptr) : list Ptr :=
  if decide (k = n) then lk n ++ [c] else lk k.

Lemma elem_of_link_more lk n c k d : d ∈ link_more lk n c k ↔ d ∈ lk k ∨ (k = n ∧ d = c).
Proof. unfold link_more. case_decide; subst; rewrite ?elem_of_snoc; naive_solver. Qed.

Context (m : gmap Ptr Ptr) (f : DominatorForest).
Context (Hdom : ∀ n, is_Some (m !! n) ↔ n ∈ S0).
Context (Hinj : ∀ a b q, m !! a = Some q → m !! b = Some q → a = b).

Lemma linkChild_spec lk s n c q : linked m f lk s → n ∈ S0 → m !! n = Some q → c ∈ src_kids n →
  wp (linkChild m q c) (λ _ s', linked m f (link_more lk n c) s') s.
Proof.
  intros L Hn Hq Hc.
  assert (child V src_kids n c) as Hnc by (split; [by apply Sub|done]).
  destruct (child_in _ _ _ _ SF n c Hnc) as (_ & HcV & Hrank).
  assert (∀ k d, d ∈ link_more lk n c k → k ∈ S0 ∧ d ∈ src_kids k) as Hkids.
  { intros k d [Hd|[-> ->]]%elem_of_link_more; [by apply (li_kids _ _ _ _ L)|done]. }
  unfold linkChild. destruct (m !! c) as [qc|] eqn:Hmc.
  2:{ apply wp_ret. destruct L as [L1 L2 L3 L4 L5]. split; try done. intros k qk Hk.
      destruct (L4 k qk Hk) as (Hb & x & Hx & HB & HL & HC & HP). split; [done|].
      exists x. split_and!; try done.
      - rewrite HC. unfold link_more. case_decide as Heq; [|done]. subst. rewrite omap_app. simpl.
        by rewrite Hmc, app_nil_r.
      - intros pq. rewrite HP. setoid_rewrite elem_of_link_more. split; [naive_solver|].
        intros (p & Hp & [?|[-> ->]]); [eauto|congruence]. }
  assert (c ≠ n) as Hcn by (intros ->; lia).
  assert (qc ≠ q) as Hqcq by (intros ->; by apply Hcn, (Hinj c n q)).
  destruct (li_node _ _ _ _ L c qc Hmc) as (Hbc & xc & Hxc & HBc & HLc & HCc & HPc).
  destruct (li_node _ _ _ _ L n q Hq) as (Hbn & xn & Hxn & HBn & HLn & HCn & HPn).
  apply wp_bind. unfold wp at 1, load_dom. rewrite Hxc. simpl.
  apply wp_bind, wp_modify. simpl. apply wp_bind. unfold wp at 1, load_dom. simpl.
  rewrite lookup_insert_ne by done. rewrite Hxn. simpl. apply wp_modify.
  split; simpl.
  - apply (li_f _ _ _ _ L).
  - do 2 (apply insert_subseteq_r; [done|]). apply (li_base _ _ _ _ L).
  - apply Hkids.
  - intros k qk Hk. destruct (li_node _ _ _ _ L k qk Hk) as (Hb & x & Hx & HB & HL & HC & HP).
    split; [done|]. destruct (decide (k = n)) as [->|Hkn].
    + assert (qk = q) as -> by congruence. simplify_eq. rewrite lookup_insert_eq.
      eexists. split; [done|]. simpl. split_and!; try done.
      * rewrite HCn. unfold link_more. rewrite decide_True by done. rewrite omap_app. simpl. by rewrite Hmc.
      * intros pq. rewrite HPn. setoid_rewrite elem_of_link_more. naive_solver.
    + rewrite lookup_insert_ne by (intros ->; by apply Hkn, (Hinj k n qk)).
      assert (omap (m !!.) (link_more lk n c k) = omap (m !!.) (lk k)) as Hom
        by (unfold link_more; by rewrite decide_False).
      destruct (decide (k = c)) as [->|Hkc].
      * assert (qk = qc) as -> by congruence. simplify_eq. rewrite lookup_insert_eq.
        eexists. split; [done|]. simpl. split_and!; try done; [by rewrite Hom|].
        intros pq. setoid_rewrite elem_of_link_more. split.
        -- intros [= <-]. exists n. auto.
        -- intros (p & Hp & Hpc). assert (p = n) as ->; [|congruence].
           destruct Hpc as [Hpc|[-> _]]; [|done].
           destruct (li_kids _ _ _ _ L p c Hpc) as [HpS Hpk].
           apply (child_par _ _ _ _ SF p n c); [|done]. split; [by apply Sub|done].
      * rewrite lookup_insert_ne by (intros ->; by apply Hkc, (Hinj k c qk)).
        exists x. split_and!; try done; [by rewrite Hom|].
        intros pq. rewrite HP. setoid_rewrite elem_of_link_more. naive_solver.
  - intros k. rewrite !lookup_insert_is_Some. pose proof (li_next _ _ _ _ L) as Hnx.
    intros [<-|[_ [<-|[_ Hk]]]]; apply Hnx; by eauto.
Qed.

(** the links of the nodes of [pre] and the first children of [n] *)
Definition links (pre : list Ptr) (n : Ptr) (cs : list Ptr) (k : Ptr) : list Ptr :=
  if decide (k ∈ pre) then src_kids k else if decide (k = n) then cs else [].

Lemma linked_ext lk lk' s : (∀ k, lk k = lk' k) → linked m f lk s → linked m f lk' s.
Proof.
  intros E [L1 L2 L3 L4 L5]. split; try done.
  - intros k d. rewrite <- E. apply L3.
  - intros k q Hk. destruct (L4 k q Hk) as (? & x & ? & ? & ? & ? & HP). split; [done|].
    exists x. rewrite <- E. split_and!; try done. intros pq. rewrite HP. by setoid_rewrite E.
Qed.

Lemma linkOne_spec pre n s : linked m f (links pre n []) s → n ∈ S0 → n ∉ pre →
  wp (linkOne read m n) (λ _ s', linked m f (links (pre ++ [n]) n []) s') s.
Proof.
  intros L Hn Hpre. unfold linkOne. destruct (proj2 (Hdom n) Hn) as [q Hq]. rewrite Hq.
  apply wp_bind, wp_ret.
  apply (wp_bind_run _ _ _ _ _ _ (Hread n s Hn (li_base _ _ _ _ L))). simpl.
  eapply wp_mono; [apply (wp_forM _ (λ cs _ s', linked m f (links pre n cs) s'))|].
  - done.
  - intros cs c post s' Hl L'. eapply wp_mono; [eapply linkChild_spec; [exact L'|done..|]|].
    + rewrite Hl. set_solver.
    + intros [] s''. apply linked_ext. intros k. unfold link_more, links.
      destruct (decide (k = n)) as [->|]; [|done].
      destruct (decide (n ∈ pre)); [done|]. by destruct (decide (n = n)).
  - intros [] s'. apply linked_ext. intros k. unfold links.
    destruct (decide (k ∈ pre)); [by rewrite decide_True by (apply elem_of_snoc; by left)|].
    destruct (decide (k = n)) as [->|Hk]; [by rewrite decide_True by (apply elem_of_snoc; by right)|].
    rewrite decide_False; [done|]. rewrite elem_of_snoc. tauto.
Qed.
End clone.

(** *** The copy of a forest *)

(** [m] takes the nodes of [S0] to their copies in [s] *)
Record clone_of (S0 : gset Ptr) (src_block : Ptr → option Ptr) (src_level : Ptr → Z)
    (src_kids : Ptr → list Ptr) (base : gmap Ptr DominatorNode) (m : gmap Ptr Ptr) (s : DSt) : Prop := {
  cl_wf : dom_wf s.1 s.2;
  cl_base : base ⊆ dh_nodes s.1;
  cl_dom n : is_Some (m !! n) ↔ n ∈ S0;
  cl_inj a b q : m !! a = Some q → m !! b = Some q → a = b;
  cl_nodes q : q ∈ df_nodes s.2 ↔ ∃ n, m !! n = Some q;
  cl_node n q : m !! n = Some q → base !! q = None ∧ ∃ x, dh_nodes s.1 !! q = Some x ∧
    dn_B x = src_block n ∧ dn_level x = src_level n;
  cl_child a b p q : m !! a = Some p → m !! b = Some q →
    child (df_nodes s.2) (kids_of s.1) p q ↔ b ∈ src_kids a;
  cl_post : df_post s.2 = None
}.

Section result.
Context {IO : IterOrder}.
Variables (read : Ptr → M DSt (option Ptr * Z * list Ptr)) (S0 : gset Ptr).
Variables (src_block : Ptr → option Ptr) (src_level : Ptr → Z) (src_kids : Ptr → list Ptr).
Variables (V : gset Ptr) (src_par : Ptr → option Ptr).
Variable base : gmap Ptr DominatorNode.
Context (SF : is_forest V src_kids src_par (λ n, Z.to_nat (src_level n))).
Context (Sub : S0 ⊆ V).
Context (Hblock : ∀ a b, a ∈ S0 → b ∈ S0 → src_block a = src_block b → a = b).
Context (Hread : ∀ n s, n ∈ S0 → base ⊆ dh_nodes s.1 →
  read n s = Ok (s, (src_block n, src_level n, src_kids n))).

Lemma omap_inj_NoDup (m : gmap Ptr Ptr) l :
  (∀ a b q, m !! a = Some q → m !! b = Some q → a = b) → NoDup l → NoDup (omap (m !!.) l).
Proof.
  intros Hinj. induction 1 as [|x l Hx _ IH]; simpl; [apply NoDup_nil_2|].
  destruct (m !! x) as [q|] eqn:Hq; [|done]. apply NoDup_cons. split; [|done].
  rewrite list_elem_of_omap. intros (y & Hy & Hyq). apply Hx. by rewrite (Hinj x y q).
Qed.

Lemma clone_finished m f s :
  linked S0 src_block src_level src_kids base m f
    (λ k, if decide (k ∈ S0) then src_kids k else []) s →
  (∀ n, is_Some (m !! n) ↔ n ∈ S0) → (∀ a b q, m !! a = Some q → m !! b = Some q → a = b) →
  (∀ q, q ∈ df_nodes f ↔ ∃ n, m !! n = Some q) →
  (∀ b q, df_bbNodeMap f !! b = Some q ↔ ∃ n, m !! n = Some q ∧ src_block n = b) →
  df_post f = None →
  clone_of S0 src_block src_level src_kids base m s.
Proof.
  intros [L1 L2 L3 L4 L5] Hdom Hinj Hnodes Hmap Hpost.
  assert (∀ n q, m !! n = Some q → n ∈ S0) as Hin by (intros n q Hq; apply Hdom; eauto).
  assert (∀ n q, m !! n = Some q → block_of s.1 q = src_block n ∧
    rank_of s.1 q = Z.to_nat (src_level n) ∧ kids_of s.1 q = omap (m !!.) (src_kids n) ∧
    ∀ pq, par_of s.1 q = Some pq ↔ ∃ p, m !! p = Some pq ∧ n ∈ src_kids p) as Hview.
  { intros n q Hq. destruct (L4 n q Hq) as (_ & x & Hx & HB & HL & HC & HP).
    unfold block_of, rank_of, kids_of, par_of. rewrite Hx. simpl.
    rewrite HB, HL, HC, decide_True by eauto. split_and!; [done..|].
    intros pq. rewrite HP. split; intros (p & Hp & Hnp); exists p; (split; [done|]).
    - by case_decide; [|apply elem_of_nil in Hnp].
    - by rewrite decide_True by eauto. }
  assert (∀ a b p q, m !! a = Some p → m !! b = Some q → q ∈ kids_of s.1 p ↔ b ∈ src_kids a) as Hkid.
  { intros a b p q Ha Hb. destruct (Hview a p Ha) as (_ & _ & -> & _). rewrite list_elem_of_omap.
    split; [|by eauto]. intros (c & Hc & Hcq). by rewrite <- (Hinj c b q). }
  split; try done; rewrite ?L1; try done.
  - split; simpl.
    + intros q (n & Hn)%Hnodes. destruct (L4 n q Hn) as (_ & x & Hx & _). eauto.
    + split; simpl.
      * intros q (n & Hn)%Hnodes. destruct (Hview n q Hn) as (_ & _ & -> & _).
        apply omap_inj_NoDup; [done|]. apply (fo_kids _ _ _ _ SF). by eapply Sub, Hin.
      * intros p c (n & Hn)%Hnodes. destruct (Hview n p Hn) as (_ & _ & -> & _).
        rewrite list_elem_of_omap, Hnodes. split.
        -- intros (k & Hk & Hkc). split; [eauto|]. apply (Hview k c Hkc). eauto.
        -- intros [(k & Hkc) Hp]. apply (Hview k c Hkc) in Hp as (p' & Hp' & Hk).
           exists k. by rewrite (Hinj n p' p).
      * intros c p (n & Hn)%Hnodes Hp. destruct (Hview n c Hn) as (_ & Hr & _ & HP).
        apply HP in Hp as (k & Hk & Hnk). destruct (Hview k p Hk) as (_ & Hr' & _).
        rewrite Hnodes, Hr, Hr'. split; [eauto|].
        apply (child_in _ _ _ _ SF k n). split; [by eapply Sub, Hin|done].
    + intros b q. rewrite Hmap, Hnodes. split.
      * intros (n & Hn & <-). split; [eauto|]. by apply (Hview n q).
      * intros [(n & Hn) Hb]. exists n. split; [done|]. rewrite <- Hb. symmetry. by apply (Hview n q).
    + done.
  - intros n q Hq. destruct (L4 n q Hq) as (Hb & x & Hx & HB & HL & _). eauto 10.
  - intros a b p q Ha Hb. rewrite <- (Hkid a b p q Ha Hb). unfold child.
    assert (p ∈ df_nodes f) by (apply Hnodes; eauto). tauto.
Qed.

Lemma cloneFrom_spec s :
  dh_nodes s.1 = base → (∀ q, is_Some (base !! q) → (q < dh_next s.1)%positive) → s.2 = emptyForest →
  wp (cloneFrom read S0) (λ _ s', ∃ m, clone_of S0 src_block src_level src_kids base m s') s.
Proof.
  intros Hb Hnext Hf. unfold cloneFrom. apply wp_bind.
  eapply wp_mono; [by apply (cloneOnes_spec read S0 src_block src_level src_kids base)|].
  intros m s1 C. destruct C as [C1 C2 C3 C4 C5 C6 C7 C8]. setoid_rewrite elem_of_visit in C2.
  eapply wp_mono; [apply (wp_forM _ (λ pre _ s',
    linked S0 src_block src_level src_kids base m s1.2 (links src_kids pre 1%positive []) s'))|].
  - split; [done..| | |done].
    + intros n c. unfold links. rewrite decide_False by apply not_elem_of_nil.
      case_decide; by intros ?%elem_of_nil.
    + intros n q Hq. destruct (C3 n q Hq) as [Hx Hbase]. split; [done|]. eexists. split; [exact Hx|].
      assert (∀ k, links src_kids [] 1%positive [] k = []) as Hl.
      { intros k. unfold links. rewrite decide_False by apply not_elem_of_nil. by case_decide. }
      simpl. split_and!; [done..|by rewrite Hl|]. intros pq. split; [done|].
      intros (p & _ & Hin). rewrite Hl in Hin. by apply elem_of_nil in Hin.
  - intros pre n post s' Hl L. destruct (visit_split _ _ _ _ Hl) as (Hn & Hpre & _ & _).
    assert (∀ pre, linked S0 src_block src_level src_kids base m s1.2 (links src_kids pre 1%positive []) s' →
      linked S0 src_block src_level src_kids base m s1.2 (links src_kids pre n []) s') as Hswap.
    { intros pre'. apply linked_ext. intros k. unfold links. by repeat case_decide. }
    eapply wp_mono; [eapply (linkOne_spec read S0 src_block src_level src_kids V src_par); eauto|].
    intros [] s''. apply linked_ext. intros k. unfold links. by repeat case_decide.
  - intros [] s' L. exists m. apply (clone_finished m s1.2); try done.
    revert L. apply linked_ext. intros k. unfold links.
    destruct (decide (k ∈ S0)) as [Hk|Hk].
    + by rewrite decide_True by (by apply elem_of_visit).
    + rewrite decide_False by (by rewrite elem_of_visit). by case_decide.
Qed.
End result.
