(* ===== verification/DominatorsSpec.v ===== *)
(** * What a dominator forest promises

    The constructors and the queries together: the forest copied from a tree of llvm decides
    dominance in that tree, and the forest of a subset decides it along the blocks kept. *)
From S2P Require Import Prelude Forest Dominators DominatorsQuery DominatorsClone.

(** ** The trees of llvm *)

Definition ln_kids (T : LLVMDomTree) (n : Ptr) : list Ptr := default [] (ln_children <$> lt_nodes T !! n).
Definition ln_depth (T : LLVMDomTree) (n : Ptr) : Z := default 0%Z (ln_level <$> lt_nodes T !! n).
Definition ln_blk (T : LLVMDomTree) (n : Ptr) : option Ptr := lt_nodes T !! n ≫= ln_block.

(** The documented shape: the nodes form a forest by depth, one node per block, and every
    node is below a root or the root node. *)
Record llvm_tree_ok (T : LLVMDomTree) (idom : Ptr → option Ptr) : Prop := {
  lo_forest : is_forest (dom (lt_nodes T)) (ln_kids T) idom (λ n, Z.to_nat (ln_depth T n));
  lo_block a b : a ∈ dom (lt_nodes T) → b ∈ dom (lt_nodes T) → ln_blk T a = ln_blk T b → a = b;
  lo_start r : r ∈ (lt_getNode T <$> lt_roots T) ++ [lt_getRootNode T] →
    ∃ n, r = Some n ∧ n ∈ dom (lt_nodes T);
  lo_cover n : n ∈ dom (lt_nodes T) → ∃ r, Some r ∈ (lt_getNode T <$> lt_roots T) ++ [lt_getRootNode T] ∧
    above (dom (lt_nodes T)) (ln_kids T) r n
}.

(** [a] dominates [b] in the tree *)
Definition llvm_dominates (T : LLVMDomTree) : relation Ptr := above (dom (lt_nodes T)) (ln_kids T).

(** an edge of the forest between blocks kept by a subset *)
Definition kept_child (h : DomHeap) (f : DominatorForest) (bbs : gset (option Ptr)) (p c : Ptr) : Prop :=
  child (df_nodes f) (kids_of h) p c ∧ block_of h p ∈ bbs ∧ block_of h c ∈ bbs.

(** allocated addresses are below the next one *)
Definition dom_heap_ok (h : DomHeap) : Prop := ∀ q, is_Some (dh_nodes h !! q) → (q < dh_next h)%positive.

Section spec.
Context {IO : IterOrder}.

Lemma collectNodesOfTree_run T idom : llvm_tree_ok T idom → collectNodesOfTree T = Ok (dom (lt_nodes T)).
Proof.
  intros [SF _ Hstart Hcover]. unfold collectNodesOfTree.
  set (init := (lt_getNode T <$> lt_roots T) ++ [lt_getRootNode T]) in *.
  set (w := weight (dom (lt_nodes T)) (ln_kids T) (λ n, Z.to_nat (ln_depth T n))).
  set (wt := λ r : option Ptr, match r with Some n => w n | None => 0 end).
  assert (∀ l, sum_list_with wt (Some <$> l) = sum_list_with w l) as Hwt.
  { intros l. induction l as [|c l IH]; [done|].
    change (w c + sum_list_with wt (Some <$> l) = w c + sum_list_with w l). by rewrite IH. }
  destruct (while_spec (collectStep T)
    (λ st, (∀ r, r ∈ st.1 → ∃ n, r = Some n ∧ n ∈ dom (lt_nodes T)) ∧ st.2 ⊆ dom (lt_nodes T) ∧
       ∀ n, n ∈ dom (lt_nodes T) → n ∈ st.2 ∨ ∃ r, Some r ∈ st.1 ∧ llvm_dominates T r n)
    (λ st, sum_list_with wt st.1) (λ s, s = dom (lt_nodes T))
    (S (length (reverse init) * size (dom (lt_nodes T)))) (reverse init, ∅)) as (s & -> & ->); [| | |done].
  - split; [|split; [set_solver|]].
    + intros r. cbn [fst]. rewrite elem_of_reverse. apply Hstart.
    + intros n (r & Hr & Hrn)%Hcover. right. exists r. cbn [fst]. by rewrite elem_of_reverse.
  - intros [[|r q] acc] (Hq & Hacc & Hall); cbn [fst snd] in *.
    { right. eexists. split; [done|]. apply set_eq. intros n. split; [apply Hacc|].
      intros [?|(r & Hr & _)]%Hall; [done|]. by apply elem_of_nil in Hr. }
    left. destruct (Hq r ltac:(by left)) as (n & -> & Hn). destruct (proj1 (elem_of_dom _ _) Hn) as [x Hx].
    assert (ln_children x = ln_kids T n) as Hk by (unfold ln_kids; by rewrite Hx).
    cbn [collectStep]. rewrite Hx, Hk. eexists. split; [done|]. cbn [fst snd]. split; [split; [|split]|].
    + intros r [Hr|Hr]%elem_of_app; [|apply Hq; by right].
      apply elem_of_reverse, list_elem_of_fmap in Hr as (c & -> & Hc). exists c. split; [done|].
      by apply (child_in _ _ _ _ SF n c).
    + set_solver.
    + intros m Hm. destruct (Hall m Hm) as [?|(r & Hr & Hrm)]; [left; set_solver|].
      apply elem_of_cons in Hr as [[= ->]|Hr]; [|right; exists r; split; [set_solver|done]].
      apply rtc_inv in Hrm as [->|(c & [_ Hc] & Hcm)]; [left; set_solver|right].
      exists c. split; [|done]. apply elem_of_app. left. by apply elem_of_reverse, list_elem_of_fmap_2.
    + rewrite sum_list_with_app, sum_list_with_reverse, Hwt. cbn [sum_list_with].
      change (wt (Some n)) with (w n). unfold w. rewrite (weight_kids _ _ _ _ SF n Hn). lia.
  - cbn [fst]. apply Nat.lt_succ_r, sum_list_with_bound. intros r Hr.
    apply elem_of_reverse, Hstart in Hr as (n & -> & Hn). by apply (weight_bound _ _ _ _ SF).
Qed.

(** paths between copies are the paths of the source that stay among the nodes copied *)
Lemma clone_above S0 src_block src_level src_kids base m s a b p q :
  clone_of S0 src_block src_level src_kids base m s → m !! a = Some p → m !! b = Some q →
  dom_above s.1 s.2 p q ↔ rtc (λ x y, x ∈ S0 ∧ y ∈ S0 ∧ y ∈ src_kids x) a b.
Proof.
  intros C Ha Hb. split.
  - intros H. revert a Ha. induction H as [p|p c q Hpc _ IH]; intros a Ha.
    + rewrite (cl_inj _ _ _ _ _ _ _ C a b p Ha Hb). apply rtc_refl.
    + destruct (child_in _ _ _ _ (dw_forest _ _ (cl_wf _ _ _ _ _ _ _ C)) p c Hpc) as (_ & Hc & _).
      apply (cl_nodes _ _ _ _ _ _ _ C) in Hc as [k Hk].
      apply (cl_child _ _ _ _ _ _ _ C a k p c Ha Hk) in Hpc.
      eapply rtc_l; [|by apply IH]. split_and!; [..|done]; apply (cl_dom _ _ _ _ _ _ _ C); eauto.
  - intros H. revert p Ha. induction H as [a|a c b (_ & Hc & Hac) _ IH]; intros p Ha.
    + assert (p = q) as -> by congruence. apply rtc_refl.
    + apply (cl_dom _ _ _ _ _ _ _ C) in Hc as [k Hk].
      eapply rtc_l; [|by apply IH]. by apply (cl_child _ _ _ _ _ _ _ C a c p k Ha Hk).
Qed.

Lemma clone_map S0 src_block src_level src_kids base m s a p :
  clone_of S0 src_block src_level src_kids base m s → m !! a = Some p →
  df_bbNodeMap s.2 !! src_block a = Some p.
Proof.
  intros C Ha. apply (dw_map _ _ (cl_wf _ _ _ _ _ _ _ C)). split.
  - apply (cl_nodes _ _ _ _ _ _ _ C). eauto.
  - destruct (cl_node _ _ _ _ _ _ _ C a p Ha) as (_ & x & Hx & HB & _). unfold block_of.
    rewrite Hx. exact HB.
Qed.

(** (C16) The forest built from a dominator tree of llvm is well-formed, knows whether it is
    a post-dominator forest, and its dominates on blocks answers dominance in that tree. *)
Theorem DominatorForest_ofTree_spec T idom post s :
  llvm_tree_ok T idom → dom_heap_ok s.1 →
  wp (DominatorForest_ofTree T post) (λ _ s',
    dom_wf s'.1 s'.2 ∧ df_post s'.2 = Some post ∧ dh_nodes s.1 ⊆ dh_nodes s'.1 ∧
    size (df_nodes s'.2) = size (lt_nodes T) ∧
    ∀ a b, a ∈ dom (lt_nodes T) → b ∈ dom (lt_nodes T) →
      ∃ r, dominatesBlock (ln_blk T a) (ln_blk T b) s' = Ok (s', r) ∧
           (r = true ↔ llvm_dominates T a b)) s.
Proof.
  intros HT Hh. unfold DominatorForest_ofTree. rewrite (collectNodesOfTree_run T idom HT).
  apply wp_bind, wp_ret. apply wp_bind, wp_modify. apply wp_bind.
  eapply wp_mono; [eapply (cloneFrom_spec _ _ (ln_blk T) (ln_depth T) (ln_kids T) _ idom (dh_nodes s.1)
    (lo_forest _ _ HT)); [done|apply (lo_block _ _ HT)| |done|done|done]|].
  { intros n s1 [x Hx]%elem_of_dom _. unfold readLLVMNode, bind, ln_blk, ln_depth, ln_kids.
    by rewrite Hx. }
  intros [] s1 [m C]. apply wp_modify. pose proof (cl_wf _ _ _ _ _ _ _ C) as [W1 W2 W3 W4].
  assert (dom_wf s1.1 (set_post post s1.2)) as W by (split; done).
  split; [done|]. split; [done|]. split; [apply (cl_base _ _ _ _ _ _ _ C)|]. split.
  - cbn [snd df_nodes set_post]. assert (df_nodes s1.2 = map_img m) as ->.
    { apply set_eq. intros q. rewrite (cl_nodes _ _ _ _ _ _ _ C), elem_of_map_img. done. }
    assert (dom m = dom (lt_nodes T)) as Hd.
    { apply set_eq. intros n. rewrite elem_of_dom. apply (cl_dom _ _ _ _ _ _ _ C). }
    rewrite <- (size_dom (lt_nodes T)), <- Hd, size_dom. rewrite map_img_alt_L.
    rewrite size_list_to_set; [by rewrite length_fmap, length_map_to_list|].
    apply NoDup_fmap_2_strong; [|apply NoDup_map_to_list].
    intros [a p] [b q] Ha%elem_of_map_to_list Hb%elem_of_map_to_list. simpl. intros ->.
    by rewrite (cl_inj _ _ _ _ _ _ _ C a b q).
  - intros a b Ha Hb. pose proof (proj2 (cl_dom _ _ _ _ _ _ _ C a) Ha) as [p Hp].
    pose proof (proj2 (cl_dom _ _ _ _ _ _ _ C b) Hb) as [q Hq].
    destruct (dominatesBlock_run s1.1 (set_post post s1.2) W (ln_blk T a) (ln_blk T b) p q) as (r & Hr & Hrr).
    { by apply (clone_map _ _ _ _ _ _ _ _ _ C). }
    { by apply (clone_map _ _ _ _ _ _ _ _ _ C). }
    exists r. split; [done|]. rewrite Hrr.
    change (dom_above s1.1 s1.2 p q ↔ llvm_dominates T a b).
    rewrite (clone_above _ _ _ _ _ _ _ a b p q C Hp Hq).
    apply rtc_iff. intros x y. unfold child. split; [tauto|]. intros [Hx Hy].
    split_and!; [done| |done]. by apply (child_in _ _ _ _ (lo_forest _ _ HT) x y).
Qed.

(** *** Subsets *)

Lemma dom_wf_weaken h h' f : dom_wf h f → dh_nodes h ⊆ dh_nodes h' → dom_heap_ok h' → dom_wf h' f.
Proof.
  intros [W1 W2 W3 W4] Hsub Hok.
  assert (∀ n, n ∈ df_nodes f → dh_nodes h' !! n = dh_nodes h !! n) as E.
  { intros n [x Hx]%W1. rewrite Hx. by eapply lookup_weaken. }
  split; [..|done].
  - intros n Hn. rewrite (E n Hn). by apply W1.
  - destruct W2 as [F1 F2 F3]. split; unfold kids_of, par_of, rank_of.
    + intros p Hp. rewrite (E p Hp). by apply F1.
    + intros p c Hp. rewrite (E p Hp). rewrite (F2 p c Hp). unfold par_of.
      split; intros [Hc ?]; (split; [done|]); [by rewrite E|by rewrite <- E].
    + intros c p Hc. rewrite (E c Hc). intros Hp. destruct (F3 c p Hc Hp) as [HpU ?].
      by rewrite (E p HpU).
  - intros b n. rewrite W3. unfold block_of. split; intros [Hn ?]; (split; [done|]);
      [by rewrite E|by rewrite <- E].
Qed.

Lemma filterNodes_run h f g bbs : dom_wf h f →
  ∃ S0, filterNodes (df_nodes f) bbs (h, g) = Ok ((h, g), S0) ∧
    ∀ n, n ∈ S0 ↔ n ∈ df_nodes f ∧ block_of h n ∈ bbs.
Proof.
  intros W. assert (wp (filterNodes (df_nodes f) bbs) (λ S0 s', s' = (h, g) ∧
    ∀ n, n ∈ S0 ↔ n ∈ df_nodes f ∧ block_of h n ∈ bbs) (h, g)) as Hwp.
  { unfold filterNodes. apply wp_bind, (wp_filterM _ (λ n, block_of h n ∈ bbs)).
    - intros n Hn%elem_of_visit. destruct (dw_live h f W n Hn) as [x Hx].
      unfold bind, load_dom, block_of. simpl. by rewrite Hx.
    - apply wp_ret. split; [done|]. intros n.
      rewrite elem_of_list_to_set, list_elem_of_filter, elem_of_visit. tauto. }
  apply wp_ok in Hwp as ([h' g'] & S0 & Hr & [= -> ->] & Hs). eauto.
Qed.

(** (C26) The forest of a subset of the blocks is well-formed and leaves the original alone;
    it has the blocks asked for, and one dominates another in it when there is a path of
    kept blocks between them in the original. *)
Theorem DominatorForest_subset_spec DTS bbs s : dom_wf s.1 DTS →
  wp (DominatorForest_subset DTS bbs) (λ _ s',
    dom_wf s'.1 s'.2 ∧ dom_wf s'.1 DTS ∧ dh_nodes s.1 ⊆ dh_nodes s'.1 ∧ df_post s'.2 = None ∧
    (∀ b, is_Some (df_bbNodeMap s'.2 !! b) ↔ is_Some (df_bbNodeMap DTS !! b) ∧ b ∈ bbs) ∧
    ∀ b1 b2 n1 n2, df_bbNodeMap DTS !! b1 = Some n1 → df_bbNodeMap DTS !! b2 = Some n2 →
      b1 ∈ bbs → b2 ∈ bbs →
      ∃ r, dominatesBlock b1 b2 s' = Ok (s', r) ∧ (r = true ↔ rtc (kept_child s.1 DTS bbs) n1 n2)) s.
Proof.
  destruct s as [h g]. simpl. intros W. unfold DominatorForest_subset.
  destruct (filterNodes_run h DTS g bbs W) as (S0 & Hrun & HS0).
  apply (wp_bind_run _ _ _ _ _ _ Hrun). apply wp_bind, wp_modify.
  eapply wp_mono; [eapply (cloneFrom_spec _ _ (block_of h) (λ n, default 0%Z (dn_level <$> dh_nodes h !! n))
    (kids_of h) (df_nodes DTS) (par_of h) (dh_nodes h) (dw_forest h DTS W)); [| | |done|apply (dw_next h DTS W)|done]|].
  { intros n Hn. by apply HS0. }
  { intros a b Ha%HS0 Hb%HS0 E. assert (df_bbNodeMap DTS !! block_of h a = Some a) as H1
      by (apply (dw_map h DTS W); by split; [apply Ha|]).
    assert (df_bbNodeMap DTS !! block_of h b = Some b) as H2 by (apply (dw_map h DTS W); by split; [apply Hb|]).
    rewrite E in H1. congruence. }
  { intros n s1 [Hn _]%HS0 Hsub. destruct (dw_live h DTS W n Hn) as [x Hx].
    unfold readNode, bind, load_dom, block_of, kids_of.
    rewrite (lookup_weaken _ _ _ _ Hx Hsub), Hx. done. }
  intros [] s1 [m C]. pose proof (cl_wf _ _ _ _ _ _ _ C) as W1.
  assert (∀ b n, df_bbNodeMap DTS !! b = Some n → b ∈ bbs → ∃ q, m !! n = Some q ∧ df_bbNodeMap s1.2 !! b = Some q) as Hm.
  { intros b n Hn Hb. apply (dw_map h DTS W) in Hn as [Hn HB].
    assert (n ∈ S0) as HnS by (apply HS0; by rewrite HB).
    apply (cl_dom _ _ _ _ _ _ _ C) in HnS as [q Hq]. exists q. split; [done|].
    rewrite <- HB. by apply (clone_map _ _ _ _ _ _ _ _ _ C). }
  split; [done|]. split.
  { apply (dom_wf_weaken h); [done|apply (cl_base _ _ _ _ _ _ _ C)|exact (dw_next _ _ W1)]. }
  split; [apply (cl_base _ _ _ _ _ _ _ C)|]. split; [apply (cl_post _ _ _ _ _ _ _ C)|]. split.
  - intros b. split.
    + intros [q Hq]. apply (dw_map _ _ W1) in Hq as [Hq HB].
      apply (cl_nodes _ _ _ _ _ _ _ C) in Hq as [n Hn].
      assert (n ∈ df_nodes DTS ∧ block_of h n ∈ bbs) as [HnU HnB].
      { apply HS0, (cl_dom _ _ _ _ _ _ _ C). eauto. }
      destruct (cl_node _ _ _ _ _ _ _ C n q Hn) as (_ & x & Hx & HBx & _).
      unfold block_of in HB at 1. rewrite Hx in HB. simpl in HB. rewrite HBx in HB. subst b.
      split; [|done]. exists n. by apply (dw_map h DTS W).
    + intros [[n Hn] Hb]. destruct (Hm b n Hn Hb) as (q & _ & Hq). eauto.
  - intros b1 b2 n1 n2 H1 H2 Hb1 Hb2.
    destruct (Hm b1 n1 H1 Hb1) as (p & Hp & Hpm). destruct (Hm b2 n2 H2 Hb2) as (q & Hq & Hqm).
    destruct s1 as [h1 f1].
    destruct (dominatesBlock_run h1 f1 W1 b1 b2 p q Hpm Hqm) as (r & Hr & Hrr).
    exists r. split; [done|]. rewrite Hrr. rewrite (clone_above _ _ _ _ _ _ _ n1 n2 p q C Hp Hq).
    apply rtc_iff. intros x y. rewrite !HS0. unfold kept_child, child.
    split; [tauto|]. intros ([Hx Hy] & ? & ?). split_and!; [done..| |done|done].
    by apply (child_in _ _ _ _ (dw_forest h DTS W) x y).
Qed.
End spec.
