(* ===== verification/DominatorsInst.v ===== *)
(** * Dominance queries by block and by instruction *)
From S2P Require Import Prelude Forest Dominators DominatorsQuery.

(** the documented behaviour of the instruction lists of llvm *)
Record ir_ok (ir : IRBlocks) : Prop := {
  ir_next b k i : block_insts ir b !! k = Some i → getNextNode ir i = block_insts ir b !! S k;
  ir_nodup b : NoDup (block_insts ir b)
}.

Section spec.
Context {IO : IterOrder}.

(** (C27) The search of the sub-tree, the climb to the root and the listing of the
    descendants agree: on a well-formed forest each terminates, and they all decide whether
    the first node is an ancestor of the second. *)
Theorem dominance_queries_agree h f b1 b2 n1 n2 : dom_wf h f →
  df_bbNodeMap f !! b1 = Some n1 → df_bbNodeMap f !! b2 = Some n2 →
  ∃ r doms ds,
    dominatesBlock b1 b2 (h, f) = Ok ((h, f), r) ∧
    dominatorsOf (Some n2) (h, f) = Ok ((h, f), doms) ∧
    getDescendants b1 (h, f) = Ok ((h, f), ds) ∧
    (r = true ↔ dom_above h f n1 n2) ∧ (r = true ↔ n1 ∈ doms) ∧ (r = true ↔ b2 ∈ ds) ∧
    ∀ b, b ∈ ds → is_Some (df_bbNodeMap f !! b).
Proof.
  intros W H1 H2. destruct (node_in h f W b1 n1 H1) as [Hn1 HB1].
  destruct (node_in h f W b2 n2 H2) as [Hn2 HB2].
  destruct (dominatesBlock_run h f W b1 b2 n1 n2 H1 H2) as (r & Hr & Hrr).
  destruct (dominatorsOf_run h f W n2 Hn2) as (doms & Hd & Hdd).
  destruct (addDescendants_run h f W (S (size (df_nodes f))) ∅ n1 Hn1) as (ds & Hs & Hss).
  { pose proof (weight_bound _ _ _ _ (dw_forest h f W) n1 Hn1). lia. }
  assert (∀ m, dom_above h f n1 m → m ∈ df_nodes f) as Hin.
  { intros m Hm. apply (above_in _ _ _ _ (dw_forest h f W) _ _ Hm). by left. }
  exists r, doms, ds. split_and!; try done.
  - unfold getDescendants, bind. by rewrite getNode_run, H1.
  - by rewrite Hrr, Hdd.
  - rewrite Hrr, Hss. split.
    + intros H. right. by exists n2.
    + intros [?%elem_of_empty|(m & Hm & HB)]; [done|].
      assert (df_bbNodeMap f !! b2 = Some m) by (apply (dw_map h f W); eauto).
      by assert (m = n2) as -> by congruence.
  - intros b [?%elem_of_empty|(m & Hm & <-)]%Hss; [done|]. exists m. apply (dw_map h f W). eauto.
Qed.

(** (C28) findNearestCommonDominator returns the block of a node that dominates both blocks
    and that every other such node dominates; when no node dominates both, an assertion
    fails. *)
Theorem findNearestCommonDominator_spec h f b1 b2 n1 n2 : dom_wf h f →
  df_bbNodeMap f !! Some b1 = Some n1 → df_bbNodeMap f !! Some b2 = Some n2 →
  (∃ c, findNearestCommonDominator (Some b1) (Some b2) (h, f) = Ok ((h, f), block_of h c) ∧
     dom_above h f c n1 ∧ dom_above h f c n2 ∧
     ∀ a, dom_above h f a n1 → dom_above h f a n2 → dom_above h f a c) ∨
  (findNearestCommonDominator (Some b1) (Some b2) (h, f) = Fail AssertionFailure ∧
     ∀ a, dom_above h f a n1 → ¬ dom_above h f a n2).
Proof.
  intros W H1 H2. destruct (node_in h f W _ n1 H1) as [Hn1 _]. destruct (node_in h f W _ n2 H2) as [Hn2 _].
  destruct (findNearestCommonDominatorNode_run h f W n1 n2 Hn1 Hn2) as (r & Hr & Hrr).
  assert (findNearestCommonDominator (Some b1) (Some b2) (h, f) =
    (match r with
     | Some c => let* x := load_dom c in ret (dn_B x)
     | None => fail AssertionFailure
     end) (h, f)) as ->.
  { unfold findNearestCommonDominator, bind. simpl. rewrite H1, H2. by rewrite Hr. }
  destruct r as [c|]; [left|by right]. exists c. split; [|done].
  destruct Hrr as (Hc & _). apply (above_in _ _ _ _ (dw_forest h f W)) in Hc as [Hc _]; [|by right].
  destruct (load_dom_run h f W c Hc) as (x & _ & Hrun & _ & _ & HB).
  by rewrite (bind_ok _ _ _ _ _ Hrun), HB.
Qed.

(** *** Instructions *)

Lemma walk_run ir b J j fuel k : ir_ok ir → block_insts ir b !! j = Some J →
  length (block_insts ir b) - k < fuel → k ≤ length (block_insts ir b) →
  while fuel (walkStep ir J) (block_insts ir b !! k) = Ok (bool_decide (k ≤ j)).
Proof.
  intros R HJ. revert k. pose proof (lookup_lt_Some _ _ _ HJ) as Hj.
  induction fuel as [|fuel IH]; intros k Hf Hk; [lia|]. cbn [while]. unfold walkStep at 1.
  destruct (block_insts ir b !! k) as [i|] eqn:Hi.
  2:{ apply lookup_ge_None in Hi. by rewrite bool_decide_eq_false_2 by lia. }
  pose proof (lookup_lt_Some _ _ _ Hi). case_decide as HiJ.
  - subst i. assert (k = j) as -> by (by eapply NoDup_lookup; [apply (ir_nodup ir R b)|..]).
    by rewrite bool_decide_eq_true_2 by lia.
  - rewrite (ir_next ir R b k i Hi), IH by lia. f_equal. apply bool_decide_ext.
    assert (k ≠ j) by congruence. lia.
Qed.

Lemma dominatesInst_same_block ir I J i j s : ir_ok ir → getParent ir I = getParent ir J →
  block_insts ir (getParent ir I) !! i = Some I → block_insts ir (getParent ir I) !! j = Some J →
  dominatesInst ir I J s =
    match df_post s.2 with
    | Some p => Ok (s, if p then negb (bool_decide (i ≤ j)) else bool_decide (i ≤ j))
    | None => Fail UndefinedBehaviour
    end.
Proof.
  intros R E HI HJ. unfold dominatesInst. rewrite decide_True by done. unfold bind.
  rewrite <- HI, (walk_run ir (getParent ir I) J j _ i R HJ) by (apply lookup_lt_Some in HI; lia).
  simpl. by destruct (df_post s.2).
Qed.

(** (C29) Inside a block, dominates on instructions follows the order of the instructions: in
    a dominator forest an instruction dominates itself and those after it, in a
    post-dominator forest it dominates only those before it, not itself. In a forest that
    was built for a subset, whose field post is not initialised, the question reads an
    indeterminate value. Across blocks the answer is that of the blocks. *)
Theorem dominatesInst_spec ir I J i j h f : ir_ok ir → dom_wf h f →
  block_insts ir (getParent ir I) !! i = Some I → block_insts ir (getParent ir J) !! j = Some J →
  (getParent ir I = getParent ir J →
     (df_post f = Some false → dominatesInst ir I J (h, f) = Ok ((h, f), bool_decide (i ≤ j))) ∧
     (df_post f = Some true → dominatesInst ir I J (h, f) = Ok ((h, f), bool_decide (j < i))) ∧
     (df_post f = None → dominatesInst ir I J (h, f) = Fail UndefinedBehaviour)) ∧
  (getParent ir I ≠ getParent ir J →
     ∀ n1 n2, df_bbNodeMap f !! Some (getParent ir I) = Some n1 →
       df_bbNodeMap f !! Some (getParent ir J) = Some n2 →
       ∃ r, dominatesInst ir I J (h, f) = Ok ((h, f), r) ∧ (r = true ↔ dom_above h f n1 n2)).
Proof.
  intros R W HI HJ. split.
  - intros E. rewrite <- E in HJ.
    pose proof (dominatesInst_same_block ir I J i j (h, f) R E HI HJ) as Hd. simpl in Hd.
    split_and!; intros Hp; rewrite Hp in Hd; rewrite Hd; [done| |done].
    do 2 f_equal. rewrite <- bool_decide_not. apply bool_decide_ext. lia.
  - intros E n1 n2 H1 H2. unfold dominatesInst. rewrite decide_False by done.
    by apply dominatesBlock_run.
Qed.

(** *** transferToClones *)

Lemma transferToClones_run h f cm : dom_wf h f →
  (∀ n, n ∈ df_nodes f → is_Some (cm !! block_of h n)) →
  wp (transferToClones cm) (λ _ s', s'.2 = f ∧
    ∀ n, n ∈ df_nodes f → cm !! block_of h n = Some (block_of s'.1 n)) (h, f).
Proof.
  intros W Hcm. unfold transferToClones. apply wp_bind, wp_gets.
  eapply wp_mono; [apply (wp_forM _ (λ pre post s', s'.2 = f ∧
    (∀ n, n ∈ df_nodes f → is_Some (dh_nodes s'.1 !! n)) ∧
    (∀ n, n ∈ pre → cm !! block_of h n = Some (block_of s'.1 n)) ∧
    (∀ n, n ∈ df_nodes f → n ∉ pre → block_of s'.1 n = block_of h n)))|].
  - split; [done|]. split; [apply (dw_live h f W)|]. split; [|done]. by intros n ?%elem_of_nil.
  - intros pre n post [h1 f1] Hl (Hf & Hlive & Hpre & Hrest). simpl in *.
    destruct (visit_split _ _ _ _ Hl) as (Hn & Hnp & Hin & _).
    destruct (Hlive n Hn) as [x Hx]. destruct (Hcm n Hn) as [b Hb].
    assert (dn_B x = block_of h n) as HB.
    { rewrite <- (Hrest n Hn Hnp). unfold block_of. by rewrite Hx. }
    apply wp_bind. unfold wp at 1, load_dom. simpl. rewrite Hx. simpl. rewrite HB, Hb.
    apply wp_bind, wp_massert. split; [done|]. apply wp_bind, wp_ret, wp_modify. simpl.
    assert (∀ k, block_of (mkDomHeap (<[n := mkDominatorNode b (dn_level x) (dn_parent x) (dn_children x)]>
      (dh_nodes h1)) (dh_next h1)) k = if decide (k = n) then b else block_of h1 k) as Hblk.
    { intros k. unfold block_of. simpl. case_decide as Hk; [subst; by rewrite lookup_insert_eq|].
      by rewrite lookup_insert_ne. }
    split; [done|]. split; [|split].
    + intros k Hk. rewrite lookup_insert_is_Some. destruct (decide (n = k)); [by left|right].
      split; [done|by apply Hlive].
    + intros k [Hk| ->]%elem_of_snoc; rewrite Hblk.
      * rewrite decide_False by (by intros ->). by apply Hpre.
      * by rewrite decide_True.
    + intros k Hk. rewrite elem_of_snoc. intros Hkn. rewrite Hblk, decide_False by tauto.
      apply Hrest; tauto.
  - intros [] s' (Hf & _ & Hpre & _). split; [done|]. intros n Hn. apply Hpre. by apply elem_of_visit.
Qed.

(** transferToClones renames the blocks of the nodes but not the keys of the map from
    blocks to nodes: afterwards a clone that was not a block of the forest has no node, and
    asking whether it dominates anything fails an assertion. *)
Theorem transferToClones_stale h f cm n : dom_wf h f →
  (∀ n, n ∈ df_nodes f → is_Some (cm !! block_of h n)) → n ∈ df_nodes f →
  wp (transferToClones cm) (λ _ s', cm !! block_of h n = Some (block_of s'.1 n) ∧
    (df_bbNodeMap f !! block_of s'.1 n = None →
       getNode (block_of s'.1 n) s' = Ok (s', None) ∧
       ∀ b, dominatesBlock (block_of s'.1 n) b s' = Fail AssertionFailure)) (h, f).
Proof.
  intros W Hcm Hn. eapply wp_mono; [by apply transferToClones_run|].
  intros [] [h' f'] [Hf Hb]. simpl in *. subst f'. split; [by apply Hb|].
  intros Hnone. split; [by rewrite getNode_run, Hnone|]. intros b.
  unfold dominatesBlock, bind. rewrite !getNode_run, Hnone. done.
Qed.
End spec.
