(* ===== verification/LoopStructure.v ===== *)
(** * Loop structures (src/core/loop_structure: LoopStructure.cpp)

    The class [LoopStructure]: what a loop of llvm looked like when it was built, and the
    questions answered from it. *)
From S2P Require Import Prelude.

(** ** llvm *)

(** a loop of llvm as the constructor reads it *)
Record LLVMLoop := mkLLVMLoop {
  ll_depth : Z;
  ll_header : Ptr;
  ll_preheader : option Ptr;
  ll_blocks : list Ptr;
  ll_isLoopLatch : Ptr → bool;
  ll_isLoopInvariant : Ptr → bool;
  ll_exitBlocks : list Ptr;
  ll_exitEdges : list (Ptr * Ptr)
}.

(** what kind of value a pointer to one is, as llvm's casts see it *)
Inductive ValueKind := IsInstruction | IsConstant | IsArgument | IsOther.

(** the instructions of the blocks, their terminators and successors, and where blocks and
    instructions are *)
Record IRProgram := mkIRProgram {
  ir_insts : Ptr → list Ptr;
  ir_terminator : Ptr → Ptr;
  ir_successors : Ptr → list Ptr;
  ir_blockOf : Ptr → Ptr;
  ir_functionOf : Ptr → Ptr;
  ir_kind : Ptr → ValueKind
}.

(** ** State *)

Record LoopStructure := mkLoopStructure {
  ls_header : Ptr;
  ls_preHeader : option Ptr;
  ls_depth : Z;
  ls_invariants : gset Ptr;
  ls_latchBBs : gset Ptr;
  ls_bbs : gset Ptr;
  ls_exitBlocks : list Ptr;
  ls_exitEdges : list (Ptr * Ptr)
}.

Section loop_structure.
Context {IO : IterOrder} (ir : IRProgram).

(** [LoopStructure(l)] *)
Definition LoopStructure_addBlock (l : LLVMLoop) (s : LoopStructure) (bb : Ptr) : LoopStructure :=
  mkLoopStructure (ls_header s) (ls_preHeader s) (ls_depth s)
    (foldl (λ inv inst, if ll_isLoopInvariant l inst then {[inst]} ∪ inv else inv)
           (ls_invariants s) (ir_insts ir bb))
    (if ll_isLoopLatch l bb then {[bb]} ∪ ls_latchBBs s else ls_latchBBs s)
    ({[bb]} ∪ ls_bbs s) (ls_exitBlocks s) (ls_exitEdges s).
Definition LoopStructure_new (l : LLVMLoop) : LoopStructure :=
  let s := foldl (LoopStructure_addBlock l)
             (mkLoopStructure (ll_header l) (ll_preheader l) (ll_depth l) ∅ ∅ ∅ [] []) (ll_blocks l) in
  mkLoopStructure (ls_header s) (ls_preHeader s) (ls_depth s) (ls_invariants s) (ls_latchBBs s)
    (ls_bbs s) (ll_exitBlocks l) (ll_exitEdges l).

Definition getHeader (s : LoopStructure) : Ptr := ls_header s.
Definition getPreHeader (s : LoopStructure) : option Ptr := ls_preHeader s.
Definition getNestingLevel (s : LoopStructure) : Z := ls_depth s.
Definition getLatches (s : LoopStructure) : gset Ptr := ls_latchBBs s.
Definition getBasicBlocks (s : LoopStructure) : gset Ptr := ls_bbs s.
Definition getLoopExitBasicBlocks (s : LoopStructure) : list Ptr := ls_exitBlocks s.
Definition getLoopExitEdges (s : LoopStructure) : list (Ptr * Ptr) := ls_exitEdges s.
Definition numberOfExitBasicBlocks (s : LoopStructure) : Z := Z.of_nat (length (ls_exitBlocks s)).
Definition getFunction (s : LoopStructure) : Ptr := ir_functionOf ir (ls_header s).

(** [isIncluded(bb)] and [isIncluded(i)] *)
Definition isIncludedBB (s : LoopStructure) (bb : Ptr) : bool := bool_decide (bb ∈ ls_bbs s).
Definition isIncludedInst (s : LoopStructure) (i : Ptr) : bool := isIncludedBB s (ir_blockOf ir i).

(** [getEntryInstruction]: the first instruction of the header, which must have one *)
Definition getEntryInstruction (s : LoopStructure) : Res Ptr :=
  match ir_insts ir (getHeader s) with i :: _ => Ok i | [] => Fail UndefinedBehaviour end.

Definition getSuccessorWithinLoopOfTheHeader (s : LoopStructure) : option Ptr :=
  head (filter (λ succ, isIncludedBB s succ = true) (ir_successors ir (getHeader s))).

Definition getInstructions (s : LoopStructure) : gset Ptr :=
  foldl (λ insts bb, insts ∪ list_to_set (ir_insts ir bb)) ∅ (visit (ls_bbs s)).

(** a sum at 64 bits *)
Definition getNumberOfInstructions (s : LoopStructure) : Z :=
  foldl (λ t bb, ((t + Z.of_nat (length (ir_insts ir bb))) mod 2 ^ 64)%Z) 0%Z (visit (ls_bbs s)).

Definition isALoopExit (s : LoopStructure) (i : Ptr) : bool :=
  existsb (λ p, bool_decide (ir_terminator ir p.1 = i)) (getLoopExitEdges s).

Definition isContainedInstructionLoopInvariant (s : LoopStructure) (inst : Ptr) : bool :=
  bool_decide (inst ∈ ls_invariants s).
Definition isLoopInvariant (s : LoopStructure) (value : Ptr) : bool :=
  match ir_kind ir value with
  | IsInstruction =>
      if negb (isIncludedInst s value) then true
      else isContainedInstructionLoopInvariant s value
  | IsConstant | IsArgument => true
  | IsOther => false
  end.
End loop_structure.
