(* ===== verification/LoopForest.v ===== *)
(** * Loop forests (src/core/loop_forest: LoopForest.cpp, LoopTree.cpp)

    The classes [LoopTree], a node of the nesting forest of some selected loops, and
    [LoopForest], the forest. The loops, the program and the dominator forests are read
    only. *)
From S2P Require Import Prelude Dominators LoopStructure.

Section loop_forest.
Context {IO : IterOrder} (ir : IRProgram) (ls : Ptr → LoopStructure).

(** ** State *)

Record LoopTree := mkLoopTree {
  t_loop : Ptr;
  t_parent : option Ptr;
  t_children : gset Ptr
}.

Record LoopForest := mkLoopForest {
  lf_nodes : gmap Ptr Ptr;
  lf_trees : gset Ptr;
  lf_functionLoops : gmap Ptr (gset Ptr);
  lf_headerLoops : gmap Ptr Ptr
}.

(** the [LoopTree] objects, the next address, and the forest *)
Record LFSt := mkLFSt {
  tree_objs : gmap Ptr LoopTree;
  tree_next : Ptr;
  lf : LoopForest
}.

Definition load_tree (n : Ptr) : M LFSt LoopTree := λ s, deref (tree_objs s !! n) s.
Definition store_tree (n : Ptr) (x : LoopTree) : M LFSt unit :=
  modify (λ s, mkLFSt (<[n := x]> (tree_objs s)) (tree_next s) (lf s)).
Definition set_lf (f : LoopForest → LoopForest) : M LFSt unit :=
  modify (λ s, mkLFSt (tree_objs s) (tree_next s) (f (lf s))).
Definition set_trees (g : gset Ptr → gset Ptr) (f : LoopForest) : LoopForest :=
  mkLoopForest (lf_nodes f) (g (lf_trees f)) (lf_functionLoops f) (lf_headerLoops f).
Definition set_parent (p : option Ptr) (x : LoopTree) : LoopTree := mkLoopTree (t_loop x) p (t_children x).
Definition set_children (c : gset Ptr) (x : LoopTree) : LoopTree := mkLoopTree (t_loop x) (t_parent x) c.
Definition update_tree (n : Ptr) (f : LoopTree → LoopTree) : M LFSt unit :=
  let* x := load_tree n in store_tree n (f x).

(** [new LoopTree(this, l)] *)
Definition LoopTree_new (l : Ptr) : M LFSt Ptr := λ s,
  let p := tree_next s in
  Ok (mkLFSt (<[p := mkLoopTree l None ∅]> (tree_objs s)) (Pos.succ p) (lf s), p).

(** ** Construction *)

(** The walk up the dominator tree, from the immediate dominator of the header of
    [functionLoop] to the header of the root: is there a selected loop in between that
    includes [functionLoop]? *)
Definition inBetweenStep (h : DomHeap) (headerLoops : gmap Ptr Ptr) (objs : gmap Ptr LoopTree)
    (functionLoopHeader : Ptr) (loopHeaderDominatorNode : option Ptr) (node : option Ptr)
    : Res (option Ptr + bool) :=
  if decide (loopHeaderDominatorNode = node) then Ok (inr false)
  else
    match node ≫= λ n, dh_nodes h !! n with
    | None => Fail UndefinedBehaviour
    | Some x =>
        match dn_B x ≫= λ bb, headerLoops !! bb with
        | Some loopInBetween =>
            match objs !! loopInBetween with
            | None => Fail UndefinedBehaviour
            | Some t =>
                if isIncludedBB (ls (t_loop t)) functionLoopHeader then Ok (inr true)
                else Ok (inl (dn_parent x))
            end
        | None => Ok (inl (dn_parent x))
        end
    end.
Definition loopInBetween (h : DomHeap) (f : DominatorForest) (header functionLoopHeader : Ptr)
    : M LFSt bool :=
  let* s := get in
  let loopHeaderDominatorNode := df_bbNodeMap f !! Some header in
  let subLoopDominatorNode := df_bbNodeMap f !! Some functionLoopHeader in
  massert (bool_decide (loopHeaderDominatorNode ≠ subLoopDominatorNode)) ;;;
  let* n := deref subLoopDominatorNode in
  let* x := deref (dh_nodes h !! n) in
  lift (while (S (S (size (df_nodes f))))
          (inBetweenStep h (lf_headerLoops (lf s)) (tree_objs s) functionLoopHeader loopHeaderDominatorNode)
          (dn_parent x)).

(** [addChildrenToTree(root, doms, potentialTrees)], which returns [potentialTrees] *)
Definition addOneChild (rec : Ptr → gset Ptr → M LFSt (gset Ptr)) (h : DomHeap) (f : DominatorForest)
    (root l : Ptr) (potentialTrees : gset Ptr) (functionLoop : Ptr) : M LFSt (gset Ptr) :=
  let header := getHeader (ls l) in
  let functionLoopHeader := getHeader (ls functionLoop) in
  if decide (functionLoopHeader = header) then ret potentialTrees
  else if negb (isIncludedBB (ls l) functionLoopHeader) then ret potentialTrees
  else
    let* foundLoopInBetween := loopInBetween h f header functionLoopHeader in
    if foundLoopInBetween : bool then ret potentialTrees
    else
      let* s := get in
      let c := lf_nodes (lf s) !! functionLoop in
      massert (bool_decide (c ≠ None)) ;;;
      let* c := deref c in
      update_tree root (λ x, set_children ({[c]} ∪ t_children x) x) ;;;
      update_tree c (set_parent (Some root)) ;;;
      rec c (potentialTrees ∖ {[c]}).
Fixpoint addChildrenToTree (fuel : nat) (h : DomHeap) (doms : gmap Ptr DominatorForest)
    (root : Ptr) (potentialTrees : gset Ptr) : M LFSt (gset Ptr) :=
  match fuel with
  | O => fail OutOfFuel
  | S fuel =>
      let* t := load_tree root in
      let l := t_loop t in
      let func := getFunction ir (ls l) in
      match doms !! func with
      | None => fail Aborted
      | Some f =>
          let* s := get in
          foldM (addOneChild (addChildrenToTree fuel h doms) h f root l) potentialTrees
                (visit (default ∅ (lf_functionLoops (lf s) !! func)))
      end
  end.

(** [LoopForest(loops, doms)]: the nodes are allocated, the trees of the outermost loops are
    filled, and the loops that were not attached become trees *)
Definition allocateNode (potentialTrees : gset Ptr) (l : Ptr) : M LFSt (gset Ptr) :=
  let func := getFunction ir (ls l) in
  let header := getHeader (ls l) in
  let* n := LoopTree_new l in
  set_lf (λ f, mkLoopForest (<[l := n]> (lf_nodes f)) (lf_trees f)
    (<[func := {[l]} ∪ default ∅ (lf_functionLoops f !! func)]> (lf_functionLoops f))
    (<[header := n]> (lf_headerLoops f))) ;;;
  if decide (getNestingLevel (ls l) = 1%Z) then set_lf (set_trees (union {[n]})) ;;; ret potentialTrees
  else ret ({[n]} ∪ potentialTrees).
Definition LoopForest_new (loops : list Ptr) (h : DomHeap) (doms : gmap Ptr DominatorForest) : M LFSt unit :=
  set_lf (λ _, mkLoopForest ∅ ∅ ∅ ∅) ;;;
  let* potentialTrees := foldM allocateNode ∅ loops in
  let* s := get in
  let* potentialTrees := foldM (λ pot t, addChildrenToTree (S (length loops)) h doms t pot)
    potentialTrees (visit (lf_trees (lf s))) in
  forM (λ n, set_lf (set_trees (union {[n]}))) (visit potentialTrees).

(** ** LoopTree *)

Definition getLoop (n : Ptr) : M LFSt Ptr := let* x := load_tree n in ret (t_loop x).

Definition isIncludedInItsSubLoops (n inst : Ptr) : M LFSt bool :=
  let* x := load_tree n in
  if negb (isIncludedInst ir (ls (t_loop x)) inst) then ret false
  else
    anyM (λ subLoopNode, let* l := getLoop subLoopNode in ret (isIncludedInst ir (ls l) inst))
         (visit (t_children x)).

(** [getNumberOfSubLoops()], at 32 bits *)
Fixpoint getNumberOfSubLoops (fuel : nat) (n : Ptr) : M LFSt Z :=
  match fuel with
  | O => fail OutOfFuel
  | S fuel =>
      let* x := load_tree n in
      foldM (λ subloops subLoop,
        let* k := getNumberOfSubLoops fuel subLoop in
        ret ((subloops + 1 + k) mod 2 ^ 32)%Z) 0%Z (visit (t_children x))
  end.

(** [visitPreOrder] and [visitPostOrder]; [C] is what the callback captures *)
Section visits.
Context {C : Type}.
Definition on_trees {A} (m : M LFSt A) : M (LFSt * C) A := zoom fst (λ s p, (s, p.2)) m.
Definition on_captured {A} (m : M C A) : M (LFSt * C) A := zoom snd (λ c p, (p.1, c)) m.
Fixpoint visitPreOrder (fuel : nat) (funcToInvoke : Ptr → Z → M (LFSt * C) bool) (n : Ptr) (treeLevel : Z)
    : M (LFSt * C) bool :=
  match fuel with
  | O => fail OutOfFuel
  | S fuel =>
      let* b := funcToInvoke n treeLevel in
      if b : bool then ret true
      else
        let* x := on_trees (load_tree n) in
        anyM (λ child, visitPreOrder fuel funcToInvoke child ((treeLevel + 1) mod 2 ^ 32)%Z)
             (visit (t_children x))
  end.
Fixpoint visitPostOrder (fuel : nat) (funcToInvoke : Ptr → Z → M (LFSt * C) bool) (n : Ptr) (treeLevel : Z)
    : M (LFSt * C) bool :=
  match fuel with
  | O => fail OutOfFuel
  | S fuel =>
      let* x := on_trees (load_tree n) in
      let* b := anyM (λ child, visitPostOrder fuel funcToInvoke child ((treeLevel + 1) mod 2 ^ 32)%Z)
                     (visit (t_children x)) in
      if b : bool then ret true else funcToInvoke n treeLevel
  end.
End visits.

(** running a visit whose callback starts from the captured value [c] *)
Definition capturing {C} (c : C) (m : M (LFSt * C) bool) : M LFSt C := λ s,
  match m (s, c) with Ok ((s', c'), _) => Ok (s', c') | Fail e => Fail e end.
(** no node is visited twice *)
Definition tree_fuel (s : LFSt) : nat := S (size (tree_objs s)).

(** [getInnermostLoopThatContains(bb)] and [getOutermostLoopThatContains(bb)] of a tree *)
Definition levelStep (better : Z → Z → bool) (bb : Ptr) (n : Ptr) (treeLevel : Z)
    : M (LFSt * (option Ptr * Z)) bool :=
  let* nl := on_trees (getLoop n) in
  if negb (isIncludedBB (ls nl) bb) then ret false
  else
    let* c := on_captured get in
    match c.1 with
    | None => on_captured (put (Some nl, treeLevel)) ;;; ret false
    | Some _ =>
        massert (bool_decide (treeLevel ≠ c.2)) ;;;
        if better treeLevel c.2 then on_captured (put (Some nl, treeLevel)) ;;; ret false
        else ret false
    end.
Definition loopByLevel (better : Z → Z → bool) (n bb : Ptr) : M LFSt (option Ptr) :=
  let* x := load_tree n in
  if negb (isIncludedBB (ls (t_loop x)) bb) then ret None
  else
    let* s := get in
    let* c := capturing (None, 0%Z) (visitPreOrder (tree_fuel s) (levelStep better bb) n 1%Z) in
    ret c.1.
Definition getInnermostLoopThatContains (n bb : Ptr) : M LFSt (option Ptr) :=
  loopByLevel (λ treeLevel level, bool_decide (level < treeLevel)%Z) n bb.
Definition getOutermostLoopThatContains (n bb : Ptr) : M LFSt (option Ptr) :=
  loopByLevel (λ treeLevel level, bool_decide (treeLevel < level)%Z) n bb.

(** the same for the block of an instruction *)
Definition getInnermostLoopThatContainsInst (n i : Ptr) : M LFSt (option Ptr) :=
  getInnermostLoopThatContains n (ir_blockOf ir i).
Definition getOutermostLoopThatContainsInst (n i : Ptr) : M LFSt (option Ptr) :=
  getOutermostLoopThatContains n (ir_blockOf ir i).

Definition getParentTree (n : Ptr) : M LFSt (option Ptr) := let* x := load_tree n in ret (t_parent x).
Definition getChildren (n : Ptr) : M LFSt (gset Ptr) := let* x := load_tree n in ret (t_children x).

(** [getNodes], [getLoops] and [getDescendants] collect in a set *)
Definition collectVisit (n : Ptr) (f : Ptr → M LFSt (gset Ptr)) : M LFSt (gset Ptr) :=
  let* s := get in
  capturing ∅ (visitPreOrder (tree_fuel s) (λ n _,
    let* x := on_trees (f n) in
    on_captured (modify (union x)) ;;; ret false) n 1%Z).
Definition getNodes (n : Ptr) : M LFSt (gset Ptr) := collectVisit n (λ n, ret {[n]}).
Definition getLoops (n : Ptr) : M LFSt (gset Ptr) := collectVisit n (λ n, let* l := getLoop n in ret {[l]}).
Definition getDescendants (n : Ptr) : M LFSt (gset Ptr) :=
  collectVisit n (λ m, ret (if decide (m = n) then ∅ else {[m]})).

(** ** LoopForest *)

Definition getTrees : M LFSt (gset Ptr) := let* s := get in ret (lf_trees (lf s)).

Definition removeTree (tree : Ptr) : M LFSt unit :=
  let* s := get in
  massert (bool_decide (tree ∈ lf_trees (lf s))) ;;;
  set_lf (set_trees (λ t, t ∖ {[tree]})).
Definition addTree (tree : Ptr) : M LFSt unit :=
  let* s := get in
  massert (bool_decide (tree ∉ lf_trees (lf s))) ;;;
  set_lf (set_trees (union {[tree]})).

(** [~LoopTree()] and the release of the object *)
Definition LoopTree_destroy (n : Ptr) : M LFSt unit :=
  let* x := load_tree n in
  match t_parent x with
  | Some parent =>
      let* p := load_tree parent in
      massert (bool_decide (n ∈ t_children p)) ;;;
      store_tree parent (set_children (t_children p ∖ {[n]}) p) ;;;
      forM (λ child,
        update_tree child (set_parent (Some parent)) ;;;
        update_tree parent (λ p, set_children ({[child]} ∪ t_children p) p)) (visit (t_children x))
  | None =>
      removeTree n ;;;
      forM (λ child, update_tree child (set_parent None) ;;; addTree child) (visit (t_children x))
  end ;;;
  modify (λ s, mkLFSt (delete n (tree_objs s)) (tree_next s) (lf s)).

(** [~LoopForest()]: the nodes are deleted in the order of the map *)
Definition LoopForest_destroy (order : gmap Ptr Ptr → list (Ptr * Ptr)) : M LFSt unit :=
  let* s := get in
  forM (λ pair, LoopTree_destroy pair.2) (order (lf_nodes (lf s))).

(** [getNumberOfLoops()], at 64 bits *)
Definition getNumberOfLoops : M LFSt Z :=
  let* s := get in
  foldM (λ t tree,
    let* k := getNumberOfSubLoops (tree_fuel s) tree in
    ret ((t + 1 + k) mod 2 ^ 64)%Z) 0%Z (visit (lf_trees (lf s))).

Definition getNode (loop : Ptr) : M LFSt (option Ptr) :=
  let* s := get in ret (lf_headerLoops (lf s) !! getHeader (ls loop)).

(** [getInnermostLoopThatContains(i)] of the forest: the first tree that includes the
    instruction, and in it the first loop in post order *)
Definition finderStep (i n : Ptr) (treeLevel : Z) : M (LFSt * option Ptr) bool :=
  let* loop := on_trees (getLoop n) in
  if isIncludedInst ir (ls loop) i then on_captured (put (Some n)) ;;; ret true else ret false.
Fixpoint innermostInTrees (i : Ptr) (trees : list Ptr) : M LFSt (option Ptr) :=
  match trees with
  | [] => ret None
  | tree :: trees =>
      let* l := getLoop tree in
      if decide (getFunction ir (ls l) ≠ ir_functionOf ir (ir_blockOf ir i)) then innermostInTrees i trees
      else if negb (isIncludedInst ir (ls l) i) then innermostInTrees i trees
      else
        let* s := get in
        let* innermostLoop := capturing None (visitPostOrder (tree_fuel s) (finderStep i) tree 1%Z) in
        massert (bool_decide (innermostLoop ≠ None)) ;;;
        ret innermostLoop
  end.
Definition forest_getInnermostLoopThatContains (i : Ptr) : M LFSt (option Ptr) :=
  let* s := get in innermostInTrees i (visit (lf_trees (lf s))).
(** the same for a block, through its first instruction *)
Definition forest_getInnermostLoopThatContainsBB (bb : Ptr) : M LFSt (option Ptr) :=
  let* i := deref (head (ir_insts ir bb)) in forest_getInnermostLoopThatContains i.
End loop_forest.
