(* ===== verification/LoopNesting.v ===== *)
(** * The nesting order of selected loops

    Natural loops of one program: the blocks of two of them are nested or disjoint, and the
    header of a loop dominates its blocks. From these facts of llvm's loops, containment
    orders the selected loops like a forest, and the walk up the dominator tree finds a loop
    in between exactly when there is one. *)
From S2P Require Import Prelude Forest Dominators DominatorsQuery LoopStructure LoopForest.

Section nesting.
Context {IO : IterOrder} (ir : IRProgram) (ls : Ptr → LoopStructure).
Context (loops : list Ptr) (h : DomHeap) (doms : gmap Ptr DominatorForest).

(** [f] is the dominator forest of the function of [l], and the header of [l] dominates in
    it the blocks of [l] *)
Definition headed (l : Ptr) : Prop :=
  ∃ f, doms !! getFunction ir (ls l) = Some f ∧ dom_wf h f ∧
    ∀ b, b ∈ ls_bbs (ls l) → ∃ hn n, df_bbNodeMap f !! Some (ls_header (ls l)) = Some hn ∧
      df_bbNodeMap f !! Some b = Some n ∧ dom_above h f hn n.

(** what llvm says of natural loops with different headers *)
Record selection_ok : Prop := {
  so_nodup : NoDup loops;
  so_header l : l ∈ loops → ls_header (ls l) ∈ ls_bbs (ls l);
  so_headers l k : l ∈ loops → k ∈ loops → ls_header (ls l) = ls_header (ls k) → l = k;
  so_laminar l k : l ∈ loops → k ∈ loops →
    ls_bbs (ls l) ## ls_bbs (ls k) ∨ ls_bbs (ls l) ⊆ ls_bbs (ls k) ∨ ls_bbs (ls k) ⊆ ls_bbs (ls l);
  so_function l b : l ∈ loops → b ∈ ls_bbs (ls l) → ir_functionOf ir b = getFunction ir (ls l);
  so_headed l : l ∈ loops → headed l;
  so_outermost l : l ∈ loops → (1 ≤ ls_depth (ls l))%Z;
  so_depth l k : l ∈ loops → k ∈ loops → l ≠ k → ls_header (ls k) ∈ ls_bbs (ls l) →
    (ls_depth (ls l) < ls_depth (ls k))%Z
}.

(** [k] is nested in [l]; the same or equal; with no selected loop in between *)
Definition contains (l k : Ptr) : Prop :=
  l ∈ loops ∧ k ∈ loops ∧ l ≠ k ∧ ls_header (ls k) ∈ ls_bbs (ls l).
Definition within (l k : Ptr) : Prop := l = k ∨ contains l k.
Definition immediate (l k : Ptr) : Prop := contains l k ∧ ∀ m, contains l m → ¬ contains m k.

#[export] Instance contains_dec l k : Decision (contains l k).
Proof. unfold contains. apply _. Defined.

Definition inside (l : Ptr) : gset Ptr := list_to_set (filter (contains l) loops).

Lemma elem_of_inside l k : k ∈ inside l ↔ contains l k.
Proof.
  unfold inside. rewrite elem_of_list_to_set, list_elem_of_filter. unfold contains. tauto.
Qed.

Context (Ok_sel : selection_ok).

Lemma contains_depth l k : contains l k → (ls_depth (ls l) < ls_depth (ls k))%Z.
Proof. intros (Hl & Hk & Hne & Hin). by apply (so_depth Ok_sel). Qed.

Lemma contains_irrefl l : ¬ contains l l.
Proof. by intros (_ & _ & ? & _). Qed.

Lemma contains_subset l k : contains l k → ls_bbs (ls k) ⊆ ls_bbs (ls l).
Proof.
  intros C. pose proof C as (Hl & Hk & Hne & Hin).
  destruct (so_laminar Ok_sel l k Hl Hk) as [Hd|[Hs|Hs]]; [|exfalso|done].
  - exfalso. apply (Hd (ls_header (ls k))); [done|]. by apply (so_header Ok_sel).
  - assert (contains k l) as C'.
    { split_and!; [done..|congruence|]. apply Hs, (so_header Ok_sel). done. }
    pose proof (contains_depth _ _ C). pose proof (contains_depth _ _ C'). lia.
Qed.

Lemma contains_trans l k m : contains l k → contains k m → contains l m.
Proof.
  intros C C'. pose proof C as (Hl & Hk & Hne & Hin). pose proof C' as (_ & Hm & Hne' & Hin').
  split_and!; [done..| |].
  - intros ->. apply contains_depth in C. apply contains_depth in C'. lia.
  - by apply (contains_subset l k C).
Qed.

(** the loops that contain a loop are nested in each other *)
Lemma contains_comparable l k m : contains l m → contains k m → l = k ∨ contains l k ∨ contains k l.
Proof.
  intros (Hl & Hm & _ & Hlm) (Hk & _ & _ & Hkm). destruct (decide (l = k)) as [->|Hne]; [by left|right].
  destruct (so_laminar Ok_sel l k Hl Hk) as [Hd|[Hs|Hs]].
  - by destruct (Hd (ls_header (ls m))).
  - right. split_and!; [done..|congruence|]. apply Hs. by apply (so_header Ok_sel).
  - left. split_and!; [done..|]. apply Hs. by apply (so_header Ok_sel).
Qed.

Lemma contains_function l k : contains l k → getFunction ir (ls k) = getFunction ir (ls l).
Proof. intros (Hl & Hk & _ & Hin). exact (so_function Ok_sel l _ Hl Hin). Qed.

Lemma immediate_unique l k m : immediate l m → immediate k m → l = k.
Proof.
  intros [Cl Hl] [Ck Hk]. destruct (contains_comparable l k m Cl Ck) as [?|[H|H]]; [done|..].
  - by destruct (Hl k H).
  - by destruct (Hk l H).
Qed.

Lemma within_trans l k m : within l k → within k m → within l m.
Proof.
  intros H1 [<-|C']; [done|]. destruct H1 as [->|C]; right; [done|]. by apply (contains_trans l k m).
Qed.

Lemma inside_shrinks l m : contains l m → inside m ⊂ inside l.
Proof.
  intros C. split.
  - intros x. rewrite !elem_of_inside. by apply contains_trans.
  - intros Hsub. apply (contains_irrefl m), elem_of_inside, Hsub. by apply elem_of_inside.
Qed.

Lemma immediate_or_between l k : contains l k → immediate l k ∨ ∃ m, contains l m ∧ contains m k.
Proof.
  intros C. destruct (decide (Exists (λ m, contains l m ∧ contains m k) loops)) as [H|H].
  - right. apply Exists_exists in H as (m & _ & Hm). by exists m.
  - left. split; [done|]. intros m C1 C2. apply H, Exists_exists. exists m. split; [apply C1|done].
Qed.

(** around the inner one of two nested loops there is one immediately around it *)
Lemma immediate_around l k : contains l k → ∃ m, within l m ∧ immediate m k.
Proof.
  remember (inside l) as X eqn:HX. revert l HX.
  induction X as [X IH] using (well_founded_induction set_wf). intros l -> C.
  destruct (immediate_or_between l k C) as [H|(m & C1 & C2)]; [exists l; split; [by left|done]|].
  destruct (IH (inside m) (inside_shrinks l m C1) m eq_refl C2) as (j & Hj & Hjk).
  exists j. split; [|done]. apply (within_trans l m j); [by right|done].
Qed.

(** and inside the outer one there is one immediately inside it *)
Lemma immediate_inside l k : contains l k → ∃ m, immediate l m ∧ within m k.
Proof.
  remember (inside l ∖ inside k) as X eqn:HX. revert k HX.
  induction X as [X IH] using (well_founded_induction set_wf). intros k -> C.
  destruct (immediate_or_between l k C) as [H|(m & C1 & C2)]; [exists k; split; [done|by left]|].
  destruct (IH (inside l ∖ inside m)) with (k := m) as (j & Hj & Hjm); [|done..|].
  - pose proof (inside_shrinks m k C2) as [Hs Hn]. split; [set_solver|]. intros Hsub.
    assert (k ∈ inside l ∖ inside m) as Hk.
    { apply Hsub. rewrite elem_of_difference, !elem_of_inside. split; [done|apply contains_irrefl]. }
    apply elem_of_difference in Hk as [_ Hk]. by apply Hk, elem_of_inside.
  - exists j. split; [done|]. apply (within_trans j m k); [done|by right].
Qed.
End nesting.
