(* ===== verification/LoopTreeSpec.v ===== *)
(** * Operations on a loop forest

    A well-formed loop forest stays one when nodes are deleted, and the visits of a tree
    reach every node of it once. *)
From S2P Require Import Prelude Forest Dominators LoopStructure LoopForest.

(** the first loop over [l1 ++ l2] that stops at [true] *)
Lemma anyM_app {S A} (f : A → M S bool) l1 l2 s :
  anyM f (l1 ++ l2) s = (let* b := anyM f l1 in if b : bool then ret true else anyM f l2) s.
Proof.
  revert s. induction l1 as [|x l1 IH]; intros s; [done|]. simpl. unfold bind.
  destruct (f x s) as [[s' [|]]|e]; [done| |done]. apply IH.
Qed.

Lemma anyM_ext {S A} (f g : A → M S bool) l s : (∀ x s, x ∈ l → f x s = g x s) → anyM f l s = anyM g l s.
Proof.
  revert s. induction l as [|x l IH]; intros s H; [done|]. simpl. unfold bind. rewrite H by by left.
  destruct (g x s) as [[s' [|]]|e]; [done| |done]. apply IH. intros y s'' Hy. apply H. by right.
Qed.

(** *** Roots of a finite forest *)
Section roots.
Variables (U : gset Ptr) (kids : Ptr → list Ptr) (par : Ptr → option Ptr) (rank : Ptr → nat).
Context (F : is_forest U kids par rank).

Lemma root_above n : n ∈ U → ∃ r, r ∈ U ∧ par r = None ∧ above U kids r n.
Proof.
  remember (rank n) as k eqn:Hk. revert n Hk. induction k as [k IH] using lt_wf_ind. intros n -> Hn.
  destruct (par n) as [p|] eqn:Hp.
  - destruct (fo_par _ _ _ _ F n p Hn Hp) as [HpU Hlt].
    destruct (IH (rank p) Hlt p eq_refl HpU) as (r & Hr & Hrn & Hrp). exists r. split_and!; [done..|].
    eapply rtc_r; [done|]. by apply (child_inv _ _ _ _ F).
  - exists n. split_and!; [done..|]. apply rtc_refl.
Qed.

Lemma above_of_root r n : par r = None → above U kids n r → n = r.
Proof.
  intros Hr H. apply rtc_inv_r in H as [->|(p & _ & Hp)]; [done|].
  apply (child_inv _ _ _ _ F) in Hp as [_ Hp]. congruence.
Qed.

(** the sub-trees of the roots make up the forest *)
Lemma weight_roots (rs : list Ptr) : NoDup rs → (∀ r, r ∈ rs ↔ r ∈ U ∧ par r = None) →
  sum_list_with (weight U kids rank) rs = size U.
Proof.
  intros Hnd Hrs.
  assert (mjoin (preorder kids (height U rank) <$> rs) ≡ₚ elements U) as Hp.
  { apply NoDup_Permutation; [|apply NoDup_elements|].
    - assert (∀ r, r ∈ rs → r ∈ U ∧ par r = None) as Hin by (intros r; apply Hrs).
      clear Hrs. induction Hnd as [|r rs Hr Hnd IH]; [apply NoDup_nil_2|].
      change (NoDup (preorder kids (height U rank) r ++ mjoin (preorder kids (height U rank) <$> rs))).
      destruct (Hin r ltac:(by left)) as [HrU Hrp].
      apply NoDup_app. split; [apply (NoDup_preorder _ _ _ _ F); [done|lia]|]. split.
      + intros x Hx. rewrite list_elem_of_join. intros (l & Hxl & (q & -> & Hq)%list_elem_of_fmap).
        destruct (Hin q ltac:(by right)) as [HqU Hqp].
        apply (elem_of_preorder _ _ _ _ F) in Hx; [|done|lia].
        apply (elem_of_preorder _ _ _ _ F) in Hxl; [|done|lia].
        destruct (above_comparable _ _ _ _ F r q x Hx Hxl) as [H|H];
          apply above_of_root in H; by subst.
      + apply IH. intros q Hq. apply Hin. by right.
    - intros x. rewrite list_elem_of_join, elem_of_elements. split.
      + intros (l & Hx & (r & -> & Hr)%list_elem_of_fmap). apply Hrs in Hr as [Hr _].
        apply (elem_of_preorder _ _ _ _ F) in Hx; [|done|lia].
        by apply (above_in _ _ _ _ F _ _ Hx (or_introl Hr)).
      + intros Hx. destruct (root_above x Hx) as (r & Hr & Hrp & Hrx).
        exists (preorder kids (height U rank) r). split; [by apply (elem_of_preorder _ _ _ _ F); [|lia|]|].
        apply list_elem_of_fmap. exists r. split; [done|]. by apply Hrs. }
  apply Permutation_length in Hp. rewrite length_join in Hp. change (length (elements U)) with (size U) in Hp.
  rewrite <- Hp. clear. induction rs as [|r rs IH]; [done|].
  change (weight U kids rank r + sum_list_with (weight U kids rank) rs =
          length (preorder kids (height U rank) r) + sum_list (length <$> (preorder kids (height U rank) <$> rs))).
  by rewrite IH.
Qed.
End roots.

Section ops.
Context {IO : IterOrder}.

Definition children_of (s : LFSt) (n : Ptr) : list Ptr := visit (default ∅ (t_children <$> tree_objs s !! n)).
Definition parent_of (s : LFSt) (n : Ptr) : option Ptr := tree_objs s !! n ≫= t_parent.
Definition loop_of (s : LFSt) (n : Ptr) : option Ptr := t_loop <$> tree_objs s !! n.

(** The nodes of [live] are the nodes of the forest: their links agree, and the trees of the
    forest are the nodes without a parent. *)
Record forest_wf (live : gset Ptr) (rank : Ptr → nat) (s : LFSt) : Prop := {
  fw_live n : n ∈ live → is_Some (tree_objs s !! n);
  fw_forest : is_forest live (children_of s) (parent_of s) rank;
  fw_trees n : n ∈ lf_trees (lf s) ↔ n ∈ live ∧ parent_of s n = None
}.

(** ** Deletion *)

Lemma update_tree_run n f x s : tree_objs s !! n = Some x →
  update_tree n f s = Ok (mkLFSt (<[n := f x]> (tree_objs s)) (tree_next s) (lf s), tt).
Proof. intros Hx. unfold update_tree, bind, load_tree. by rewrite Hx. Qed.

(** the children of a node with a parent move to the parent *)
Lemma adopt_children s parent p0 cs :
  NoDup cs → parent ∉ cs → tree_objs s !! parent = Some p0 → (∀ c, c ∈ cs → is_Some (tree_objs s !! c)) →
  wp (forM (λ child,
        update_tree child (set_parent (Some parent)) ;;;
        update_tree parent (λ p, set_children ({[child]} ∪ t_children p) p)) cs)
     (λ _ s', lf s' = lf s ∧ tree_next s' = tree_next s ∧
        tree_objs s' !! parent = Some (set_children (list_to_set cs ∪ t_children p0) p0) ∧
        (∀ n x, n ∈ cs → tree_objs s !! n = Some x → tree_objs s' !! n = Some (set_parent (Some parent) x)) ∧
        (∀ n, n ≠ parent → n ∉ cs → tree_objs s' !! n = tree_objs s !! n)) s.
Proof.
  intros Hnd Hpc Hp Hlive.
  eapply wp_mono; [apply (wp_forM _ (λ pre _ s', lf s' = lf s ∧ tree_next s' = tree_next s ∧
    tree_objs s' !! parent = Some (set_children (list_to_set pre ∪ t_children p0) p0) ∧
    (∀ n x, n ∈ pre → tree_objs s !! n = Some x → tree_objs s' !! n = Some (set_parent (Some parent) x)) ∧
    (∀ n, n ≠ parent → n ∉ pre → tree_objs s' !! n = tree_objs s !! n)))|done].
  - split_and!; try done.
    + rewrite Hp. f_equal. destruct p0 as [l p c]. unfold set_children. simpl. f_equal.
      apply set_eq. intros y. rewrite elem_of_union, elem_of_empty. tauto.
    + by intros n x ?%elem_of_nil.
  - intros pre c post s1 Hl (Hlf & Hnx & Hpar & Hpre & Hrest).
    assert (c ∈ cs ∧ c ∉ pre) as [Hc Hcp].
    { subst cs. apply NoDup_app in Hnd as (_ & Hnd & _). split; [set_solver|].
      intros Hin. apply (Hnd c Hin). by left. }
    assert (c ≠ parent) as Hcne by (intros ->; done).
    destruct (Hlive c Hc) as [x Hx].
    assert (tree_objs s1 !! c = Some x) as Hx1 by (by rewrite Hrest).
    eapply wp_bind_run; [by apply (update_tree_run c _ x)|]. unfold wp.
    rewrite (update_tree_run parent _ (set_children (list_to_set pre ∪ t_children p0) p0))
      by (simpl; by rewrite lookup_insert_ne). simpl. split_and!; try done.
    + rewrite lookup_insert_eq. unfold set_children. simpl. do 2 f_equal.
      apply set_eq. intros y. rewrite list_to_set_app, !elem_of_union. simpl.
      rewrite elem_of_union, elem_of_empty. tauto.
    + intros n y Hn Hy. apply elem_of_snoc in Hn as [Hn| ->].
      * assert (n ≠ c) by (by intros ->). assert (n ≠ parent).
        { intros ->. apply Hpc. subst cs. set_solver. }
        rewrite !lookup_insert_ne by done. by apply Hpre.
      * rewrite lookup_insert_ne by done. rewrite lookup_insert_eq. congruence.
    + intros n Hn Hnp. rewrite elem_of_snoc in Hnp. rewrite !lookup_insert_ne by naive_solver.
      apply Hrest; tauto.
Qed.

(** the children of a root become trees *)
Lemma promote_children s cs :
  NoDup cs → (∀ c, c ∈ cs → is_Some (tree_objs s !! c) ∧ c ∉ lf_trees (lf s)) →
  wp (forM (λ child, update_tree child (set_parent None) ;;; addTree child) cs)
     (λ _ s', lf s' = set_trees (union (list_to_set cs)) (lf s) ∧ tree_next s' = tree_next s ∧
        (∀ n x, n ∈ cs → tree_objs s !! n = Some x → tree_objs s' !! n = Some (set_parent None x)) ∧
        (∀ n, n ∉ cs → tree_objs s' !! n = tree_objs s !! n)) s.
Proof.
  intros Hnd Hcs.
  eapply wp_mono; [apply (wp_forM _ (λ pre _ s',
    lf s' = set_trees (union (list_to_set pre)) (lf s) ∧ tree_next s' = tree_next s ∧
    (∀ n x, n ∈ pre → tree_objs s !! n = Some x → tree_objs s' !! n = Some (set_parent None x)) ∧
    (∀ n, n ∉ pre → tree_objs s' !! n = tree_objs s !! n)))|done].
  - split_and!; try done; [|by intros n x ?%elem_of_nil]. unfold set_trees. simpl.
    rewrite (left_id_L ∅ (∪)). by destruct (lf s).
  - intros pre c post s1 Hl (Hlf & Hnx & Hpre & Hrest).
    assert (c ∈ cs ∧ c ∉ pre) as [Hc Hcp].
    { subst cs. apply NoDup_app in Hnd as (_ & Hnd & _). split; [set_solver|].
      intros Hin. apply (Hnd c Hin). by left. }
    destruct (Hcs c Hc) as [[x Hx] Hnt].
    assert (tree_objs s1 !! c = Some x) as Hx1 by (by rewrite Hrest).
    eapply wp_bind_run; [by apply (update_tree_run c _ x)|]. unfold addTree.
    apply wp_bind, wp_get, wp_bind, wp_massert. simpl. split.
    { apply bool_decide_eq_true_2. rewrite Hlf. simpl. rewrite elem_of_union, elem_of_list_to_set. tauto. }
    apply wp_modify. simpl. split_and!; try done.
    + rewrite Hlf. unfold set_trees. simpl. f_equal. apply set_eq. intros y.
      rewrite list_to_set_app, !elem_of_union. simpl. rewrite elem_of_union, elem_of_empty. tauto.
    + intros n y Hn Hy. apply elem_of_snoc in Hn as [Hn| ->].
      * rewrite lookup_insert_ne by (by intros ->). by apply Hpre.
      * rewrite lookup_insert_eq. congruence.
    + intros n Hn. rewrite elem_of_snoc in Hn. rewrite lookup_insert_ne by naive_solver. apply Hrest. tauto.
Qed.

(** [n] is taken out of the forest: its children go to its parent *)
Definition spliced_parent (s : LFSt) (n b : Ptr) : option Ptr :=
  if decide (parent_of s b = Some n) then parent_of s n else parent_of s b.
Record spliced (live : gset Ptr) (n : Ptr) (s s' : LFSt) : Prop := {
  sp_obj b x : b ∈ live → b ≠ n → tree_objs s !! b = Some x →
    ∃ x', tree_objs s' !! b = Some x' ∧ t_loop x' = t_loop x;
  sp_parent b : b ∈ live → b ≠ n → parent_of s' b = spliced_parent s n b;
  sp_children a c : a ∈ live → a ≠ n → c ∈ children_of s' a ↔
    c ≠ n ∧ (c ∈ children_of s a ∨ (c ∈ children_of s n ∧ parent_of s n = Some a));
  sp_trees b : b ∈ lf_trees (lf s') ↔ b ≠ n ∧ (b ∈ lf_trees (lf s) ∨ (b ∈ children_of s n ∧ parent_of s n = None));
  sp_nodes : lf_nodes (lf s') = lf_nodes (lf s)
}.

Section splice.
Context (live : gset Ptr) (rank : Ptr → nat) (n : Ptr) (s s' : LFSt).
Context (W : forest_wf live rank s) (Hn : n ∈ live) (P : spliced live n s s').
Local Abbreviation F := (fw_forest live rank s W).

Lemma spliced_step b q : b ∈ live → spliced_parent s n b = Some q →
  q ∈ live ∧ q ≠ n ∧ rank q < rank b.
Proof.
  intros Hb. unfold spliced_parent. case_decide as Hp; intros Hq.
  - destruct (fo_par _ _ _ _ F b n Hb Hp) as [_ ?]. destruct (fo_par _ _ _ _ F n q Hn Hq) as [? ?].
    split; [done|]. split; [intros ->; lia|lia].
  - destruct (fo_par _ _ _ _ F b q Hb Hq) as [? ?]. split; [done|]. split; [congruence|done].
Qed.

Lemma spliced_wf : forest_wf (live ∖ {[n]}) rank s'.
Proof.
  split.
  - intros b [Hb Hbn]%elem_of_difference. rewrite elem_of_singleton in Hbn.
    destruct (fw_live _ _ _ W b Hb) as [x Hx]. destruct (sp_obj _ _ _ _ P b x Hb Hbn Hx) as (x' & Hx' & _). eauto.
  - split.
    + intros p _. apply NoDup_visit.
    + intros p c [Hp Hpn]%elem_of_difference. rewrite elem_of_singleton in Hpn.
      rewrite (sp_children _ _ _ _ P p c Hp Hpn), elem_of_difference, elem_of_singleton.
      rewrite (fo_link _ _ _ _ F p c Hp), (fo_link _ _ _ _ F n c Hn).
      destruct (decide (c = n)) as [->|Hcn]; [tauto|].
      destruct (decide (c ∈ live)) as [Hcl|]; [|set_solver].
      rewrite (sp_parent _ _ _ _ P c Hcl Hcn). unfold spliced_parent. case_decide as Hc.
      * split; [intros (_ & [[_ ?]|[[? _] ?]])|intros [[? _] ?]]; [congruence|tauto..].
      * split; [intros (_ & [[? ?]|[[_ ?] _]])|intros [[? _] ?]]; tauto.
    + intros c p [Hc Hcn]%elem_of_difference. rewrite elem_of_singleton in Hcn.
      rewrite (sp_parent _ _ _ _ P c Hc Hcn), elem_of_difference, elem_of_singleton. intros Hp.
      by destruct (spliced_step c p Hc Hp) as (? & ? & ?).
  - intros b. rewrite (sp_trees _ _ _ _ P), (fw_trees _ _ _ W b), elem_of_difference, elem_of_singleton.
    rewrite (fo_link _ _ _ _ F n b Hn). destruct (decide (b = n)) as [->|Hbn]; [tauto|].
    destruct (decide (b ∈ live)) as [Hbl|]; [|tauto].
    rewrite (sp_parent _ _ _ _ P b Hbl Hbn). unfold spliced_parent. case_decide as Hb.
    + split; [intros (_ & [[_ ?]|[[? _] ?]])|intros [[? _] ?]]; [congruence|tauto..].
    + split; [intros (_ & [[? ?]|[[_ ?] _]])|intros [[? _] ?]]; tauto.
Qed.

Lemma spliced_above a b : a ∈ live → a ≠ n → b ∈ live → b ≠ n →
  above (live ∖ {[n]}) (children_of s') a b ↔ above live (children_of s) a b.
Proof.
  intros Ha Han. remember (rank b) as k eqn:Hk. revert b Hk.
  induction k as [k IH] using lt_wf_ind. intros b -> Hb Hbn.
  rewrite (above_parent _ _ _ _ (fw_forest _ _ _ spliced_wf) a b), (above_parent _ _ _ _ F a b).
  rewrite (sp_parent _ _ _ _ P b Hb Hbn). split; (intros [->|(p & Hbl & Hp & Hap)]; [by left|]).
  - destruct (spliced_step b p Hb Hp) as (HpU & Hpn & Hrk).
    rewrite (IH (rank p) Hrk p eq_refl HpU Hpn) in Hap. right. unfold spliced_parent in Hp. case_decide as Hbp.
    + exists n. split; [done|]. split; [done|]. rewrite (above_parent _ _ _ _ F a n). right. eauto.
    + exists p. auto.
  - right. unfold spliced_parent. case_decide as Hbp.
    + assert (p = n) as -> by congruence.
      apply (above_parent _ _ _ _ F a n) in Hap as [->|(q & _ & Hq & Haq)]; [done|].
      assert (spliced_parent s n b = Some q) as Hs by (unfold spliced_parent; by rewrite decide_True).
      destruct (spliced_step b q Hb Hs) as (HqU & Hqn & Hrk).
      exists q. split; [set_solver|]. split; [done|]. by apply (IH (rank q) Hrk q eq_refl HqU Hqn).
    + assert (spliced_parent s n b = Some p) as Hs by (unfold spliced_parent; by rewrite decide_False).
      destruct (spliced_step b p Hb Hs) as (HpU & Hpn & Hrk).
      exists p. split; [set_solver|]. split; [done|]. by apply (IH (rank p) Hrk p eq_refl HpU Hpn).
Qed.
End splice.

Lemma elem_of_children_of s n x c : tree_objs s !! n = Some x → c ∈ children_of s n ↔ c ∈ t_children x.
Proof. intros Hx. unfold children_of. by rewrite Hx, elem_of_visit. Qed.

(** the same from the objects *)
Lemma spliced_objects live rank s s' n x : forest_wf live rank s → n ∈ live → tree_objs s !! n = Some x →
  (∀ b y, b ∈ live → b ≠ n → tree_objs s !! b = Some y → ∃ y', tree_objs s' !! b = Some y' ∧
     t_loop y' = t_loop y ∧
     t_parent y' = (if decide (b ∈ visit (t_children x)) then t_parent x else t_parent y) ∧
     t_children y' = (if decide (t_parent x = Some b) then t_children x ∪ t_children y ∖ {[n]} else t_children y)) →
  lf s' = set_trees (λ t, if decide (t_parent x = None) then t_children x ∪ t ∖ {[n]} else t) (lf s) →
  spliced live n s s'.
Proof.
  intros W Hn Hx Hobj Hlf. pose proof (fw_forest _ _ _ W) as F.
  assert (parent_of s n = t_parent x) as Hpar by (unfold parent_of; by rewrite Hx).
  assert (∀ c, c ∈ visit (t_children x) ↔ c ∈ live ∧ parent_of s c = Some n) as Hkid.
  { intros c. rewrite <- (fo_link _ _ _ _ F n c Hn), elem_of_visit. symmetry. by apply elem_of_children_of. }
  assert (∀ c, c ∈ t_children x → c ≠ n) as Hself.
  { intros c Hc ->. apply elem_of_visit, Hkid in Hc as [Hc Hp]. apply (fo_par _ _ _ _ F) in Hp; [lia|done]. }
  split.
  - intros b y Hb Hbn Hy. destruct (Hobj b y Hb Hbn Hy) as (y' & ? & ? & _). eauto.
  - intros b Hb Hbn. destruct (fw_live _ _ _ W b Hb) as [y Hy].
    destruct (Hobj b y Hb Hbn Hy) as (y' & Hy' & _ & Hp & _).
    unfold spliced_parent, parent_of at 1. rewrite Hy'. simpl. rewrite Hp, Hpar.
    assert (parent_of s b = t_parent y) as Hyp by (unfold parent_of; by rewrite Hy).
    case_decide as Hbc; [by rewrite decide_True by (by apply Hkid)|].
    rewrite decide_False; [done|]. intros Hpb. by apply Hbc, Hkid.
  - intros a c Ha Han. destruct (fw_live _ _ _ W a Ha) as [y Hy].
    destruct (Hobj a y Ha Han Hy) as (y' & Hy' & _ & _ & Hc).
    rewrite (elem_of_children_of s' a y'), (elem_of_children_of s a y), (elem_of_children_of s n x), Hc, Hpar by done.
    case_decide as Hpa.
    + rewrite elem_of_union, elem_of_difference, elem_of_singleton. specialize (Hself c). tauto.
    + split; [|tauto]. intros Hca. split; [|by left]. intros ->. apply Hpa. rewrite <- Hpar.
      apply (fo_link _ _ _ _ F a n Ha). by apply (elem_of_children_of s a y).
  - intros b. rewrite Hlf, (elem_of_children_of s n x), Hpar by done. simpl. case_decide as Hpn.
    + rewrite elem_of_union, elem_of_difference, elem_of_singleton. specialize (Hself b). tauto.
    + split; [|tauto]. intros Hb. split; [|by left]. intros ->. apply (fw_trees _ _ _ W) in Hb as [_ Hb]. congruence.
  - by rewrite Hlf.
Qed.

Lemma LoopTree_destroy_run live rank s n : forest_wf live rank s → n ∈ live →
  wp (LoopTree_destroy n) (λ _ s', spliced live n s s' ∧ ∀ m, m = n ∨ tree_objs s !! m = None → tree_objs s' !! m = None) s.
Proof.
  intros W Hn. pose proof (fw_forest _ _ _ W) as F. destruct (fw_live _ _ _ W n Hn) as [x Hx].
  assert (parent_of s n = t_parent x) as Hpar by (unfold parent_of; by rewrite Hx).
  assert (∀ c, c ∈ visit (t_children x) → parent_of s c = Some n ∧ rank n < rank c ∧
    is_Some (tree_objs s !! c)) as Hkids.
  { intros c Hc. apply elem_of_visit, (elem_of_children_of s n x c Hx), (fo_link _ _ _ _ F n c Hn) in Hc as [Hc Hp].
    split; [done|]. split; [by apply (fo_par _ _ _ _ F c n)|by apply (fw_live _ _ _ W)]. }
  unfold LoopTree_destroy. apply wp_bind. unfold wp at 1, load_tree. rewrite Hx. simpl. apply wp_bind.
  destruct (t_parent x) as [p|] eqn:Hp.
  - destruct (fo_par _ _ _ _ F n p Hn Hpar) as [HpU Hrk]. destruct (fw_live _ _ _ W p HpU) as [px Hpx].
    assert (n ∈ t_children px) as Hnc.
    { apply (elem_of_children_of s p px); [done|]. by apply (fo_link _ _ _ _ F p n HpU). }
    assert (p ∉ visit (t_children x)) as Hpc by (intros Hc%Hkids; lia).
    apply wp_bind. unfold wp at 1, load_tree. rewrite Hpx. simpl. apply wp_bind, wp_massert.
    split; [by apply bool_decide_eq_true_2|]. apply wp_bind, wp_modify.
    eapply wp_mono; [eapply (adopt_children _ p); [apply NoDup_visit|done|simpl; apply lookup_insert_eq|]|].
    { intros c Hc. simpl. apply lookup_insert_is_Some. destruct (decide (p = c)); [by left|right].
      split; [done|]. by apply Hkids. }
    intros [] s1 (Hlf & Hnx & Hp1 & Hc1 & Ho1). simpl in *. apply wp_modify.
    split.
    2:{ simpl. intros m [->|Hm]; [by rewrite lookup_delete_eq|]. apply lookup_delete_None. right.
        rewrite Ho1, lookup_insert_ne; [done|congruence..|]. intros Hmc%Hkids. rewrite Hm in Hmc. by destruct Hmc as (_ & _ & []). }
    apply (spliced_objects live rank s _ n x W Hn Hx); rewrite Hp; [|simpl; by rewrite Hlf; destruct (lf s)].
    intros b y Hb Hbn Hy. simpl. rewrite lookup_delete_ne by done. destruct (decide (b = p)) as [->|Hbp].
    + rewrite Hp1. eexists. split; [done|]. simplify_eq. simpl. rewrite list_to_set_visit.
      rewrite (decide_False (P := p ∈ visit _)) by done. by rewrite decide_True.
    + rewrite (decide_False (P := Some p = Some b)) by congruence. case_decide as Hbc.
      * rewrite (Hc1 b y Hbc) by (by rewrite lookup_insert_ne). eauto.
      * rewrite Ho1, lookup_insert_ne by done. eauto.
  - assert (n ∈ lf_trees (lf s)) as Ht by (apply (fw_trees _ _ _ W); by rewrite Hpar).
    unfold removeTree. apply wp_bind, wp_bind, wp_get, wp_bind, wp_massert.
    split; [by apply bool_decide_eq_true_2|]. apply wp_modify.
    eapply wp_mono; [apply promote_children; [apply NoDup_visit|]|].
    { intros c Hc. destruct (Hkids c Hc) as (Hpn & ? & ?). split; [done|]. simpl.
      rewrite elem_of_difference, (fw_trees _ _ _ W c). intros [[_ ?] _]. congruence. }
    intros [] s1 (Hlf & Hnx & Hc1 & Ho1). simpl in *. apply wp_modify.
    split.
    2:{ simpl. intros m [->|Hm]; [by rewrite lookup_delete_eq|]. apply lookup_delete_None. right.
        rewrite Ho1; [done|]. intros Hmc%Hkids. rewrite Hm in Hmc. by destruct Hmc as (_ & _ & []). }
    apply (spliced_objects live rank s _ n x W Hn Hx); rewrite Hp.
    2:{ simpl. rewrite Hlf. unfold set_trees. simpl. by rewrite list_to_set_visit. }
    intros b y Hb Hbn Hy. simpl. rewrite lookup_delete_ne by done. case_decide as Hbc.
    + rewrite (Hc1 b y Hbc Hy). eauto.
    + rewrite Ho1 by done. eauto.
Qed.

(** (C30) Deleting a node of a loop forest fails no assertion and leaves a well-formed forest
    of the other nodes, with the same loops and the same ancestors: the children of the node
    move to its parent, or become trees. *)
Theorem LoopTree_destroy_spec live rank s n : forest_wf live rank s → n ∈ live →
  wp (LoopTree_destroy n) (λ _ s', forest_wf (live ∖ {[n]}) rank s' ∧ tree_objs s' !! n = None ∧
    (∀ b, b ∈ live ∖ {[n]} → loop_of s' b = loop_of s b) ∧
    (∀ a b, a ∈ live ∖ {[n]} → b ∈ live ∖ {[n]} →
       above (live ∖ {[n]}) (children_of s') a b ↔ above live (children_of s) a b)) s.
Proof.
  intros W Hn. eapply wp_mono; [by apply (LoopTree_destroy_run live rank)|].
  intros [] s' [P Hnone]. split; [by eapply spliced_wf|]. split; [apply Hnone; by left|]. split.
  - intros b [Hb Hbn]%elem_of_difference. rewrite elem_of_singleton in Hbn.
    destruct (fw_live _ _ _ W b Hb) as [x Hx]. destruct (sp_obj _ _ _ _ P b x Hb Hbn Hx) as (x' & Hx' & Hl).
    unfold loop_of. rewrite Hx, Hx'. simpl. congruence.
  - intros a b [Ha Han]%elem_of_difference [Hb Hbn]%elem_of_difference.
    rewrite elem_of_singleton in Han, Hbn. by eapply spliced_above.
Qed.

(** The destructor of the forest deletes every node, in whatever order the map lists
    them, without failing an assertion, and leaves no tree. *)
Theorem LoopForest_destroy_spec order rank s :
  (∀ m, order m ≡ₚ map_to_list m) →
  (∀ a b n, lf_nodes (lf s) !! a = Some n → lf_nodes (lf s) !! b = Some n → a = b) →
  forest_wf (map_img (lf_nodes (lf s))) rank s →
  wp (LoopForest_destroy order) (λ _ s', lf_trees (lf s') = ∅ ∧
    ∀ l n, lf_nodes (lf s) !! l = Some n → tree_objs s' !! n = None) s.
Proof.
  intros Hord Hinj W. unfold LoopForest_destroy. apply wp_bind, wp_get.
  set (nodes := order (lf_nodes (lf s))).
  assert (∀ l n, (l, n) ∈ nodes ↔ lf_nodes (lf s) !! l = Some n) as Hin.
  { intros l n. unfold nodes. by rewrite Hord, elem_of_map_to_list. }
  assert (NoDup nodes.*2) as Hnd.
  { apply NoDup_fmap_2_strong; [|unfold nodes; rewrite Hord; apply NoDup_map_to_list].
    intros [a n] [b m] Ha%Hin Hb%Hin. simpl. intros ->. f_equal. by eapply Hinj. }
  eapply wp_mono; [apply (wp_forM _ (λ pre _ s',
    forest_wf (map_img (lf_nodes (lf s)) ∖ list_to_set pre.*2) rank s' ∧
    ∀ n, n ∈ pre.*2 → tree_objs s' !! n = None))|].
  - split; [|by intros n ?%elem_of_nil]. simpl. by rewrite difference_empty_L.
  - intros pre [l n] post s' Hl [W' Hpre]. assert ((l, n) ∈ nodes) as Hln by (rewrite Hl; set_solver).
    assert (n ∉ pre.*2) as Hnp.
    { rewrite Hl, fmap_app, fmap_cons in Hnd. apply NoDup_app in Hnd as (_ & Hnd & _).
      intros Hnin. apply (Hnd n Hnin). by left. }
    eapply wp_mono; [apply (LoopTree_destroy_run _ _ _ n W')|].
    { apply elem_of_difference. split; [|by rewrite elem_of_list_to_set].
      apply elem_of_map_img. exists l. by apply Hin. }
    intros [] s1 [P Hnone]. split.
    + rewrite fmap_app, list_to_set_app_L. cbn [fmap list_fmap snd list_to_set].
      rewrite (right_id_L ∅ (∪)), <- difference_difference_l_L. by eapply spliced_wf;
        [done|apply elem_of_difference; split; [apply elem_of_map_img; exists l; by apply Hin|by rewrite elem_of_list_to_set]|].
    + intros m. rewrite fmap_app. intros [Hm|Hm]%elem_of_app; apply Hnone; [right; by apply Hpre|left].
      by apply list_elem_of_singleton in Hm.
  - intros [] s' [W' Hpre]. split.
    + apply set_eq. intros n. rewrite (fw_trees _ _ _ W'), elem_of_empty, elem_of_difference.
      rewrite elem_of_list_to_set, elem_of_map_img. split; [|done]. intros [[(l & Hl) Hn] _].
      apply Hn, list_elem_of_fmap. exists (l, n). split; [done|]. by apply Hin.
    + intros l n Hl. apply Hpre, list_elem_of_fmap. exists (l, n). split; [done|]. by apply Hin.
Qed.
End ops.
