(* ===== verification/LoopVisit.v ===== *)
(** * Visits of a loop tree

    The recursive visits as loops over the list of the nodes of the tree with their levels,
    and the queries built on them. *)
From S2P Require Import Prelude Forest Dominators LoopStructure LoopForest LoopTreeSpec.

(** the level of a child, at 32 bits *)
Definition next_level (l : Z) : Z := ((l + 1) mod 2 ^ 32)%Z.

(** the nodes of the sub-tree with their levels, parents first and parents last *)
Fixpoint preLevels (kids : Ptr → list Ptr) (fuel : nat) (n : Ptr) (l : Z) : list (Ptr * Z) :=
  match fuel with
  | O => []
  | S fuel => (n, l) :: mjoin ((λ c, preLevels kids fuel c (next_level l)) <$> kids n)
  end.
Fixpoint postLevels (kids : Ptr → list Ptr) (fuel : nat) (n : Ptr) (l : Z) : list (Ptr * Z) :=
  match fuel with
  | O => []
  | S fuel => mjoin ((λ c, postLevels kids fuel c (next_level l)) <$> kids n) ++ [(n, l)]
  end.

Lemma fmap_mjoin {A B} (f : A → B) (ls : list (list A)) : f <$> mjoin ls = mjoin (fmap f <$> ls).
Proof.
  induction ls as [|l ls IH]; [done|].
  change (f <$> l ++ mjoin ls = (f <$> l) ++ mjoin (fmap f <$> ls)). by rewrite fmap_app, IH.
Qed.

Lemma preLevels_nodes kids fuel n l : (preLevels kids fuel n l).*1 = preorder kids fuel n.
Proof.
  revert n l. induction fuel as [|fuel IH]; intros n l; [done|]. cbn [preLevels preorder].
  rewrite fmap_cons, fmap_mjoin, <- list_fmap_compose. simpl. do 2 f_equal.
  apply list_fmap_ext. intros i c _. apply IH.
Qed.

Lemma postLevels_preLevels kids fuel n l : postLevels kids fuel n l ≡ₚ preLevels kids fuel n l.
Proof.
  revert n l. induction fuel as [|fuel IH]; intros n l; [done|]. cbn [postLevels preLevels].
  rewrite <- Permutation_cons_append. constructor.
  induction (kids n) as [|c cs IHc]; [done|].
  change (postLevels kids fuel c (next_level l) ++ mjoin ((λ c, postLevels kids fuel c (next_level l)) <$> cs) ≡ₚ
          preLevels kids fuel c (next_level l) ++ mjoin ((λ c, preLevels kids fuel c (next_level l)) <$> cs)).
  by rewrite IH, IHc.
Qed.

Section visits.
Context {IO : IterOrder} (live : gset Ptr) (rank : Ptr → nat) (s : LFSt) (W : forest_wf live rank s).
Local Abbreviation F := (fw_forest live rank s W).
Local Abbreviation wt := (weight live (children_of s) rank).

Lemma load_tree_run n : n ∈ live → ∃ x, tree_objs s !! n = Some x ∧ load_tree n s = Ok (s, x) ∧
  visit (t_children x) = children_of s n.
Proof.
  intros [x Hx]%(fw_live _ _ _ W). exists x. unfold load_tree, children_of. by rewrite Hx.
Qed.

(** a callback that leaves the forest alone *)
Definition keeps_forest {C} (f : Ptr → Z → M (LFSt * C) bool) : Prop :=
  ∀ n l c s' c' b, f n l (s, c) = Ok ((s', c'), b) → s' = s.

Lemma anyM_keeps {C} (f : Ptr → Z → M (LFSt * C) bool) ps c s' c' b : keeps_forest f →
  anyM (λ p : Ptr * Z, f p.1 p.2) ps (s, c) = Ok ((s', c'), b) → s' = s.
Proof.
  intros Hf. revert c. induction ps as [|p ps IH]; intros c; [by intros [= <- _ _]|].
  simpl. unfold bind. destruct (f p.1 p.2 (s, c)) as [[[s1 c1] r]|] eqn:E; [|done].
  apply Hf in E as ->. destruct r; [by intros [= <- _ _]|]. apply IH.
Qed.

(** a loop of visits is the loop over the visited lists *)
Lemma anyM_mjoin {C} (V : Ptr → M (LFSt * C) bool) (f : Ptr → Z → M (LFSt * C) bool) (L : Ptr → list (Ptr * Z)) cs c :
  keeps_forest f → (∀ k c, k ∈ cs → V k (s, c) = anyM (λ p, f p.1 p.2) (L k) (s, c)) →
  anyM V cs (s, c) = anyM (λ p, f p.1 p.2) (mjoin (L <$> cs)) (s, c).
Proof.
  intros Hf. revert c. induction cs as [|k cs IH]; intros c HV; [done|].
  change (mjoin (L <$> k :: cs)) with (L k ++ mjoin (L <$> cs)). rewrite anyM_app. simpl. unfold bind.
  rewrite HV by by left. destruct (anyM _ (L k) (s, c)) as [[[s1 c1] b]|] eqn:E; [|done].
  apply anyM_keeps in E as ->; [|done]. destruct b; [done|]. apply IH. intros k' c' Hk. apply HV. by right.
Qed.

Lemma visitPreOrder_run {C} (f : Ptr → Z → M (LFSt * C) bool) fuel n l c :
  keeps_forest f → n ∈ live → wt n ≤ fuel →
  visitPreOrder fuel f n l (s, c) =
  anyM (λ p, f p.1 p.2) (preLevels (children_of s) fuel n l) (s, c).
Proof.
  intros Hf. revert n l c. induction fuel as [|fuel IH]; intros n l c Hn Hw.
  { pose proof (weight_pos _ _ _ _ F n Hn). lia. }
  cbn [visitPreOrder preLevels anyM fst snd]. unfold bind.
  destruct (f n l (s, c)) as [[[s1 c1] b]|] eqn:E; [|done]. apply Hf in E as ->.
  destruct b; [done|]. destruct (load_tree_run n Hn) as (x & _ & Hx & Hk).
  unfold on_trees, zoom. cbn [fst]. rewrite Hx, Hk.
  apply anyM_mjoin; [done|]. intros k c' Hkk.
  assert (child live (children_of s) n k) as Hc by done.
  apply IH; [by apply (child_in _ _ _ _ F n k)|]. pose proof (weight_child _ _ _ _ F n k Hc). lia.
Qed.

Lemma visitPostOrder_run {C} (f : Ptr → Z → M (LFSt * C) bool) fuel n l c :
  keeps_forest f → n ∈ live → wt n ≤ fuel →
  visitPostOrder fuel f n l (s, c) =
  anyM (λ p, f p.1 p.2) (postLevels (children_of s) fuel n l) (s, c).
Proof.
  intros Hf. revert n l c. induction fuel as [|fuel IH]; intros n l c Hn Hw.
  { pose proof (weight_pos _ _ _ _ F n Hn). lia. }
  cbn [visitPostOrder postLevels]. rewrite anyM_app. unfold bind.
  destruct (load_tree_run n Hn) as (x & _ & Hx & Hk). unfold on_trees, zoom. cbn [fst]. rewrite Hx, Hk.
  rewrite (anyM_mjoin _ f (λ k, postLevels (children_of s) fuel k (next_level l))); [|done|].
  - cbn [snd]. destruct (anyM _ (mjoin _) (s, c)) as [[[s1 c1] b]|] eqn:E; [|done].
    apply anyM_keeps in E as ->; [|done]. destruct b; [done|]. simpl. unfold bind.
    by destruct (f n l (s, c1)) as [[[s2 c2] [|]]|].
  - intros k c' Hkk. assert (child live (children_of s) n k) as Hc by done.
    apply IH; [by apply (child_in _ _ _ _ F n k)|]. pose proof (weight_child _ _ _ _ F n k Hc). lia.
Qed.

(** the fuel of a visit is enough *)
Lemma weight_fuel n : n ∈ live → wt n ≤ tree_fuel s.
Proof.
  intros Hn. pose proof (weight_bound _ _ _ _ F n Hn). unfold tree_fuel.
  assert (size live ≤ size (tree_objs s)); [|lia]. rewrite <- size_dom. apply subseteq_size.
  intros m Hm. apply elem_of_dom. by apply (fw_live _ _ _ W).
Qed.

Lemma elem_of_preLevels fuel n l : n ∈ live → wt n ≤ fuel →
  NoDup (preLevels (children_of s) fuel n l).*1 ∧
  ∀ m, m ∈ (preLevels (children_of s) fuel n l).*1 ↔ above live (children_of s) n m.
Proof.
  intros Hn Hw. rewrite preLevels_nodes, (preorder_weight _ _ _ _ F) by done. split.
  - apply (NoDup_preorder _ _ _ _ F); [done|lia].
  - intros m. apply (elem_of_preorder _ _ _ _ F); [done|lia].
Qed.

(** as long as levels do not wrap, the level of a node is its depth *)
Lemma preLevels_level fuel n l m k : n ∈ live → wt n ≤ fuel → (0 ≤ l)%Z →
  (l + Z.of_nat (wt n) ≤ 2 ^ 32)%Z → (m, k) ∈ preLevels (children_of s) fuel n l →
  ∃ d, nsteps (child live (children_of s)) d n m ∧ k = (l + Z.of_nat d)%Z.
Proof.
  revert n l. induction fuel as [|fuel IH]; intros n l Hn Hw Hl Hb Hm.
  { by apply elem_of_nil in Hm. }
  apply elem_of_cons in Hm as [[= -> ->]|Hm]; [exists 0; split; [constructor|lia]|].
  apply list_elem_of_join in Hm as (ps & Hm & (c & -> & Hc)%list_elem_of_fmap).
  assert (child live (children_of s) n c) as Hnc by done.
  pose proof (weight_child _ _ _ _ F n c Hnc) as Hwc.
  assert (c ∈ live) as Hcl by (by apply (child_in _ _ _ _ F n c)).
  pose proof (weight_pos _ _ _ _ F c Hcl).
  assert (next_level l = l + 1)%Z as Hnl by (unfold next_level; apply Z.mod_small; lia).
  rewrite Hnl in Hm. destruct (IH c (l + 1)%Z) as (d & Hd & ->); [done|lia..|done|].
  exists (S d). split; [by eapply nsteps_l|lia].
Qed.

(** the sub-tree of a node, as a part of a list: the nodes below [m] *)
Definition below (m : Ptr) (ps : list (Ptr * Z)) : Prop :=
  ∀ m', m' ∈ ps.*1 ↔ above live (children_of s) m m' ∧ m' ≠ m.

Lemma postLevels_nodes fuel n l m : m ∈ (postLevels (children_of s) fuel n l).*1 ↔ m ∈ (preLevels (children_of s) fuel n l).*1.
Proof. by rewrite (postLevels_preLevels (children_of s) fuel n l). Qed.

(** what a list of the nodes of a tree is besides its root *)
Lemma root_below n ps : NoDup (n :: ps.*1) → (∀ m, m ∈ n :: ps.*1 ↔ above live (children_of s) n m) → below n ps.
Proof.
  intros [Hnot _]%NoDup_cons Hin m. rewrite <- Hin, elem_of_cons. split.
  - intros Hm. split; [by right|]. by intros ->.
  - by intros [[->|?] ?].
Qed.

(** the list of a child is a part of the lists of the children *)
Lemma mjoin_part {B} (L : Ptr → list B) cs (y : B) : y ∈ mjoin (L <$> cs) →
  ∃ c l1 l2, c ∈ cs ∧ y ∈ L c ∧ mjoin (L <$> cs) = l1 ++ L c ++ l2.
Proof.
  intros (ps & Hy & (c & -> & Hc)%list_elem_of_fmap)%list_elem_of_join.
  destruct (list_elem_of_split _ _ Hc) as (c1 & c2 & E).
  exists c, (mjoin (L <$> c1)), (mjoin (L <$> c2)). split; [done|]. split; [done|].
  by rewrite E, fmap_app, join_app.
Qed.

(** before the nodes below a node comes the node *)
Lemma preLevels_subtree fuel n l m k : n ∈ live → wt n ≤ fuel → (m, k) ∈ preLevels (children_of s) fuel n l →
  ∃ l1 ps l2, preLevels (children_of s) fuel n l = l1 ++ (m, k) :: ps ++ l2 ∧ below m ps.
Proof.
  revert n l. induction fuel as [|fuel IH]; intros n l Hn Hw Hm; [by apply elem_of_nil in Hm|].
  destruct (elem_of_preLevels (S fuel) n l Hn Hw) as [Hnd Hin]. cbn [preLevels] in *.
  apply elem_of_cons in Hm as [[= -> ->]|Hm].
  - eexists [], _, []. rewrite app_nil_r. split; [reflexivity|]. by apply root_below.
  - destruct (mjoin_part (λ c, preLevels (children_of s) fuel c (next_level l)) _ _ Hm) as (c & k1 & k2 & Hc & Hy & ->).
    assert (child live (children_of s) n c) as Hnc by done. pose proof (weight_child _ _ _ _ F n c Hnc).
    destruct (IH c (next_level l)) as (l1 & ps & l2 & -> & Hb); [by apply (child_in _ _ _ _ F n c)|lia|done|].
    exists ((n, l) :: k1 ++ l1), ps, (l2 ++ k2). split; [|done]. simpl. by rewrite <- !(assoc_L (++)), <- app_comm_cons, <- (assoc_L (++)).
Qed.

(** after the nodes below a node comes the node *)
Lemma postLevels_subtree fuel n l m k : n ∈ live → wt n ≤ fuel → (m, k) ∈ postLevels (children_of s) fuel n l →
  ∃ l1 ps l2, postLevels (children_of s) fuel n l = l1 ++ ps ++ (m, k) :: l2 ∧ below m ps.
Proof.
  revert n l. induction fuel as [|fuel IH]; intros n l Hn Hw Hm; [by apply elem_of_nil in Hm|].
  destruct (elem_of_preLevels (S fuel) n l Hn Hw) as [Hnd Hin]. setoid_rewrite <- postLevels_nodes in Hin.
  rewrite <- postLevels_preLevels in Hnd. cbn [postLevels] in *.
  apply elem_of_app in Hm as [Hm|[= -> ->]%list_elem_of_singleton].
  - destruct (mjoin_part (λ c, postLevels (children_of s) fuel c (next_level l)) _ _ Hm) as (c & k1 & k2 & Hc & Hy & ->).
    assert (child live (children_of s) n c) as Hnc by done. pose proof (weight_child _ _ _ _ F n c Hnc).
    destruct (IH c (next_level l)) as (l1 & ps & l2 & -> & Hb); [by apply (child_in _ _ _ _ F n c)|lia|done|].
    exists (k1 ++ l1), ps, (l2 ++ k2 ++ [(n, l)]). split; [|done]. by rewrite <- !(assoc_L (++)).
  - eexists [], _, []. split; [reflexivity|]. rewrite fmap_app, Permutation_app_comm in Hnd.
    apply root_below; [exact Hnd|]. intros m'. rewrite <- Hin, fmap_app, elem_of_cons, elem_of_app.
    simpl. rewrite list_elem_of_singleton. tauto.
Qed.

(** (C31) A visit calls the function once per node of the tree with the level of the node,
    until the function returns true, and sub-tree by sub-tree: in one case every node comes right
    before the nodes below it, in the other right after them. *)
Theorem visits_spec n : n ∈ live →
  ∃ pre post : list (Ptr * Z),
    (∀ C (f : Ptr → Z → M (LFSt * C) bool) c, keeps_forest f →
       visitPreOrder (tree_fuel s) f n 1%Z (s, c) = anyM (λ p, f p.1 p.2) pre (s, c) ∧
       visitPostOrder (tree_fuel s) f n 1%Z (s, c) = anyM (λ p, f p.1 p.2) post (s, c)) ∧
    pre ≡ₚ post ∧ NoDup pre.*1 ∧ (∀ m, m ∈ pre.*1 ↔ above live (children_of s) n m) ∧
    head pre = Some (n, 1%Z) ∧ last post = Some (n, 1%Z) ∧
    (∀ m k, (m, k) ∈ pre → ∃ l1 ps l2, pre = l1 ++ (m, k) :: ps ++ l2 ∧ below m ps) ∧
    (∀ m k, (m, k) ∈ post → ∃ l1 ps l2, post = l1 ++ ps ++ (m, k) :: l2 ∧ below m ps) ∧
    ((Z.of_nat (size live) < 2 ^ 32)%Z → ∀ m k, (m, k) ∈ pre →
       ∃ d, nsteps (child live (children_of s)) d n m ∧ k = (1 + Z.of_nat d)%Z).
Proof.
  intros Hn. pose proof (weight_fuel n Hn) as Hw.
  destruct (elem_of_preLevels (tree_fuel s) n 1 Hn Hw) as [Hnd Hin].
  exists (preLevels (children_of s) (tree_fuel s) n 1), (postLevels (children_of s) (tree_fuel s) n 1).
  split_and!; try done.
  - intros C f c Hf. split; [by apply visitPreOrder_run|by apply visitPostOrder_run].
  - symmetry. apply postLevels_preLevels.
  - unfold tree_fuel. cbn [postLevels]. by rewrite last_snoc.
  - intros m k. by apply preLevels_subtree.
  - intros m k. by apply postLevels_subtree.
  - intros Hb m k Hm. apply (preLevels_level (tree_fuel s) n 1 m k); [done..|lia| |done].
    pose proof (weight_bound _ _ _ _ F n Hn). lia.
Qed.
End visits.

Lemma add_sub_loops a w : ((a mod 2 ^ 32 + 1 + (w - 1) mod 2 ^ 32) mod 2 ^ 32 = (a + w) mod 2 ^ 32)%Z.
Proof.
  rewrite Zplus_mod_idemp_r. replace (a mod 2 ^ 32 + 1 + (w - 1))%Z with (a mod 2 ^ 32 + w)%Z by lia.
  apply Zplus_mod_idemp_l.
Qed.

Section counting.
Context {IO : IterOrder}.
Context (live : gset Ptr) (rank : Ptr → nat) (s : LFSt) (W : forest_wf live rank s).
Local Abbreviation F := (fw_forest live rank s W).
Local Abbreviation wt := (weight live (children_of s) rank).

(** *** Counting *)

Lemma getNumberOfSubLoops_run fuel n : n ∈ live → wt n ≤ fuel →
  getNumberOfSubLoops fuel n s = Ok (s, ((Z.of_nat (wt n) - 1) mod 2 ^ 32)%Z).
Proof.
  revert n. induction fuel as [|fuel IH]; intros n Hn Hw.
  { pose proof (weight_pos _ _ _ _ F n Hn). lia. }
  destruct (load_tree_run live rank s W n Hn) as (x & _ & Hx & Hk).
  cbn [getNumberOfSubLoops]. rewrite (bind_ok _ _ _ _ _ Hx), Hk, (weight_kids _ _ _ _ F n Hn).
  assert (∀ c, c ∈ children_of s n → c ∈ live ∧ wt c ≤ fuel) as Hcs.
  { intros c Hc. assert (child live (children_of s) n c) as Hnc by done.
    pose proof (weight_child _ _ _ _ F n c Hnc). split; [by apply (child_in _ _ _ _ F n c)|lia]. }
  assert (∀ cs acc, (∀ c, c ∈ cs → c ∈ live ∧ wt c ≤ fuel) →
    foldM (λ subloops subLoop, let* k := getNumberOfSubLoops fuel subLoop in
             ret ((subloops + 1 + k) mod 2 ^ 32)%Z) (acc mod 2 ^ 32)%Z cs s =
    Ok (s, ((acc + Z.of_nat (sum_list_with wt cs)) mod 2 ^ 32)%Z)) as Hfold.
  { intros cs. induction cs as [|c cs IHc]; intros acc Hin; cbn [foldM sum_list_with].
    - unfold ret. do 2 f_equal. f_equal. lia.
    - destruct (Hin c ltac:(by left)) as [Hc Hcf]. unfold bind at 1. unfold bind at 1.
      rewrite (IH c Hc Hcf). unfold ret at 1.
      rewrite add_sub_loops, IHc by (intros d Hd; apply Hin; by right). do 3 f_equal. lia. }
  replace 0%Z with (0 mod 2 ^ 32)%Z by done. rewrite Hfold by done. do 3 f_equal. lia.
Qed.

(** getNumberOfLoops counts the nodes of the forest, as long as there are fewer than
    2^32 of them; getNumberOfSubLoops counts modulo 2^32 the nodes below a node. *)
Theorem getNumberOfLoops_spec :
  ((Z.of_nat (size live) < 2 ^ 32)%Z → getNumberOfLoops s = Ok (s, Z.of_nat (size live))) ∧
  ∀ n, n ∈ live → ∃ below : gset Ptr,
    getNumberOfSubLoops (tree_fuel s) n s = Ok (s, (Z.of_nat (size below) mod 2 ^ 32)%Z) ∧
    ∀ m, m ∈ below ↔ m ≠ n ∧ above live (children_of s) n m.
Proof.
  split.
  - intros Hb. assert (∀ r, r ∈ visit (lf_trees (lf s)) ↔ r ∈ live ∧ parent_of s r = None) as Hrs.
    { intros r. rewrite elem_of_visit. apply (fw_trees _ _ _ W). }
    pose proof (weight_roots _ _ _ _ F _ (NoDup_visit _) Hrs) as Hsum.
    unfold getNumberOfLoops. rewrite (bind_ok _ _ _ _ _ (eq_refl : get s = Ok (s, s))).
    assert (∀ rs acc, (∀ r, r ∈ rs → r ∈ live) → acc + sum_list_with wt rs ≤ size live →
      foldM (λ t tree, let* k := getNumberOfSubLoops (tree_fuel s) tree in
               ret ((t + 1 + k) mod 2 ^ 64)%Z) (Z.of_nat acc) rs s =
      Ok (s, Z.of_nat (acc + sum_list_with wt rs))) as Hfold.
    { intros rs. induction rs as [|r rs IH]; intros acc Hin Hle; cbn [foldM sum_list_with] in *.
      - unfold ret. do 2 f_equal. lia.
      - assert (r ∈ live) as Hr by (apply Hin; by left). pose proof (weight_pos _ _ _ _ F r Hr).
        unfold bind at 1. unfold bind at 1.
        rewrite (getNumberOfSubLoops_run (tree_fuel s) r Hr (weight_fuel live rank s W r Hr)). unfold ret at 1.
        rewrite (Z.mod_small (Z.of_nat (wt r) - 1)) by lia. rewrite Z.mod_small by lia.
        replace (Z.of_nat acc + 1 + (Z.of_nat (wt r) - 1))%Z with (Z.of_nat (acc + wt r)) by lia.
        rewrite IH; [do 3 f_equal; lia|intros q Hq; apply Hin; by right|lia]. }
    specialize (Hfold (visit (lf_trees (lf s))) 0). rewrite Hsum in Hfold.
    apply Hfold; [|lia]. intros r Hr. by apply Hrs.
  - intros n Hn. exists (list_to_set (tail (preorder (children_of s) (height live rank) n))).
    pose proof (NoDup_preorder _ _ _ _ F (height live rank) n Hn ltac:(lia)) as Hnd.
    pose proof (λ m, elem_of_preorder _ _ _ _ F (height live rank) n m Hn ltac:(lia)) as Hin.
    rewrite (getNumberOfSubLoops_run _ n Hn (weight_fuel live rank s W n Hn)). unfold weight.
    unfold height in *. cbn [preorder] in *. apply NoDup_cons in Hnd as [Hn' Hnd]. cbn [tail length].
    split.
    + rewrite size_list_to_set by done. do 3 f_equal. lia.
    + intros m. rewrite elem_of_list_to_set, <- Hin, elem_of_cons. split; [|tauto].
      intros Hm. split; [|by right]. by intros ->.
Qed.

End counting.

(** *** The loop of a basic block *)

Section queries.
Context {IO : IterOrder} (ls : Ptr → LoopStructure).
Context (live : gset Ptr) (rank : Ptr → nat) (s : LFSt) (W : forest_wf live rank s).
Local Abbreviation F := (fw_forest live rank s W).
Local Abbreviation wt := (weight live (children_of s) rank).

Definition includes (bb n : Ptr) : Prop := ∃ l, loop_of s n = Some l ∧ bb ∈ ls_bbs (ls l).

Lemma anyM_false {A C} (f : A → M (LFSt * C) bool) (I : list A → C → Prop) l c :
  I [] c →
  (∀ pre x c, pre ++ [x] `prefix_of` l → I pre c → ∃ c', f x (s, c) = Ok ((s, c'), false) ∧ I (pre ++ [x]) c') →
  ∃ c', anyM f l (s, c) = Ok ((s, c'), false) ∧ I l c'.
Proof.
  intros HI Hstep.
  assert (∀ post pre c, l = pre ++ post → I pre c → ∃ c', anyM f post (s, c) = Ok ((s, c'), false) ∧ I l c') as Hgo.
  { induction post as [|x post IH]; intros pre c1 Hl H.
    - rewrite app_nil_r in Hl. subst pre. eauto.
    - destruct (Hstep pre x c1) as (c2 & Hf & H2); [|done|].
      { exists post. by rewrite <- (assoc_L _). }
      simpl. unfold bind. rewrite Hf. apply (IH (pre ++ [x])); [by rewrite <- (assoc_L _)|done]. }
  by apply (Hgo l []).
Qed.

Lemma getLoop_run n : n ∈ live → ∃ l, loop_of s n = Some l ∧ getLoop n s = Ok (s, l).
Proof.
  intros Hn. destruct (load_tree_run live rank s W n Hn) as (x & Hx & Hrun & _).
  exists (t_loop x). unfold loop_of, getLoop, bind. by rewrite Hrun, Hx.
Qed.

Section by_level.
Variables (bb n : Ptr) (better : Z → Z → bool).
Context (Hn : n ∈ live) (Hsize : (Z.of_nat (size live) < 2 ^ 32)%Z).
Context (Htotal : ∀ a b, a ≠ b → better a b = false → better b a = true).
Context (Htrans : ∀ a b c, better a b = true → better b c = true → better a c = true).
Context (Hchain : ∀ a b, above live (children_of s) n a → above live (children_of s) n b →
  includes bb a → includes bb b → above live (children_of s) a b ∨ above live (children_of s) b a).
Local Abbreviation P := (preLevels (children_of s) (tree_fuel s) n 1).

Lemma level_entry m k : (m, k) ∈ P → above live (children_of s) n m ∧ m ∈ live ∧
  ∃ d, nsteps (child live (children_of s)) d n m ∧ k = (1 + Z.of_nat d)%Z.
Proof.
  intros Hm. pose proof (weight_fuel live rank s W n Hn) as Hw.
  assert (above live (children_of s) n m) as Ha.
  { apply (elem_of_preLevels live rank s W (tree_fuel s) n 1 Hn Hw). apply list_elem_of_fmap. by exists (m, k). }
  split; [done|]. split; [by apply (above_in _ _ _ _ F _ _ Ha (or_introl Hn))|].
  apply (preLevels_level live rank s W (tree_fuel s) n 1 m k); [done..|lia| |done].
  pose proof (weight_bound _ _ _ _ F n Hn). lia.
Qed.

Lemma level_le a b ka kb : (a, ka) ∈ P → (b, kb) ∈ P → above live (children_of s) a b →
  (ka ≤ kb)%Z ∧ (ka = kb → a = b).
Proof.
  intros Ha Hb Hab. destruct (level_entry a ka Ha) as (_ & _ & da & Hda & ->).
  destruct (level_entry b kb Hb) as (_ & _ & db & Hdb & ->).
  apply rtc_nsteps in Hab as [j Hj].
  assert (nsteps (child live (children_of s)) (da + j) n b) as Hdj by (by eapply nsteps_trans).
  rewrite (nsteps_unique _ _ _ _ F db (da + j) n b Hdb Hdj). split; [lia|]. intros Heq.
  assert (j = 0) as -> by lia. by inversion Hj.
Qed.

Lemma levels_differ a b ka kb : (a, ka) ∈ P → (b, kb) ∈ P → includes bb a → includes bb b → a ≠ b → ka ≠ kb.
Proof.
  intros Ha Hb Ia Ib Hne Hk. destruct (level_entry a ka Ha) as (Hna & _). destruct (level_entry b kb Hb) as (Hnb & _).
  destruct (Hchain a b Hna Hnb Ia Ib) as [H|H]; [by apply Hne, (level_le a b ka kb)|].
  symmetry in Hk. by apply Hne; symmetry; apply (level_le b a kb ka).
Qed.

(** the best of the entries seen *)
Definition best (pre : list (Ptr * Z)) (c : option Ptr * Z) : Prop :=
  match c.1 with
  | None => ∀ a k, (a, k) ∈ pre → ¬ includes bb a
  | Some l => ∃ d, (d, c.2) ∈ pre ∧ loop_of s d = Some l ∧ includes bb d ∧
      ∀ a k, (a, k) ∈ pre → includes bb a → k = c.2 ∨ better c.2 k = true
  end.

Lemma levelStep_run pre m k c : pre ++ [(m, k)] `prefix_of` P → best pre c →
  ∃ c', levelStep ls better bb m k (s, c) = Ok ((s, c'), false) ∧ best (pre ++ [(m, k)]) c'.
Proof.
  intros [post HP] Hb. assert ((m, k) ∈ P ∧ ∀ p, p ∈ pre → p ∈ P) as [Hm Hpre] by (rewrite HP; set_solver).
  destruct (level_entry m k Hm) as (_ & Hml & _). destruct (getLoop_run m Hml) as (l & Hl & Hrun).
  assert (m ∉ pre.*1) as Hfresh.
  { destruct (elem_of_preLevels live rank s W (tree_fuel s) n 1 Hn (weight_fuel live rank s W n Hn)) as [Hnd _].
    rewrite HP, !fmap_app in Hnd. apply NoDup_app in Hnd as (Hnd & _). apply NoDup_app in Hnd as (_ & Hnd & _).
    intros Hin. apply (Hnd m Hin). simpl. by left. }
  unfold levelStep, bind, on_trees, zoom. cbn [fst snd]. rewrite Hrun. cbn [fst snd].
  unfold isIncludedBB. case_bool_decide as Hinc; simpl.
  2:{ exists c. split; [done|]. assert (¬ includes bb m) as Hno by (intros (l' & ? & ?); congruence).
      destruct c as [[lc|] kc]; unfold best in *; simpl in *.
      - destruct Hb as (d & Hd & Hld & Hid & Hbest). exists d. rewrite elem_of_snoc.
        split_and!; [by left|done..|]. intros a ka [Ha|[= -> ->]]%elem_of_snoc; [by apply (Hbest a)|done].
      - intros a ka [Ha|[= -> ->]]%elem_of_snoc; [by eapply Hb|done]. }
  assert (includes bb m) as Him by (exists l; done).
  destruct c as [[lc|] kc]; unfold best in *; simpl in *.
  2:{ exists (Some l, k). split; [done|]. simpl. exists m. rewrite elem_of_snoc. split_and!; [by right|done..|].
      intros a ka [Ha|[= -> ->]]%elem_of_snoc Hia; [by destruct (Hb a ka Ha)|by left]. }
  destruct Hb as (d & Hd & Hld & Hid & Hbest).
  assert (k ≠ kc) as Hne.
  { apply (levels_differ m d); [done|by apply Hpre|done..|]. intros ->. apply Hfresh, list_elem_of_fmap. by exists (d, kc). }
  unfold massert. rewrite bool_decide_eq_true_2 by done. unfold ret at 1. destruct (better k kc) eqn:Hbk; simpl.
  - exists (Some l, k). split; [done|]. simpl. exists m. rewrite elem_of_snoc. split_and!; [by right|done..|].
    intros a ka [Ha|[= -> ->]]%elem_of_snoc Hia; [|by left]. right.
    destruct (Hbest a ka Ha Hia) as [->|?]; [done|by eapply Htrans].
  - exists (Some lc, kc). split; [done|]. simpl. exists d. rewrite elem_of_snoc. split_and!; [by left|done..|].
    intros a ka [Ha|[= -> ->]]%elem_of_snoc Hia; [by apply (Hbest a)|]. right. by apply Htotal.
Qed.

Lemma levelStep_keeps : keeps_forest s (levelStep ls better bb).
Proof.
  intros m k c s' c' b. unfold levelStep, bind, on_trees, on_captured, zoom, getLoop, load_tree, deref. simpl.
  unfold bind. destruct (tree_objs s !! m) as [x|]; simpl; [|done].
  unfold massert, ret, fail, get, put. intros H. repeat case_match; by simplify_eq/=.
Qed.

Lemma loopByLevel_run : ∃ r, loopByLevel ls better n bb s = Ok (s, r) ∧
  match r with
  | None => ¬ includes bb n
  | Some l => includes bb n ∧ ∃ d k, (d, k) ∈ P ∧ loop_of s d = Some l ∧ includes bb d ∧
      ∀ a ka, (a, ka) ∈ P → includes bb a → ka = k ∨ better k ka = true
  end.
Proof.
  destruct (load_tree_run live rank s W n Hn) as (x & Hx & Hrun & _).
  assert (loop_of s n = Some (t_loop x)) as Hl by (unfold loop_of; by rewrite Hx).
  unfold loopByLevel. rewrite (bind_ok _ _ _ _ _ Hrun). unfold isIncludedBB. case_bool_decide as Hinc; cbn [negb].
  2:{ exists None. split; [done|]. intros (l & Hl' & ?). congruence. }
  rewrite (bind_ok _ _ _ _ _ (eq_refl : get s = Ok (s, s))). unfold bind, capturing.
  rewrite (visitPreOrder_run live rank s W) by (apply levelStep_keeps || by apply (weight_fuel live rank s W) || done).
  destruct (anyM_false (λ p : Ptr * Z, levelStep ls better bb p.1 p.2) best P (None, 0%Z)) as (c & -> & Hc).
  - intros a k Ha. by apply elem_of_nil in Ha.
  - intros pre [m k] c. apply levelStep_run.
  - exists c.1. split; [done|]. destruct c as [[l|] k]; unfold best in Hc; cbn [fst snd] in *.
    + split; [by exists (t_loop x)|]. destruct Hc as (d & Hd & Hld & Hid & Hbest). eauto 10.
    + exfalso. apply (Hc n 1%Z); [unfold tree_fuel; by left|]. by exists (t_loop x).
Qed.
End by_level.

Lemma getInnermost_run bb n :
  n ∈ live → (Z.of_nat (size live) < 2 ^ 32)%Z →
  (∀ a b, above live (children_of s) n a → above live (children_of s) n b →
     includes bb a → includes bb b → above live (children_of s) a b ∨ above live (children_of s) b a) →
  ∃ r, getInnermostLoopThatContains ls n bb s = Ok (s, r) ∧
     match r with
     | None => ¬ includes bb n
     | Some l => ∃ d, above live (children_of s) n d ∧ loop_of s d = Some l ∧ includes bb d ∧
         ∀ a, above live (children_of s) n a → includes bb a → above live (children_of s) a d
     end.
Proof.
  intros Hn Hsize Hchain. pose proof (weight_fuel live rank s W n Hn) as Hw.
  destruct (loopByLevel_run bb n (λ t l, bool_decide (l < t)%Z)) as (r & Hr & Hspec); [done..| | |done|].
  { intros a b ? ?%bool_decide_eq_false. apply bool_decide_eq_true. lia. }
  { intros a b c ?%bool_decide_eq_true ?%bool_decide_eq_true. apply bool_decide_eq_true. lia. }
  exists r. split; [exact Hr|]. destruct r as [l|]; [|done].
  destruct Hspec as (Hin_n & d & k & Hd & Hld & Hid & Hbest). exists d.
  destruct (level_entry n Hn Hsize d k Hd) as (Hnd & _). split_and!; [done..|].
  intros a Ha Hia. destruct (elem_of_preLevels live rank s W (tree_fuel s) n 1 Hn Hw) as [_ Hin].
  assert (a ∈ (preLevels (children_of s) (tree_fuel s) n 1).*1) as Hap by (by apply Hin).
  apply list_elem_of_fmap in Hap as ([a' ka] & -> & Hap). simpl in *.
  destruct (Hchain a' d Ha Hnd Hia Hid) as [?|Hda]; [done|].
  destruct (level_le n Hn Hsize d a' k ka Hd Hap Hda) as [Hle Heq].
  destruct (Hbest a' ka Hap Hia) as [->|Hlt%bool_decide_eq_true]; [|lia].
  rewrite Heq by done. apply rtc_refl.
Qed.

(** When the loops of a tree that contain a block are nested in each other,
    getInnermostLoopThatContains returns the deepest of them and no assertion fails;
    getOutermostLoopThatContains returns the loop of the node it is called on. For a block
    outside that loop both return null. *)
Theorem loops_of_block_spec bb n :
  n ∈ live → (Z.of_nat (size live) < 2 ^ 32)%Z →
  (∀ a b, above live (children_of s) n a → above live (children_of s) n b →
     includes bb a → includes bb b → above live (children_of s) a b ∨ above live (children_of s) b a) →
  (∃ r, getInnermostLoopThatContains ls n bb s = Ok (s, r) ∧
     match r with
     | None => ¬ includes bb n
     | Some l => ∃ d, above live (children_of s) n d ∧ loop_of s d = Some l ∧ includes bb d ∧
         ∀ a, above live (children_of s) n a → includes bb a → above live (children_of s) a d
     end) ∧
  (∃ r, getOutermostLoopThatContains ls n bb s = Ok (s, r) ∧
     (includes bb n → r = loop_of s n) ∧ (¬ includes bb n → r = None)).
Proof.
  intros Hn Hsize Hchain. split; [by apply getInnermost_run|].
  pose proof (weight_fuel live rank s W n Hn) as Hw.
  - destruct (loopByLevel_run bb n (λ t l, bool_decide (t < l)%Z)) as (r & Hr & Hspec); [done..| | |done|].
    { intros a b ? ?%bool_decide_eq_false. apply bool_decide_eq_true. lia. }
    { intros a b c ?%bool_decide_eq_true ?%bool_decide_eq_true. apply bool_decide_eq_true. lia. }
    exists r. split; [exact Hr|].
    assert ((n, 1%Z) ∈ preLevels (children_of s) (tree_fuel s) n 1) as Hn1 by (unfold tree_fuel; by left).
    destruct r as [l|]; [|done]. destruct Hspec as (Hin_n & d & k & Hd & Hld & Hid & Hbest).
    destruct (level_entry n Hn Hsize d k Hd) as (Hnd & _ & dd & Hdd & ->).
    destruct (level_le n Hn Hsize n d 1 (1 + Z.of_nat dd) Hn1 Hd Hnd) as [_ Heq].
    split.
    + intros Hi. assert (n = d) as <-; [|done]. apply Heq.
      destruct (Hbest n 1%Z Hn1 Hi) as [?|Hlt%bool_decide_eq_true]; lia.
    + by intros [].
Qed.
End queries.
