(* ===== verification/LoopForestSpec.v ===== *)
(** * The loop forest is the nesting order

    The constructor of [LoopForest] attaches every loop to the innermost selected loop around
    it, for the loops that are in an outermost one. *)
From S2P Require Import Prelude Forest Dominators DominatorsQuery LoopStructure LoopForest LoopNesting LoopTreeSpec.

Section forest_spec.
Context {IO : IterOrder} (ir : IRProgram) (ls : Ptr → LoopStructure).
Context (h : DomHeap) (doms : gmap Ptr DominatorForest).

(** the loops of [sel] have nodes, and the two other maps of the forest agree *)
Record registered (sel : list Ptr) (s : LFSt) : Prop := {
  re_node l : l ∈ sel ↔ is_Some (lf_nodes (lf s) !! l);
  re_obj l n : lf_nodes (lf s) !! l = Some n → ∃ x, tree_objs s !! n = Some x ∧ t_loop x = l;
  re_header bb n : lf_headerLoops (lf s) !! bb = Some n ↔
    ∃ l, lf_nodes (lf s) !! l = Some n ∧ ls_header (ls l) = bb;
  re_function fn k : k ∈ default ∅ (lf_functionLoops (lf s) !! fn) ↔
    k ∈ sel ∧ getFunction ir (ls k) = fn;
  re_next q : is_Some (tree_objs s !! q) → (q < tree_next s)%positive
}.

Lemma registered_inj sel s a b n : registered sel s →
  lf_nodes (lf s) !! a = Some n → lf_nodes (lf s) !! b = Some n → a = b.
Proof.
  intros R Ha Hb. destruct (re_obj _ _ R a n Ha) as (x & Hx & <-).
  destruct (re_obj _ _ R b n Hb) as (y & Hy & <-). congruence.
Qed.

Context (loops : list Ptr) (Ok_sel : selection_ok ir ls loops h doms).
Local Abbreviation contains := (contains ls loops).
Local Abbreviation within := (within ls loops).
Local Abbreviation immediate := (immediate ls loops).

(** ** The walk between two headers *)

Lemma header_node l k f : contains l k ∨ l = k → k ∈ loops → doms !! getFunction ir (ls l) = Some f →
  ∃ hl hk, df_bbNodeMap f !! Some (ls_header (ls l)) = Some hl ∧
    df_bbNodeMap f !! Some (ls_header (ls k)) = Some hk ∧ dom_above h f hl hk ∧ dom_wf h f.
Proof.
  intros Hor Hk Hf. assert (l ∈ loops ∧ ls_header (ls k) ∈ ls_bbs (ls l)) as [Hl Hin].
  { destruct Hor as [(?&?&?&?)| ->]; [done|]. split; [done|by apply (so_header _ _ _ _ _ Ok_sel)]. }
  destruct (so_headed _ _ _ _ _ Ok_sel l Hl) as (f' & Hf' & W & Hb). simplify_eq.
  destruct (Hb _ Hin) as (hl & hk & ? & ? & ?). eauto 10.
Qed.

Lemma same_node f a b n : dom_wf h f → df_bbNodeMap f !! Some a = Some n →
  df_bbNodeMap f !! Some b = Some n → a = b.
Proof. intros W Ha Hb. apply (dw_map _ _ W) in Ha as [_ Ha], Hb as [_ Hb]. congruence. Qed.

Lemma loopInBetween_spec l k f s : contains l k → registered loops s →
  doms !! getFunction ir (ls l) = Some f →
  wp (loopInBetween ls h f (ls_header (ls l)) (ls_header (ls k)))
     (λ r s', s' = s ∧ (r = true ↔ ∃ m, contains l m ∧ contains m k)) s.
Proof.
  intros C R Hf. pose proof C as (Hl & Hk & Hne & Hin).
  destruct (header_node l k f (or_introl C) Hk Hf) as (hl & hk & Hhl & Hhk & Hab & W).
  pose proof (dw_forest h f W) as F.
  assert (hl ≠ hk) as Hlk.
  { intros ->. apply Hne, (so_headers _ _ _ _ _ Ok_sel); [done..|]. by eapply (same_node f). }
  destruct (node_in h f W _ hl Hhl) as [Hhl_in _]. destruct (node_in h f W _ hk Hhk) as [Hhk_in HBk].
  unfold loopInBetween. apply wp_bind, wp_get. rewrite Hhl, Hhk. apply wp_bind, wp_massert.
  split; [by apply bool_decide_eq_true_2; intros [= ?]|]. apply wp_bind, wp_ret.
  destruct (dw_live h f W hk Hhk_in) as [xk Hxk]. rewrite Hxk. apply wp_bind, wp_ret.
  assert (∀ n, n ≠ hl → dom_above h f hl n → n ∈ df_nodes f →
    ∃ p, par_of h n = Some p ∧ p ∈ df_nodes f ∧ dom_above h f hl p) as Hup.
  { intros n Hn Ha Hnin. apply (above_parent _ _ _ _ F) in Ha as [->|(p & _ & Hp & Ha)]; [done|].
    exists p. split; [done|]. split; [|done]. by apply (fo_par _ _ _ _ F n p). }
  assert (∀ m, contains l m → ∃ hm, df_bbNodeMap f !! Some (ls_header (ls m)) = Some hm ∧
    dom_above h f hl hm ∧ (contains m k → dom_above h f hm hk)) as Hmid.
  { intros m Cm. destruct (header_node l m f (or_introl Cm)) as (hl' & hm & Hl' & Hm & Ham & _); [apply Cm|done|].
    exists hm. simplify_eq. split; [done|]. split; [done|]. intros Cmk.
    destruct (header_node m k f (or_introl Cmk) Hk) as (hm' & hk' & ? & ? & ? & _); [|by simplify_eq].
    by rewrite (contains_function _ _ _ _ _ Ok_sel l m Cm). }
  assert (dn_parent xk = par_of h hk) as -> by (unfold par_of; by rewrite Hxk).
  destruct (while_spec (inBetweenStep ls h (lf_headerLoops (lf s)) (tree_objs s) (ls_header (ls k)) (Some hl))
    (λ c, ∃ n, c = Some n ∧ n ∈ df_nodes f ∧ dom_above h f hl n ∧ dom_above h f n hk ∧ n ≠ hk ∧
       ∀ m, contains l m → contains m k → ∀ hm, df_bbNodeMap f !! Some (ls_header (ls m)) = Some hm →
         dom_above h f hm n)
    (climb_measure h f) (λ r, r = true ↔ ∃ m, contains l m ∧ contains m k)
    (S (S (size (df_nodes f)))) (par_of h hk)) as (r & Hr & Hrr).
  - destruct (Hup hk) as (p & Hp & Hpin & Ha); [done..|]. exists p.
    destruct (weight_parent h f W hk p Hhk_in Hp) as (_ & _ & _ & Habv).
    assert (p ≠ hk) as Hpk.
    { intros ->. apply (fo_par _ _ _ _ F) in Hp; [lia|done]. }
    split_and!; [done..| |done|].
    + apply Habv. right. apply rtc_refl.
    + intros m C1 C2 hm Hm. destruct (Hmid m C1) as (hm' & Hm' & _ & Hk'). simplify_eq.
      apply Habv in Hk' as [->|?]; [|done..]. exfalso.
      apply (contains_irrefl ls loops m). assert (m = k) as ->; [|done].
      apply (so_headers _ _ _ _ _ Ok_sel); [apply C2|done|]. by eapply (same_node f).
  - intros c (n & -> & Hn & Hln & Hnk & Hnek & Hall). unfold inBetweenStep. case_decide as Hd.
    { right. eexists. split; [done|]. split; [done|]. intros (m & C1 & C2). exfalso.
      injection Hd as <-. destruct (Hmid m C1) as (hm & Hm & Hlm & _).
      pose proof (above_antisym _ _ _ _ F _ _ Hlm (Hall m C1 C2 hm Hm)) as <-.
      apply (contains_irrefl ls loops m). assert (l = m) as <-; [|done].
      apply (so_headers _ _ _ _ _ Ok_sel); [done|apply C1|]. by eapply (same_node f). }
    destruct (dw_live h f W n Hn) as [x Hx]. cbn [mbind option_bind]. rewrite Hx.
    assert (n ≠ hl) as Hnl by (intros ->; done).
    destruct (Hup n Hnl Hln Hn) as (p & Hp & Hpin & Hlp).
    assert (dn_parent x = Some p) as -> by (unfold par_of in Hp; by rewrite Hx in Hp).
    destruct (weight_parent h f W n p Hn Hp) as (_ & _ & _ & Habv).
    assert (Some p = par_of h n) as Epar by done.
    assert ((∀ m, contains l m → contains m k → df_bbNodeMap f !! Some (ls_header (ls m)) ≠ Some n) →
      ∃ n', Some p = Some n' ∧ n' ∈ df_nodes f ∧ dom_above h f hl n' ∧ dom_above h f n' hk ∧ n' ≠ hk ∧
       ∀ m, contains l m → contains m k → ∀ hm, df_bbNodeMap f !! Some (ls_header (ls m)) = Some hm →
         dom_above h f hm n') as Hnext.
    { intros Hno. exists p. split_and!; [done..| | |].
      - transitivity n; [|done]. apply Habv. right. apply rtc_refl.
      - intros ->. assert (n = hk) as ->; [|done]. apply (above_antisym _ _ _ _ F); [done|].
        apply Habv. right. apply rtc_refl.
      - intros m C1 C2 hm Hm. specialize (Hall m C1 C2 hm Hm).
        apply Habv in Hall as [->|?]; [by destruct (Hno m C1 C2)|done]. }
    assert (climb_measure h f (Some p) < climb_measure h f (Some n)) as Hdec.
    { rewrite Epar. by apply (climb_parent h f W). }
    assert (∀ m, df_bbNodeMap f !! Some (ls_header (ls m)) = Some n → dn_B x = Some (ls_header (ls m))) as HB.
    { intros m Hm. apply (dw_map h f W) in Hm as [_ Hm]. unfold block_of in Hm. by rewrite Hx in Hm. }
    destruct (dn_B x ≫= _) as [q|] eqn:Hq.
    2:{ left. eexists. split; [done|]. split; [|done]. apply Hnext. intros m C1 C2 Hm.
        rewrite (HB m Hm) in Hq. simpl in Hq.
        destruct (proj1 (re_node _ _ R m)) as [nm Hnm]; [apply C2|].
        rewrite (proj2 (re_header _ _ R (ls_header (ls m)) nm)) in Hq; [done|]. eauto. }
    apply bind_Some in Hq as (bb & Hbb & Hq). apply (re_header _ _ R) in Hq as (m & Hm & Hmb).
    destruct (re_obj _ _ R m q Hm) as (t & Ht & Htl). rewrite Ht, Htl. unfold isIncludedBB.
    assert (m ∈ loops) as Hml by (apply (re_node _ _ R); eauto).
    assert (df_bbNodeMap f !! Some (ls_header (ls m)) = Some n) as Hmn.
    { apply (dw_map h f W). split; [done|]. unfold block_of. rewrite Hx. simpl. by rewrite Hmb. }
    case_bool_decide as Hincl.
    + right. eexists. split; [done|]. split; [|done]. intros _. exists m.
      assert (contains m k) as Cmk.
      { split_and!; [done..| |done]. intros ->. apply Hnek. congruence. }
      split; [|done]. destruct (contains_comparable _ _ _ _ _ Ok_sel l m k C Cmk) as [->|[?|Cml]]; [|done|].
      * exfalso. apply Hnl. congruence.
      * exfalso. apply Hnl. apply (above_antisym _ _ _ _ F); [|done].
        destruct (header_node m l f (or_introl Cml) Hl) as (hm' & hl' & ? & ? & ? & _); [|by simplify_eq].
        by rewrite <- (contains_function _ _ _ _ _ Ok_sel m l Cml).
    + left. eexists. split; [done|]. split; [|done]. apply Hnext. intros m' C1 C2 Hm'.
      assert (m' = m) as ->; [|by apply Hincl, C2].
      apply (so_headers _ _ _ _ _ Ok_sel); [apply C2|done|]. apply HB in Hm'. congruence.
  - destruct (Hup hk) as (p & Hp & Hpin & _); [done..|]. rewrite Hp. by apply climb_fuel.
  - rewrite Hr. by apply wp_ret.
Qed.

(** ** Attaching *)

(** the links of the tree objects are the pairs of [Att] *)
Record attached (Att : Ptr → Ptr → Prop) (s : LFSt) : Prop := {
  at_reg : registered loops s;
  at_imm p c : Att p c → immediate p c;
  at_links l n x : lf_nodes (lf s) !! l = Some n → tree_objs s !! n = Some x →
    (∀ q, q ∈ t_children x ↔ ∃ c, Att l c ∧ lf_nodes (lf s) !! c = Some q) ∧
    (∀ q, t_parent x = Some q ↔ ∃ p, Att p l ∧ lf_nodes (lf s) !! p = Some q)
}.

Lemma attached_iff Att Att' s : (∀ p c, Att p c ↔ Att' p c) → attached Att s → attached Att' s.
Proof.
  intros E [R I L]. split; [done| |].
  - intros p c Hpc. apply I. by apply E.
  - intros l n x Hl Hx. destruct (L l n x Hl Hx) as [Lc Lp]. split; intros q.
    + rewrite Lc. by setoid_rewrite E.
    + rewrite Lp. by setoid_rewrite E.
Qed.

Lemma wp_update_tree n f x Q s : tree_objs s !! n = Some x →
  Q tt (mkLFSt (<[n := f x]> (tree_objs s)) (tree_next s) (lf s)) → wp (update_tree n f) Q s.
Proof.
  intros Hx HQ. unfold update_tree. apply wp_bind. unfold wp at 1, load_tree. rewrite Hx.
  simpl. by apply wp_modify.
Qed.

(** changing links keeps the registration *)
Lemma registered_update sel s n x y : registered sel s → tree_objs s !! n = Some x → t_loop y = t_loop x →
  registered sel (mkLFSt (<[n := y]> (tree_objs s)) (tree_next s) (lf s)).
Proof.
  intros [R1 R2 R3 R4 R5] Hx Hy. split; simpl; try done.
  - intros l k Hl. destruct (R2 l k Hl) as (z & Hz & Hzl). destruct (decide (k = n)) as [->|Hne].
    + rewrite lookup_insert_eq. eexists. split; [done|]. congruence.
    + rewrite lookup_insert_ne by done. eauto.
  - intros q [<-|[_ Hq]]%lookup_insert_is_Some; apply R5; eauto.
Qed.

Lemma attach_spec Att l c root k s :
  attached Att s → immediate l c → lf_nodes (lf s) !! l = Some root → lf_nodes (lf s) !! c = Some k →
  wp (update_tree root (λ x, set_children ({[k]} ∪ t_children x) x) ;;;
      update_tree k (set_parent (Some root)))
     (λ _ s', attached (λ p d, Att p d ∨ (p = l ∧ d = c)) s' ∧ lf s' = lf s) s.
Proof.
  intros A Him Hl Hc. pose proof (at_reg _ _ A) as R.
  assert (l ≠ c) as Hne by (intros ->; by apply (contains_irrefl ls loops c), Him).
  assert (root ≠ k) as Hrk by (intros ->; by apply Hne, (registered_inj loops s l c k)).
  destruct (re_obj _ _ R l root Hl) as (xr & Hxr & Hrl).
  destruct (re_obj _ _ R c k Hc) as (xk & Hxk & Hkl).
  apply wp_bind, (wp_update_tree root _ xr); [done|].
  apply (wp_update_tree k _ xk); [simpl; by rewrite lookup_insert_ne|]. simpl. split; [|done].
  assert (∀ p, Att p c ∨ (p = l ∧ c = c) → p = l) as Huniq.
  { intros p [Hp|[-> _]]; [|done]. apply (immediate_unique _ _ _ _ _ Ok_sel p l c); [|done].
    by apply (at_imm _ _ A). }
  split; simpl.
  - pose proof (registered_update loops s root xr (set_children ({[k]} ∪ t_children xr) xr) R Hxr eq_refl) as R1.
    refine (registered_update loops _ k xk (set_parent (Some root) xk) R1 _ eq_refl).
    simpl. by rewrite lookup_insert_ne.
  - intros p d [Hpd|[-> ->]]; [by apply (at_imm _ _ A)|done].
  - intros m n x Hm. rewrite !lookup_insert_Some.
    intros [[<- <-]|[Hn1 [[<- <-]|[Hn2 Hx]]]]; simpl.
    + assert (m = c) as -> by (by eapply registered_inj).
      destruct (at_links _ _ A c k xk Hc Hxk) as [Lc _]. split; intros q.
      * rewrite Lc. split; intros (d & Hd & Hq); exists d; (split; [|done]); naive_solver.
      * split; [intros [= <-]; exists l; auto|]. intros (p & Hp%Huniq & Hq). congruence.
    + assert (m = l) as -> by (by eapply registered_inj).
      destruct (at_links _ _ A l root xr Hl Hxr) as [Lc Lp]. split; intros q.
      * rewrite elem_of_union, elem_of_singleton, Lc. split.
        -- intros [->|(d & Hd & Hq)]; [exists c; auto|exists d; auto].
        -- intros (d & [Hd|[_ ->]] & Hq); [right; eauto|left; congruence].
      * rewrite Lp. split; intros (p & Hp & Hq); exists p; (split; [|done]); naive_solver.
    + assert (m ≠ l) by congruence. assert (m ≠ c) by congruence.
      destruct (at_links _ _ A m n x Hm Hx) as [Lc Lp]. split; intros q; [rewrite Lc|rewrite Lp];
        split; intros (p & Hp & Hq); exists p; (split; [|done]); naive_solver.
Qed.

(** the pairs that the sub-trees of the loops of [pre], children of [l], add *)
Definition grown (l : Ptr) (pre : list Ptr) (p c : Ptr) : Prop :=
  ∃ k, k ∈ pre ∧ immediate l k ∧ ((p = l ∧ c = k) ∨ (immediate p c ∧ within k p)).
Definition grown_nodes (l : Ptr) (pre : list Ptr) (nodes : gmap Ptr Ptr) (q : Ptr) : Prop :=
  ∃ k c, k ∈ pre ∧ immediate l k ∧ within k c ∧ nodes !! c = Some q.

Lemma grown_skip l pre k p c : ¬ immediate l k → grown l (pre ++ [k]) p c ↔ grown l pre p c.
Proof.
  intros Hk. unfold grown. setoid_rewrite elem_of_snoc. split; intros (j & Hj & Hi & H); exists j;
    (split; [|done]); [|by left]. destruct Hj as [?| ->]; [done|by destruct Hk].
Qed.
Lemma grown_nodes_skip l pre nodes k q :
  ¬ immediate l k → grown_nodes l (pre ++ [k]) nodes q ↔ grown_nodes l pre nodes q.
Proof.
  intros Hk. unfold grown_nodes. setoid_rewrite elem_of_snoc. split; intros (j & c & Hj & Hi & H); exists j, c;
    (split; [|done]); [|by left]. destruct Hj as [?| ->]; [done|by destruct Hk].
Qed.

Lemma grown_all l pre p c : (∀ k, contains l k → k ∈ pre) →
  grown l pre p c ↔ immediate p c ∧ within l p.
Proof.
  intros Hall. split.
  - intros (k & Hk & Hi & [[-> ->]|[Hpc Hkp]]); [split; [done|by left]|]. split; [done|]. right.
    destruct Hkp as [->|Hkp]; [apply Hi|]. by apply (contains_trans _ _ _ _ _ Ok_sel l k p); [apply Hi|].
  - intros [Hpc [->|Hlp]].
    + exists c. split; [apply Hall, Hpc|]. split; [done|by left].
    + destruct (immediate_inside _ _ _ _ _ Ok_sel l p Hlp) as (k & Hk & Hkp).
      exists k. split; [apply Hall, Hk|]. split; [done|by right].
Qed.

Lemma grown_nodes_all l pre nodes q : (∀ k, contains l k → k ∈ pre) →
  grown_nodes l pre nodes q ↔ ∃ c, contains l c ∧ nodes !! c = Some q.
Proof.
  intros Hall. split.
  - intros (k & c & Hk & Hi & Hkc & Hq). exists c. split; [|done].
    destruct Hkc as [->|Hkc]; [apply Hi|]. by apply (contains_trans _ _ _ _ _ Ok_sel l k c); [apply Hi|].
  - intros (c & Hc & Hq). destruct (immediate_inside _ _ _ _ _ Ok_sel l c Hc) as (k & Hk & Hkc).
    exists k, c. split; [apply Hall, Hk|done].
Qed.

(** what filling the tree of [l] does *)
Definition fills (l : Ptr) (Att : Ptr → Ptr → Prop) (pot pot' : gset Ptr) (s s' : LFSt) : Prop :=
  attached (λ p c, Att p c ∨ (immediate p c ∧ within l p)) s' ∧ lf s' = lf s ∧
  ∀ q, q ∈ pot' ↔ q ∈ pot ∧ ¬ ∃ c, contains l c ∧ lf_nodes (lf s) !! c = Some q.

Lemma addOneChild_spec rec f root l s0 s Att (pot0 pot : gset Ptr) pre k :
  (∀ c n Att pot s, immediate l c → lf_nodes (lf s) !! c = Some n → attached Att s →
     wp (rec n pot) (λ pot' s', fills c Att pot pot' s s') s) →
  l ∈ loops → k ∈ loops → doms !! getFunction ir (ls l) = Some f →
  attached (λ p c, Att p c ∨ grown l pre p c) s → lf s = s0 → lf_nodes s0 !! l = Some root →
  (∀ q, q ∈ pot ↔ q ∈ pot0 ∧ ¬ grown_nodes l pre (lf_nodes s0) q) →
  wp (addOneChild ls rec h f root l pot k) (λ (pot' : gset Ptr) s',
    attached (λ p c, Att p c ∨ grown l (pre ++ [k]) p c) s' ∧ lf s' = s0 ∧
    (∀ q, q ∈ pot' ↔ q ∈ pot0 ∧ ¬ grown_nodes l (pre ++ [k]) (lf_nodes s0) q)) s.
Proof.
  intros Hrec Hl Hk Hf A Hs Hroot Hpot. pose proof (at_reg _ _ A) as R.
  assert (¬ immediate l k → wp (ret pot) (λ (pot' : gset Ptr) s',
    attached (λ p c, Att p c ∨ grown l (pre ++ [k]) p c) s' ∧ lf s' = s0 ∧
    (∀ q, q ∈ pot' ↔ q ∈ pot0 ∧ ¬ grown_nodes l (pre ++ [k]) (lf_nodes s0) q)) s) as Hskip.
  { intros Hno. apply wp_ret. split; [|split; [done|]].
    - revert A. apply attached_iff. intros p c. by rewrite grown_skip.
    - intros q. by rewrite Hpot, grown_nodes_skip. }
  unfold addOneChild, getHeader. case_decide as Heq.
  { apply Hskip. intros [(_ & _ & Hne & _) _]. apply Hne. by apply (so_headers _ _ _ _ _ Ok_sel). }
  unfold isIncludedBB. case_bool_decide as Hin; [|apply Hskip; by intros [(_ & _ & _ & ?) _]].
  assert (contains l k) as C by (split_and!; [done..| |done]; by intros ->).
  apply wp_bind. eapply wp_mono; [by apply (loopInBetween_spec l k f s)|].
  intros r s' [-> Hr]. destruct r.
  { apply Hskip. intros [_ Hno]. destruct (proj1 Hr eq_refl) as (m & C1 & C2). by destruct (Hno m C1). }
  assert (immediate l k) as Him.
  { split; [done|]. intros m C1 C2. assert (false = true) as Habs; [|discriminate Habs]. apply Hr. by exists m. }
  destruct (proj1 (re_node _ _ R k) Hk) as [c Hc]. rewrite Hs in Hc.
  apply wp_bind, wp_get. rewrite Hs, Hc. apply wp_bind, wp_massert. split; [done|].
  apply wp_bind, wp_ret. rewrite <- Hs in Hroot, Hc.
  apply wp_bind. pose proof (attach_spec _ l k root c s A Him Hroot Hc) as Hwp.
  apply wp_bind in Hwp. eapply wp_mono; [exact Hwp|]. intros [] s1 Hwp1. apply wp_bind.
  eapply wp_mono; [exact Hwp1|]. intros [] s2 [A2 Hs2].
  eapply wp_mono; [apply (Hrec k c); [done|by rewrite Hs2|exact A2]|].
  intros pot' s3 (A3 & Hs3 & Hpot'). rewrite Hs2, Hs in *. split; [|split; [done|]].
  - revert A3. apply attached_iff. intros p d. unfold grown. setoid_rewrite elem_of_snoc. split.
    + intros [[[?|(j & ? & ? & ?)]|[-> ->]]|[? ?]]; [by left|right; exists j; tauto|right; exists k; tauto|].
      right. exists k. tauto.
    + intros [?|(j & [?| ->] & ? & [[-> ->]|[? ?]])]; try tauto; left; left; right; exists j; tauto.
  - intros q. rewrite Hpot', elem_of_difference, elem_of_singleton, Hpot.
    assert (grown_nodes l (pre ++ [k]) (lf_nodes s0) q ↔ grown_nodes l pre (lf_nodes s0) q ∨
      (∃ d, within k d ∧ lf_nodes s0 !! d = Some q)) as ->.
    { unfold grown_nodes. setoid_rewrite elem_of_snoc. split.
      - intros (j & d & [?| ->] & ? & ? & ?); [left|right]; eauto 10.
      - intros [(j & d & ? & ?)|(d & ? & ?)]; [exists j, d|exists k, d]; tauto. }
    assert ((∃ d, within k d ∧ lf_nodes s0 !! d = Some q) ↔
      q = c ∨ ∃ d, contains k d ∧ lf_nodes s0 !! d = Some q) as ->; [|tauto].
    split.
    + intros (d & [<-|Hd] & Hq); [left; congruence|right; eauto].
    + intros [->|(d & Hd & Hq)]; [exists k; split; [by left|done]|exists d; split; [by right|done]].
Qed.

Lemma addChildrenToTree_spec fuel l root Att pot s :
  l ∈ loops → lf_nodes (lf s) !! l = Some root → attached Att s →
  size (inside ls loops l) < fuel →
  wp (addChildrenToTree ir ls fuel h doms root pot) (λ pot' s', fills l Att pot pot' s s') s.
Proof.
  revert l root Att pot s. induction fuel as [|fuel IH]; intros l root Att pot s Hl Hroot A Hf; [lia|].
  pose proof (at_reg _ _ A) as R. destruct (re_obj _ _ R l root Hroot) as (x & Hx & Hxl).
  destruct (so_headed _ _ _ _ _ Ok_sel l Hl) as (f & Hdf & _).
  cbn [addChildrenToTree]. apply wp_bind. unfold wp at 1, load_tree. rewrite Hx. simpl.
  rewrite Hxl, Hdf. apply wp_bind, wp_get.
  set (fl := visit (default ∅ (lf_functionLoops (lf s) !! getFunction ir (ls l)))).
  assert (∀ k, k ∈ fl ↔ k ∈ loops ∧ getFunction ir (ls k) = getFunction ir (ls l)) as Hfl.
  { intros k. unfold fl. rewrite elem_of_visit. apply (re_function _ _ R). }
  assert (∀ k, contains l k → k ∈ fl) as Hcov.
  { intros k C. apply Hfl. split; [apply C|]. by apply (contains_function _ _ _ _ _ Ok_sel). }
  eapply wp_mono; [apply (wp_foldM _ (λ pre _ (pot' : gset Ptr) s',
    attached (λ p c, Att p c ∨ grown l pre p c) s' ∧ lf s' = lf s ∧
    (∀ q, q ∈ pot' ↔ q ∈ pot ∧ ¬ grown_nodes l pre (lf_nodes (lf s)) q)))|].
  - split; [|split; [done|]].
    + revert A. apply attached_iff. intros p c. split; [by left|]. intros [?|(k & Hk & _)]; [done|].
      by apply elem_of_nil in Hk.
    + intros q. split; [|tauto]. intros Hq. split; [done|]. intros (k & c & Hk & _). by apply elem_of_nil in Hk.
  - intros pre k post pot' s' Hsplit (A' & Hs' & Hpot').
    apply (addOneChild_spec _ f root l (lf s) s' Att pot); try done.
    + intros c n Att' pot1 s1 Him Hn A1. apply IH; [apply Him|done..|].
      pose proof (inside_shrinks _ _ _ _ _ Ok_sel l c (proj1 Him)) as Hsub.
      apply subset_size in Hsub. lia.
    + apply Hfl. rewrite Hsplit. set_solver.
  - intros pot' s' (A' & Hs' & Hpot'). split; [|split; [done|]].
    + revert A'. apply attached_iff. intros p c. by rewrite (grown_all l fl p c Hcov).
    + intros q. by rewrite Hpot', grown_nodes_all.
Qed.

(** ** The constructor *)

(** after the allocation of the nodes of [sel], no two of which share a header *)
Record allocated (sel : list Ptr) (pot : gset Ptr) (s : LFSt) : Prop := {
  al_reg : registered sel s;
  al_obj l n : lf_nodes (lf s) !! l = Some n → tree_objs s !! n = Some (mkLoopTree l None ∅);
  al_trees n : n ∈ lf_trees (lf s) ↔ ∃ l, lf_nodes (lf s) !! l = Some n ∧ ls_depth (ls l) = 1%Z;
  al_pot n : n ∈ pot ↔ ∃ l, lf_nodes (lf s) !! l = Some n ∧ ls_depth (ls l) ≠ 1%Z
}.

Lemma registered_alloc pre l s f' : registered pre s → l ∉ pre →
  (∀ k, k ∈ pre → ls_header (ls k) ≠ ls_header (ls l)) →
  lf_nodes f' = <[l := tree_next s]> (lf_nodes (lf s)) →
  lf_headerLoops f' = <[ls_header (ls l) := tree_next s]> (lf_headerLoops (lf s)) →
  lf_functionLoops f' = <[getFunction ir (ls l) :=
    {[l]} ∪ default ∅ (lf_functionLoops (lf s) !! getFunction ir (ls l))]> (lf_functionLoops (lf s)) →
  registered (pre ++ [l])
    (mkLFSt (<[tree_next s := mkLoopTree l None ∅]> (tree_objs s)) (Pos.succ (tree_next s)) f').
Proof.
  intros [R1 R2 R3 R4 R5] Hl Hh E1 E2 E3.
  assert (lf_nodes (lf s) !! l = None) as Hnl by (apply eq_None_not_Some; by rewrite <- R1).
  assert (∀ k n, lf_nodes (lf s) !! k = Some n → (n < tree_next s)%positive) as Hlt.
  { intros k n Hk. destruct (R2 k n Hk) as (x & Hx & _). eauto. }
  split; simpl; rewrite ?E1, ?E2, ?E3.
  - intros k. rewrite elem_of_snoc, R1, lookup_insert_is_Some. destruct (decide (l = k)); naive_solver.
  - intros k n. rewrite lookup_insert_Some. intros [[<- <-]|[Hk Hn]].
    + rewrite lookup_insert_eq. eauto.
    + rewrite lookup_insert_ne; [by apply R2|]. apply Hlt in Hn. lia.
  - intros bb n. rewrite lookup_insert_Some, R3. setoid_rewrite lookup_insert_Some. split.
    + intros [[<- <-]|(Hb & k & Hk & <-)]; [exists l; auto|]. exists k. split; [right|done].
      split; [congruence|done].
    + intros (k & [[<- <-]|[Hk Hn]] & <-); [by left|right]. split; [|by exists k].
      apply not_eq_sym, Hh, R1. eauto.
  - intros fn k. rewrite elem_of_snoc. destruct (decide (getFunction ir (ls l) = fn)) as [<-|Hfn].
    + rewrite lookup_insert_eq. simpl. rewrite elem_of_union, elem_of_singleton, R4. naive_solver.
    + rewrite lookup_insert_ne, R4 by done. split; [tauto|]. intros [[?| ->] ?]; [done|congruence].
  - intros q [<-|[_ Hq%R5]]%lookup_insert_is_Some; lia.
Qed.

Lemma allocateNode_spec pre pot s l : allocated pre pot s → l ∉ pre →
  (∀ k, k ∈ pre → ls_header (ls k) ≠ ls_header (ls l)) →
  wp (allocateNode ir ls pot l) (λ pot' s', allocated (pre ++ [l]) pot' s') s.
Proof.
  intros [R Ho Ht Hp] Hl Hh. unfold allocateNode. apply wp_bind. unfold wp at 1, LoopTree_new.
  apply wp_bind, wp_modify. simpl. set (n := tree_next s).
  assert (∀ k q, lf_nodes (lf s) !! k = Some q → q ≠ n) as Hne.
  { intros k q Hk ->. destruct (re_obj _ _ R k n Hk) as (x & Hx & _).
    assert (n < n)%positive; [|lia]. apply (re_next _ _ R). eauto. }
  assert (lf_nodes (lf s) !! l = None) as Hnl.
  { apply eq_None_not_Some. by rewrite <- (re_node _ _ R). }
  assert (∀ Q : Ptr → Prop, ∀ q, (∃ k, <[l := n]> (lf_nodes (lf s)) !! k = Some q ∧ Q k) ↔
    (q = n ∧ Q l) ∨ ∃ k, lf_nodes (lf s) !! k = Some q ∧ Q k) as Hex.
  { intros Q q. setoid_rewrite lookup_insert_Some. split.
    - intros (k & [[<- <-]|[_ Hk]] & HQ); [by left|right; eauto].
    - intros [[-> HQ]|(k & Hk & HQ)]; [exists l; auto|]. exists k. split; [right|done]. split; [congruence|done]. }
  assert (∀ f', lf_nodes f' = <[l := n]> (lf_nodes (lf s)) →
    ∀ k q, lf_nodes f' !! k = Some q → <[n := mkLoopTree l None ∅]> (tree_objs s) !! q = Some (mkLoopTree k None ∅)) as Hobj.
  { intros f' -> k q. rewrite lookup_insert_Some. intros [[<- <-]|[_ Hk]]; [by rewrite lookup_insert_eq|].
    rewrite lookup_insert_ne by (apply not_eq_sym; by eapply Hne). by apply Ho. }
  unfold getNestingLevel. case_decide as Hd.
  - apply wp_bind, wp_modify, wp_ret. simpl. split; simpl.
    + by apply registered_alloc.
    + by eapply (Hobj (mkLoopForest _ ∅ ∅ ∅)).
    + intros q. rewrite elem_of_union, elem_of_singleton, Ht, (Hex (λ k, ls_depth (ls k) = 1%Z)). tauto.
    + intros q. rewrite Hp, (Hex (λ k, ls_depth (ls k) ≠ 1%Z)). tauto.
  - apply wp_ret. split; simpl.
    + by apply registered_alloc.
    + by eapply (Hobj (mkLoopForest _ ∅ ∅ ∅)).
    + intros q. rewrite Ht, (Hex (λ k, ls_depth (ls k) = 1%Z)). tauto.
    + intros q. rewrite elem_of_union, elem_of_singleton, Hp, (Hex (λ k, ls_depth (ls k) ≠ 1%Z)). tauto.
Qed.

(** the loops that an outermost selected loop contains *)
Definition rooted (p : Ptr) : Prop := ∃ t, t ∈ loops ∧ ls_depth (ls t) = 1%Z ∧ within t p.
Definition nested (p c : Ptr) : Prop := immediate p c ∧ rooted p.

Lemma outermost_not_contained p t : ls_depth (ls t) = 1%Z → ¬ contains p t.
Proof.
  intros Ht C. pose proof (contains_depth _ _ _ _ _ Ok_sel p t C).
  pose proof (so_outermost _ _ _ _ _ Ok_sel p (proj1 C)). lia.
Qed.

Lemma LoopForest_new_run s : (∀ q, is_Some (tree_objs s !! q) → (q < tree_next s)%positive) →
  wp (LoopForest_new ir ls loops h doms) (λ _ s', attached nested s' ∧
    ∀ n, n ∈ lf_trees (lf s') ↔ ∃ l, lf_nodes (lf s') !! l = Some n ∧ ¬ ∃ p, nested p l) s.
Proof.
  intros Hs. unfold LoopForest_new. apply wp_bind, wp_modify. apply wp_bind.
  eapply wp_mono; [apply (wp_foldM _ (λ pre _ pot s', allocated pre pot s'))|].
  - split; simpl; try done.
    + split; simpl; try done.
      * intros l. split; [by intros ?%elem_of_nil|by intros []].
      * intros bb n. split; [done|]. by intros (l & ? & _).
      * intros fn k. rewrite lookup_empty. simpl. split; [by intros ?%elem_of_empty|by intros [?%elem_of_nil _]].
    + intros n. split; [by intros ?%elem_of_empty|by intros (l & ? & _)].
    + intros n. split; [by intros ?%elem_of_empty|by intros (l & ? & _)].
  - intros pre l post pot s1 Hl A. pose proof (so_nodup _ _ _ _ _ Ok_sel) as Hnd.
    assert (l ∈ loops ∧ ∀ k, k ∈ pre → k ∈ loops) as [Hll Hpl] by (rewrite Hl; set_solver).
    assert (l ∉ pre) as Hlp.
    { rewrite Hl in Hnd. apply NoDup_app in Hnd as (_ & Hnd & _). intros Hin. apply (Hnd l Hin). by left. }
    apply allocateNode_spec; [done..|]. intros k Hk Heq. apply Hlp.
    rewrite <- (so_headers _ _ _ _ _ Ok_sel k l (Hpl k Hk) Hll Heq). done.
  - intros pot s1 [R Ho Ht Hp]. apply wp_bind, wp_get, wp_bind.
    eapply wp_mono; [apply (wp_foldM _ (λ pre _ (pot' : gset Ptr) s',
      attached (λ p c, immediate p c ∧ ∃ t n, n ∈ pre ∧ lf_nodes (lf s1) !! t = Some n ∧ within t p) s' ∧
      lf s' = lf s1 ∧ ∀ q, q ∈ pot' ↔ q ∈ pot ∧
        ¬ ∃ t n c, n ∈ pre ∧ lf_nodes (lf s1) !! t = Some n ∧ contains t c ∧ lf_nodes (lf s1) !! c = Some q))|].
    + split; [|split; [done|]].
      * split; [done|by intros p c [? _]|]. intros l n x Hl Hx. rewrite (Ho l n Hl) in Hx.
        injection Hx as <-. simpl. split; intros q; (split; [done|]).
        -- intros (c & (_ & t & n' & Hn' & _) & _). by apply elem_of_nil in Hn'.
        -- intros (c & (_ & t & n' & Hn' & _) & _). by apply elem_of_nil in Hn'.
      * intros q. split; [|tauto]. intros Hq. split; [done|]. intros (t & n & c & Hn & _). by apply elem_of_nil in Hn.
    + intros pre n post pot' s' Hl (A & Hs' & Hpot').
      assert (n ∈ lf_trees (lf s1)) as Hn by (apply elem_of_visit; rewrite Hl; set_solver).
      apply Ht in Hn as (t & Htn & Htd). assert (t ∈ loops) as Htl by (apply (re_node _ _ R); eauto).
      eapply wp_mono; [eapply (addChildrenToTree_spec _ t n _ pot' s' Htl); [by rewrite Hs'|exact A|]|].
      * unfold inside. pose proof (size_list_to_set_le (filter (contains t) loops)).
        pose proof (length_filter (contains t) loops). lia.
      * intros pot2 s2 (A2 & Hs2 & Hpot2). rewrite Hs2, Hs'. split; [|split; [done|]].
        -- revert A2. apply attached_iff. intros p c. setoid_rewrite elem_of_snoc. split.
           ++ intros [[? (t' & n' & ? & ? & ?)]|[? ?]]; (split; [done|]); [exists t', n'|exists t, n]; tauto.
           ++ intros [? (t' & n' & [?| ->] & Ht' & ?)]; [left; split; [done|]; eauto|right].
              by rewrite (registered_inj loops s1 t t' n).
        -- intros q. rewrite Hpot2, Hs', Hpot'. setoid_rewrite elem_of_snoc. split.
           ++ intros [[? Hno] Hno']. split; [done|]. intros (t' & n' & c & [?| ->] & Ht' & ? & ?); [by destruct Hno; eauto 10|].
              apply Hno'. exists c. by rewrite (registered_inj loops s1 t t' n).
           ++ intros [? Hno]. split; [split; [done|]|].
              ** intros (t' & n' & c & ? & ? & ? & ?). apply Hno. exists t', n', c. tauto.
              ** intros (c & ? & ?). apply Hno. exists t, n, c. tauto.
    + intros pot' s2 (A & Hs2 & Hpot').
      assert (∀ p, (∃ t n, n ∈ visit (lf_trees (lf s1)) ∧ lf_nodes (lf s1) !! t = Some n ∧ within t p) ↔ rooted p) as Hroot.
      { intros p. split.
        - intros (t & n & Hn%elem_of_visit & Htn & Hw). apply Ht in Hn as (t' & Ht' & Hd).
          rewrite (registered_inj loops s1 t t' n R Htn Ht') in *. exists t'. split; [apply (re_node _ _ R); eauto|done].
        - intros (t & Htl & Hd & Hw). destruct (proj1 (re_node _ _ R t) Htl) as [n Hn].
          exists t, n. split; [apply elem_of_visit, Ht; eauto|done]. }
      assert (attached nested s2) as A'.
      { revert A. apply attached_iff. intros p c. by rewrite Hroot. }
      eapply wp_mono; [apply (wp_forM _ (λ pre _ s', tree_objs s' = tree_objs s2 ∧ tree_next s' = tree_next s2 ∧
        lf s' = set_trees (union (list_to_set pre)) (lf s2)))|].
      * split_and!; [done..|]. unfold set_trees. simpl. rewrite (left_id_L ∅ (∪)). by destruct (lf s2).
      * intros pre n post s' _ (E1 & E2 & E3). apply wp_modify. simpl. split_and!; [done..|].
        rewrite E3. unfold set_trees. simpl. f_equal. apply set_eq. intros y.
        rewrite list_to_set_app, !elem_of_union. simpl. rewrite elem_of_union, elem_of_empty. tauto.
      * intros [] [o nx f] (E1 & E2 & E3). simpl in *. subst o nx f. split.
        -- destruct A' as [[R1 R2 R3 R4 R5] I L]. split; [split|done|]; done.
        -- intros n. simpl. rewrite Hs2, list_to_set_visit, elem_of_union, Ht, Hpot', Hp. split.
           ++ intros [[(l & Hl & Hd) Hno]|(l & Hl & Hd)]; exists l; (split; [done|]); intros (p & [Him _] & t & Htl & Htd & Hw).
              ** apply Hno. destruct (proj1 (re_node _ _ R t) Htl) as [nt Hnt]. exists t, nt, l.
                 split; [apply elem_of_visit, Ht; eauto|]. split; [done|]. split; [|done].
                 destruct Hw as [->|Hw]; [apply Him|]. by apply (contains_trans _ _ _ _ _ Ok_sel t p l Hw), Him.
              ** by apply (outermost_not_contained p l Hd), Him.
           ++ intros (l & Hl & Hno). destruct (decide (ls_depth (ls l) = 1%Z)) as [Hd|Hd]; [right; eauto|left].
              split; [eauto|]. intros (t & nt & c & Hnt%elem_of_visit & Htn & C & Hcn).
              rewrite (registered_inj loops s1 c l n R Hcn Hl) in C. apply Ht in Hnt as (t' & Ht' & Htd).
              rewrite (registered_inj loops s1 t' t nt R Ht' Htn) in Htd.
              destruct (immediate_around _ _ _ _ _ Ok_sel t l C) as (p & Hw & Him).
              apply Hno. exists p. split; [done|]. exists t. split; [apply C|done].
Qed.

(** the nesting level of the loop of a node *)
Definition level_of (s : LFSt) (n : Ptr) : nat :=
  Z.to_nat (default 0%Z ((λ l, ls_depth (ls l)) <$> loop_of s n)).

Lemma attached_forest Att s : attached Att s →
  (∀ n, n ∈ lf_trees (lf s) ↔ ∃ l, lf_nodes (lf s) !! l = Some n ∧ ¬ ∃ p, Att p l) →
  forest_wf (map_img (lf_nodes (lf s))) (level_of s) s.
Proof.
  intros A Ht. pose proof (at_reg _ _ A) as R.
  assert (∀ l n, lf_nodes (lf s) !! l = Some n → ∃ x, tree_objs s !! n = Some x ∧ t_loop x = l ∧
    (∀ q, q ∈ children_of s n ↔ ∃ c, Att l c ∧ lf_nodes (lf s) !! c = Some q) ∧
    (∀ q, parent_of s n = Some q ↔ ∃ p, Att p l ∧ lf_nodes (lf s) !! p = Some q)) as Hview.
  { intros l n Hl. destruct (re_obj _ _ R l n Hl) as (x & Hx & Hxl). exists x. split; [done|]. split; [done|].
    destruct (at_links _ _ A l n x Hl Hx) as [Lc Lp]. unfold parent_of. rewrite Hx. simpl.
    setoid_rewrite (elem_of_children_of s n x); [|done]. done. }
  assert (∀ p c, Att p c → ∃ np nc, lf_nodes (lf s) !! p = Some np ∧ lf_nodes (lf s) !! c = Some nc) as Hboth.
  { intros p c [[Hp [Hc _]] _]%(at_imm _ _ A). apply (re_node _ _ R) in Hp as [np Hnp], Hc as [nc Hnc]. eauto. }
  split.
  - intros n (l & Hl)%elem_of_map_img. destruct (Hview l n Hl) as (x & Hx & _). eauto.
  - split.
    + intros p _. apply NoDup_visit.
    + intros p c (l & Hl)%elem_of_map_img. destruct (Hview l p Hl) as (_ & _ & _ & -> & _). split.
      * intros (k & Hk & Hkc). split; [apply elem_of_map_img; eauto|].
        destruct (Hview k c Hkc) as (_ & _ & _ & _ & Hp). apply Hp. eauto.
      * intros [(k & Hkc)%elem_of_map_img Hp]. destruct (Hview k c Hkc) as (_ & _ & _ & _ & Hpar).
        apply Hpar in Hp as (l' & Hl' & Hl'p). exists k. by rewrite <- (registered_inj loops s l' l p).
    + intros c p (k & Hkc)%elem_of_map_img Hp. destruct (Hview k c Hkc) as (x & Hx & Hxk & _ & Hpar).
      apply Hpar in Hp as (l & Hl & Hlp). split; [apply elem_of_map_img; eauto|].
      destruct (Hview l p Hlp) as (y & Hy & Hyl & _). unfold level_of, loop_of. rewrite Hx, Hy. simpl.
      rewrite Hxk, Hyl. apply (at_imm _ _ A) in Hl as [C _].
      pose proof (contains_depth _ _ _ _ _ Ok_sel l k C). pose proof (so_outermost _ _ _ _ _ Ok_sel l (proj1 C)). lia.
  - intros n. rewrite Ht, elem_of_map_img. split.
    + intros (l & Hl & Hno). split; [eauto|]. apply eq_None_not_Some. intros [q Hq].
      destruct (Hview l n Hl) as (_ & _ & _ & _ & Hpar). apply Hpar in Hq as (p & Hp & _). by apply Hno; exists p.
    + intros [[l Hl] Hnone]. exists l. split; [done|]. intros [p Hp].
      destruct (Hboth p l Hp) as (np & _ & Hnp & _). destruct (Hview l n Hl) as (_ & _ & _ & _ & Hpar).
      assert (parent_of s n = Some np) by (apply Hpar; eauto). congruence.
Qed.

(** (C15) The constructor builds a well-formed forest with a node per selected loop. The
    parent of a node is the node of the innermost selected loop around its loop, for every
    loop that is in a selected loop of nesting level 1. *)
Theorem LoopForest_new_spec s : (∀ q, is_Some (tree_objs s !! q) → (q < tree_next s)%positive) →
  wp (LoopForest_new ir ls loops h doms) (λ _ s',
    forest_wf (map_img (lf_nodes (lf s'))) (level_of s') s' ∧
    (∀ l, l ∈ loops ↔ is_Some (lf_nodes (lf s') !! l)) ∧
    (∀ l n, lf_nodes (lf s') !! l = Some n → loop_of s' n = Some l ∧
       getNode ls l s' = Ok (s', Some n) ∧
       ∀ q, parent_of s' n = Some q ↔
         ∃ p, lf_nodes (lf s') !! p = Some q ∧ immediate p l ∧ rooted p)) s.
Proof.
  intros Hs. eapply wp_mono; [by apply LoopForest_new_run|]. intros [] s' [A Ht].
  pose proof (at_reg _ _ A) as R. split; [by eapply attached_forest|]. split; [apply (re_node _ _ R)|].
  intros l n Hl. destruct (re_obj _ _ R l n Hl) as (x & Hx & Hxl).
  unfold loop_of, parent_of. rewrite Hx. simpl. split; [by rewrite Hxl|]. split.
  - unfold getNode, getHeader, bind, get, ret. by rewrite (proj2 (re_header _ _ R _ n)) by eauto.
  - intros q. destruct (at_links _ _ A l n x Hl Hx) as [_ ->]. unfold nested.
    split; intros (p & ? & ?); exists p; tauto.
Qed.

(** When no selected loop of nesting level 1 is around them, two nested loops are not
    linked: the node of the inner one has no parent, and both are trees of the forest. *)
Theorem nested_loops_left_apart p c s :
  (∀ q, is_Some (tree_objs s !! q) → (q < tree_next s)%positive) →
  contains p c → (∀ t, t ∈ loops → within t c → ls_depth (ls t) ≠ 1%Z) →
  wp (LoopForest_new ir ls loops h doms) (λ _ s', ∃ np nc,
    lf_nodes (lf s') !! p = Some np ∧ lf_nodes (lf s') !! c = Some nc ∧
    parent_of s' nc = None ∧ np ∈ lf_trees (lf s') ∧ nc ∈ lf_trees (lf s')) s.
Proof.
  intros Hs C Hno. eapply wp_mono; [by apply LoopForest_new_run|]. intros [] s' [A Ht].
  pose proof (at_reg _ _ A) as R.
  destruct (proj1 (re_node _ _ R p) (proj1 C)) as [np Hnp].
  destruct (proj1 (re_node _ _ R c) (proj1 (proj2 C))) as [nc Hnc].
  assert (∀ k, within k c → ¬ ∃ q, nested q k) as Hroot.
  { intros k Hk (q & [Cq _] & t & Htl & Htd & Hw). apply (Hno t Htl); [|done].
    assert (contains t k) as Ctk.
    { destruct Hw as [->|Hw]; [done|]. by apply (contains_trans _ _ _ _ _ Ok_sel t q k). }
    apply (within_trans _ _ _ _ _ Ok_sel t k c); [by right|done]. }
  assert (nc ∈ lf_trees (lf s')) as Hct.
  { apply Ht. exists c. split; [done|]. apply Hroot. by left. }
  exists np, nc. split_and!; [done..| | |done].
  - by apply (fw_trees _ _ _ (attached_forest _ _ A Ht)).
  - apply Ht. exists p. split; [done|]. apply Hroot. by right.
Qed.
End forest_spec.
