(* ===== verification/LoopCarried.v ===== *)
(** * Loop-carried dependences (src/core/loop_carried_dependences: LoopCarriedDependencies.cpp)

    The class [LoopCarriedDependencies]: which dependences of a loop cross its iterations. It
    reads the loop tree and the dominator forest, and writes the flag of the edges. *)
From S2P Require Import Prelude DGEdge DGNode DGBase Dominators LoopStructure LoopForest.

(** what the code asks of instructions: the pointer operand of a load or store ([None] for the
    other instructions), and whether they are PHIs *)
Record MemIR := mkMemIR {
  pointerOperand : Ptr → option Ptr;
  isPHI : Ptr → bool
}.

(** the dependence graph, the loop tree, and the dominator forest *)
Record LCSt := mkLCSt {
  lc_heap : Heap;
  lc_forest : LFSt;
  lc_dom : DSt
}.

Section loop_carried.
Context {IO : IterOrder} (ir : IRProgram) (irb : IRBlocks) (mem : MemIR) (ls : Ptr → LoopStructure).

Definition on_edges {A} (m : M Heap A) : M LCSt A :=
  zoom lc_heap (λ h s, mkLCSt h (lc_forest s) (lc_dom s)) m.
Definition on_forest {A} (m : M LFSt A) : M LCSt A :=
  zoom lc_forest (λ f s, mkLCSt (lc_heap s) f (lc_dom s)) m.
Definition on_dom {A} (m : M DSt A) : M LCSt A :=
  zoom lc_dom (λ d s, mkLCSt (lc_heap s) (lc_forest s) d) m.

Definition isInstruction (v : Ptr) : bool :=
  match ir_kind ir v with IsInstruction => true | _ => false end.

(** ** Paths to the header *)

(** one block of the queue; the state holds the queue, the blocks that entered it, and
    [isJReached] *)
Definition headerStep (header : Ptr) (exits : gset Ptr) (J : Ptr) (st : list Ptr * gset Ptr * bool)
    : Res (list Ptr * gset Ptr * bool + bool) :=
  let '(queue, enqueued, isJReached) := st in
  match queue with
  | [] => if isJReached then Ok (inr false) else Fail AssertionFailure
  | B :: queue =>
      if decide (B = header) then Ok (inr true)
      else if decide (B ∈ exits) then Ok (inl (queue, enqueued, isJReached))
      else if decide (B = J) then Ok (inl (queue, enqueued, true))
      else
        Ok (inl (foldl (λ (qe : list Ptr * gset Ptr) succ,
                   if decide (succ ∈ qe.2) then qe else (qe.1 ++ [succ], {[succ]} ∪ qe.2))
                 (queue, enqueued) (ir_successors ir B), isJReached))
  end.
Definition canBasicBlockReachHeaderBeforeOther (LS : LoopStructure) (I J : Ptr) : Res bool :=
  if negb (isIncludedBB LS I && isIncludedBB LS J) then Fail AssertionFailure
  else if decide (I = J) then Ok true
  else
    let exits : gset Ptr := list_to_set (getLoopExitBasicBlocks LS) in
    while (S (S (size (ls_bbs LS) + size exits))) (headerStep (getHeader LS) exits J) ([I], {[I]}, false).

(** ** One dependence *)

(** do the two instructions access one element, fixed outside the loop? *)
Definition touchSameElement (topLoop : Ptr) (edge : DGEdge) (producer consumer : Ptr) : bool :=
  if negb (MemoryDependence_classof edge) then true
  else
    match pointerOperand mem producer, pointerOperand mem consumer with
    | Some producerPointer, Some consumerPointer =>
        if decide (producerPointer ≠ consumerPointer) then false
        else isInstruction producerPointer && negb (isIncludedInst ir (ls topLoop) producerPointer)
    | _, _ => false
    end.

(** the last test, for a variable dependence whose producer does not dominate its consumer *)
Definition variableStaysInIteration (consumerLoop headerBranch producer consumer : Ptr) : M LCSt bool :=
  let* reaches := lift (canBasicBlockReachHeaderBeforeOther (ls consumerLoop)
                          (ir_blockOf ir producer) (ir_blockOf ir consumer)) in
  if negb reaches then ret true
  else
    let* b1 := on_dom (dominatesInst irb consumer producer) in
    if negb b1 then ret false
    else
      let* b2 := on_dom (dominatesInst irb headerBranch consumer) in
      ret (b2 && isPHI mem consumer).

Definition isALoopCarriedDependence (loopNode edge : Ptr) : M LCSt bool :=
  let* topLoop := on_forest (getLoop loopNode) in
  let topLoopHeaderBranch := ir_terminator ir (getHeader (ls topLoop)) in
  let* e := on_edges (load_edge edge) in
  let* producer := on_edges (getSrc e) in
  let* consumer := on_edges (getDst e) in
  if negb (isInstruction producer) then ret false
  else if negb (isInstruction consumer) then ret false
  else
    let* producerLoop := on_forest (getInnermostLoopThatContainsInst ir ls loopNode producer) in
    let* consumerLoop := on_forest (getInnermostLoopThatContainsInst ir ls loopNode consumer) in
    match producerLoop, consumerLoop with
    | Some pl, Some cl =>
        if ControlDependence_classof e && negb (bool_decide (pl = topLoop)) && negb (bool_decide (cl = topLoop))
        then ret false
        else if negb (touchSameElement topLoop e producer consumer) then ret true
        else
          let* dominated := (if decide (producer = consumer) then ret false
                             else on_dom (dominatesInst irb producer consumer)) in
          if dominated : bool then ret false
          else if negb (VariableDependence_classof e) then ret true
          else
            let* stays := variableStaysInIteration cl topLoopHeaderBranch producer consumer in
            ret (negb stays)
    | _, _ => ret false
    end.

(** ** All the dependences of a graph *)

Definition setLoopCarriedDependencies (loopNode : Ptr) (dgForLoops : DG) : M LCSt unit :=
  forM (λ edge,
    let* e := on_edges (load_edge edge) in
    massert (negb (isLoopCarriedDependence e))) (visit (allEdges dgForLoops)) ;;;
  forM (λ edge,
    let* loop := isALoopCarriedDependence loopNode edge in
    if negb loop then ret tt
    else
      let* e := on_edges (load_edge edge) in
      on_edges (store_edge edge (setLoopCarried true e))) (visit (allEdges dgForLoops)).

(** [cast<Instruction>] of the end of a dependence *)
Definition cast_instruction {S} (v : Ptr) : M S Ptr := if isInstruction v then ret v else fail AssertionFailure.

(** [getLoopCarriedDependenciesForLoop] over the edges of the graph of a loop *)
Definition getLoopCarriedDependenciesForLoop (LS loopNode : Ptr) (LoopDG : DG) : M LCSt (gset Ptr) :=
  let* l := filterM (λ edge,
    let* e := on_edges (load_edge edge) in
    if negb (isLoopCarriedDependence e) then ret false
    else
      let* consumer := on_edges (getDst e) in
      let* consumerI := cast_instruction consumer in
      let* consumerLoop := on_forest (getInnermostLoopThatContainsInst ir ls loopNode consumerI) in
      ret (bool_decide (consumerLoop = Some LS))) (visit (allEdges LoopDG)) in
  ret (list_to_set l).

(** the same over the edges of the components of an SCCDAG *)
Definition carriedInSCC (LS loopNode edge : Ptr) : M LCSt bool :=
  let* e := on_edges (load_edge edge) in
  if negb (isLoopCarriedDependence e) then ret false
  else
    let* consumer := on_edges (getDst e) in
    let* consumerI := cast_instruction consumer in
    let* consumerLoop := on_forest (getInnermostLoopThatContainsInst ir ls loopNode consumerI) in
    if negb (bool_decide (consumerLoop = Some LS)) then ret false
    else
      let* producer := on_edges (getSrc e) in
      if negb (isInstruction producer) then ret false
      else
        let* producerLoop := on_forest (getInnermostLoopThatContainsInst ir ls loopNode producer) in
        ret (bool_decide (is_Some producerLoop)).
Definition getLoopCarriedDependenciesForLoop_sccdag (LS loopNode : Ptr) (sccs : gmap Ptr DG) (sccdag : DG)
    : M LCSt (gset Ptr) :=
  foldM (λ LCEdges sccNode,
    let* n := on_edges (load_node sccNode) in
    let* scc := deref (sccs !! getT n) in
    let* l := filterM (carriedInSCC LS loopNode) (visit (allEdges scc)) in
    ret (LCEdges ∪ list_to_set l)) ∅ (visit (allNodes sccdag)).
End loop_carried.
