(* ===== verification/LoopCarriedSpec.v ===== *)
(** * What a loop-carried dependence is

    The search for the header decides the paths of a natural loop; the flags that
    [setLoopCarriedDependencies] sets are those of the dependences that cross iterations. *)
From S2P Require Import Prelude Forest DGEdge DGNode DGBase DGInvariant DGSpec DGQuery.
From S2P Require Import Dominators DominatorsQuery DominatorsInst LoopStructure LoopForest LoopTreeSpec LoopVisit LoopCarried.

(** ** Paths to the header *)

Section paths.
Context {IO : IterOrder} (ir : IRProgram) (LS : LoopStructure).

Definition in_loop (a b : Ptr) : Prop := a ∈ ls_bbs LS ∧ b ∈ ls_bbs LS ∧ b ∈ ir_successors ir a.

(** a natural loop: its blocks lead to each other and to its exits only, and back to its header *)
Record natural_loop : Prop := {
  nl_closed a b : a ∈ ls_bbs LS → b ∈ ir_successors ir a → b ∈ ls_bbs LS ∨ b ∈ ls_exitBlocks LS;
  nl_exits b : b ∈ ls_exitBlocks LS → b ∉ ls_bbs LS;
  nl_header a : a ∈ ls_bbs LS → rtc in_loop a (ls_header LS)
}.
Context (NL : natural_loop) (I J : Ptr) (HI : I ∈ ls_bbs LS) (HJ : J ∈ ls_bbs LS).

(** a step of the loop from a block that is neither the header nor [J] *)
Definition before_other (a b : Ptr) : Prop := in_loop a b ∧ a ≠ ls_header LS ∧ a ≠ J.
Local Abbreviation exits := (list_to_set (ls_exitBlocks LS) : gset Ptr).

Record searching (st : list Ptr * gset Ptr * bool) : Prop := {
  se_queue b : b ∈ st.1.1 → b ∈ st.1.2;
  se_nodup : NoDup st.1.1;
  se_start : I ∈ st.1.2;
  se_seen b : b ∈ st.1.2 → (b ∈ ls_bbs LS ∧ rtc before_other I b) ∨ b ∈ exits;
  se_done a : a ∈ st.1.2 → a ∉ st.1.1 → a ∈ ls_bbs LS → a ≠ ls_header LS ∧
    (a ≠ J → ∀ b, in_loop a b → b ∈ st.1.2);
  se_J : st.2 = true ↔ J ∈ st.1.2 ∧ J ∉ st.1.1
}.

Definition to_search (st : list Ptr * gset Ptr * bool) : nat :=
  size (ls_bbs LS ∪ exits) - size st.1.2 + length st.1.1.

Lemma searching_size st : searching st → size st.1.2 ≤ size (ls_bbs LS ∪ exits) ∧ length st.1.1 ≤ size st.1.2.
Proof.
  intros H. split; [apply subseteq_size; intros b [[? _]|?]%(se_seen _ H); set_solver|].
  rewrite <- (size_list_to_set (C := gset Ptr) st.1.1) by apply H. apply subseteq_size. intros b.
  rewrite elem_of_list_to_set. apply H.
Qed.

(** the block that was popped is not expanded *)
Lemma searching_pop B q e j j' : searching (B :: q, e, j) → (B ∈ ls_bbs LS → B ≠ ls_header LS ∧ B = J) →
  (j' = true ↔ j = true ∨ B = J) → searching (q, e, j').
Proof.
  intros H HB Hj. pose proof (se_nodup _ H) as Hnd. simpl in Hnd. apply NoDup_cons in Hnd as [HBq Hnd].
  split; cbn [fst snd].
  - intros b Hb. apply (se_queue _ H). by right.
  - done.
  - apply (se_start _ H).
  - apply (se_seen _ H).
  - intros a Ha Haq Hab. destruct (decide (a = B)) as [->|Hne]; [by destruct (HB Hab)|].
    apply (se_done _ H a Ha); [|done]. by intros [?|?]%elem_of_cons.
  - rewrite Hj. pose proof (se_J _ H) as HJ'. cbn [fst snd] in HJ'. rewrite HJ'. split.
    + intros [[? Hn]| <-]; [split; [done|]; set_solver|]. split; [apply (se_queue _ H); by left|done].
    + intros [? ?]. destruct (decide (B = J)); [by right|left]. split; [done|]. set_solver.
Qed.

(** the successors of the block that was popped are enqueued *)
Lemma searching_expand B q e j new : searching (B :: q, e, j) → B ∈ ls_bbs LS → B ≠ ls_header LS → B ≠ J →
  NoDup new → (∀ x, x ∈ new → x ∈ ir_successors ir B ∧ x ∉ e) →
  (∀ x, x ∈ ir_successors ir B → x ∈ new ∨ x ∈ e) → searching (q ++ new, list_to_set new ∪ e, j).
Proof.
  intros H HB HBh HBJ Hndn Hnew Hall. pose proof (se_nodup _ H) as Hnd. simpl in Hnd. apply NoDup_cons in Hnd as [HBq Hnd].
  assert (∀ b, b ∈ q → b ∈ e) as Hqe by (intros b Hb; apply (se_queue _ H); by right).
  assert (B ∈ e) as HBe by (apply (se_queue _ H); by left).
  split; cbn [fst snd].
  - intros b. rewrite elem_of_app, elem_of_union, elem_of_list_to_set. intros [?%Hqe|?]; auto.
  - apply NoDup_app. split; [done|]. split; [|done]. intros x Hx%Hqe Hn%Hnew. tauto.
  - apply elem_of_union_r, (se_start _ H).
  - intros b [Hb%elem_of_list_to_set|Hb]%elem_of_union; [|by apply (se_seen _ H)].
    destruct (Hnew b Hb) as [HbB _]. destruct (nl_closed NL B b HB HbB) as [Hbl|Hbe]; [|right; by apply elem_of_list_to_set].
    left. split; [done|]. destruct (se_seen _ H B HBe) as [[_ Hr]|Hx].
    + eapply rtc_r; [done|]. by repeat split.
    + apply elem_of_list_to_set in Hx. by apply (nl_exits NL) in Hx.
  - intros a Ha Haq Hab. destruct (decide (a = B)) as [->|Hne].
    { split; [done|]. intros _ b (_ & _ & Hb%Hall). set_solver. }
    assert (a ∈ e ∧ a ∉ B :: q) as [Hae Haq'].
    { split; [|set_solver]. apply elem_of_union in Ha as [Ha%elem_of_list_to_set|?]; set_solver. }
    destruct (se_done _ H a Hae Haq' Hab) as [? Hs]. split; [done|]. intros HaJ b Hb. apply elem_of_union_r, Hs; done.
  - pose proof (se_J _ H) as HJ'. cbn [fst snd] in HJ'. rewrite HJ', elem_of_union, elem_of_list_to_set, elem_of_app, elem_of_cons.
    specialize (Hnew J). specialize (Hqe J). split; [|naive_solver]. intros [? Hn]. split; [tauto|]. naive_solver.
Qed.

Lemma canReach_run : I ≠ J → ∃ r, canBasicBlockReachHeaderBeforeOther ir LS I J = Ok r ∧
  (r = true ↔ rtc before_other I (ls_header LS)).
Proof using NL HI HJ.
  intros HIJ. unfold canBasicBlockReachHeaderBeforeOther, isIncludedBB, getHeader, getLoopExitBasicBlocks.
  rewrite !bool_decide_true, decide_False by done. cbn [negb andb].
  assert (∀ b, b ∈ ls_bbs LS → b ∉ exits) as Hex.
  { intros b Hb Hx%elem_of_list_to_set. by apply (nl_exits NL) in Hx. }
  assert (ls_header LS ∈ ls_bbs LS) as Hhead.
  { apply (rtc_closed in_loop (λ b, b ∈ ls_bbs LS) I); [by intros a b _ (_ & ? & _)|done|by apply (nl_header NL)]. }
  apply (while_spec _ searching to_search).
  - split; cbn [fst snd]; [set_solver|apply NoDup_singleton|set_solver| | |].
    + intros b ->%elem_of_singleton. left. by split; [|apply rtc_refl].
    + intros a ->%elem_of_singleton. set_solver.
    + split; [done|]. set_solver.
  - intros [[q e] j] H. unfold headerStep. destruct q as [|B q].
    + right. assert (ls_header LS ∉ e) as Hh.
      { intros Hh. destruct (se_seen _ H _ Hh) as [[Hb _]|Hx].
        - by destruct (se_done _ H _ Hh (not_elem_of_nil _) Hb).
        - destruct (Hex _ Hhead Hx). }
      assert (j = true) as ->.
      { apply (se_J _ H). split; [|apply not_elem_of_nil]. apply dec_stable. intros HJe. apply Hh.
        apply (rtc_closed in_loop (λ b, b ∈ e) I); [|apply (se_start _ H)|by apply (nl_header NL)].
        intros a b Ha Hab. destruct (se_done _ H a Ha (not_elem_of_nil _) (proj1 Hab)) as [_ Hs].
        apply Hs; [|done]. by intros ->. }
      exists false. split; [done|]. split; [done|]. intros Hr. destruct Hh.
      apply (rtc_closed before_other (λ b, b ∈ e) I); [|apply (se_start _ H)|done].
      intros a b Ha (Hab & _ & HaJ). by apply (se_done _ H a Ha (not_elem_of_nil _) (proj1 Hab)).
    + assert (B ∈ e) as HBe by (apply (se_queue _ H); by left).
      pose proof (searching_size _ H) as [Hs1 Hs2]. cbn [fst snd] in Hs1, Hs2.
      case_decide as HBh.
      { right. exists true. split; [done|]. split; [intros _|done]. subst B.
        destruct (se_seen _ H _ HBe) as [[_ Hr]|Hx]; [done|].
        destruct (Hex _ Hhead Hx). }
      left. case_decide as HBx.
      { eexists. split; [done|]. split.
        - eapply searching_pop; [done|intros HB; by apply Hex in HB|]. split; [auto|]. intros [?| ->]; [done|].
          by destruct (Hex J HJ).
        - unfold to_search. simpl in *. lia. }
      case_decide as HBJ.
      { eexists. split; [done|]. split; [by eapply searching_pop; [done|..]; intuition congruence|].
        unfold to_search. simpl in *. lia. }
      destruct (push_unseen (ir_successors ir B) q e) as (new & -> & Hnd & H1 & H2).
      destruct (se_seen _ H B HBe) as [[HB _]|?]; [|done].
      eexists. split; [done|]. pose proof (searching_expand B q e j new H HB HBh HBJ Hnd H1 H2) as H'. split; [done|].
      unfold to_search. cbn [fst snd]. pose proof (searching_size _ H') as [Hs3 _]. cbn [fst snd] in Hs3.
      pose proof (size_unseen new e Hnd ltac:(intros x Hx; by apply H1)) as Hsz.
      rewrite length_app. simpl. lia.
  - unfold to_search. cbn [fst snd]. rewrite size_singleton. pose proof (size_union_alt (ls_bbs LS) exits) as Hu.
    pose proof (subseteq_size (exits ∖ ls_bbs LS) exits ltac:(set_solver)). simpl. lia.
Qed.
End paths.

(** ** One dependence *)

Section carried.
Context {IO : IterOrder} (ir : IRProgram) (irb : IRBlocks) (mem : MemIR) (ls : Ptr → LoopStructure).
Context (live : gset Ptr) (rank : Ptr → nat) (s : LFSt) (n top : Ptr) (dh : DomHeap) (df : DominatorForest).

Local Abbreviation inst i := (isInstruction ir i = true).
Local Abbreviation blk := (ir_blockOf ir).

(** the loop tree [n] of well-nested natural loops, and a dominator forest of the function *)
Record loop_context : Prop := {
  lx_forest : forest_wf live rank s;
  lx_node : n ∈ live;
  lx_loop : loop_of s n = Some top;
  lx_size : (Z.of_nat (size live) < 2 ^ 32)%Z;
  lx_nested bb a b : above live (children_of s) n a → above live (children_of s) n b →
    includes ls s bb a → includes ls s bb b → above live (children_of s) a b ∨ above live (children_of s) b a;
  lx_within bb a : above live (children_of s) n a → includes ls s bb a → includes ls s bb n;
  lx_natural a l : above live (children_of s) n a → loop_of s a = Some l → natural_loop ir (ls l);
  lx_dom : dom_wf dh df;
  lx_post : df_post df = Some false;
  lx_insts : ir_ok irb;
  lx_block i : getParent irb i = blk i;
  lx_listed i : inst i → i ∈ block_insts irb (getParent irb i);
  lx_covered i : inst i → is_Some (df_bbNodeMap df !! Some (getParent irb i));
  lx_branch : inst (ir_terminator ir (ls_header (ls top)))
}.

(** the instruction [I] dominates [J] *)
Definition inst_dominates (I J : Ptr) : Prop :=
  (getParent irb I = getParent irb J ∧ ∃ i j, block_insts irb (getParent irb I) !! i = Some I ∧
     block_insts irb (getParent irb J) !! j = Some J ∧ i ≤ j) ∨
  (getParent irb I ≠ getParent irb J ∧ ∃ a b, df_bbNodeMap df !! Some (getParent irb I) = Some a ∧
     df_bbNodeMap df !! Some (getParent irb J) = Some b ∧ dom_above dh df a b).

(** [l] is the innermost loop of the tree that contains the instruction [i] *)
Definition innermost (i l : Ptr) : Prop := ∃ d, above live (children_of s) n d ∧ loop_of s d = Some l ∧
  includes ls s (blk i) d ∧ ∀ a, above live (children_of s) n a → includes ls s (blk i) a → above live (children_of s) a d.

(** a memory dependence whose ends may access different elements in one iteration: they do
    not go through one pointer computed outside the loop *)
Definition different_element (y : DGEdge) (p c : Ptr) : Prop :=
  MemoryDependence_classof y = true ∧
  ¬ ∃ q, pointerOperand mem p = Some q ∧ pointerOperand mem c = Some q ∧ inst q ∧ blk q ∉ ls_bbs (ls top).

(** a use in the loop [l] that the value reaches in the same iteration: every path to the
    header goes through the use, or the use is a PHI above the definition *)
Definition same_iteration (l p c : Ptr) : Prop :=
  (blk p ≠ blk c ∧ ¬ rtc (before_other ir (ls l) (blk c)) (blk p) (ls_header (ls l))) ∨
  (inst_dominates c p ∧ inst_dominates (ir_terminator ir (ls_header (ls top))) c ∧ isPHI mem c = true).

(** the dependence [y] from the value [p] to the value [c] crosses iterations *)
Definition carried (y : DGEdge) (p c : Ptr) : Prop :=
  inst p ∧ inst c ∧ ∃ lp lc, innermost p lp ∧ innermost c lc ∧
    ¬ (kind y = CONTROL_DEPENDENCE ∧ lp ≠ top ∧ lc ≠ top) ∧
    (different_element y p c ∨
     ((p = c ∨ ¬ inst_dominates p c) ∧ ¬ (kind y = VARIABLE_DEPENDENCE ∧ same_iteration lc p c))).

Context (LX : loop_context).

Lemma innermost_unique i l l' : innermost i l → innermost i l' → l = l'.
Proof using LX.
  intros (d & Hd & Hl & Hi & Hall) (d' & Hd' & Hl' & Hi' & Hall').
  assert (d = d') as <- by (apply (above_antisym _ _ _ _ (fw_forest _ _ _ (lx_forest LX))); auto). congruence.
Qed.

Lemma getInnermost_inst i : ∃ o, getInnermostLoopThatContainsInst ir ls n i s = Ok (s, o) ∧
  ∀ l, o = Some l ↔ innermost i l.
Proof using LX.
  unfold getInnermostLoopThatContainsInst.
  destruct (getInnermost_run ls live rank s (lx_forest LX) (blk i) n (lx_node LX) (lx_size LX)) as (o & -> & Ho).
  { apply (lx_nested LX). }
  exists o. split; [done|]. intros l. destruct o as [l'|].
  - assert (innermost i l') as Hin by done. split; [by intros [= <-]|]. intros Hl. f_equal. by eapply innermost_unique.
  - split; [done|]. intros (d & Hd & _ & Hi & _). destruct Ho. by eapply lx_within.
Qed.

Lemma dominates_inst i j : inst i → inst j → ∃ r, dominatesInst irb i j (dh, df) = Ok ((dh, df), r) ∧
  (r = true ↔ inst_dominates i j).
Proof using LX.
  intros Hi Hj. pose proof (lx_listed LX i Hi) as [ki Hki]%list_elem_of_lookup.
  pose proof (lx_listed LX j Hj) as [kj Hkj]%list_elem_of_lookup.
  destruct (decide (getParent irb i = getParent irb j)) as [E|E].
  - exists (bool_decide (ki ≤ kj)). split.
    { rewrite (dominatesInst_same_block irb i j ki kj (dh, df) (lx_insts LX) E Hki) by by rewrite E.
      simpl. by rewrite (lx_post LX). }
    rewrite bool_decide_eq_true. split; [intros Hle; left; split; [done|]; by exists ki, kj|].
    intros [(_ & a & b & Ha & Hb & Hab)|[? _]]; [|done].
    assert (a = ki) as -> by (eapply NoDup_lookup; [apply (ir_nodup _ (lx_insts LX))|exact Ha|done]).
    assert (b = kj) as -> by (eapply NoDup_lookup; [apply (ir_nodup _ (lx_insts LX))|exact Hb|done]). done.
  - destruct (lx_covered LX i Hi) as [a Ha], (lx_covered LX j Hj) as [b Hb].
    destruct (dominatesBlock_run dh df (lx_dom LX) _ _ a b Ha Hb) as (r & Hr & Hiff). exists r.
    unfold dominatesInst. rewrite decide_False by done. split; [exact Hr|]. rewrite Hiff.
    split; [intros ?; right; split; [done|]; by exists a, b|].
    intros [[? _]|(_ & a' & b' & Ha' & Hb' & ?)]; [done|]. congruence.
Qed.

Lemma touchSameElement_spec y p c : touchSameElement ir mem ls top y p c = false ↔ different_element y p c.
Proof.
  unfold touchSameElement, different_element. destruct (MemoryDependence_classof y); simpl; [|split; [done|by intros []]].
  assert (∀ q, isInstruction ir q && negb (isIncludedInst ir (ls top) q) = true ↔ inst q ∧ blk q ∉ ls_bbs (ls top)) as Hq.
  { intros q. unfold isIncludedInst, isIncludedBB. rewrite andb_true_iff, negb_true_iff, bool_decide_eq_false. done. }
  destruct (pointerOperand mem p) as [q|]; [|split; [intros _; split; [done|]; by intros (? & ? & _)|done]].
  destruct (pointerOperand mem c) as [q'|]; [|split; [intros _; split; [done|]; by intros (? & _ & ? & _)|done]].
  case_decide as Hqq.
  - split; [intros _; split; [done|]|done]. intros (q2 & [= ->] & [= ->] & _). done.
  - subst q'. rewrite <- not_true_iff_false, Hq. split.
    + intros Hno. split; [done|]. by intros (q2 & [= ->] & _ & ?).
    + intros [_ Hno] Hqi. apply Hno. by exists q.
Qed.

(** ** The flags *)

Context (h : Heap) (g : DG) (W : wf h g).

(** the ends of an edge *)
Definition edge_ends (e : Ptr) (y : DGEdge) (p c : Ptr) : Prop :=
  e ∈ allEdges g ∧ hedges h !! e = Some y ∧ node_of g p (from y) ∧ node_of g c (to y).

(** A value that does not dominate its use is in the innermost loop of the use: the use is a
    PHI at the header of that loop. *)
Definition uses_in_loop : Prop := ∀ e y p c l, edge_ends e y p c → kind y = VARIABLE_DEPENDENCE →
  inst p → inst c → innermost c l → p = c ∨ ¬ inst_dominates p c → blk p ∈ ls_bbs (ls l).
Context (Huses : uses_in_loop).

Lemma canReach_spec e y p c l : edge_ends e y p c → kind y = VARIABLE_DEPENDENCE → inst p → inst c →
  innermost c l → p = c ∨ ¬ inst_dominates p c →
  ∃ r, canBasicBlockReachHeaderBeforeOther ir (ls l) (blk p) (blk c) = Ok r ∧
    (r = false ↔ blk p ≠ blk c ∧ ¬ rtc (before_other ir (ls l) (blk c)) (blk p) (ls_header (ls l))).
Proof using LX Huses.
  intros He Hk Hp Hc Hl Hnd. assert (blk p ∈ ls_bbs (ls l)) as Hpl by by eapply Huses.
  pose proof Hl as (d & Hd & Hdl & (l' & Hl' & Hcl) & _). assert (l' = l) as -> by congruence.
  destruct (decide (blk p = blk c)) as [E|E].
  - exists true. split; [|split; [done|by intros []]].
    unfold canBasicBlockReachHeaderBeforeOther, isIncludedBB. rewrite !bool_decide_true, decide_True by done. done.
  - destruct (canReach_run ir (ls l) (lx_natural LX d l Hd Hdl) (blk p) (blk c) Hpl Hcl E) as (r & Hr & Hiff).
    exists r. split; [done|]. rewrite <- Hiff. destruct r; naive_solver.
Qed.

Lemma stays_run e y p c l hh : edge_ends e y p c → kind y = VARIABLE_DEPENDENCE → inst p → inst c →
  innermost c l → p = c ∨ ¬ inst_dominates p c →
  let w := mkLCSt hh s (dh, df) in
  ∃ r, variableStaysInIteration ir irb mem ls l (ir_terminator ir (ls_header (ls top))) p c w = Ok (w, r) ∧
    (r = true ↔ same_iteration l p c).
Proof using LX Huses.
  intros He Hk Hp Hc Hl Hnd w. unfold variableStaysInIteration, same_iteration.
  destruct (canReach_spec e y p c l) as (r & Hr & Hiff); [done..|].
  setoid_rewrite <- Hiff. clear Hiff. rewrite (bind_ok _ _ w w r) by (by rewrite Hr).
  destruct r; simpl; [|exists true; split; [done|]; tauto].
  destruct (dominates_inst c p Hc Hp) as (b1 & H1 & I1).
  rewrite (bind_ok _ _ w w b1) by (unfold on_dom, zoom; simpl; by rewrite H1).
  destruct b1; simpl; [|exists false; split; [done|]; naive_solver].
  destruct (dominates_inst _ c (lx_branch LX) Hc) as (b2 & H2 & I2).
  rewrite (bind_ok _ _ w w b2) by (unfold on_dom, zoom; simpl; by rewrite H2).
  eexists. split; [done|]. rewrite andb_true_iff, I2. naive_solver.
Qed.

Lemma isALoopCarried_run e y p c hh y' : edge_ends e y p c → hnodes hh = hnodes h →
  hedges hh !! e = Some y' → from y' = from y → to y' = to y → kind y' = kind y →
  let w := mkLCSt hh s (dh, df) in
  ∃ r, isALoopCarriedDependence ir irb mem ls n e w = Ok (w, r) ∧ (r = true ↔ carried y p c).
Proof using LX Huses W.
  intros He Hn Hy' Hf Ht Hk w. pose proof He as (Hin & Hy & (Np & x & Hx & <-)%(wf_map _ _ W) & (Nc & z & Hz & <-)%(wf_map _ _ W)).
  set (p := theT x) in *. set (c := theT z) in *.
  unfold isALoopCarriedDependence, carried.
  rewrite (bind_ok _ _ w w top).
  2:{ pose proof (lx_loop LX) as Hl. unfold loop_of in Hl. unfold on_forest, zoom, getLoop, bind, load_tree. simpl.
      destruct (tree_objs s !! n) as [t|]; [|done]. injection Hl as Hl. simpl. by rewrite Hl. }
  rewrite (bind_ok _ _ w w y') by (unfold on_edges, zoom, load_edge; simpl; by rewrite Hy').
  rewrite (bind_ok _ _ w w p).
  2:{ unfold on_edges, zoom, getSrc, bind, load_node. simpl. by rewrite Hf, Hn, Hx. }
  rewrite (bind_ok _ _ w w c).
  2:{ unfold on_edges, zoom, getDst, bind, load_node. simpl. by rewrite Ht, Hn, Hz. }
  destruct (isInstruction ir p) eqn:Hp; simpl; [|exists false; split; [done|]; naive_solver].
  destruct (isInstruction ir c) eqn:Hc; simpl; [|exists false; split; [done|]; naive_solver].
  destruct (getInnermost_inst p) as (op & Hop & Hip), (getInnermost_inst c) as (oc & Hoc & Hic).
  rewrite (bind_ok _ _ w w op) by (unfold on_forest, zoom; simpl; by rewrite Hop).
  rewrite (bind_ok _ _ w w oc) by (unfold on_forest, zoom; simpl; by rewrite Hoc).
  destruct op as [lp|]; [|exists false; split; [done|]; split; [done|]; intros (_ & _ & l & _ & Hl%Hip & _); done].
  destruct oc as [lc|]; [|exists false; split; [done|]; split; [done|]; intros (_ & _ & _ & l & _ & Hl%Hic & _); done].
  assert (innermost p lp ∧ innermost c lc) as [Hlp Hlc] by (split; [by apply Hip|by apply Hic]).
  assert ((∃ lp' lc', innermost p lp' ∧ innermost c lc' ∧
     ¬ (kind y = CONTROL_DEPENDENCE ∧ lp' ≠ top ∧ lc' ≠ top) ∧ (different_element y p c ∨
       ((p = c ∨ ¬ inst_dominates p c) ∧ ¬ (kind y = VARIABLE_DEPENDENCE ∧ same_iteration lc' p c)))) ↔
     ¬ (kind y = CONTROL_DEPENDENCE ∧ lp ≠ top ∧ lc ≠ top) ∧ (different_element y p c ∨
       ((p = c ∨ ¬ inst_dominates p c) ∧ ¬ (kind y = VARIABLE_DEPENDENCE ∧ same_iteration lc p c)))) as Hc2.
  { split; [|intros ?; by exists lp, lc]. intros (lp' & lc' & H1 & H2 & H3).
    by rewrite <- (innermost_unique p lp' lp), <- (innermost_unique c lc' lc). }
  setoid_rewrite Hc2. clear Hc2 Hip Hic.
  assert (touchSameElement ir mem ls top y' p c = touchSameElement ir mem ls top y p c) as ->.
  { unfold touchSameElement, MemoryDependence_classof, getKind. by rewrite Hk. }
  assert ((ControlDependence_classof y' && negb (bool_decide (lp = top)) && negb (bool_decide (lc = top)) = true ↔
    kind y = CONTROL_DEPENDENCE ∧ lp ≠ top ∧ lc ≠ top)) as Hctl.
  { unfold ControlDependence_classof, getKind. rewrite Hk, !andb_true_iff, !negb_true_iff, !bool_decide_eq_false.
    rewrite bool_decide_eq_true. tauto. }
  destruct (_ && _ && _); [exists false; split; [done|]; split; [done|]; intros (_ & _ & Hno & _); by exfalso; apply Hno, Hctl|].
  assert (¬ (kind y = CONTROL_DEPENDENCE ∧ lp ≠ top ∧ lc ≠ top)) as Hnc by (by intros ?%Hctl). clear Hctl.
  pose proof (touchSameElement_spec y p c) as Htouch.
  destruct (touchSameElement ir mem ls top y p c); simpl; [|exists true; split; [done|]; naive_solver].
  assert (¬ different_element y p c) as Hnd by (by intros ?%Htouch). clear Htouch.
  assert (∃ b, (if decide (p = c) then ret false else on_dom (dominatesInst irb p c)) w = Ok (w, b) ∧
    (b = false ↔ p = c ∨ ¬ inst_dominates p c)) as (b & Hrun & Hb).
  { destruct (decide (p = c)) as [->|Hpc]; [exists false; split; [done|]; tauto|].
    destruct (dominates_inst p c Hp Hc) as (b & H1 & I1). exists b. split; [unfold on_dom, zoom; simpl; by rewrite H1|].
    destruct b; naive_solver. }
  rewrite (bind_ok _ _ w w b Hrun). destruct b; [exists false; split; [done|]; naive_solver|].
  assert (p = c ∨ ¬ inst_dominates p c) as Hndom by by apply Hb.
  assert (VariableDependence_classof y' = bool_decide (kind y = VARIABLE_DEPENDENCE)) as ->.
  { unfold VariableDependence_classof, getKind. by rewrite Hk. }
  case_bool_decide as Hvar; simpl; [|exists true; split; [done|]; naive_solver].
  destruct (stays_run e y p c lc hh He Hvar Hp Hc Hlc Hndom) as (r & Hr & Hiff).
  rewrite (bind_ok _ _ w w r Hr). exists (negb r). split; [done|]. destruct r; naive_solver.
Qed.

(** the heap after the flags of some edges were set *)
Definition flagged (P : Ptr → Prop) (hh : Heap) : Prop :=
  hnodes hh = hnodes h ∧ nextAddr hh = nextAddr h ∧
  ∀ e, match hedges h !! e with
       | Some y => ∃ b, hedges hh !! e = Some (setLoopCarried b y) ∧
           (b = true ↔ isLoopCarried y = true ∨ P e ∧ ∃ p c, edge_ends e y p c ∧ carried y p c)
       | None => hedges hh !! e = None
       end.

Lemma setLoopCarried_id y : setLoopCarried (isLoopCarried y) y = y.
Proof. by destruct y. Qed.

Lemma flag_run e pre hh : e ∈ allEdges g → flagged (λ e, e ∈ pre) hh → e ∉ pre →
  wp (let* loop := isALoopCarriedDependence ir irb mem ls n e in
      if negb loop then ret tt
      else let* x := on_edges (load_edge e) in on_edges (store_edge e (setLoopCarried true x)))
     (λ _ w', ∃ hh', w' = mkLCSt hh' s (dh, df) ∧ flagged (λ e', e' ∈ pre ++ [e]) hh') (mkLCSt hh s (dh, df)).
Proof using LX Huses W.
  intros He (Hn & Hnx & Hed) Hpre. destruct (wf_edge _ _ W e He) as (y & Hy & Hfn & Htn).
  destruct (wf_node _ _ W _ Hfn) as (x & Hx & HTx), (wf_node _ _ W _ Htn) as (z & Hz & HTz).
  assert (edge_ends e y (theT x) (theT z)) as Hends by done.
  pose proof (Hed e) as Hee. rewrite Hy in Hee. destruct Hee as (b & Hb & Hbiff).
  assert (∀ p c, edge_ends e y p c → p = theT x ∧ c = theT z) as Huniq.
  { intros p c (_ & _ & Hp & Hc). split; symmetry; by eapply node_of_inv. }
  destruct (isALoopCarried_run e y _ _ hh (setLoopCarried b y) Hends Hn Hb) as (r & Hr & Hiff); [done..|].
  apply (wp_bind_run _ _ _ _ _ _ Hr).
  assert (∀ e' y' b', e' ≠ e → (b' = true ↔ isLoopCarried y' = true ∨ e' ∈ pre ∧ ∃ p c, edge_ends e' y' p c ∧ carried y' p c) ↔
    (b' = true ↔ isLoopCarried y' = true ∨ e' ∈ pre ++ [e] ∧ ∃ p c, edge_ends e' y' p c ∧ carried y' p c)) as Hother.
  { intros e' y' b' Hne. rewrite elem_of_snoc. tauto. }
  destruct r; simpl.
  - apply wp_bind. unfold on_edges at 1. apply wp_zoom, wp_load_edge. exists (setLoopCarried b y). split; [done|].
    unfold on_edges. apply wp_zoom. unfold store_edge. apply wp_modify. eexists. split; [reflexivity|]. split; [done|]. split; [done|].
    intros e'. destruct (decide (e' = e)) as [->|Hne].
    + rewrite Hy. exists true. simpl. rewrite lookup_insert_eq. split; [done|]. split; [|done]. intros _. right.
      rewrite elem_of_snoc. split; [by right|]. eexists _, _. split; [done|]. by apply Hiff.
    + simpl. rewrite lookup_insert_ne by done. pose proof (Hed e') as Hee'. destruct (hedges h !! e') as [y'|]; [|done].
      destruct Hee' as (b' & Hb' & Hiff'). exists b'. split; [done|]. by apply Hother.
  - apply wp_ret. exists hh. split; [done|]. split; [done|]. split; [done|]. intros e'.
    pose proof (Hed e') as Hee'. destruct (hedges h !! e') as [y'|] eqn:Hy'; [|done].
    destruct Hee' as (b' & Hb' & Hiff'). exists b'. split; [done|].
    destruct (decide (e' = e)) as [->|Hne]; [|by apply Hother]. simplify_eq.
    rewrite Hiff', elem_of_snoc. split; [tauto|]. intros [?|[_ (p & c & Hpc & Hc)]]; [by left|].
    destruct (Huniq p c Hpc) as [-> ->]. apply Hiff in Hc. done.
Qed.

(** the first loop of the function *)
Lemma check_unflagged l : (∀ e, e ∈ l → e ∈ allEdges g) →
  let w := mkLCSt h s (dh, df) in
  let run := forM (λ edge, let* e := on_edges (load_edge edge) in massert (negb (isLoopCarriedDependence e))) l w in
  ((∀ e y, e ∈ l → hedges h !! e = Some y → isLoopCarried y = false) → run = Ok (w, tt)) ∧
  ((∃ e y, e ∈ l ∧ hedges h !! e = Some y ∧ isLoopCarried y = true) → run = Fail AssertionFailure).
Proof using W.
  intros Hl w run. subst run. induction l as [|e l IH]; [split; [done|intros (? & ? & ?%not_elem_of_nil & _); done]|].
  destruct (wf_edge _ _ W e) as (y & Hy & _); [by apply Hl; left|]. cbn [forM].
  assert (∀ k, (let* e := on_edges (load_edge e) in massert (negb (isLoopCarriedDependence e))) w = k →
    (bind (let* e := on_edges (load_edge e) in massert (negb (isLoopCarriedDependence e)))
      (λ _, forM (λ edge, let* e := on_edges (load_edge edge) in massert (negb (isLoopCarriedDependence e))) l)) w =
    match k with Ok (w', _) => forM (λ edge, let* e := on_edges (load_edge edge) in
      massert (negb (isLoopCarriedDependence e))) l w' | Fail err => Fail err end) as Hb.
  { intros k Hk. unfold bind at 1. rewrite Hk. by destruct k as [[w' []]|]. }
  rewrite (Hb (if isLoopCarried y then Fail AssertionFailure else Ok (w, tt))).
  2:{ unfold bind, on_edges, zoom, load_edge. simpl. rewrite Hy. simpl. unfold isLoopCarriedDependence.
      by destruct (isLoopCarried y). }
  destruct IH as [IH1 IH2]; [intros; apply Hl; by right|]. destruct (isLoopCarried y) eqn:Hf.
  - split; [|done]. intros Hall. rewrite (Hall e y) in Hf; [done|by left|done].
  - split; [intros Hall; apply IH1; intros; eapply Hall; [by right|done]|].
    intros (e' & y' & [->|He']%elem_of_cons & Hy' & Hf'); [congruence|]. apply IH2. eauto.
Qed.
End carried.

(** (C32) On the graph of a loop whose dependences have no flag yet, setLoopCarriedDependencies
    flags exactly the dependences that cross iterations and changes nothing else: memory
    dependences whose ends may access different elements, and the other dependences whose source
    does not dominate their destination, unless a value reaches its use within the iteration.
    Control dependences between sub-loops are not flagged. If a flag is already set an assertion
    fails. *)
Theorem setLoopCarriedDependencies_spec {IO : IterOrder} ir irb mem ls live rank s n top dh df h g :
  loop_context ir irb ls live rank s n top dh df → wf h g →
  uses_in_loop ir irb ls live s n dh df h g →
  let w := mkLCSt h s (dh, df) in
  ((∀ e y, e ∈ allEdges g → hedges h !! e = Some y → isLoopCarried y = false) →
    wp (setLoopCarriedDependencies ir irb mem ls n g) (λ _ w', ∃ h', w' = mkLCSt h' s (dh, df) ∧
      hnodes h' = hnodes h ∧ (∀ e, e ∉ allEdges g → hedges h' !! e = hedges h !! e) ∧
      ∀ e y p c, edge_ends h g e y p c → ∃ b, hedges h' !! e = Some (setLoopCarried b y) ∧
        (b = true ↔ carried ir irb mem ls live s n top dh df y p c)) w) ∧
  ((∃ e y, e ∈ allEdges g ∧ hedges h !! e = Some y ∧ isLoopCarried y = true) →
    setLoopCarriedDependencies ir irb mem ls n g w = Fail AssertionFailure).
Proof.
  intros LX W Huses w. destruct (check_unflagged s dh df h g W (visit (allEdges g))) as [Hok Hfail].
  { intros e. apply elem_of_visit. }
  split.
  - intros Hno. unfold setLoopCarriedDependencies. eapply wp_bind_run.
    { apply Hok. intros e y He%elem_of_visit. by apply Hno. }
    eapply wp_mono.
    { apply (wp_forM _ (λ pre _ w', ∃ hh, w' = mkLCSt hh s (dh, df) ∧
        flagged ir irb mem ls live s n top dh df h g (λ e, e ∈ pre) hh)).
      - exists h. split; [done|]. split; [done|]. split; [done|]. intros e. destruct (hedges h !! e) as [y|]; [|done].
        exists (isLoopCarried y). rewrite setLoopCarried_id. split; [done|]. set_solver.
      - intros pre e post w' Hl (hh & -> & Hf). apply (flag_run _ _ _ _ _ rank); [done..| | |].
        + apply elem_of_visit. rewrite Hl. set_solver.
        + done.
        + pose proof (NoDup_visit (allEdges g)) as Hnd. rewrite Hl in Hnd. apply NoDup_app in Hnd as (_ & Hnd & _).
          intros Hin. apply (Hnd e Hin). by left. }
    intros [] w' (h' & -> & Hn & _ & He). exists h'. split_and!; [done..| |].
    + intros e Hne. pose proof (He e) as Hee. destruct (hedges h !! e) as [y|] eqn:Hy; [|done].
      destruct Hee as (b & -> & Hb). f_equal. replace b with (isLoopCarried y); [apply setLoopCarried_id|].
      apply eq_true_iff_eq. rewrite Hb. split; [auto|]. by intros [?|[?%elem_of_visit _]].
    + intros e y p c (Hin & Hy & Hp & Hc). pose proof (He e) as Hee. rewrite Hy in Hee. destruct Hee as (b & Hb & Hiff).
      exists b. split; [done|]. rewrite Hiff, (Hno e y Hin Hy). split.
      * intros [?|(_ & p' & c' & (_ & _ & Hp' & Hc') & Hcar)]; [done|].
        destruct (wf_map _ _ W _ _ Hp) as (_ & x & Hx & <-), (wf_map _ _ W _ _ Hc) as (_ & z & Hz & <-).
        by rewrite (node_of_inv _ _ _ _ _ W Hp' Hx), (node_of_inv _ _ _ _ _ W Hc' Hz).
      * intros Hcar. right. split; [by apply elem_of_visit|]. by exists p, c.
  - intros (e & y & He & Hy & Hf). subst w. unfold setLoopCarriedDependencies, bind at 1. rewrite Hfail; [done|].
    exists e, y. by rewrite elem_of_visit.
Qed.
