(* ===== verification/PDGValues.v ===== *)
(** * Values of llvm for the generator of dependences (Utils.cpp, PDGGenerator_library.cpp)

    What the generator asks of the values of a program, and the tests by the name of the callee. *)
From stdpp Require Import strings.
From S2P Require Import Prelude.

(** ** Values *)

(** the classes of values that the code tests for; a call has its callee when it is direct, a PHI
    its incoming values (null when absent) with their blocks *)
Inductive ValueClass :=
  | ArgumentValue
  | LoadValue (pointer : Ptr)
  | StoreValue (pointer : Ptr)
  | CallValue (isCallInst : bool) (callee : option Ptr) (operands : list Ptr)
  | PHIValue (incoming : list (option Ptr * Ptr))
  | OtherInstruction
  | GlobalVariable
  | OtherValue.

Record Values := mkValues {
  v_class : Ptr → ValueClass;
  v_uses : Ptr → list Ptr;
  v_parent : Ptr → Ptr;
  v_isLifetime : Ptr → bool;
  v_isPointer : Ptr → bool;
  fn_name : Ptr → string;
  fn_empty : Ptr → bool
}.

(** the functions of the library without effects, or whose effects SVF handles *)
Definition externalFuncsHaveNoSideEffectOrHandledBySVF : list string :=
  [
    "isalnum"; "isalpha"; "isblank"; "iscntrl"; "isdigit"; "isgraph"; "islower"; "isprint"; "ispunct";
    "isspace"; "isupper"; "isxdigit"; "tolower"; "toupper"; "cos"; "sin"; "tan"; "acos"; "asin"; "atan";
    "atan2"; "cosh"; "sinh"; "tanh"; "acosh"; "asinh"; "atanh"; "exp"; "expf"; "ldexp"; "log"; "logf";
    "log10"; "exp2"; "expm1"; "ilogb"; "log1p"; "log2"; "logb"; "scalbn"; "scalbln"; "pow"; "sqrt";
    "cbrt"; "hypot"; "erf"; "erfc"; "tgamma"; "lgamma"; "ceil"; "floor"; "fmod"; "trunc"; "round";
    "lround"; "llround"; "nearbyint"; "remainder"; "copysign"; "nextafter"; "nexttoward"; "fdim"; "fmax";
    "fmin"; "fabs"; "abs"; "fma"; "fpclassify"; "isfinite"; "isinf"; "isnan"; "isnormal"; "signbit";
    "isgreater"; "isgreaterequal"; "isless"; "islessequal"; "islessgreater"; "isunordered"; "clock";
    "difftime"; "iswalnum"; "iswalpha"; "iswblank"; "iswcntrl"; "iswdigit"; "iswgraph"; "iswlower";
    "iswprint"; "iswpunct"; "iswspace"; "iswupper"; "iswxdigit"; "towlower"; "towupper"; "iswctype";
    "towctrans"; "atoi"; "atoll"; "exit"; "strcmp"; "strncmp"; "rand_r"; "strlen"
  ]%string.
Definition externalThreadSafeFunctions : list string := ["malloc"; "calloc"; "realloc"; "free"]%string.

Section values.
Context (V : Values).

Definition isInstruction (v : Ptr) : bool :=
  match v_class V v with ArgumentValue | GlobalVariable | OtherValue => false | _ => true end.
Definition isArgument (v : Ptr) : bool := match v_class V v with ArgumentValue => true | _ => false end.
Definition isLoad (v : Ptr) : bool := match v_class V v with LoadValue _ => true | _ => false end.
Definition isStore (v : Ptr) : bool := match v_class V v with StoreValue _ => true | _ => false end.
Definition isCallBase (v : Ptr) : bool := match v_class V v with CallValue _ _ _ => true | _ => false end.
Definition isCallInst (v : Ptr) : bool := match v_class V v with CallValue b _ _ => b | _ => false end.
Definition isGlobal (v : Ptr) : bool := match v_class V v with GlobalVariable => true | _ => false end.
(** [getCalledFunction], and the operands of a call *)
Definition calledFunction (v : Ptr) : option Ptr := match v_class V v with CallValue _ c _ => c | _ => None end.
Definition callOperands (v : Ptr) : list Ptr := match v_class V v with CallValue _ _ l => l | _ => [] end.

(** ** Tests by name *)

Definition isTheLibraryFunctionPure (f : Ptr) : bool :=
  bool_decide (fn_name V f ∈ externalFuncsHaveNoSideEffectOrHandledBySVF).
Definition isTheLibraryFunctionThreadSafe (f : Ptr) : bool :=
  bool_decide (fn_name V f ∈ externalThreadSafeFunctions).

(** a call of a function without a body that has one of the given names *)
Definition callsLibrary (names : list string) (call : Ptr) : bool :=
  match calledFunction call with
  | None => false
  | Some callee => if negb (fn_empty V callee) then false else bool_decide (fn_name V callee ∈ names)
  end.
Definition isAllocator : Ptr → bool := callsLibrary ["malloc"; "calloc"; "realloc"]%string.
Definition isReallocator : Ptr → bool := callsLibrary ["realloc"]%string.
Definition isDeallocator : Ptr → bool := callsLibrary ["free"]%string.

Definition isActualCode (inst : Ptr) : bool :=
  if negb (isCallBase inst) then true
  else if v_isLifetime V inst then false
  else
    match calledFunction inst with
    | Some callee => negb (String.prefix "llvm.dbg." (fn_name V callee))
    | None => true
    end.

Definition getAllocatedObject (call : Ptr) : Res (option Ptr) :=
  if negb (isAllocator call) then Ok None
  else
    match calledFunction call with
    | None => Ok None
    | Some callee =>
        if bool_decide (fn_name V callee ∈ ["malloc"; "calloc"; "realloc"]%string) then Ok (Some call) else Fail Aborted
    end.
Definition getFreedObject (call : Ptr) : Res (option Ptr) :=
  if negb (isDeallocator call) then Ok None
  else
    match calledFunction call with
    | None => Ok None
    | Some callee =>
        if bool_decide (fn_name V callee ∈ ["free"]%string)
        then match callOperands call with o :: _ => Ok (Some o) | [] => Fail UndefinedBehaviour end
        else Fail Aborted
    end.

Definition canAccessMemory (i : Ptr) : bool :=
  if negb (isActualCode i) then false
  else if isStore i then true
  else if isLoad i then true
  else if isCallBase i then
    match calledFunction i with
    | Some callee => negb (isTheLibraryFunctionPure callee)
    | None => true
    end
  else false.
End values.
