(* ===== verification/PDGModRef.v ===== *)
(** * Memory dependences (src/core/pdg_generator: PDGGenerator_memory.cpp)

    Which memory dependences the generator adds between two instructions, from the answers of
    llvm's alias analysis, of SVF and of the dependence analyses that are registered. *)
From S2P Require Import Prelude DGEdge DGNode DGBase PDGValues.

(** ** Answers of the analyses *)

Inductive ModRefInfo := NoModRef | Must | Ref | MustRef | Mod | MustMod | ModRef | MustModRef.
Inductive AliasResult := NoAlias | MayAlias | PartialAlias | MustAlias.
#[export] Instance AliasResult_eq_dec : EqDecision AliasResult.
Proof. solve_decision. Defined.
Inductive MemoryDataDependenceStrength := CANNOT_EXIST | MAY_EXIST | MUST_EXIST.

(** an alias analysis (llvm's of one function, or SVF): on the memory locations of two
    instructions, on two values, on a call and a location, on two calls *)
Record AliasAnalysis := mkAliasAnalysis {
  aa_alias_location : Ptr → Ptr → AliasResult;
  aa_alias_value : Ptr → Ptr → AliasResult;
  aa_modref_location : Ptr → Ptr → ModRefInfo;
  aa_modref_call : Ptr → Ptr → ModRefInfo
}.

(** SVF: what it adds to an alias analysis *)
Record SVFAnalysis := mkSVFAnalysis {
  svf_aa : AliasAnalysis;
  svf_modref : Ptr → ModRefInfo;
  svf_hasIndCSCallees : Ptr → bool;
  svf_getIndCSCallees : Ptr → list Ptr;
  svf_isReachableBetweenFunctions : Ptr → Ptr → bool
}.

(** a dependence analysis that a client registers *)
Record DependenceAnalysis := mkDependenceAnalysis {
  da_canThereBe : Ptr → Ptr → bool;
  da_isThereThisType : DataDependenceType → Ptr → Ptr → MemoryDataDependenceStrength
}.

(** the switch over an answer *)
Definition onModRef {A} (a : ModRefInfo) (none ref md modref : A) : A :=
  match a with
  | NoModRef | Must => none
  | Ref | MustRef => ref
  | Mod | MustMod => md
  | ModRef | MustModRef => modref
  end.

(** the bits of [BitVector bv{ 3, false }] *)
Record Bits := mkBits { b0 : bool; b1 : bool; b2 : bool }.
Definition noBits : Bits := mkBits false false false.
Definition set0 (bv : Bits) : Bits := mkBits true (b1 bv) (b2 bv).
Definition set1 (bv : Bits) : Bits := mkBits (b0 bv) true (b2 bv).
Definition set2 (bv : Bits) : Bits := mkBits (b0 bv) (b1 bv) true.

Section modref.
Context {IO : IterOrder} (V : Values).
(** llvm's analysis of the function, SVF, the registered analyses and the option [disableSVF] *)
Context (AA : AliasAnalysis) (svf : SVFAnalysis) (ddAnalyses : list DependenceAnalysis) (disableSVF : bool).

(** ** The registered analyses *)

Fixpoint canThereBeAMemoryDataDependence_in (l : list DependenceAnalysis) (fromInst toInst : Ptr) : bool :=
  match l with
  | [] => true
  | a :: l => if negb (da_canThereBe a fromInst toInst) then false
              else canThereBeAMemoryDataDependence_in l fromInst toInst
  end.
Definition canThereBeAMemoryDataDependence : Ptr → Ptr → bool := canThereBeAMemoryDataDependence_in ddAnalyses.

(** the pair [(noDep, mustExist)] of the first analysis that knows *)
Fixpoint isThereThisType_in (l : list DependenceAnalysis) (t : DataDependenceType) (fromInst toInst : Ptr) : bool * bool :=
  match l with
  | [] => (false, false)
  | a :: l => match da_isThereThisType a t fromInst toInst with
              | CANNOT_EXIST => (true, false)
              | MUST_EXIST => (false, true)
              | MAY_EXIST => isThereThisType_in l t fromInst toInst
              end
  end.
Definition isThereThisMemoryDataDependenceType : DataDependenceType → Ptr → Ptr → bool * bool :=
  isThereThisType_in ddAnalyses.

(** ** Library functions *)

(** the functions of the program: [unhandledExternalFuncs] and the map
    [reachableUnhandledExternalFuncs] *)
Definition unhandledExternalFuncs (M : list Ptr) : list Ptr :=
  filter (λ F, fn_empty V F = true ∧ isTheLibraryFunctionPure V F = false) M.
Definition internalFuncs (M : list Ptr) : list Ptr := filter (λ F, fn_empty V F = false) M.
Definition identifyFunctionsThatInvokeUnhandledLibrary (M : list Ptr) : gmap Ptr (gset Ptr) :=
  foldl (λ (m : gmap Ptr (gset Ptr)) internal,
    foldl (λ (m : gmap Ptr (gset Ptr)) external,
      if svf_isReachableBetweenFunctions svf internal external
      then <[internal := {[external]} ∪ default ∅ (m !! internal)]> m else m) m (unhandledExternalFuncs M))
    ∅ (internalFuncs M).
Context (reachableUnhandledExternalFuncs : gmap Ptr (gset Ptr)).

Definition isUnhandledExternalFunction (F : Ptr) : bool := fn_empty V F && negb (isTheLibraryFunctionPure V F).
Definition isInternalFunctionThatReachUnhandledExternalFunction (F : Ptr) : bool :=
  negb (fn_empty V F) && bool_decide (default ∅ (reachableUnhandledExternalFuncs !! F) ≠ ∅).
Definition mayCallUnhandled (callee : Ptr) : bool :=
  isUnhandledExternalFunction callee || isInternalFunctionThatReachUnhandledExternalFunction callee.

Definition cannotReachUnhandledExternalFunction (call : Ptr) : bool :=
  if svf_hasIndCSCallees svf call then forallb (λ callee, negb (mayCallUnhandled callee)) (svf_getIndCSCallees svf call)
  else match calledFunction V call with Some callee => negb (mayCallUnhandled callee) | None => false end.

Definition hasNoMemoryOperations (call : Ptr) : bool :=
  if disableSVF then false
  else
    match calledFunction V call with
    | Some f => if fn_empty V f then isTheLibraryFunctionPure V f
                else onModRef (svf_modref svf call) true false false false
    | None => onModRef (svf_modref svf call) true false false false
    end.

(** the answer, and the bits: an unknown callee sets the bit of ModRef *)
Definition isSafeToQueryModRefOfSVF (call : Ptr) (bv : Bits) : bool * Bits :=
  if disableSVF then (false, bv)
  else if svf_hasIndCSCallees svf call
  then (forallb (λ callee, negb (mayCallUnhandled callee)) (svf_getIndCSCallees svf call), bv)
  else
    match calledFunction V call with
    | None => (false, set2 bv)
    | Some callee => (negb (mayCallUnhandled callee), bv)
    end.

(** ** Aliases *)

Definition hasMemoryLocation (v : Ptr) : bool := isLoad V v || isStore V v.
Context (sameLocation : Ptr → Ptr → bool).

Definition doTheyAlias (instI instJ : Ptr) : AliasResult :=
  let haveMemoryLocations := hasMemoryLocation instI && hasMemoryLocation instJ in
  let aaResult :=
    if haveMemoryLocations then (if sameLocation instI instJ then MustAlias else aa_alias_location AA instI instJ)
    else aa_alias_value AA instI instJ in
  match aaResult with
  | NoAlias => NoAlias
  | MustAlias => MustAlias
  | PartialAlias | MayAlias =>
      if disableSVF then MayAlias
      else
        match (if haveMemoryLocations then aa_alias_location (svf_aa svf) instI instJ
               else aa_alias_value (svf_aa svf) instI instJ) with
        | NoAlias => NoAlias
        | MustAlias => MustAlias
        | PartialAlias | MayAlias => MayAlias
        end
  end.

(** ** Edges *)

Definition addEdgeFromMemoryAlias (instI instJ : Ptr) (dataDependenceType : DataDependenceType) : M GSt unit :=
  match doTheyAlias instI instJ with
  | NoAlias => ret tt
  | PartialAlias | MayAlias => addMemoryDataDependenceEdge instI instJ dataDependenceType false ;;; ret tt
  | MustAlias => addMemoryDataDependenceEdge instI instJ dataDependenceType true ;;; ret tt
  end.

(** an edge, unless an analysis excludes the dependence of this type from [fromInst] to [toInst] *)
Definition addUnlessExcluded (t : DataDependenceType) (fromInst toInst src dst : Ptr) : M GSt unit :=
  let '(noDep, mustExist) := isThereThisMemoryDataDependenceType t fromInst toInst in
  if noDep : bool then ret tt else addMemoryDataDependenceEdge src dst t mustExist ;;; ret tt.
(** the same, where the code passes [false] for the strength *)
Definition addMayUnlessExcluded (t : DataDependenceType) (fromInst toInst src dst : Ptr) : M GSt unit :=
  let '(noDep, _) := isThereThisMemoryDataDependenceType t fromInst toInst in
  if noDep : bool then ret tt else addMemoryDataDependenceEdge src dst t false ;;; ret tt.

(** the answers of SVF after those of llvm; [None] when there is no dependence *)
Definition askSVF (call : Ptr) (bv : Bits) (query : Bits → option Bits) : option Bits :=
  if disableSVF then Some bv
  else if cannotReachUnhandledExternalFunction call && hasNoMemoryOperations call then None
  else let '(safe, bv) := isSafeToQueryModRefOfSVF call bv in if safe : bool then query bv else Some bv.

(** *** A call and a store *)

Definition markStore (answer : ModRefInfo) (bv : Bits) : option Bits :=
  onModRef answer None (Some (set0 bv)) (Some (set1 bv)) (Some (set2 bv)).

Definition addEdgeFromFunctionModRef_store (call store : Ptr) (addEdgeFromCall : bool) : M GSt unit :=
  if isDeallocator V call then ret tt
  else
    match markStore (aa_modref_location AA call store) noBits with
    | None => ret tt
    | Some bv =>
    match askSVF call bv (markStore (aa_modref_location (svf_aa svf) call store)) with
    | None => ret tt
    | Some bv =>
        if b0 bv && b1 bv then ret tt
        else
          let makeRefEdge := b0 bv || negb (b1 bv) in
          let makeModEdge := negb (b0 bv) in
          (if makeRefEdge then
             if addEdgeFromCall then addUnlessExcluded DG_DATA_WAR call store call store
             else if negb (isAllocator V call) then addUnlessExcluded DG_DATA_RAW call store store call else ret tt
           else ret tt) ;;;
          (if makeModEdge then
             if addEdgeFromCall then addUnlessExcluded DG_DATA_WAW call store call store
             else if negb (isAllocator V call) then addUnlessExcluded DG_DATA_WAW call store store call else ret tt
           else ret tt)
    end end.

(** *** A call and a load *)

Definition markLoad (answer : ModRefInfo) (bv : Bits) : option Bits :=
  onModRef answer None None (Some bv) (Some bv).

Definition addEdgeFromFunctionModRef_load (call load : Ptr) (addEdgeFromCall : bool) : M GSt unit :=
  if isDeallocator V call then ret tt
  else
    match markLoad (aa_modref_location AA call load) noBits with
    | None => ret tt
    | Some bv =>
    match askSVF call bv (markLoad (aa_modref_location (svf_aa svf) call load)) with
    | None => ret tt
    | Some _ =>
        if addEdgeFromCall then addMayUnlessExcluded DG_DATA_RAW call load call load
        else if negb (isAllocator V call) then addMayUnlessExcluded DG_DATA_WAR call load load call else ret tt
    end end.

(** *** Two calls *)

(** the answers of one analysis, forward and, when the first call can run again, backward *)
Definition markCalls (query : Ptr → Ptr → ModRefInfo) (call otherCall : Ptr) (isCallReachableFromOtherCall : bool)
    (st : Bits * Bits) : option (Bits * Bits) :=
  let '(bv, rbv) := st in
  onModRef (query otherCall call)
    None
    (if isCallReachableFromOtherCall
     then onModRef (query call otherCall) None None (Some (set0 bv, rbv)) (Some (set0 bv, rbv))
     else Some (set0 bv, rbv))
    (if isCallReachableFromOtherCall
     then onModRef (query call otherCall) None (Some (set1 bv, set0 rbv)) (Some (set1 bv, set1 rbv)) (Some (set1 bv, set2 rbv))
     else Some (set1 bv, rbv))
    (if isCallReachableFromOtherCall
     then onModRef (query call otherCall) None None (Some (set2 bv, set1 rbv)) (Some (set2 bv, set2 rbv))
     else Some (set2 bv, rbv)).

(** the answers of SVF about two calls *)
Definition askSVFCalls (call otherCall : Ptr) (isCallReachableFromOtherCall : bool) (st : Bits * Bits) : option (Bits * Bits) :=
  if disableSVF then Some st
  else if cannotReachUnhandledExternalFunction call && hasNoMemoryOperations call then None
  else if cannotReachUnhandledExternalFunction otherCall && hasNoMemoryOperations otherCall then None
  else
    let '(safe, bv) := isSafeToQueryModRefOfSVF call st.1 in
    if negb safe then Some (bv, st.2)
    else
      let '(safe, bv) := isSafeToQueryModRefOfSVF otherCall bv in
      if negb safe then Some (bv, st.2)
      else markCalls (aa_modref_call (svf_aa svf)) call otherCall isCallReachableFromOtherCall (bv, st.2).

(** the dependences when the second call may both read and write *)
Definition addModRefEdges (call otherCall : Ptr) (bv rbv : Bits) : M GSt unit :=
  let add t := addUnlessExcluded t call otherCall call otherCall in
  let self := bool_decide (otherCall = call) in
  massert (b2 bv) ;;;
  if b0 rbv then ret tt
  else if b1 rbv then
    if self then ret tt else add DG_DATA_RAW ;;; add DG_DATA_WAW
  else if b2 rbv then add DG_DATA_RAW ;;; add DG_DATA_WAW ;;; add DG_DATA_WAR
  else
    massert (negb (b0 rbv) && negb (b1 rbv) && negb (b2 rbv)) ;;;
    if self then ret tt else add DG_DATA_RAW ;;; add DG_DATA_WAW.

(** the dependences that follow from the bits *)
Definition addCallEdges (call otherCall : Ptr) (bv rbv : Bits) : M GSt unit :=
  let add t := addUnlessExcluded t call otherCall call otherCall in
  let self := bool_decide (otherCall = call) in
  if b0 bv && b1 bv then ret tt
  else if b0 bv then
    add DG_DATA_RAW ;;;
    (if self then add DG_DATA_WAR else ret tt)
  else if b1 bv then
    if b0 rbv && b1 rbv then ret tt
    else if b0 rbv then (if self then ret tt else add DG_DATA_WAR)
    else if b1 rbv then add DG_DATA_WAW
    else if self then ret tt
    else add DG_DATA_WAR ;;; add DG_DATA_WAW
  else addModRefEdges call otherCall bv rbv.

(** can the memory of an allocator be what a deallocator frees? *)
Definition allocationMayBeFreed (call otherCall : Ptr) : M GSt bool :=
  let allocatorCall := if isAllocator V otherCall then Some otherCall else if isAllocator V call then Some call else None in
  let deallocatorCall := if isDeallocator V otherCall then Some otherCall
                         else if isDeallocator V call then Some call else None in
  match allocatorCall, deallocatorCall with
  | Some a, Some d =>
      let* objectAllocated := lift (getAllocatedObject V a) in
      massert (bool_decide (is_Some objectAllocated)) ;;;
      let* objectFreed := lift (getFreedObject V d) in
      massert (bool_decide (is_Some objectFreed)) ;;;
      let* o := deref objectAllocated in
      let* f := deref objectFreed in
      ret (negb (bool_decide (doTheyAlias o f = NoAlias)))
  | _, _ => ret true
  end.

Definition addEdgeFromFunctionModRef_call (call otherCall : Ptr) (isCallReachableFromOtherCall : bool) : M GSt unit :=
  if isAllocator V call && isAllocator V otherCall && negb (isReallocator V call) && negb (isReallocator V otherCall)
  then ret tt
  else
    let* mayBeFreed := allocationMayBeFreed call otherCall in
    if negb mayBeFreed then ret tt
    else
      match markCalls (aa_modref_call AA) call otherCall isCallReachableFromOtherCall (noBits, noBits) with
      | None => ret tt
      | Some st =>
          match askSVFCalls call otherCall isCallReachableFromOtherCall st with
          | None => ret tt
          | Some (bv, rbv) => addCallEdges call otherCall bv rbv
          end
      end.

(** ** One instruction *)

(** [OUT]: the instructions that can run after one *)
Context (OUT : Ptr → gset Ptr).

(** the tests on an instruction that may run after [fromInst] *)
Definition isCandidate (fromInst inst : Ptr) : bool :=
  isInstruction V inst && canAccessMemory V inst && canThereBeAMemoryDataDependence fromInst inst.

Definition iterateInstForStore (store : Ptr) : M GSt unit :=
  forM (λ inst,
    if negb (isCandidate store inst) then ret tt
    else if isStore V inst then addEdgeFromMemoryAlias store inst DG_DATA_WAW
    else if isLoad V inst then addEdgeFromMemoryAlias store inst DG_DATA_RAW
    else if isCallBase V inst then
      if negb (isActualCode V inst) then ret tt else addEdgeFromFunctionModRef_store inst store false
    else ret tt) (visit (OUT store)).

Definition iterateInstForLoad (load : Ptr) : M GSt unit :=
  forM (λ inst,
    if negb (isCandidate load inst) then ret tt
    else if isStore V inst then addEdgeFromMemoryAlias load inst DG_DATA_WAR
    else if isCallBase V inst then addEdgeFromFunctionModRef_load inst load false
    else ret tt) (visit (OUT load)).

Definition iterateInstForCall (call : Ptr) : M GSt unit :=
  if negb (isActualCode V call) then ret tt
  else if hasNoMemoryOperations call then ret tt
  else if negb (canAccessMemory V call) then ret tt
  else
    forM (λ inst,
      if negb (isCandidate call inst) then ret tt
      else if isStore V inst then addEdgeFromFunctionModRef_store call inst true
      else if isLoad V inst then addEdgeFromFunctionModRef_load call inst true
      else if isCallBase V inst then
        if isCallInst V inst && negb (isActualCode V inst) then ret tt
        else addEdgeFromFunctionModRef_call call inst (bool_decide (call ∈ OUT inst))
      else ret tt) (visit (OUT call)).

(** the switch over the class of the instruction *)
Definition iterateInst (I : Ptr) : M GSt unit :=
  if negb (canAccessMemory V I) then ret tt
  else if isStore V I then iterateInstForStore I
  else if isLoad V I then iterateInstForLoad I
  else if isCallBase V I then iterateInstForCall I
  else ret tt.
End modref.
