(* ===== verification/PDGGenerator.v ===== *)
(** * The generator of the program dependence graph (src/core/pdg_generator: PDGGenerator.cpp,
    PDGGenerator_controlDependences.cpp)

    The dependences between definitions and uses, the memory dependences of each function, the
    control dependences, and the removal of those that AllocAA and the points-to analysis refute. *)
From stdpp Require Import strings.
From S2P Require Import Prelude DGEdge DGNode DGBase PDG DataFlow PDGValues PDGModRef.

(** ** Control dependences *)

(** what the code asks of the post-dominator tree of llvm *)
Record PostDominatorTree := mkPostDominatorTree {
  pdt_getDescendants : Ptr → list Ptr;
  pdt_properlyDominates : Ptr → Ptr → bool
}.

Section control.
Context {IO : IterOrder} (V : Values) (f : CFG) (postDomTree : PostDominatorTree).

(** an edge object on the stack, copied into the graph *)
Definition addControlEdge (src dst : Ptr) : M GSt unit :=
  let* srcNode := fetchNode src in
  let* dstNode := fetchNode dst in
  massert (bool_decide (is_Some srcNode)) ;;;
  massert (bool_decide (is_Some dstNode)) ;;;
  let* s := deref srcNode in
  let* d := deref dstNode in
  let* edge := on_heap (new_edge (ControlDependence_new s d)) in
  copyAddEdge edge ;;;
  on_heap (delete_edge edge).

(** ** Post-dominance *)

(** the dependences of the block [B] on the predecessor [predBB] of a block that it post-dominates *)
Definition controlFromPredecessor (B predBB : Ptr) : M GSt unit :=
  let* controlTerminator := deref (getTerminator f predBB) in
  if decide (length (successors f predBB) = 1) then ret tt
  else if pdt_properlyDominates postDomTree B predBB then ret tt
  else forM (addControlEdge controlTerminator) (insts f B).
Definition controlOfBlock (B : Ptr) : M GSt unit :=
  forM (λ dominatedBB, forM (controlFromPredecessor B) (predecessors f dominatedBB))
       (pdt_getDescendants postDomTree B).

(** ** PHIs *)

Definition getControlProducers (v : Ptr) : M GSt (gset Ptr) :=
  let* node := fetchNode v in
  let* node := deref node in
  let* n := on_heap (load_node node) in
  on_heap (foldM (λ (producers : gset Ptr) e,
    let* edge := load_edge e in
    if negb (ControlDependence_classof edge) then ret producers
    else
      let* controlProducer := getSrc edge in
      ret ({[controlProducer]} ∪ producers)) ∅ (visit (incomingEdges n))).

(** the producers through one incoming value *)
Definition incomingProducers (controlProducers : gset Ptr) (incoming : option Ptr * Ptr) : M GSt (gset Ptr) :=
  match incoming.1 with
  | None => ret controlProducers
  | Some incomingValue =>
      if isInstruction V incomingValue && bool_decide (v_parent V incomingValue = incoming.2) then ret controlProducers
      else
        let* terminator := deref (getTerminator f incoming.2) in
        let* producers := getControlProducers terminator in
        ret (producers ∪ controlProducers)
  end.

Definition phiIncoming (phi : Ptr) : list (option Ptr * Ptr) :=
  match v_class V phi with PHIValue l => l | _ => [] end.
Definition isPHI (i : Ptr) : bool := match v_class V i with PHIValue _ => true | _ => false end.
(** [B.phis()]: the PHIs at the start of a block *)
Fixpoint phis_of (l : list Ptr) : list Ptr :=
  match l with [] => [] | i :: l => if isPHI i then i :: phis_of l else [] end.

Definition controlOfPHI (phi : Ptr) : M GSt unit :=
  let* controlProducers := foldM incomingProducers ∅ (phiIncoming phi) in
  if decide (size controlProducers = 0) then ret tt
  else
    let* currentControlProducersOnPHI := getControlProducers phi in
    forM (λ producer,
      if decide (producer ∈ currentControlProducersOnPHI) then ret tt else addControlEdge producer phi)
      (visit controlProducers).

Definition constructEdgesFromControlForFunction : M GSt unit :=
  forM controlOfBlock (blocks f) ;;;
  forM (λ B, forM controlOfPHI (phis_of (insts f B))) (blocks f).
End control.


(** a function: its arguments and its control flow graph *)
Record GenFunction := mkGenFunction { gf_args : list Ptr; gf_cfg : CFG }.
(** the function as the constructor of [PDG] sees it *)
Definition pdgFunction (F : GenFunction) : PDG.Function :=
  mkFunction (gf_args F) (insts (gf_cfg F) <$> blocks (gf_cfg F)).
(** [F.empty()] *)
Definition isEmptyFunction (F : GenFunction) : bool := match blocks (gf_cfg F) with [] => true | _ => false end.

(** the answers of AllocAA: the array an instruction accesses with the address computation, and
    the classes of address computations and of functions *)
Record AllocAA := mkAllocAA {
  getPrimitiveArrayAccess : Ptr → option Ptr * option Ptr;
  areGEPIndicesConstantOrIV : Ptr → bool;
  areIdenticalGEPAccessesInSameLoop : Ptr → Ptr → bool;
  isMemoryless : string → bool;
  isReadOnly : string → bool
}.

Section generator.
Context {IO : IterOrder} (V : Values).

(** ** Definitions and uses *)

Definition constructEdgesFromUseDefs : M GSt unit :=
  let* g := this in
  forM (λ node,
    let* n := on_heap (load_node node) in
    let pdgValue := getT n in
    forM (λ user,
      if isInstruction V user || isArgument V user
      then addVariableDataDependenceEdge pdgValue user DG_DATA_RAW ;;; ret tt else ret tt)
      (v_uses V pdgValue)) (visit (allNodes g)).

(** ** Memory *)

Definition onlyMemoryInstructionFilter (i : Ptr) : bool := isLoad V i || isStore V i || isCallBase V i.

Section memory.
Context (getAA : GenFunction → AliasAnalysis) (svf : SVFAnalysis) (ddAnalyses : list DependenceAnalysis).
Context (disableSVF disableRA : bool) (reachableUnhandled : gmap Ptr (gset Ptr)) (sameLocation : Ptr → Ptr → bool).

Definition constructEdgesFromAliasesForFunction (F : GenFunction) : M GSt unit :=
  let* dfr := lift (if disableRA then getFullSets (gf_cfg F)
                    else runReachableAnalysis (gf_cfg F) onlyMemoryInstructionFilter) in
  forM (λ B, forM (iterateInst V (getAA F) svf ddAnalyses disableSVF reachableUnhandled sameLocation
                     (λ i, read_set dfr (OutOf i))) (insts (gf_cfg F) B)) (blocks (gf_cfg F)).

Definition constructEdgesFromAliases (M : list GenFunction) : Prelude.M GSt unit :=
  forM (λ F, if isEmptyFunction F then ret tt else constructEdgesFromAliasesForFunction F) M.
End memory.

(** ** Control *)

Definition constructEdgesFromControl (getPDT : GenFunction → PostDominatorTree) (M : list GenFunction)
    : Prelude.M GSt unit :=
  forM (λ F, if isEmptyFunction F then ret tt
             else constructEdgesFromControlForFunction V (gf_cfg F) (getPDT F)) M.

(** ** Removal of dependences *)

Section trim.
(** AllocAA, the points-to analysis, the function of an instruction and the header of the
    innermost loop of a block *)
Context (allocAA : AllocAA) (mayAlias : Ptr → Ptr → bool) (functionOf : Ptr → CFG) (loopHeaderOf : Ptr → option Ptr).

Definition printFuncs : list string := ["printf"; "fprintf"; "puts"; "putc"; "putchar"]%string.
Definition isCallToPrint (i : Ptr) : bool :=
  match calledFunction V i with
  | None => false
  | Some calleeFunc =>
      existsb (λ printFunc, bool_decide (fn_name V calleeFunc = printFunc) ||
                            bool_decide (fn_name V calleeFunc = (printFunc +:+ "_unlocked")%string)) printFuncs
  end.
Definition getPointer (i : Ptr) : option Ptr :=
  match v_class V i with LoadValue p | StoreValue p => Some p | _ => None end.

Definition canMemoryEdgeBeRemoved (edge : DGEdge) : M Heap bool :=
  let* i0 := getSrc edge in
  let* i1 := getDst edge in
  if negb (isCallBase V i0) && negb (isCallBase V i1) then
    match getPointer i0, getPointer i1 with
    | Some p0, Some p1 => ret (negb (mayAlias p0 p1))
    | _, _ => ret false
    end
  else
    let '(callInst, otherInst) := if isCallBase V i0 then (i0, i1) else (i1, i0) in
    if decide (otherInst = callInst) then ret false
    else
      match calledFunction V callInst with
      | None => ret false
      | Some callee =>
          if negb (fn_empty V callee) then ret false
          else if negb (isCallToPrint callInst) then ret false
          else if isLoad V otherInst then ret true
          else
            let objects := filter (λ arg, v_isPointer V arg = true) (callOperands V callInst) in
            match v_class V otherInst with
            | StoreValue o1 => ret (negb (existsb (λ o0, mayAlias o0 o1) objects))
            | _ => ret false
            end
      end.

(** one block of the queue of [canPrecedeInCurrentIteration] *)
Definition precedeStep (cfg : CFG) (fromBB : Ptr) (headerBB : option Ptr) (st : list Ptr * gset Ptr)
    : Res (list Ptr * gset Ptr + bool) :=
  let '(bbToTraverse, bbReached) := st in
  match bbToTraverse with
  | [] => Ok (inr false)
  | bb :: bbToTraverse =>
      if decide (bb = fromBB) then Ok (inr true)
      else if decide (Some bb = headerBB) then Ok (inl (bbToTraverse, bbReached))
      else
        Ok (inl (foldl (λ (qr : list Ptr * gset Ptr) predBB,
                   if decide (predBB ∈ qr.2) then qr else (qr.1 ++ [predBB], {[predBB]} ∪ qr.2))
                 (bbToTraverse, bbReached) (predecessors cfg bb)))
  end.
(** the first of the two in a list of instructions *)
Fixpoint firstOf (from to : Ptr) (l : list Ptr) : option bool :=
  match l with
  | [] => None
  | i :: l => if decide (i = from) then Some true else if decide (i = to) then Some false else firstOf from to l
  end.
Definition canPrecedeInCurrentIteration (from to : Ptr) : Res bool :=
  let cfg := functionOf from in
  let fromBB := v_parent V from in
  let toBB := v_parent V to in
  let headerBB := loopHeaderOf fromBB in
  let search := while (S (S (length (blocks cfg)))) (precedeStep cfg fromBB headerBB) ([toBB], {[toBB]}) in
  if decide (fromBB = toBB) then
    match firstOf from to (insts cfg fromBB) with Some b => Ok b | None => search end
  else search.

Definition isBackedgeIntoSameGlobal (edge : DGEdge) : M Heap bool :=
  let* src := getSrc edge in
  let* dst := getDst edge in
  let '(array1, GEP1) := getPrimitiveArrayAccess allocAA src in
  let '(array2, GEP2) := getPrimitiveArrayAccess allocAA dst in
  match array1 with
  | None => ret false
  | Some a1 =>
    if negb (isGlobal V a1) then ret false
    else if negb (bool_decide (array1 = array2)) then ret false
    else if (match GEP1 with Some g1 => negb (areGEPIndicesConstantOrIV allocAA g1) | None => false end) then ret false
    else if (match GEP2 with Some g2 => negb (areGEPIndicesConstantOrIV allocAA g2) | None => false end) then ret false
    else
      let admissible :=
        match GEP1, GEP2 with
        | Some g1, Some g2 => areIdenticalGEPAccessesInSameLoop allocAA g1 g2 && (isLoad V src && isLoad V dst)
        | Some _, None => isStore V src && isLoad V dst
        | None, Some _ => isLoad V src && isStore V dst
        | None, None => false
        end in
      if negb admissible then ret false
      else
        let* precedes := lift (canPrecedeInCurrentIteration src dst) in
        ret (negb precedes)
  end.

Definition isMemoryAccessIntoDifferentArrays (edge : DGEdge) : M Heap bool :=
  let* src := getSrc edge in
  let* dst := getDst edge in
  match (getPrimitiveArrayAccess allocAA src).1, (getPrimitiveArrayAccess allocAA dst).1 with
  | Some array1, Some array2 => ret (negb (bool_decide (array1 = array2)))
  | _, _ => ret false
  end.

Definition edgeIsNotLoopCarriedMemoryDependency (edge : DGEdge) : M Heap bool :=
  if negb (MemoryDependence_classof edge) then ret false
  else
    let* outgoingT := getSrc edge in
    let* incomingT := getDst edge in
    if isCallBase V outgoingT || isCallBase V incomingT then ret false
    else
      let* t := deref (dataDepType edge) in
      (if isWARDependence t then massert (isStore V incomingT && isLoad V outgoingT)
       else if isRAWDependence t then massert (isLoad V incomingT && isStore V outgoingT)
       else ret tt) ;;;
      let* b := isMemoryAccessIntoDifferentArrays edge in
      if b : bool then ret true else isBackedgeIntoSameGlobal edge.

(** the name of the callee of a call, empty when it is not known *)
Definition getCallFnName (call : Ptr) : string :=
  match calledFunction V call with Some f => fn_name V f | None => "" end.
Definition isFunctionNonWriting (name : string) : bool := isMemoryless allocAA name || isReadOnly allocAA name.

Definition edgeIsAlongNonMemoryWritingFunctions (edge : DGEdge) : M Heap bool :=
  if negb (MemoryDependence_classof edge) then ret false
  else
    let* outgoingT := getSrc edge in
    let* incomingT := getDst edge in
    if isCallInst V outgoingT && isCallInst V incomingT then
      ret (isFunctionNonWriting (getCallFnName outgoingT) && isFunctionNonWriting (getCallFnName incomingT))
    else if negb (isCallInst V outgoingT) && negb (isCallInst V incomingT) then ret false
    else
      let '(call, mem) := if isCallInst V outgoingT then (outgoingT, incomingT) else (incomingT, outgoingT) in
      let callName := getCallFnName call in
      ret ((isLoad V mem && isFunctionNonWriting callName) || (isStore V mem && isMemoryless allocAA callName)).

(** is the edge to be removed? *)
Definition edgeToRemove (e : Ptr) : M Heap bool :=
  let* edge := load_edge e in
  let* source := getSrc edge in
  if negb (isInstruction V source) then ret false
  else
    let* b := (if MemoryDependence_classof edge then canMemoryEdgeBeRemoved edge else ret false) in
    if b : bool then ret true
    else
      let* b := edgeIsNotLoopCarriedMemoryDependency edge in
      if b : bool then ret true else edgeIsAlongNonMemoryWritingFunctions edge.

Definition removeEdgesNotUsedByParSchemes : M GSt unit :=
  let* g := this in
  let* removeEdges := on_heap (filterM edgeToRemove (visit (allEdges g))) in
  forM removeEdge (visit (list_to_set removeEdges)).

Definition trimDGUsingCustomAliasAnalysis (disableAllocAA : bool) : M GSt unit :=
  if disableAllocAA then ret tt else removeEdgesNotUsedByParSchemes.
End trim.

(** ** The whole graph *)

(** the functions of the module and the function [main] *)
Record GenModule := mkGenModule { gm_functions : list GenFunction; gm_main : option GenFunction }.

Definition constructPDGFromAnalysis (getAA : GenFunction → AliasAnalysis) (svf : SVFAnalysis)
    (ddAnalyses : list DependenceAnalysis) (disableSVF disableRA disableAllocAA : bool)
    (reachableUnhandled : gmap Ptr (gset Ptr)) (sameLocation : Ptr → Ptr → bool)
    (getPDT : GenFunction → PostDominatorTree) (allocAA : AllocAA) (mayAlias : Ptr → Ptr → bool)
    (functionOf : Ptr → CFG) (loopHeaderOf : Ptr → option Ptr) (M : GenModule) : Prelude.M GSt unit :=
  PDG_ofModule (mkModule (pdgFunction <$> gm_functions M) (pdgFunction <$> gm_main M)) ;;;
  constructEdgesFromUseDefs ;;;
  constructEdgesFromAliases getAA svf ddAnalyses disableSVF disableRA reachableUnhandled sameLocation (gm_functions M) ;;;
  constructEdgesFromControl getPDT (gm_functions M) ;;;
  trimDGUsingCustomAliasAnalysis allocAA mayAlias functionOf loopHeaderOf disableAllocAA.
End generator.
