(* ===== verification/PDGMetadata.v ===== *)
(** * The program dependence graph in the metadata of a module (src/core/pdg_generator)

    The embedding of the memory dependences into the metadata of llvm
    (PDGGenerator_metadata_embedder.cpp), its removal (PDGGenerator_metadata_cleaner.cpp) and the
    construction of a graph from it (PDGGenerator_metadata.cpp). *)
From stdpp Require Import strings countable.
From S2P Require Import Prelude DGEdge DGNode DGBase PDG DataFlow PDGValues PDGGenerator.

(** ** Metadata *)

(** a node of llvm's metadata. The context keeps one node for each list of operands, so pointers
    to nodes are equal when the nodes are. An operand can be null. *)
Inductive Metadata :=
  | MDString (s : string)
  | ConstantAsMetadata (c : Z)
  | MDNode (operands : list (option Metadata)).

Fixpoint Metadata_tree (m : Metadata) : gen_tree (string + Z) :=
  match m with
  | MDString s => GenLeaf (inl s)
  | ConstantAsMetadata c => GenLeaf (inr c)
  | MDNode l => GenNode 0 ((λ o, match o with Some m => GenNode 1 [Metadata_tree m] | None => GenNode 2 [] end) <$> l)
  end.
Fixpoint Metadata_of_tree (t : gen_tree (string + Z)) : Metadata :=
  match t with
  | GenLeaf (inl s) => MDString s
  | GenLeaf (inr c) => ConstantAsMetadata c
  | GenNode _ l => MDNode ((λ t, match t with GenNode 1 [t] => Some (Metadata_of_tree t) | _ => None end) <$> l)
  end.
Lemma Metadata_of_tree_of m : Metadata_of_tree (Metadata_tree m) = m.
Proof.
  revert m. fix IH 1. intros [s|c|l]; [done|done|]. simpl. f_equal. rewrite <- list_fmap_compose.
  induction l as [|[m|] l IHl]; [done| |]; simpl; [f_equal; [by rewrite IH|exact IHl]|by f_equal].
Qed.
#[export] Instance Metadata_eq_dec : EqDecision Metadata.
Proof.
  refine (λ m1 m2, cast_if (decide (Metadata_tree m1 = Metadata_tree m2))); [|congruence].
  abstract (rewrite <- (Metadata_of_tree_of m1), <- (Metadata_of_tree_of m2); congruence).
Defined.
#[export] Instance Metadata_countable : Countable Metadata :=
  inj_countable' Metadata_tree Metadata_of_tree Metadata_of_tree_of.

(** what the embedding leaves in a module: the ids of instructions, of the arguments of functions,
    the dependences that leave a function, and the mark of the module *)
Record IRMetadata := mkIRMetadata {
  inst_id : gmap Ptr Metadata;
  args_id : gmap Ptr Metadata;
  pdg_edges : gmap Ptr Metadata;
  module_pdg : option (list Metadata)
}.

Definition strNode (s : string) : Metadata := MDNode [Some (MDString s)].
Definition boolNode (b : bool) : Metadata := strNode (if b then "true" else "false")%string.
Definition idNode (i : Z) : Metadata := MDNode [Some (ConstantAsMetadata i)].

(** [m->getOperand(k)] on a node *)
Definition getOperand (m : Metadata) (k : nat) : Res (option Metadata) :=
  match m with
  | MDNode l => match l !! k with Some o => Ok o | None => Fail AssertionFailure end
  | _ => Fail AssertionFailure
  end.
(** [cast<MDString>(cast<MDNode>(m->getOperand(k))->getOperand(0))->getString()] *)
Definition getString (m : Metadata) (k : nat) : Res string :=
  rbind (getOperand m k) (λ o,
    match o with
    | Some n => rbind (getOperand n 0) (λ o, match o with Some (MDString s) => Ok s | _ => Fail AssertionFailure end)
    | None => Fail AssertionFailure
    end).

Section metadata.
Context {IO : IterOrder} (V : Values).
(** the function of an argument or of an instruction, and the position of an argument *)
Context (functionOf : Ptr → Ptr) (argNo : Ptr → nat).

(** ** Embedding *)

Definition embedNode (st : Z * gmap Ptr Metadata * gmap Ptr (gmap nat (option Metadata)) * IRMetadata) (v : Ptr)
    : Z * gmap Ptr Metadata * gmap Ptr (gmap nat (option Metadata)) * IRMetadata :=
  let '(i, nodeIDMap, functionArgsIDMap, md) := st in
  let m := idNode (u64 i) in
  let '(functionArgsIDMap, md) :=
    if isArgument V v
    then (<[functionOf v := <[argNo v := Some m]> (default ∅ (functionArgsIDMap !! functionOf v))]> functionArgsIDMap, md)
    else if isInstruction V v
    then (functionArgsIDMap, mkIRMetadata (<[v := m]> (inst_id md)) (args_id md) (pdg_edges md) (module_pdg md))
    else (functionArgsIDMap, md) in
  (u64 (i + 1), <[v := m]> nodeIDMap, functionArgsIDMap, md).

(** [for (i = 0; i < m.size(); i++) argsVec.push_back(m[i])]: a missing key is added with null. Past
    the largest key nothing is missing, so the fuel is enough. *)
Fixpoint argsVecFrom (fuel i : nat) (m : gmap nat (option Metadata)) : Res (list (option Metadata)) :=
  if decide (i < size m) then
    match fuel with
    | O => Fail OutOfFuel
    | S fuel =>
        let m := match m !! i with Some _ => m | None => <[i := None]> m end in
        rbind (argsVecFrom fuel (S i) m) (λ r, Ok (default None (m !! i) :: r))
    end
  else Ok [].
Definition argsVec (m : gmap nat (option Metadata)) : Res (list (option Metadata)) :=
  argsVecFrom (S (max_list (map_to_list m).*1)) 0 m.

Definition embedNodesAsMetadata (md : IRMetadata) : M GSt (gmap Ptr Metadata * IRMetadata) :=
  let* values := getSortedValues in
  let '(_, nodeIDMap, functionArgsIDMap, md) := foldl embedNode (0%Z, ∅, ∅, md) values in
  let* md := lift (foldR (λ md F,
    rbind (argsVec (default ∅ (functionArgsIDMap !! F))) (λ argsVec,
      Ok (mkIRMetadata (inst_id md) (<[F := MDNode argsVec]> (args_id md)) (pdg_edges md) (module_pdg md))))
    md (visit (dom functionArgsIDMap))) in
  ret (nodeIDMap, md).

(** the name of the type of a dependence, and the attributes that a dependence and its sub-edges share *)
Definition dataDepName (x : DGEdge) : Res string :=
  if DataDependence_classof x then dataDepString x else Ok "NONE"%string.
Definition attributes (x : DGEdge) (dataDepType : string) : list (option Metadata) :=
  [Some (boolNode (MemoryDependence_classof x)); Some (boolNode (MustMemoryDependence_classof x));
   Some (strNode dataDepType); Some (boolNode (ControlDependence_classof x));
   Some (boolNode (isLoopCarriedDependence x))].

Definition getSubEdgesMetadata (x : DGEdge) (nodeIDMap : gmap Ptr Metadata) : M Heap Metadata :=
  let* dataDepType := lift (dataDepName x) in
  let* subEdgesVec := mapM (λ p,
    let* subEdge := load_edge p in
    let* src := getSrc subEdge in
    let* dst := getDst subEdge in
    ret (Some (MDNode ([nodeIDMap !! src; nodeIDMap !! dst] ++ attributes x dataDepType))))
    (visit (getSubEdges x)) in
  ret (MDNode subEdgesVec).

Definition getEdgeMetadata (x : DGEdge) (nodeIDMap : gmap Ptr Metadata) : M Heap Metadata :=
  let* dataDepType := lift (dataDepName x) in
  let* src := getSrc x in
  let* dst := getDst x in
  let* subEdges := getSubEdgesMetadata x nodeIDMap in
  ret (MDNode ([nodeIDMap !! src; nodeIDMap !! dst] ++ attributes x dataDepType ++ [Some subEdges])).

(** one dependence *)
Definition embedEdge (nodeIDMap : gmap Ptr Metadata) (functionEdgesMap : gmap Ptr (list (option Metadata))) (e : Ptr)
    : M Heap (gmap Ptr (list (option Metadata))) :=
  let* edge := load_edge e in
  if negb (MemoryDependence_classof edge) then ret functionEdgesMap
  else
    let* edgeM := getEdgeMetadata edge nodeIDMap in
    let* src := getSrc edge in
    if isArgument V src || isInstruction V src
    then ret (<[functionOf src := default [] (functionEdgesMap !! functionOf src) ++ [Some edgeM]]> functionEdgesMap)
    else fail Aborted.

Definition embedEdgesAsMetadata (nodeIDMap : gmap Ptr Metadata) (md : IRMetadata) : M GSt IRMetadata :=
  let* edges := getSortedDependences in
  let* functionEdgesMap := on_heap (foldM (embedEdge nodeIDMap) ∅ edges) in
  ret (foldl (λ md F, mkIRMetadata (inst_id md) (args_id md)
                        (<[F := MDNode (default [] (functionEdgesMap !! F))]> (pdg_edges md)) (module_pdg md))
         md (visit (dom functionEdgesMap))).

Definition embedPDGAsMetadata (md : IRMetadata) : M GSt IRMetadata :=
  let* r := embedNodesAsMetadata md in
  let '(nodeIDMap, md) := r in
  let* md := embedEdgesAsMetadata nodeIDMap md in
  ret (mkIRMetadata (inst_id md) (args_id md) (pdg_edges md)
         (Some (default [] (module_pdg md) ++ [strNode "true"%string]))).

(** ** Removal *)

(** the functions of the module with their addresses *)
Context (functions : list (Ptr * GenFunction)).

Definition cleanPDGMetadata (md : IRMetadata) : IRMetadata :=
  let md := foldl (λ md F,
    mkIRMetadata (foldl (λ m i, delete i m) (inst_id md) (instructions (gf_cfg F.2)))
      (delete F.1 (args_id md)) (delete F.1 (pdg_edges md)) (module_pdg md)) md functions in
  mkIRMetadata (inst_id md) (args_id md) (pdg_edges md) None.

Definition cleanAndEmbedPDGAsMetadata (md : IRMetadata) : M GSt IRMetadata :=
  embedPDGAsMetadata (cleanPDGMetadata md).

(** ** Construction *)

Definition hasPDGAsMetadata (md : IRMetadata) : Res bool :=
  match module_pdg md with
  | None => Ok false
  | Some [] => Fail AssertionFailure
  | Some (m :: _) =>
      rbind (getOperand m 0) (λ o,
        match o with Some (MDString s) => Ok (bool_decide (s = "true"%string)) | _ => Fail AssertionFailure end)
  end.

Definition constructNodesFromMetadata (md : IRMetadata) (F : Ptr * GenFunction) (IDNodeMap : gmap Metadata Ptr)
    : Res (gmap Metadata Ptr) :=
  rbind (match args_id md !! F.1 with
         | None => Ok IDNodeMap
         | Some argsM =>
             foldR (λ (IDNodeMap : gmap Metadata Ptr) arg,
               rbind (getOperand argsM (argNo arg)) (λ o,
                 match o with
                 | None => Fail AssertionFailure
                 | Some (MDNode l) => Ok (<[MDNode l := arg]> IDNodeMap)
                 | Some _ => Ok IDNodeMap
                 end)) IDNodeMap (gf_args F.2)
         end) (λ IDNodeMap,
  Ok (foldl (λ (IDNodeMap : gmap Metadata Ptr) I,
        match inst_id md !! I with Some m => <[m := I]> IDNodeMap | None => IDNodeMap end)
      IDNodeMap (instructions (gf_cfg F.2)))).

(** [constructEdgeFromMetadata]: the address of the new object, null when an end is not a node. An id
    that no value has stands for a null value, which has no node; the object would have a null
    vertex, which the code follows. *)
Definition constructEdgeFromMetadata (edgeM : Metadata) (IDNodeMap : gmap Metadata Ptr) : M GSt (option Ptr) :=
  let* fromM := lift (getOperand edgeM 0) in
  let* fromM := (match fromM with Some m => ret m | None => fail AssertionFailure end) in
  let* toM := (match fromM with MDNode _ => lift (getOperand edgeM 1) | _ => ret None end) in
  match fromM, toM with
  | MDNode _, None => fail AssertionFailure
  | MDNode _, Some (MDNode l) =>
      let toM := MDNode l in
      let* isMemoryDependence := lift (getString edgeM 2) in
      let* isControl := lift (getString edgeM 5) in
      let* isLoopCarried := lift (getString edgeM 6) in
      let nodes :=
        (let* from := deref (IDNodeMap !! fromM) in
         let* to := deref (IDNodeMap !! toM) in
         let* fromNode := fetchNode from in
         let* toNode := fetchNode to in
         let* f := deref fromNode in
         let* t := deref toNode in
         ret (f, t)) in
      let* edge :=
        (if bool_decide (isControl = "true"%string) then
           let* n := nodes in ret (ControlDependence_new n.1 n.2)
         else
           let* dataDepTypeString := lift (getString edgeM 4) in
           let* dataDepType := lift (stringToDataDep dataDepTypeString) in
           if bool_decide (isMemoryDependence = "true"%string) then
             let* isMust := lift (getString edgeM 3) in
             let* n := nodes in
             ret (if bool_decide (isMust = "true"%string) then MustMemoryDependence_new n.1 n.2 dataDepType
                  else MayMemoryDependence_new n.1 n.2 dataDepType)
           else
             let* n := nodes in ret (VariableDependence_new n.1 n.2 dataDepType)) in
      let* p := on_heap (new_edge (setLoopCarried (bool_decide (isLoopCarried = "true"%string)) edge)) in
      ret (Some p)
  | _, _ => ret None
  end.

(** the sub-edges of the dependence at [edge] *)
Definition constructSubEdges (IDNodeMap : gmap Metadata Ptr) (edge : Ptr) (operands : list (option Metadata)) : M GSt unit :=
  forM (λ subOperand,
    match subOperand with
    | None => fail AssertionFailure
    | Some (MDNode l) =>
        let* subEdge := constructEdgeFromMetadata (MDNode l) IDNodeMap in
        let* subEdge := deref subEdge in
        on_heap (addSubEdgeTo edge subEdge)
    | Some _ => ret tt
    end) operands.

(** one operand of the metadata of the edges of a function *)
Definition constructEdgeOfOperand (IDNodeMap : gmap Metadata Ptr) (operand : option Metadata) : M GSt unit :=
  match operand with
  | None => fail AssertionFailure
  | Some (MDNode l) =>
      let* edge := constructEdgeFromMetadata (MDNode l) IDNodeMap in
      let* subEdgesM := lift (getOperand (MDNode l) 7) in
      (match subEdgesM with
       | None => fail AssertionFailure
       | Some (MDNode []) => ret tt
       | Some (MDNode subOperands) => let* edge := deref edge in constructSubEdges IDNodeMap edge subOperands
       | Some _ => ret tt
       end) ;;;
      let* edge := deref edge in
      copyAddEdge edge ;;;
      on_heap (delete_edge edge)
  | Some _ => ret tt
  end.

Definition constructEdgesFromMetadata (md : IRMetadata) (F : Ptr * GenFunction) (IDNodeMap : gmap Metadata Ptr) : M GSt unit :=
  match pdg_edges md !! F.1 with
  | None => ret tt
  | Some (MDNode operands) => forM (constructEdgeOfOperand IDNodeMap) operands
  | Some _ => fail AssertionFailure
  end.

Definition constructPDGFromMetadata (md : IRMetadata) (getPDT : GenFunction → PostDominatorTree)
    (mainF : option GenFunction) : M GSt unit :=
  PDG_ofModule (mkModule (pdgFunction <$> functions.*2) (pdgFunction <$> mainF)) ;;;
  foldM (λ IDNodeMap F,
    let* IDNodeMap := lift (constructNodesFromMetadata md F IDNodeMap) in
    constructEdgesFromMetadata md F IDNodeMap ;;;
    ret IDNodeMap) ∅ functions ;;;
  constructEdgesFromUseDefs V ;;;
  constructEdgesFromControl V getPDT functions.*2.
End metadata.
