(* ===== verification/PDGCompare.v ===== *)
(** * Comparing two program dependence graphs, and the graph of a module (src/core/pdg_generator)

    [comparePDGs] (PDGGenerator_compare.cpp) and [getPDG] (PDGGenerator.cpp), which builds the graph
    once, from the metadata of the module or from the analyses. *)
From S2P Require Import Prelude DGEdge DGNode DGBase PDG PDGMetadata.

Section compare.
Context {IO : IterOrder}.

(** the heap and the two graphs *)
Abbreviation CSt := (Heap * (DG * DG))%type.
Definition on_pdg1 {A} (m : M GSt A) : M CSt A := zoom (λ s : CSt, (s.1, s.2.1)) (λ t s, (t.1, (t.2, s.2.2))) m.
Definition on_pdg2 {A} (m : M GSt A) : M CSt A := zoom (λ s : CSt, (s.1, s.2.2)) (λ t s, (t.1, (s.2.1, t.2))) m.

(** is the value of a node of the first graph missing in the graph of the state? *)
Definition nodeIsMissing (node : Ptr) : M GSt bool :=
  let* n := on_heap (load_node node) in
  let* r := fetchNode (getT n) in
  ret (bool_decide (r = None)).

Definition compareNodes : M CSt bool :=
  let* s := get in
  let '(pdg1, pdg2) := s.2 in
  if decide (numNodes pdg1 ≠ numNodes pdg2) then ret false
  else
    let* missing := on_pdg2 (anyM nodeIsMissing (visit (allNodes pdg1))) in
    ret (negb missing).

(** is the second dependence like the first? *)
Definition sameDependence (edge1 edge2 : DGEdge) : bool :=
  bool_decide (getKind edge1 = getKind edge2) &&
  Bool.eqb (isLoopCarriedDependence edge1) (isLoopCarriedDependence edge2) &&
  (if DataDependence_classof edge1 then bool_decide (dataDepType edge1 = dataDepType edge2) else true).

(** is a dependence of the first graph missing in the graph of the state? *)
Definition dependenceIsMissing (e : Ptr) : M GSt bool :=
  let* edge1 := on_heap (load_edge e) in
  let* src := on_heap (getSrc edge1) in
  let* dst := on_heap (getDst edge1) in
  let* edgeSet := getDependences src dst in
  if decide (edgeSet = ∅) then ret true
  else
    let* found := on_heap (anyM (λ e2, let* edge2 := load_edge e2 in ret (sameDependence edge1 edge2)) (visit edgeSet)) in
    ret (negb found).

(** the dependences of [pdg1] in the graph of the state *)
Definition compareEdgesInto (pdg1 : DG) : M GSt bool :=
  let* missing := anyM dependenceIsMissing (visit (allEdges pdg1)) in
  ret (negb missing).

Definition compareEdges : M CSt bool :=
  let* s := get in
  let '(pdg1, pdg2) := s.2 in
  if decide (getNumberOfDependencesBetweenInstructions pdg1 ≠ getNumberOfDependencesBetweenInstructions pdg2) then
    on_pdg2 (compareEdgesInto pdg1) ;;;
    let* s := get in
    on_pdg1 (compareEdgesInto s.2.2) ;;;
    ret false
  else on_pdg2 (compareEdgesInto pdg1).

Definition comparePDGs : M CSt bool :=
  let* b := compareNodes in
  if b : bool then compareEdges else ret false.

(** ** The graph of the module *)

(** the heap and the member [programDependenceGraph] *)
Abbreviation GenSt := (Heap * option DG)%type.

(** a new graph *)
Definition newPDG (construct : M GSt unit) : M GenSt DG :=
  let* s := get in
  match construct (s.1, DG_new) with
  | Ok (t, _) => put (t.1, s.2) ;;; ret t.2
  | Fail e => fail e
  end.

(** the graph [pdg] is compared with the one of the generator, in this order or in the other, and deleted *)
Definition checkAgainst (pdg : DG) (pdgIsFirst : bool) : M GenSt unit :=
  let* s := get in
  let* g := deref s.2 in
  match comparePDGs (s.1, if pdgIsFirst then (pdg, g) else (g, pdg)) with
  | Fail e => fail e
  | Ok (t, arePDGsEquivalent) =>
      let '(pdg, g) := if pdgIsFirst then (t.2.1, t.2.2) else (t.2.2, t.2.1) in
      put (t.1, Some g) ;;;
      if negb arePDGsEquivalent then fail Aborted
      else
        match PDG_destroy (t.1, pdg) with
        | Fail e => fail e
        | Ok (t, _) => put (t.1, Some g)
        end
  end.

Definition getPDG (md : IRMetadata) (performThePDGComparison : bool) (constructPDGFromAnalysis constructPDGFromMetadata : M GSt unit)
    : M GenSt DG :=
  let* s := get in
  match s.2 with
  | Some programDependenceGraph => ret programDependenceGraph
  | None =>
      let* hasPDG := lift (hasPDGAsMetadata md) in
      (if hasPDG : bool then
         let* g := newPDG constructPDGFromMetadata in
         modify (λ s : GenSt, (s.1, Some g)) ;;;
         if performThePDGComparison then
           let* PDGFromAnalysis := newPDG constructPDGFromAnalysis in
           checkAgainst PDGFromAnalysis true
         else ret tt
       else
         let* g := newPDG constructPDGFromAnalysis in
         modify (λ s : GenSt, (s.1, Some g)) ;;;
         let* hasPDG := lift (hasPDGAsMetadata md) in
         if performThePDGComparison && hasPDG then
           let* PDGFromMetadata := newPDG constructPDGFromMetadata in
           checkAgainst PDGFromMetadata false
         else ret tt) ;;;
      let* s := get in
      deref s.2
  end.
End compare.
