(* ===== verification/PDGGrowth.v ===== *)
(** * Adding edges to a dependence graph

    What a computation that only adds edges between values of a graph does to the abstract graph
    of DGSpec, with rules that compose such computations. *)
From S2P Require Import Prelude DGEdge DGNode DGBase DGInvariant DGSpec PDGGenerator.

(** [A'] is [A] with the edges [l], each under an address of its own *)
Record grown (A : AGraph) (l : list AEdge) (A' : AGraph) : Prop := {
  gr_internal : a_internal A' = a_internal A;
  gr_external : a_external A' = a_external A;
  gr_count : a_count A' = a_count A;
  gr_edges : ∃ new, a_edges A' = a_edges A ∪ new ∧ a_edges A ##ₘ new ∧ (map_to_list new).*2 ≡ₚ l
}.

Lemma grown_nil A : grown A [] A.
Proof.
  split; try done. exists ∅. rewrite map_union_empty, map_to_list_empty.
  split_and!; [done|apply map_disjoint_empty_r|done].
Qed.

Lemma grown_perm A l l' A' : l ≡ₚ l' → grown A l A' → grown A l' A'.
Proof. intros Hl [H1 H2 H3 (new & ? & ? & ?)]. split; try done. exists new. split_and!; [done..|]. by rewrite <- Hl. Qed.

Lemma grown_values A l A' : grown A l A' → a_values A' = a_values A.
Proof. intros [H1 H2 _ _]. unfold a_values. by rewrite H1, H2. Qed.

Lemma map_to_list_disjoint_union {A} (m1 m2 : gmap Ptr A) : m1 ##ₘ m2 →
  map_to_list (m1 ∪ m2) ≡ₚ map_to_list m1 ++ map_to_list m2.
Proof.
  intros D. apply NoDup_Permutation.
  - apply NoDup_map_to_list.
  - apply NoDup_app. split_and!; [apply NoDup_map_to_list| |apply NoDup_map_to_list].
    intros [i x] H1%elem_of_map_to_list H2%elem_of_map_to_list. by eapply (map_disjoint_spec m1 m2).
  - intros [i x]. rewrite elem_of_app, !elem_of_map_to_list. by apply lookup_union_Some.
Qed.

Lemma grown_trans A l A' l' A'' : grown A l A' → grown A' l' A'' → grown A (l ++ l') A''.
Proof.
  intros [H1 H2 H3 (n1 & E1 & D1 & P1)] [K1 K2 K3 (n2 & E2 & D2 & P2)]. split; try congruence.
  rewrite E1 in D2. apply map_disjoint_union_l in D2 as [D2 D12].
  exists (n1 ∪ n2). rewrite E2, E1, <- (assoc_L (∪)). split; [done|]. split; [by apply map_disjoint_union_r|].
  by rewrite map_to_list_disjoint_union, fmap_app, P1, P2.
Qed.

Lemma grown_step A c A' x : a_step A c A' → call_edge c = Some x → grown A [x] A'.
Proof.
  intros Hs Hc. inversion Hs as [? ? ? [-> | ->]| |? x' e Hc' _ _ He| | | |]; subst; try done.
  rewrite Hc in Hc'. injection Hc' as <-. split; try done. exists {[e := x]}. cbn [a_edges].
  split; [by rewrite <- insert_union_singleton_r|]. split; [by apply map_disjoint_singleton_r|].
  by rewrite map_to_list_singleton.
Qed.

(** the values of the edges *)
Lemma elem_of_grown A l A' x : grown A l A' →
  (∃ e, a_edges A' !! e = Some x) ↔ (∃ e, a_edges A !! e = Some x) ∨ x ∈ l.
Proof.
  intros [_ _ _ (new & -> & D & P)]. rewrite <- P, list_elem_of_fmap. setoid_rewrite lookup_union_Some; [|done]. split.
  - intros (e & [He|He]); [eauto|]. right. exists (e, x). split; [done|]. by apply elem_of_map_to_list.
  - intros [(e & He)|([e x'] & -> & He)]; [eauto|]. exists e. right. by apply elem_of_map_to_list.
Qed.

Lemma grown_kept A l A' e x : grown A l A' → a_edges A !! e = Some x → a_edges A' !! e = Some x.
Proof. intros [_ _ _ (new & -> & D & _)] He. by apply lookup_union_Some_l. Qed.

Definition ends_in (vals : gset Ptr) (x : AEdge) : Prop := a_src x ∈ vals ∧ a_dst x ∈ vals.

Section adds.
Context {IO : IterOrder}.

(** [m] adds the edges [l] to every graph that has their ends *)
Definition adds (m : M GSt unit) (l : list AEdge) : Prop :=
  ∀ h g A, rep h g A → Forall (ends_in (a_values A)) l →
    wp m (λ _ s', ∃ A', rep s'.1 s'.2 A' ∧ grown A l A') (h, g).

Lemma adds_ret : adds (ret tt) [].
Proof. intros h g A R _. apply wp_ret. exists A. split; [done|apply grown_nil]. Qed.

Lemma adds_perm m l l' : l ≡ₚ l' → adds m l → adds m l'.
Proof.
  intros Hp H h g A R Hl. eapply wp_mono; [apply H; [done|by rewrite Hp]|].
  intros [] s' (A' & ? & ?). exists A'. split; [done|]. by eapply grown_perm.
Qed.

Lemma adds_bind m1 m2 l1 l2 : adds m1 l1 → adds m2 l2 → adds (m1 ;;; m2) (l1 ++ l2).
Proof.
  intros H1 H2 h g A R [Hl1 Hl2]%Forall_app. apply wp_bind. eapply wp_mono; [by apply H1|].
  intros [] [h1 g1] (A1 & R1 & G1). eapply wp_mono; [apply (H2 h1 g1 A1 R1); by rewrite (grown_values _ _ _ G1)|].
  intros [] s' (A2 & R2 & G2). exists A2. split; [done|]. by eapply grown_trans.
Qed.

Lemma adds_forM {B} (f : B → M GSt unit) (F : B → list AEdge) (l : list B) :
  (∀ x, x ∈ l → adds (f x) (F x)) → adds (forM f l) (l ≫= F).
Proof.
  induction l as [|x l IH]; intros H; [apply adds_ret|]. apply adds_bind; [apply H; set_solver|].
  apply IH. intros y Hy. apply H. set_solver.
Qed.

(** the calls that add an edge *)
Lemma adds_memory src dst t must :
  adds (addMemoryDataDependenceEdge src dst t must ;;; ret tt)
    [mkAEdge src dst (if must then MUST_MEMORY_DEPENDENCE else MAY_MEMORY_DEPENDENCE) (Some t)].
Proof.
  intros h g A R Hl. apply Forall_singleton in Hl as [Hs Hd]. apply wp_bind.
  eapply wp_mono; [apply (addEdge_simulates h g A (CallAddMemory src dst t must) src dst _ _ R eq_refl); try done; by destruct must|].
  intros e s' (A' & Hst & R'). apply wp_ret. exists A'. split; [done|]. exact (grown_step _ _ _ _ Hst eq_refl).
Qed.

Lemma adds_variable src dst t :
  adds (addVariableDataDependenceEdge src dst t ;;; ret tt) [mkAEdge src dst VARIABLE_DEPENDENCE (Some t)].
Proof.
  intros h g A R Hl. apply Forall_singleton in Hl as [Hs Hd]. apply wp_bind.
  eapply wp_mono; [by apply (addEdge_simulates h g A (CallAddVariable src dst t) src dst _ _ R eq_refl)|].
  intros e s' (A' & Hst & R'). apply wp_ret. exists A'. split; [done|]. exact (grown_step _ _ _ _ Hst eq_refl).
Qed.

(** objects that are not edges of the graph do not matter *)
Lemma rep_other_edges h h' g A : rep h g A → heap_ok h' → hnodes h' = hnodes h →
  (∀ e, e ∈ allEdges g → hedges h' !! e = hedges h !! e) → rep h' g A.
Proof.
  intros R Hok Hn He. pose proof (rep_wf _ _ _ R) as W. split; try apply R.
  - split; rewrite ?Hn; try apply W.
    + done.
    + intros e Hin. rewrite He by done. by apply W.
    + intros n x e H1 H2. rewrite (wf_out _ _ W n x e H1 H2). apply and_iff_under. intros Hin. by rewrite He.
    + intros n x e H1 H2. rewrite (wf_in _ _ W n x e H1 H2). apply and_iff_under. intros Hin. by rewrite He.
  - intros e. rewrite (rep_edges _ _ _ R). unfold edge_view. case_decide; [|done]. by rewrite He, Hn.
Qed.

(** an edge object that is copied into the graph and destroyed *)
Lemma copied_object_run h g A src dst f t y : rep h g A → node_of g src f → node_of g dst t → from y = f → to y = t →
  edge_class_ok y → kind y ≠ UNDEFINED_DEPENDENCE → getSubEdges y = ∅ →
  wp (let* edge := on_heap (new_edge y) in copyAddEdge edge ;;; on_heap (delete_edge edge))
    (λ _ s', ∃ A', rep s'.1 s'.2 A' ∧ grown A [mkAEdge src dst (kind y) (dataDepType y)] A') (h, g).
Proof.
  intros R Hf Ht Yf Yt Yc Yu Ys. pose proof (rep_wf _ _ _ R) as W. dg_steps.
  set (tmp := nextAddr h). set (h1 := mkHeap (hnodes h) (<[tmp := y]> (hedges h)) (Pos.succ tmp)).
  destruct (wf_map _ _ W _ _ Hf) as (_ & xf & Hxf & Ef), (wf_map _ _ W _ _ Ht) as (_ & xt & Hxt & Et).
  assert (tmp ∉ allEdges g) as Htmp by by apply wf_fresh_edge.
  assert (rep h1 g A) as R1.
  { apply (rep_other_edges h); [done| |done|].
    - destruct (wf_heap _ _ W) as [O1 O2]. split; simpl; [intros p ?%O1; unfold tmp; lia|].
      intros p [<-|?%O2]%lookup_insert_is_Some'; unfold tmp; lia.
    - intros e He. simpl. rewrite lookup_insert_ne; [done|]. by intros <-. }
  pose proof (rep_wf _ _ _ R1) as W1. eapply wp_mono.
  { apply (copyAddEdge_spec h1 g tmp y xf xt f t W1); try done.
    - simpl. by rewrite lookup_insert_eq.
    - rewrite Ys. by intros p ?%elem_of_empty.
    - by rewrite Yf.
    - by rewrite Yt.
    - by rewrite Ef.
    - by rewrite Et. }
  intros e [h2 g2] (-> & c & E2 & C1 & C2 & C3 & C4 & _). apply wp_on_heap, wp_delete_edge.
  destruct (added_edge_rep h1 g A (mkAEdge src dst (kind y) (dataDepType y)) f t c R1) as [Hnew R2]; [done..|].
  rewrite <- E2 in R2. cbn [fst snd] in *. eexists. split.
  - apply (rep_other_edges h2); [exact R2| |done|].
    + pose proof (wf_heap _ _ (rep_wf _ _ _ R2)) as [O1 O2]. split; [exact O1|]. simpl. intros p [z [_ Hp]%lookup_delete_Some].
      apply O2. by exists z.
    + intros e He. simpl. apply lookup_delete_ne. intros <-. injection E2 as _ ->. simpl in He.
      apply elem_of_union in He as [He%elem_of_singleton|]; [|done]. revert He. unfold tmp. lia.
  - split; try done. exists {[nextAddr h1 := mkAEdge src dst (kind y) (dataDepType y)]}. cbn [a_edges].
    split; [by rewrite <- insert_union_singleton_r|]. split; [by apply map_disjoint_singleton_r|].
    by rewrite map_to_list_singleton.
Qed.

Lemma adds_control src dst : adds (addControlEdge src dst) [mkAEdge src dst CONTROL_DEPENDENCE None].
Proof.
  intros h g A R Hl. apply Forall_singleton in Hl as [Hs Hd]. pose proof (rep_wf _ _ _ R) as W.
  apply (rep_values _ _ _ _ R) in Hs as [f Hf]. apply (rep_values _ _ _ _ R) in Hd as [t Ht]. cbn [a_src a_dst] in *.
  unfold addControlEdge. apply (wp_bind_run _ _ _ _ _ _ (fetchNode_present _ _ _ _ W Hf)).
  apply (wp_bind_run _ _ _ _ _ _ (fetchNode_present _ _ _ _ W Ht)).
  apply wp_bind, wp_massert. split; [done|]. apply wp_bind, wp_massert. split; [done|].
  apply wp_bind, wp_deref. exists f. split; [done|]. apply wp_bind, wp_deref. exists t. split; [done|].
  by apply (copied_object_run h g A src dst f t (ControlDependence_new f t)).
Qed.
End adds.
