(* ===== verification/PDGModRefSpec.v ===== *)
(** * The memory dependences that are added

    The switches over the answers of the alias analyses compute the meet of what the analyses say,
    and the dependences between two instructions follow from it. *)
From S2P Require Import Prelude DGEdge DGNode DGBase DGSpec PDGValues PDGModRef PDGGrowth.

(** ** What an answer says: may the call read, may it write? *)

Record Effect := mkEffect { mayRef : bool; mayMod : bool }.
Definition anyEffect : Effect := mkEffect true true.
Definition noEffect : Effect := mkEffect false false.
Definition effect_of (a : ModRefInfo) : Effect :=
  onModRef a noEffect (mkEffect true false) (mkEffect false true) anyEffect.
Definition meet (a b : Effect) : Effect := mkEffect (mayRef a && mayRef b) (mayMod a && mayMod b).

(** ** Two calls: the table of the answers *)

(** [markCalls] on the two answers of one analysis *)
Definition markAnswers (forward backward : ModRefInfo) (reachable : bool) (st : Bits * Bits) : option (Bits * Bits) :=
  markCalls (λ x _, if decide (x = 1%positive) then forward else backward) 2 1 reachable st.

Lemma markCalls_answers query call otherCall reachable st :
  markCalls query call otherCall reachable st = markAnswers (query otherCall call) (query call otherCall) reachable st.
Proof. done. Qed.

(** an answer, up to what it means *)
Definition norm (a : ModRefInfo) : ModRefInfo := onModRef a NoModRef Ref Mod ModRef.
Definition answers : list ModRefInfo := [NoModRef; Ref; Mod; ModRef].
Lemma norm_in a : norm a ∈ answers.
Proof. destruct a; set_solver. Qed.
Lemma effect_norm a : effect_of (norm a) = effect_of a.
Proof. by destruct a. Qed.
Lemma markAnswers_norm a b r st : markAnswers a b r st = markAnswers (norm a) (norm b) r st.
Proof. by destruct a, b. Qed.

(** what one analysis says of the two calls: the second on the memory of the first, and back; an
    analysis contradicts itself when the second may read what the first never writes *)
Record CallAnswer := mkCallAnswer { forward : Effect; backward : Effect; contradictory : bool }.
Definition call_answer (a b : ModRefInfo) (reachable : bool) : CallAnswer :=
  let B := if reachable then effect_of b else anyEffect in
  mkCallAnswer (effect_of a) B (mayRef (effect_of a) && mayMod (effect_of a) && mayRef B && negb (mayMod B)).
Definition any_answer : CallAnswer := mkCallAnswer anyEffect anyEffect false.
Definition no_answer : CallAnswer := mkCallAnswer noEffect noEffect false.
Definition meet_answer (x y : CallAnswer) : CallAnswer :=
  mkCallAnswer (meet (forward x) (forward y)) (meet (backward x) (backward y)) (contradictory x || contradictory y).

(** the types of the dependences from the first call to the second. When the first cannot run
    again, no WAR dependence is added if the second may both read and write. *)
Definition types_of (x : CallAnswer) (reachable : bool) : list DataDependenceType :=
  if contradictory x then []
  else
    (if mayRef (forward x) && mayMod (backward x) then [DG_DATA_RAW] else []) ++
    (if mayMod (forward x) && mayMod (backward x) then [DG_DATA_WAW] else []) ++
    (if mayMod (forward x) && mayRef (backward x) && (reachable || negb (mayRef (forward x))) then [DG_DATA_WAR] else []).

Lemma types_of_none x r : types_of (meet_answer x no_answer) r = [].
Proof. unfold types_of. simpl. rewrite !andb_false_r. by destruct (_ || _). Qed.

(** the types that the bits select; [None] is a failed assertion *)
Definition bits_types (bv rbv : Bits) (self : bool) : option (list DataDependenceType) :=
  if b0 bv && b1 bv then Some []
  else if b0 bv then Some (DG_DATA_RAW :: if self then [DG_DATA_WAR] else [])
  else if b1 bv then
    if b0 rbv && b1 rbv then Some []
    else if b0 rbv then Some (if self then [] else [DG_DATA_WAR])
    else if b1 rbv then Some [DG_DATA_WAW]
    else Some (if self then [] else [DG_DATA_WAR; DG_DATA_WAW])
  else if negb (b2 bv) then None
  else if b0 rbv then Some []
  else if b1 rbv then Some (if self then [] else [DG_DATA_RAW; DG_DATA_WAW])
  else if b2 rbv then Some [DG_DATA_RAW; DG_DATA_WAW; DG_DATA_WAR]
  else Some (if self then [] else [DG_DATA_RAW; DG_DATA_WAW]).

(** the outcome of the two analyses, the second when it can be asked *)
Definition outcome (a b s s' : ModRefInfo) (known c reachable self : bool) : option (list DataDependenceType) :=
  match markAnswers a b reachable (noBits, noBits) with
  | None => Some []
  | Some (bv, rbv) =>
      match (if known then markAnswers s s' reachable (if c then set2 bv else bv, rbv)
             else Some (if c then set2 bv else bv, rbv)) with
      | None => Some []
      | Some (bv, rbv) => bits_types bv rbv self
      end
  end.

#[local] Instance answer_eq_dec : EqDecision ModRefInfo.
Proof. solve_decision. Defined.

(** the table, computed; for a call and itself the two answers of an analysis are one *)
Definition row_ok (a b s s' : ModRefInfo) (known c reachable self : bool) : bool :=
  if self && negb (reachable && bool_decide (b = a) && bool_decide (s' = s)) then true
  else
    match outcome a b s s' known c reachable self with
    | None => false
    | Some ts => bool_decide (ts ≡ₚ types_of (meet_answer (call_answer a b reachable)
                   (if known then call_answer s s' reachable else any_answer)) reachable)
    end.
Definition bools : list bool := [true; false].
Lemma table_ok : forallb (λ a, forallb (λ b, forallb (λ s, forallb (λ s', forallb (λ known, forallb (λ c,
  forallb (λ reachable, forallb (λ self, row_ok a b s s' known c reachable self) bools) bools) bools) bools)
  answers) answers) answers) answers = true.
Proof. vm_compute. reflexivity. Qed.

Lemma outcome_norm a b s s' known c reachable self :
  outcome a b s s' known c reachable self = outcome (norm a) (norm b) (norm s) (norm s') known c reachable self.
Proof.
  unfold outcome. rewrite (markAnswers_norm a b). destruct (markAnswers (norm a) (norm b) reachable _) as [[bv rbv]|]; [|done].
  by rewrite (markAnswers_norm s s').
Qed.
Lemma call_answer_norm a b r : call_answer a b r = call_answer (norm a) (norm b) r.
Proof. unfold call_answer. by rewrite !effect_norm. Qed.

Lemma forallb_in {A} (p : A → bool) l x : forallb p l = true → x ∈ l → p x = true.
Proof. rewrite forallb_forall. intros H Hx. apply H. by apply list_elem_of_In. Qed.
Lemma in_bools b : b ∈ bools.
Proof. destruct b; set_solver. Qed.

Lemma outcome_spec a b s s' known c reachable self : (self = true → reachable = true ∧ b = a ∧ s' = s) →
  ∃ ts, outcome a b s s' known c reachable self = Some ts ∧
    ts ≡ₚ types_of (meet_answer (call_answer a b reachable) (if known then call_answer s s' reachable else any_answer)) reachable.
Proof.
  intros Hself. rewrite outcome_norm, (call_answer_norm a), (call_answer_norm s).
  pose proof table_ok as T.
  apply (forallb_in _ _ (norm a)), (forallb_in _ _ (norm b)), (forallb_in _ _ (norm s)), (forallb_in _ _ (norm s')),
    (forallb_in _ _ known), (forallb_in _ _ c), (forallb_in _ _ reachable), (forallb_in _ _ self) in T;
    try apply norm_in; try apply in_bools.
  unfold row_ok in T. destruct self; cbn [andb] in T.
  - destruct Hself as (-> & -> & ->); [done|]. rewrite !bool_decide_true in T by done. cbn [andb negb] in T.
    destruct (outcome _ _ _ _ _ _ _ _) as [ts|]; [|done]. apply bool_decide_eq_true in T. eauto.
  - destruct (outcome _ _ _ _ _ _ _ _) as [ts|]; [|done]. apply bool_decide_eq_true in T. eauto.
Qed.

Section spec.
Context {IO : IterOrder} (V : Values) (AA : AliasAnalysis) (svf : SVFAnalysis) (ddAnalyses : list DependenceAnalysis).
Context (disableSVF : bool) (reachableUnhandled : gmap Ptr (gset Ptr)) (sameLocation : Ptr → Ptr → bool).

Local Abbreviation cannotReach := (cannotReachUnhandledExternalFunction V svf reachableUnhandled).
Local Abbreviation noMemory := (hasNoMemoryOperations V svf disableSVF).
Local Abbreviation excludes := (isThereThisMemoryDataDependenceType ddAnalyses).
Local Abbreviation alias := (doTheyAlias V AA svf disableSVF sameLocation).

(** SVF can be asked about a call *)
Definition svfKnows (call : Ptr) : bool :=
  negb disableSVF &&
  (if svf_hasIndCSCallees svf call then forallb (λ c, negb (mayCallUnhandled V reachableUnhandled c)) (svf_getIndCSCallees svf call)
   else match calledFunction V call with Some c => negb (mayCallUnhandled V reachableUnhandled c) | None => false end).
(** SVF says that a call does not touch memory *)
Definition svfPure (call : Ptr) : bool := negb disableSVF && cannotReach call && noMemory call.

Lemma isSafe_spec call bv :
  isSafeToQueryModRefOfSVF V svf disableSVF reachableUnhandled call bv =
    (svfKnows call, if negb disableSVF && negb (svf_hasIndCSCallees svf call) && negb (bool_decide (is_Some (calledFunction V call)))
                    then set2 bv else bv).
Proof.
  unfold isSafeToQueryModRefOfSVF, svfKnows. destruct disableSVF; [done|]. simpl.
  destruct (svf_hasIndCSCallees svf call); [done|]. simpl. by destruct (calledFunction V call).
Qed.

(** ** Edges *)

Definition memory_edge (src dst : Ptr) (t : DataDependenceType) (must : bool) : AEdge :=
  mkAEdge src dst (if must then MUST_MEMORY_DEPENDENCE else MAY_MEMORY_DEPENDENCE) (Some t).

(** the edge of a type, unless an analysis excludes it *)
Definition unless_excluded (t : DataDependenceType) (fromInst toInst src dst : Ptr) : list AEdge :=
  let '(noDep, mustExist) := excludes t fromInst toInst in if noDep : bool then [] else [memory_edge src dst t mustExist].
Definition may_unless_excluded (t : DataDependenceType) (fromInst toInst src dst : Ptr) : list AEdge :=
  let '(noDep, _) := excludes t fromInst toInst in if noDep : bool then [] else [memory_edge src dst t false].
Definition when (b : bool) (l : list AEdge) : list AEdge := if b then l else [].

Lemma adds_unless t fromInst toInst src dst :
  adds (addUnlessExcluded ddAnalyses t fromInst toInst src dst) (unless_excluded t fromInst toInst src dst).
Proof.
  unfold addUnlessExcluded, unless_excluded. destruct (excludes t fromInst toInst) as [[] must]; [exact adds_ret|exact (adds_memory src dst t must)].
Qed.
Lemma adds_may_unless t fromInst toInst src dst :
  adds (addMayUnlessExcluded ddAnalyses t fromInst toInst src dst) (may_unless_excluded t fromInst toInst src dst).
Proof.
  unfold addMayUnlessExcluded, may_unless_excluded.
  destruct (excludes t fromInst toInst) as [[] must]; [exact adds_ret|exact (adds_memory src dst t false)].
Qed.

(** *** Loads and stores *)

Definition alias_edges (i j : Ptr) (t : DataDependenceType) : list AEdge :=
  match alias i j with NoAlias => [] | MustAlias => [memory_edge i j t true] | _ => [memory_edge i j t false] end.

Lemma adds_alias i j t : adds (addEdgeFromMemoryAlias V AA svf disableSVF sameLocation i j t) (alias_edges i j t).
Proof.
  unfold addEdgeFromMemoryAlias, alias_edges. destruct (alias i j);
    [exact adds_ret|exact (adds_memory i j t false)|exact (adds_memory i j t false)|exact (adds_memory i j t true)].
Qed.

(** *** A call and an access *)

Definition svf_location_effect (call inst : Ptr) : Effect :=
  if svfPure call then noEffect
  else if svfKnows call then effect_of (aa_modref_location (svf_aa svf) call inst) else anyEffect.
(** what a call may do to the location that an instruction accesses *)
Definition location_effect (call inst : Ptr) : Effect :=
  if isDeallocator V call then noEffect
  else meet (effect_of (aa_modref_location AA call inst)) (svf_location_effect call inst).

Definition store_edges (call store : Ptr) (fromCall : bool) : list AEdge :=
  let e := location_effect call store in
  if fromCall then
    when (mayRef e) (unless_excluded DG_DATA_WAR call store call store) ++
    when (mayMod e) (unless_excluded DG_DATA_WAW call store call store)
  else when (negb (isAllocator V call))
    (when (mayRef e) (unless_excluded DG_DATA_RAW call store store call) ++
     when (mayMod e) (unless_excluded DG_DATA_WAW call store store call)).
Definition load_edges (call load : Ptr) (fromCall : bool) : list AEdge :=
  let e := location_effect call load in
  if fromCall then when (mayMod e) (may_unless_excluded DG_DATA_RAW call load call load)
  else when (negb (isAllocator V call) && mayMod e) (may_unless_excluded DG_DATA_WAR call load load call).

Lemma askSVF_spec call bv query :
  askSVF V svf disableSVF reachableUnhandled call bv query =
    if svfPure call then None
    else let bv' := if negb disableSVF && negb (svf_hasIndCSCallees svf call) && negb (bool_decide (is_Some (calledFunction V call)))
                    then set2 bv else bv in
         if svfKnows call then query bv' else Some bv'.
Proof.
  unfold askSVF, svfPure. rewrite isSafe_spec. unfold svfKnows. destruct disableSVF; [done|]. simpl.
  by destruct (cannotReach call && noMemory call).
Qed.

Lemma adds_if (b : bool) m1 m2 l1 l2 : adds m1 l1 → adds m2 l2 → adds (if b then m1 else m2) (if b then l1 else l2).
Proof. by destruct b. Qed.
Lemma adds_when (b : bool) m l : adds m l → adds (if b then m else ret tt) (when b l).
Proof. intros H. destruct b; [exact H|exact adds_ret]. Qed.
Lemma adds_unless_not (b : bool) m l : adds m l → adds (if b then ret tt else m) (when (negb b) l).
Proof. intros H. destruct b; [exact adds_ret|exact H]. Qed.

(** the bits of an access after both analyses, and the effect they stand for *)
Definition bits_effect (bv : Bits) : Effect :=
  if b0 bv && b1 bv then noEffect else mkEffect (b0 bv || negb (b1 bv)) (negb (b0 bv)).

(** the marks of the two analyses of a store stand for the meet of their answers *)
Lemma mark_store_meet a a' bv (c : bool) : markStore a noBits = Some bv →
  match markStore a' (if c then set2 bv else bv) with
  | None => effect_of a' = noEffect
  | Some bv' => bits_effect bv' = meet (effect_of a) (effect_of a') ∧ effect_of a' ≠ noEffect
  end.
Proof. destruct a; intros [= <-]; destruct c, a'; vm_compute; done. Qed.

Lemma bits_set2 bv : bits_effect (set2 bv) = bits_effect bv.
Proof. done. Qed.
Lemma mark_store_effect a : match markStore a noBits with
  | None => effect_of a = noEffect | Some bv => bits_effect bv = effect_of a end.
Proof. by destruct a. Qed.

Lemma meet_no_l e : meet noEffect e = noEffect.
Proof. done. Qed.
Lemma meet_no_r e : meet e noEffect = noEffect.
Proof. unfold meet. simpl. by rewrite !andb_false_r. Qed.
Lemma meet_any_r e : meet e anyEffect = e.
Proof. destruct e. unfold meet. simpl. by rewrite !andb_true_r. Qed.

Lemma store_edges_none call store b : location_effect call store = noEffect → store_edges call store b = [].
Proof. unfold store_edges. intros ->. by destruct b, (isAllocator V call). Qed.
Lemma load_edges_none call load b : mayMod (location_effect call load) = false → load_edges call load b = [].
Proof. unfold load_edges. intros ->. rewrite andb_false_r. by destruct b. Qed.

(** the edges of a store, from the bits *)
Lemma adds_store_bits call store (fromCall : bool) bv : bits_effect bv = location_effect call store →
  adds (if b0 bv && b1 bv then ret tt
        else
          (if b0 bv || negb (b1 bv) then
             if fromCall then addUnlessExcluded ddAnalyses DG_DATA_WAR call store call store
             else if negb (isAllocator V call) then addUnlessExcluded ddAnalyses DG_DATA_RAW call store store call else ret tt
           else ret tt) ;;;
          (if negb (b0 bv) then
             if fromCall then addUnlessExcluded ddAnalyses DG_DATA_WAW call store call store
             else if negb (isAllocator V call) then addUnlessExcluded ddAnalyses DG_DATA_WAW call store store call else ret tt
           else ret tt))
    (store_edges call store fromCall).
Proof.
  intros E. unfold bits_effect in E. destruct (b0 bv && b1 bv); [by rewrite store_edges_none; [exact adds_ret|]|].
  unfold store_edges. rewrite <- E. cbn [mayRef mayMod]. destruct fromCall.
  - apply adds_bind; apply adds_when, adds_unless.
  - destruct (negb (isAllocator V call)); cbn [when].
    + apply adds_bind; apply adds_when, adds_unless.
    + destruct (b0 bv || negb (b1 bv)), (negb (b0 bv)); exact (adds_bind _ _ [] [] adds_ret adds_ret).
Qed.

Lemma adds_store call store fromCall :
  adds (addEdgeFromFunctionModRef_store V AA svf ddAnalyses disableSVF reachableUnhandled call store fromCall)
    (store_edges call store fromCall).
Proof.
  unfold addEdgeFromFunctionModRef_store.
  assert (location_effect call store = if isDeallocator V call then noEffect
    else meet (effect_of (aa_modref_location AA call store)) (svf_location_effect call store)) as EL by done.
  destruct (isDeallocator V call); [rewrite store_edges_none; [exact adds_ret|done]|].
  pose proof (mark_store_effect (aa_modref_location AA call store)) as Ea.
  pose proof (mark_store_meet (aa_modref_location AA call store) (aa_modref_location (svf_aa svf) call store)) as Em.
  destruct (markStore (aa_modref_location AA call store) noBits) as [bv|];
    [|rewrite store_edges_none; [exact adds_ret|by rewrite EL, Ea]].
  rewrite askSVF_spec. unfold svf_location_effect in EL.
  destruct (svfPure call); [rewrite store_edges_none; [exact adds_ret|by rewrite EL, meet_no_r]|].
  set (c := negb disableSVF && negb _ && negb _). specialize (Em bv c eq_refl).
  destruct (svfKnows call).
  - destruct (markStore (aa_modref_location (svf_aa svf) call store) (if c then set2 bv else bv)) as [bv'|].
    + apply (adds_store_bits call store fromCall bv'). rewrite EL. apply Em.
    + rewrite store_edges_none; [exact adds_ret|]. by rewrite EL, Em, meet_no_r.
  - apply (adds_store_bits call store fromCall (if c then set2 bv else bv)). rewrite EL, meet_any_r, <- Ea. by destruct c.
Qed.

Lemma adds_load call load fromCall :
  adds (addEdgeFromFunctionModRef_load V AA svf ddAnalyses disableSVF reachableUnhandled call load fromCall)
    (load_edges call load fromCall).
Proof.
  unfold addEdgeFromFunctionModRef_load.
  assert (location_effect call load = if isDeallocator V call then noEffect
    else meet (effect_of (aa_modref_location AA call load)) (svf_location_effect call load)) as EL by done.
  destruct (isDeallocator V call); [rewrite load_edges_none; [exact adds_ret|by rewrite EL]|].
  assert (∀ a bv, match markLoad a bv with None => mayMod (effect_of a) = false | Some _ => mayMod (effect_of a) = true end) as Hm
    by by intros [].
  pose proof (Hm (aa_modref_location AA call load) noBits) as Ha.
  destruct (markLoad (aa_modref_location AA call load) noBits) as [bv|];
    [|rewrite load_edges_none; [exact adds_ret|by rewrite EL; simpl; rewrite Ha]].
  assert (mayMod (location_effect call load) = true → adds
    (if fromCall then addMayUnlessExcluded ddAnalyses DG_DATA_RAW call load call load
     else if negb (isAllocator V call) then addMayUnlessExcluded ddAnalyses DG_DATA_WAR call load load call else ret tt)
    (load_edges call load fromCall)) as Hyes.
  { unfold load_edges. intros ->. rewrite andb_true_r. destruct fromCall; [apply adds_may_unless|].
    apply adds_when, adds_may_unless. }
  rewrite askSVF_spec. unfold svf_location_effect in EL.
  destruct (svfPure call); [rewrite load_edges_none; [exact adds_ret|by rewrite EL, meet_no_r]|].
  set (c := negb disableSVF && negb _ && negb _). cbn zeta.
  pose proof (Hm (aa_modref_location (svf_aa svf) call load) (if c then set2 bv else bv)) as Hs. destruct (svfKnows call).
  - destruct (markLoad (aa_modref_location (svf_aa svf) call load) _).
    + apply Hyes. rewrite EL. simpl. by rewrite Ha, Hs.
    + rewrite load_edges_none; [exact adds_ret|]. rewrite EL. simpl. by rewrite Hs, andb_false_r.
  - apply Hyes. by rewrite EL, meet_any_r.
Qed.

(** *** Two calls *)

Definition svf_call_answer (call otherCall : Ptr) (reachable : bool) : CallAnswer :=
  if svfPure call || svfPure otherCall then no_answer
  else if svfKnows call && svfKnows otherCall
  then call_answer (aa_modref_call (svf_aa svf) otherCall call) (aa_modref_call (svf_aa svf) call otherCall) reachable
  else any_answer.
Definition calls_answer (call otherCall : Ptr) (reachable : bool) : CallAnswer :=
  meet_answer (call_answer (aa_modref_call AA otherCall call) (aa_modref_call AA call otherCall) reachable)
    (svf_call_answer call otherCall reachable).

(** an allocation and a release of different memory, or two allocations *)
Definition unrelated_calls (call otherCall : Ptr) : bool :=
  (isAllocator V call && isAllocator V otherCall && negb (isReallocator V call) && negb (isReallocator V otherCall)) ||
  match (if isAllocator V otherCall then Some otherCall else if isAllocator V call then Some call else None),
        (if isDeallocator V otherCall then Some otherCall else if isDeallocator V call then Some call else None) with
  | Some a, Some d => match callOperands V d with o :: _ => bool_decide (alias a o = NoAlias) | [] => false end
  | _, _ => false
  end.

Definition calls_edges (call otherCall : Ptr) (reachable : bool) : list AEdge :=
  if unrelated_calls call otherCall then []
  else types_of (calls_answer call otherCall reachable) reachable ≫= λ t, unless_excluded t call otherCall call otherCall.

Lemma adds_bits call otherCall bv rbv ts : bits_types bv rbv (bool_decide (otherCall = call)) = Some ts →
  adds (addCallEdges ddAnalyses call otherCall bv rbv) (ts ≫= λ t, unless_excluded t call otherCall call otherCall).
Proof.
  unfold bits_types, addCallEdges, addModRefEdges. set (E := λ t, unless_excluded t call otherCall call otherCall).
  assert (∀ t, adds (addUnlessExcluded ddAnalyses t call otherCall call otherCall) (E t)) as H1 by (intros; apply adds_unless).
  assert (∀ t m l, adds m (l ≫= E) → adds (addUnlessExcluded ddAnalyses t call otherCall call otherCall ;;; m) ((t :: l) ≫= E)) as H2
    by (intros; by apply adds_bind).
  assert (∀ t, adds (addUnlessExcluded ddAnalyses t call otherCall call otherCall) ([t] ≫= E)) as H3.
  { intros t. cbn. rewrite app_nil_r. apply H1. }
  assert (∀ m l, adds m l → adds (massert true ;;; m) l) as H4.
  { intros m l Hm. apply (adds_bind (massert true) m [] l); [|done]. exact adds_ret. }
  assert (adds (ret tt) ([] ≫= E)) as H5 by exact adds_ret.
  destruct (bool_decide _), (b0 bv) eqn:E0, (b1 bv) eqn:E1, (b2 bv) eqn:E2, (b0 rbv) eqn:F0, (b1 rbv) eqn:F1, (b2 rbv) eqn:F2;
    cbn [andb negb]; intros [= <-]; auto 10.
Qed.

Lemma callsLibrary_inv names call : callsLibrary V names call = true →
  ∃ f, calledFunction V call = Some f ∧ fn_name V f ∈ names.
Proof.
  unfold callsLibrary. destruct (calledFunction V call) as [f|]; [|done]. destruct (negb (fn_empty V f)); [done|].
  intros ?%bool_decide_eq_true. eauto.
Qed.
Lemma allocated_run a : isAllocator V a = true → getAllocatedObject V a = Ok (Some a).
Proof.
  intros H. unfold getAllocatedObject. rewrite H. apply callsLibrary_inv in H as (f & -> & Hf). by rewrite bool_decide_true.
Qed.
Lemma freed_run d o l : isDeallocator V d = true → callOperands V d = o :: l → getFreedObject V d = Ok (Some o).
Proof.
  intros H Ho. unfold getFreedObject. rewrite H. apply callsLibrary_inv in H as (f & -> & Hf).
  by rewrite bool_decide_true, Ho.
Qed.

Context (Hfree : ∀ d, isDeallocator V d = true → callOperands V d ≠ []).

Lemma allocation_run call otherCall st :
  allocationMayBeFreed V AA svf disableSVF sameLocation call otherCall st =
    Ok (st, negb (match (if isAllocator V otherCall then Some otherCall else if isAllocator V call then Some call else None),
                     (if isDeallocator V otherCall then Some otherCall else if isDeallocator V call then Some call else None) with
       | Some a, Some d => match callOperands V d with o :: _ => bool_decide (alias a o = NoAlias) | [] => false end
       | _, _ => false end)).
Proof.
  unfold allocationMayBeFreed.
  assert (∀ a, (if isAllocator V otherCall then Some otherCall else if isAllocator V call then Some call else None) = Some a →
    isAllocator V a = true) as Ha by (intros a; destruct (isAllocator V otherCall) eqn:?; [by intros [= <-]|];
      destruct (isAllocator V call) eqn:?; by intros [= <-]).
  assert (∀ d, (if isDeallocator V otherCall then Some otherCall else if isDeallocator V call then Some call else None) = Some d →
    isDeallocator V d = true) as Hd by (intros d; destruct (isDeallocator V otherCall) eqn:?; [by intros [= <-]|];
      destruct (isDeallocator V call) eqn:?; by intros [= <-]).
  destruct (if isAllocator V otherCall then _ else _) as [a|]; [|done].
  destruct (if isDeallocator V otherCall then _ else _) as [d|]; [|done].
  specialize (Ha a eq_refl). specialize (Hd d eq_refl). destruct (callOperands V d) as [|o l] eqn:Ho; [by destruct (Hfree d)|].
  unfold bind, lift. rewrite (allocated_run a Ha). cbn. by rewrite (freed_run d o l Hd Ho).
Qed.

Lemma askSVFCalls_spec call otherCall reachable bv rbv : ∃ c : bool,
  askSVFCalls V svf disableSVF reachableUnhandled call otherCall reachable (bv, rbv) =
    if svfPure call || svfPure otherCall then None
    else if svfKnows call && svfKnows otherCall
    then markAnswers (aa_modref_call (svf_aa svf) otherCall call) (aa_modref_call (svf_aa svf) call otherCall) reachable
           (if c then set2 bv else bv, rbv)
    else Some (if c then set2 bv else bv, rbv).
Proof.
  unfold askSVFCalls, svfPure, svfKnows. destruct disableSVF; [by exists false|]. cbn [negb andb fst snd].
  destruct (cannotReach call && hasNoMemoryOperations V svf false call); [by exists false|]. cbn [orb].
  destruct (cannotReach otherCall && hasNoMemoryOperations V svf false otherCall); [by exists false|].
  unfold isSafeToQueryModRefOfSVF. cbn [negb andb].
  destruct (svf_hasIndCSCallees svf call).
  - destruct (forallb _ (svf_getIndCSCallees svf call)); cbn [negb andb]; [|by exists false].
    destruct (svf_hasIndCSCallees svf otherCall); [destruct (forallb _ _); by exists false|].
    destruct (calledFunction V otherCall) as [G|]; [|by exists true].
    destruct (mayCallUnhandled V reachableUnhandled G); by exists false.
  - destruct (calledFunction V call) as [F|]; [|by exists true].
    destruct (negb (mayCallUnhandled V reachableUnhandled F)); cbn [negb andb]; [|by exists false].
    destruct (svf_hasIndCSCallees svf otherCall); [destruct (forallb _ _); by exists false|].
    destruct (calledFunction V otherCall) as [G|]; [|by exists true].
    destruct (mayCallUnhandled V reachableUnhandled G); by exists false.
Qed.

(** when a call follows itself it can run again *)
Lemma adds_calls call otherCall reachable : (otherCall = call → reachable = true) →
  adds (addEdgeFromFunctionModRef_call V AA svf ddAnalyses disableSVF reachableUnhandled sameLocation call otherCall reachable)
    (calls_edges call otherCall reachable).
Proof.
  intros Hself. unfold addEdgeFromFunctionModRef_call, calls_edges, unrelated_calls.
  destruct (isAllocator V call && isAllocator V otherCall && _ && _); [exact adds_ret|]. rewrite orb_false_l.
  set (E := λ t, unless_excluded t call otherCall call otherCall). set (un := match _ with Some _ => _ | None => false end).
  assert (∀ m l, adds m l → adds (bind (allocationMayBeFreed V AA svf disableSVF sameLocation call otherCall)
    (λ b, if negb b then ret tt else m)) (if un then [] else l)) as Hgo.
  { intros m l Hm h g A R Hl. unfold wp, bind. rewrite allocation_run. fold un. destruct un; cbn [negb].
    - by apply adds_ret.
    - by apply Hm. }
  apply Hgo. rewrite markCalls_answers. set (a := aa_modref_call AA otherCall call). set (b := aa_modref_call AA call otherCall).
  set (s := aa_modref_call (svf_aa svf) otherCall call). set (s' := aa_modref_call (svf_aa svf) call otherCall).
  assert (∀ known c, ∃ ts, outcome a b s s' known c reachable (bool_decide (otherCall = call)) = Some ts ∧
    ts ≡ₚ types_of (meet_answer (call_answer a b reachable) (if known then call_answer s s' reachable else any_answer)) reachable) as T.
  { intros known c. apply outcome_spec. intros ->%bool_decide_eq_true. auto. }
  unfold calls_answer, svf_call_answer. fold a b s s'. unfold outcome in T.
  destruct (markAnswers a b reachable (noBits, noBits)) as [[bv rbv]|] eqn:Em.
  2:{ destruct (T (svfKnows call && svfKnows otherCall) false) as (ts & [= <-] & Hp).
      destruct (svfPure call || svfPure otherCall).
      - rewrite types_of_none. exact adds_ret.
      - apply (adds_perm _ ([] ≫= E)); [|exact adds_ret]. by rewrite Hp. }
  destruct (askSVFCalls_spec call otherCall reachable bv rbv) as [c ->]. fold s s'.
  destruct (svfPure call || svfPure otherCall).
  { rewrite types_of_none. exact adds_ret. }
  destruct (T (svfKnows call && svfKnows otherCall) c) as (ts & Ho & Hp).
  assert (∀ x : option (Bits * Bits), match x with None => Some [] | Some (bv, rbv) => bits_types bv rbv (bool_decide (otherCall = call)) end = Some ts →
    adds (match x with None => ret tt | Some (bv, rbv) => addCallEdges ddAnalyses call otherCall bv rbv end) (ts ≫= E)) as Hx.
  { intros [[bv' rbv']|]; [apply adds_bits|]. intros [= <-]. exact adds_ret. }
  eapply adds_perm; [|by apply Hx]. by rewrite Hp.
Qed.
End spec.
