(* ===== verification/PDGControlSpec.v ===== *)
(** * The control dependences of a function

    Which values control which after the construction: those of the post-dominator tree, and for a
    PHI those that control the terminators of the blocks its values come from. *)
From S2P Require Import Prelude DGEdge DGNode DGBase DGInvariant DGSpec DataFlow DataFlowSpec.
From S2P Require Import PDGValues PDGGenerator PDGGrowth.

(** ** Control edges of a graph *)

Definition control_edge (p v : Ptr) : AEdge := mkAEdge p v CONTROL_DEPENDENCE None.
Definition is_control (x : AEdge) : Prop := x = control_edge (a_src x) (a_dst x).

(** the graph has a control edge from [p] to [v] *)
Definition controls (A : AGraph) (p v : Ptr) : Prop :=
  ∃ x, (∃ e, a_edges A !! e = Some x) ∧ a_src x = p ∧ a_dst x = v ∧ a_kind x = CONTROL_DEPENDENCE.

Lemma controls_grown A l A' p v : grown A l A' → Forall is_control l →
  controls A' p v ↔ controls A p v ∨ control_edge p v ∈ l.
Proof.
  intros G Hl. unfold controls. setoid_rewrite (elem_of_grown _ _ _ _ G). split.
  - intros (x & [He|Hx] & <- & <- & Hk); [left; eauto 6|]. right. rewrite Forall_forall in Hl. by rewrite <- (Hl x Hx).
  - intros [(x & He & H)|Hx]; [eauto 6|]. exists (control_edge p v). eauto.
Qed.

Lemma rep_ends h g A e x : rep h g A → a_edges A !! e = Some x → ends_in (a_values A) x.
Proof.
  intros R He. rewrite (rep_edges _ _ _ R) in He. destruct (edge_view_inv _ _ _ _ He) as (Hin & y & Hy).
  destruct (edge_view_live _ _ _ _ (rep_wf _ _ _ R) Hin Hy) as (s & d & _ & _ & Hs & Hd & Hv).
  rewrite Hv in He. injection He as <-. split; apply (rep_values _ _ _ _ R); eauto.
Qed.

Lemma controls_value h g A p v : rep h g A → controls A p v → p ∈ a_values A ∧ v ∈ a_values A.
Proof. intros R (x & (e & He) & <- & <- & _). by eapply rep_ends. Qed.

(** [m] adds control edges, after which the pairs [R] control too *)
Definition adds_controls (m : M GSt unit) (A : AGraph) (h : Heap) (g : DG) (Q : Ptr → Ptr → Prop) : Prop :=
  wp m (λ _ s', ∃ A' l, rep s'.1 s'.2 A' ∧ grown A l A' ∧ Forall is_control l ∧
    ∀ p v, controls A' p v ↔ controls A p v ∨ Q p v) (h, g).

Section control.
Context {IO : IterOrder} (V : Values) (f : CFG) (postDomTree : PostDominatorTree).

(** [p], the terminator of a block with a choice, decides whether the instruction [i] runs: the
    block of [i] post-dominates a successor of the block of [p] and not the block itself *)
Definition block_controls (p i : Ptr) : Prop := ∃ B E A,
  B ∈ blocks f ∧ E ∈ pdt_getDescendants postDomTree B ∧ A ∈ predecessors f E ∧
  getTerminator f A = Some p ∧ length (successors f A) ≠ 1 ∧ pdt_properlyDominates postDomTree B A = false ∧
  i ∈ insts f B.

(** a value of the PHI comes from a block that does not compute it and whose terminator [t] satisfies [C] *)
Definition incoming_through (C : Ptr → Prop) (inc : option Ptr * Ptr) : Prop :=
  ∃ v t, inc.1 = Some v ∧ ¬ (isInstruction V v = true ∧ v_parent V v = inc.2) ∧
    getTerminator f inc.2 = Some t ∧ C t.
Definition phi_through (C : Ptr → Prop) (phi : Ptr) : Prop :=
  ∃ inc, inc ∈ phiIncoming V phi ∧ incoming_through C inc.

Definition phis : list Ptr := mjoin ((λ B, phis_of V (insts f B)) <$> blocks f).

(** what the code relies on: the tree is of this function, the values of a PHI come from its
    blocks, and no block ends in a PHI *)
Record wf_control : Prop := {
  wc_cfg : wf_cfg f;
  wc_tree B E : B ∈ blocks f → E ∈ pdt_getDescendants postDomTree B → E ∈ blocks f;
  wc_incoming i inc : i ∈ instructions f → inc ∈ phiIncoming V i → inc.2 ∈ blocks f;
  wc_terminator B t : B ∈ blocks f → getTerminator f B = Some t → isPHI V t = false
}.
Context (WC : wf_control).

Lemma terminator_in B : B ∈ blocks f → ∃ t, getTerminator f B = Some t ∧ t ∈ instructions f.
Proof.
  intros HB. destruct (cf_terminator _ (wc_cfg WC) B HB) as [Hne ->].
  destruct (last (insts f B)) as [t|] eqn:Hl; [|by apply last_None in Hl]. exists t. split; [done|].
  apply list_elem_of_bind. exists B. split; [|done]. by apply last_Some_elem_of.
Qed.

Lemma phis_in phi : phi ∈ phis → phi ∈ instructions f ∧ isPHI V phi = true.
Proof.
  intros (l & H & (B & -> & HB)%list_elem_of_fmap)%list_elem_of_join. assert (phi ∈ insts f B ∧ isPHI V phi = true) as [? ?].
  { clear HB. induction (insts f B) as [|i l IH]; [by apply elem_of_nil in H|]. simpl in H.
    destruct (isPHI V i) eqn:Hi; [|by apply elem_of_nil in H]. apply elem_of_cons in H as [->|H]; [set_solver|].
    destruct (IH H). set_solver. }
  split; [|done]. apply list_elem_of_bind. eauto.
Qed.

(** ** Post-dominance *)

Definition block_edges : list AEdge :=
  blocks f ≫= λ B, pdt_getDescendants postDomTree B ≫= λ E, predecessors f E ≫= λ A,
    match getTerminator f A with
    | None => []
    | Some t => if decide (length (successors f A) = 1) then []
                else if pdt_properlyDominates postDomTree B A then [] else control_edge t <$> insts f B
    end.

Lemma elem_of_block_edges p i : control_edge p i ∈ block_edges ↔ block_controls p i.
Proof.
  unfold block_edges, block_controls. rewrite list_elem_of_bind. setoid_rewrite list_elem_of_bind.
  setoid_rewrite list_elem_of_bind. split.
  - intros (B & (E & (A & H & HA) & HE) & HB). exists B, E, A. destruct (getTerminator f A) as [t|]; [|by apply elem_of_nil in H].
    case_decide; [by apply elem_of_nil in H|]. destruct (pdt_properlyDominates _ _ _); [by apply elem_of_nil in H|].
    apply list_elem_of_fmap in H as (i' & [= <- <-] & Hi). done.
  - intros (B & E & A & HB & HE & HA & Ht & Hs & Hd & Hi). exists B. split; [|done]. exists E. split; [|done]. exists A.
    split; [|done]. rewrite Ht, decide_False, Hd by done. by apply list_elem_of_fmap_2.
Qed.

Lemma block_edges_control : Forall is_control block_edges.
Proof.
  apply Forall_bind, Forall_true. intros B. apply Forall_bind, Forall_true. intros E. apply Forall_bind, Forall_true. intros A.
  simpl. destruct (getTerminator f A); [|constructor]. case_decide; [constructor|]. destruct (pdt_properlyDominates _ _ _); [constructor|].
  by apply Forall_fmap, Forall_true.
Qed.

Lemma block_controls_in p i : block_controls p i → p ∈ instructions f ∧ i ∈ instructions f.
Proof.
  intros (B & E & A & HB & HE & HA & Ht & _ & _ & Hi). split; [|apply list_elem_of_bind; eauto].
  assert (A ∈ blocks f) as HAb.
  { apply (cf_pred _ (wc_cfg WC) E A) in HA; [apply HA|]. by apply (wc_tree WC B). }
  destruct (terminator_in A HAb) as (t & Ht' & Hin). congruence.
Qed.

Lemma adds_blocks : adds (forM (controlOfBlock f postDomTree) (blocks f)) block_edges.
Proof.
  apply adds_forM. intros B HB. apply adds_forM. intros E HE. apply adds_forM. intros A HA.
  assert (A ∈ blocks f) as HAb.
  { apply (cf_pred _ (wc_cfg WC) E A) in HA; [apply HA|]. by apply (wc_tree WC B). }
  destruct (terminator_in A HAb) as (t & Ht & _). unfold controlFromPredecessor. rewrite Ht.
  change (adds (if decide (length (successors f A) = 1) then ret tt else if pdt_properlyDominates postDomTree B A then ret tt
    else forM (addControlEdge t) (insts f B)) (if decide (length (successors f A) = 1) then []
    else if pdt_properlyDominates postDomTree B A then [] else control_edge t <$> insts f B)).
  case_decide; [exact adds_ret|]. destruct (pdt_properlyDominates _ _ _); [exact adds_ret|].
  eapply adds_perm; [|exact (adds_forM _ (λ i, [control_edge t i]) (insts f B) (λ i _, adds_control t i))].
  induction (insts f B) as [|i l IH]; [done|]. cbn. by f_equiv.
Qed.

(** ** PHIs *)

(** the producers of a value in the graph *)
Lemma getControlProducers_spec h g A v : rep h g A → v ∈ a_values A →
  wp (getControlProducers v) (λ P s', s' = (h, g) ∧ ∀ p, p ∈ P ↔ controls A p v) (h, g).
Proof.
  intros R [n Hn]%(rep_values _ _ _ _ R). pose proof (rep_wf _ _ _ R) as W. unfold getControlProducers.
  apply (wp_bind_run _ _ _ _ _ _ (fetchNode_present _ _ _ _ W Hn)). apply wp_bind, wp_deref. exists n. split; [done|].
  destruct (wf_map _ _ W _ _ Hn) as (Hin & x & Hx & Hv). dg_steps. exists x. split; [done|]. apply wp_on_heap. cbn [fst snd].
  set (dep e p := ∃ y, edge_view h g e = Some y ∧ a_src y = p ∧ a_kind y = CONTROL_DEPENDENCE).
  eapply wp_mono.
  { apply (wp_foldM _ (λ pre _ (P : gset Ptr) h', h' = h ∧ ∀ p, p ∈ P ↔ ∃ e, e ∈ pre ∧ dep e p)).
    - split; [done|]. intros p. split; [by intros ?%elem_of_empty|]. by intros (e & ?%elem_of_nil & _).
    - intros pre e post P h' Hl [-> HP].
      assert (e ∈ incomingEdges x) as He by (apply elem_of_visit; rewrite Hl; set_solver).
      apply (wf_in _ _ W n x e Hin Hx) in He as (Heg & y & Hy & Hto).
      destruct (edge_view_live _ _ _ _ W Heg Hy) as (s & d & Hs & Hd & _ & _ & Hview).
      dg_steps. exists y. split; [done|]. unfold ControlDependence_classof.
      assert (∀ p, dep e p ↔ p = theT s ∧ kind y = CONTROL_DEPENDENCE) as Hdep.
      { intros p. unfold dep. rewrite Hview. split; [by intros (? & [= <-] & <- & ?)|].
        intros [-> Hk]. eexists. by split_and!. }
      assert (∀ p, (∃ e', e' ∈ pre ++ [e] ∧ dep e' p) ↔ p ∈ P ∨ dep e p) as Hsnoc.
      { intros p. rewrite HP. setoid_rewrite elem_of_app. setoid_rewrite list_elem_of_singleton. naive_solver. }
      unfold ControlDependence_classof, getKind. case_bool_decide as Hk; cbn [negb].
      + dg_steps. exists s. split; [done|]. split; [done|]. intros p. rewrite Hsnoc, Hdep, elem_of_union, elem_of_singleton.
        clear -Hk. naive_solver.
      + apply wp_ret. split; [done|]. intros p. rewrite Hsnoc, Hdep. clear -Hk. naive_solver. }
  intros P h' [-> HP]. split; [done|]. intros p. rewrite HP. unfold controls, dep. split.
  - intros (e & He%elem_of_visit & y & Hy & Hs & Hk). apply (wf_in _ _ W n x e Hin Hx) in He as (Heg & z & Hz & Hto).
    exists y. split; [exists e; by rewrite (rep_edges _ _ _ R)|]. split_and!; try done.
    destruct (edge_view_live _ _ _ _ W Heg Hz) as (s & d & Hs' & Hd & _ & _ & Hview). rewrite Hto in Hd.
    rewrite Hview in Hy. injection Hy as <-. cbn. congruence.
  - intros (y & (e & He) & Hs & Hd & Hk). exists e. rewrite (rep_edges _ _ _ R) in He. split; [|by exists y].
    destruct (edge_view_inv _ _ _ _ He) as (Heg & z & Hz). apply elem_of_visit, (wf_in _ _ W n x e Hin Hx).
    split; [done|]. exists z. split; [done|]. destruct (edge_view_live _ _ _ _ W Heg Hz) as (s & d & Hs' & Hd' & _ & Hnd & Hview).
    rewrite Hview in He. injection He as <-. cbn in Hd. apply (wf_node_of_inj _ _ (theT d) _ _ W Hnd). congruence.
Qed.

Lemma incomingProducers_spec h g A inc P : rep h g A → (∀ i, i ∈ instructions f → i ∈ a_values A) → inc.2 ∈ blocks f →
  wp (incomingProducers V f P inc) (λ P' s', s' = (h, g) ∧
    ∀ p, p ∈ P' ↔ p ∈ P ∨ incoming_through (controls A p) inc) (h, g).
Proof.
  intros R Hv HB. unfold incomingProducers, incoming_through. destruct (terminator_in _ HB) as (t & Ht & Hin).
  destruct inc as [[v|] b]; cbn [fst snd] in *.
  - destruct (isInstruction V v && bool_decide (v_parent V v = b)) eqn:Hb.
    + apply andb_true_iff in Hb as [Hi Hp%bool_decide_eq_true]. apply wp_ret. split; [done|]. intros p. split; [by left|].
      intros [?|(? & ? & [= <-] & [] & _)]; done.
    + rewrite Ht. apply wp_bind, wp_deref. exists t. split; [done|]. apply wp_bind.
      eapply wp_mono; [by apply (getControlProducers_spec h g A t R), Hv|]. intros T s' [-> HT]. apply wp_ret. split; [done|].
      intros p. rewrite elem_of_union, HT. split; [|intros [?|(? & ? & [= <-] & _ & [= <-] & ?)]; auto].
      intros [?|?]; [right|by left]. exists v, t. split_and!; try done. intros [Hi Hp].
      by rewrite Hi, (bool_decide_eq_true_2 _ Hp) in Hb.
  - apply wp_ret. split; [done|]. intros p. split; [by left|]. by intros [?|(? & ? & ? & _)].
Qed.

Lemma phiProducers_spec h g A phi : rep h g A → (∀ i, i ∈ instructions f → i ∈ a_values A) → phi ∈ instructions f →
  wp (foldM (incomingProducers V f) ∅ (phiIncoming V phi)) (λ P s', s' = (h, g) ∧
    ∀ p, p ∈ P ↔ phi_through (controls A p) phi) (h, g).
Proof.
  intros R Hv Hphi. eapply wp_mono.
  { apply (wp_foldM _ (λ pre _ (P : gset Ptr) s', s' = (h, g) ∧
      ∀ p, p ∈ P ↔ ∃ inc, inc ∈ pre ∧ incoming_through (controls A p) inc)).
    - split; [done|]. intros p. split; [by intros ?%elem_of_empty|]. by intros (? & ?%elem_of_nil & _).
    - intros pre inc post P s' Hl [-> HP]. eapply wp_mono.
      { apply (incomingProducers_spec h g A inc P R Hv), (wc_incoming WC phi inc Hphi). rewrite Hl. set_solver. }
      intros P' s' [-> HP']. split; [done|]. intros p. rewrite HP', HP. setoid_rewrite elem_of_app.
      setoid_rewrite list_elem_of_singleton. clear. naive_solver. }
  intros P s' [-> HP]. split; [done|]. exact HP.
Qed.

Lemma controlOfPHI_spec h g A phi : rep h g A → (∀ i, i ∈ instructions f → i ∈ a_values A) → phi ∈ instructions f →
  adds_controls (controlOfPHI V f phi) A h g (λ p v, v = phi ∧ phi_through (controls A p) phi).
Proof.
  intros R Hv Hphi. unfold adds_controls, controlOfPHI. apply wp_bind.
  eapply wp_mono; [by apply (phiProducers_spec h g A phi)|]. intros P s' [-> HP]. case_decide as Hsz.
  - apply wp_ret. exists A, []. split_and!; [done|apply grown_nil|constructor|]. intros p v. split; [by left|].
    intros [?|[_ Hp%HP]]; [done|]. apply size_empty_inv in Hsz. set_solver.
  - apply wp_bind. eapply wp_mono; [by apply (getControlProducers_spec h g A phi R), Hv|]. intros C s' [-> HC].
    set (edges p := if decide (p ∈ C) then [] else [control_edge p phi]).
    assert (adds (forM (λ p, if decide (p ∈ C) then ret tt else addControlEdge p phi) (visit P)) (visit P ≫= edges)) as Hadds.
    { apply adds_forM. intros p _. unfold edges. case_decide; [exact adds_ret|exact (adds_control p phi)]. }
    assert (∀ p v, control_edge p v ∈ visit P ≫= edges ↔ p ∈ P ∧ p ∉ C ∧ v = phi) as Hin.
    { intros p v. rewrite list_elem_of_bind. setoid_rewrite elem_of_visit. unfold edges. split.
      - intros (p' & Hx & Hp'). case_decide; [by apply elem_of_nil in Hx|]. by apply list_elem_of_singleton in Hx as [= -> ->].
      - intros (Hp & HpC & ->). exists p. rewrite decide_False by done. split; [|done]. by apply list_elem_of_singleton. }
    assert (Forall is_control (visit P ≫= edges)) as Hctl.
    { apply Forall_bind, Forall_true. intros p. unfold compose, edges. case_decide; [constructor|]. by apply Forall_singleton. }
    eapply wp_mono; [apply (Hadds h g A R)|].
    + apply Forall_forall. intros x Hx. rewrite Forall_forall in Hctl. rewrite (Hctl x Hx) in Hx |- *.
      apply Hin in Hx as (Hp & _ & ->). split; [|by apply Hv]. apply HP in Hp as (inc & _ & ? & t & _ & _ & _ & Hc).
      exact (proj1 (controls_value _ _ _ _ _ R Hc)).
    + intros [] s' (A' & R' & G). exists A', (visit P ≫= edges). split_and!; [done..|]. intros p v.
      rewrite (controls_grown _ _ _ _ _ G Hctl), Hin. split; [intros [?|(Hp & _ & ->)]; [by left|]|].
      * right. by rewrite <- HP.
      * intros [?|[-> Hp%HP]]; [by left|]. destruct (decide (p ∈ C)) as [Hc|Hc]; [left; by apply HC|by right].
Qed.

(** ** A function *)

Lemma phi_through_ext (C C' : Ptr → Prop) phi : phi ∈ instructions f →
  (∀ B t, B ∈ blocks f → getTerminator f B = Some t → C t ↔ C' t) → phi_through C phi ↔ phi_through C' phi.
Proof.
  intros Hphi HC. unfold phi_through, incoming_through. split; intros (inc & Hinc & v & t & H1 & H2 & H3 & H4);
    exists inc; split; try done; exists v, t; split_and!; try done; eapply HC; eauto using wc_incoming.
Qed.

Lemma controlOfPHIs_spec h g A : rep h g A → (∀ i, i ∈ instructions f → i ∈ a_values A) →
  adds_controls (forM (controlOfPHI V f) phis) A h g (λ p v, v ∈ phis ∧ phi_through (controls A p) v).
Proof.
  intros R Hv. apply (wp_forM _ (λ pre _ s', ∃ A' l, rep s'.1 s'.2 A' ∧ grown A l A' ∧ Forall is_control l ∧
    ∀ p v, controls A' p v ↔ controls A p v ∨ v ∈ pre ∧ phi_through (controls A p) v)).
  - exists A, []. split_and!; [done|apply grown_nil|constructor|]. intros p v. split; [by left|].
    by intros [?|[?%elem_of_nil _]].
  - intros pre phi post [h' g'] Hl (A' & l & R' & G & Hc & HA'). cbn [fst snd] in *.
    assert (∀ x, x ∈ pre ++ [phi] → x ∈ phis) as Hsub by (rewrite Hl; set_solver).
    assert (phi ∈ instructions f) as Hphi by (apply phis_in, Hsub; set_solver).
    assert (∀ i, i ∈ instructions f → i ∈ a_values A') as Hv' by (intros i Hi; rewrite (grown_values _ _ _ G); auto).
    eapply wp_mono; [by apply (controlOfPHI_spec h' g' A' phi R' Hv')|].
    intros [] s' (A'' & l' & R'' & G' & Hc' & HA''). exists A'', (l ++ l').
    split_and!; [done|by eapply grown_trans|by apply Forall_app_2|]. intros p v. rewrite HA'', HA'.
    rewrite (phi_through_ext (controls A' p) (controls A p) phi Hphi), elem_of_app, list_elem_of_singleton.
    + clear. naive_solver.
    + intros B t HB Ht. rewrite HA'. split; [|by left]. intros [?|[Hpre _]]; [done|].
      destruct (phis_in t) as [_ Hphi']; [apply Hsub; set_solver|]. by rewrite (wc_terminator WC B t HB Ht) in Hphi'.
Qed.

(** the control dependences of the function, in a graph where [C] control already *)
Definition function_controls (C : Ptr → Ptr → Prop) (p v : Ptr) : Prop :=
  block_controls p v ∨ v ∈ phis ∧ phi_through (λ t, C p t ∨ block_controls p t) v.

Lemma constructEdgesFromControlForFunction_run h g A : rep h g A → (∀ i, i ∈ instructions f → i ∈ a_values A) →
  adds_controls (constructEdgesFromControlForFunction V f postDomTree) A h g (function_controls (controls A)).
Proof.
  intros R Hv. unfold adds_controls, constructEdgesFromControlForFunction. apply wp_bind. eapply wp_mono.
  { apply (adds_blocks h g A R). apply Forall_forall. intros x Hx. pose proof block_edges_control as Hc.
    rewrite Forall_forall in Hc. rewrite (Hc x Hx) in Hx |- *. apply elem_of_block_edges, block_controls_in in Hx as [? ?].
    split; by apply Hv. }
  intros [] [h1 g1] (A1 & R1 & G1). cbn [fst snd] in *.
  assert (∀ p v, controls A1 p v ↔ controls A p v ∨ block_controls p v) as HA1.
  { intros p v. by rewrite (controls_grown _ _ _ _ _ G1 block_edges_control), elem_of_block_edges. }
  unfold wp. rewrite forM_join. fold phis. eapply wp_mono.
  { apply (controlOfPHIs_spec h1 g1 A1 R1). intros i Hi. rewrite (grown_values _ _ _ G1). auto. }
  intros [] s' (A2 & l & R2 & G2 & Hc & HA2). exists A2, (block_edges ++ l).
  split_and!; [done|by eapply grown_trans|apply Forall_app_2; [apply block_edges_control|done]|].
  intros p v. rewrite HA2, HA1, Logic.or_assoc. apply or_iff_compat_l, or_iff_compat_l, and_iff_under. intros [Hv' _]%phis_in.
  apply phi_through_ext; [done|]. intros B t _ _. apply HA1.
Qed.

Lemma function_controls_in C p v : function_controls C p v → v ∈ instructions f.
Proof. intros [[_ H]%block_controls_in|[[H _]%phis_in _]]; exact H. Qed.

Lemma function_controls_ext (C C' : Ptr → Ptr → Prop) p v :
  (∀ t, t ∈ instructions f → C p t ↔ C' p t) → function_controls C p v ↔ function_controls C' p v.
Proof.
  intros HC. unfold function_controls. apply or_iff_compat_l, and_iff_under. intros Hphi%phis_in.
  apply phi_through_ext; [apply Hphi|]. intros B t HB Ht. destruct (terminator_in B HB) as (t' & Ht' & Hin).
  rewrite HC; [done|congruence].
Qed.
End control.
