(* ===== verification/PDGGeneratorSpec.v ===== *)
(** * The memory dependences of a program

    The dependences that the generator adds are those between an instruction and one that may run
    after it, as the alias analyses leave them. *)
From S2P Require Import Prelude DGEdge DGNode DGBase DGInvariant DGSpec PDG DataFlow DataFlowSpec.
From S2P Require Import PDGValues PDGModRef PDGGenerator PDGGrowth PDGModRefSpec.

Section memory.
Context {IO : IterOrder} (V : Values).
Context (Hfree : ∀ d, isDeallocator V d = true → callOperands V d ≠ []).

Section instruction.
Context (AA : AliasAnalysis) (svf : SVFAnalysis) (ddAnalyses : list DependenceAnalysis).
Context (disableSVF : bool) (reachableUnhandled : gmap Ptr (gset Ptr)) (sameLocation : Ptr → Ptr → bool).

(** the dependences from [i] to [j], which may run after it; [again] when [i] may run after [j] *)
Definition memory_edges (i j : Ptr) (again : bool) : list AEdge :=
  if negb (isCandidate V ddAnalyses i j) then []
  else if isStore V i then
    if isStore V j then alias_edges V AA svf disableSVF sameLocation i j DG_DATA_WAW
    else if isLoad V j then alias_edges V AA svf disableSVF sameLocation i j DG_DATA_RAW
    else if isCallBase V j then store_edges V AA svf ddAnalyses disableSVF reachableUnhandled j i false else []
  else if isLoad V i then
    if isStore V j then alias_edges V AA svf disableSVF sameLocation i j DG_DATA_WAR
    else if isCallBase V j then load_edges V AA svf ddAnalyses disableSVF reachableUnhandled j i false else []
  else if isCallBase V i then
    if hasNoMemoryOperations V svf disableSVF i then []
    else if isStore V j then store_edges V AA svf ddAnalyses disableSVF reachableUnhandled i j true
    else if isLoad V j then load_edges V AA svf ddAnalyses disableSVF reachableUnhandled i j true
    else if isCallBase V j then calls_edges V AA svf ddAnalyses disableSVF reachableUnhandled sameLocation i j again else []
  else [].

(** every edge goes from the instruction to the one that may run after it *)
Definition from_to (i j : Ptr) (x : AEdge) : Prop :=
  a_src x = i ∧ a_dst x = j ∧ a_kind x ∈ [MUST_MEMORY_DEPENDENCE; MAY_MEMORY_DEPENDENCE] ∧ is_Some (a_type x).

Lemma memory_edge_from_to i j t must : from_to i j (memory_edge i j t must).
Proof. split_and!; [done|done|destruct must; clear; set_solver|by eexists]. Qed.
Lemma from_to_unless t a b i j : Forall (from_to i j) (unless_excluded ddAnalyses t a b i j).
Proof.
  unfold unless_excluded. destruct (isThereThisMemoryDataDependenceType _ _ _ _) as [[] ?]; [constructor|].
  apply Forall_singleton, memory_edge_from_to.
Qed.
Lemma from_to_may t a b i j : Forall (from_to i j) (may_unless_excluded ddAnalyses t a b i j).
Proof.
  unfold may_unless_excluded. destruct (isThereThisMemoryDataDependenceType _ _ _ _) as [[] ?]; [constructor|].
  apply Forall_singleton, memory_edge_from_to.
Qed.
Lemma from_to_when b i j l : Forall (from_to i j) l → Forall (from_to i j) (when b l).
Proof. intros H. destruct b; [exact H|constructor]. Qed.
Lemma from_to_alias i j t : Forall (from_to i j) (alias_edges V AA svf disableSVF sameLocation i j t).
Proof.
  unfold alias_edges. destruct (doTheyAlias _ _ _ _ _ _ _); try apply Forall_singleton, memory_edge_from_to. constructor.
Qed.

Lemma from_alias i j t : doTheyAlias V AA svf disableSVF sameLocation i j ≠ NoAlias →
  ∃ must, memory_edge i j t must ∈ alias_edges V AA svf disableSVF sameLocation i j t.
Proof.
  intros H. unfold alias_edges. destruct (doTheyAlias _ _ _ _ _ _ _); [done| | |];
    eexists; by apply list_elem_of_singleton.
Qed.

Lemma memory_edges_from_to i j again : Forall (from_to i j) (memory_edges i j again).
Proof.
  unfold memory_edges, store_edges, load_edges, calls_edges.
  repeat case_match; try apply Forall_nil_2; try apply from_to_alias;
    repeat (apply from_to_when || apply Forall_app_2 || apply from_to_unless || apply from_to_may).
  apply Forall_bind, Forall_true. intros t. apply from_to_unless.
Qed.
Context (OUT : Ptr → gset Ptr).
Definition instruction_edges (i : Ptr) : list AEdge :=
  if negb (canAccessMemory V i) then [] else visit (OUT i) ≫= λ j, memory_edges i j (bool_decide (i ∈ OUT j)).

Lemma candidate_actual i j : isCandidate V ddAnalyses i j = true → isActualCode V j = true.
Proof.
  unfold isCandidate, canAccessMemory. rewrite !andb_true_iff. intros [[_ H] _]. by destruct (isActualCode V j).
Qed.

Lemma adds_iterateInst i : adds
  (iterateInst V AA svf ddAnalyses disableSVF reachableUnhandled sameLocation OUT i) (instruction_edges i).
Proof.
  unfold iterateInst, instruction_edges. destruct (canAccessMemory V i) eqn:Hi; cbn [negb]; [|exact adds_ret].
  assert (isActualCode V i = true) as Ha by (unfold canAccessMemory in Hi; by destruct (isActualCode V i)).
  unfold memory_edges. destruct (isStore V i) eqn:Es; [|destruct (isLoad V i) eqn:El; [|destruct (isCallBase V i) eqn:Ec]].
  - apply adds_forM. intros j _. destruct (isCandidate V ddAnalyses i j) eqn:Hc; [|exact adds_ret]. cbn [negb].
    repeat apply adds_if; [apply adds_alias|apply adds_alias| |exact adds_ret].
    rewrite (candidate_actual i j Hc). apply adds_store.
  - apply adds_forM. intros j _. destruct (isCandidate V ddAnalyses i j) eqn:Hc; [|exact adds_ret]. cbn [negb].
    repeat apply adds_if; [apply adds_alias|apply adds_load|exact adds_ret].
  - unfold iterateInstForCall. rewrite Ha, Hi. cbn [negb]. destruct (hasNoMemoryOperations V svf disableSVF i).
    { eapply adds_perm; [|exact adds_ret]. induction (visit (OUT i)) as [|j l IH]; [done|]. cbn. by destruct (negb _). }
    apply adds_forM. intros j Hj. destruct (isCandidate V ddAnalyses i j) eqn:Hc; [|exact adds_ret]. cbn [negb].
    repeat apply adds_if; [apply adds_store|apply adds_load| |exact adds_ret].
    rewrite (candidate_actual i j Hc), andb_false_r. apply adds_calls; [exact Hfree|]. intros ->.
    apply bool_decide_eq_true. by apply elem_of_visit.
  - eapply adds_perm; [|exact adds_ret]. induction (visit (OUT i)) as [|j l IH]; [done|]. cbn. by destruct (negb _).
Qed.

End instruction.

(** ** A function *)

Section function.
Context (getAA : GenFunction → AliasAnalysis) (svf : SVFAnalysis) (ddAnalyses : list DependenceAnalysis).
Context (disableSVF disableRA : bool) (reachableUnhandled : gmap Ptr (gset Ptr)) (sameLocation : Ptr → Ptr → bool).

(** [j] may run after [i]: by the control flow of the function, unless the reachability analysis is
    disabled *)
Definition may_follow (F : GenFunction) (i j : Ptr) : Prop :=
  i ∈ instructions (gf_cfg F) ∧ j ∈ instructions (gf_cfg F) ∧
  (disableRA = true ∨ (onlyMemoryInstructionFilter V j = true ∧ tc (next (gf_cfg F)) i j)).

(** a memory dependence of [F] *)
Definition memory_dependence (F : GenFunction) (x : AEdge) : Prop := ∃ i j again,
  may_follow F i j ∧ (again = true ↔ may_follow F j i) ∧
  canAccessMemory V i = true ∧
  x ∈ memory_edges (getAA F) svf ddAnalyses disableSVF reachableUnhandled sameLocation i j again.

Lemma tc_next_in f i j : wf_cfg f → tc (next f) i j → j ∈ instructions f.
Proof.
  intros W H. apply tc_r_inv in H as [H|(k & _ & H)]; by eapply next_in.
Qed.

Lemma dataflow_run F : wf_cfg (gf_cfg F) →
  ∃ dfr, (if disableRA then getFullSets (gf_cfg F)
          else runReachableAnalysis (gf_cfg F) (onlyMemoryInstructionFilter V)) = Ok dfr ∧
    ∀ i j, i ∈ instructions (gf_cfg F) → j ∈ read_set dfr (OutOf i) ↔ may_follow F i j.
Proof.
  intros W. unfold may_follow. destruct disableRA.
  - destruct (getFullSets_top (gf_cfg F)) as (dfr & Hr & Ho & _). exists dfr. split; [done|].
    intros i j Hi. destruct (Ho i Hi) as [_ ->]. rewrite elem_of_list_to_set.
    split; [by intros Hj; split_and!; [| |left]|by intros (_ & ? & _)].
  - destruct (runReachableAnalysis_run (gf_cfg F) (onlyMemoryInstructionFilter V) W) as (dfr & Hr & Ho).
    exists dfr. split; [done|]. intros i j Hi. destruct (Ho i j Hi) as [_ ->]. split; [|by intros (_ & _ & [|])].
    intros [? Ht]. split_and!; [done|by eapply tc_next_in|by right].
Qed.

Lemma may_follow_dec F j i : wf_cfg (gf_cfg F) → ∃ again : bool, again = true ↔ may_follow F j i.
Proof.
  intros W. destruct (decide (j ∈ instructions (gf_cfg F))) as [Hj|Hj].
  - destruct (dataflow_run F W) as (dfr & _ & Ho). exists (bool_decide (i ∈ read_set dfr (OutOf j))).
    rewrite bool_decide_eq_true. by apply Ho.
  - exists false. split; [done|]. by intros [? _].
Qed.

Lemma function_edges F : wf_cfg (gf_cfg F) → ∃ l,
  (∀ x, x ∈ l ↔ memory_dependence F x) ∧
  adds (constructEdgesFromAliasesForFunction V getAA svf ddAnalyses disableSVF disableRA reachableUnhandled sameLocation F) l.
Proof.
  intros W. destruct (dataflow_run F W) as (dfr & Hr & Ho).
  set (OUT := λ i, read_set dfr (OutOf i)).
  set (E := instruction_edges (getAA F) svf ddAnalyses disableSVF reachableUnhandled sameLocation OUT).
  exists (blocks (gf_cfg F) ≫= λ B, insts (gf_cfg F) B ≫= E). split.
  - intros x. rewrite list_elem_of_bind. setoid_rewrite list_elem_of_bind. unfold memory_dependence. split.
    + intros (B & (i & Hx & Hi) & HB). unfold E, instruction_edges in Hx.
      destruct (canAccessMemory V i) eqn:Hm; [|by apply elem_of_nil in Hx].
      apply list_elem_of_bind in Hx as (j & Hx & Hj%elem_of_visit).
      assert (i ∈ instructions (gf_cfg F)) as Hi' by (apply list_elem_of_bind; eauto).
      apply Ho in Hj as Hij; [|done]. exists i, j, (bool_decide (i ∈ OUT j)). split_and!; [done| |done|done].
      rewrite bool_decide_eq_true. apply Ho. apply Hij.
    + intros (i & j & again & Hij & Hag & Hm & Hx). assert (i ∈ instructions (gf_cfg F)) as Hi by apply Hij.
      apply list_elem_of_bind in Hi as (B & Hi & HB). exists B. split; [|done]. exists i. split; [|done].
      unfold E, instruction_edges. rewrite Hm. apply list_elem_of_bind. exists j.
      assert (bool_decide (i ∈ OUT j) = again) as ->.
      { destruct again; [apply bool_decide_eq_true|apply bool_decide_eq_false]; unfold OUT; rewrite Ho by apply Hij; [by apply Hag|].
        intros Hc. by apply Hag in Hc. }
      split; [done|]. apply elem_of_visit, Ho; [apply Hij|done].
  - unfold constructEdgesFromAliasesForFunction. rewrite Hr. intros h g A R Hl. apply wp_bind, wp_lift.
    eexists. split; [done|]. revert h g A R Hl. apply adds_forM. intros B _. apply adds_forM. intros i _.
    apply adds_iterateInst.
Qed.

(** the functions the generator can analyse: with a well-formed graph and their values in [A] *)
Definition analysable (vals : gset Ptr) (M : list GenFunction) : Prop := ∀ F, F ∈ M → isEmptyFunction F = false →
  wf_cfg (gf_cfg F) ∧ ∀ i, i ∈ instructions (gf_cfg F) → i ∈ vals.

Lemma function_ends F x : memory_dependence F x →
  a_src x ∈ instructions (gf_cfg F) ∧ a_dst x ∈ instructions (gf_cfg F).
Proof.
  intros (i & j & again & (Hi & Hj & _) & _ & _ & Hx).
  pose proof (memory_edges_from_to (getAA F) svf ddAnalyses disableSVF reachableUnhandled sameLocation i j again) as H.
  rewrite Forall_forall in H. destruct (H x Hx) as (-> & -> & _). done.
Qed.

Lemma constructEdgesFromAliases_run vals M : analysable vals M → ∃ l,
  (∀ x, x ∈ l ↔ ∃ F, F ∈ M ∧ isEmptyFunction F = false ∧ memory_dependence F x) ∧ Forall (ends_in vals) l ∧
  adds (constructEdgesFromAliases V getAA svf ddAnalyses disableSVF disableRA reachableUnhandled sameLocation M) l.
Proof.
  unfold constructEdgesFromAliases. induction M as [|F M IH]; intros HM.
  { exists []. split_and!; [|constructor|exact adds_ret]. intros x. rewrite elem_of_nil. setoid_rewrite elem_of_nil. naive_solver. }
  destruct IH as (l & Hl & Hends & Hadds); [intros G HG; apply HM; set_solver|].
  assert (∃ lF, (∀ x, x ∈ lF ↔ isEmptyFunction F = false ∧ memory_dependence F x) ∧ Forall (ends_in vals) lF ∧
    adds (if isEmptyFunction F then ret tt else
      constructEdgesFromAliasesForFunction V getAA svf ddAnalyses disableSVF disableRA reachableUnhandled sameLocation F) lF)
    as (lF & HlF & HendsF & HaddsF).
  { destruct (isEmptyFunction F) eqn:HF.
    - exists []. split_and!; [|constructor|exact adds_ret]. intros x. rewrite elem_of_nil. naive_solver.
    - destruct (HM F) as [W Hv]; [set_solver|done|]. destruct (function_edges F W) as (lF & H1 & H2).
      exists lF. split_and!; [intros x; rewrite H1; naive_solver| |done]. apply Forall_forall. intros x Hx.
      destruct (function_ends F x) as [? ?]; [by apply H1|]. split; by apply Hv. }
  exists (lF ++ l). split_and!; [|by apply Forall_app_2|by apply adds_bind]. intros x. rewrite elem_of_app, HlF, Hl.
  setoid_rewrite elem_of_cons. naive_solver.
Qed.
End function.
End memory.

(** (C6) The dependences from a call to one that may run after it: the nested switches over the
    answers of llvm and of SVF never fail an assertion, and add one dependence of each type that the
    meet of the answers leaves and that no registered analysis excludes ([calls_edges]). A read of
    what the first call writes gives RAW, two writes WAW, and a write of what the first reads WAR,
    save that no WAR is added when the first cannot run again and the second may read too. *)
Theorem addEdgeFromFunctionModRef_call_spec V AA svf ddAnalyses disableSVF reachableUnhandled
    sameLocation h g A call otherCall isCallReachableFromOtherCall :
  (∀ d, isDeallocator V d = true → callOperands V d ≠ []) → rep h g A →
  call ∈ a_values A → otherCall ∈ a_values A → (otherCall = call → isCallReachableFromOtherCall = true) →
  wp (addEdgeFromFunctionModRef_call V AA svf ddAnalyses disableSVF reachableUnhandled sameLocation
        call otherCall isCallReachableFromOtherCall)
    (λ _ s', ∃ A', rep s'.1 s'.2 A' ∧
       grown A (calls_edges V AA svf ddAnalyses disableSVF reachableUnhandled sameLocation
                  call otherCall isCallReachableFromOtherCall) A') (h, g).
Proof.
  intros Hfree R Hc Ho Hself. apply (adds_calls V AA svf ddAnalyses disableSVF reachableUnhandled sameLocation Hfree); [done..|].
  unfold calls_edges. destruct (unrelated_calls _ _ _ _ _ _ _); [constructor|]. apply Forall_bind, Forall_true. intros t.
  eapply Forall_impl; [apply from_to_unless|]. intros x (E1 & E2 & _).
  split; [by rewrite E1|by rewrite E2].
Qed.

(** the memory dependences of two accesses that conflict *)
Lemma memory_dependence_of_conflict V getAA svf ddAnalyses disableSVF disableRA reachableUnhandled
    sameLocation F i j t :
  wf_cfg (gf_cfg F) → may_follow V disableRA F i j → isActualCode V i = true → isActualCode V j = true →
  (isStore V i = true ∧ isStore V j = true ∧ t = DG_DATA_WAW) ∨
  (isStore V i = true ∧ isLoad V j = true ∧ t = DG_DATA_RAW) ∨
  (isLoad V i = true ∧ isStore V j = true ∧ t = DG_DATA_WAR) →
  canThereBeAMemoryDataDependence ddAnalyses i j = true →
  doTheyAlias V (getAA F) svf disableSVF sameLocation i j ≠ NoAlias →
  ∃ must, memory_dependence V getAA svf ddAnalyses disableSVF disableRA reachableUnhandled sameLocation F
            (memory_edge i j t must).
Proof.
  intros W Hf Ai Aj Hcase Hdd Hal. destruct (may_follow_dec V disableRA F j i W) as [again Hag].
  assert (canAccessMemory V i = true ∧ canAccessMemory V j = true) as [Ci Cj].
  { unfold canAccessMemory. rewrite Ai, Aj. cbn [negb].
    unfold isStore, isLoad, isCallBase, isCallInst in *. destruct (v_class V i), (v_class V j); naive_solver. }
  destruct (from_alias V (getAA F) svf disableSVF sameLocation i j t Hal) as [must Hin].
  exists must, i, j, again. split_and!; [done|done|done|]. unfold memory_edges, isCandidate. rewrite Cj, Hdd. cbn [negb andb].
  destruct Hcase as [(Hi & Hj & ->)|[(Hi & Hj & ->)|(Hi & Hj & ->)]]; unfold isStore, isLoad, isInstruction in *;
    destruct (v_class V i), (v_class V j); try done; exact Hin.
Qed.
