(* ===== verification/PDGConstruction.v ===== *)
(** * The program dependence graph of a module before its dependences are trimmed

    The four phases of the construction on a new graph: the values of the functions, the
    dependences between definitions and uses, the memory dependences and the control dependences. *)
From S2P Require Import Prelude DGEdge DGNode DGBase DGInvariant DGSpec PDG DataFlow DataFlowSpec.
From S2P Require Import PDGValues PDGModRef PDGGenerator PDGGrowth PDGControlSpec PDGGeneratorSpec.

(** an edge of this shape is in the graph *)
Definition present (A : AGraph) (x : AEdge) : Prop := ∃ e, a_edges A !! e = Some x.

(** ** Values *)

(** a loop over functions that each run a loop *)
Lemma forM_fmap_ext {S A B C} (f : B → M S unit) (p : A → B) {body : C → M S unit} (vals : A → list C) l s :
  (∀ x s, f (p x) s = forM body (vals x) s) → forM f (p <$> l) s = forM body (mjoin (vals <$> l)) s.
Proof.
  intros H. revert s. induction l as [|x l IH]; intros s; [done|]. cbn [fmap list_fmap mjoin list_join forM]. rewrite forM_app_run.
  unfold bind. rewrite H. by destruct (forM body (vals x) s) as [[s' []]|].
Qed.

Section values.
Context {IO : IterOrder}.

(** the values of a function that has a body *)
Definition function_values (F : GenFunction) : list Ptr :=
  if isEmptyFunction F then [] else gf_args F ++ instructions (gf_cfg F).
Definition module_values (M : list GenFunction) : list Ptr := mjoin (function_values <$> M).

Lemma elem_of_module_values M v : v ∈ module_values M ↔ ∃ F, F ∈ M ∧ v ∈ function_values F.
Proof. unfold module_values. rewrite list_elem_of_join. setoid_rewrite list_elem_of_fmap. naive_solver. Qed.

(** no instruction is in two functions *)
Definition disjoint_functions (M : list GenFunction) : Prop := ∀ k k' F F' i,
  M !! k = Some F → M !! k' = Some F' → isEmptyFunction F = false → isEmptyFunction F' = false →
  i ∈ instructions (gf_cfg F) → i ∈ instructions (gf_cfg F') → k = k'.

Lemma function_in_module M F i : F ∈ M → isEmptyFunction F = false → i ∈ instructions (gf_cfg F) → i ∈ module_values M.
Proof.
  intros HF Hne Hi. apply elem_of_module_values. exists F. split; [done|]. unfold function_values. rewrite Hne. set_solver.
Qed.

Lemma NoDup_disjoint_functions M : NoDup (module_values M) → disjoint_functions M.
Proof.
  intros Hnd k k' F F' i Hk Hk' HF HF' Hi Hi'.
  assert (∀ n n' G G', M !! n = Some G → M !! n' = Some G' → isEmptyFunction G = false → isEmptyFunction G' = false →
    i ∈ instructions (gf_cfg G) → i ∈ instructions (gf_cfg G') → ¬ n < n') as H.
  { clear -Hnd. intros n n' G G' Hn Hn' HG HG' Hi Hi' Hlt. rewrite <- (take_drop_middle M n G Hn) in Hnd.
    unfold module_values in Hnd. rewrite fmap_app, join_app in Hnd. apply NoDup_app in Hnd as (_ & _ & Hnd).
    cbn [fmap list_fmap mjoin list_join] in Hnd. apply NoDup_app in Hnd as (_ & Hnd & _). apply (Hnd i).
    - unfold function_values. rewrite HG. set_solver.
    - apply (function_in_module _ G' i); [|done..]. apply list_elem_of_lookup. exists (n' - S n).
      rewrite lookup_drop. by replace (S n + (n' - S n)) with n' by lia. }
  destruct (lt_eq_lt_dec k k') as [[?| ]|?]; [by destruct (H k k' F F')|done|by destruct (H k' k F' F)].
Qed.
(** the graph whose values are [l], without edges *)
Definition values_graph (l : list Ptr) : AGraph := mkAGraph (list_to_set l) ∅ ∅ (Z.of_nat (length l)).

Lemma a_values_graph l v : v ∈ a_values (values_graph l) ↔ v ∈ l.
Proof. unfold a_values, values_graph. cbn. set_solver. Qed.

Lemma addValues_run l pre h g : NoDup (pre ++ l) → (Z.of_nat (length (pre ++ l)) ≤ int32_max)%Z → rep h g (values_graph pre) →
  wp (forM (λ v, addNode v true ;;; ret tt) l) (λ _ s', rep s'.1 s'.2 (values_graph (pre ++ l))) (h, g).
Proof.
  intros Hnd Hlen R.
  eapply (wp_forM _ (λ done _ s', rep s'.1 s'.2 (values_graph (pre ++ done))) l); [by rewrite app_nil_r|].
  intros k v post [h' g'] Hl R'. rewrite Hl in *. clear Hl. cbn [fst snd] in *. apply wp_bind.
  apply NoDup_app in Hnd as (_ & Hdisj & Hnd). apply NoDup_app in Hnd as (_ & Hk & _).
  assert (v ∉ pre ++ k) as Hv.
  { intros [Hp|Hp]%elem_of_app; [apply (Hdisj v Hp)|apply (Hk v Hp)]; set_solver. }
  eapply wp_mono; [apply (addNode_simulates h' g' _ (CallAddNode v true) v true (or_introl eq_refl) R')|].
  - by rewrite a_values_graph.
  - cbn [a_count values_graph]. rewrite !length_app in *. simpl in Hlen. lia.
  - intros n s' (A' & Hs & R''). apply wp_ret. inversion Hs as [c t b Hc _ _| |c x e Hc| | | |]; subst; [destruct Hc as [[= <- <-]|Hc]; [|done]|done].
    cbn [a_internal a_external a_edges a_count values_graph] in R''.
    assert (values_graph (pre ++ k ++ [v]) = mkAGraph ({[v]} ∪ list_to_set (pre ++ k)) ∅ ∅ (Z.of_nat (length (pre ++ k)) + 1)) as ->; [|done].
    unfold values_graph. rewrite (assoc_L (++)), list_to_set_app_L, length_app. cbn. f_equal; [set_solver|lia].
Qed.

Lemma addNodesOf_values F s :
  (if isDeclaration (pdgFunction F) then ret tt else addNodesOf (pdgFunction F)) s =
  forM (λ v, addNode v true ;;; ret tt) (function_values F) s.
Proof.
  unfold isDeclaration, function_values, isEmptyFunction, addNodesOf, pdgFunction, instructions. cbn [fn_blocks fn_args].
  destruct (blocks (gf_cfg F)) as [|b l]; [done|]. rewrite bool_decide_eq_false_2 by done. rewrite forM_app_run.
  assert (∀ A (m : M GSt A) k k', (∀ a s, k a s = k' a s) → bind m k s = bind m k' s :> Res (GSt * unit)) as Hext.
  { intros A m k k' H. unfold bind. by destruct (m s) as [[??]|]. }
  apply Hext. clear Hext s. intros _ s. generalize (b :: l). clear. intros l. rewrite forM_join.
  assert (mjoin ((λ B : list Ptr, B) <$> (insts (gf_cfg F) <$> l)) = l ≫= insts (gf_cfg F)) as ->; [|done].
  induction l as [|B l IH]; [done|]. by apply (f_equal (app (insts (gf_cfg F) B))).
Qed.

Lemma setEntryPointAt_run F h g A : rep h g A → wf_cfg (gf_cfg F) → isEmptyFunction F = false →
  (∀ v, v ∈ instructions (gf_cfg F) → v ∈ a_internal A) →
  wp (setEntryPointAt (pdgFunction F)) (λ _ s', rep s'.1 s'.2 A) (h, g).
Proof.
  intros R W Hne Hin. unfold setEntryPointAt, setEntryValue, pdgFunction, isEmptyFunction in *. cbn [fn_blocks].
  destruct (blocks (gf_cfg F)) as [|B bs] eqn:Hb; [done|]. cbn [fmap list_fmap head].
  destruct (cf_terminator _ W B) as [HB _]; [rewrite Hb; set_solver|].
  destruct (insts (gf_cfg F) B) as [|v l] eqn:Hi; [done|]. apply wp_bind, wp_deref. eexists. split; [done|].
  apply wp_bind, wp_deref. exists v. split; [done|].
  assert (v ∈ a_internal A) as Hv.
  { apply Hin, list_elem_of_bind. exists B. rewrite Hi, Hb. set_solver. }
  apply (rep_internal _ _ _ R) in Hv as [n Hn]. dg_steps. rewrite Hn. dg_steps. apply wp_massert. split; [done|].
  destruct R. split; try done. by apply setEntryNode_wf.
Qed.

Lemma empty_graph_edges h g A e : rep h g A → a_edges A = ∅ → e ∉ allEdges g.
Proof.
  intros R HA He. pose proof (rep_wf _ _ _ R) as W. destruct (wf_edge _ _ W e He) as (y & Hy & _).
  destruct (edge_view_live _ _ _ _ W He Hy) as (s & d & _ & _ & _ & _ & Hv).
  by rewrite <- (rep_edges _ _ _ R), HA in Hv.
Qed.

(** the graph of a module with a function [main]: its values, and no edge *)
Lemma PDG_ofModule_run M h : heap_ok h → NoDup (module_values (gm_functions M)) →
  (Z.of_nat (length (module_values (gm_functions M))) ≤ int32_max)%Z →
  (∃ F, gm_main M = Some F ∧ F ∈ gm_functions M ∧ isEmptyFunction F = false ∧ wf_cfg (gf_cfg F)) →
  wp (PDG_ofModule (mkModule (pdgFunction <$> gm_functions M) (pdgFunction <$> gm_main M)))
    (λ _ s', rep s'.1 s'.2 (values_graph (module_values (gm_functions M)))) (h, DG_new).
Proof.
  intros Hh Hnd Hlen (F & Hmain & HF & Hne & W). unfold PDG_ofModule. cbn [functions mainFunction]. rewrite Hmain.
  cbn [fmap option_fmap option_map]. apply wp_bind. eapply wp_mono.
  { unfold wp. rewrite (forM_fmap_ext _ _ function_values _ _ addNodesOf_values).
    apply (addValues_run _ [] h DG_new Hnd Hlen). by apply DG_new_rep. }
  intros [] [h1 g1] R1. dg_steps. eapply wp_mono.
  { apply (setEntryPointAt_run F h1 g1 _ R1 W Hne). intros v Hv. cbn [a_internal values_graph]. apply elem_of_list_to_set.
    apply elem_of_module_values. exists F. split; [done|]. unfold function_values. rewrite Hne. set_solver. }
  intros [] [h2 g2] R2. cbn [fst snd app] in *. dg_steps.
  eapply wp_mono; [apply (wp_forM_inv _ (λ s', rep s'.1 s'.2 (values_graph (module_values (gm_functions M)))))|done]; [done|].
  intros e s' He%elem_of_visit. by destruct (empty_graph_edges _ _ _ e R2 eq_refl).
Qed.
End values.

(** ** Definitions and uses *)

Section useDefs.
Context {IO : IterOrder} (V : Values).

(** [u] uses the value [v] *)
Definition use_edges (v : Ptr) : list AEdge :=
  v_uses V v ≫= λ u, if isInstruction V u || isArgument V u
                     then [mkAEdge v u VARIABLE_DEPENDENCE (Some DG_DATA_RAW)] else [].

(** the nodes are those of before *)
Definition same_nodes (s s' : GSt) : Prop :=
  allNodes s'.2 = allNodes s.2 ∧ ∀ n, theT <$> hnodes s'.1 !! n = theT <$> hnodes s.1 !! n.

Lemma adds_use h g A v u : rep h g A → v ∈ a_values A → u ∈ a_values A →
  wp (addVariableDataDependenceEdge v u DG_DATA_RAW ;;; ret tt) (λ _ s',
    (∃ A', rep s'.1 s'.2 A' ∧ grown A [mkAEdge v u VARIABLE_DEPENDENCE (Some DG_DATA_RAW)] A') ∧ same_nodes (h, g) s') (h, g).
Proof.
  intros R Hv Hu. apply wp_conj.
  - apply (adds_variable v u DG_DATA_RAW h g A R). by apply Forall_singleton.
  - apply (rep_values _ _ _ _ R) in Hv as [f Hf]. apply (rep_values _ _ _ _ R) in Hu as [t Ht]. apply wp_bind.
    eapply wp_mono; [by apply (addEdge_spec _ _ _ _ _ _ _ (rep_wf _ _ _ R) Hf Ht)|].
    intros e s' [-> ->]. apply wp_ret. split; [done|]. intros n. rewrite added_edge_nodes. by destruct (hnodes _ !! n).
Qed.

(** where the construction is: the edges [l] are there, and the nodes are those of before *)
Definition with_uses (s : GSt) (A : AGraph) (l : list AEdge) (s' : GSt) : Prop :=
  (∃ A', rep s'.1 s'.2 A' ∧ grown A l A') ∧ same_nodes s s'.

Lemma uses_step s A l s' v : with_uses s A l s' → v ∈ a_values A →
  (∀ u, u ∈ v_uses V v → isInstruction V u || isArgument V u = true → u ∈ a_values A) →
  wp (forM (λ user, if isInstruction V user || isArgument V user
        then addVariableDataDependenceEdge v user DG_DATA_RAW ;;; ret tt else ret tt) (v_uses V v))
    (λ _ s'', with_uses s A (l ++ use_edges v) s'') s'.
Proof.
  intros U Hv Hu. unfold use_edges. eapply wp_mono.
  { apply (wp_forM _ (λ pre _ s'', with_uses s A (l ++ (pre ≫= λ u, if isInstruction V u || isArgument V u
      then [mkAEdge v u VARIABLE_DEPENDENCE (Some DG_DATA_RAW)] else [])) s'')).
    - by rewrite app_nil_r.
    - intros pre u post [h1 g1] Hl ((A1 & R1 & G1) & N1). rewrite bind_app, (assoc_L (++)). cbn [fst snd] in *.
      simpl. destruct (isInstruction V u || isArgument V u) eqn:Hc.
      + eapply wp_mono; [apply (adds_use h1 g1 A1 v u R1); rewrite (grown_values _ _ _ G1); [done|]|].
        { apply Hu; [rewrite Hl; set_solver|done]. }
        intros [] s'' ((A2 & R2 & G2) & N2). split.
        * exists A2. split; [done|]. rewrite app_nil_r. by eapply grown_trans.
        * destruct N1 as [E1 E2], N2 as [F1 F2]. split; [congruence|]. intros n. by rewrite F2, E2.
      + apply wp_ret. rewrite !app_nil_r. split; [by exists A1|done]. }
  done.
Qed.

Lemma constructEdgesFromUseDefs_run h g A : rep h g A →
  (∀ v u, v ∈ a_values A → u ∈ v_uses V v → isInstruction V u || isArgument V u = true → u ∈ a_values A) →
  wp (constructEdgesFromUseDefs V) (λ _ s', ∃ A' l, rep s'.1 s'.2 A' ∧ grown A l A' ∧
    ∀ x, x ∈ l ↔ ∃ v, v ∈ a_values A ∧ x ∈ use_edges v) (h, g).
Proof.
  intros R Hu. pose proof (rep_wf _ _ _ R) as W. unfold constructEdgesFromUseDefs. dg_steps.
  assert (∀ n, n ∈ allNodes g → ∃ x, hnodes h !! n = Some x ∧ theT x ∈ a_values A) as Hnode.
  { intros n Hn. destruct (wf_node _ _ W n Hn) as (x & Hx & HT). exists x. split; [done|]. apply (rep_values _ _ _ _ R). eauto. }
  eapply wp_mono.
  { apply (wp_forM _ (λ pre _ s', ∃ l, with_uses (h, g) A l s' ∧
      ∀ x, x ∈ l ↔ ∃ n y, n ∈ pre ∧ hnodes h !! n = Some y ∧ x ∈ use_edges (theT y))).
    - exists []. split; [split; [exists A; split; [done|apply grown_nil]|done]|]. intros x.
      split; [by intros ?%elem_of_nil|]. by intros (? & ? & ?%elem_of_nil & _).
    - intros pre n post s' Hl (l & U & Hx). assert (n ∈ allNodes g) as Hn by (apply elem_of_visit; rewrite Hl; set_solver).
      destruct (Hnode n Hn) as (y & Hy & HT). pose proof U as (_ & _ & Hs). specialize (Hs n). cbn [fst] in Hs. rewrite Hy in Hs.
      destruct (hnodes s'.1 !! n) as [y'|] eqn:Hy'; [|done]. injection Hs as Hs. dg_steps. exists y'. split; [done|].
      unfold getT. rewrite Hs. destruct s' as [h' g']. cbn [fst snd] in *.
      eapply wp_mono; [apply (uses_step _ A l _ _ U HT); intros u; by apply Hu|]. intros [] s'' U''. exists (l ++ use_edges (theT y)).
      split; [done|]. intros x. rewrite elem_of_app, Hx. split.
      + intros [(n' & z & ? & ? & ?)|?]; [exists n', z|exists n, y]; set_solver.
      + intros (n' & z & [?|E%list_elem_of_singleton]%elem_of_app & Hz & ?); [left; eauto|right; by simplify_eq]. }
  intros [] s' (l & ((A' & R' & G) & _) & Hx). exists A', l. split_and!; [done..|]. intros x. rewrite Hx. split.
  - intros (n & y & Hn%elem_of_visit & Hy & Hxy). exists (theT y). split; [|done]. destruct (Hnode n Hn) as (? & ? & ?). by simplify_eq.
  - intros (v & [n Hn]%(rep_values _ _ _ _ R) & Hxv). destruct (wf_map _ _ W _ _ Hn) as (Hin & y & Hy & HT).
    exists n, y. split_and!; [by apply elem_of_visit|done|by rewrite HT].
Qed.
End useDefs.

(** ** Control dependences of a module *)

Section control.
Context {IO : IterOrder} (V : Values) (getPDT : GenFunction → PostDominatorTree).

(** [p] controls [v] in one of the functions, in a graph where [C] control already *)
Definition module_controls (M : list GenFunction) (C : Ptr → Ptr → Prop) (p v : Ptr) : Prop :=
  ∃ F, F ∈ M ∧ isEmptyFunction F = false ∧ function_controls V (gf_cfg F) (getPDT F) C p v.

Lemma constructEdgesFromControl_run M h g A : rep h g A → disjoint_functions M →
  (∀ F, F ∈ M → isEmptyFunction F = false → wf_control V (gf_cfg F) (getPDT F) ∧
     ∀ i, i ∈ instructions (gf_cfg F) → i ∈ a_values A) →
  adds_controls (constructEdgesFromControl V getPDT M) A h g (module_controls M (controls A)).
Proof.
  intros R Hdisj HM. apply (wp_forM _ (λ pre _ s', ∃ A' l, rep s'.1 s'.2 A' ∧ grown A l A' ∧ Forall is_control l ∧
    ∀ p v, controls A' p v ↔ controls A p v ∨ module_controls pre (controls A) p v)).
  - exists A, []. split_and!; [done|apply grown_nil|constructor|]. intros p v. split; [by left|].
    by intros [?|(? & ?%elem_of_nil & _)].
  - intros pre F post [h' g'] Hl (A' & l & R' & G & Hc & HA'). cbn [fst snd] in *.
    assert (∀ p v, module_controls (pre ++ [F]) (controls A) p v ↔ module_controls pre (controls A) p v ∨
      isEmptyFunction F = false ∧ function_controls V (gf_cfg F) (getPDT F) (controls A) p v) as Hsnoc.
    { intros p v. unfold module_controls. setoid_rewrite elem_of_app. setoid_rewrite list_elem_of_singleton. clear. naive_solver. }
    destruct (isEmptyFunction F) eqn:HF.
    { apply wp_ret. exists A', l. split_and!; [done..|]. intros p v. rewrite HA', Hsnoc. clear. naive_solver. }
    destruct (HM F) as [WF Hv]; [rewrite Hl; set_solver|done|]. eapply wp_mono.
    { apply (constructEdgesFromControlForFunction_run V _ _ WF h' g' A' R'). intros i Hi. rewrite (grown_values _ _ _ G). auto. }
    intros [] s' (A'' & l' & R'' & G' & Hc' & HA''). exists A'', (l ++ l').
    split_and!; [done|by eapply grown_trans|by apply Forall_app_2|]. intros p v. rewrite HA'', HA', Hsnoc.
    rewrite (function_controls_ext V _ _ WF (controls A') (controls A)); [clear; naive_solver|].
    intros t Ht. rewrite HA'. split; [|by left]. intros [?|(F' & [k Hk]%list_elem_of_lookup & HF' & Hc'')]; [done|]. exfalso.
    destruct (HM F') as [WF' _]; [rewrite Hl; apply elem_of_app; left; by apply list_elem_of_lookup; exists k|done|].
    apply (function_controls_in V _ _ WF') in Hc''. apply lookup_lt_Some in Hk as Hlt.
    enough (k = length pre) by lia. apply (Hdisj k (length pre) F' F t); try done; rewrite Hl.
    + by rewrite lookup_app_l.
    + by apply list_lookup_middle.
Qed.
End control.

(** ** The four phases *)

Section construction.
Context {IO : IterOrder} (V : Values) (getAA : GenFunction → AliasAnalysis) (svf : SVFAnalysis).
Context (ddAnalyses : list DependenceAnalysis) (disableSVF disableRA : bool) (reachableUnhandled : gmap Ptr (gset Ptr)).
Context (sameLocation : Ptr → Ptr → bool) (getPDT : GenFunction → PostDominatorTree).

(** what the construction relies on: every value is in one place, every function is well formed,
    the instructions and arguments that use a value are in the program, and [free] has an argument *)
Record wf_program (M : GenModule) : Prop := {
  wp_values : NoDup (module_values (gm_functions M));
  wp_count : (Z.of_nat (length (module_values (gm_functions M))) ≤ int32_max)%Z;
  wp_main : ∃ F, gm_main M = Some F ∧ F ∈ gm_functions M ∧ isEmptyFunction F = false;
  wp_functions F : F ∈ gm_functions M → isEmptyFunction F = false → wf_control V (gf_cfg F) (getPDT F);
  wp_users v u : v ∈ module_values (gm_functions M) → u ∈ v_uses V v →
    isInstruction V u || isArgument V u = true → u ∈ module_values (gm_functions M);
  wp_free d : isDeallocator V d = true → callOperands V d ≠ []
}.

(** the dependences of a program *)
Definition dependence (M : GenModule) (x : AEdge) : Prop :=
  (∃ v, v ∈ module_values (gm_functions M) ∧ x ∈ use_edges V v) ∨
  (∃ F, F ∈ gm_functions M ∧ isEmptyFunction F = false ∧
     memory_dependence V getAA svf ddAnalyses disableSVF disableRA reachableUnhandled sameLocation F x) ∨
  (∃ p v, x = control_edge p v ∧ module_controls V getPDT (gm_functions M) (λ _ _, False) p v).


Lemma controls_none A l : a_edges A = ∅ → ∀ A', grown A l A' → Forall (λ x, a_kind x ≠ CONTROL_DEPENDENCE) l →
  ∀ p v, ¬ controls A' p v.
Proof.
  intros HA A' G Hl p v (x & Hx & _ & _ & Hk). apply (elem_of_grown _ _ _ _ G) in Hx as [(e & He)|Hx].
  - by rewrite HA in He.
  - rewrite Forall_forall in Hl. by apply (Hl x).
Qed.

Lemma module_controls_ext M (C C' : Ptr → Ptr → Prop) p v :
  (∀ F, F ∈ M → isEmptyFunction F = false → wf_control V (gf_cfg F) (getPDT F)) →
  (∀ p v, C p v ↔ C' p v) → module_controls V getPDT M C p v ↔ module_controls V getPDT M C' p v.
Proof.
  intros HM HC. unfold module_controls. split; intros (F & HF & Hne & H); exists F; split_and!; try done;
    revert H; apply (function_controls_ext V (gf_cfg F) (getPDT F)); try (by apply HM); intros t _; by rewrite HC.
Qed.

(** the control edges added to a graph without any *)
Lemma new_controls M A l A' : (∀ F, F ∈ M → isEmptyFunction F = false → wf_control V (gf_cfg F) (getPDT F)) →
  (∀ p v, ¬ controls A p v) → grown A l A' → Forall is_control l →
  (∀ p v, controls A' p v ↔ controls A p v ∨ module_controls V getPDT M (controls A) p v) →
  ∀ x, x ∈ l ↔ ∃ p v, x = control_edge p v ∧ module_controls V getPDT M (λ _ _, False) p v.
Proof.
  intros HM Hnone G C H. assert (∀ p v, control_edge p v ∈ l ↔ module_controls V getPDT M (λ _ _, False) p v) as Hl.
  { intros p v. pose proof (controls_grown _ _ _ p v G C) as Hc. rewrite H in Hc.
    rewrite <- (module_controls_ext _ (controls A) _ p v HM); [|intros q w; split; [apply Hnone|done]].
    specialize (Hnone p v). split; intros Hx; [|by destruct (proj1 Hc (or_intror Hx))].
    by destruct (proj2 Hc (or_intror Hx)). }
  intros x. split.
  - intros Hx. rewrite Forall_forall in C. pose proof (C x Hx) as E. exists (a_src x), (a_dst x). split; [done|].
    apply Hl. by rewrite <- E.
  - intros (p & v & -> & Hx). by apply Hl.
Qed.

Lemma memory_dependence_kind F x :
  memory_dependence V getAA svf ddAnalyses disableSVF disableRA reachableUnhandled sameLocation F x →
  a_kind x = MUST_MEMORY_DEPENDENCE ∨ a_kind x = MAY_MEMORY_DEPENDENCE.
Proof.
  intros (i & j & again & _ & _ & _ & Hx).
  pose proof (memory_edges_from_to V (getAA F) svf ddAnalyses disableSVF reachableUnhandled sameLocation i j again) as H.
  rewrite Forall_forall in H. destruct (H x Hx) as (_ & _ & Hk & _). set_solver.
Qed.

Lemma use_edges_kind v x : x ∈ use_edges V v → a_kind x = VARIABLE_DEPENDENCE.
Proof.
  intros (u & Hx & _)%list_elem_of_bind. destruct (_ || _); [|by apply elem_of_nil in Hx].
  by apply list_elem_of_singleton in Hx as ->.
Qed.

Lemma constructPDG_run M h : heap_ok h → wf_program M →
  wp (PDG_ofModule (mkModule (pdgFunction <$> gm_functions M) (pdgFunction <$> gm_main M)) ;;;
      constructEdgesFromUseDefs V ;;;
      constructEdgesFromAliases V getAA svf ddAnalyses disableSVF disableRA reachableUnhandled sameLocation (gm_functions M) ;;;
      constructEdgesFromControl V getPDT (gm_functions M))
    (λ _ s', ∃ A, rep s'.1 s'.2 A ∧ a_internal A = list_to_set (module_values (gm_functions M)) ∧ a_external A = ∅ ∧
       ∀ x, present A x ↔ dependence M x) (h, DG_new).
Proof.
  intros Hh WP. set (A0 := values_graph (module_values (gm_functions M))).
  assert (∀ v, v ∈ a_values A0 ↔ v ∈ module_values (gm_functions M)) as HA0 by apply a_values_graph. apply wp_bind. eapply wp_mono.
  { apply (PDG_ofModule_run M h Hh (wp_values _ WP) (wp_count _ WP)). destruct (wp_main _ WP) as (F & ? & HF & Hne). exists F.
    split_and!; try done. apply (wc_cfg _ _ _ (wp_functions _ WP F HF Hne)). }
  intros [] [h0 g0] R0. cbn [fst snd] in R0. fold A0 in R0. apply wp_bind. eapply wp_mono.
  { apply (constructEdgesFromUseDefs_run V h0 g0 A0 R0). intros v u Hv Hu Hc. apply HA0 in Hv. apply HA0.
    by apply (wp_users _ WP v). }
  intros [] [h1 g1] (A1 & l1 & R1 & G1 & H1). cbn [fst snd] in *. apply wp_bind.
  destruct (constructEdgesFromAliases_run V (wp_free _ WP) getAA svf ddAnalyses disableSVF disableRA reachableUnhandled
    sameLocation (a_values A1) (gm_functions M)) as (l2 & H2 & E2 & Hadds).
  { intros F HF Hne. split; [apply (wc_cfg _ _ _ (wp_functions _ WP F HF Hne))|]. intros i Hi.
    rewrite (grown_values _ _ _ G1), HA0. by apply (function_in_module _ F). }
  eapply wp_mono; [by apply (Hadds h1 g1 A1)|]. intros [] [h2 g2] (A2 & R2 & G2). cbn [fst snd] in *.
  pose proof (grown_trans _ _ _ _ _ G1 G2) as G12.
  eapply wp_mono.
  { apply (constructEdgesFromControl_run V getPDT (gm_functions M) h2 g2 A2 R2).
    - apply NoDup_disjoint_functions, (wp_values _ WP).
    - intros F HF Hne. split; [by apply (wp_functions _ WP)|]. intros i Hi. rewrite (grown_values _ _ _ G12), HA0.
      by apply (function_in_module _ F). }
  intros [] s' (A3 & l3 & R3 & G3 & C3 & H3). pose proof (grown_trans _ _ _ _ _ G12 G3) as G. exists A3. split_and!.
  - done.
  - by rewrite (gr_internal _ _ _ G).
  - by rewrite (gr_external _ _ _ G).
  - assert (∀ p v, ¬ controls A2 p v) as Hnone.
    { apply (controls_none A0 _ eq_refl A2 G12). apply Forall_app_2; apply Forall_forall.
      - intros x (v & _ & Hx%use_edges_kind)%H1 Hk. congruence.
      - intros x (F & _ & _ & [Hk|Hk]%memory_dependence_kind)%H2 Hk'; congruence. }
    pose proof (new_controls (gm_functions M) A2 l3 A3 (wp_functions _ WP) Hnone G3 C3 H3) as H3'.
    intros x. unfold present. rewrite (elem_of_grown _ _ _ _ G), !elem_of_app, H1, H2, H3'. unfold dependence.
    setoid_rewrite HA0. split; [intros [(e & He)|[[?|?]|?]]; [by cbn in He|tauto..]|tauto].
Qed.
End construction.
