(* ===== verification/PDGTrimSpec.v ===== *)
(** * The dependences that the generator removes

    The search for a path within one iteration of a loop, the reasons for which a memory dependence
    is removed, and what is left of a graph after the removal. *)
From stdpp Require Import strings.
From S2P Require Import Prelude DGEdge DGNode DGBase DGInvariant DGSpec PDG DataFlow DataFlowSpec.
From S2P Require Import PDGValues PDGModRef PDGGenerator PDGGrowth PDGModRefSpec PDGControlSpec PDGGeneratorSpec PDGConstruction.

(** ** Paths within an iteration *)

Section precede.
Context (cfg : CFG) (WF : wf_cfg cfg) (fromBB : Ptr) (headerBB : option Ptr).

(** the search goes from [b] back to its predecessor [p] *)
Definition back (b p : Ptr) : Prop := b ≠ fromBB ∧ Some b ≠ headerBB ∧ p ∈ predecessors cfg b.

Record searching (toBB : Ptr) (st : list Ptr * gset Ptr) : Prop := {
  se_blocks b : b ∈ st.2 → b ∈ blocks cfg;
  se_queue b : b ∈ st.1 → b ∈ st.2;
  se_start : toBB ∈ st.2;
  se_path b : b ∈ st.2 → rtc back toBB b;
  se_done b : b ∈ st.2 → b ∉ st.1 → b ≠ fromBB ∧ ∀ p, back b p → p ∈ st.2
}.

Definition search_work (st : list Ptr * gset Ptr) : nat := length st.1 + (length (blocks cfg) - size st.2).

Lemma searched_size toBB st : searching toBB st → size st.2 ≤ length (blocks cfg).
Proof.
  intros S. etrans; [|apply (size_list_to_set_le (blocks cfg))]. apply subseteq_size. intros b Hb.
  apply elem_of_list_to_set. by apply (se_blocks _ _ S).
Qed.

Lemma precede_run toBB : toBB ∈ blocks cfg →
  ∃ b, while (S (S (length (blocks cfg)))) (precedeStep cfg fromBB headerBB) ([toBB], {[toBB]}) = Ok b ∧
    (b = true ↔ rtc back toBB fromBB).
Proof.
  intros Hto. apply (while_spec _ (searching toBB) search_work).
  - split; cbn [fst snd]; set_solver.
  - intros [[|bb q] r] S; cbn [precedeStep].
    + right. exists false. split; [done|]. split; [done|]. intros Hpath. exfalso. destruct S as [S1 S2 S3 S4 S5].
      cbn [fst snd] in *. assert (fromBB ∈ r) as Hf.
      { clear -Hpath S3 S5. induction Hpath as [|x y z Hs _ IH]; [done|]. apply IH; [|done].
        apply (S5 x S3 (not_elem_of_nil x)). done. }
      by destruct (S5 fromBB Hf (not_elem_of_nil _)).
    + case_decide as Hb; [right; exists true; split; [done|]; split; [intros _|done]|left].
      { subst bb. apply (se_path _ _ S). apply (se_queue _ _ S). cbn. set_solver. }
      case_decide as Hh.
      * eexists. split; [done|]. destruct S as [S1 S2 S3 S4 S5]. cbn [fst snd] in *. split.
        -- split; cbn [fst snd]; try done; [set_solver|]. intros b Hbr Hbq. destruct (decide (b = bb)) as [->|]; [|apply S5; set_solver].
           split; [done|]. by intros p (_ & Hne & _).
        -- unfold search_work. cbn. lia.
      * destruct S as [S1 S2 S3 S4 S5]. cbn [fst snd] in *.
        assert (bb ∈ r) as Hbb by (apply S2; set_solver).
        assert (∀ b, b ∈ predecessors cfg bb → b ∈ blocks cfg) as Hpred.
        { intros b Hp. by apply (cf_pred _ WF bb b (S1 bb Hbb)) in Hp as [? _]. }
        destruct (push_unseen (predecessors cfg bb) q r) as (new & -> & Hnd & H1 & H2).
        eexists. split; [done|]. assert (searching toBB (q ++ new, list_to_set new ∪ r)) as S'.
        { split; cbn [fst snd].
          - intros b [Hb'%elem_of_list_to_set|?]%elem_of_union; [apply Hpred; by apply H1|auto].
          - intros b [Hq|?]%elem_of_app; apply elem_of_union; [right; apply S2; by right|left; by apply elem_of_list_to_set].
          - apply elem_of_union. by right.
          - intros b [Hn%elem_of_list_to_set|?]%elem_of_union; [|auto]. eapply rtc_r; [by apply S4|]. split_and!; [done..|]. by apply H1.
          - intros b Hbr Hbq. assert (b ∈ r ∧ b ∉ q) as [Hr Hq].
            { rewrite elem_of_app in Hbq. rewrite elem_of_union, elem_of_list_to_set in Hbr. tauto. }
            setoid_rewrite elem_of_union. setoid_rewrite elem_of_list_to_set. destruct (decide (b = bb)) as [->|Hne].
            + split; [done|]. intros p (_ & _ & Hp). by apply H2.
            + destruct (S5 b Hr) as [? Hc]; [by intros [->|]%elem_of_cons|]. split; [done|]. intros p Hp. right. by apply Hc. }
        split; [done|]. apply searched_size in S' as Hs. unfold search_work. cbn [fst snd] in *.
        rewrite size_unseen in * by (done || intros x Hx; by apply H1). rewrite length_app. cbn [length]. lia.
  - unfold search_work. cbn [fst snd length]. lia.
Qed.
End precede.

(** ** Why a dependence is removed *)

Lemma firstOf_spec from to l : from ∈ l →
  ∃ b, firstOf from to l = Some b ∧ (b = true ↔ ∃ l1 l2, l = l1 ++ from :: l2 ∧ to ∉ l1).
Proof.
  induction l as [|i l IH]; intros Hl; [by apply elem_of_nil in Hl|]. cbn [firstOf].
  case_decide as Hf; [subst i; exists true; split; [done|]; split; [intros _; exists [], l; split; [done|apply not_elem_of_nil]|done]|].
  case_decide as Ht.
  - subst i. exists false. split; [done|]. split; [done|]. intros ([|x l1] & l2 & [= <- ?] & Hn); [done|]. destruct Hn. set_solver.
  - apply elem_of_cons in Hl as [->|Hl]; [done|]. destruct (IH Hl) as (b & Hb & Hiff). exists b. split; [done|]. rewrite Hiff. split.
    + intros (l1 & l2 & -> & Hn). exists (i :: l1), l2. split; [done|]. by apply not_elem_of_cons.
    + intros ([|x l1] & l2 & [= <- ->] & Hn); [done|]. exists l1, l2. split; [done|]. by apply not_elem_of_cons in Hn as [_ ?].
Qed.

Section trim.
Context {IO : IterOrder} (V : Values) (allocAA : AllocAA) (mayAlias : Ptr → Ptr → bool).
Context (functionOf : Ptr → CFG) (loopHeaderOf : Ptr → option Ptr).

(** [from] can run before [to] in one iteration of the innermost loop around [from] *)
Definition precedes (from to : Ptr) : Prop :=
  if decide (v_parent V from = v_parent V to)
  then ∃ l1 l2, insts (functionOf from) (v_parent V from) = l1 ++ from :: l2 ∧ to ∉ l1
  else rtc (back (functionOf from) (v_parent V from) (loopHeaderOf (v_parent V from))) (v_parent V to) (v_parent V from).

(** the two instructions are of one function, of which [functionOf] is the graph *)
Definition located (from to : Ptr) : Prop :=
  wf_cfg (functionOf from) ∧ from ∈ insts (functionOf from) (v_parent V from) ∧ v_parent V to ∈ blocks (functionOf from).

Lemma canPrecede_run from to : located from to →
  ∃ b, canPrecedeInCurrentIteration V functionOf loopHeaderOf from to = Ok b ∧ (b = true ↔ precedes from to).
Proof.
  intros (W & Hin & HB). unfold canPrecedeInCurrentIteration, precedes. case_decide as Hd.
  - destruct (firstOf_spec from to _ Hin) as (b & -> & Hb). by exists b.
  - by apply precede_run.
Qed.

(** a call (or, between two calls, the source) and the other end *)
Definition call_and_other (x : AEdge) : Ptr * Ptr :=
  if isCallBase V (a_src x) then (a_src x, a_dst x) else (a_dst x, a_src x).

(** a call [c] that prints does not write, and reads only what its arguments point to *)
Definition refuted_by_print (c o : Ptr) : Prop := ∃ f, o ≠ c ∧
  calledFunction V c = Some f ∧ fn_empty V f = true ∧ isCallToPrint V c = true ∧
  (isLoad V o = true ∨ ∃ p, v_class V o = StoreValue p ∧
     ∀ arg, arg ∈ callOperands V c → v_isPointer V arg = true → mayAlias arg p = false).

(** the memory dependence [x] is refuted *)
Inductive refuted (x : AEdge) : Prop :=
  (** by the points-to analysis *)
  | refuted_alias p0 p1 :
      isCallBase V (a_src x) = false → isCallBase V (a_dst x) = false →
      getPointer V (a_src x) = Some p0 → getPointer V (a_dst x) = Some p1 → mayAlias p0 p1 = false → refuted x
  (** by what a call that prints accesses *)
  | refuted_print :
      isCallBase V (a_src x) = true ∨ isCallBase V (a_dst x) = true →
      refuted_by_print (call_and_other x).1 (call_and_other x).2 → refuted x
  (** two arrays *)
  | refuted_arrays a1 a2 :
      isCallBase V (a_src x) = false → isCallBase V (a_dst x) = false →
      (getPrimitiveArrayAccess allocAA (a_src x)).1 = Some a1 → (getPrimitiveArrayAccess allocAA (a_dst x)).1 = Some a2 →
      a1 ≠ a2 → refuted x
  (** a global array that one of the two accesses by indices that are constants or induction variables,
      when the access that would come first cannot in one iteration *)
  | refuted_backedge a g :
      isCallBase V (a_src x) = false → isCallBase V (a_dst x) = false → isGlobal V a = true →
      (getPrimitiveArrayAccess allocAA (a_src x) = (Some a, Some g) ∧ getPrimitiveArrayAccess allocAA (a_dst x) = (Some a, None) ∧
         isStore V (a_src x) = true ∧ isLoad V (a_dst x) = true) ∨
      (getPrimitiveArrayAccess allocAA (a_src x) = (Some a, None) ∧ getPrimitiveArrayAccess allocAA (a_dst x) = (Some a, Some g) ∧
         isLoad V (a_src x) = true ∧ isStore V (a_dst x) = true) →
      areGEPIndicesConstantOrIV allocAA g = true → ¬ precedes (a_src x) (a_dst x) → refuted x
  (** two calls of functions that do not write, or one and a load *)
  | refuted_reads :
      (∀ i, i = a_src x ∨ i = a_dst x →
         (isCallInst V i = true ∧ isFunctionNonWriting allocAA (getCallFnName V i) = true) ∨ isLoad V i = true) →
      isCallInst V (a_src x) = true ∨ isCallInst V (a_dst x) = true → refuted x
  (** a call of a function that does not touch memory and a store *)
  | refuted_memoryless c o :
      (c = a_src x ∧ o = a_dst x) ∨ (c = a_dst x ∧ o = a_src x) → isCallInst V c = true →
      isMemoryless allocAA (getCallFnName V c) = true → isStore V o = true → refuted x.

(** the kinds of [MemoryDependence] *)
Definition is_memory (x : AEdge) : Prop :=
  (kind_value FIRST_MEMORY_DEPENDENCE ≤ kind_value (a_kind x))%Z ∧ (kind_value (a_kind x) ≤ kind_value LAST_MEMORY_DEPENDENCE)%Z.

(** the ends of a dependence between accesses are what its type says *)
Definition typed (x : AEdge) : Prop :=
  is_memory x →
  isCallBase V (a_src x) = false → isCallBase V (a_dst x) = false →
  ((a_type x = Some DG_DATA_WAW ∧ isStore V (a_src x) = true ∧ isStore V (a_dst x) = true) ∨
   (a_type x = Some DG_DATA_WAR ∧ isLoad V (a_src x) = true ∧ isStore V (a_dst x) = true) ∨
   (a_type x = Some DG_DATA_RAW ∧ isStore V (a_src x) = true ∧ isLoad V (a_dst x) = true)) ∧
  located (a_src x) (a_dst x).

(** *** One edge *)

Section edge.
Context (h : Heap) (y : DGEdge) (x : AEdge).
Context (Hs : getSrc y h = Ok (h, a_src x)) (Hd : getDst y h = Ok (h, a_dst x)).
Context (Hk : kind y = a_kind x) (Ht : dataDepType y = a_type x) (HT : typed x).

Lemma memory_classof : MemoryDependence_classof y = true ↔ is_memory x.
Proof. unfold MemoryDependence_classof, is_memory, getKind. by rewrite Hk, andb_true_iff, !Z.leb_le. Qed.

(** a test that answers without changing the heap, and when it says yes *)
Definition answers (m : M Heap bool) (P : Prop) : Prop := ∃ b, m h = Ok (h, b) ∧ (b = true ↔ P).

Lemma answers_ret b (P : Prop) : (b = true ↔ P) → answers (ret b) P.
Proof. intros H. by exists b. Qed.

Lemma answers_src {m} (P : Prop) : answers (m (a_src x)) P → answers (let* s := getSrc y in m s) P.
Proof. intros (b & Hb & HP). exists b. split; [|done]. unfold bind. by rewrite Hs. Qed.
Lemma answers_dst {m} (P : Prop) : answers (m (a_dst x)) P → answers (let* d := getDst y in m d) P.
Proof. intros (b & Hb & HP). exists b. split; [|done]. unfold bind. by rewrite Hd. Qed.

Lemma answers_or m1 m2 (P1 P2 : Prop) : answers m1 P1 → answers m2 P2 →
  answers (let* b := m1 in if b : bool then ret true else m2) (P1 ∨ P2).
Proof.
  intros (b1 & E1 & H1) (b2 & E2 & H2). unfold answers, bind. rewrite E1. destruct b1.
  - exists true. split; [done|]. split; [left; by apply H1|done].
  - exists b2. split; [done|]. rewrite H2. split; [by right|]. intros [?%H1|?]; done.
Qed.

(** the questions to the points-to analysis *)
Definition refuted_pointers : Prop :=
  (∃ p0 p1, isCallBase V (a_src x) = false ∧ isCallBase V (a_dst x) = false ∧
     getPointer V (a_src x) = Some p0 ∧ getPointer V (a_dst x) = Some p1 ∧ mayAlias p0 p1 = false) ∨
  ((isCallBase V (a_src x) = true ∨ isCallBase V (a_dst x) = true) ∧ refuted_by_print (call_and_other x).1 (call_and_other x).2).

Lemma overlap_spec (l : list Ptr) p :
  negb (existsb (λ o, mayAlias o p) (filter (λ arg, v_isPointer V arg = true) l)) = true ↔
  ∀ arg, arg ∈ l → v_isPointer V arg = true → mayAlias arg p = false.
Proof.
  rewrite negb_true_iff, <- not_true_iff_false, existsb_exists. split.
  - intros H arg Ha Hp. apply not_true_iff_false. intros Hm. apply H. exists arg. split; [|done].
    apply list_elem_of_In, list_elem_of_filter. done.
  - intros H (arg & [Hp Ha]%list_elem_of_In%list_elem_of_filter & Hm). by rewrite H in Hm.
Qed.

Lemma print_answers c o : answers
  (if decide (o = c) then ret false
   else match calledFunction V c with
        | None => ret false
        | Some callee =>
            if negb (fn_empty V callee) then ret false
            else if negb (isCallToPrint V c) then ret false
            else if isLoad V o then ret true
            else match v_class V o with
                 | StoreValue o1 => ret (negb (existsb (λ o0, mayAlias o0 o1)
                     (filter (λ arg, v_isPointer V arg = true) (callOperands V c))))
                 | _ => ret false
                 end
        end) (refuted_by_print c o).
Proof.
  unfold refuted_by_print. case_decide as Ho; [apply answers_ret; naive_solver|].
  destruct (calledFunction V c) as [f|]; [|apply answers_ret; naive_solver].
  destruct (fn_empty V f) eqn:Hf; cbn [negb]; [|apply answers_ret; naive_solver].
  destruct (isCallToPrint V c); cbn [negb]; [|apply answers_ret; naive_solver].
  destruct (isLoad V o); [apply answers_ret; split; [intros _|done]; exists f; naive_solver|].
  destruct (v_class V o) as [|l|p| | | | |]; try (apply answers_ret; naive_solver).
  apply answers_ret. rewrite overlap_spec. naive_solver.
Qed.

Lemma answers_iff m (P Q : Prop) : answers m P → (P ↔ Q) → answers m Q.
Proof. intros (b & Hb & HP) HQ. exists b. split; [done|]. by rewrite HP. Qed.

Lemma canMemoryEdgeBeRemoved_answers : answers (canMemoryEdgeBeRemoved V mayAlias y) refuted_pointers.
Proof.
  unfold canMemoryEdgeBeRemoved. apply answers_src, answers_dst. unfold refuted_pointers, call_and_other.
  destruct (isCallBase V (a_src x)) eqn:C0; [|destruct (isCallBase V (a_dst x)) eqn:C1]; cbn [negb andb fst snd].
  - eapply answers_iff; [apply print_answers|]. naive_solver.
  - eapply answers_iff; [apply print_answers|]. naive_solver.
  - destruct (getPointer V (a_src x)) as [p0|], (getPointer V (a_dst x)) as [p1|]; apply answers_ret; [|naive_solver..].
    rewrite negb_true_iff. naive_solver.
Qed.

(** the arrays *)
Definition refuted_array_accesses : Prop :=
  isCallBase V (a_src x) = false ∧ isCallBase V (a_dst x) = false ∧
  ((∃ a1 a2, (getPrimitiveArrayAccess allocAA (a_src x)).1 = Some a1 ∧
      (getPrimitiveArrayAccess allocAA (a_dst x)).1 = Some a2 ∧ a1 ≠ a2) ∨
   (∃ a g, isGlobal V a = true ∧
     ((getPrimitiveArrayAccess allocAA (a_src x) = (Some a, Some g) ∧ getPrimitiveArrayAccess allocAA (a_dst x) = (Some a, None) ∧
         isStore V (a_src x) = true ∧ isLoad V (a_dst x) = true) ∨
      (getPrimitiveArrayAccess allocAA (a_src x) = (Some a, None) ∧ getPrimitiveArrayAccess allocAA (a_dst x) = (Some a, Some g) ∧
         isLoad V (a_src x) = true ∧ isStore V (a_dst x) = true)) ∧
     areGEPIndicesConstantOrIV allocAA g = true ∧ ¬ precedes (a_src x) (a_dst x))).

Lemma different_arrays_answers : answers (isMemoryAccessIntoDifferentArrays allocAA y)
  (∃ a1 a2, (getPrimitiveArrayAccess allocAA (a_src x)).1 = Some a1 ∧
      (getPrimitiveArrayAccess allocAA (a_dst x)).1 = Some a2 ∧ a1 ≠ a2).
Proof.
  unfold isMemoryAccessIntoDifferentArrays. apply answers_src, answers_dst.
  destruct (getPrimitiveArrayAccess allocAA (a_src x)).1 as [a1|], (getPrimitiveArrayAccess allocAA (a_dst x)).1 as [a2|];
    apply answers_ret; [|naive_solver..]. rewrite negb_true_iff, bool_decide_eq_false. naive_solver.
Qed.

(** the access that is a load is not a store *)
Lemma load_not_store i : isLoad V i = true → isStore V i = false.
Proof. unfold isLoad, isStore. by destruct (v_class V i). Qed.

Lemma backedge_answers : located (a_src x) (a_dst x) → ¬ (isLoad V (a_src x) = true ∧ isLoad V (a_dst x) = true) →
  answers (isBackedgeIntoSameGlobal V allocAA functionOf loopHeaderOf y)
  (∃ a g, isGlobal V a = true ∧
     ((getPrimitiveArrayAccess allocAA (a_src x) = (Some a, Some g) ∧ getPrimitiveArrayAccess allocAA (a_dst x) = (Some a, None) ∧
         isStore V (a_src x) = true ∧ isLoad V (a_dst x) = true) ∨
      (getPrimitiveArrayAccess allocAA (a_src x) = (Some a, None) ∧ getPrimitiveArrayAccess allocAA (a_dst x) = (Some a, Some g) ∧
         isLoad V (a_src x) = true ∧ isStore V (a_dst x) = true)) ∧
     areGEPIndicesConstantOrIV allocAA g = true ∧ ¬ precedes (a_src x) (a_dst x)).
Proof.
  intros Hloc Hll. unfold isBackedgeIntoSameGlobal. apply answers_src, answers_dst.
  destruct (canPrecede_run _ _ Hloc) as (p & -> & Hp).
  destruct (getPrimitiveArrayAccess allocAA (a_src x)) as [[a1|] g1], (getPrimitiveArrayAccess allocAA (a_dst x)) as [a2 g2];
    [|apply answers_ret; naive_solver].
  destruct (isGlobal V a1) eqn:Hg; cbn [negb]; [|apply answers_ret; naive_solver].
  case_bool_decide as Ha; cbn [negb]; [|apply answers_ret; naive_solver].
  destruct g1 as [g1|], g2 as [g2|].
  - assert (isLoad V (a_src x) && isLoad V (a_dst x) = false) as ->.
    { apply not_true_iff_false. rewrite andb_true_iff. done. }
    rewrite andb_false_r. repeat case_match; apply answers_ret; naive_solver.
  - destruct (areGEPIndicesConstantOrIV allocAA g1) eqn:Hi; cbn [negb]; [|apply answers_ret; naive_solver].
    destruct (isStore V (a_src x) && isLoad V (a_dst x)) eqn:Hsl; cbn [negb].
    + eexists. split; [done|]. rewrite negb_true_iff, <- not_true_iff_false, Hp. apply andb_true_iff in Hsl as [? ?]. naive_solver.
    + apply answers_ret. split; [done|]. apply andb_false_iff in Hsl. naive_solver.
  - destruct (areGEPIndicesConstantOrIV allocAA g2) eqn:Hi; cbn [negb]; [|apply answers_ret; naive_solver].
    destruct (isLoad V (a_src x) && isStore V (a_dst x)) eqn:Hsl; cbn [negb].
    + eexists. split; [done|]. rewrite negb_true_iff, <- not_true_iff_false, Hp. apply andb_true_iff in Hsl as [? ?]. naive_solver.
    + apply answers_ret. split; [done|]. apply andb_false_iff in Hsl. naive_solver.
  - apply answers_ret. naive_solver.
Qed.

Lemma answers_massert {b m} (P : Prop) : b = true → answers m P → answers (massert b ;;; m) P.
Proof. by intros ->. Qed.

Lemma not_loop_carried_answers : is_memory x →
  answers (edgeIsNotLoopCarriedMemoryDependency V allocAA functionOf loopHeaderOf y) refuted_array_accesses.
Proof.
  intros Hm. unfold edgeIsNotLoopCarriedMemoryDependency. rewrite (proj2 memory_classof Hm). cbn [negb].
  apply answers_src, answers_dst. unfold refuted_array_accesses.
  destruct (isCallBase V (a_src x)) eqn:C0; [apply answers_ret; naive_solver|].
  destruct (isCallBase V (a_dst x)) eqn:C1; [apply answers_ret; naive_solver|]. cbn [orb].
  destruct (HT Hm C0 C1) as [Hty Hloc].
  assert (¬ (isLoad V (a_src x) = true ∧ isLoad V (a_dst x) = true)) as Hll.
  { intros [H1%load_not_store H2%load_not_store]. destruct Hty as [(_ & ? & ?)|[(_ & ? & ?)|(_ & ? & ?)]]; congruence. }
  assert (answers (let* b := isMemoryAccessIntoDifferentArrays allocAA y in
    if b : bool then ret true else isBackedgeIntoSameGlobal V allocAA functionOf loopHeaderOf y) refuted_array_accesses) as Hans.
  { eapply answers_iff; [apply answers_or; [apply different_arrays_answers|by apply backedge_answers]|].
    unfold refuted_array_accesses. rewrite C0, C1. split; [by intros ?; split_and!|by intros (_ & _ & ?)]. }
  unfold refuted_array_accesses in Hans. rewrite C0, C1 in Hans. rewrite Ht.
  destruct Hty as [(-> & H1 & H2)|[(-> & H1 & H2)|(-> & H1 & H2)]]; cbn [deref isWARDependence isRAWDependence];
    (apply (answers_massert _ eq_refl Hans) || (apply answers_massert; [by rewrite H1, H2|exact Hans])).
Qed.

(** what the functions of the calls do *)
Definition refuted_by_functions : Prop :=
  ((∀ i, i = a_src x ∨ i = a_dst x →
      (isCallInst V i = true ∧ isFunctionNonWriting allocAA (getCallFnName V i) = true) ∨ isLoad V i = true) ∧
   (isCallInst V (a_src x) = true ∨ isCallInst V (a_dst x) = true)) ∨
  (∃ c o, ((c = a_src x ∧ o = a_dst x) ∨ (c = a_dst x ∧ o = a_src x)) ∧ isCallInst V c = true ∧
     isMemoryless allocAA (getCallFnName V c) = true ∧ isStore V o = true).

Lemma call_not_access i : isCallInst V i = true → isLoad V i = false ∧ isStore V i = false.
Proof. unfold isCallInst, isLoad, isStore. by destruct (v_class V i). Qed.

Lemma functions_answers : is_memory x → answers (edgeIsAlongNonMemoryWritingFunctions V allocAA y) refuted_by_functions.
Proof.
  intros Hm. unfold edgeIsAlongNonMemoryWritingFunctions. rewrite (proj2 memory_classof Hm). cbn [negb].
  apply answers_src, answers_dst. unfold refuted_by_functions.
  pose proof (call_not_access (a_src x)) as Ns. pose proof (call_not_access (a_dst x)) as Nd.
  set (nw i := isFunctionNonWriting allocAA (getCallFnName V i)). set (ml i := isMemoryless allocAA (getCallFnName V i)).
  destruct (isCallInst V (a_src x)) eqn:C0, (isCallInst V (a_dst x)) eqn:C1; cbn [negb andb].
  - destruct (Ns eq_refl) as [N1 N2], (Nd eq_refl) as [N3 N4]. apply answers_ret. rewrite andb_true_iff. split.
    + intros [? ?]. left. split; [|by left]. intros i [->| ->]; auto.
    + intros [[H _]|(c & o & [[-> ->]|[-> ->]] & _ & _ & Ho)]; [|congruence..].
      destruct (H (a_src x)) as [[_ ?]|?]; [auto| |congruence]. destruct (H (a_dst x)) as [[_ ?]|?]; [auto| |congruence]. done.
  - destruct (Ns eq_refl) as [N1 N2]. apply answers_ret. rewrite orb_true_iff, !andb_true_iff. split.
    + intros [[Hl Hn]|[Hst Hn]].
      * left. split; [|by left]. intros i [->| ->]; auto.
      * right. exists (a_src x), (a_dst x). auto.
    + intros [[H _]|(c & o & [[-> ->]|[-> ->]] & Hc & Hn & Ho)]; [left|by right|congruence].
      destruct (H (a_src x)) as [[_ ?]|?]; [auto| |congruence]. destruct (H (a_dst x)) as [[? _]|?]; [auto|congruence|done].
  - destruct (Nd eq_refl) as [N1 N2]. apply answers_ret. rewrite orb_true_iff, !andb_true_iff. split.
    + intros [[Hl Hn]|[Hst Hn]].
      * left. split; [|by right]. intros i [->| ->]; auto.
      * right. exists (a_dst x), (a_src x). auto.
    + intros [[H _]|(c & o & [[-> ->]|[-> ->]] & Hc & Hn & Ho)]; [left|congruence|by right].
      destruct (H (a_dst x)) as [[_ ?]|?]; [auto| |congruence]. destruct (H (a_src x)) as [[? _]|?]; [auto|congruence|done].
  - apply answers_ret. split; [done|]. intros [[_ [?|?]]|(c & o & [[-> ->]|[-> ->]] & ? & _)]; congruence.
Qed.

(** the three tests *)
Lemma refuted_cases : refuted x ↔ refuted_pointers ∨ refuted_array_accesses ∨ refuted_by_functions.
Proof.
  split.
  - intros [|Hc Hp| |a g| |]; [by left; left; eauto 10|by left; right|right; left; unfold refuted_array_accesses; by eauto 10|..].
    + right; left. unfold refuted_array_accesses. split_and!; [done..|]. right. by exists a, g.
    + right; right. by left.
    + right; right. right. by eauto 10.
  - unfold refuted_pointers, refuted_array_accesses, refuted_by_functions.
    intros [[(p0 & p1 & ? & ? & ? & ? & ?)|[? ?]]|[(? & ? & [(a1 & a2 & ? & ? & ?)|(a & g & ? & ? & ? & ?)])|[[? ?]|(c & o & ? & ? & ? & ?)]]].
    + by eapply refuted_alias.
    + by eapply refuted_print.
    + by eapply refuted_arrays.
    + by eapply refuted_backedge.
    + by eapply refuted_reads.
    + by eapply refuted_memoryless.
Qed.
End edge.

(** an edge is removed when it is a memory dependence of an instruction that is refuted *)
Definition to_remove (x : AEdge) : Prop := isInstruction V (a_src x) = true ∧ is_memory x ∧ refuted x.

Lemma edgeToRemove_run h g A e x : rep h g A → a_edges A !! e = Some x → typed x →
  answers h (edgeToRemove V allocAA mayAlias functionOf loopHeaderOf e) (to_remove x).
Proof.
  intros R Hx HT. rewrite (rep_edges _ _ _ R) in Hx. destruct (edge_view_inv _ _ _ _ Hx) as (He & y & Hy).
  destruct (edge_view_live _ _ _ _ (rep_wf _ _ _ R) He Hy) as (s & d & Hs & Hd & _ & _ & Hv).
  rewrite Hv in Hx. injection Hx as <-. set (x := mkAEdge _ _ _ _) in *.
  assert (getSrc y h = Ok (h, a_src x)) as Es by (unfold getSrc, bind, load_node, deref; by rewrite Hs).
  assert (getDst y h = Ok (h, a_dst x)) as Ed by (unfold getDst, bind, load_node, deref; by rewrite Hd).
  unfold edgeToRemove. assert (load_edge e h = Ok (h, y)) as El by (unfold load_edge, bind, deref; by rewrite Hy).
  cut (answers h (let* source := getSrc y in
    if negb (isInstruction V source) then ret false
    else let* b := (if MemoryDependence_classof y then canMemoryEdgeBeRemoved V mayAlias y else ret false) in
         if b : bool then ret true
         else let* b := edgeIsNotLoopCarriedMemoryDependency V allocAA functionOf loopHeaderOf y in
              if b : bool then ret true else edgeIsAlongNonMemoryWritingFunctions V allocAA y) (to_remove x)).
  { intros (b & Hb & HP). exists b. split; [|done]. unfold bind at 1. by rewrite El. }
  apply (answers_src h y x Es). unfold to_remove. destruct (isInstruction V (a_src x)) eqn:Hi; cbn [negb].
  2: { apply answers_ret. naive_solver. }
  destruct (MemoryDependence_classof y) eqn:Hm.
  - apply (memory_classof y x eq_refl) in Hm as Hmem. eapply (answers_iff h); [apply answers_or;
      [by apply (canMemoryEdgeBeRemoved_answers h y x)|apply answers_or;
        [by apply (not_loop_carried_answers h y x)|by apply (functions_answers h y x)]]|].
    rewrite (refuted_cases x). naive_solver.
  - assert (¬ is_memory x) as Hmem by (rewrite <- (memory_classof y x eq_refl); congruence).
    unfold edgeIsNotLoopCarriedMemoryDependency, edgeIsAlongNonMemoryWritingFunctions. rewrite Hm.
    apply answers_ret. naive_solver.
Qed.

(** ** The removal *)

(** [A'] is [A] without the edges that satisfy [P] *)
Definition trimmed (A : AGraph) (P : AEdge → Prop) (A' : AGraph) : Prop :=
  a_internal A' = a_internal A ∧ a_external A' = a_external A ∧ a_count A' = a_count A ∧
  ∀ e x, a_edges A' !! e = Some x ↔ a_edges A !! e = Some x ∧ ¬ P x.

Lemma removeEdges_run h g A (D : gset Ptr) : rep h g A → (∀ e, e ∈ D → is_Some (a_edges A !! e)) →
  wp (forM removeEdge (visit D)) (λ _ s', ∃ A', rep s'.1 s'.2 A' ∧ a_internal A' = a_internal A ∧
    a_external A' = a_external A ∧ a_count A' = a_count A ∧
    ∀ e x, a_edges A' !! e = Some x ↔ a_edges A !! e = Some x ∧ e ∉ D) (h, g).
Proof.
  intros R HD. eapply wp_mono.
  { apply (wp_forM _ (λ pre _ s', ∃ A', rep s'.1 s'.2 A' ∧ a_internal A' = a_internal A ∧
      a_external A' = a_external A ∧ a_count A' = a_count A ∧
      ∀ e x, a_edges A' !! e = Some x ↔ a_edges A !! e = Some x ∧ e ∉ pre)).
    - exists A. split_and!; try done. intros e x. split; [intros ?; split; [done|apply not_elem_of_nil]|by intros [? _]].
    - intros pre e post [h' g'] Hl (A' & R' & I1 & I2 & I3 & I4). cbn [fst snd] in *.
      destruct (visit_split D pre e post Hl) as (He & Hpre & _). destruct (HD e He) as [x Hx].
      eapply wp_mono; [apply (removeEdge_simulates h' g' A' e R'); exists x; by apply I4|].
      intros [] s' (A'' & Hs & R''). exists A''. inversion Hs as [| | |e' He'| | |]; subst; try done; cbn in *.
      + destruct H as [?|?]; done.
      + split_and!; try done. intros e'' x''. rewrite lookup_delete_Some, I4, elem_of_app, list_elem_of_singleton. naive_solver. }
  intros [] s' (A' & R' & I1 & I2 & I3 & I4). exists A'. split_and!; try done. intros e x. by rewrite I4, elem_of_visit.
Qed.

Lemma filterM_answers (f : Ptr → M Heap bool) (P : Ptr → Prop) l h :
  (∀ e, e ∈ l → answers h (f e) (P e)) → ∃ r, filterM f l h = Ok (h, r) ∧ ∀ e, e ∈ r ↔ e ∈ l ∧ P e.
Proof.
  induction l as [|e l IH]; intros Hl.
  { exists []. split; [done|]. intros e. rewrite elem_of_nil. tauto. }
  destruct IH as (r & Hr & HP); [intros e' He'; apply Hl; by right|]. destruct (Hl e) as (b & Hb & Hbe); [by left|].
  exists (if b then e :: r else r). cbn [filterM]. unfold bind. rewrite Hb, Hr. split; [done|]. intros e'. rewrite elem_of_cons.
  destruct b; rewrite ?elem_of_cons, HP; naive_solver.
Qed.

Lemma trim_run h g A disableAllocAA : rep h g A → (∀ e x, a_edges A !! e = Some x → typed x) →
  wp (trimDGUsingCustomAliasAnalysis V allocAA mayAlias functionOf loopHeaderOf disableAllocAA)
    (λ _ s', ∃ A', rep s'.1 s'.2 A' ∧ trimmed A (λ x, disableAllocAA = false ∧ to_remove x) A') (h, g).
Proof.
  intros R HT. unfold trimDGUsingCustomAliasAnalysis. destruct disableAllocAA.
  { apply wp_ret. exists A. split; [done|]. split_and!; try done. intros e x. naive_solver. }
  unfold removeEdgesNotUsedByParSchemes. dg_steps.
  destruct (filterM_answers (edgeToRemove V allocAA mayAlias functionOf loopHeaderOf)
    (λ e, ∃ x, a_edges A !! e = Some x ∧ to_remove x) (visit (allEdges g)) h) as (r & Hr & HP).
  { intros e He%elem_of_visit. pose proof (rep_wf _ _ _ R) as W. destruct (wf_edge _ _ W e He) as (y & Hy & _).
    destruct (edge_view_live _ _ _ _ W He Hy) as (s & d & _ & _ & _ & _ & Hv). rewrite <- (rep_edges _ _ _ R) in Hv.
    eapply answers_iff; [by apply (edgeToRemove_run h g A e _ R Hv), (HT e)|]. naive_solver. }
  unfold wp at 1. rewrite Hr. eapply wp_mono.
  { apply (removeEdges_run h g A (list_to_set r) R). intros e He%elem_of_list_to_set. apply HP in He as (_ & x & Hx & _). by exists x. }
  intros [] s' (A' & R' & I1 & I2 & I3 & I4). exists A'. split; [done|]. split_and!; try done. intros e x.
  rewrite I4, elem_of_list_to_set, HP, elem_of_visit. apply and_iff_under. intros Hx.
  assert (e ∈ allEdges g) as He.
  { rewrite (rep_edges _ _ _ R) in Hx. by apply edge_view_inv in Hx as [? _]. }
  split; intros Hn Hc; apply Hn; [|naive_solver]. split; [done|]. exists x. naive_solver.
Qed.
End trim.

(** ** The whole construction *)

Section whole.
Context {IO : IterOrder} (V : Values) (getAA : GenFunction → AliasAnalysis) (svf : SVFAnalysis).
Context (ddAnalyses : list DependenceAnalysis) (disableSVF disableRA disableAllocAA : bool).
Context (reachableUnhandled : gmap Ptr (gset Ptr)) (sameLocation : Ptr → Ptr → bool) (getPDT : GenFunction → PostDominatorTree).
Context (allocAA : AllocAA) (mayAlias : Ptr → Ptr → bool) (functionOf : Ptr → CFG) (loopHeaderOf : Ptr → option Ptr).

(** the function and the block of an instruction are those it is in *)
Definition placed (M : list GenFunction) : Prop := ∀ F i, F ∈ M → isEmptyFunction F = false → i ∈ instructions (gf_cfg F) →
  functionOf i = gf_cfg F ∧ v_parent V i ∈ blocks (gf_cfg F) ∧ i ∈ insts (gf_cfg F) (v_parent V i).

Lemma memory_edges_typed (AA : AliasAnalysis) i j again x :
  x ∈ memory_edges V AA svf ddAnalyses disableSVF reachableUnhandled sameLocation i j again →
  isCallBase V i = false → isCallBase V j = false →
  a_src x = i ∧ a_dst x = j ∧
  ((a_type x = Some DG_DATA_WAW ∧ isStore V i = true ∧ isStore V j = true) ∨
   (a_type x = Some DG_DATA_WAR ∧ isLoad V i = true ∧ isStore V j = true) ∨
   (a_type x = Some DG_DATA_RAW ∧ isStore V i = true ∧ isLoad V j = true)).
Proof.
  intros Hx Ci Cj. unfold memory_edges in Hx. rewrite Ci, Cj in Hx.
  assert (∀ t, x ∈ alias_edges V AA svf disableSVF sameLocation i j t → a_src x = i ∧ a_dst x = j ∧ a_type x = Some t) as Hal.
  { intros t H. unfold alias_edges in H. destruct (doTheyAlias _ _ _ _ _ _ _); [by apply elem_of_nil in H|..];
      by apply list_elem_of_singleton in H as ->. }
  destruct (negb _); [by apply elem_of_nil in Hx|]. destruct (isStore V i) eqn:Si; [|destruct (isLoad V i) eqn:Li].
  - destruct (isStore V j) eqn:Sj; [apply Hal in Hx as (-> & -> & ->); split_and!; by auto|].
    destruct (isLoad V j) eqn:Lj; [apply Hal in Hx as (-> & -> & ->); split_and!; by auto 6|by apply elem_of_nil in Hx].
  - destruct (isStore V j) eqn:Sj; [apply Hal in Hx as (-> & -> & ->); split_and!; by auto 6|by apply elem_of_nil in Hx].
  - by apply elem_of_nil in Hx.
Qed.

Lemma dependence_typed M x : (∀ F, F ∈ gm_functions M → isEmptyFunction F = false → wf_control V (gf_cfg F) (getPDT F)) →
  placed (gm_functions M) →
  dependence V getAA svf ddAnalyses disableSVF disableRA reachableUnhandled sameLocation getPDT M x → typed V functionOf x.
Proof.
  intros HF HP [(v & _ & Hx%use_edges_kind)|[(F & HFM & Hne & i & j & again & (Hi & Hj & _) & _ & _ & Hx)|(p & v & -> & _)]] Hm.
  - unfold is_memory in Hm. rewrite Hx in Hm. cbn in Hm. lia.
  - pose proof (memory_edges_from_to V (getAA F) svf ddAnalyses disableSVF reachableUnhandled sameLocation i j again) as Hft.
    rewrite Forall_forall in Hft. destruct (Hft x Hx) as (Es & Ed & _ & _). rewrite Es, Ed. intros Ci Cj.
    destruct (memory_edges_typed _ _ _ _ _ Hx Ci Cj) as (_ & _ & Hty). split; [done|].
    destruct (HP F i HFM Hne Hi) as (Ei & Bi & Ii), (HP F j HFM Hne Hj) as (_ & Bj & _). unfold located. rewrite Ei.
    split_and!; try done. by apply (wc_cfg _ _ _ (HF F HFM Hne)).
  - unfold is_memory in Hm. cbn in Hm. lia.
Qed.
End whole.

Lemma constructPDGFromAnalysis_run {IO : IterOrder} V getAA svf ddAnalyses disableSVF disableRA disableAllocAA
    reachableUnhandled sameLocation getPDT allocAA mayAlias functionOf loopHeaderOf M h :
  heap_ok h → wf_program V getPDT M → placed V functionOf (gm_functions M) →
  wp (constructPDGFromAnalysis V getAA svf ddAnalyses disableSVF disableRA disableAllocAA reachableUnhandled
        sameLocation getPDT allocAA mayAlias functionOf loopHeaderOf M)
    (λ _ s', ∃ A, rep s'.1 s'.2 A ∧
       a_internal A = list_to_set (module_values (gm_functions M)) ∧ a_external A = ∅ ∧
       ∀ x, present A x ↔
         dependence V getAA svf ddAnalyses disableSVF disableRA reachableUnhandled sameLocation getPDT M x ∧
         ¬ (disableAllocAA = false ∧ to_remove V allocAA mayAlias functionOf loopHeaderOf x)) (h, DG_new).
Proof.
  intros Hh WP HP. set (m := constructPDGFromAnalysis _ _ _ _ _ _ _ _ _ _ _ _ _ _ _).
  pose proof (constructPDG_run V getAA svf ddAnalyses disableSVF disableRA reachableUnhandled sameLocation getPDT M h Hh WP) as Hrun.
  assert (∀ s, m s = (bind (PDG_ofModule (mkModule (pdgFunction <$> gm_functions M) (pdgFunction <$> gm_main M)) ;;;
      constructEdgesFromUseDefs V ;;;
      constructEdgesFromAliases V getAA svf ddAnalyses disableSVF disableRA reachableUnhandled sameLocation (gm_functions M) ;;;
      constructEdgesFromControl V getPDT (gm_functions M))
      (λ _, trimDGUsingCustomAliasAnalysis V allocAA mayAlias functionOf loopHeaderOf disableAllocAA)) s) as Hm.
  { intros s. subst m. unfold constructPDGFromAnalysis, bind. by repeat (case_match; simplify_eq). }
  unfold wp. rewrite Hm. apply wp_bind. eapply wp_mono; [exact Hrun|]. intros [] [h1 g1] (A & R & I1 & I2 & HA).
  cbn [fst snd] in *. eapply wp_mono.
  { apply (trim_run V allocAA mayAlias functionOf loopHeaderOf h1 g1 A disableAllocAA R). intros e x Hx.
    apply (dependence_typed V getAA svf ddAnalyses disableSVF disableRA reachableUnhandled sameLocation getPDT functionOf M x);
      [apply (wp_functions _ _ _ WP)|done|]. apply HA. by exists e. }
  intros [] s' (A' & R' & J1 & J2 & _ & HA'). exists A'. split_and!; [done|congruence|congruence|].
  intros x. rewrite <- HA. unfold present. setoid_rewrite HA'. naive_solver.
Qed.

(** (C3) The program dependence graph: on a well-formed program the generator ends without a failed
    assertion, with a graph whose nodes are the arguments and the instructions of the functions that
    have a body, and whose dependences are exactly those of the four phases: the uses of a value,
    the memory dependences that the alias analyses leave, the control dependences, less the memory
    dependences that AllocAA and the points-to analysis refute (unless AllocAA is disabled). *)
Theorem constructPDGFromAnalysis_spec {IO : IterOrder} V getAA svf ddAnalyses disableSVF disableRA disableAllocAA
    reachableUnhandled sameLocation getPDT allocAA mayAlias functionOf loopHeaderOf M h :
  heap_ok h → wf_program V getPDT M → placed V functionOf (gm_functions M) →
  wp (constructPDGFromAnalysis V getAA svf ddAnalyses disableSVF disableRA disableAllocAA reachableUnhandled
        sameLocation getPDT allocAA mayAlias functionOf loopHeaderOf M)
    (λ _ s', ∃ A, rep s'.1 s'.2 A ∧
       a_internal A = list_to_set (module_values (gm_functions M)) ∧ a_external A = ∅ ∧
       ∀ x, present A x ↔
         dependence V getAA svf ddAnalyses disableSVF disableRA reachableUnhandled sameLocation getPDT M x ∧
         ¬ (disableAllocAA = false ∧ to_remove V allocAA mayAlias functionOf loopHeaderOf x)) (h, DG_new).
Proof. apply constructPDGFromAnalysis_run. Qed.

(** (C5) No conflict between two accesses of a function is missed: when a load or store may run before a
    store, or a store before a load, no registered analysis excludes a dependence between them, and
    neither llvm nor SVF says that they do not alias, the graph that the generator builds has a memory
    dependence of the right type from the first to the second, unless AllocAA or the points-to analysis
    refutes it. *)
Theorem memory_dependences_sound {IO : IterOrder} V getAA svf ddAnalyses disableSVF disableRA disableAllocAA
    reachableUnhandled sameLocation getPDT allocAA mayAlias functionOf loopHeaderOf M h :
  heap_ok h → wf_program V getPDT M → placed V functionOf (gm_functions M) →
  wp (constructPDGFromAnalysis V getAA svf ddAnalyses disableSVF disableRA disableAllocAA reachableUnhandled
        sameLocation getPDT allocAA mayAlias functionOf loopHeaderOf M)
    (λ _ s', ∃ A, rep s'.1 s'.2 A ∧ ∀ F i j t, F ∈ gm_functions M → isEmptyFunction F = false →
       may_follow V disableRA F i j → isActualCode V i = true → isActualCode V j = true →
       (isStore V i = true ∧ isStore V j = true ∧ t = DG_DATA_WAW) ∨
       (isStore V i = true ∧ isLoad V j = true ∧ t = DG_DATA_RAW) ∨
       (isLoad V i = true ∧ isStore V j = true ∧ t = DG_DATA_WAR) →
       canThereBeAMemoryDataDependence ddAnalyses i j = true →
       doTheyAlias V (getAA F) svf disableSVF sameLocation i j ≠ NoAlias →
       ∃ must, ¬ (disableAllocAA = false ∧ to_remove V allocAA mayAlias functionOf loopHeaderOf (memory_edge i j t must)) →
         present A (memory_edge i j t must)) (h, DG_new).
Proof.
  intros Hh WP HP. eapply wp_mono; [by apply (constructPDGFromAnalysis_run V getAA svf ddAnalyses disableSVF disableRA disableAllocAA
    reachableUnhandled sameLocation getPDT allocAA mayAlias functionOf loopHeaderOf M h)|].
  intros [] s' (A & R & _ & _ & HA). exists A. split; [done|]. intros F i j t HF Hne Hf Ai Aj Hcase Hdd Hal.
  destruct (memory_dependence_of_conflict V getAA svf ddAnalyses disableSVF disableRA reachableUnhandled sameLocation F i j t)
    as [must Hm]; [apply (wc_cfg _ _ _ (wp_functions _ _ _ WP F HF Hne))|done..|].
  exists must. intros Hr. apply HA. split; [right; left; by exists F|done].
Qed.
