(* ===== verification/PDGMetadataSpec.v ===== *)
(** * Embedding a program dependence graph into the metadata of a module, and back

    What the embedding writes, what the construction reads, and that the dependences come back. *)
From stdpp Require Import strings countable.
From S2P Require Import Prelude DGEdge DGNode DGBase DGInvariant DGSpec DGQuery PDG DataFlow DataFlowSpec.
From S2P Require Import PDGValues PDGModRef PDGGenerator PDGMetadata PDGGrowth PDGModRefSpec PDGControlSpec PDGGeneratorSpec.
From S2P Require Import PDGConstruction PDGTrimSpec.

(** ** The values of a graph in order *)

Section values.
Context {IO : IterOrder}.

Lemma getSortedValues_run h g A : rep h g A →
  ∃ vs, getSortedValues (h, g) = Ok ((h, g), vs) ∧ NoDup vs ∧ ∀ v, v ∈ vs ↔ v ∈ a_values A.
Proof.
  intros R. pose proof (rep_wf _ _ _ R) as W.
  set (T n := match hnodes h !! n with Some x => theT x | None => n end).
  assert (mapM (λ node, let* n := load_node node in ret (getT n)) (visit (allNodes g)) h = Ok (h, T <$> visit (allNodes g))) as Hrun.
  { apply mapM_run. intros n Hn%elem_of_visit. destruct (wf_node _ _ W n Hn) as (x & Hx & _).
    unfold T, bind, load_node, deref. by rewrite Hx. }
  exists (Utils_sort (list_to_set (T <$> visit (allNodes g)))). split_and!.
  - enough (wp getSortedValues (λ l s', s' = (h, g) ∧ l = Utils_sort (list_to_set (T <$> visit (allNodes g)))) (h, g)) as H.
    { apply wp_ok in H as (s' & l & -> & -> & ->). done. }
    unfold getSortedValues. dg_steps. unfold wp. by rewrite Hrun.
  - unfold Utils_sort. rewrite (merge_sort_Permutation Pos.le). apply NoDup_elements.
  - intros v. unfold Utils_sort. rewrite (merge_sort_Permutation Pos.le), elem_of_elements, elem_of_list_to_set, list_elem_of_fmap.
    rewrite (rep_values _ _ _ _ R). split.
    + intros (n & -> & Hn%elem_of_visit). destruct (wf_node _ _ W n Hn) as (x & Hx & HT). unfold T. rewrite Hx. eauto.
    + intros [n Hn]. destruct (wf_map _ _ W _ _ Hn) as (Hin & x & Hx & HT). exists n. unfold T. rewrite Hx.
      split; [done|]. by apply elem_of_visit.
Qed.
End values.

(** ** The ids *)

Section ids.
Context {IO : IterOrder} (V : Values) (functionOf : Ptr → Ptr) (argNo : Ptr → nat).

(** after the values [vs]: each has its position as id, the instructions carry it, and the arguments
    are filed under their functions and positions *)
Record numbered (md0 : IRMetadata) (vs : list Ptr)
    (st : Z * gmap Ptr Metadata * gmap Ptr (gmap nat (option Metadata)) * IRMetadata) : Prop := {
  nu_count : st.1.1.1 = Z.of_nat (length vs);
  nu_id v m : st.1.1.2 !! v = Some m ↔ ∃ k, vs !! k = Some v ∧ m = idNode (Z.of_nat k);
  nu_arg v : v ∈ vs → isArgument V v = true →
    ∃ mm, st.1.2 !! functionOf v = Some mm ∧ mm !! argNo v = Some (st.1.1.2 !! v);
  nu_arg_inv F mm n : st.1.2 !! F = Some mm → is_Some (mm !! n) →
    ∃ v, v ∈ vs ∧ isArgument V v = true ∧ functionOf v = F ∧ argNo v = n;
  nu_filed F mm : st.1.2 !! F = Some mm → ∃ n, is_Some (mm !! n);
  nu_inst v : v ∈ vs → isArgument V v = false → isInstruction V v = true → inst_id st.2 !! v = st.1.1.2 !! v;
  nu_args_id : args_id st.2 = args_id md0;
  nu_edges : pdg_edges st.2 = pdg_edges md0;
  nu_module : module_pdg st.2 = module_pdg md0
}.

(** no two arguments are at one position *)
Definition arguments_apart (vs : list Ptr) : Prop := ∀ v w, v ∈ vs → w ∈ vs → isArgument V v = true → isArgument V w = true →
  functionOf v = functionOf w → argNo v = argNo w → v = w.

Lemma embedNodes_run md0 vs : NoDup vs → (Z.of_nat (length vs) < 2 ^ 64)%Z → arguments_apart vs →
  numbered md0 vs (foldl (embedNode V functionOf argNo) (0%Z, ∅, ∅, md0) vs).
Proof.
  induction vs as [|v vs IH] using rev_ind; intros Hnd Hlen Hap.
  { split; cbn; try done; try (by intros v ?%elem_of_nil). intros v m. split; [by rewrite lookup_empty|by intros (? & ? & _)]. }
  rewrite length_app in Hlen. simpl in Hlen. apply NoDup_app in Hnd as (Hnd & Hv & _).
  assert (v ∉ vs) as Hnv by (intros H; by apply (Hv v H), list_elem_of_singleton).
  assert (numbered md0 vs (foldl (embedNode V functionOf argNo) (0%Z, ∅, ∅, md0) vs)) as N.
  { apply IH; [done|lia|]. intros a b Ha Hb. apply Hap; set_solver. }
  rewrite foldl_snoc. destruct (foldl _ _ vs) as [[[i ids] args] md]. destruct N as [N1 N2 N3 N4 N9 N5 N6 N7 N8]. cbn [fst snd] in *.
  unfold embedNode. assert (u64 i = Z.of_nat (length vs)) as Ei by (subst i; apply u64_small; lia). rewrite Ei.
  assert (∀ w m, <[v := idNode (Z.of_nat (length vs))]> ids !! w = Some m ↔
    ∃ k, (vs ++ [v]) !! k = Some w ∧ m = idNode (Z.of_nat k)) as N2'.
  { intros w m. rewrite lookup_insert_Some, N2. split.
    - intros [[-> <-]|[Hne (k & Hk & ->)]]; [exists (length vs); split; [by apply list_lookup_middle|done]|].
      exists k. split; [by apply lookup_app_l_Some|done].
    - intros (k & [Hk|[Hlt Hk]]%lookup_app_Some & ->).
      + right. split; [intros ->; by apply Hnv, list_elem_of_lookup; exists k|eauto].
      + apply list_lookup_singleton_Some in Hk as [? <-]. left. split; [done|]. f_equal. lia. }
  assert (∀ w, w ∈ vs → <[v := idNode (Z.of_nat (length vs))]> ids !! w = ids !! w) as Hold.
  { intros w Hw. apply lookup_insert_ne. by intros ->. }
  assert (u64 (i + 1) = Z.of_nat (length (vs ++ [v]))) as Ei'.
  { subst i. rewrite length_app. rewrite u64_small; simpl; lia. }
  assert (∀ w, w ∈ vs ++ [v] ↔ w ∈ vs ∨ w = v) as Hin by (intros w; by rewrite elem_of_app, list_elem_of_singleton).
  assert (∀ w, isArgument V v = false → w ∈ vs ++ [v] → isArgument V w = true → w ∈ vs) as Hva.
  { intros w Ha [?| ->]%Hin ?; [done|congruence]. }
  destruct (isArgument V v) eqn:Ha; [|destruct (isInstruction V v) eqn:Hi]; split; cbn [fst snd inst_id args_id pdg_edges module_pdg]; try done.
  - intros w Hw Hwa. destruct (decide (functionOf w = functionOf v)) as [E|E].
    + rewrite E, lookup_insert_eq. eexists. split; [done|]. apply Hin in Hw as [Hw| ->]; [|by rewrite lookup_insert_eq, lookup_insert_eq].
      rewrite lookup_insert_ne.
      * destruct (N3 w Hw Hwa) as (mm & Hmm & Hn). rewrite <- E, Hmm. cbn. by rewrite Hn, Hold.
      * intros En. apply Hnv. assert (w = v) as <-; [|done]. apply Hap; try done; apply Hin; [by left|by right].
    + apply Hin in Hw as [Hw| ->]; [|done]. rewrite lookup_insert_ne by done. rewrite Hold by done. by apply N3.
  - intros F mm n Hmm Hn. destruct (decide (functionOf v = F)) as [<-|E].
    + rewrite lookup_insert_eq in Hmm. injection Hmm as <-. destruct (decide (argNo v = n)) as [<-|En].
      * exists v. split_and!; try done. apply Hin. by right.
      * rewrite lookup_insert_ne in Hn by done. destruct (args !! functionOf v) as [mm|] eqn:E; [|by apply is_Some_None in Hn].
        destruct (N4 _ mm n E Hn) as (w & ? & ? & ? & ?). exists w. split_and!; try done. apply Hin. by left.
    + rewrite lookup_insert_ne in Hmm by done. destruct (N4 F mm n Hmm Hn) as (w & ? & ? & ? & ?). exists w.
      split_and!; try done. apply Hin. by left.
  - intros F mm [[_ <-]|[_ Hmm]]%lookup_insert_Some; [|by eapply N9]. exists (argNo v). by rewrite lookup_insert_eq.
  - intros w Hw Hwa Hwi. apply Hin in Hw as [Hw| ->]; [|congruence]. rewrite Hold by done. by apply N5.
  - intros w Hw Hwa. rewrite Hold by auto. auto.
  - intros F mm n Hmm Hn. destruct (N4 F mm n Hmm Hn) as (w & ? & ? & ? & ?). exists w. split_and!; try done. apply Hin. by left.
  - intros w Hw Hwa Hwi. apply Hin in Hw as [Hw| ->]; [|by rewrite !lookup_insert_eq]. rewrite Hold by done.
    rewrite lookup_insert_ne by (by intros ->). by apply N5.
  - intros w Hw Hwa. rewrite Hold by auto. auto.
  - intros F mm n Hmm Hn. destruct (N4 F mm n Hmm Hn) as (w & ? & ? & ? & ?). exists w. split_and!; try done. apply Hin. by left.
  - intros w Hw Hwa Hwi. apply Hin in Hw as [Hw| ->]; [|congruence]. rewrite Hold by done. by apply N5.
Qed.

(** *** Arguments *)

Lemma argsVecFrom_complete m n i fuel : (∀ k, is_Some (m !! k) ↔ k < n) → size m = n → n - i ≤ fuel →
  argsVecFrom fuel i m = Ok ((λ k, default None (m !! k)) <$> seq i (n - i)).
Proof.
  intros Hm Hsz. revert i. induction fuel as [|fuel IH]; intros i Hf; cbn [argsVecFrom]; rewrite Hsz.
  - rewrite decide_False by lia. by replace (n - i) with 0 by lia.
  - case_decide as Hi; [|by replace (n - i) with 0 by lia].
    destruct (m !! i) as [o|] eqn:Ho; [|by destruct (proj2 (Hm i) Hi); congruence].
    rewrite Ho. replace (n - i) with (S (n - S i)) by lia. rewrite IH by lia. cbn. by rewrite Ho.
Qed.

Lemma argsVec_complete m n k : (∀ k, is_Some (m !! k) ↔ k < n) → k < n →
  ∃ l, argsVec m = Ok l ∧ l !! k = Some (default None (m !! k)).
Proof.
  intros Hm Hk. assert (dom m = list_to_set (seq 0 n)) as Hdom.
  { apply set_eq. intros j. rewrite elem_of_dom, Hm, elem_of_list_to_set, elem_of_seq. lia. }
  assert (size m = n) as Hsz by (by rewrite <- size_dom, Hdom, size_list_to_set, length_seq by apply NoDup_seq).
  exists ((λ k, default None (m !! k)) <$> seq 0 (n - 0)). split.
  - unfold argsVec. apply argsVecFrom_complete; [done|done|].
    assert (n - 1 ≤ max_list (map_to_list m).*1); [|lia]. destruct (proj2 (Hm (n - 1)) ltac:(lia)) as [o Ho].
    apply max_list_elem_of_le, list_elem_of_fmap. exists (n - 1, o). split; [done|]. by apply elem_of_map_to_list.
  - rewrite list_lookup_fmap, lookup_seq_lt by lia. done.
Qed.

(** the metadata of the arguments of the functions [Fs] *)
Lemma embedArgs_run (fam : gmap Ptr (gmap nat (option Metadata))) md Fs :
  (∀ F, F ∈ Fs → ∃ l, argsVec (default ∅ (fam !! F)) = Ok l) →
  ∃ md', foldR (λ md F, rbind (argsVec (default ∅ (fam !! F))) (λ argsVec,
      Ok (mkIRMetadata (inst_id md) (<[F := MDNode argsVec]> (args_id md)) (pdg_edges md) (module_pdg md)))) md Fs = Ok md' ∧
    inst_id md' = inst_id md ∧ pdg_edges md' = pdg_edges md ∧ module_pdg md' = module_pdg md ∧
    ∀ F, (F ∈ Fs → ∃ l, argsVec (default ∅ (fam !! F)) = Ok l ∧ args_id md' !! F = Some (MDNode l)) ∧
         (F ∉ Fs → args_id md' !! F = args_id md !! F).
Proof.
  revert md. induction Fs as [|G Fs IH]; intros md HF.
  { exists md. split_and!; try done. intros F. split; [by intros ?%elem_of_nil|done]. }
  destruct (HF G) as [l Hl]; [by left|]. cbn [foldR]. rewrite Hl. cbn [rbind].
  destruct (IH (mkIRMetadata (inst_id md) (<[G := MDNode l]> (args_id md)) (pdg_edges md) (module_pdg md)))
    as (md' & Hrun & H1 & H2 & H3 & H4); [intros F H; apply HF; by right|].
  exists md'. split_and!; try done. intros F. destruct (H4 F) as [Hin Hout]. cbn [args_id] in Hout. rewrite elem_of_cons. split.
  - intros HFin. destruct (decide (F ∈ Fs)) as [?|Hn]; [auto|]. destruct HFin as [->|?]; [|done]. exists l. split; [done|].
    by rewrite Hout, lookup_insert_eq.
  - intros [Hne Hn]%Decidable.not_or. rewrite Hout by done. by apply lookup_insert_ne.
Qed.
End ids.

(** ** A module and its graph *)

Section program.
Context {IO : IterOrder} (V : Values) (functionOf : Ptr → Ptr) (argNo : Ptr → nat).
Context (functions : list (Ptr * GenFunction)) (getPDT : GenFunction → PostDominatorTree) (mainF : option GenFunction).

(** a well-formed program, with the functions at different addresses and the arguments and the
    instructions where llvm says they are *)
Record wf_module : Prop := {
  wm_program : wf_program V getPDT (mkGenModule functions.*2 mainF);
  wm_addresses : NoDup functions.*1;
  wm_inst p F i : (p, F) ∈ functions → isEmptyFunction F = false → i ∈ instructions (gf_cfg F) →
    isInstruction V i = true ∧ isArgument V i = false ∧ functionOf i = p;
  wm_arg p F k a : (p, F) ∈ functions → isEmptyFunction F = false → gf_args F !! k = Some a →
    isArgument V a = true ∧ functionOf a = p ∧ argNo a = k
}.
Context (WM : wf_module).

Local Abbreviation values := (module_values functions.*2).

(** the graph has the values of the module, and its memory dependences are between instructions of a
    function *)
Record embeddable (A : AGraph) : Prop := {
  eb_values v : v ∈ a_values A ↔ v ∈ values;
  eb_memory x : present A x → is_memory x →
    (a_kind x = MUST_MEMORY_DEPENDENCE ∨ a_kind x = MAY_MEMORY_DEPENDENCE) ∧ is_Some (a_type x) ∧
    ∃ p F, (p, F) ∈ functions ∧ isEmptyFunction F = false ∧
      a_src x ∈ instructions (gf_cfg F) ∧ a_dst x ∈ instructions (gf_cfg F)
}.

Lemma value_cases v : v ∈ values → ∃ p F, (p, F) ∈ functions ∧ isEmptyFunction F = false ∧
  (v ∈ gf_args F ∨ v ∈ instructions (gf_cfg F)).
Proof.
  intros (F & [[p G] [-> HG]]%list_elem_of_fmap & Hv)%elem_of_module_values. exists p, G. split; [done|].
  unfold function_values in Hv. cbn [snd] in Hv. destruct (isEmptyFunction G); [by apply elem_of_nil in Hv|].
  split; [done|]. by apply elem_of_app in Hv.
Qed.

(** an argument of the program is where it says *)
Lemma argument_inv v : v ∈ values → isArgument V v = true →
  ∃ F, (functionOf v, F) ∈ functions ∧ isEmptyFunction F = false ∧ gf_args F !! argNo v = Some v.
Proof.
  intros (p & F & HF & Hne & [[k Hk]%list_elem_of_lookup|Hv])%value_cases Ha.
  - destruct (wm_arg WM p F k v HF Hne Hk) as (_ & -> & ->). eauto.
  - destruct (wm_inst WM p F v HF Hne Hv) as (_ & ? & _). congruence.
Qed.

Lemma function_unique p F G : (p, F) ∈ functions → (p, G) ∈ functions → F = G.
Proof.
  intros [k Hk]%list_elem_of_lookup [k' Hk']%list_elem_of_lookup.
  assert (k = k') as ->; [|congruence]. eapply (NoDup_lookup functions.*1); [apply (wm_addresses WM)| |];
    rewrite list_lookup_fmap; [by rewrite Hk|by rewrite Hk'].
Qed.

(** the ids of the values of a graph *)
Record ids_ok (A : AGraph) (ids : gmap Ptr Metadata) : Prop := {
  id_some v : v ∈ a_values A → is_Some (ids !! v);
  id_inj v w m : ids !! v = Some m → ids !! w = Some m → v = w;
  id_node v m : ids !! v = Some m → ∃ l, m = MDNode l
}.

Record nodes_embedded (A : AGraph) (ids : gmap Ptr Metadata) (md : IRMetadata) : Prop := {
  ne_ids : ids_ok A ids;
  ne_inst p F i : (p, F) ∈ functions → isEmptyFunction F = false → i ∈ instructions (gf_cfg F) → inst_id md !! i = ids !! i;
  ne_args p F : (p, F) ∈ functions → args_id md !! p = None ∨
    ∃ l, args_id md !! p = Some (MDNode l) ∧ ∀ a, a ∈ gf_args F → l !! argNo a = Some (ids !! a) ∧ is_Some (ids !! a)
}.

Lemma embedNodesAsMetadata_run h g A md : rep h g A → embeddable A →
  (∀ p F, (p, F) ∈ functions → args_id md !! p = None) →
  ∃ ids md', embedNodesAsMetadata V functionOf argNo md (h, g) = Ok ((h, g), (ids, md')) ∧
    nodes_embedded A ids md' ∧ pdg_edges md' = pdg_edges md ∧ module_pdg md' = module_pdg md.
Proof.
  intros R E Hclean. destruct (getSortedValues_run h g A R) as (vs & Hvs & Hnd & Hin).
  assert (∀ v, v ∈ vs ↔ v ∈ values) as Hvals by (intros v; by rewrite Hin, (eb_values _ E)).
  assert (vs ≡ₚ values) as Hperm by (apply NoDup_Permutation; [done|apply (wp_values _ _ _ (wm_program WM))|done]).
  assert (Z.of_nat (length vs) < 2 ^ 64)%Z as Hlen.
  { rewrite Hperm. pose proof (wp_count _ _ _ (wm_program WM)) as Hc. cbn [gm_functions] in Hc. unfold int32_max in Hc. lia. }
  assert (arguments_apart V functionOf argNo vs) as Hap.
  { intros v w Hv%Hvals Hw%Hvals Ha Hb Ef En. destruct (argument_inv v Hv Ha) as (F & HF & _ & Hk).
    destruct (argument_inv w Hw Hb) as (G & HG & _ & Hk'). rewrite <- Ef in HG. rewrite (function_unique _ _ _ HG HF) in Hk'.
    rewrite <- En in Hk'. congruence. }
  pose proof (embedNodes_run V functionOf argNo md vs Hnd Hlen Hap) as N.
  unfold embedNodesAsMetadata. rewrite (bind_ok _ _ _ _ _ Hvs).
  destruct (foldl _ _ vs) as [[[i ids] fam] md1]. destruct N as [N1 N2 N3 N4 N9 N5 N6 N7 N8]. cbn [fst snd] in *.
  assert (∀ F, F ∈ dom fam → ∃ G n, (F, G) ∈ functions ∧ isEmptyFunction G = false ∧ 0 < n ∧
    (∀ k, is_Some (default ∅ (fam !! F) !! k) ↔ k < n) ∧
    ∀ a, a ∈ gf_args G → argNo a < n ∧ default ∅ (fam !! F) !! argNo a = Some (ids !! a)) as Hfam.
  { intros F [mm Hmm]%elem_of_dom. rewrite Hmm. cbn [from_option id]. destruct (N9 F mm Hmm) as [n0 Hn0].
    assert (∀ n, is_Some (mm !! n) → ∃ v G, (F, G) ∈ functions ∧ isEmptyFunction G = false ∧ gf_args G !! n = Some v) as Hkey.
    { intros n Hn. destruct (N4 F mm n Hmm Hn) as (v & Hv%Hvals & Ha & <- & <-).
      destruct (argument_inv v Hv Ha) as (G & ? & ? & ?). by exists v, G. }
    destruct (Hkey n0 Hn0) as (v0 & G & HG & Hne & Hv0). exists G, (length (gf_args G)).
    assert (∀ a k, gf_args G !! k = Some a → argNo a = k ∧ mm !! k = Some (ids !! a)) as Harg.
    { intros a k Hk. destruct (wm_arg WM F G k a HG Hne Hk) as (Ha & Hf & <-).
      destruct (N3 a) as (mm' & Hmm' & Hk'); [|done|].
      - apply Hvals, elem_of_module_values. exists G. split; [apply list_elem_of_fmap; by exists (F, G)|].
        unfold function_values. rewrite Hne. apply elem_of_app. left. by apply list_elem_of_lookup; eauto.
      - rewrite Hf, Hmm in Hmm'. by injection Hmm' as <-. }
    split_and!; [done|done|by apply lookup_lt_Some in Hv0; lia| |].
    - intros k. split.
      + intros (v & G' & HG' & _ & Hv)%Hkey. rewrite (function_unique _ _ _ HG' HG) in Hv. by apply lookup_lt_Some in Hv.
      + intros [a Hk]%lookup_lt_is_Some. destruct (Harg a k Hk) as [_ ->]. by eexists.
    - intros a [k Hk]%list_elem_of_lookup. destruct (Harg a k Hk) as [-> ?]. split; [by apply lookup_lt_Some in Hk|done]. }
  destruct (embedArgs_run fam md1 (visit (dom fam))) as (md2 & Hrun & M1 & M2 & M3 & M4).
  { intros F HF%elem_of_visit. destruct (Hfam F HF) as (G & n & _ & _ & Hn & Hk & _).
    destruct (argsVec_complete _ n 0 Hk Hn) as (l & ? & _). by exists l. }
  exists ids, md2. split; [unfold bind, lift; by rewrite Hrun|]. split; [|split; congruence]. split.
  - split.
    + intros v Hv. apply Hin in Hv as [k Hk]%list_elem_of_lookup. exists (idNode (Z.of_nat k)). apply N2. by exists k.
    + intros v w m (k & Hk & ->)%N2 (k' & Hk' & [= Hkk])%N2. assert (k = k') as -> by lia. congruence.
    + intros v m (k & _ & ->)%N2. by eexists.
  - intros p F j HF Hne Hj. destruct (wm_inst WM p F j HF Hne Hj) as (Hii & Hia & _). rewrite M1. apply N5; [|done|done].
    apply Hvals, elem_of_module_values. exists F. split; [apply list_elem_of_fmap; by exists (p, F)|].
    unfold function_values. rewrite Hne. apply elem_of_app. by right.
  - intros p F HF. destruct (M4 p) as [Hyes Hno]. destruct (decide (p ∈ visit (dom fam))) as [Hp|Hp].
    + right. destruct (Hyes Hp) as (l & Hl & Hargs). exists l. split; [done|]. intros a Ha. apply elem_of_visit in Hp.
      destruct (Hfam p Hp) as (G & n & HG & Hne & _ & Hk & Hga). rewrite (function_unique _ _ _ HF HG) in Ha.
      destruct (Hga a Ha) as [Hlt Hlook]. destruct (argsVec_complete _ n _ Hk Hlt) as (l' & Hl' & Hla).
      rewrite Hl in Hl'. injection Hl' as <-. rewrite Hla, Hlook. split; [done|].
      assert (a ∈ vs) as [k Hk']%list_elem_of_lookup.
      { apply Hvals, elem_of_module_values. exists G. split; [apply list_elem_of_fmap; by exists (p, G)|].
        unfold function_values. rewrite Hne. apply elem_of_app. by left. }
      exists (idNode (Z.of_nat k)). apply N2. by exists k.
    + left. rewrite Hno by done. rewrite N6. by eapply Hclean.
Qed.

(** *** Dependences *)

Definition type_name (t : option DataDependenceType) : string :=
  match t with Some DG_DATA_RAW => "RAW" | Some DG_DATA_WAR => "WAR" | Some DG_DATA_WAW => "WAW" | None => "NONE" end.
(** the metadata of a memory dependence *)
Definition edge_metadata (ids : gmap Ptr Metadata) (x : AEdge) (lc : bool) : Metadata :=
  MDNode [ids !! a_src x; ids !! a_dst x; Some (boolNode true); Some (boolNode (bool_decide (a_kind x = MUST_MEMORY_DEPENDENCE)));
          Some (strNode (type_name (a_type x))); Some (boolNode false); Some (boolNode lc); Some (MDNode [])].

(** no dependence of the graph has sub-edges *)
Definition no_sub_edges (h : Heap) (g : DG) : Prop := ∀ e y, e ∈ allEdges g → hedges h !! e = Some y → getSubEdges y = ∅.

Definition flag_of (h : Heap) (e : Ptr) : bool := match hedges h !! e with Some y => isLoopCarried y | None => false end.

(** the object of an edge *)
Lemma edge_object h g A e x : rep h g A → a_edges A !! e = Some x → ∃ y, e ∈ allEdges g ∧ hedges h !! e = Some y ∧
  getSrc y h = Ok (h, a_src x) ∧ getDst y h = Ok (h, a_dst x) ∧ kind y = a_kind x ∧ dataDepType y = a_type x ∧
  flag_of h e = isLoopCarried y.
Proof.
  intros R Hx. rewrite (rep_edges _ _ _ R) in Hx. destruct (edge_view_inv _ _ _ _ Hx) as (He & y & Hy).
  destruct (edge_view_live _ _ _ _ (rep_wf _ _ _ R) He Hy) as (s & d & Hs & Hd & _ & _ & Hv).
  rewrite Hv in Hx. injection Hx as <-. exists y. unfold flag_of. rewrite Hy. split_and!; try done.
  - unfold getSrc, bind, load_node, deref. by rewrite Hs.
  - unfold getDst, bind, load_node, deref. by rewrite Hd.
Qed.

Lemma getEdgeMetadata_run h g A e x y ids : rep h g A → embeddable A → no_sub_edges h g → a_edges A !! e = Some x →
  hedges h !! e = Some y → is_memory x → getEdgeMetadata y ids h = Ok (h, edge_metadata ids x (isLoopCarried y)).
Proof.
  intros R E Hns Hx Hy Hm. destruct (edge_object h g A e x R Hx) as (y' & He & Hy' & Hs & Hd & Hk & Ht & _).
  rewrite Hy in Hy'. injection Hy' as <-. pose proof (Hns e y He Hy) as Hsub.
  destruct (eb_memory _ E x) as (Hkind & [t Hty] & _); [by exists e|done|].
  assert (dataDepName y = Ok (type_name (a_type x))) as Hn.
  { unfold dataDepName, dataDepString, DataDependence_classof, getKind. rewrite Hk, Ht, Hty.
    destruct Hkind as [-> | ->]; by destruct t. }
  assert (∀ w, attributes y w = [Some (boolNode true); Some (boolNode (bool_decide (a_kind x = MUST_MEMORY_DEPENDENCE)));
    Some (strNode w); Some (boolNode false); Some (boolNode (isLoopCarried y))]) as Hattr.
  { intros w. unfold attributes, MemoryDependence_classof, MustMemoryDependence_classof, ControlDependence_classof, getKind. rewrite Hk.
    by destruct Hkind as [-> | ->]. }
  unfold getEdgeMetadata, getSubEdgesMetadata. rewrite Hn, Hsub. cbn [lift].
  assert (visit ∅ = []) as -> by (apply Permutation_nil; by rewrite visit_perm, elements_empty).
  unfold bind at 1, ret at 1. unfold bind at 1. rewrite Hs. unfold bind at 1. rewrite Hd. cbn -[attributes]. by rewrite Hattr.
Qed.

(** what the map of the dependences that leave each function holds after the edges [es] *)
Definition collected (h : Heap) (A : AGraph) (ids : gmap Ptr Metadata) (es : list Ptr)
    (fem : gmap Ptr (list (option Metadata))) : Prop :=
  ∀ F o, o ∈ default [] (fem !! F) ↔ ∃ e x, e ∈ es ∧ a_edges A !! e = Some x ∧ is_memory x ∧ functionOf (a_src x) = F ∧
    o = Some (edge_metadata ids x (flag_of h e)).

Lemma embedEdges_run h g A ids es : rep h g A → embeddable A → no_sub_edges h g → (∀ e, e ∈ es → e ∈ allEdges g) →
  wp (foldM (embedEdge V functionOf ids) ∅ es) (λ fem h', h' = h ∧ collected h A ids es fem) h.
Proof.
  intros R E Hns Hes. eapply wp_mono.
  { apply (wp_foldM _ (λ pre _ fem h', h' = h ∧ collected h A ids pre fem)).
    - split; [done|]. intros F o. rewrite lookup_empty. split; [by intros ?%elem_of_nil|by intros (? & ? & ?%elem_of_nil & _)].
    - intros pre e post fem h' Hl [-> HC]. assert (e ∈ allEdges g) as He by (apply Hes; rewrite Hl; set_solver).
      assert (∃ x, a_edges A !! e = Some x) as [x Hx].
      { pose proof (rep_wf _ _ _ R) as W. destruct (wf_edge _ _ W e He) as (y & Hy & _).
        destruct (edge_view_live _ _ _ _ W He Hy) as (s & d & _ & _ & _ & _ & Hv). rewrite <- (rep_edges _ _ _ R) in Hv. eauto. }
      destruct (edge_object h g A e x R Hx) as (y & _ & Hy & Hs & Hd & Hk & Ht & Hf).
      assert (∀ F o, (∃ e' x', e' ∈ pre ++ [e] ∧ a_edges A !! e' = Some x' ∧ is_memory x' ∧ functionOf (a_src x') = F ∧
          o = Some (edge_metadata ids x' (flag_of h e'))) ↔
        o ∈ default [] (fem !! F) ∨ (is_memory x ∧ functionOf (a_src x) = F ∧ o = Some (edge_metadata ids x (flag_of h e)))) as Hsnoc.
      { intros F o. rewrite (HC F o). split.
        - intros (e' & x' & [?|Ee%list_elem_of_singleton]%elem_of_app & ? & ? & ? & ?); [left; eauto 10|right; by simplify_eq].
        - intros [(e' & x' & ? & ? & ? & ? & ?)|(? & ? & ?)]; [exists e', x'|exists e, x]; split_and!; try done; set_solver. }
      unfold embedEdge. dg_steps. exists y. split; [done|]. unfold collected. destruct (MemoryDependence_classof y) eqn:Hm; cbn [negb].
      + apply (memory_classof y x Hk) in Hm. apply wp_bind. unfold wp at 1.
        rewrite (getEdgeMetadata_run h g A e x y ids R E Hns Hx Hy Hm). apply wp_bind. unfold wp at 1. rewrite Hs.
        destruct (eb_memory _ E x) as (_ & _ & p & F & HF & Hne & Hsrc & _); [by exists e|done|].
        destruct (wm_inst WM p F _ HF Hne Hsrc) as (Hi & _ & _). rewrite Hi, orb_true_r. apply wp_ret. split; [done|].
        intros G o. rewrite Hsnoc, Hf. destruct (decide (functionOf (a_src x) = G)) as [<-|Hne'].
        * rewrite lookup_insert_eq. cbn [from_option id]. rewrite elem_of_app, list_elem_of_singleton. naive_solver.
        * rewrite lookup_insert_ne by done. naive_solver.
      + assert (¬ is_memory x) as Hnm by (rewrite <- (memory_classof y x Hk); congruence). apply wp_ret. split; [done|].
        intros G o. rewrite Hsnoc. naive_solver. }
  intros fem h' H. exact H.
Qed.

(** what the metadata of a module says of its graph *)
Record embedded (A : AGraph) (ids : gmap Ptr Metadata) (md : IRMetadata) : Prop := {
  em_nodes : nodes_embedded A ids md;
  em_edges p F : (p, F) ∈ functions → ∃ l, (pdg_edges md !! p = Some (MDNode l) ∨ (pdg_edges md !! p = None ∧ l = [])) ∧
    (∀ o, o ∈ l → ∃ x lc, present A x ∧ is_memory x ∧ functionOf (a_src x) = p ∧ o = Some (edge_metadata ids x lc)) ∧
    (∀ x, present A x → is_memory x → functionOf (a_src x) = p → ∃ lc, Some (edge_metadata ids x lc) ∈ l);
  em_module : hasPDGAsMetadata md = Ok true
}.

Lemma set_edges_run (fem : gmap Ptr (list (option Metadata))) Fs md :
  let md' := foldl (λ md F, mkIRMetadata (inst_id md) (args_id md)
                      (<[F := MDNode (default [] (fem !! F))]> (pdg_edges md)) (module_pdg md)) md Fs in
  inst_id md' = inst_id md ∧ args_id md' = args_id md ∧ module_pdg md' = module_pdg md ∧
  ∀ F, pdg_edges md' !! F = if decide (F ∈ Fs) then Some (MDNode (default [] (fem !! F))) else pdg_edges md !! F.
Proof.
  revert md. induction Fs as [|G Fs IH]; intros md; cbn [foldl].
  { split_and!; done. }
  destruct (IH (mkIRMetadata (inst_id md) (args_id md) (<[G := MDNode (default [] (fem !! G))]> (pdg_edges md)) (module_pdg md)))
    as (H1 & H2 & H3 & H4). split_and!; try done. intros F. rewrite H4. cbn [pdg_edges].
  destruct (decide (F ∈ Fs)); [by rewrite decide_True by (by right)|]. destruct (decide (F = G)) as [->|Hne].
  - rewrite lookup_insert_eq. by rewrite decide_True by (by left).
  - rewrite lookup_insert_ne, decide_False by (done || by intros [|]%elem_of_cons). done.
Qed.

Lemma embedEdgesAsMetadata_run h g A ids md : rep h g A → embeddable A → no_sub_edges h g → nodes_embedded A ids md →
  (∀ p F, (p, F) ∈ functions → pdg_edges md !! p = None) →
  ∃ md', embedEdgesAsMetadata V functionOf ids md (h, g) = Ok ((h, g), md') ∧
    inst_id md' = inst_id md ∧ args_id md' = args_id md ∧ module_pdg md' = module_pdg md ∧
    ∀ p F, (p, F) ∈ functions → ∃ l, (pdg_edges md' !! p = Some (MDNode l) ∨ (pdg_edges md' !! p = None ∧ l = [])) ∧
      (∀ o, o ∈ l → ∃ x lc, present A x ∧ is_memory x ∧ functionOf (a_src x) = p ∧ o = Some (edge_metadata ids x lc)) ∧
      (∀ x, present A x → is_memory x → functionOf (a_src x) = p → ∃ lc, Some (edge_metadata ids x lc) ∈ l).
Proof.
  intros R E Hns N Hclean. destruct (sortDependences_sorted h g (allEdges g) (rep_wf _ _ _ R) ltac:(done)) as (es & Hes & Hperm & _).
  assert (∀ e, e ∈ es ↔ e ∈ allEdges g) as Hin by (intros e; by rewrite Hperm, elem_of_elements).
  destruct (proj1 (wp_ok _ _ _) (embedEdges_run h g A ids es R E Hns (λ e, proj1 (Hin e)))) as (h' & fem & Hrun & -> & HC).
  destruct (set_edges_run fem (visit (dom fem)) md) as (M1 & M2 & M3 & M4). eexists. split.
  { unfold embedEdgesAsMetadata, getSortedDependences. enough (wp (let* edges := (let* g := this in on_heap (sortDependences (allEdges g))) in
      let* fem := on_heap (foldM (embedEdge V functionOf ids) ∅ edges) in ret (foldl (λ md F, mkIRMetadata (inst_id md) (args_id md)
        (<[F := MDNode (default [] (fem !! F))]> (pdg_edges md)) (module_pdg md)) md (visit (dom fem))))
      (λ md' s', s' = (h, g) ∧ md' = foldl (λ md F, mkIRMetadata (inst_id md) (args_id md)
        (<[F := MDNode (default [] (fem !! F))]> (pdg_edges md)) (module_pdg md)) md (visit (dom fem))) (h, g)) as H.
    { apply wp_ok in H as (s' & md' & -> & -> & ->). reflexivity. }
    dg_steps. unfold wp at 1. rewrite Hes. dg_steps. unfold wp at 1. by rewrite Hrun. }
  split_and!; try done. intros p F HF. exists (default [] (fem !! p)). split_and!.
  - rewrite M4. case_decide as Hd; [by left|]. right. split; [by eapply Hclean|]. rewrite elem_of_visit in Hd.
    by rewrite (not_elem_of_dom_1 _ _ Hd).
  - intros o (e & x & _ & Hx & Hm & Hp & ->)%HC. exists x, (flag_of h e). split_and!; try done. by exists e.
  - intros x [e Hx] Hm Hp. exists (flag_of h e). apply HC. exists e, x. split_and!; try done. apply Hin.
    rewrite (rep_edges _ _ _ R) in Hx. by apply edge_view_inv in Hx as [? _].
Qed.

Lemma clean_spec md : let md' := cleanPDGMetadata functions md in
  module_pdg md' = None ∧ ∀ p F, (p, F) ∈ functions → args_id md' !! p = None ∧ pdg_edges md' !! p = None.
Proof.
  split; [done|]. intros p F HF. unfold cleanPDGMetadata. cbn [args_id pdg_edges].
  assert (∀ fs md, (p ∈ fs.*1 ∨ (args_id md !! p = None ∧ pdg_edges md !! p = None)) →
    let md' := foldl (λ md (F : Ptr * GenFunction), mkIRMetadata (foldl (λ m i, delete i m) (inst_id md) (instructions (gf_cfg F.2)))
      (delete F.1 (args_id md)) (delete F.1 (pdg_edges md)) (module_pdg md)) md fs in
    args_id md' !! p = None ∧ pdg_edges md' !! p = None) as Hgo.
  { induction fs as [|G fs IH]; intros m Hm; cbn [foldl]; [destruct Hm as [?%elem_of_nil|?]; done|]. apply IH.
    cbn [args_id pdg_edges]. destruct (decide (p = G.1)) as [->|Hne]; [right; by rewrite !lookup_delete_eq|].
    rewrite !lookup_delete_ne by done. destruct Hm as [Hm|Hm]; [|by right]. left. cbn in Hm. by apply elem_of_cons in Hm as [?|?]. }
  apply Hgo. left. apply list_elem_of_fmap. by exists (p, F).
Qed.

Lemma cleanAndEmbed_run h g A md : rep h g A → embeddable A → no_sub_edges h g →
  ∃ ids md', cleanAndEmbedPDGAsMetadata V functionOf argNo functions md (h, g) = Ok ((h, g), md') ∧ embedded A ids md'.
Proof.
  intros R E Hns. destruct (clean_spec md) as [C1 C2].
  destruct (embedNodesAsMetadata_run h g A (cleanPDGMetadata functions md) R E) as (ids & md1 & H1 & N & P1 & P2);
    [intros p F HF; by apply (C2 p F)|].
  destruct (embedEdgesAsMetadata_run h g A ids md1 R E Hns N) as (md2 & H2 & Q1 & Q2 & Q3 & Q4);
    [intros p F HF; rewrite P1; by apply (C2 p F)|].
  exists ids. eexists. split.
  { unfold cleanAndEmbedPDGAsMetadata, embedPDGAsMetadata. rewrite (bind_ok _ _ _ _ _ H1). cbn iota beta.
    rewrite (bind_ok _ _ _ _ _ H2). reflexivity. }
  split; cbn [pdg_edges module_pdg].
  - destruct N as [N1 N2 N3]. split; [done| |]; cbn [inst_id args_id]; rewrite ?Q1, ?Q2; done.
  - exact Q4.
  - unfold hasPDGAsMetadata. cbn [module_pdg]. by rewrite Q3, P2, C1.
Qed.

(** ** Reading *)

(** every entry of the map from ids to values is right *)
Definition right_ids (ids : gmap Ptr Metadata) (m : gmap Metadata Ptr) : Prop := ∀ d v, m !! d = Some v → ids !! v = Some d.

Lemma right_insert ids m v d : right_ids ids m → ids !! v = Some d → right_ids ids (<[d := v]> m).
Proof. intros Hm Hv d' v' [[<- <-]|[_ ?]]%lookup_insert_Some; [done|by apply Hm]. Qed.

Lemma read_instructions A ids md m l : ids_ok A ids → right_ids ids m →
  (∀ i, i ∈ l → inst_id md !! i = ids !! i ∧ is_Some (ids !! i)) →
  let m' := foldl (λ (m : gmap Metadata Ptr) I, match inst_id md !! I with Some d => <[d := I]> m | None => m end) m l in
  right_ids ids m' ∧ (∀ d, is_Some (m !! d) → is_Some (m' !! d)) ∧ ∀ i d, i ∈ l → ids !! i = Some d → m' !! d = Some i.
Proof.
  intros HI. revert m. induction l as [|i l IH]; intros m Hm Hl; cbn [foldl].
  { split_and!; try done. by intros ? ? ?%elem_of_nil. }
  destruct (Hl i) as [Hi [d Hd]]; [by left|]. rewrite Hi, Hd.
  destruct (IH (<[d := i]> m)) as (H1 & H2 & H3); [by apply right_insert|intros j Hj; apply Hl; by right|].
  assert (∀ d', is_Some (<[d := i]> m !! d') → is_Some (foldl (λ (m : gmap Metadata Ptr) I,
    match inst_id md !! I with Some d => <[d := I]> m | None => m end) (<[d := i]> m) l !! d')) as H2' by exact H2.
  split_and!; [done| |].
  - intros d' Hd'. apply H2. destruct (decide (d' = d)) as [->|]; [rewrite lookup_insert_eq; by eexists|by rewrite lookup_insert_ne].
  - intros j d' [->|Hj]%elem_of_cons Hj'; [|by apply H3]. rewrite Hd in Hj'. injection Hj' as <-.
    destruct (H2 d) as [v Hv]; [rewrite lookup_insert_eq; by eexists|]. rewrite Hv. f_equal.
    apply (id_inj _ _ HI v i d); [by apply H1|done].
Qed.

Lemma constructNodesFromMetadata_run A ids md p F m : nodes_embedded A ids md → (∀ v, v ∈ a_values A ↔ v ∈ values) →
  (p, F) ∈ functions → right_ids ids m →
  ∃ m', constructNodesFromMetadata argNo md (p, F) m = Ok m' ∧ right_ids ids m' ∧
    (isEmptyFunction F = false → ∀ i d, i ∈ instructions (gf_cfg F) → ids !! i = Some d → m' !! d = Some i).
Proof.
  intros [HI Hinst Hargs] Hvals HF Hm. unfold constructNodesFromMetadata. cbn [fst snd].
  assert (∃ m1, (match args_id md !! p with
    | None => Ok m
    | Some argsM => foldR (λ (IDNodeMap : gmap Metadata Ptr) arg, rbind (getOperand argsM (argNo arg)) (λ o,
        match o with None => Fail AssertionFailure | Some (MDNode l) => Ok (<[MDNode l := arg]> IDNodeMap) | Some _ => Ok IDNodeMap end))
        m (gf_args F) end) = Ok m1 ∧ right_ids ids m1) as (m1 & -> & Hm1).
  { destruct (Hargs p F HF) as [->|(l & -> & Hl)]; [by exists m|].
    apply (foldR_spec _ (λ _ m, right_ids ids m)); [done|]. intros pre a m2 Hpre Hm2.
    destruct (Hl a) as [Ha [d Hd]].
    { destruct Hpre as [post ->]. set_solver. }
    cbn [getOperand]. rewrite Ha, Hd. cbn [rbind]. destruct (id_node _ _ HI a d Hd) as [k ->]. eexists. split; [done|].
    by apply right_insert. }
  cbn [rbind]. eexists. split; [done|]. destruct (isEmptyFunction F) eqn:Hne.
  { split; [|done]. unfold isEmptyFunction, instructions in *. by destruct (blocks (gf_cfg F)). }
  destruct (read_instructions A ids md m1 (instructions (gf_cfg F)) HI Hm1) as (H1 & _ & H3); [|by split].
  intros i Hi. split; [by eapply Hinst|]. apply (id_some _ _ HI), Hvals. apply (function_in_module _ F); [|done|done].
  apply list_elem_of_fmap. by exists (p, F).
Qed.

(** one dependence *)
Lemma constructEdgeOfOperand_adds A ids m p F x lc : ids_ok A ids → embeddable A → (p, F) ∈ functions → present A x → is_memory x →
  functionOf (a_src x) = p →
  (isEmptyFunction F = false → ∀ i d, i ∈ instructions (gf_cfg F) → ids !! i = Some d → m !! d = Some i) →
  adds (constructEdgeOfOperand m (Some (edge_metadata ids x lc))) [x].
Proof.
  intros HI E HF Hx Hm Hp Hread h g A' R Hends. apply Forall_singleton in Hends as [Hs Hd].
  destruct (eb_memory _ E x Hx Hm) as (Hk & [t Ht] & q & G & HG & Hne & Hsrc & Hdst).
  destruct (wm_inst WM q G _ HG Hne Hsrc) as (_ & _ & Hq). rewrite Hp in Hq. subst q. rewrite (function_unique _ _ _ HF HG) in *.
  assert (∀ i, i ∈ instructions (gf_cfg G) → ∃ l, ids !! i = Some (MDNode l) ∧ m !! MDNode l = Some i) as Hid.
  { intros i Hi. destruct (id_some _ _ HI i) as [d Hid].
    - apply (eb_values _ E). apply (function_in_module _ G); [|done|done]. apply list_elem_of_fmap. by exists (p, G).
    - destruct (id_node _ _ HI i d Hid) as [l ->]. exists l. split; [done|]. by apply (Hread Hne i). }
  destruct (Hid _ Hsrc) as (ls & Es & Ms), (Hid _ Hdst) as (ld & Ed & Md).
  pose proof (rep_wf _ _ _ R) as W. apply (rep_values _ _ _ _ R) in Hs as [f Hf]. apply (rep_values _ _ _ _ R) in Hd as [u Hu].
  set (y := setLoopCarried lc (if bool_decide (a_kind x = MUST_MEMORY_DEPENDENCE) then MustMemoryDependence_new f u t
                               else MayMemoryDependence_new f u t)).
  assert (constructEdgeFromMetadata (edge_metadata ids x lc) m (h, g) =
    (let* p := on_heap (new_edge y) in ret (Some p)) (h, g)) as Hrun.
  { unfold constructEdgeFromMetadata, edge_metadata. rewrite Es, Ed, Ht. cbn.
    set (nodes := let* from := deref (m !! MDNode ls) in _).
    assert (nodes (h, g) = Ok ((h, g), (f, u))) as HN.
    { unfold nodes. rewrite Ms, Md. cbn [deref]. unfold bind at 1, ret at 1. unfold bind at 1, ret at 1.
      rewrite (bind_ok _ _ _ _ _ (fetchNode_present _ _ _ _ W Hf)), (bind_ok _ _ _ _ _ (fetchNode_present _ _ _ _ W Hu)). done. }
    clearbody nodes. unfold y. change (bool_decide ("true"%string = "true"%string)) with true.
    change (bool_decide ("false"%string = "true"%string)) with false. cbn iota.
    assert (stringToDataDep match t with DG_DATA_RAW => "RAW" | DG_DATA_WAR => "WAR" | DG_DATA_WAW => "WAW" end%string = Ok t) as Et
      by by destruct t.
    unfold bind at 2, ret at 1. cbn beta iota. rewrite Et.
    destruct (bool_decide (a_kind x = MUST_MEMORY_DEPENDENCE)), lc; unfold bind, lift; cbn -[bool_decide]; rewrite HN; reflexivity. }
  assert (constructEdgeOfOperand m (Some (edge_metadata ids x lc)) (h, g) =
    (let* edge := on_heap (new_edge y) in copyAddEdge edge ;;; on_heap (delete_edge edge)) (h, g)) as Heq.
  { change (constructEdgeOfOperand m (Some (edge_metadata ids x lc)))
      with (let* edge := constructEdgeFromMetadata (edge_metadata ids x lc) m in ret tt ;;; (let* edge := deref edge in
        copyAddEdge edge ;;; on_heap (delete_edge edge))).
    unfold bind at 1. rewrite Hrun. reflexivity. }
  assert (x = mkAEdge (a_src x) (a_dst x) (kind y) (dataDepType y)) as Ex.
  { unfold y. destruct x as [xs xd xk xt]. cbn in *. subst xt. destruct Hk as [-> | ->]; reflexivity. }
  unfold wp. rewrite Heq, Ex. apply (copied_object_run h g A' (a_src x) (a_dst x) f u y R Hf Hu); unfold y; clear;
    destruct (bool_decide _); by try eexists.
Qed.

(** the dependences of one function *)
Lemma adds_forM_rel {B} (f : B → M GSt unit) (P : B → AEdge → Prop) l :
  (∀ o, o ∈ l → ∃ x, P o x ∧ adds (f o) [x]) → ∃ xs, Forall2 P l xs ∧ adds (forM f l) xs.
Proof.
  induction l as [|o l IH]; intros Hl; [exists []; split; [constructor|exact adds_ret]|].
  destruct (Hl o) as (x & Hx & Ha); [by left|]. destruct IH as (xs & Hxs & Has); [intros o' Ho'; apply Hl; by right|].
  exists (x :: xs). split; [by constructor|]. by apply (adds_bind _ _ [x]).
Qed.

Lemma edge_metadata_inj ids A x x' lc lc' : ids_ok A ids → embeddable A → present A x → is_memory x → present A x' → is_memory x' →
  a_src x ∈ a_values A → a_dst x ∈ a_values A → edge_metadata ids x lc = edge_metadata ids x' lc' → x = x'.
Proof.
  intros HI E Hx Hm Hx' Hm' Hs Hd [= Es Ed Ek Et _].
  destruct (id_some _ _ HI _ Hs) as [ds Hds], (id_some _ _ HI _ Hd) as [dd Hdd].
  destruct (eb_memory _ E x Hx Hm) as (Hk & [t Ht] & _), (eb_memory _ E x' Hx' Hm') as (Hk' & [t' Ht'] & _).
  assert (a_src x = a_src x') as E1 by (apply (id_inj _ _ HI _ _ ds); congruence).
  assert (a_dst x = a_dst x') as E2 by (apply (id_inj _ _ HI _ _ dd); congruence).
  assert (a_kind x = a_kind x') as E3 by (destruct Hk as [K|K], Hk' as [K'|K']; rewrite K, K' in *; done).
  assert (a_type x = a_type x') as E4 by (rewrite Ht, Ht' in *; destruct t, t'; done).
  destruct x, x'; cbn in *; congruence.
Qed.

Lemma constructEdgesFromMetadata_run h g A ids md p F m : rep h g A → embedded A ids md → embeddable A → (p, F) ∈ functions →
  (isEmptyFunction F = false → ∀ i d, i ∈ instructions (gf_cfg F) → ids !! i = Some d → m !! d = Some i) →
  ∃ xs, (∀ x, x ∈ xs ↔ present A x ∧ is_memory x ∧ functionOf (a_src x) = p) ∧
    adds (constructEdgesFromMetadata md (p, F) m) xs.
Proof.
  intros R [EN EE _] E HF Hread. destruct (EE p F HF) as (l & Hl & H1 & H2).
  set (P := λ (o : option Metadata) x, present A x ∧ is_memory x ∧ functionOf (a_src x) = p ∧ ∃ lc, o = Some (edge_metadata ids x lc)).
  destruct (adds_forM_rel (constructEdgeOfOperand m) P l) as (xs & Hxs & Hadds).
  { intros o Ho. destruct (H1 o Ho) as (x & lc & Hx & Hm & Hp & ->). exists x. split; [split_and!; eauto|].
    by apply (constructEdgeOfOperand_adds A ids m p F x lc (ne_ids _ _ _ EN) E). }
  exists xs. split.
  - intros x. split.
    + intros [k Hk]%list_elem_of_lookup. destruct (Forall2_lookup_r _ _ _ _ _ Hxs Hk) as (o & _ & Hx & Hm & Hp & _). done.
    + intros (Hx & Hm & Hp). destruct (H2 x Hx Hm Hp) as (lc & [k Hk]%list_elem_of_lookup).
      destruct (Forall2_lookup_l _ _ _ _ _ Hxs Hk) as (x' & Hk' & Hx' & Hm' & _ & lc' & Heq).
      pose proof Hx as [e He]. destruct (rep_ends h g A e x R He) as [Hs Hd].
      assert (x = x') as ->; [|apply list_elem_of_lookup; by exists k].
      apply (edge_metadata_inj ids A x x' lc lc' (ne_ids _ _ _ EN) E); try done. by apply (inj Some).
  - unfold constructEdgesFromMetadata. cbn [fst]. destruct Hl as [->|[-> ->]]; [exact Hadds|].
    inversion Hxs; subst. exact adds_ret.
Qed.

(** all the functions *)
Lemma read_functions h g A ids md h0 g0 A0 : rep h g A → embedded A ids md → embeddable A →
  rep h0 g0 A0 → (∀ v, v ∈ a_values A0 ↔ v ∈ values) →
  wp (foldM (λ IDNodeMap F,
        let* IDNodeMap := lift (constructNodesFromMetadata argNo md F IDNodeMap) in
        constructEdgesFromMetadata md F IDNodeMap ;;; ret IDNodeMap) ∅ functions)
    (λ _ s', ∃ A' l, rep s'.1 s'.2 A' ∧ grown A0 l A' ∧ ∀ x, x ∈ l ↔ present A x ∧ is_memory x) (h0, g0).
Proof.
  intros R EM E R0 Hv0. assert (∀ v, v ∈ a_values A ↔ v ∈ values) as Hv by apply E. eapply wp_mono.
  { apply (wp_foldM _ (λ pre _ m s', right_ids ids m ∧ ∃ A' l, rep s'.1 s'.2 A' ∧ grown A0 l A' ∧
      ∀ x, x ∈ l ↔ present A x ∧ is_memory x ∧ functionOf (a_src x) ∈ pre.*1)).
    - split; [by intros d v; rewrite lookup_empty|]. exists A0, []. split_and!; [done|apply grown_nil|].
      intros x. split; [by intros ?%elem_of_nil|by intros (_ & _ & ?%elem_of_nil)].
    - intros pre [p F] post m [h1 g1] Hl (Hm & A1 & l & R1 & G1 & H1). cbn [fst snd] in *.
      assert ((p, F) ∈ functions) as HF by (rewrite Hl; set_solver).
      destruct (constructNodesFromMetadata_run A ids md p F m (em_nodes _ _ _ EM) Hv HF Hm) as (m' & Hrun & Hm' & Hread).
      apply wp_bind, wp_lift. exists m'. split; [done|]. apply wp_bind.
      destruct (constructEdgesFromMetadata_run h g A ids md p F m' R EM E HF Hread) as (xs & Hxs & Hadds).
      eapply wp_mono; [apply (Hadds h1 g1 A1 R1)|].
      + apply Forall_forall. intros x ([e He] & Hmem & _)%Hxs. destruct (rep_ends h g A e x R He) as [Hs Hd].
        split; rewrite (grown_values _ _ _ G1); by apply Hv0, Hv.
      + intros [] [h2 g2] (A2 & R2 & G2). apply wp_ret. split; [done|]. exists A2, (l ++ xs).
        split_and!; [done|by eapply grown_trans|]. intros x. rewrite elem_of_app, H1, Hxs, fmap_app, elem_of_app.
        cbn [fmap list_fmap fst]. rewrite list_elem_of_singleton. tauto. }
  intros m s' (_ & A' & l & R' & G & H). exists A', l. split_and!; [done..|]. intros x. rewrite H. split; [tauto|]. intros [Hx Hm].
  split_and!; try done. destruct (eb_memory _ E x Hx Hm) as (_ & _ & p & F & HF & Hne & Hs & _).
  destruct (wm_inst WM p F _ HF Hne Hs) as (_ & _ & ->). apply list_elem_of_fmap. by exists (p, F).
Qed.

(** the graph that is read: the memory dependences of [A], with the uses and the control
    dependences computed again *)
Lemma constructPDGFromMetadata_run h g A ids md h2 : rep h g A → embedded A ids md → embeddable A → heap_ok h2 →
  wp (constructPDGFromMetadata V argNo functions md getPDT mainF)
    (λ _ s', ∃ A', rep s'.1 s'.2 A' ∧ a_internal A' = list_to_set values ∧ a_external A' = ∅ ∧
       ∀ x, present A' x ↔ (∃ v, v ∈ values ∧ x ∈ use_edges V v) ∨ (present A x ∧ is_memory x) ∨
         (∃ p v, x = control_edge p v ∧ module_controls V getPDT functions.*2 (λ _ _, False) p v)) (h2, DG_new).
Proof.
  intros R EM E Hh. pose proof (wm_program WM) as WP. set (A0 := values_graph values).
  assert (∀ v, v ∈ a_values A0 ↔ v ∈ values) as HA0 by apply a_values_graph.
  unfold constructPDGFromMetadata. apply wp_bind. eapply wp_mono.
  { apply (PDG_ofModule_run (mkGenModule functions.*2 mainF) h2 Hh (wp_values _ _ _ WP) (wp_count _ _ _ WP)).
    destruct (wp_main _ _ _ WP) as (F & ? & HF & Hne). exists F. split_and!; try done.
    apply (wc_cfg _ _ _ (wp_functions _ _ _ WP F HF Hne)). }
  intros [] [h0 g0] R0. cbn [fst snd gm_functions] in *. fold A0 in R0. apply wp_bind. eapply wp_mono.
  { exact (read_functions h g A ids md h0 g0 A0 R EM E R0 HA0). }
  intros m [h1 g1] (A1 & l1 & R1 & G1 & H1). cbn [fst snd] in *.
  assert (∀ v, v ∈ a_values A1 ↔ v ∈ values) as HA1 by (intros v; by rewrite (grown_values _ _ _ G1), HA0).
  apply wp_bind. eapply wp_mono.
  { apply (constructEdgesFromUseDefs_run V h1 g1 A1 R1). intros v u Hv%HA1 Hu Hc. apply HA1. by apply (wp_users _ _ _ WP v). }
  intros [] [h3 g3] (A2 & l2 & R2 & G2 & H2). cbn [fst snd] in *. pose proof (grown_trans _ _ _ _ _ G1 G2) as G12.
  eapply wp_mono.
  { apply (constructEdgesFromControl_run V getPDT functions.*2 h3 g3 A2 R2).
    - apply NoDup_disjoint_functions, (wp_values _ _ _ WP).
    - intros F HF Hne. split; [by apply (wp_functions _ _ _ WP)|]. intros i Hi. rewrite (grown_values _ _ _ G12), HA0.
      by apply (function_in_module _ F). }
  intros [] s' (A3 & l3 & R3 & G3 & C3 & H3). pose proof (grown_trans _ _ _ _ _ G12 G3) as G. exists A3. split_and!.
  - done.
  - by rewrite (gr_internal _ _ _ G).
  - by rewrite (gr_external _ _ _ G).
  - assert (∀ p v, ¬ controls A2 p v) as Hnone.
    { apply (controls_none A0 _ eq_refl A2 G12). apply Forall_app_2; apply Forall_forall.
      - intros x [Hx Hm]%H1. destruct (eb_memory _ E x Hx Hm) as ([-> | ->] & _); done.
      - intros x (v & _ & Hx%use_edges_kind)%H2 Hk. congruence. }
    pose proof (new_controls V getPDT functions.*2 A2 l3 A3 (wp_functions _ _ _ WP) Hnone G3 C3 H3) as H3'.
    intros x. unfold present. rewrite (elem_of_grown _ _ _ _ G), !elem_of_app, H1, H2, H3'. setoid_rewrite HA1.
    split; [intros [(e & He)|[[?|?]|?]]; [by cbn in He|tauto..]|tauto].
Qed.

(** ** Round trip *)

(** a graph with the values of the module and, among its dependences of the generator, all those of
    definitions and of control *)
Record generated (depends : AEdge → Prop) (A : AGraph) : Prop := {
  ge_internal : a_internal A = list_to_set values;
  ge_external : a_external A = ∅;
  ge_sound x : present A x → depends x;
  ge_complete x : depends x → ¬ is_memory x → present A x
}.

Context (getAA : GenFunction → AliasAnalysis) (svf : SVFAnalysis) (ddAnalyses : list DependenceAnalysis).
Context (disableSVF disableRA : bool) (reachableUnhandled : gmap Ptr (gset Ptr)) (sameLocation : Ptr → Ptr → bool).

Local Abbreviation depends := (dependence V getAA svf ddAnalyses disableSVF disableRA reachableUnhandled sameLocation getPDT
  (mkGenModule functions.*2 mainF)).

Lemma memory_is_memory x : is_memory x ↔ a_kind x ≠ CONTROL_DEPENDENCE ∧ a_kind x ≠ VARIABLE_DEPENDENCE ∧
  a_kind x ≠ FIRST_DATA_DEPENDENCE ∧ a_kind x ≠ LAST_DATA_DEPENDENCE ∧ a_kind x ≠ UNDEFINED_DEPENDENCE.
Proof. unfold is_memory. destruct (a_kind x); cbn; split; (lia || intuition congruence). Qed.

Lemma memory_depends x : depends x → is_memory x →
  ∃ F, F ∈ functions.*2 ∧ isEmptyFunction F = false ∧
    memory_dependence V getAA svf ddAnalyses disableSVF disableRA reachableUnhandled sameLocation F x.
Proof.
  intros [(v & _ & Hx%use_edges_kind)|[H|(p & v & -> & _)]] Hm; [|exact H|].
  - apply memory_is_memory in Hm. naive_solver.
  - apply memory_is_memory in Hm. naive_solver.
Qed.

Lemma generated_embeddable A : generated depends A → embeddable A.
Proof.
  intros [G1 G2 G3 _]. split.
  - intros v. unfold a_values. rewrite G1, G2. set_solver.
  - intros x Hx Hm. destruct (memory_depends x (G3 x Hx) Hm) as (F & HF & Hne & Hd).
    split; [by eapply memory_dependence_kind|].
    destruct Hd as (i & j & again & (Hi & Hj & _) & _ & _ & Hin).
    pose proof (memory_edges_from_to V (getAA F) svf ddAnalyses disableSVF reachableUnhandled sameLocation i j again) as Hft.
    rewrite Forall_forall in Hft. destruct (Hft x Hin) as (-> & -> & _ & Ht). split; [done|].
    apply list_elem_of_fmap in HF as ([p G] & -> & HF). by exists p, G.
Qed.
End program.

(** (C4) A program dependence graph survives the metadata: on a graph that the generator built,
    cleanAndEmbedPDGAsMetadata returns and leaves the graph alone, and constructPDGFromMetadata, run
    later on what it wrote in the module, ends with a graph of the same nodes and the same
    dependences: the memory dependences are read back from the ids of their ends, the others are
    computed again. *)
Theorem metadata_roundtrip {IO : IterOrder} V functionOf argNo functions getPDT mainF getAA svf ddAnalyses disableSVF
    disableRA reachableUnhandled sameLocation h g A md :
  wf_module V functionOf argNo functions getPDT mainF → rep h g A → no_sub_edges h g →
  generated functions (dependence V getAA svf ddAnalyses disableSVF disableRA reachableUnhandled sameLocation getPDT
    (mkGenModule functions.*2 mainF)) A →
  wp (cleanAndEmbedPDGAsMetadata V functionOf argNo functions md)
    (λ md' s', s' = (h, g) ∧ hasPDGAsMetadata md' = Ok true ∧ ∀ h2, heap_ok h2 →
       wp (constructPDGFromMetadata V argNo functions md' getPDT mainF)
         (λ _ s'', ∃ A', rep s''.1 s''.2 A' ∧ a_internal A' = a_internal A ∧ a_external A' = a_external A ∧
            ∀ x, present A' x ↔ present A x) (h2, DG_new)) (h, g).
Proof.
  intros WM R Hns G. pose proof (generated_embeddable V functionOf argNo functions getPDT mainF WM getAA svf ddAnalyses
    disableSVF disableRA reachableUnhandled sameLocation A G) as E.
  destruct (cleanAndEmbed_run V functionOf argNo functions getPDT mainF WM h g A md R E Hns) as (ids & md' & Hrun & EM).
  unfold wp at 1. rewrite Hrun. split; [done|]. split; [apply EM|]. intros h2 Hh. eapply wp_mono.
  { exact (constructPDGFromMetadata_run V functionOf argNo functions getPDT mainF WM h g A ids md' h2 R EM E Hh). }
  intros [] s' (A' & R' & I1 & I2 & HA'). exists A'. split_and!; [done|by rewrite I1, (ge_internal _ _ _ G)|
    by rewrite I2, (ge_external _ _ _ G)|]. intros x. rewrite HA'. split.
  - intros [(v & Hv & Hx)|[[Hx _]|(p & v & -> & Hc)]]; [|done|].
    + apply (ge_complete _ _ _ G); [left; by exists v|]. apply use_edges_kind in Hx. intros Hm%memory_is_memory. naive_solver.
    + apply (ge_complete _ _ _ G); [right; right; by exists p, v|]. intros Hm%memory_is_memory. naive_solver.
  - intros Hx. destruct (ge_sound _ _ _ G x Hx) as [?|[(F & _ & _ & Hmd)|?]]; [by left| |by right; right].
    assert (a_kind x = MUST_MEMORY_DEPENDENCE ∨ a_kind x = MAY_MEMORY_DEPENDENCE) as Hk by by eapply memory_dependence_kind.
    right. left. split; [done|]. apply memory_is_memory. destruct Hk as [-> | ->]; done.
Qed.
