(* ===== verification/PDGCompareSpec.v ===== *)
(** * What comparing two program dependence graphs decides

    The comparison is by the values, the number of dependences, and whether each dependence of the
    first graph is one of the second. *)
From S2P Require Import Prelude DGEdge DGNode DGBase DGInvariant DGSpec DGQuery PDG PDGMetadata PDGCompare.
From S2P Require BitMatrix.
From S2P Require Import PartitionSpec PDGControlSpec PDGMetadataSpec.

Section compare.
Context {IO : IterOrder}.

(** a test that is evaluated on the elements of a list until it holds, which may change the state when it does *)
Lemma anyM_stops {S X} (f : X → M S bool) (P : X → Prop) (I : S → Prop) s l :
  (∀ x, x ∈ l → (f x s = Ok (s, false) ∧ ¬ P x) ∨ ∃ s', f x s = Ok (s', true) ∧ P x ∧ I s') →
  (anyM f l s = Ok (s, false) ∧ ∀ x, x ∈ l → ¬ P x) ∨ ∃ s', anyM f l s = Ok (s', true) ∧ I s' ∧ ∃ x, x ∈ l ∧ P x.
Proof.
  induction l as [|x l IH]; intros Hf; cbn [anyM].
  { left. split; [done|]. by intros ? ?%elem_of_nil. }
  destruct (Hf x) as [[Hb HP]|(s' & Hb & HP & HI)]; [by left| |].
  2:{ right. exists s'. rewrite (bind_ok _ _ _ _ _ Hb). split_and!; [done..|]. exists x. split; [by left|done]. }
  rewrite (bind_ok _ _ _ _ _ Hb). destruct IH as [[H1 H2]|(s' & H1 & H2 & y & Hy & HPy)]; [intros y Hy; apply Hf; by right| |].
  - left. split; [done|]. by intros y [->|Hy]%elem_of_cons; [|apply H2].
  - right. exists s'. split_and!; [done..|]. exists y. split; [by right|done].
Qed.
Lemma anyM_exists {S X} (f : X → M S bool) (P : X → Prop) s l :
  (∀ x, x ∈ l → ∃ b : bool, f x s = Ok (s, b) ∧ (b = true ↔ P x)) →
  ∃ b : bool, anyM f l s = Ok (s, b) ∧ (b = true ↔ ∃ x, x ∈ l ∧ P x).
Proof.
  intros Hf. destruct (anyM_stops f P (eq s) s l) as [[H1 H2]|(s' & H1 & <- & H2)].
  - intros x Hx. destruct (Hf x Hx) as ([] & Hb & HP).
    + right. exists s. split_and!; [done|by apply HP|done].
    + left. split; [done|]. by intros ?%HP.
  - exists false. split; [done|]. split; [done|]. intros (x & Hx & HP). by destruct (H2 x Hx).
  - by exists true.
Qed.

Lemma get_then {S X} (f : S → M S X) s : (let* t := get in f t) s = f s s.
Proof. done. Qed.

(** the objects of the edges are of concrete classes *)
Definition concrete_edges (h : Heap) (g : DG) : Prop := ∀ e y, e ∈ allEdges g → hedges h !! e = Some y → edge_class_ok y.

Lemma getDependences_run h g A src dst : rep h g A → src ∈ a_values A → dst ∈ a_values A →
  ∃ s, getDependences src dst (h, g) = Ok ((h, g), s) ∧
    ∀ e, e ∈ s ↔ ∃ x, a_edges A !! e = Some x ∧ a_src x = src ∧ a_dst x = dst.
Proof.
  intros R [f Hf]%(rep_values _ _ _ _ R) [t Ht]%(rep_values _ _ _ _ R). pose proof (rep_wf _ _ _ R) as W.
  destruct (fetchEdges_edges _ _ _ _ _ _ _ R Hf Ht) as (s & Hrun & Hs). exists s. split; [|done].
  unfold getDependences. rewrite (bind_ok _ _ _ _ _ (fetchNode_present _ _ _ _ W Hf)).
  by rewrite (bind_ok _ _ _ _ _ (fetchNode_present _ _ _ _ W Ht)).
Qed.

(** the test of two dependences is equality, up to the addresses *)
Lemma sameDependence_spec y1 y2 : edge_class_ok y1 → edge_class_ok y2 →
  sameDependence y1 y2 = true ↔ kind y1 = kind y2 ∧ dataDepType y1 = dataDepType y2 ∧ isLoopCarried y1 = isLoopCarried y2.
Proof.
  intros C1 C2. unfold sameDependence, isLoopCarriedDependence, DataDependence_classof, getKind.
  rewrite !andb_true_iff, bool_decide_eq_true, eqb_true_iff. unfold edge_class_ok in *.
  split.
  - intros ((Hk & Hl) & Hd). rewrite Hk in C1, Hd. split_and!; [done| |done].
    destruct (kind y2) eqn:Ek; try done; try by rewrite C1, C2. all: by apply bool_decide_eq_true in Hd.
  - intros (Hk & Hd & Hl). split; [done|]. rewrite (bool_decide_true (dataDepType y1 = dataDepType y2)) by done. clear; by destruct (_ && _).
Qed.

Section graphs.
(** two graphs of the same heap *)
Context (h : Heap) (g1 g2 : DG) (A1 A2 : AGraph) (R1 : rep h g1 A1) (R2 : rep h g2 A2).
Context (C1 : concrete_edges h g1) (C2 : concrete_edges h g2).

(** the dependence at [e] of the first graph is one of the second *)
Definition matched (e : Ptr) : Prop :=
  ∀ x, a_edges A1 !! e = Some x → ∃ e2, a_edges A2 !! e2 = Some x ∧ flag_of h e2 = flag_of h e.

Lemma dependenceIsMissing_run e x : a_edges A1 !! e = Some x → a_src x ∈ a_values A2 → a_dst x ∈ a_values A2 →
  ∃ b : bool, dependenceIsMissing e (h, g2) = Ok ((h, g2), b) ∧ (b = false ↔ matched e).
Proof.
  intros Hx Hs Hd. destruct (edge_object h g1 A1 e x R1 Hx) as (y & He & Hy & Hsrc & Hdst & Hk & Ht & Hf).
  destruct (getDependences_run h g2 A2 _ _ R2 Hs Hd) as (es & Hes & Hin).
  destruct (anyM_exists (λ e2, let* edge2 := load_edge e2 in ret (sameDependence y edge2))
    (λ e2, a_edges A2 !! e2 = Some x ∧ flag_of h e2 = flag_of h e) h (visit es)) as (b & Hb & HP).
  { intros e2 (x2 & Hx2 & Es & Ed)%elem_of_visit%Hin.
    destruct (edge_object h g2 A2 e2 x2 R2 Hx2) as (y2 & He2 & Hy2 & _ & _ & Hk2 & Ht2 & Hf2).
    exists (sameDependence y y2). split; [unfold bind, load_edge, deref; by rewrite Hy2|].
    rewrite sameDependence_spec by (first [by eapply C1 | by eapply C2]). rewrite Hf, Hf2, Hx2, Hk, Hk2, Ht, Ht2.
    split; [|by intros [[= ->] ->]]. intros (? & ? & ?). split; [|done]. f_equal. destruct x, x2; cbn in *; congruence. }
  assert (b = true ↔ matched e) as HM.
  { rewrite HP. unfold matched. split.
    - intros (e2 & _ & He2 & Hfl) x' Hx'. rewrite Hx in Hx'. injection Hx' as <-. by exists e2.
    - intros HM. destruct (HM x Hx) as (e2 & He2 & Hfl). exists e2. split; [|done]. apply elem_of_visit, Hin. by exists x. }
  exists (negb b). split; [|rewrite <- HM; by destruct b].
  assert (∀ {X} (m : M Heap X) v, m h = Ok (h, v) → on_heap m (h, g2) = Ok ((h, g2), v)) as Hon.
  { intros X m v Hm. unfold on_heap, zoom. cbn [fst snd]. by rewrite Hm. }
  unfold dependenceIsMissing. rewrite (bind_ok _ _ _ _ _ (Hon _ (load_edge e) y ltac:(unfold load_edge; by rewrite Hy))).
  rewrite (bind_ok _ _ _ _ _ (Hon _ _ _ Hsrc)), (bind_ok _ _ _ _ _ (Hon _ _ _ Hdst)), (bind_ok _ _ _ _ _ Hes).
  destruct (decide (es = ∅)) as [->|Hne].
  - assert (b = false) as ->; [|done]. destruct b; [|done]. destruct (proj1 HP eq_refl) as (e2 & H2 & _).
    apply elem_of_visit in H2. set_solver.
  - by rewrite (bind_ok _ _ _ _ _ (Hon _ _ _ Hb)).
Qed.

Lemma compareEdgesInto_run : a_values A1 ⊆ a_values A2 →
  ∃ b : bool, compareEdgesInto g1 (h, g2) = Ok ((h, g2), b) ∧ (b = true ↔ ∀ e, matched e).
Proof.
  intros Hsub.
  assert (∀ e x, a_edges A1 !! e = Some x → ∃ b : bool, dependenceIsMissing e (h, g2) = Ok ((h, g2), b) ∧ (b = false ↔ matched e)) as Hrun.
  { intros e x Hx. destruct (rep_ends _ _ _ _ _ R1 Hx). eapply dependenceIsMissing_run; [done|by apply Hsub..]. }
  assert (∀ e, e ∈ allEdges g1 ↔ is_Some (a_edges A1 !! e)) as Hin by (intros e; by apply (edges_dom h _ _ _ R1)).
  destruct (anyM_exists dependenceIsMissing (λ e, dependenceIsMissing e (h, g2) = Ok ((h, g2), true)) (h, g2) (visit (allEdges g1)))
    as (b & Hb & HP).
  { intros e [x Hx]%elem_of_visit%Hin. destruct (Hrun e x Hx) as (m & Hm & _). exists m. split; [done|]. rewrite Hm. by destruct m. }
  exists (negb b). split; [unfold compareEdgesInto; by rewrite (bind_ok _ _ _ _ _ Hb)|]. destruct b.
  - split; [done|]. intros HM. destruct (proj1 HP eq_refl) as (e & [x Hx]%elem_of_visit%Hin & He).
    destruct (Hrun e x Hx) as (m & Hm & Hme). rewrite (proj2 Hme (HM e)) in Hm. congruence.
  - split; [|done]. intros _ e x Hx. destruct (Hrun e x Hx) as ([] & Hm & Hme); [|by apply (proj1 Hme)].
    assert (false = true); [|done]. apply HP. exists e. split; [apply elem_of_visit, Hin; by exists x|done].
Qed.
End graphs.

Lemma compareNodes_run h g1 g2 A1 A2 : rep h g1 A1 → rep h g2 A2 →
  (compareNodes (h, (g1, g2)) = Ok ((h, (g1, g2)), true) ∧ a_values A1 = a_values A2) ∨
  ∃ g2', compareNodes (h, (g1, g2)) = Ok ((h, (g1, g2')), false) ∧ a_values A1 ≠ a_values A2.
Proof.
  intros R1 R2. unfold compareNodes. rewrite get_then. cbn [snd].
  rewrite (numNodes_values _ _ _ R1), (numNodes_values _ _ _ R2). destruct (decide _) as [Hne|He].
  { right. exists g2. split; [done|]. intros E. by rewrite E in Hne. }
  apply dec_stable in He. set (missing := λ n, ∃ x, hnodes h !! n = Some x ∧ theT x ∉ a_values A2).
  destruct (anyM_stops nodeIsMissing missing (λ s, s.1 = h) (h, g2) (visit (allNodes g1)))
    as [[Hb HP]|([h' g2'] & Hb & Eh & n & Hn%elem_of_visit & x & Hx & Hout)].
  { intros n (x & Hx & _)%elem_of_visit%(wf_node _ _ (rep_wf _ _ _ R1)). unfold nodeIsMissing.
    unfold bind, on_heap, zoom, load_node. cbn [fst snd]. rewrite Hx. cbn [deref ret fst snd].
    destruct (decide (theT x ∈ a_values A2)) as [Hin|Hout].
    - left. split; [|intros (x' & ? & ?); congruence]. apply (rep_values _ _ _ _ R2) in Hin as [m Hm].
      unfold getT. by rewrite (fetchNode_present _ _ _ _ (rep_wf _ _ _ R2) Hm).
    - right. rewrite fetchNode_absent; [eexists; split_and!; [done|by exists x|done]|].
      destruct (isInGraph g2 _) eqn:Hg; [|done]. exfalso. apply Hout, (rep_values _ _ _ _ R2). by apply (in_graph_node_of _ _ _ _ R2). }
  - left. assert (a_values A1 ⊆ a_values A2) as Hs.
    { intros v [n Hn]%(rep_values _ _ _ _ R1). destruct (wf_map _ _ (rep_wf _ _ _ R1) _ _ Hn) as (Hin & x & Hx & <-).
      destruct (decide (theT x ∈ a_values A2)) as [|Hout]; [done|]. exfalso. apply (HP n); [by apply elem_of_visit|by exists x]. }
    split.
    + unfold on_pdg2. unfold bind at 1, zoom at 1. cbn [fst snd]. by rewrite Hb.
    + apply leibniz_equiv, set_subseteq_size_equiv; [done|lia].
  - right. cbn in Eh. subst h'. exists g2'. split; [unfold on_pdg2, bind at 1, zoom at 1; cbn [fst snd]; by rewrite Hb|].
    intros E. apply Hout. rewrite <- E. apply (rep_values _ _ _ _ R1).
    destruct (wf_node _ _ (rep_wf _ _ _ R1) n Hn) as (x' & Hx' & ?). simplify_eq. by exists n.
Qed.

(** (C8) Two program dependence graphs compare as equal exactly when they have the same values, the
    same number of dependences, and every dependence of the first has one of the same ends, kind, data
    type and loop-carried flag in the second (how often a dependence is repeated is not compared).
    The first graph is left alone, and so is the second when the comparison succeeds; when it fails on
    the values the second may keep the null entry that fetchNode leaves for a value it does not have. *)
Theorem comparePDGs_spec h g1 g2 A1 A2 : rep h g1 A1 → rep h g2 A2 → concrete_edges h g1 → concrete_edges h g2 →
  ∃ (b : bool) g2', comparePDGs (h, (g1, g2)) = Ok ((h, (g1, g2')), b) ∧ (b = true → g2' = g2) ∧
    (b = true ↔ a_values A1 = a_values A2 ∧ size (a_edges A1) = size (a_edges A2) ∧ ∀ e, matched h A1 A2 e).
Proof.
  intros R1 R2 C1 C2. unfold comparePDGs. destruct (compareNodes_run h g1 g2 A1 A2 R1 R2) as [[Hb Hv]|(g2' & Hb & Hv)].
  2:{ exists false, g2'. rewrite (bind_ok _ _ _ _ _ Hb). by split_and!; [| |split; [|intros (? & _)]]. }
  rewrite (bind_ok _ _ _ _ _ Hb).
  destruct (compareEdgesInto_run h g1 g2 A1 A2 R1 R2 C1 C2) as (b1 & H1 & HM1); [by rewrite Hv|].
  destruct (compareEdgesInto_run h g2 g1 A2 A1 R2 R1 C2 C1) as (b2 & H2 & _); [by rewrite Hv|].
  unfold compareEdges. rewrite get_then. cbn [snd]. unfold getNumberOfDependencesBetweenInstructions.
  rewrite (numEdges_edges _ _ _ R1), (numEdges_edges _ _ _ R2).
  assert (on_pdg2 (compareEdgesInto g1) (h, (g1, g2)) = Ok ((h, (g1, g2)), b1)) as E1.
  { unfold on_pdg2, zoom. cbn [fst snd]. by rewrite H1. }
  assert (on_pdg1 (compareEdgesInto g2) (h, (g1, g2)) = Ok ((h, (g1, g2)), b2)) as E2.
  { unfold on_pdg1, zoom. cbn [fst snd]. by rewrite H2. }
  destruct (decide _) as [Hne|He].
  - exists false, g2. split_and!; [|done|split; [done|by intros (_ & ? & _)]]. rewrite (bind_ok _ _ _ _ _ E1).
    rewrite get_then. cbn [snd]. by rewrite (bind_ok _ _ _ _ _ E2).
  - apply dec_stable in He. exists b1, g2. split_and!; [done|done|]. rewrite HM1. split; [done|by intros (_ & _ & ?)].
Qed.
End compare.
