(* ===== verification/LoopEnvironment.v ===== *)
(** * Loop environments (src/core/loop_environment: LoopEnvironment.cpp)

    The class [LoopEnvironment]: the values that enter a loop and those that leave it, each
    with an identifier, found on the external nodes of the dependence graph of the loop. *)
From S2P Require Import Prelude DGEdge DGNode DGBase.

(** the elements of a [std::set] of integers, in increasing order *)
Definition sorted (s : gset Z) : list Z := merge_sort Z.le (elements s).

(** ** State *)

(** [exitBlockType] is [None] while the code has not initialised it *)
Record LoopEnvironment := mkLoopEnvironment {
  envProducers : list Ptr;
  producerIDMap : gmap Ptr Z;
  liveInIDs : gset Z;
  liveOutIDs : gset Z;
  prodConsumers : gmap Ptr (gset Ptr);
  hasExitBlockEnv : bool;
  exitBlockType : option Ptr
}.

Section environment.
Context {IO : IterOrder}.
(** what the code asks of llvm: which values are instructions, the type of a value, and the
    type [i32] *)
Context (isInst : Ptr → bool) (getType : Ptr → Ptr) (int32Type : Ptr).

Definition env_empty : LoopEnvironment := mkLoopEnvironment [] ∅ ∅ ∅ ∅ false None.

(** ** Producers *)

Definition addProducer (producer : Ptr) (liveIn : bool) (env : LoopEnvironment) : LoopEnvironment * Z :=
  match list_find (eq producer) (envProducers env) with
  | Some (c, _) => (env, Z.of_nat c)
  | None =>
      let nextEnvID := Z.of_nat (length (envProducers env)) in
      (mkLoopEnvironment (envProducers env ++ [producer])
         (<[producer := i32 nextEnvID]> (producerIDMap env))
         (if liveIn then {[i32 nextEnvID]} ∪ liveInIDs env else liveInIDs env)
         (if liveIn then liveOutIDs env else {[i32 nextEnvID]} ∪ liveOutIDs env)
         (prodConsumers env) (hasExitBlockEnv env) (exitBlockType env), nextEnvID)
  end.
Definition addLiveInProducer (producer : Ptr) (env : LoopEnvironment) : LoopEnvironment * Z :=
  addProducer producer true env.
Definition addLiveOutProducer (producer : Ptr) (env : LoopEnvironment) : LoopEnvironment :=
  (addProducer producer false env).1.

(** [prodConsumers[producer].insert(consumer)] *)
Definition addConsumer (producer : Ptr) (env : LoopEnvironment) (consumer : Ptr) : LoopEnvironment :=
  mkLoopEnvironment (envProducers env) (producerIDMap env) (liveInIDs env) (liveOutIDs env)
    (<[producer := {[consumer]} ∪ default ∅ (prodConsumers env !! producer)]> (prodConsumers env))
    (hasExitBlockEnv env) (exitBlockType env).

Definition addLiveInValue (newLiveInValue : Ptr) (consumers : gset Ptr) (env : LoopEnvironment)
    : LoopEnvironment * Z :=
  let r := addLiveInProducer newLiveInValue env in
  (foldl (addConsumer newLiveInValue) r.1 (visit consumers), r.2).

Definition isProducer (producer : Ptr) (env : LoopEnvironment) : bool :=
  bool_decide (is_Some (producerIDMap env !! producer)).
Definition isLiveIn (val : Ptr) (env : LoopEnvironment) : bool :=
  match producerIDMap env !! val with
  | None => false
  | Some producerID => isProducer val env && bool_decide (producerID ∈ liveInIDs env)
  end.

(** ** Construction *)

(** memory and control dependences carry no value *)
Definition carriesNoValue (edge : DGEdge) : bool :=
  MemoryDependence_classof edge || ControlDependence_classof edge.

(** the edges out of an external node: is it a producer, and who consumes it? *)
Definition consumerStep (st : bool * gset Ptr) (e : Ptr) : M Heap (bool * gset Ptr) :=
  let* edge := load_edge e in
  if carriesNoValue edge then ret st
  else
    let* consumerOfNewLiveIn := getDst edge in
    massert (isInst consumerOfNewLiveIn) ;;;
    ret (true, {[consumerOfNewLiveIn]} ∪ st.2).
(** the edges into an external node *)
Definition liveOutStep (externalValue : Ptr) (env : LoopEnvironment) (e : Ptr) : M Heap LoopEnvironment :=
  let* edge := load_edge e in
  if carriesNoValue edge then ret env
  else
    let* internalValue := getSrc edge in
    let env := if isProducer internalValue env then env else addLiveOutProducer internalValue env in
    ret (addConsumer internalValue env externalValue).

Definition addExternalNode (excludeValues : gset Ptr) (env : LoopEnvironment) (nodeI : Ptr * option Ptr)
    : M Heap LoopEnvironment :=
  let* externalNode := deref nodeI.2 in
  let* n := load_node externalNode in
  let externalValue := getT n in
  if decide (externalValue ∈ excludeValues) then ret env
  else
    let* st := foldM consumerStep (false, ∅) (visit (outgoingEdges n)) in
    let env := if st.1 : bool then (addLiveInValue externalValue st.2 env).1 else env in
    foldM (liveOutStep externalValue) env (visit (incomingEdges n)).

Definition set_exit (b : bool) (env : LoopEnvironment) : LoopEnvironment :=
  mkLoopEnvironment (envProducers env) (producerIDMap env) (liveInIDs env) (liveOutIDs env) (prodConsumers env)
    b (if b then Some int32Type else exitBlockType env).

(** [LoopEnvironment(loopDG, exitBlocks, excludeValues)] *)
Definition LoopEnvironment_new (loopDG : DG) (exitBlocks : list Ptr) (excludeValues : gset Ptr)
    : M Heap LoopEnvironment :=
  let* env := foldM (addExternalNode excludeValues) env_empty (externalNodePairs loopDG) in
  ret (set_exit (bool_decide (1 < length exitBlocks)) env).

(** ** Queries *)

Definition typeOfEnvironmentLocation (env : LoopEnvironment) (id : Z) : Res Ptr :=
  match envProducers env !! Z.to_nat id with
  | Some p => Ok (getType p)
  | None => match exitBlockType env with Some t => Ok t | None => Fail UndefinedBehaviour end
  end.
Definition env_size (env : LoopEnvironment) : Z :=
  u64 (Z.of_nat (length (envProducers env)) + (if hasExitBlockEnv env then 1 else 0)).
Definition getTypesOfEnvironmentLocations (env : LoopEnvironment) : Res (list Ptr) :=
  foldR (λ varTypes i, rbind (typeOfEnvironmentLocation env i) (λ t, Ok (varTypes ++ [t]))) []
        (seqZ 0 (env_size env)).
Definition getExitBlockID (env : LoopEnvironment) : Z :=
  if hasExitBlockEnv env then Z.of_nat (length (envProducers env)) else -1.
Definition consumersOf (env : LoopEnvironment) (prod : Ptr) : gset Ptr := default ∅ (prodConsumers env !! prod).
Definition getProducers (env : LoopEnvironment) : list Ptr := envProducers env.
Definition getEnvIDsOfLiveInVars (env : LoopEnvironment) : list Z := sorted (liveInIDs env).
Definition getEnvIDsOfLiveOutVars (env : LoopEnvironment) : list Z := sorted (liveOutIDs env).
Definition getProducer (env : LoopEnvironment) (id : Z) : Res Ptr :=
  match envProducers env !! Z.to_nat id with Some p => Ok p | None => Fail AssertionFailure end.
Definition getNumberOfLiveIns (env : LoopEnvironment) : Z := Z.of_nat (length (getEnvIDsOfLiveInVars env)).
Definition getNumberOfLiveOuts (env : LoopEnvironment) : Z := Z.of_nat (length (getEnvIDsOfLiveOutVars env)).
End environment.
