(* ===== verification/LoopEnvironmentSpec.v ===== *)
(** * The environment of a loop

    The identifiers are dense, and the live-in and live-out values are those on the value
    dependences that cross the boundary of the loop. *)
From S2P Require Import Prelude DGEdge DGNode DGBase DGInvariant DGSpec DGQuery DGCopy PDGSpec LoopEnvironment.

Open Scope Z_scope.

(** ** Well-formed environments *)

Record env_wf (env : LoopEnvironment) : Prop := {
  ew_nodup : NoDup (envProducers env);
  ew_map v i : producerIDMap env !! v = Some i ↔ 0 ≤ i ∧ envProducers env !! Z.to_nat i = Some v;
  ew_ids i : i ∈ liveInIDs env ∨ i ∈ liveOutIDs env ↔ 0 ≤ i < Z.of_nat (length (envProducers env));
  ew_disjoint : liveInIDs env ## liveOutIDs env
}.

Lemma env_empty_wf : env_wf env_empty.
Proof.
  split; simpl.
  - constructor.
  - intros v i. rewrite lookup_empty, lookup_nil. naive_solver.
  - intros i. split; [set_solver|lia].
  - set_solver.
Qed.

Lemma isProducer_spec env v : env_wf env → isProducer v env = true ↔ v ∈ envProducers env.
Proof.
  intros W. unfold isProducer. rewrite bool_decide_eq_true. split.
  - intros [i [_ Hi]%(ew_map _ W)]. by apply list_elem_of_lookup_2 in Hi.
  - intros [k Hk]%list_elem_of_lookup. exists (Z.of_nat k). apply (ew_map _ W). split; [lia|]. by rewrite Nat2Z.id.
Qed.

Section producers.
Context {IO : IterOrder}.

(** a value that is not in the environment gets the next identifier *)
Lemma addProducer_spec v b env : env_wf env → Z.of_nat (length (envProducers env)) < 2 ^ 31 →
  let r := addProducer v b env in
  env_wf r.1 ∧ prodConsumers r.1 = prodConsumers env ∧
  (∀ u, u ∈ envProducers r.1 ↔ u ∈ envProducers env ∨ u = v) ∧
  (∀ u, isLiveIn u r.1 = true ↔ isLiveIn u env = true ∨ (u = v ∧ v ∉ envProducers env ∧ b = true)) ∧
  envProducers r.1 !! Z.to_nat r.2 = Some v.
Proof.
  intros W Hlen r. subst r. unfold addProducer. destruct (list_find (eq v) (envProducers env)) as [[c u]|] eqn:Hf.
  - apply list_find_Some in Hf as (Hc & <- & _). apply list_elem_of_lookup_2 in Hc as Hin. simpl. split_and!; [done..| | |].
    + intros u. naive_solver.
    + intros u. naive_solver.
    + by rewrite Nat2Z.id.
  - apply list_find_None in Hf. rewrite Forall_forall in Hf.
    assert (v ∉ envProducers env) as Hv by (intros Hv; by apply (Hf v)). set (n := length (envProducers env)) in *.
    simpl. rewrite i32_small by lia.
    assert (Z.of_nat n ∉ liveInIDs env ∧ Z.of_nat n ∉ liveOutIDs env) as [Hn1 Hn2].
    { split; intros Hi; [assert (Z.of_nat n ∈ liveInIDs env ∨ Z.of_nat n ∈ liveOutIDs env) as [_ ?]%(ew_ids _ W) by auto|
        assert (Z.of_nat n ∈ liveInIDs env ∨ Z.of_nat n ∈ liveOutIDs env) as [_ ?]%(ew_ids _ W) by auto]; lia. }
    split_and!.
    + split; simpl.
      * apply NoDup_app. split; [apply W|]. split; [|apply NoDup_singleton]. intros u Hu ->%list_elem_of_singleton. done.
      * intros u i. destruct (decide (u = v)) as [->|Hne].
        { rewrite lookup_insert_eq. split.
          - intros [= <-]. split; [lia|]. rewrite Nat2Z.id, lookup_app_r by lia. by rewrite Nat.sub_diag.
          - intros [Hi Hl]. f_equal. apply lookup_app_Some in Hl as [Hl|[Hl1 [Hl2 _]%list_lookup_singleton_Some]].
            + by apply list_elem_of_lookup_2 in Hl.
            + fold n in Hl1, Hl2. lia. }
        rewrite lookup_insert_ne, (ew_map _ W) by done. split.
        { intros [? Hl]. split; [done|]. by apply lookup_app_l_Some. }
        intros [? [Hl|[_ [_ <-]%list_lookup_singleton_Some]]%lookup_app_Some]; done.
      * intros i. rewrite length_app. simpl. fold n. pose proof (ew_ids _ W i) as Hi. fold n in Hi.
        assert (i ∈ (if b then {[Z.of_nat n]} ∪ liveInIDs env else liveInIDs env) ∨
          i ∈ (if b then liveOutIDs env else {[Z.of_nat n]} ∪ liveOutIDs env) ↔
          i = Z.of_nat n ∨ (i ∈ liveInIDs env ∨ i ∈ liveOutIDs env)) as ->.
        { destruct b; rewrite elem_of_union, elem_of_singleton; tauto. }
        rewrite Hi. lia.
      * pose proof (ew_disjoint _ W). destruct b; set_solver.
    + done.
    + intros u. rewrite elem_of_snoc. done.
    + intros u. unfold isLiveIn, isProducer. simpl. destruct (decide (u = v)) as [->|Hne].
      * rewrite lookup_insert_eq, bool_decide_true by done. simpl. rewrite bool_decide_eq_true.
        assert (producerIDMap env !! v = None) as ->.
        { apply eq_None_not_Some. intros [i [_ Hi]%(ew_map _ W)]. by apply list_elem_of_lookup_2 in Hi. }
        destruct b; [rewrite elem_of_union, elem_of_singleton; tauto|]. split; [done|]. by intros [?|(_ & _ & ?)].
      * rewrite !lookup_insert_ne by done. destruct (producerIDMap env !! u) as [i|] eqn:Hi; [|naive_solver].
        assert (i ∈ (if b then {[Z.of_nat n]} ∪ liveInIDs env else liveInIDs env) ↔ i ∈ liveInIDs env) as Hiff.
        { apply (ew_map _ W) in Hi as [Hi0 Hi]. apply lookup_lt_Some in Hi. fold n in Hi.
          destruct b; [rewrite elem_of_union, elem_of_singleton|done]. assert (i ≠ Z.of_nat n) by lia. tauto. }
        rewrite !andb_true_iff, (bool_decide_ext _ _ Hiff). naive_solver.
    + rewrite Nat2Z.id, lookup_app_r by lia. by rewrite Nat.sub_diag.
Qed.

(** ** Consumers *)

Lemma addConsumer_same v env c : envProducers (addConsumer v env c) = envProducers env ∧
  producerIDMap (addConsumer v env c) = producerIDMap env ∧ liveInIDs (addConsumer v env c) = liveInIDs env ∧
  liveOutIDs (addConsumer v env c) = liveOutIDs env.
Proof. done. Qed.

Lemma elem_of_addConsumer v env c u d :
  d ∈ consumersOf (addConsumer v env c) u ↔ d ∈ consumersOf env u ∨ (u = v ∧ d = c).
Proof.
  unfold consumersOf. simpl. destruct (decide (u = v)) as [->|Hne].
  - rewrite lookup_insert_eq. simpl. rewrite elem_of_union, elem_of_singleton. tauto.
  - rewrite lookup_insert_ne by done. tauto.
Qed.

(** the environment [env] has the live-in values [LI], the live-out values [LO] and the consumers [CO] *)
Record describes (env : LoopEnvironment) (LI LO : Ptr → Prop) (CO : Ptr → Ptr → Prop) : Prop := {
  ds_wf : env_wf env;
  ds_in v : isLiveIn v env = true ↔ LI v;
  ds_out v : v ∈ envProducers env ↔ LI v ∨ LO v;
  ds_consumers v c : c ∈ consumersOf env v ↔ CO v c
}.

Lemma describes_iff env LI LO CO LI' LO' CO' : describes env LI LO CO →
  (∀ v, LI v ↔ LI' v) → (∀ v, LO v ↔ LO' v) → (∀ v c, CO v c ↔ CO' v c) → describes env LI' LO' CO'.
Proof.
  intros [W H1 H2 H3] E1 E2 E3. split; [done|..].
  - intros v. by rewrite H1.
  - intros v. by rewrite H2, E1, E2.
  - intros v c. by rewrite H3.
Qed.

Lemma addConsumer_wf v env c : env_wf env → env_wf (addConsumer v env c).
Proof. intros []. by split. Qed.

Lemma describes_consumer env LI LO CO v c : describes env LI LO CO →
  describes (addConsumer v env c) LI LO (λ u d, CO u d ∨ (u = v ∧ d = c)).
Proof.
  intros [W H1 H2 H3]. split; [by apply addConsumer_wf|done|done|].
  intros u d. by rewrite elem_of_addConsumer, H3.
Qed.

Lemma describes_consumers env LI LO CO v l : describes env LI LO CO →
  describes (foldl (addConsumer v) env l) LI LO (λ u d, CO u d ∨ (u = v ∧ d ∈ l)).
Proof.
  revert env CO. induction l as [|c l IH]; intros env CO H; simpl.
  - eapply describes_iff; [done|done|done|]. intros u d. rewrite elem_of_nil. tauto.
  - eapply describes_iff; [by apply IH, describes_consumer|done|done|]. intros u d. cbn. rewrite elem_of_cons. tauto.
Qed.

Lemma describes_liveIn env LI LO CO v cs : describes env LI LO CO → Z.of_nat (length (envProducers env)) < 2 ^ 31 →
  ¬ LO v →
  describes (addLiveInValue v cs env).1 (λ u, LI u ∨ u = v) LO (λ u d, CO u d ∨ (u = v ∧ d ∈ cs)).
Proof.
  intros H Hlen Hno. unfold addLiveInValue, addLiveInProducer. simpl.
  destruct (addProducer_spec v true env (ds_wf _ _ _ _ H) Hlen) as (W & Hco & Hin & Hli & _).
  assert (describes (addProducer v true env).1 (λ u, LI u ∨ u = v) LO CO) as H'.
  { split; [done|..].
    - intros u. rewrite Hli, (ds_in _ _ _ _ H). split; [tauto|]. intros [?| ->]; [by left|].
      destruct (decide (v ∈ envProducers env)) as [Hv|Hv]; [|by right]. apply (ds_out _ _ _ _ H) in Hv. tauto.
    - intros u. rewrite Hin, (ds_out _ _ _ _ H). tauto.
    - intros u c. unfold consumersOf. rewrite Hco. apply (ds_consumers _ _ _ _ H). }
  eapply describes_iff; [by apply describes_consumers|done|done|]. intros u d. cbn. by rewrite elem_of_visit.
Qed.

Lemma describes_liveOut env LI LO CO v : describes env LI LO CO → Z.of_nat (length (envProducers env)) < 2 ^ 31 →
  describes (if isProducer v env then env else addLiveOutProducer v env) LI (λ u, LO u ∨ (u = v ∧ ¬ LI u)) CO.
Proof.
  intros H Hlen. pose proof (isProducer_spec env v (ds_wf _ _ _ _ H)) as Hp. destruct (isProducer v env).
  - eapply describes_iff; [done|done| |done]. intros u. split; [by left|]. intros [?|[-> ?]]; [done|].
    assert (v ∈ envProducers env) as [?|?]%(ds_out _ _ _ _ H) by (by apply Hp); done.
  - assert (v ∉ envProducers env) as Hv by (by intros ?%Hp).
    destruct (addProducer_spec v false env (ds_wf _ _ _ _ H) Hlen) as (W & Hco & Hin & Hli & _). split; [done|..].
    + intros u. unfold addLiveOutProducer. rewrite Hli, (ds_in _ _ _ _ H). naive_solver.
    + intros u. unfold addLiveOutProducer. rewrite Hin, (ds_out _ _ _ _ H). split; [|naive_solver].
      intros [[?|?]| ->]; [tauto|tauto|]. destruct (decide (isLiveIn v env = true)) as [Hl|Hl];
        rewrite (ds_in _ _ _ _ H) in Hl; tauto.
    + intros u c. unfold consumersOf, addLiveOutProducer. rewrite Hco. apply (ds_consumers _ _ _ _ H).
Qed.
End producers.

(** ** Construction *)

(** the dependence [e] carries the value [s] to [t] *)
Definition value_edge (h : Heap) (g : DG) (e s t : Ptr) : Prop :=
  e ∈ allEdges g ∧ ∃ y, hedges h !! e = Some y ∧ carriesNoValue y = false ∧ node_of g s (from y) ∧ node_of g t (to y).

Section construction.
Context {IO : IterOrder} (isInst : Ptr → bool) (int32Type : Ptr) (h : Heap) (g : DG) (W : wf h g) (excl : gset Ptr).
Local Abbreviation ve := (value_edge h g).
Context (Hnull : ∀ t, externalNodeMap g !! t ≠ Some None).
Context (Hsize : Z.of_nat (numNodes g) < 2 ^ 31).
Context (Hcross : ∀ e s t, ve e s t → external_value g s → ¬ external_value g t).
Context (Hinst : ∀ e s t, ve e s t → external_value g s → isInst t = true).

Lemma producers_bound env LI LO CO : describes env LI LO CO → (∀ v, LI v ∨ LO v → ∃ n, node_of g v n) →
  Z.of_nat (length (envProducers env)) < 2 ^ 31.
Proof.
  intros H Hv. eapply Z.le_lt_trans; [|exact Hsize]. apply inj_le. unfold numNodes. rewrite <- length_visit.
  set (f := λ n, theT <$> hnodes h !! n).
  transitivity (length (omap f (visit (allNodes g)))).
  - apply submseteq_length, NoDup_submseteq; [apply H|]. intros v [n Hn]%(ds_out _ _ _ _ H)%Hv.
    destruct (wf_map _ _ W v n Hn) as (Hin & x & Hx & <-). apply list_elem_of_omap. exists n.
    rewrite elem_of_visit. split; [done|]. unfold f. by rewrite Hx.
  - clearbody f. induction (visit (allNodes g)) as [|n l IH]; [done|]. cbn. destruct (f n); cbn in *; lia.
Qed.

(** the values [t] that a value dependence of [es] leads to from the node [k] of [x] *)
Lemma consumers_run x k n : node_of g x k → external_value g x → hnodes h !! k = Some n →
  ∃ st, foldM (consumerStep isInst) (false, ∅) (visit (outgoingEdges n)) h = Ok (h, st) ∧
    (st.1 = true ↔ ∃ e t, ve e x t) ∧ ∀ t, t ∈ st.2 ↔ ∃ e, ve e x t.
Proof.
  intros Hk Hext Hn. destruct (wf_map _ _ W x k Hk) as (Hkin & n' & Hn' & HT). assert (n' = n) as -> by congruence.
  assert (wp (foldM (consumerStep isInst) (false, ∅) (visit (outgoingEdges n))) (λ st h', h' = h ∧
    (st.1 = true ↔ ∃ e t, e ∈ visit (outgoingEdges n) ∧ ve e x t) ∧
    ∀ t, t ∈ st.2 ↔ ∃ e, e ∈ visit (outgoingEdges n) ∧ ve e x t) h) as Hrun.
  { apply (wp_foldM _ (λ pre _ st h', h' = h ∧ (st.1 = true ↔ ∃ e t, e ∈ pre ∧ ve e x t) ∧
      ∀ t, t ∈ st.2 ↔ ∃ e, e ∈ pre ∧ ve e x t)).
    - split; [done|]. split; [split; [done|]; by intros (? & ? & ?%not_elem_of_nil & _)|].
      intros t. split; [by intros ?%elem_of_empty|]. by intros (? & ?%not_elem_of_nil & _).
    - intros pre e post st h' Hl (-> & H1 & H2).
      assert (e ∈ outgoingEdges n) as He by (apply elem_of_visit; rewrite Hl; set_solver).
      apply (wf_out _ _ W k n) in He as (He & y & Hy & Hf); [|done..].
      destruct (edge_view_live _ _ _ _ W He Hy) as (a & b & Ha & Hb & Na & Nb & _).
      unfold consumerStep. apply wp_bind, wp_load_edge. exists y. split; [done|].
      assert (∀ t, ve e x t → carriesNoValue y = false ∧ t = theT b) as Hve.
      { intros t (_ & y' & Hy' & Hc & _ & Ht). simplify_eq. split; [done|]. symmetry. by eapply node_of_inv. }
      destruct (carriesNoValue y) eqn:Hc.
      + apply wp_ret. split; [done|]. setoid_rewrite elem_of_snoc. split.
        * rewrite H1. split; [intros (e' & t & ? & ?); eauto 6|]. intros (e' & t & [?| ->] & Hv); [eauto|by destruct (Hve t Hv)].
        * intros t. rewrite H2. split; [intros (e' & ? & ?); eauto 6|]. intros (e' & [?| ->] & Hv); [eauto|by destruct (Hve t Hv)].
      + assert (ve e x (theT b)) as Hvb by (split; [done|]; exists y; rewrite Hf; done).
        apply wp_bind, wp_getDst. exists b. split; [done|].
        apply wp_bind, wp_massert. split; [by eapply Hinst|]. apply wp_ret. split; [done|]. simpl. setoid_rewrite elem_of_snoc. split.
        * split; [intros _|done]. eauto 6.
        * intros t. rewrite elem_of_union, elem_of_singleton, H2. split.
          -- intros [->|(e' & ? & ?)]; eauto.
          -- intros (e' & [?| ->] & Hv); [right; eauto|]. left. by destruct (Hve t Hv). }
  apply wp_ok in Hrun as (h' & st & Hrun & -> & H1 & H2). exists st. split; [exact Hrun|].
  assert (∀ e t, ve e x t → e ∈ visit (outgoingEdges n)) as Hout.
  { intros e t (He & y & Hy & _ & Hx & _). apply elem_of_visit, (wf_out _ _ W k n); [done..|]. split; [done|].
    exists y. split; [done|]. by eapply wf_node_of_inj. }
  split; [rewrite H1; split; [intros (e & t & _ & ?)|intros (e & t & ?)]; eauto|].
  intros t. rewrite H2. split; [intros (e & _ & ?)|intros (e & ?)]; eauto.
Qed.

Lemma liveOuts_run x k n env LI LO CO : node_of g x k → external_value g x → hnodes h !! k = Some n →
  describes env LI LO CO → (∀ v, LI v → external_value g v) → (∀ v, LO v → ∃ m, node_of g v m) →
  wp (foldM (liveOutStep x) env (visit (incomingEdges n))) (λ env' h', h' = h ∧
    describes env' LI (λ v, LO v ∨ ∃ e, ve e v x) (λ v c, CO v c ∨ (c = x ∧ ∃ e, ve e v x))) h.
Proof.
  intros Hk Hext Hn Hd HLI HLO. destruct (wf_map _ _ W x k Hk) as (Hkin & n' & Hn' & HT). assert (n' = n) as -> by congruence.
  eapply wp_mono.
  { apply (wp_foldM _ (λ pre _ env' h', h' = h ∧
      describes env' LI (λ v, LO v ∨ ∃ e, e ∈ pre ∧ ve e v x) (λ v c, CO v c ∨ (c = x ∧ ∃ e, e ∈ pre ∧ ve e v x)))).
    - split; [done|]. eapply describes_iff; [done|done|..]; intros; setoid_rewrite elem_of_nil; naive_solver.
    - intros pre e post env' h' Hl (-> & Hd').
      assert (e ∈ incomingEdges n) as He by (apply elem_of_visit; rewrite Hl; set_solver).
      apply (wf_in _ _ W k n) in He as (He & y & Hy & Hf); [|done..].
      destruct (edge_view_live _ _ _ _ W He Hy) as (a & b & Ha & Hb & Na & Nb & _).
      unfold liveOutStep. apply wp_bind, wp_load_edge. exists y. split; [done|].
      assert (∀ v, ve e v x → carriesNoValue y = false ∧ v = theT a) as Hve.
      { intros t (_ & y' & Hy' & Hc & Ht & _). simplify_eq. split; [done|]. symmetry. by eapply node_of_inv. }
      destruct (carriesNoValue y) eqn:Hc.
      + apply wp_ret. split; [done|]. eapply describes_iff; [done|done|..]; intros; setoid_rewrite elem_of_snoc; naive_solver.
      + assert (ve e (theT a) x) as Hva by (split; [done|]; exists y; rewrite Hf; done).
        apply wp_bind, wp_getSrc. exists a. split; [done|]. apply wp_ret. split; [done|].
        assert (Z.of_nat (length (envProducers env')) < 2 ^ 31) as Hlen.
        { eapply producers_bound; [done|]. intros v [Hv%HLI|[Hv%HLO|(e' & _ & _ & y' & _ & _ & Hv & _)]]; [|done|eauto].
          destruct Hv as [m Hm]. exists m. by right. }
        eapply describes_iff; [by apply describes_consumer, describes_liveOut|done|..].
        * intros v. cbn. setoid_rewrite elem_of_snoc. split.
          -- intros [[?|(e' & ? & ?)]|[-> _]]; [auto|right; eauto|right; eauto].
          -- intros [?|(e' & [?| ->] & Hv)]; [auto|left; right; eauto|]. right. destruct (Hve v Hv) as [_ ->].
             split; [done|]. intros Hli%HLI. by apply (Hcross e (theT a) x).
        * intros v c. cbn. setoid_rewrite elem_of_snoc. split.
          -- intros [[?|(-> & e' & ? & ?)]|[-> ->]]; [auto|right; eauto|right; eauto].
          -- intros [?|(-> & e' & [?| ->] & Hv)]; [auto|left; right; eauto|]. right. by destruct (Hve v Hv) as [_ ->]. }
  intros env' h' (-> & Hd'). split; [done|].
  assert (∀ e v, ve e v x → e ∈ visit (incomingEdges n)) as Hin.
  { intros e v (He & y & Hy & _ & _ & Hx). apply elem_of_visit, (wf_in _ _ W k n); [done..|]. split; [done|].
    exists y. split; [done|]. by eapply wf_node_of_inj. }
  eapply describes_iff; [done|done|..]; intros; naive_solver.
Qed.

(** the values that enter and leave through the external values of [E] *)
Definition enters (E : Ptr → Prop) (v : Ptr) : Prop := E v ∧ v ∉ excl ∧ ∃ e t, ve e v t.
Definition leaves (E : Ptr → Prop) (v : Ptr) : Prop := ∃ e x, ve e v x ∧ E x ∧ x ∉ excl.
Definition consumed (E : Ptr → Prop) (v c : Ptr) : Prop := ∃ e, ve e v c ∧ ((E v ∧ v ∉ excl) ∨ (E c ∧ c ∉ excl)).
Definition env_of (E : Ptr → Prop) (env : LoopEnvironment) : Prop := describes env (enters E) (leaves E) (consumed E).

Lemma addExternalNode_spec E env x p : (∀ v, E v → external_value g v) → externalNodeMap g !! x = Some p → env_of E env →
  wp (addExternalNode isInst excl env (x, p)) (λ env' h', h' = h ∧ env_of (λ v, E v ∨ v = x) env') h.
Proof.
  intros HE Hx Henv. destruct p as [k|]; [|by destruct (Hnull x)].
  assert (node_of g x k) as Hk by (by right). assert (external_value g x) as Hext by (by exists k).
  destruct (wf_map _ _ W x k Hk) as (_ & n & Hn & HT).
  unfold addExternalNode. simpl. apply wp_bind, wp_ret, wp_bind, wp_load_node. exists n. split; [done|]. unfold getT. rewrite HT.
  case_decide as Hex.
  { apply wp_ret. split; [done|]. eapply describes_iff; [exact Henv|..]; unfold enters, leaves, consumed; intros; naive_solver. }
  destruct (consumers_run x k n Hk Hext Hn) as (st & Hrun & H1 & H2). apply (wp_bind_run _ _ _ _ _ _ Hrun).
  assert (describes (if st.1 : bool then (addLiveInValue x st.2 env).1 else env)
    (λ v, enters E v ∨ (v = x ∧ ∃ e t, ve e x t)) (leaves E) (λ v c, consumed E v c ∨ (v = x ∧ ∃ e, ve e x c))) as Hin.
  { destruct (st.1) eqn:Hst.
    - eapply describes_iff; [apply (describes_liveIn _ _ _ _ x st.2 Henv)|..].
      + eapply producers_bound; [exact Henv|]. intros v [([k' Hv]%HE & _)|(e & y & (_ & ? & _ & _ & Hv & _) & _)]; [|eauto].
        exists k'. by right.
      + intros (e & y & Hv & Hy%HE & _). by apply (Hcross e x y).
      + intros v. cbn. assert (∃ e t, ve e x t) by (by apply H1). tauto.
      + done.
      + intros v c. cbn. rewrite H2. tauto.
    - assert (¬ ∃ e t, ve e x t) as Hno by (by intros ?%H1). eapply describes_iff; [exact Henv|..].
      + intros v. cbn. tauto.
      + done.
      + intros v c. cbn. naive_solver. }
  eapply wp_mono; [apply (liveOuts_run x k n _ _ _ _ Hk Hext Hn Hin)|].
  - intros v [[Hv _]|[-> _]]; [by apply HE|done].
  - intros v (e & y & (_ & ? & _ & _ & Hv & _) & _). eauto.
  - intros env' h' (-> & Hd). split; [done|]. eapply describes_iff; [exact Hd|..]; unfold enters, leaves, consumed; intros; cbn.
    + naive_solver.
    + naive_solver.
    + naive_solver.
Qed.
End construction.

(** (C33) The environment of a loop: identifiers are the positions 0, 1, ... of its values, each
    either live-in or live-out; the live-in values are the external values that are not excluded
    with a value dependence into the loop, the others are the values with a value dependence on
    such an external value, and the consumers of a value are the ends of these dependences. There
    is one more location for the exit that was taken when the loop has several. *)
Theorem LoopEnvironment_new_spec {IO : IterOrder} isInst int32Type h g exits excl :
  wf h g → (∀ t, externalNodeMap g !! t ≠ Some None) → Z.of_nat (numNodes g) < 2 ^ 31 →
  (∀ e s t, value_edge h g e s t → external_value g s → ¬ external_value g t ∧ isInst t = true) →
  wp (LoopEnvironment_new isInst int32Type g exits excl) (λ env h', h' = h ∧ env_wf env ∧
    (∀ v, isLiveIn v env = true ↔ external_value g v ∧ v ∉ excl ∧ ∃ e t, value_edge h g e v t) ∧
    (∀ v, isProducer v env = true ↔ isLiveIn v env = true ∨
       ∃ e x, value_edge h g e v x ∧ external_value g x ∧ x ∉ excl) ∧
    (∀ v c, c ∈ consumersOf env v ↔ ∃ e, value_edge h g e v c ∧
       ((external_value g v ∧ v ∉ excl) ∨ (external_value g c ∧ c ∉ excl))) ∧
    getExitBlockID env = (if decide (1 < length exits)%nat then Z.of_nat (length (envProducers env)) else -1)) h.
Proof.
  intros W Hnull Hsize Hedges.
  assert (∀ e s t, value_edge h g e s t → external_value g s → ¬ external_value g t) as Hc by (intros; by eapply Hedges).
  assert (∀ e s t, value_edge h g e s t → external_value g s → isInst t = true) as Hi by (intros; by eapply Hedges).
  unfold LoopEnvironment_new. apply wp_bind. eapply wp_mono.
  { apply (wp_foldM _ (λ pre _ env h', h' = h ∧ env_of h g excl (λ v, v ∈ pre.*1) env)).
    - split; [done|]. split; [apply env_empty_wf|..]; unfold enters, leaves, consumed; intros; simpl;
        setoid_rewrite elem_of_nil; (split; [|naive_solver]); done.
    - intros pre [x p] post env h' Hl (-> & Henv).
      assert ((x, p) ∈ externalNodePairs g) as Hx%elem_of_nodePairs by (rewrite Hl; set_solver).
      eapply wp_mono; [apply (addExternalNode_spec isInst h g W excl Hnull Hsize Hc Hi (λ v, v ∈ pre.*1)); [|done..]|].
      + intros v ([v' p'] & -> & Hv)%list_elem_of_fmap. simpl.
        assert ((v', p') ∈ externalNodePairs g) as Hp%elem_of_nodePairs by (rewrite Hl; set_solver).
        destruct p' as [k|]; [by exists k|by destruct (Hnull v')].
      + intros env' h' (-> & Hd). split; [done|]. eapply describes_iff; [exact Hd|..]; unfold enters, leaves, consumed;
          intros; rewrite ?fmap_app; setoid_rewrite elem_of_snoc; done. }
  intros env h' (-> & Hd). apply wp_ret. split; [done|].
  assert (∀ v, v ∈ (externalNodePairs g).*1 ↔ external_value g v) as Hext.
  { intros v. unfold external_value. rewrite list_elem_of_fmap. split.
    - intros ([v' p] & -> & Hv%elem_of_nodePairs). simpl. destruct p as [k|]; [by exists k|by destruct (Hnull v')].
    - intros [k Hk]. exists (v, Some k). split; [done|]. by apply elem_of_nodePairs. }
  assert (env_of h g excl (external_value g) env) as [We H1 H2 H3].
  { eapply describes_iff; [exact Hd|..]; unfold enters, leaves, consumed; intros; by setoid_rewrite Hext. }
  set (b := bool_decide (1 < length exits)%nat).
  assert (env_wf (set_exit int32Type b env)) as W' by (destruct We; by split).
  split; [done|]. split; [exact H1|]. split.
  { intros v. rewrite isProducer_spec by done. change (v ∈ envProducers env ↔ isLiveIn v env = true ∨
      ∃ e x, value_edge h g e v x ∧ external_value g x ∧ x ∉ excl). rewrite H2, H1. done. }
  split; [exact H3|]. unfold getExitBlockID, b. simpl. by rewrite decide_bool_decide.
Qed.
