(* ===== verification/LoopEnvBuilder.v ===== *)
(** * Environment builders and users (src/core/loop_environment: LoopEnvironmentBuilder.cpp,
      LoopEnvironmentUser.cpp)

    The class [LoopEnvironmentBuilder] lays the values of a loop environment out in an array,
    one cache line each, and emits the code that allocates and reads it; the class
    [LoopEnvironmentUser] emits the accesses of one task. *)
From S2P Require Import Prelude LoopEnvironment.

(** ** The code that is emitted

    [IRBuilder] is code of llvm: the requests made to it, in the order of the source. *)
Inductive IRType := I8 | I32 | I64 | ValueType (t : Ptr) | ArrayOf64 (n : Z) | PointerTo (t : IRType).
Inductive Operand := Const (t : IRType) (c : Z) | Val (v : Ptr).
Inductive IROp :=
  | CreateAlloca (t : IRType)
  | CreateBitCast (v : Ptr) (t : IRType)
  | CreateGEP (base : Ptr) (indices : list Operand)
  | CreateStore (v pointer : Ptr)
  | CreateLoad (pointer : Ptr)
  | CreateMul (a b : Operand)
  | CreateAdd (a b : Operand)
  | CreateBinOp (op : Z) (a b : Ptr)
  | CreateICmpSLT (a b : Ptr)
  | CreatePHI (block : Ptr) (t : IRType)
  | AddIncoming (phi : Ptr) (v : Operand) (block : Ptr)
  | CreateBlock (function : Ptr)
  | EraseTerminator (block : Ptr)
  | CreateBr (block target : Ptr)
  | CreateCondBr (block condition ifTrue ifFalse : Ptr).

(** [Architecture::getCacheLineBytes() / sizeof(int64_t)] *)
Definition getCacheLineBytes : Z := 64.
Definition valuesInCacheLine : Z := getCacheLineBytes / 8.

(** ** State *)

(** [envArray] is [None] while the code has not initialised it; null is [Some None]. The member
    [envIDToIndex] is a reference to the map of the builder, which the operations take. *)
Record EnvUser := mkEnvUser {
  eu_envArray : option (option Ptr);
  eu_envIndexToPtr : gmap Z Ptr;
  eu_liveInIDs : gset Z;
  eu_liveOutIDs : gset Z
}.

Record EnvBuilder := mkEnvBuilder {
  eb_envArray : option Ptr;
  eb_envArrayInt8Ptr : option Ptr;
  envIDToIndex : gmap Z Z;
  indexToEnvID : gmap Z Z;
  envSize : Z;
  envArrayType : Z;
  envTypes : list Ptr;
  envIndexToVar : gmap Z (option Ptr);
  envIndexToAccumulatedReducableVar : gmap Z Ptr;
  envIndexToReducableVar : gmap Z (list Ptr);
  envIndexToVectorOfReducableVar : gmap Z Ptr;
  numReducers : Z;
  envUsers : list EnvUser
}.

(** ** LoopEnvironmentUser *)

Section user.
Context {IRS : Type} (emit : IROp → M IRS Ptr) (isInst : Ptr → bool).

Definition LoopEnvironmentUser_new : EnvUser := mkEnvUser None ∅ ∅ ∅.
Definition setEnvironmentArray (envArr : option Ptr) (u : EnvUser) : EnvUser :=
  mkEnvUser (Some envArr) (eu_envIndexToPtr u) (eu_liveInIDs u) (eu_liveOutIDs u).

(** [if (!this->envArray) abort();] *)
Definition checkArray (u : EnvUser) : M IRS Ptr :=
  match eu_envArray u with
  | None => fail UndefinedBehaviour
  | Some None => fail Aborted
  | Some (Some a) => ret a
  end.
(** the index of a variable, which must be included *)
Definition indexOf {S} (envIDToIndex : gmap Z Z) (envID : Z) : M S Z :=
  match envIDToIndex !! envID with Some ix => ret ix | None => fail AssertionFailure end.
Definition cache_ptr (envIndex : Z) (ptr : Ptr) (u : EnvUser) : EnvUser :=
  mkEnvUser (eu_envArray u) (<[envIndex := ptr]> (eu_envIndexToPtr u)) (eu_liveInIDs u) (eu_liveOutIDs u).
Definition castInst (v : Ptr) : M IRS Ptr := if isInst v then ret v else fail AssertionFailure.

Definition createEnvironmentVariablePointer (envIDToIndex : gmap Z Z) (envID : Z) (type : Ptr) (u : EnvUser)
    : M IRS (EnvUser * Ptr) :=
  let* envArray := checkArray u in
  let* envIndex := indexOf envIDToIndex envID in
  let* envGEP := emit (CreateGEP envArray [Const I64 0; Const I64 (envIndex * valuesInCacheLine)]) in
  let* envPtr := emit (CreateBitCast envGEP (PointerTo (ValueType type))) in
  let* ptrInst := castInst envPtr in
  ret (cache_ptr envIndex ptrInst u, ptrInst).

Definition createReducableEnvPtr (envIDToIndex : gmap Z Z) (envID : Z) (type : Ptr) (reducerCount : Z)
    (reducerIndV : Ptr) (u : EnvUser) : M IRS EnvUser :=
  let* envArray := checkArray u in
  let* envIndex := indexOf envIDToIndex envID in
  let* envReduceGEP := emit (CreateGEP envArray [Const I64 0; Const I64 (envIndex * valuesInCacheLine)]) in
  let arrPtr := PointerTo (ArrayOf64 (u64 (u32 reducerCount * valuesInCacheLine))) in
  let* envReducePtr := emit (CreateBitCast envReduceGEP (PointerTo arrPtr)) in
  let* reduceIndAlignedV := emit (CreateMul (Val reducerIndV) (Const I64 valuesInCacheLine)) in
  let* newLoad := emit (CreateLoad envReducePtr) in
  let* envGEP := emit (CreateGEP newLoad [Const I64 0; Val reduceIndAlignedV]) in
  let* envPtr := emit (CreateBitCast envGEP (PointerTo (ValueType type))) in
  let* ptrInst := castInst envPtr in
  ret (cache_ptr envIndex ptrInst u).

Definition user_addLiveIn (envIDToIndex : gmap Z Z) (id : Z) (u : EnvUser) : EnvUser :=
  if decide (is_Some (envIDToIndex !! id))
  then mkEnvUser (eu_envArray u) (eu_envIndexToPtr u) ({[id]} ∪ eu_liveInIDs u) (eu_liveOutIDs u) else u.
Definition user_addLiveOut (envIDToIndex : gmap Z Z) (id : Z) (u : EnvUser) : EnvUser :=
  if decide (is_Some (envIDToIndex !! id))
  then mkEnvUser (eu_envArray u) (eu_envIndexToPtr u) (eu_liveInIDs u) ({[id]} ∪ eu_liveOutIDs u) else u.

(** [at] throws when the pointer was not created *)
Definition getEnvPtr (envIDToIndex : gmap Z Z) (id : Z) (u : EnvUser) : Res Ptr :=
  match envIDToIndex !! id with
  | None => Fail AssertionFailure
  | Some ind => match eu_envIndexToPtr u !! ind with Some p => Ok p | None => Fail Aborted end
  end.
Definition user_getEnvIDsOfLiveInVars (u : EnvUser) : list Z := sorted (eu_liveInIDs u).
Definition user_getEnvIDsOfLiveOutVars (u : EnvUser) : list Z := sorted (eu_liveOutIDs u).
End user.

(** ** LoopEnvironmentBuilder: construction *)

Section builder.
(** the type of a value of llvm, and the type [i32] *)
Context (getType : Ptr → Ptr).

(** the subscript of a map of integers creates a zero entry *)
Definition subscript (m : gmap Z Z) (i : Z) : gmap Z Z * Z :=
  match m !! i with Some v => (m, v) | None => (<[i := 0%Z]> m, 0%Z) end.

Definition assignIndex (st : gmap Z Z * gmap Z Z * Z) (varID : Z) : gmap Z Z * gmap Z Z * Z :=
  let '(idToIndex, indexToID, index) := st in
  (<[varID := index]> idToIndex, <[index := varID]> indexToID, u32 (index + 1)).

Definition typeStep (varTypes : list Ptr) (st : gmap Z Z * list Ptr) (i : Z) : Res (gmap Z Z * list Ptr) :=
  let '(indexToID, varID) := subscript st.1 i in
  match varTypes !! Z.to_nat varID with
  | Some t => Ok (indexToID, st.2 ++ [t])
  | None => Fail Aborted
  end.

Definition createUsers (numUsers : Z) : list EnvUser := replicate (Z.to_nat (u32 numUsers)) LoopEnvironmentUser_new.

Definition initializeBuilder (varTypes : list Ptr) (singleVarIDs reducableVarIDs : gset Z)
    (reducerCount numberOfUsers : Z) : Res EnvBuilder :=
  let '(idToIndex, indexToID, _) :=
    foldl assignIndex (foldl assignIndex (∅, ∅, 0%Z) (sorted singleVarIDs)) (sorted reducableVarIDs) in
  let envSize := u64 (Z.of_nat (size singleVarIDs) + Z.of_nat (size reducableVarIDs)) in
  rbind (foldR (typeStep varTypes) (indexToID, []) (seqZ 0 envSize)) (λ st,
    if decide (envSize ≠ Z.of_nat (length st.2)) then Fail AssertionFailure
    else
      let single := foldl (λ (m : gmap Z Z * gmap Z (option Ptr)) envID,
        let '(ids, envIndex) := subscript m.1 envID in (ids, <[envIndex := None]> m.2))
        (idToIndex, ∅) (sorted singleVarIDs) in
      let reducable := foldl (λ (m : gmap Z Z * gmap Z (list Ptr)) envID,
        let '(ids, envIndex) := subscript m.1 envID in (ids, <[envIndex := []]> m.2))
        (single.1, ∅) (sorted reducableVarIDs) in
      Ok (mkEnvBuilder None None reducable.1 st.1 envSize (u64 (envSize * valuesInCacheLine)) st.2
            single.2 ∅ reducable.2 ∅ reducerCount (createUsers numberOfUsers))).

(** the variables of one direction, grouped *)
Definition groupVariables (skipped reduced : Z → bool → bool) (isLiveOut : bool) (groups : gset Z * gset Z)
    (ids : list Z) : gset Z * gset Z :=
  foldl (λ (g : gset Z * gset Z) id,
    let id := u32 id in
    if skipped id isLiveOut then g
    else if reduced id isLiveOut then (g.1, {[id]} ∪ g.2) else ({[id]} ∪ g.1, g.2)) groups ids.

Definition LoopEnvironmentBuilder_ofEnvironment (environment : LoopEnvironment)
    (shouldThisVariableBeReduced shouldThisVariableBeSkipped : Z → bool → bool)
    (reducerCount numberOfUsers : Z) : Res EnvBuilder :=
  let g := groupVariables shouldThisVariableBeSkipped shouldThisVariableBeReduced false (∅, ∅)
             (getEnvIDsOfLiveInVars environment) in
  let g := groupVariables shouldThisVariableBeSkipped shouldThisVariableBeReduced true g
             (getEnvIDsOfLiveOutVars environment) in
  let nonReducableVars :=
    if decide (0 ≤ getExitBlockID environment)%Z then {[u32 (getExitBlockID environment)]} ∪ g.1 else g.1 in
  rbind (getTypesOfEnvironmentLocations getType environment) (λ types,
    initializeBuilder types nonReducableVars g.2 reducerCount numberOfUsers).

(** the two shorter constructors *)
Definition LoopEnvironmentBuilder_reducing (environment : LoopEnvironment)
    (shouldThisVariableBeReduced : Z → bool → bool) (reducerCount numberOfUsers : Z) : Res EnvBuilder :=
  LoopEnvironmentBuilder_ofEnvironment environment shouldThisVariableBeReduced (λ _ _, false) reducerCount numberOfUsers.
Definition LoopEnvironmentBuilder_simple (environment : LoopEnvironment) (numberOfUsers : Z) : Res EnvBuilder :=
  LoopEnvironmentBuilder_reducing environment (λ _ _, false) 1 numberOfUsers.

Definition addVariableToEnvironment (varID : Z) (varType : Ptr) (b : EnvBuilder) : EnvBuilder :=
  let varID := u32 varID in
  if decide (is_Some (envIDToIndex b !! varID)) then b
  else
    let envSize' := u64 (envSize b + 1) in
    let varIndex := u32 (envSize b) in
    mkEnvBuilder (eb_envArray b) (eb_envArrayInt8Ptr b) (<[varID := varIndex]> (envIDToIndex b))
      (<[varIndex := varID]> (indexToEnvID b)) envSize' (u64 (envSize' * valuesInCacheLine))
      (envTypes b ++ [varType]) (<[varIndex := None]> (envIndexToVar b)) (envIndexToAccumulatedReducableVar b)
      (envIndexToReducableVar b) (envIndexToVectorOfReducableVar b) (numReducers b) (envUsers b).
End builder.

(** ** LoopEnvironmentBuilder: queries *)

Definition withIndex {A} (b : EnvBuilder) (id : Z) (k : Z → Res A) : Res A :=
  match envIDToIndex b !! id with Some ind => k ind | None => Fail AssertionFailure end.

Definition getEnvironmentArrayVoidPtr (b : EnvBuilder) : Res Ptr :=
  match eb_envArrayInt8Ptr b with Some p => Ok p | None => Fail AssertionFailure end.
Definition getEnvironmentArray (b : EnvBuilder) : Res Ptr :=
  match eb_envArray b with Some p => Ok p | None => Fail AssertionFailure end.
Definition getEnvironmentVariable (b : EnvBuilder) (id : Z) : Res (option Ptr) :=
  withIndex b id (λ ind, match envIndexToVar b !! ind with Some v => Ok v | None => Fail AssertionFailure end).
Definition getIndexOfEnvironmentVariable (b : EnvBuilder) (id : Z) : Res Z := withIndex b id Ok.
Definition isIncludedEnvironmentVariable (b : EnvBuilder) (id : Z) : bool :=
  bool_decide (is_Some (envIDToIndex b !! id)).
Definition getAccumulatedReducedEnvironmentVariable (b : EnvBuilder) (id : Z) : Res Ptr :=
  withIndex b id (λ ind, match envIndexToAccumulatedReducableVar b !! ind with
                         | Some v => Ok v | None => Fail AssertionFailure end).
Definition getReducedEnvironmentVariable (b : EnvBuilder) (id reducerInd : Z) : Res Ptr :=
  withIndex b id (λ ind, match envIndexToReducableVar b !! ind with
    | Some l => match l !! Z.to_nat reducerInd with Some v => Ok v | None => Fail UndefinedBehaviour end
    | None => Fail AssertionFailure end).
Definition hasVariableBeenReduced (b : EnvBuilder) (id : Z) : Res bool :=
  withIndex b id (λ ind,
    let isSingle := bool_decide (is_Some (envIndexToVar b !! ind)) in
    let isReduce := bool_decide (is_Some (envIndexToReducableVar b !! ind)) in
    if isSingle || isReduce then Ok isReduce else Fail AssertionFailure).
Definition getNumberOfUsers (b : EnvBuilder) : Z := u32 (Z.of_nat (length (envUsers b))).
Definition getUser (b : EnvBuilder) (user : Z) : Res EnvUser :=
  if decide (getNumberOfUsers b ≤ user)%Z then Fail Aborted
  else match envUsers b !! Z.to_nat user with Some u => Ok u | None => Fail Aborted end.
Definition getEnvironmentArrayType (b : EnvBuilder) : Z := envArrayType b.

(** ** LoopEnvironmentBuilder: the code that is emitted *)

Section emission.
Context {IRS : Type} (emit : IROp → M IRS Ptr).

Definition set_array (arr int8Ptr : option Ptr) (b : EnvBuilder) : EnvBuilder :=
  mkEnvBuilder arr int8Ptr (envIDToIndex b) (indexToEnvID b) (envSize b) (envArrayType b) (envTypes b)
    (envIndexToVar b) (envIndexToAccumulatedReducableVar b) (envIndexToReducableVar b)
    (envIndexToVectorOfReducableVar b) (numReducers b) (envUsers b).
Definition set_maps (var : gmap Z (option Ptr)) (reducable : gmap Z (list Ptr)) (vector : gmap Z Ptr) (b : EnvBuilder)
    : EnvBuilder :=
  mkEnvBuilder (eb_envArray b) (eb_envArrayInt8Ptr b) (envIDToIndex b) (indexToEnvID b) (envSize b) (envArrayType b)
    (envTypes b) var (envIndexToAccumulatedReducableVar b) reducable vector (numReducers b) (envUsers b).
Definition set_accumulated (ids : gmap Z Z) (acc : gmap Z Ptr) (b : EnvBuilder) : EnvBuilder :=
  mkEnvBuilder (eb_envArray b) (eb_envArrayInt8Ptr b) ids (indexToEnvID b) (envSize b) (envArrayType b)
    (envTypes b) (envIndexToVar b) acc (envIndexToReducableVar b) (envIndexToVectorOfReducableVar b)
    (numReducers b) (envUsers b).

Definition allocateEnvironmentArray (b : EnvBuilder) : M IRS EnvBuilder :=
  let* envArray := emit (CreateAlloca (ArrayOf64 (envArrayType b))) in
  let* int8Ptr := emit (CreateBitCast envArray (PointerTo I8)) in
  ret (set_array (Some envArray) (Some int8Ptr) b).

Definition fetchCastedEnvPtr (arr : Ptr) (envIndex : Z) (ptrType : IRType) : M IRS Ptr :=
  let* envPtr := emit (CreateGEP arr [Const I64 0; Const I64 (envIndex * valuesInCacheLine)]) in
  emit (CreateBitCast envPtr ptrType).

(** the type at an index of the vector [envTypes] *)
Definition typeAt (b : EnvBuilder) (envIndex : Z) : M IRS Ptr :=
  match envTypes b !! Z.to_nat envIndex with Some t => ret t | None => fail UndefinedBehaviour end.

Definition generateSingle (envArray : Ptr) (b : EnvBuilder) (envIndex : Z) : M IRS EnvBuilder :=
  let* t := typeAt b envIndex in
  let* p := fetchCastedEnvPtr envArray envIndex (PointerTo (ValueType t)) in
  ret (set_maps (<[envIndex := Some p]> (envIndexToVar b)) (envIndexToReducableVar b)
         (envIndexToVectorOfReducableVar b) b).
(** the pointer of the element [i] of the vector of a reducable variable *)
Definition generateElement (reduceArrAlloca : Ptr) (envIndex : Z) (varType : Ptr) (b : EnvBuilder) (i : Z) : M IRS EnvBuilder :=
  let* reducePtr := fetchCastedEnvPtr reduceArrAlloca i (PointerTo (ValueType varType)) in
  ret (set_maps (envIndexToVar b)
         (<[envIndex := default [] (envIndexToReducableVar b !! envIndex) ++ [reducePtr]]> (envIndexToReducableVar b))
         (envIndexToVectorOfReducableVar b) b).
Definition generateReducable (envArray : Ptr) (b : EnvBuilder) (envIndex : Z) : M IRS EnvBuilder :=
  let* varType := typeAt b envIndex in
  let reduceArrType := ArrayOf64 (u64 (numReducers b * valuesInCacheLine)) in
  let* reduceArrAlloca := emit (CreateAlloca reduceArrType) in
  let b := set_maps (envIndexToVar b) (envIndexToReducableVar b)
             (<[envIndex := reduceArrAlloca]> (envIndexToVectorOfReducableVar b)) b in
  let* envPtr := fetchCastedEnvPtr envArray envIndex (PointerTo (PointerTo reduceArrType)) in
  let* _ := emit (CreateStore reduceArrAlloca envPtr) in
  (* the counter has 32 bits, the bound has 64 *)
  if decide (2 ^ 32 ≤ numReducers b)%Z then fail OutOfFuel
  else foldM (generateElement reduceArrAlloca envIndex varType) b (seqZ 0 (numReducers b)).
Definition generateEnvVariables (b : EnvBuilder) : M IRS EnvBuilder :=
  match eb_envArray b with
  | None => fail Aborted
  | Some envArray =>
      let* b := foldM (generateSingle envArray) b (sorted (dom (envIndexToVar b))) in
      foldM (generateReducable envArray) b (sorted (dom (envIndexToReducableVar b)))
  end.

(** *** The reduction of live-out variables *)

(** a [BinaryReductionSCC]: its operation; the cast of its initial value is an argument *)
Context (getReductionOperation : Ptr → Z) (castingInitialValue : Ptr → M IRS Ptr).

Definition accumulatorPHI (bb loopBodyBB : Ptr) (st : EnvBuilder * list Ptr) (r : Z * Ptr) : M IRS (EnvBuilder * list Ptr) :=
  let '(ids, envIndex) := subscript (envIDToIndex st.1) r.1 in
  let b := set_accumulated ids (envIndexToAccumulatedReducableVar st.1) st.1 in
  let* initialValue := castingInitialValue r.2 in
  let* variableType := typeAt b envIndex in
  let* phiNode := emit (CreatePHI loopBodyBB (ValueType variableType)) in
  let* _ := emit (AddIncoming phiNode (Val initialValue) bb) in
  ret (b, st.2 ++ [phiNode]).
Definition loadPrivateCopy (IVReductionLoop : Ptr) (st : EnvBuilder * list Ptr) (r : Z * Ptr) : M IRS (EnvBuilder * list Ptr) :=
  let '(ids, envIndex) := subscript (envIDToIndex st.1) r.1 in
  let b := set_accumulated ids (envIndexToAccumulatedReducableVar st.1) st.1 in
  let* offsetValue := emit (CreateMul (Val IVReductionLoop) (Const I32 valuesInCacheLine)) in
  let* baseAddress := (match envIndexToVectorOfReducableVar b !! envIndex with
                       | Some a => ret a | None => fail Aborted end) in
  let* varType := typeAt b envIndex in
  let* effectiveAddress := emit (CreateGEP baseAddress [Const I32 0; Val offsetValue]) in
  let* casted := emit (CreateBitCast effectiveAddress (PointerTo (ValueType varType))) in
  let* envVar := emit (CreateLoad casted) in
  ret (b, st.2 ++ [envVar]).
(** the accumulators: the reductions with their PHIs and private copies *)
Definition accumulate (b : EnvBuilder) (x : (Z * Ptr) * (Ptr * Ptr)) : M IRS EnvBuilder :=
  let '(ids, envIndex) := subscript (envIDToIndex b) x.1.1 in
  let* newAccumulatorValue := emit (CreateBinOp (getReductionOperation x.1.2) x.2.1 x.2.2) in
  ret (set_accumulated ids (<[envIndex := newAccumulatorValue]> (envIndexToAccumulatedReducableVar b)) b).
Definition closePHI (loopBodyBB : Ptr) (b : EnvBuilder) (x : (Z * Ptr) * Ptr) : M IRS EnvBuilder :=
  let '(ids, envIndex) := subscript (envIDToIndex b) x.1.1 in
  match envIndexToAccumulatedReducableVar b !! envIndex with
  | None => fail Aborted
  | Some previous =>
      let* _ := emit (AddIncoming x.2 (Val previous) loopBodyBB) in
      ret (set_accumulated ids (envIndexToAccumulatedReducableVar b) b)
  end.

(** [reductions] in the order in which the map lists them *)
Definition reduceLiveOutVariables (f bb : Ptr) (hasTerminator : bool) (reductions : list (Z * Ptr))
    (numberOfThreadsExecuted : Ptr) (b : EnvBuilder) : M IRS (EnvBuilder * Ptr) :=
  if decide (length reductions = 0) then ret (b, bb)
  else
    let* loopBodyBB := emit (CreateBlock f) in
    let* afterReductionBB := emit (CreateBlock f) in
    let* _ := (if hasTerminator : bool then emit (EraseTerminator bb) else ret bb) in
    let* _ := emit (CreateBr bb loopBodyBB) in
    let* IVReductionLoop := emit (CreatePHI loopBodyBB I32) in
    let* _ := emit (AddIncoming IVReductionLoop (Const I32 0) bb) in
    let* st := foldM (accumulatorPHI bb loopBodyBB) (b, []) reductions in
    let phiNodes := st.2 in
    let* st := foldM (loadPrivateCopy IVReductionLoop) (st.1, []) reductions in
    let* b := foldM accumulate st.1 (zip reductions (zip phiNodes st.2)) in
    let* b := foldM (closePHI loopBodyBB) b (zip reductions phiNodes) in
    let* updatedIV := emit (CreateAdd (Val IVReductionLoop) (Const I32 1)) in
    let* _ := emit (AddIncoming IVReductionLoop (Val updatedIV) loopBodyBB) in
    let* continue := emit (CreateICmpSLT updatedIV numberOfThreadsExecuted) in
    let* _ := emit (CreateCondBr loopBodyBB continue loopBodyBB afterReductionBB) in
    ret (b, afterReductionBB).
End emission.
