(* ===== verification/LoopEnvBuilderSpec.v ===== *)
(** * The layout of an environment array

    The builder numbers the variables it includes, gives each the slot of its number and
    remembers its type; adding a variable keeps the layout; the accesses it emits stay inside
    the slot of their variable. *)
From S2P Require Import Prelude LoopEnvironment LoopEnvironmentSpec LoopEnvBuilder.

Open Scope Z_scope.

Lemma elem_of_sorted s i : i ∈ sorted s ↔ i ∈ s.
Proof. unfold sorted. by rewrite merge_sort_Permutation, elem_of_elements. Qed.
Lemma NoDup_sorted s : NoDup (sorted s).
Proof. unfold sorted. rewrite merge_sort_Permutation. apply NoDup_elements. Qed.
Lemma length_sorted s : length (sorted s) = size s.
Proof. unfold sorted. by rewrite merge_sort_Permutation. Qed.

(** a list read with an integer index *)
Lemma lookup_Z {A} (l : list A) i x : 0 ≤ i → l !! Z.to_nat i = Some x → i < Z.of_nat (length l).
Proof. intros ? ?%lookup_lt_Some. lia. Qed.
Lemma lookup_Z_is_Some {A} (l : list A) i : 0 ≤ i < Z.of_nat (length l) → ∃ x, l !! Z.to_nat i = Some x.
Proof. intros ?. apply lookup_lt_is_Some. lia. Qed.

(** ** Well-formed builders *)

(** the two maps are inverse to each other, the indices are [0, ..., envSize - 1], each has a
    type and is either that of a single variable or that of a reducible one *)
Record builder_wf (b : EnvBuilder) : Prop := {
  bw_size : 0 ≤ envSize b ≤ 2 ^ 32;
  bw_inverse id ix : envIDToIndex b !! id = Some ix ↔ indexToEnvID b !! ix = Some id;
  bw_range ix : is_Some (indexToEnvID b !! ix) ↔ 0 ≤ ix < envSize b;
  bw_types : Z.of_nat (length (envTypes b)) = envSize b;
  bw_indices ix : is_Some (envIndexToVar b !! ix) ∨ is_Some (envIndexToReducableVar b !! ix) ↔ 0 ≤ ix < envSize b;
  bw_disjoint ix : is_Some (envIndexToVar b !! ix) → envIndexToReducableVar b !! ix = None;
  bw_array : envArrayType b = envSize b * valuesInCacheLine
}.

Lemma builder_index b id ix : builder_wf b → envIDToIndex b !! id = Some ix → 0 ≤ ix < envSize b.
Proof. intros W H%(bw_inverse _ W). apply (bw_range _ W). by eexists. Qed.

Lemma builder_inj b id id' ix : builder_wf b → envIDToIndex b !! id = Some ix → envIDToIndex b !! id' = Some ix → id = id'.
Proof. intros W H%(bw_inverse _ W) H'%(bw_inverse _ W). congruence. Qed.

Lemma builder_reduced b id ix : builder_wf b → envIDToIndex b !! id = Some ix →
  hasVariableBeenReduced b id = Ok (bool_decide (is_Some (envIndexToReducableVar b !! ix))).
Proof.
  intros W H. unfold hasVariableBeenReduced, withIndex. rewrite H.
  pose proof (builder_index _ _ _ W H) as Hix%(bw_indices _ W).
  destruct Hix as [Hix|Hix]; rewrite (bool_decide_true _ Hix); [done|]. by rewrite orb_true_r.
Qed.

(** ** Numbering *)

(** the variables [ids] have the numbers 0, 1, ... *)
Definition numbered (ids : list Z) (st : gmap Z Z * gmap Z Z * Z) : Prop :=
  (∀ id ix, st.1.1 !! id = Some ix ↔ 0 ≤ ix ∧ ids !! Z.to_nat ix = Some id) ∧
  (∀ id ix, st.1.2 !! ix = Some id ↔ 0 ≤ ix ∧ ids !! Z.to_nat ix = Some id) ∧
  st.2 = Z.of_nat (length ids).

Lemma lookup_snoc_Z {A} (l : list A) x y ix : 0 ≤ ix →
  (l ++ [x]) !! Z.to_nat ix = Some y ↔ l !! Z.to_nat ix = Some y ∨ (ix = Z.of_nat (length l) ∧ y = x).
Proof.
  intros Hix. rewrite lookup_app_Some, list_lookup_singleton_Some. split.
  - intros [?|(? & ? & ->)]; [by left|]. right. split; [lia|done].
  - intros [?|[-> ->]]; [by left|]. right. rewrite Nat2Z.id. split_and!; [lia|lia|done].
Qed.

Lemma assignIndex_spec ids st id : numbered ids st → id ∉ ids → Z.of_nat (length ids) + 1 < 2 ^ 32 →
  numbered (ids ++ [id]) (assignIndex st id).
Proof.
  destruct st as [[m1 m2] n]. intros (H1 & H2 & Hn) Hid Hlen. cbn in H1, H2, Hn. subst n. unfold numbered, assignIndex. cbn [fst snd].
  set (n := Z.of_nat (length ids)) in *. split_and!.
  - intros id' ix. rewrite lookup_insert_Some, H1. split.
    + intros [[-> <-]|[Hne [? ?]]]; (split; [lia|]); apply lookup_snoc_Z; [lia|by right|lia|by left].
    + intros [? [?|[-> ->]]%lookup_snoc_Z]; [|by left|done]. right. split; [|done]. intros ->. by eapply Hid, list_elem_of_lookup_2.
  - intros id' ix. rewrite lookup_insert_Some, H2. split.
    + intros [[<- <-]|[Hne [? ?]]]; (split; [lia|]); apply lookup_snoc_Z; [lia|by right|lia|by left].
    + intros [? [Hl|[-> ->]]%lookup_snoc_Z]; [|by left|done]. right. split; [|done]. apply lookup_Z in Hl; [|done]. fold n in Hl. lia.
  - rewrite length_app. simpl. rewrite u32_small by lia. lia.
Qed.

Lemma assignIndices_spec l ids st : numbered ids st → NoDup (ids ++ l) → Z.of_nat (length (ids ++ l)) < 2 ^ 32 →
  numbered (ids ++ l) (foldl assignIndex st l).
Proof.
  revert ids st. induction l as [|id l IH]; intros ids st H Hnd Hlen; simpl; [by rewrite app_nil_r|].
  rewrite cons_middle, app_assoc in *. apply IH; [|done..]. apply NoDup_app in Hnd as (Hnd & _ & _).
  apply NoDup_app in Hnd as (_ & Hnd & _). rewrite !length_app in Hlen. simpl in Hlen.
  apply assignIndex_spec; [done| |lia]. intros Hin. apply (Hnd id Hin). set_solver.
Qed.

(** the types of the numbered variables *)
Lemma types_run (varTypes : list Ptr) ids idx :
  (∀ id ix, idx !! ix = Some id ↔ 0 ≤ ix ∧ ids !! Z.to_nat ix = Some id) →
  (∀ id, id ∈ ids → 0 ≤ id < Z.of_nat (length varTypes)) →
  ∃ ts, foldR (typeStep varTypes) (idx, []) (seqZ 0 (Z.of_nat (length ids))) = Ok (idx, ts) ∧
    Forall2 (λ id t, varTypes !! Z.to_nat id = Some t) ids ts.
Proof.
  intros Hidx Hids.
  assert (∃ st, foldR (typeStep varTypes) (idx, []) (seqZ 0 (Z.of_nat (length ids))) = Ok st ∧
    st.1 = idx ∧ Forall2 (λ id t, varTypes !! Z.to_nat id = Some t)
      (take (length (seqZ 0 (Z.of_nat (length ids)))) ids) st.2) as ([i ts] & Hr & Hi & H).
  { apply (foldR_spec _ (λ pre st, st.1 = idx ∧
      Forall2 (λ id t, varTypes !! Z.to_nat id = Some t) (take (length pre) ids) st.2)).
    { split; [done|]. constructor. }
    intros pre i [idx' ts] [post Hl] [E H]. cbn [fst snd] in *. subst idx'.
    assert (Hi : seqZ 0 (Z.of_nat (length ids)) !! length pre = Some i)
      by (rewrite Hl, <- (assoc_L _), lookup_app_r, Nat.sub_diag by lia; done).
    apply lookup_seqZ in Hi as [Hi Hlt]. rewrite Z.add_0_l in Hi. subst i.
    destruct (lookup_lt_is_Some_2 ids (length pre)) as [id Hid]; [lia|].
    unfold typeStep, subscript. cbn [fst snd]. rewrite (proj2 (Hidx id (Z.of_nat (length pre)))) by (rewrite Nat2Z.id; auto with lia).
    destruct (lookup_Z_is_Some varTypes id) as [t Ht]; [exact (Hids id (list_elem_of_lookup_2 _ _ _ Hid))|]. rewrite Ht.
    eexists. split; [done|]. split; [done|]. cbn [snd]. rewrite length_app, Nat.add_1_r, (take_S_r _ _ _ Hid).
    by apply Forall2_app; [|constructor]. }
  simpl in Hi, H. subst i. exists ts. split; [done|]. by rewrite length_seqZ, Nat2Z.id, firstn_all in H.
Qed.

(** the indices of the variables of a list get a value *)
Lemma indices_run {A} (a : A) idx l : (∀ id, id ∈ l → is_Some (idx !! id)) →
  let r := foldl (λ (m : gmap Z Z * gmap Z A) envID,
    let '(ids, envIndex) := subscript m.1 envID in (ids, <[envIndex := a]> m.2)) (idx, ∅) l in
  r.1 = idx ∧ ∀ ix, is_Some (r.2 !! ix) ↔ ∃ id, id ∈ l ∧ idx !! id = Some ix.
Proof.
  intros Hl. induction l as [|id l IH] using rev_ind.
  - simpl. split; [done|]. intros ix. rewrite lookup_empty. setoid_rewrite elem_of_nil. split; [by intros []|naive_solver].
  - rewrite foldl_app. simpl. destruct IH as [IH1 IH2]; [intros; apply Hl; set_solver|].
    destruct (foldl _ _ l) as [m1 m2]. cbn [fst snd] in *. subst m1.
    destruct (Hl id) as [i Hi]; [set_solver|]. unfold subscript. rewrite Hi. cbn [fst snd]. split; [done|].
    intros ix. setoid_rewrite elem_of_snoc. rewrite lookup_insert_is_Some', IH2. naive_solver.
Qed.

Section initialize.
Context (varTypes : list Ptr) (single reducable : gset Z) (reducerCount numberOfUsers : Z).

(** the layout: what is included, with which types, and what is reduced *)
Record lays_out (b : EnvBuilder) : Prop := {
  lo_wf : builder_wf b;
  lo_included id : is_Some (envIDToIndex b !! id) ↔ id ∈ single ∪ reducable;
  lo_type id ix : envIDToIndex b !! id = Some ix → envTypes b !! Z.to_nat ix = varTypes !! Z.to_nat id;
  lo_reduced id : id ∈ single ∪ reducable → hasVariableBeenReduced b id = Ok (bool_decide (id ∈ reducable));
  lo_users : envUsers b = replicate (Z.to_nat (u32 numberOfUsers)) LoopEnvironmentUser_new;
  lo_reducers : numReducers b = reducerCount
}.

Lemma initializeBuilder_run : single ## reducable → Z.of_nat (size single + size reducable) < 2 ^ 32 →
  (∀ id, id ∈ single ∪ reducable → 0 ≤ id < Z.of_nat (length varTypes)) →
  ∃ b, initializeBuilder varTypes single reducable reducerCount numberOfUsers = Ok b ∧ lays_out b.
Proof.
  intros Hdisj Hsize Hids. set (ids := sorted single ++ sorted reducable).
  assert (∀ id, id ∈ ids ↔ id ∈ single ∪ reducable) as Hin
    by (intros id; unfold ids; rewrite elem_of_app, !elem_of_sorted; set_solver).
  assert (Z.of_nat (length ids) = Z.of_nat (size single) + Z.of_nat (size reducable)) as Hlen
    by (unfold ids; rewrite length_app, !length_sorted; lia).
  assert (NoDup ids) as Hnd.
  { apply NoDup_app. split_and!; [apply NoDup_sorted| |apply NoDup_sorted]. intros id. rewrite !elem_of_sorted. set_solver. }
  assert (numbered ids (foldl assignIndex (foldl assignIndex (∅, ∅, 0) (sorted single)) (sorted reducable))) as Hnum.
  { rewrite <- foldl_app. apply (assignIndices_spec _ []); [|done|change (Z.of_nat (length ids) < 2 ^ 32); lia].
    split_and!; [..|done]; intros id ix; simpl;
      rewrite lookup_empty, lookup_nil; naive_solver. }
  unfold initializeBuilder. destruct (foldl _ _ (sorted reducable)) as [[idToIndex indexToID] n].
  destruct Hnum as (H1 & H2 & Hn). cbn [fst snd] in *. rewrite <- Hlen, (u64_small (Z.of_nat (length ids))) by lia.
  destruct (types_run varTypes ids indexToID) as (ts & -> & Hts); [exact H2|intros id ?%Hin; by apply Hids|].
  simpl. rewrite decide_False by (rewrite (Forall2_length _ _ _ Hts); tauto).
  assert (∀ id, id ∈ ids → is_Some (idToIndex !! id)) as Hsome.
  { intros id [k Hk]%list_elem_of_lookup. exists (Z.of_nat k). apply H1. rewrite Nat2Z.id. auto with lia. }
  assert (∀ id ix, idToIndex !! id = Some ix → id ∈ ids) as Hback
    by (intros id ix [_ ?%list_elem_of_lookup_2]%H1; done).
  destruct (indices_run (None : option Ptr) idToIndex (sorted single)) as [E1 E2].
  { intros id Hid. apply Hsome. unfold ids. set_solver. }
  destruct (indices_run ([] : list Ptr) idToIndex (sorted reducable)) as [E3 E4].
  { intros id Hid. apply Hsome. unfold ids. set_solver. }
  destruct (foldl _ (idToIndex, ∅) (sorted single)) as [i1 m1]. cbn [fst snd] in *. subst i1.
  destruct (foldl _ (idToIndex, ∅) (sorted reducable)) as [i2 m2]. cbn [fst snd] in *. subst i2.
  eexists. split; [done|].
  assert (∀ id id' ix, idToIndex !! id = Some ix → idToIndex !! id' = Some ix → id = id') as Hinj.
  { intros id id' ix [_ Ha]%H1 [_ Hb]%H1. congruence. }
  assert (builder_wf (mkEnvBuilder None None idToIndex indexToID (Z.of_nat (length ids))
    (u64 (Z.of_nat (length ids) * valuesInCacheLine)) ts m1 ∅ m2 ∅ reducerCount (createUsers numberOfUsers))) as W.
  { split; cbn [envSize envIDToIndex indexToEnvID envTypes envIndexToVar envIndexToReducableVar envArrayType].
    - lia.
    - intros id ix. by rewrite H1, H2.
    - intros ix. split; [intros [id [? Hl]%H2]; split; [done|]; by apply lookup_Z in Hl|].
      intros Hix. destruct (lookup_Z_is_Some ids ix Hix) as [id Hid]. exists id. apply H2. split; [lia|done].
    - by rewrite <- (Forall2_length _ _ _ Hts).
    - intros ix. rewrite E2, E4. split.
      + intros [(id & _ & [? Hl]%H1)|(id & _ & [? Hl]%H1)]; (split; [done|]); by apply lookup_Z in Hl.
      + intros Hix. destruct (lookup_Z_is_Some ids ix Hix) as [id Hid].
        assert (idToIndex !! id = Some ix) by (apply H1; split; [lia|done]).
        apply list_elem_of_lookup_2 in Hid. unfold ids in Hid. apply elem_of_app in Hid as [?|?]; eauto.
    - intros ix (id & Hid & Hix)%E2. apply eq_None_not_Some. intros (id' & Hid' & Hix')%E4.
      assert (id = id') as <- by by eapply Hinj. rewrite elem_of_sorted in Hid, Hid'. set_solver.
    - apply u64_small. unfold valuesInCacheLine, getCacheLineBytes. change (64 / 8) with 8. lia. }
  split; [exact W|..]; cbn [envSize envIDToIndex envTypes envUsers numReducers].
  - intros id. rewrite <- Hin. split; [intros [ix Hix]; by eapply Hback|apply Hsome].
  - intros id ix [_ Hid]%H1. destruct (Forall2_lookup_l _ _ _ _ _ Hts Hid) as (t & -> & ->). done.
  - intros id Hid%Hin. destruct (Hsome id Hid) as [ix Hix]. rewrite (builder_reduced _ id ix W) by done.
    cbn [envIndexToReducableVar]. f_equal. apply bool_decide_ext. rewrite E4. setoid_rewrite elem_of_sorted. split; [|by eauto].
    intros (id' & Hid' & Hix'). by rewrite (Hinj id id' ix).
  - done.
  - done.
Qed.
End initialize.

(** ** From an environment *)

Section environment.
Context (getType : Ptr → Ptr) (env : LoopEnvironment).
Context (reduced skipped : Z → bool → bool).

(** the live-in ([o = false]) and live-out variables that are not skipped, and the exit *)
Definition kept (id : Z) (o : bool) : Prop :=
  id ∈ (if o then liveOutIDs env else liveInIDs env) ∧ skipped id o = false.
Definition to_reduce (id : Z) : Prop := ∃ o, kept id o ∧ reduced id o = true.
Definition included (id : Z) : Prop :=
  (∃ o, kept id o) ∨ (hasExitBlockEnv env = true ∧ id = Z.of_nat (length (envProducers env))).

Lemma groupVariables_spec o l groups : (∀ id, id ∈ l → 0 ≤ id < 2 ^ 32) →
  let g := groupVariables skipped reduced o groups l in
  (∀ id, id ∈ g.1 ↔ id ∈ groups.1 ∨ (id ∈ l ∧ skipped id o = false ∧ reduced id o = false)) ∧
  (∀ id, id ∈ g.2 ↔ id ∈ groups.2 ∨ (id ∈ l ∧ skipped id o = false ∧ reduced id o = true)).
Proof.
  intros Hl. unfold groupVariables. induction l as [|id l IH] using rev_ind; simpl.
  - setoid_rewrite elem_of_nil. naive_solver.
  - rewrite foldl_app. simpl. destruct IH as [IH1 IH2]; [intros; apply Hl; set_solver|].
    rewrite u32_small by (apply Hl; set_solver). set (g := foldl _ _ l) in *. clearbody g. setoid_rewrite elem_of_snoc.
    destruct (skipped id o) eqn:Hs; [|destruct (reduced id o) eqn:Hr]; cbn [fst snd];
      (split; intros id'; [rewrite ?elem_of_union, ?elem_of_singleton, IH1|rewrite ?elem_of_union, ?elem_of_singleton, IH2]);
      destruct (decide (id' = id)) as [->|]; rewrite ?Hs, ?Hr; naive_solver.
Qed.

Lemma types_of_environment : (hasExitBlockEnv env = true → is_Some (exitBlockType env)) →
  Z.of_nat (length (envProducers env)) < 2 ^ 31 →
  ∃ ts, getTypesOfEnvironmentLocations getType env = Ok ts ∧
    Forall2 (λ id t, typeOfEnvironmentLocation getType env id = Ok t)
      (seqZ 0 (Z.of_nat (length (envProducers env)) + (if hasExitBlockEnv env then 1 else 0))) ts.
Proof.
  intros Hex Hlen. unfold getTypesOfEnvironmentLocations, env_size. rewrite u64_small by (destruct (hasExitBlockEnv env); lia).
  apply (foldR_spec _ (λ pre ts, Forall2 (λ id t, typeOfEnvironmentLocation getType env id = Ok t) pre ts)); [constructor|].
  intros pre i ts [post Hl] H.
  assert (i ∈ seqZ 0 (Z.of_nat (length (envProducers env)) + (if hasExitBlockEnv env then 1 else 0))) as Hi%elem_of_seqZ
    by (rewrite Hl; set_solver).
  assert (∃ t, typeOfEnvironmentLocation getType env i = Ok t) as [t Ht].
  { unfold typeOfEnvironmentLocation. destruct (envProducers env !! Z.to_nat i) eqn:Hp; [by eexists|].
    apply lookup_ge_None in Hp. destruct (hasExitBlockEnv env); [|lia]. destruct Hex as [t ->]; [done|]. by eexists. }
  rewrite Ht. eexists. split; [done|]. apply Forall2_app; [done|by constructor].
Qed.

Lemma ofEnvironment_run reducerCount numberOfUsers : env_wf env →
  (hasExitBlockEnv env = true → is_Some (exitBlockType env)) → Z.of_nat (length (envProducers env)) < 2 ^ 31 →
  ∃ b ts single reducable,
    LoopEnvironmentBuilder_ofEnvironment getType env reduced skipped reducerCount numberOfUsers = Ok b ∧
    lays_out ts single reducable reducerCount numberOfUsers b ∧
    (∀ id, id ∈ reducable ↔ to_reduce id) ∧ (∀ id, id ∈ single ∪ reducable ↔ included id) ∧
    (∀ id, included id → ∃ t, ts !! Z.to_nat id = Some t ∧ typeOfEnvironmentLocation getType env id = Ok t).
Proof.
  intros W Hex Hlen. set (n := Z.of_nat (length (envProducers env))) in *.
  destruct (types_of_environment Hex Hlen) as (ts & Hts & HT). fold n in HT. unfold LoopEnvironmentBuilder_ofEnvironment. rewrite Hts.
  assert (∀ id, id ∈ liveInIDs env ∨ id ∈ liveOutIDs env → 0 ≤ id < n) as Hids by (intros id; apply (ew_ids _ W)).
  destruct (groupVariables_spec false (getEnvIDsOfLiveInVars env) (∅, ∅)) as [I1 I2].
  { intros id ?%elem_of_sorted. enough (0 ≤ id < n) by lia. apply Hids. by left. }
  set (g1 := groupVariables _ _ false _ _) in *. clearbody g1.
  destruct (groupVariables_spec true (getEnvIDsOfLiveOutVars env) g1) as [O1 O2].
  { intros id ?%elem_of_sorted. enough (0 ≤ id < n) by lia. apply Hids. by right. }
  set (g2 := groupVariables _ _ true _ _) in *. clearbody g2.
  setoid_rewrite I1 in O1. setoid_rewrite I2 in O2. setoid_rewrite elem_of_sorted in O1. setoid_rewrite elem_of_sorted in O2.
  set (single := if decide (0 ≤ getExitBlockID env) then _ else _).
  assert (∀ id, id ∈ single ↔ id ∈ g2.1 ∨ (hasExitBlockEnv env = true ∧ id = n)) as Hsingle.
  { intros id. unfold single, getExitBlockID. fold n. destruct (hasExitBlockEnv env); case_decide; try lia.
    - rewrite u32_small, elem_of_union, elem_of_singleton by lia. tauto.
    - split; [by left|]. by intros [?|[? _]]. }
  clearbody single.
  assert (∀ id, id ∈ g2.2 ↔ to_reduce id) as Hred.
  { intros id. rewrite O2. unfold to_reduce, kept. split.
    - intros [[?%elem_of_empty|(? & ? & ?)]|(? & ? & ?)]; [done|by exists false|by exists true].
    - intros (o & [? ?] & ?). destruct o; auto. }
  assert (∀ id, id ∈ single ∪ g2.2 ↔ included id) as Hinc.
  { intros id. rewrite elem_of_union, Hsingle, O1, O2. unfold included, kept. split.
    - intros [[[[?%elem_of_empty|(? & ? & ?)]|(? & ? & ?)]|?]|[[?%elem_of_empty|(? & ? & ?)]|(? & ? & ?)]];
        [done|left; by exists false|left; by exists true|by right|done|left; by exists false|left; by exists true].
    - intros [(o & [? ?])|?]; [|auto]. destruct o; [destruct (reduced id true)|destruct (reduced id false)]; auto 7. }
  assert (∀ id, included id → 0 ≤ id < n + (if hasExitBlockEnv env then 1 else 0)) as Hbound.
  { intros id [(o & Hi & _)|[-> ->]]; [|lia].
    enough (0 ≤ id < n) by (destruct (hasExitBlockEnv env); lia). apply Hids. destruct o; auto. }
  assert (single ## g2.2) as Hdisj.
  { apply elem_of_disjoint. intros id Hs%Hsingle Hr%O2. destruct Hs as [Hi%O1|[_ ->]].
    + pose proof (ew_disjoint _ W id). destruct Hi as [[?%elem_of_empty|(? & ? & ?)]|(? & ? & ?)];
        destruct Hr as [[?%elem_of_empty|(? & ? & ?)]|(? & ? & ?)]; tauto || congruence.
    + assert (0 ≤ n < n); [|lia]. apply Hids.
      destruct Hr as [[?%elem_of_empty|(? & ? & ?)]|(? & ? & ?)]; [done|by left|by right]. }
  destruct (initializeBuilder_run ts single g2.2 reducerCount numberOfUsers) as (b & Hb & Hlo).
  - exact Hdisj.
  - rewrite <- size_union by done.
    assert (single ∪ g2.2 ⊆ list_to_set (seqZ 0 (n + 1))) as Hsub.
    { intros id Hid%Hinc%Hbound. apply elem_of_list_to_set, elem_of_seqZ. destruct (hasExitBlockEnv env); lia. }
    apply subseteq_size in Hsub. rewrite size_list_to_set, length_seqZ in Hsub by apply NoDup_seqZ. lia.
  - intros id Hid%Hinc%Hbound. rewrite <- (Forall2_length _ _ _ HT), length_seqZ. lia.
  - exists b, ts, single, g2.2. split_and!; [done..|]. intros id Hid%Hbound.
    assert (seqZ 0 (n + (if hasExitBlockEnv env then 1 else 0)) !! Z.to_nat id = Some id) as Hl by (apply lookup_seqZ; lia).
    apply (Forall2_lookup_l _ _ _ _ _ HT Hl).
Qed.
End environment.

(** (C34) The builder of an environment includes the live-in and live-out variables that are not
    skipped, and the exit when it is tracked; each has one slot of the array, below the size, no
    two the same slot; the type recorded for a slot is the type of its variable; and a variable
    is reducible exactly when it was asked to be reduced. *)
Theorem LoopEnvironmentBuilder_layout getType env reduced skipped reducerCount numberOfUsers :
  env_wf env → (hasExitBlockEnv env = true → is_Some (exitBlockType env)) →
  Z.of_nat (length (envProducers env)) < 2 ^ 31 →
  ∃ b, LoopEnvironmentBuilder_ofEnvironment getType env reduced skipped reducerCount numberOfUsers = Ok b ∧
    builder_wf b ∧ getNumberOfUsers b = u32 numberOfUsers ∧
    (∀ id, isIncludedEnvironmentVariable b id = true ↔ included env skipped id) ∧
    (∀ id, included env skipped id → ∃ ix t r, getIndexOfEnvironmentVariable b id = Ok ix ∧ 0 ≤ ix < envSize b ∧
       envTypes b !! Z.to_nat ix = Some t ∧ typeOfEnvironmentLocation getType env id = Ok t ∧
       hasVariableBeenReduced b id = Ok r ∧ (r = true ↔ to_reduce env reduced skipped id)) ∧
    (∀ id id' ix, getIndexOfEnvironmentVariable b id = Ok ix → getIndexOfEnvironmentVariable b id' = Ok ix → id = id').
Proof.
  intros We Hex Hlen.
  destruct (ofEnvironment_run getType env reduced skipped reducerCount numberOfUsers We Hex Hlen)
    as (b & ts & single & reducable & Hb & [W Hinc Htype Hred Husers _] & Hr & Hi & Hts).
  assert (∀ id ix, getIndexOfEnvironmentVariable b id = Ok ix → envIDToIndex b !! id = Some ix) as Hix.
  { intros id ix. unfold getIndexOfEnvironmentVariable, withIndex. destruct (envIDToIndex b !! id); congruence. }
  exists b. split_and!; [done|done|..].
  - unfold getNumberOfUsers. rewrite Husers, length_replicate, Z2Nat.id by apply u32_range.
    apply u32_small, u32_range.
  - intros id. unfold isIncludedEnvironmentVariable. by rewrite bool_decide_eq_true, Hinc, Hi.
  - intros id Hid. destruct (Hts id Hid) as (t & Ht & Hty). apply Hi in Hid. destruct (proj2 (Hinc id) Hid) as [ix Hidx].
    exists ix, t, (bool_decide (id ∈ reducable)). split_and!.
    + unfold getIndexOfEnvironmentVariable, withIndex. by rewrite Hidx.
    + by eapply builder_index.
    + by eapply builder_index.
    + by rewrite (Htype _ _ Hidx).
    + done.
    + by apply Hred.
    + by rewrite bool_decide_eq_true, Hr.
  - intros id id' ix H1%Hix H2%Hix. by eapply builder_inj.
Qed.

(** one more variable, with the next slot *)
Lemma builder_extend varID varType b : builder_wf b → envSize b < 2 ^ 32 → envIDToIndex b !! varID = None →
  builder_wf (mkEnvBuilder (eb_envArray b) (eb_envArrayInt8Ptr b) (<[varID := envSize b]> (envIDToIndex b))
    (<[envSize b := varID]> (indexToEnvID b)) (envSize b + 1) (u64 ((envSize b + 1) * valuesInCacheLine))
    (envTypes b ++ [varType]) (<[envSize b := None]> (envIndexToVar b)) (envIndexToAccumulatedReducableVar b)
    (envIndexToReducableVar b) (envIndexToVectorOfReducableVar b) (numReducers b) (envUsers b)).
Proof.
  intros W Hsize Hin. pose proof (bw_size _ W) as Hpos.
  assert (Hold : envIndexToReducableVar b !! envSize b = None).
  { apply eq_None_not_Some. intros Hs. assert (0 ≤ envSize b < envSize b) by (apply (bw_indices _ W); by right). lia. }
  assert (∀ id ix, envIDToIndex b !! id = Some ix → id ≠ varID ∧ ix ≠ envSize b) as Hne.
  { intros id ix H. split; [congruence|]. apply builder_index in H; [lia|done]. }
  split; simpl.
  - lia.
  - intros id ix. rewrite !lookup_insert_Some, (bw_inverse _ W). split.
    + intros [[<- <-]|[? H]]; [by left|]. right. destruct (Hne id ix) as [? ?]; [by apply (bw_inverse _ W)|]. done.
    + intros [[<- <-]|[? H]]; [by left|]. right. destruct (Hne id ix) as [? ?]; [by apply (bw_inverse _ W)|]. done.
  - intros ix. rewrite lookup_insert_is_Some', (bw_range _ W). lia.
  - rewrite length_app. simpl. pose proof (bw_types _ W). lia.
  - intros ix. rewrite lookup_insert_is_Some'. pose proof (bw_indices _ W ix) as Hix. split.
    + intros [[<-|?]|?]; [lia|..]; (enough (0 ≤ ix < envSize b) by lia; tauto).
    + intros ?. destruct (decide (envSize b = ix)); [auto|]. assert (0 ≤ ix < envSize b) by lia. tauto.
  - intros ix. rewrite lookup_insert_is_Some'. intros [<-|?]; [done|]. by apply (bw_disjoint _ W).
  - apply u64_small. unfold valuesInCacheLine, getCacheLineBytes. change (64 / 8) with 8. lia.
Qed.

(** (C35) Adding a variable keeps the layout well-formed and leaves the variables that are
    included as they are; a new variable gets the next slot, with its type, and is not reduced. *)
Theorem addVariableToEnvironment_spec varID varType b : builder_wf b → envSize b < 2 ^ 32 → 0 ≤ varID < 2 ^ 32 →
  let b' := addVariableToEnvironment varID varType b in
  builder_wf b' ∧
  (∀ id ix, envIDToIndex b !! id = Some ix → envIDToIndex b' !! id = Some ix ∧
     envTypes b' !! Z.to_nat ix = envTypes b !! Z.to_nat ix ∧ hasVariableBeenReduced b' id = hasVariableBeenReduced b id) ∧
  (∀ id, isIncludedEnvironmentVariable b' id = true ↔ isIncludedEnvironmentVariable b id = true ∨ id = varID) ∧
  (isIncludedEnvironmentVariable b varID = true → b' = b) ∧
  (isIncludedEnvironmentVariable b varID = false →
     envIDToIndex b' !! varID = Some (envSize b) ∧ envTypes b' !! Z.to_nat (envSize b) = Some varType ∧
     hasVariableBeenReduced b' varID = Ok false).
Proof.
  intros W Hsize Hid b'. subst b'. pose proof (bw_size _ W) as Hpos. unfold isIncludedEnvironmentVariable.
  assert (Hold : envIndexToReducableVar b !! envSize b = None).
  { apply eq_None_not_Some. intros Hs. assert (0 ≤ envSize b < envSize b) by (apply (bw_indices _ W); by right). lia. }
  unfold addVariableToEnvironment. rewrite (u32_small varID) by done. case_decide as Hin.
  { split_and!; [done|done| |done|]; [|by rewrite bool_decide_true].
    intros id. rewrite !bool_decide_eq_true. split; [by left|]. by intros [?| ->]. }
  rewrite (u32_small (envSize b)), (u64_small (envSize b + 1)) by lia.
  set (b' := mkEnvBuilder _ _ _ _ _ _ _ _ _ _ _ _ _).
  assert (∀ id ix, envIDToIndex b !! id = Some ix → id ≠ varID ∧ ix ≠ envSize b) as Hne.
  { intros id ix H. split; [intros ->; by destruct Hin|]. apply builder_index in H; [lia|done]. }
  assert (builder_wf b') as W' by (by apply builder_extend; [..|apply eq_None_not_Some]).
  split_and!.
  - exact W'.
  - intros id ix H. destruct (Hne id ix H) as [H1 H2].
    assert (envIDToIndex b' !! id = Some ix) as H' by (simpl; by rewrite lookup_insert_ne). split_and!; [done|..].
    + simpl. rewrite lookup_app_l; [done|]. apply builder_index in H; [|done]. pose proof (bw_types _ W). lia.
    + by rewrite (builder_reduced _ _ _ W' H'), (builder_reduced _ _ _ W H).
  - intros id. rewrite !bool_decide_eq_true. simpl. rewrite lookup_insert_is_Some'. naive_solver.
  - by rewrite bool_decide_eq_true.
  - intros _. assert (envIDToIndex b' !! varID = Some (envSize b)) as H' by (simpl; by rewrite lookup_insert_eq). split_and!; [done|..].
    + simpl. rewrite lookup_app_r, <- (bw_types _ W), Nat2Z.id, Nat.sub_diag by (pose proof (bw_types _ W); lia). done.
    + rewrite (builder_reduced _ _ _ W' H'). simpl. by rewrite Hold.
Qed.

(** ** The accesses that are emitted *)

(** two builders with one layout *)
Record same_layout (b b' : EnvBuilder) : Prop := {
  sl_ids : envIDToIndex b' = envIDToIndex b;
  sl_indices : indexToEnvID b' = indexToEnvID b;
  sl_size : envSize b' = envSize b;
  sl_type : envArrayType b' = envArrayType b;
  sl_types : envTypes b' = envTypes b;
  sl_var ix : is_Some (envIndexToVar b' !! ix) ↔ is_Some (envIndexToVar b !! ix);
  sl_reducable ix : is_Some (envIndexToReducableVar b' !! ix) ↔ is_Some (envIndexToReducableVar b !! ix);
  sl_reducers : numReducers b' = numReducers b
}.
#[export] Instance same_layout_preorder : PreOrder same_layout.
Proof.
  split; [by split|]. intros a b c [E1 E2 E3 E4 E5 E6 E7 E8] [F1 F2 F3 F4 F5 F6 F7 F8].
  split; try congruence; intros ix; [by rewrite F6|by rewrite F7].
Qed.

Lemma same_layout_wf b b' : same_layout b b' → builder_wf b → builder_wf b'.
Proof.
  intros [E1 E2 E3 E4 E5 E6 E7 _] []. split; rewrite ?E1, ?E2, ?E3, ?E4, ?E5; try done.
  - intros ix. by rewrite E6, E7.
  - intros ix ?%E6. rewrite eq_None_not_Some, E7, <- eq_None_not_Some. auto.
Qed.

Lemma same_layout_maps b vars reds vec :
  (∀ ix, is_Some (vars !! ix) ↔ is_Some (envIndexToVar b !! ix)) →
  (∀ ix, is_Some (reds !! ix) ↔ is_Some (envIndexToReducableVar b !! ix)) →
  same_layout b (set_maps vars reds vec b).
Proof. intros. by split. Qed.

Lemma insert_same_dom {A} (m : gmap Z A) i (a : A) : is_Some (m !! i) →
  ∀ ix, is_Some (<[i := a]> m !! ix) ↔ is_Some (m !! ix).
Proof. intros H ix. rewrite lookup_insert_is_Some'. naive_solver. Qed.

Section accesses.
(** the emitter never fails and records what it emits with the value that it creates *)
Context {IRS : Type} (emit : IROp → M IRS Ptr) (log : IRS → list (IROp * Ptr)).
Context (emit_log : ∀ op s, ∃ s' v, emit op s = Ok (s', v) ∧ log s' = log s ++ [(op, v)]).
(** the environment array, with its number of elements *)
Context (envArray : Ptr) (envArrayLength : Z).

(** [arr] is an array of [n] elements: that of the environment, or one that the code [ops] allocates *)
Definition array_of (ops : list (IROp * Ptr)) (arr : Ptr) (n : Z) : Prop :=
  (arr = envArray ∧ n = envArrayLength) ∨ (CreateAlloca (ArrayOf64 n), arr) ∈ ops.
(** an address computation stays, with the cache line it is for, inside its array *)
Definition access_ok (ops : list (IROp * Ptr)) (op : IROp) : Prop :=
  match op with
  | CreateGEP arr indices => ∃ k n, indices = [Const I64 0; Const I64 k] ∧ array_of ops arr n ∧
      0 ≤ k ∧ k + valuesInCacheLine ≤ n
  | _ => True
  end.
(** in [ops], [p] is a pointer to [t] at the element [k] of [arr] *)
Definition points_to (ops : list (IROp * Ptr)) (arr : Ptr) (k : Z) (t : IRType) (p : Ptr) : Prop :=
  ∃ a, (CreateGEP arr [Const I64 0; Const I64 k], a) ∈ ops ∧ (CreateBitCast a (PointerTo t), p) ∈ ops.

(** the pointer of the single variable with index [ix] is at its slot *)
Definition single_ok (ops : list (IROp * Ptr)) (b b' : EnvBuilder) (ix : Z) : Prop :=
  ∃ p t, envIndexToVar b' !! ix = Some (Some p) ∧ envTypes b !! Z.to_nat ix = Some t ∧
    points_to ops envArray (ix * valuesInCacheLine) (ValueType t) p.
(** the reducible variable with index [ix] has a vector, whose address is stored at its slot, and one
    pointer per reducer, after those it had, at the cache lines of the vector *)
Definition vector_ok (ops : list (IROp * Ptr)) (b b' : EnvBuilder) (ix : Z) : Prop :=
  ∃ arr t slot v ps, (CreateAlloca (ArrayOf64 (numReducers b * valuesInCacheLine)), arr) ∈ ops ∧
    envIndexToVectorOfReducableVar b' !! ix = Some arr ∧ envTypes b !! Z.to_nat ix = Some t ∧
    points_to ops envArray (ix * valuesInCacheLine) (PointerTo (ArrayOf64 (numReducers b * valuesInCacheLine))) slot ∧
    (CreateStore arr slot, v) ∈ ops ∧
    envIndexToReducableVar b' !! ix = Some (default [] (envIndexToReducableVar b !! ix) ++ ps) ∧
    Z.of_nat (length ps) = numReducers b ∧
    ∀ i p, ps !! i = Some p → points_to ops arr (Z.of_nat i * valuesInCacheLine) (ValueType t) p.

Lemma array_of_app ops ops' arr n : array_of ops arr n → array_of (ops ++ ops') arr n.
Proof. intros [?|?]; [by left|right]. apply elem_of_app. by left. Qed.
Lemma access_ok_app ops ops' op : access_ok ops op → access_ok (ops ++ ops') op.
Proof. destruct op; try done. intros (k & n & ? & ? & ?). exists k, n. split; [done|]. split; [by apply array_of_app|done]. Qed.
Lemma points_to_app ops ops' arr k t p : points_to ops arr k t p → points_to (ops ++ ops') arr k t p.
Proof. intros (a & ? & ?). exists a. rewrite !elem_of_app. tauto. Qed.
Lemma single_ok_app ops ops' b b' ix : single_ok ops b b' ix → single_ok (ops ++ ops') b b' ix.
Proof. intros (p & t & ? & ? & ?). exists p, t. split_and!; [done..|by apply points_to_app]. Qed.
Lemma vector_ok_app ops ops' b b' ix : vector_ok ops b b' ix → vector_ok (ops ++ ops') b b' ix.
Proof.
  intros (arr & t & slot & v & ps & ? & ? & ? & ? & ? & ? & ? & Hps). exists arr, t, slot, v, ps. rewrite !elem_of_app.
  split_and!; try done; [by left|by apply points_to_app|by left|]. intros i p Hp. by apply points_to_app, Hps.
Qed.

(** from [s] to [s'] the code [ops] is emitted, with its accesses inside the arrays *)
Definition emitted (s s' : IRS) (ops : list (IROp * Ptr)) : Prop :=
  log s' = log s ++ ops ∧ Forall (λ o, access_ok ops o.1) ops.

Lemma emitted_nil s : emitted s s [].
Proof. split; [by rewrite app_nil_r|constructor]. Qed.
Lemma emitted_step s s1 s2 ops op v : emitted s s1 ops → log s2 = log s1 ++ [(op, v)] → access_ok ops op →
  emitted s s2 (ops ++ [(op, v)]).
Proof.
  intros [E H] E2 Hop. split; [by rewrite E2, E, (assoc_L _)|]. apply Forall_app. split.
  - eapply Forall_impl; [exact H|]. intros o. apply access_ok_app.
  - apply Forall_singleton. by apply access_ok_app.
Qed.

Lemma wp_emit op (Q : Ptr → IRS → Prop) s : (∀ v s', log s' = log s ++ [(op, v)] → Q v s') → wp (emit op) Q s.
Proof. intros H. destruct (emit_log op s) as (s' & v & E & Hl). unfold wp. rewrite E. by apply H. Qed.

(** the pointer at a cache line of an array *)
Lemma fetchCasted_run arr n envIndex t s0 ops s :
  emitted s0 s ops → array_of ops arr n → 0 ≤ envIndex → envIndex * valuesInCacheLine + valuesInCacheLine ≤ n →
  wp (fetchCastedEnvPtr emit arr envIndex (PointerTo t)) (λ p s', ∃ new, emitted s0 s' (ops ++ new) ∧
    points_to (ops ++ new) arr (envIndex * valuesInCacheLine) t p) s.
Proof.
  intros H Ha Hi Hn. unfold fetchCastedEnvPtr. apply wp_bind, wp_emit. intros a s1 E1. apply wp_emit. intros p s2 E2.
  exists ([(CreateGEP arr [Const I64 0; Const I64 (envIndex * valuesInCacheLine)], a)] ++ [(CreateBitCast a (PointerTo t), p)]).
  rewrite (assoc_L (++)). split.
  - eapply emitted_step; [eapply emitted_step; [exact H|exact E1|]|exact E2|done].
    eexists _, n. split; [done|]. split; [done|]. split; [|done].
    unfold valuesInCacheLine, getCacheLineBytes in *. change (64 / 8) with 8 in *. lia.
  - exists a. rewrite !elem_of_app, !list_elem_of_singleton. naive_solver.
Qed.

Lemma wp_typeAt b ix (Q : Ptr → IRS → Prop) s : builder_wf b → 0 ≤ ix < envSize b →
  (∀ t, envTypes b !! Z.to_nat ix = Some t → Q t s) → wp (typeAt b ix) Q s.
Proof.
  intros W Hix HQ. unfold typeAt. destruct (lookup_Z_is_Some (envTypes b) ix) as [t Ht]; [by rewrite (bw_types _ W)|].
  rewrite Ht. apply wp_ret. auto.
Qed.

(** the slot of a variable is inside the array of the environment *)
Lemma wp_slot b ix t s0 ops s (Q : Ptr → IRS → Prop) : builder_wf b → envArrayLength = envArrayType b → 0 ≤ ix < envSize b →
  emitted s0 s ops →
  (∀ p s' new, emitted s0 s' (ops ++ new) → points_to (ops ++ new) envArray (ix * valuesInCacheLine) t p → Q p s') →
  wp (fetchCastedEnvPtr emit envArray ix (PointerTo t)) Q s.
Proof.
  intros W Hlen Hix H HQ. eapply wp_mono; [apply (fetchCasted_run envArray envArrayLength ix t s0 ops s H)|].
  - by left.
  - lia.
  - rewrite Hlen, (bw_array _ W). unfold valuesInCacheLine, getCacheLineBytes. change (64 / 8) with 8. lia.
  - intros p s' (new & He & Hp). by eapply HQ.
Qed.

Lemma generateSingles_run b l s0 s ops : builder_wf b → envArrayLength = envArrayType b →
  (∀ ix, ix ∈ l → is_Some (envIndexToVar b !! ix)) → emitted s0 s ops →
  wp (foldM (generateSingle emit envArray) b l) (λ b' s', ∃ new, emitted s0 s' (ops ++ new) ∧ same_layout b b' ∧
    envIndexToReducableVar b' = envIndexToReducableVar b ∧ ∀ ix, ix ∈ l → single_ok (ops ++ new) b b' ix) s.
Proof.
  intros W Hlen Hl Hs. apply (wp_foldM _ (λ pre _ b' s', ∃ new, emitted s0 s' (ops ++ new) ∧ same_layout b b' ∧
    envIndexToReducableVar b' = envIndexToReducableVar b ∧ ∀ ix, ix ∈ pre → single_ok (ops ++ new) b b' ix)).
  { exists []. rewrite app_nil_r. split_and!; [done..|]. by intros ix ?%elem_of_nil. }
  intros pre ix post b' s' E (new & He & Hsl & Hr & Hdone). apply same_layout_wf in Hsl as W'; [|done].
  assert (is_Some (envIndexToVar b' !! ix)) as Hix by (apply (sl_var _ _ Hsl), Hl; rewrite E; set_solver).
  assert (0 ≤ ix < envSize b') as Hrange by (apply (bw_indices _ W'); by left).
  unfold generateSingle. apply wp_bind, wp_typeAt; [done..|]. intros t Ht. rewrite (sl_types _ _ Hsl) in Ht. apply wp_bind.
  apply (wp_slot b' ix (ValueType t) s0 (ops ++ new)); [done|by rewrite (sl_type _ _ Hsl)|done..|].
  intros p s2 new2 He2 Hp. apply wp_ret. exists (new ++ new2). rewrite (assoc_L (++)). split_and!; [done| |done|].
  - etrans; [exact Hsl|]. apply same_layout_maps; [by apply insert_same_dom|done].
  - intros ix' Hin%elem_of_snoc. destruct (decide (ix' = ix)) as [->|Hne].
    + exists p, t. simpl. rewrite lookup_insert_eq. done.
    + destruct Hin as [Hin| ->]; [|done].
      destruct (single_ok_app _ new2 _ _ _ (Hdone ix' Hin)) as (q & u & Hq & Hu & Hqp). exists q, u. simpl. by rewrite lookup_insert_ne.
Qed.

(** the pointers to the elements of a vector *)
Lemma generateElements_run arr ix t b n s0 s ops old : emitted s0 s ops → 0 ≤ n → 
  (CreateAlloca (ArrayOf64 (n * valuesInCacheLine)), arr) ∈ ops → envIndexToReducableVar b !! ix = Some old →
  wp (foldM (generateElement emit arr ix t) b (seqZ 0 n)) (λ b' s', ∃ new, emitted s0 s' (ops ++ new) ∧ same_layout b b' ∧
    envIndexToVar b' = envIndexToVar b ∧ envIndexToVectorOfReducableVar b' = envIndexToVectorOfReducableVar b ∧
    (∀ ix', ix' ≠ ix → envIndexToReducableVar b' !! ix' = envIndexToReducableVar b !! ix') ∧
    ∃ ps, envIndexToReducableVar b' !! ix = Some (old ++ ps) ∧ Z.of_nat (length ps) = n ∧
      ∀ i p, ps !! i = Some p → points_to (ops ++ new) arr (Z.of_nat i * valuesInCacheLine) (ValueType t) p) s.
Proof.
  intros Hs Hn Harr Hold. eapply wp_mono.
  { apply (wp_foldM _ (λ pre _ b' s', ∃ new, emitted s0 s' (ops ++ new) ∧ same_layout b b' ∧
      envIndexToVar b' = envIndexToVar b ∧ envIndexToVectorOfReducableVar b' = envIndexToVectorOfReducableVar b ∧
      (∀ ix', ix' ≠ ix → envIndexToReducableVar b' !! ix' = envIndexToReducableVar b !! ix') ∧
      ∃ ps, envIndexToReducableVar b' !! ix = Some (old ++ ps) ∧ length ps = length pre ∧
        ∀ i p, ps !! i = Some p → points_to (ops ++ new) arr (Z.of_nat i * valuesInCacheLine) (ValueType t) p)).
    { exists []. rewrite app_nil_r. split_and!; [done..|]. exists []. by rewrite app_nil_r. }
    intros pre i post b' s' E (new & He & Hsl & Hv & Hvec & Hother & ps & Hps & Hlen & Hpt).
    assert (seqZ 0 n !! length pre = Some i) as [Hi Hin]%lookup_seqZ by by rewrite E, list_lookup_middle.
    unfold generateElement. apply wp_bind. eapply wp_mono.
    { apply (fetchCasted_run arr (n * valuesInCacheLine) i (ValueType t) s0 (ops ++ new)); [done| |lia|].
      - right. apply elem_of_app. by left.
      - unfold valuesInCacheLine, getCacheLineBytes. change (64 / 8) with 8. lia. }
    intros p s2 (new2 & He2 & Hp). apply wp_ret. exists (new ++ new2). rewrite (assoc_L (++)), Hps. split_and!; try done.
    - etrans; [exact Hsl|]. apply same_layout_maps; [done|apply insert_same_dom; by eexists].
    - intros ix' Hne. simpl. by rewrite lookup_insert_ne, Hother.
    - exists (ps ++ [p]). simpl. rewrite lookup_insert_eq, (assoc_L (++)), !length_app, Hlen. split_and!; [done|done|].
      intros j q [Hj|[Hj Hq]]%lookup_app_Some; [by apply points_to_app, Hpt|].
      apply list_lookup_singleton_Some in Hq as [Hq <-]. replace (Z.of_nat j) with i by lia. done. }
  intros b' s' (new & ? & ? & ? & ? & ? & ps & ? & Hlen & ?). exists new. split_and!; [done..|]. exists ps. split_and!; [done| |done].
  rewrite Hlen, length_seqZ. lia.
Qed.

Lemma generateReducables_run b l s0 s ops : builder_wf b → envArrayLength = envArrayType b → 0 ≤ numReducers b < 2 ^ 32 → NoDup l →
  (∀ ix, ix ∈ l → is_Some (envIndexToReducableVar b !! ix)) → emitted s0 s ops →
  wp (foldM (generateReducable emit envArray) b l) (λ b' s', ∃ new, emitted s0 s' (ops ++ new) ∧ same_layout b b' ∧
    envIndexToVar b' = envIndexToVar b ∧ ∀ ix, ix ∈ l → vector_ok (ops ++ new) b b' ix) s.
Proof.
  intros W Hlen Hn Hnd Hl Hs. eapply wp_mono.
  { apply (wp_foldM _ (λ pre _ b' s', ∃ new, emitted s0 s' (ops ++ new) ∧ same_layout b b' ∧ envIndexToVar b' = envIndexToVar b ∧
      (∀ ix, ix ∈ pre → vector_ok (ops ++ new) b b' ix) ∧
      ∀ ix, ix ∉ pre → envIndexToReducableVar b' !! ix = envIndexToReducableVar b !! ix)).
    { exists []. rewrite app_nil_r. split_and!; [done..| |done]. by intros ix ?%elem_of_nil. }
    intros pre ix post b' s' E (new & He & Hsl & Hv & Hdone & Hold). apply same_layout_wf in Hsl as W'; [|done].
    assert (ix ∉ pre) as Hfresh.
    { rewrite E in Hnd. apply NoDup_app in Hnd as (_ & Hnd & _). intros Hin. apply (Hnd ix Hin). set_solver. }
    destruct (Hl ix) as [old Hix]; [rewrite E; set_solver|]. rewrite <- Hold in Hix by done.
    assert (0 ≤ ix < envSize b') as Hr by (apply (bw_indices _ W'); right; by eexists).
    assert (u64 (numReducers b' * valuesInCacheLine) = numReducers b * valuesInCacheLine) as Hu.
    { rewrite (sl_reducers _ _ Hsl). apply u64_small. unfold valuesInCacheLine, getCacheLineBytes. change (64 / 8) with 8. lia. }
    unfold generateReducable. rewrite Hu. apply wp_bind, wp_typeAt; [done..|]. intros t Ht. rewrite (sl_types _ _ Hsl) in Ht.
    apply wp_bind, wp_emit. intros arr s1 E1. apply (emitted_step _ _ _ _ _ _ He) in E1 as He1; [|done]. clear E1.
    set (b1 := set_maps _ _ _ b'). assert (same_layout b' b1) as Hsl1 by by apply same_layout_maps.
    apply wp_bind. apply (wp_slot b' ix _ s0 _ s1 _ W' ltac:(by rewrite (sl_type _ _ Hsl)) Hr He1). intros slot s2 new2 He2 Hslot.
    apply wp_bind, wp_emit. intros v s3 E3. apply (emitted_step _ _ _ _ _ _ He2) in E3 as He3; [|done]. clear E3.
    rewrite decide_False by (simpl; rewrite (sl_reducers _ _ Hsl); lia).
    replace (numReducers b1) with (numReducers b) by (symmetry; apply (sl_reducers _ _ Hsl)).
    eapply wp_mono; [apply (generateElements_run arr ix t b1 (numReducers b) s0 s3 _ old He3)|].
    - lia.
    - rewrite !elem_of_app, list_elem_of_singleton. tauto.
    - done.
    - intros b2 s4 (new4 & He4 & Hsl2 & Hv2 & Hvec2 & Hother & ps & Hps & Hlps & Hpt).
      exists (new ++ [(CreateAlloca (ArrayOf64 (numReducers b * valuesInCacheLine)), arr)] ++ new2 ++ [(CreateStore arr slot, v)] ++ new4).
      rewrite !(assoc_L (++)). split_and!; [exact He4|by etrans; [|etrans]|by rewrite Hv2| |].
      + intros ix' [Hin| ->]%elem_of_snoc.
        * destruct (vector_ok_app _ ([(CreateAlloca (ArrayOf64 (numReducers b * valuesInCacheLine)), arr)] ++ new2 ++
            [(CreateStore arr slot, v)] ++ new4) _ _ _ (Hdone ix' Hin)) as (arr' & t' & slot' & v' & ps' & H1 & H2 & H3 & H4 & H5 & H6 & H7 & H8).
          rewrite !(assoc_L (++)) in *. assert (ix' ≠ ix) as Hne by (by intros ->).
          exists arr', t', slot', v', ps'. rewrite Hvec2, Hother by done. simpl. rewrite lookup_insert_ne by done. done.
        * exists arr, t, slot, v, ps. rewrite Hvec2, Hps, <- Hold, Hix by done. simpl. rewrite lookup_insert_eq. split_and!; try done.
          -- rewrite !elem_of_app, list_elem_of_singleton. tauto.
          -- by apply points_to_app, points_to_app.
          -- rewrite !elem_of_app, !list_elem_of_singleton. tauto.
      + intros ix' Hin. rewrite Hother, <- Hold; [done|set_solver|set_solver]. }
  intros b' s' (new & ? & ? & ? & ? & _). exists new. done.
Qed.
End accesses.

(** (C36) Generating the pointers of the environment succeeds on an allocated array and keeps the
    layout. Every address that is computed stays, with its cache line, inside the array it is for. Each
    single variable gets a pointer to its own slot of the environment array, with its type. Each
    reducible variable gets a vector with one cache line per reducer, allocated by the code and stored
    in the slot of the variable, and pointers to those lines, one per reducer. *)
Theorem generateEnvVariables_bounds {IRS} (emit : IROp → M IRS Ptr) (log : IRS → list (IROp * Ptr)) envArray b s :
  (∀ op s, ∃ s' v, emit op s = Ok (s', v) ∧ log s' = log s ++ [(op, v)]) →
  builder_wf b → eb_envArray b = Some envArray → 0 ≤ numReducers b < 2 ^ 32 →
  wp (generateEnvVariables emit b) (λ b' s', ∃ ops, log s' = log s ++ ops ∧
    Forall (λ o, access_ok envArray (envArrayType b) ops o.1) ops ∧ builder_wf b' ∧ envIDToIndex b' = envIDToIndex b ∧
    ∀ id ix, envIDToIndex b !! id = Some ix → ∃ r, hasVariableBeenReduced b' id = Ok r ∧
      if r : bool
      then vector_ok envArray ops b b' ix ∧
        ∀ i, 0 ≤ i < numReducers b → ∃ p arr t,
          getReducedEnvironmentVariable b' id (Z.of_nat (length (default [] (envIndexToReducableVar b !! ix))) + i) = Ok p ∧
          envIndexToVectorOfReducableVar b' !! ix = Some arr ∧ envTypes b !! Z.to_nat ix = Some t ∧
          points_to ops arr (i * valuesInCacheLine) (ValueType t) p
      else ∃ p t, getEnvironmentVariable b' id = Ok (Some p) ∧ envTypes b !! Z.to_nat ix = Some t ∧
        points_to ops envArray (ix * valuesInCacheLine) (ValueType t) p) s.
Proof.
  intros Hemit W Harr Hn. unfold generateEnvVariables. rewrite Harr. apply wp_bind.
  eapply wp_mono; [apply (generateSingles_run _ log Hemit envArray (envArrayType b) b _ s s [] W eq_refl)|].
  { by intros ix ?%elem_of_sorted%elem_of_dom. }
  { apply emitted_nil. }
  intros b1 s1 (new1 & He1 & Hsl1 & Hr1 & Hv1). apply same_layout_wf in Hsl1 as W1; [|done]. rewrite Hr1.
  eapply wp_mono; [apply (generateReducables_run _ log Hemit envArray (envArrayType b) b1 _ s s1 ([] ++ new1) W1)|].
  - by rewrite (sl_type _ _ Hsl1).
  - by rewrite (sl_reducers _ _ Hsl1).
  - apply NoDup_sorted.
  - intros ix ?%elem_of_sorted%elem_of_dom. by rewrite Hr1.
  - done.
  - intros b2 s2 (new2 & [Hlog Hacc] & Hsl2 & Hv2 & Hr2). assert (same_layout b b2) as Hsl by by etrans.
    apply same_layout_wf in Hsl as W2; [|done]. eexists. split_and!; [exact Hlog|exact Hacc|done|apply Hsl|].
    intros id ix Hix. assert (envIDToIndex b2 !! id = Some ix) as Hix2 by by rewrite (sl_ids _ _ Hsl).
    rewrite (builder_reduced _ _ _ W2 Hix2). eexists. split; [done|].
    unfold getReducedEnvironmentVariable, getEnvironmentVariable, withIndex. rewrite Hix2. case_bool_decide as Hd.
    + apply (sl_reducable _ _ Hsl) in Hd. assert (vector_ok envArray (([] ++ new1) ++ new2) b b2 ix) as Hvec.
      { destruct (Hr2 ix) as (arr & t & slot & v & ps & H); [by apply elem_of_sorted, elem_of_dom|].
        exists arr, t, slot, v, ps. by rewrite (sl_reducers _ _ Hsl1), (sl_types _ _ Hsl1), Hr1 in H. }
      split; [done|]. destruct Hvec as (arr & t & slot & v & ps & _ & Ha & Ht & _ & _ & -> & Hlen & Hps).
      intros i Hi. destruct (lookup_lt_is_Some_2 ps (Z.to_nat i)) as [p Hp]; [lia|]. exists p, arr, t.
      rewrite Z2Nat.inj_add, Nat2Z.id, lookup_app_r, Nat.add_sub' by lia. rewrite Hp. split_and!; [done..|].
      apply Hps in Hp. by rewrite Z2Nat.id in Hp by lia.
    + assert (is_Some (envIndexToVar b2 !! ix)) as Hs by (apply builder_index, (bw_indices _ W2) in Hix2; tauto).
      apply (sl_var _ _ Hsl) in Hs. destruct (single_ok_app envArray _ new2 _ _ _ (Hv1 ix (proj2 (elem_of_sorted _ _) (proj2 (elem_of_dom _ _) Hs))))
        as (p & t & Hp & Ht & Hpt). exists p, t. by rewrite Hv2, Hp.
Qed.

