(* ===== verification/IRModule.v ===== *)
(** * Modules of llvm

    What the analyses of whole programs read of a module: its functions with their blocks, the
    calls among the instructions, and the users of each function. *)
From S2P Require Import Prelude LoopStructure.

(** the kinds of instructions that are a [CallBase], with the function they call if it is known *)
Inductive CallKind :=
  | NotACall
  | CallInst (callee : option Ptr)
  | InvokeInst (callee : option Ptr)
  | CallBrInst (callee : option Ptr).

(** the functions of a module with their blocks (none for a declaration), which instructions
    are calls, and the users of each function *)
Record LLVMModule := mkLLVMModule {
  m_functions : list Ptr;
  m_blocks : Ptr → list Ptr;
  m_call : Ptr → CallKind;
  m_uses : Ptr → list Ptr
}.

Section llvm_module.
Context (ir : IRProgram) (md : LLVMModule).

Definition isCallBase (i : Ptr) : bool := match m_call md i with NotACall => false | _ => true end.
Definition getCalledFunction (i : Ptr) : option Ptr :=
  match m_call md i with
  | NotACall => None
  | CallInst c | InvokeInst c | CallBrInst c => c
  end.
(** [F->empty()] *)
Definition isDeclaration (F : Ptr) : bool := match m_blocks md F with [] => true | _ => false end.
(** [instructions(F)] *)
Definition function_instructions (F : Ptr) : list Ptr := mjoin (ir_insts ir <$> m_blocks md F).

Lemma elem_of_function_instructions i F :
  i ∈ function_instructions F ↔ ∃ b, b ∈ m_blocks md F ∧ i ∈ ir_insts ir b.
Proof.
  unfold function_instructions. rewrite list_elem_of_join. setoid_rewrite list_elem_of_fmap. naive_solver.
Qed.
End llvm_module.
