(* ===== verification/Hot.v ===== *)
(** * Execution profiles (src/core/hotprofiler)

    The class [Hot]: how often each basic block and function ran, how many instructions each
    function executed with and without its callees, and the queries on instructions, blocks,
    SCCs, loops, functions and the module. Counters are uint64_t and wrap; ratios are doubles. *)
From S2P Require Import Prelude Doubles DGEdge DGNode DGBase SCC LoopStructure IRModule.
Open Scope Z_scope.

(** ** llvm *)

(** what [BlockFrequencyInfo] and [BranchProbabilityInfo] answer: the count of a block, and
    the numerator and denominator of the probability of an edge *)
Record ProfileInfo := mkProfileInfo {
  getBlockProfileCount : Ptr → option Z;
  getEdgeProbability : Ptr → Ptr → option (Z * Z)
}.

(** ** State *)
Record Hot := mkHot {
  branchProbability : gmap Ptr (gmap Ptr double);
  bbInvocations : gmap Ptr Z;
  functionInvocations : gmap Ptr Z;
  functionSelfInstructions : gmap Ptr Z;
  functionTotalInstructions : gmap Ptr Z;
  instructionTotalInstructions : gmap Ptr Z;
  moduleNumberOfInstructionsExecuted : Z
}.
Definition Hot_empty : Hot := mkHot ∅ ∅ ∅ ∅ ∅ ∅ 0.

(** [map.at(k)]: an absent key throws, and exceptions are not caught *)
Definition map_at {A} (m : gmap Ptr A) (k : Ptr) : Res A :=
  match m !! k with Some v => Ok v | None => Fail Aborted end.

(** a query in a computation that changes the profile *)
Definition ask {A} (f : Hot → Res A) : M Hot A :=
  λ h, match f h with Ok a => Ok (h, a) | Fail e => Fail e end.

(** [for (auto x : l) t += f(x);] *)
Definition sum64 {A} (f : A → Res Z) (l : list A) : Res Z :=
  foldR (λ t x, rbind (f x) (λ v, Ok (u64 (t + v)))) 0 l.

(** [l / m] as doubles *)
Definition ratio (l m : Z) : double := double_div (double_of_u64 l) (double_of_u64 m).

(** the evaluation stack: the functions whose evaluation has begun *)
Abbreviation EvalStack := (gmap Ptr bool).

Section hot.
Context {IO : IterOrder} (ir : IRProgram) (md : LLVMModule).

(** ** Basic blocks *)

Definition getInvocations_bb (h : Hot) (bb : option Ptr) : Res Z :=
  match bb with
  | Some bb => map_at (bbInvocations h) bb
  | None => Fail AssertionFailure
  end.
Definition hasBeenExecuted_bb (h : Hot) (bb : Ptr) : Res bool :=
  rbind (getInvocations_bb h (Some bb)) (λ n, Ok (negb (n =? 0))).

Definition getStaticInstructions_bb (bb : Ptr) : Res Z :=
  let bbLength := Z.of_nat (length (ir_insts ir bb)) in
  if 0 <? bbLength then Ok bbLength else Fail AssertionFailure.
Definition getStaticInstructions_bb_if (canIConsiderIt : Ptr → bool) (bb : Ptr) : Res Z :=
  foldR (λ t i, Ok (if canIConsiderIt i then u64 (t + 1) else t)) 0 (ir_insts ir bb).

Definition getSelfInstructions_bb (h : Hot) (bb : Ptr) : Res Z :=
  rbind (getInvocations_bb h (Some bb)) (λ invs,
  rbind (getStaticInstructions_bb bb) (λ len, Ok (u64 (invs * len)))).

(** the entry of a function is its first block *)
Definition setBasicBlockInvocations (bb : Ptr) (invocations : Z) : M Hot unit :=
  let f := ir_functionOf ir bb in
  let* entryBB := deref (head (m_blocks md f)) in
  modify (λ h,
    mkHot (branchProbability h) (<[bb := invocations]> (bbInvocations h))
      (if bool_decide (entryBB = bb) then <[f := invocations]> (functionInvocations h)
       else functionInvocations h)
      (functionSelfInstructions h) (functionTotalInstructions h) (instructionTotalInstructions h)
      (moduleNumberOfInstructionsExecuted h)).

Definition setBranchFrequency (src dst : Ptr) (branchFrequency : double) : M Hot unit :=
  modify (λ h,
    mkHot (<[src := <[dst := branchFrequency]> (default ∅ (branchProbability h !! src))]> (branchProbability h))
      (bbInvocations h) (functionInvocations h) (functionSelfInstructions h)
      (functionTotalInstructions h) (instructionTotalInstructions h) (moduleNumberOfInstructionsExecuted h)).

Definition getBranchFrequency (h : Hot) (sourceBB targetBB : Ptr) : Res double :=
  rbind (map_at (branchProbability h) sourceBB) (λ branchSuccessors,
  Ok (default double_zero (branchSuccessors !! targetBB))).

(** ** Functions *)

Definition getInvocations_function (h : Hot) (f : Ptr) : Res Z := map_at (functionInvocations h) f.
Definition hasBeenExecuted_function (h : Hot) (f : Ptr) : Res bool :=
  rbind (getInvocations_function h f) (λ n, Ok (negb (n =? 0))).
Definition getStaticInstructions_function (f : Ptr) : Res Z :=
  sum64 getStaticInstructions_bb (m_blocks md f).
Definition getStaticInstructions_function_if (canIConsiderIt : Ptr → bool) (f : Ptr) : Res Z :=
  sum64 (getStaticInstructions_bb_if canIConsiderIt) (m_blocks md f).
Definition getSelfInstructions_function (h : Hot) (f : Ptr) : Res Z :=
  map_at (functionSelfInstructions h) f.
Definition isFunctionTotalInstructionsAvailable (h : Hot) (f : Ptr) : bool :=
  bool_decide (is_Some (functionTotalInstructions h !! f)).
Definition getTotalInstructions_function (h : Hot) (f : Ptr) : Res Z :=
  if isFunctionTotalInstructionsAvailable h f then map_at (functionTotalInstructions h) f else Ok 0.
Definition setFunctionTotalInstructions (f : Ptr) (totalInstructions : Z) (h : Hot) : Hot :=
  mkHot (branchProbability h) (bbInvocations h) (functionInvocations h) (functionSelfInstructions h)
    (<[f := totalInstructions]> (functionTotalInstructions h)) (instructionTotalInstructions h)
    (moduleNumberOfInstructionsExecuted h).

(** ** Instructions *)

Definition getStaticInstructions_inst (i : Ptr) : Z := 1.

(** a call runs at most as often as its callee *)
Definition adjusted_invocations (h : Hot) (callee : option Ptr) (inv : Z) : Res Z :=
  match callee with
  | None => Ok inv
  | Some callee =>
      if isDeclaration md callee then Ok inv
      else
        rbind (getInvocations_function h callee) (λ calleeInv,
        let inv := if calleeInv <? inv then calleeInv else inv in
        if inv <=? calleeInv then Ok inv else Fail AssertionFailure)
  end.
Definition getInvocations_inst (h : Hot) (i : Ptr) : Res Z :=
  rbind (getInvocations_bb h (Some (ir_blockOf ir i))) (λ inv,
  match m_call md i with
  | CallInst callee | InvokeInst callee => adjusted_invocations h callee inv
  | NotACall | CallBrInst _ => Ok inv
  end).
Definition hasBeenExecuted_inst (h : Hot) (i : Ptr) : Res bool :=
  rbind (getInvocations_inst h i) (λ n, Ok (negb (n =? 0))).
Definition getSelfInstructions_inst (h : Hot) (i : Ptr) : Res Z := getInvocations_inst h i.
Definition getTotalInstructions_inst (h : Hot) (i : Ptr) : Res Z :=
  match instructionTotalInstructions h !! i with
  | None => getInvocations_inst h i
  | Some _ => map_at (instructionTotalInstructions h) i
  end.
Definition getTotalInstructions_bb (h : Hot) (bb : Ptr) : Res Z :=
  sum64 (getTotalInstructions_inst h) (ir_insts ir bb).

(** ** The module *)

Definition getSelfInstructions_module (h : Hot) : Z := moduleNumberOfInstructionsExecuted h.
Definition hasBeenExecuted_module (h : Hot) : bool := 0 <? getSelfInstructions_module h.
Definition isAvailable (h : Hot) : bool := hasBeenExecuted_module h.
Definition getInvocations_module (h : Hot) : bool := hasBeenExecuted_module h.
Definition getTotalInstructions_module (h : Hot) : Z := getSelfInstructions_module h.

Definition getDynamicTotalInstructionCoverage_inst (h : Hot) (i : Ptr) : Res double :=
  rbind (getTotalInstructions_inst h i) (λ iInsts, Ok (ratio iInsts (getTotalInstructions_module h))).
Definition getDynamicTotalInstructionCoverage_function (h : Hot) (f : Ptr) : Res double :=
  rbind (getTotalInstructions_function h f) (λ lInsts, Ok (ratio lInsts (getTotalInstructions_module h))).

(** ** SCCs *)
Context (isInstruction : Ptr → bool).

Definition accumulate (f : Ptr → Res Z) (i : Ptr) : M Z bool :=
  λ t, match f i with Ok v => Ok (u64 (t + v), false) | Fail e => Fail e end.
Definition getStaticInstructions_scc (scc : DG) : Z := Z.of_nat (SCC.numberOfInstructions scc).
Definition getSelfInstructions_scc (h : Hot) (scc : DG) : Res Z :=
  match iterateOverInstructions isInstruction scc (accumulate (getSelfInstructions_inst h)) 0 with
  | Ok (t, _) => Ok t
  | Fail e => Fail e
  end.
Definition getTotalInstructions_scc (h : Hot) (scc : DG) : Res Z :=
  match iterateOverInstructions isInstruction scc (accumulate (getTotalInstructions_inst h)) 0 with
  | Ok (t, _) => Ok t
  | Fail e => Fail e
  end.
Definition hasBeenExecuted_scc (h : Hot) (scc : DG) : Res bool :=
  rbind (getSelfInstructions_scc h scc) (λ s, Ok (0 <? s)).

(** ** Loops *)

Definition getStaticInstructions_loop (l : LoopStructure) : Res Z :=
  sum64 getStaticInstructions_bb (visit (getBasicBlocks l)).
Definition getStaticInstructions_loop_if (canIConsiderIt : Ptr → bool) (l : LoopStructure) : Res Z :=
  sum64 (getStaticInstructions_bb_if canIConsiderIt) (visit (getBasicBlocks l)).
Definition getInvocations_loop (h : Hot) (l : LoopStructure) : Res Z :=
  getInvocations_bb h (getPreHeader l).
Definition hasBeenExecuted_loop (h : Hot) (l : LoopStructure) : Res bool :=
  rbind (getInvocations_loop h l) (λ n, Ok (negb (n =? 0))).
(** the sum is over the static instructions of the blocks *)
Definition getSelfInstructions_loop (h : Hot) (loop : LoopStructure) : Res Z :=
  sum64 getStaticInstructions_bb (visit (getBasicBlocks loop)).
Definition getTotalInstructions_loop (h : Hot) (loop : LoopStructure) : Res Z :=
  sum64 (getTotalInstructions_bb h) (visit (getBasicBlocks loop)).

Definition getIterations (h : Hot) (l : LoopStructure) : Res Z :=
  let loopHeader := getHeader l in
  rbind (getInvocations_bb h (Some loopHeader)) (λ headerInvocations,
  rbind (foldR (λ t succBB,
           if isIncludedBB l succBB
           then rbind (getInvocations_bb h (Some succBB)) (λ v, Ok (u64 (t + v)))
           else Ok t) 0 (ir_successors ir loopHeader)) (λ succInvocations,
  Ok (if headerInvocations =? succInvocations then headerInvocations
      else u64 (headerInvocations - 1)))).

Definition getDynamicTotalInstructionCoverage_loop (h : Hot) (loop : LoopStructure) : Res double :=
  rbind (getTotalInstructions_loop h loop) (λ lInsts, Ok (ratio lInsts (getTotalInstructions_module h))).

Definition getAverageTotalInstructionsPerInvocation (h : Hot) (loop : LoopStructure) : Res double :=
  rbind (getInvocations_loop h loop) (λ loopInvocations,
  if loopInvocations =? 0 then Ok double_zero
  else rbind (getTotalInstructions_loop h loop) (λ loopTotal, Ok (ratio loopTotal loopInvocations))).
Definition getAverageLoopIterationsPerInvocation (h : Hot) (loop : LoopStructure) : Res double :=
  rbind (getInvocations_loop h loop) (λ loopInvocations,
  if loopInvocations =? 0 then Ok double_zero
  else rbind (getIterations h loop) (λ loopIterations, Ok (ratio loopIterations loopInvocations))).
Definition getAverageTotalInstructionsPerIteration (h : Hot) (loop : LoopStructure) : Res double :=
  rbind (getAverageTotalInstructionsPerInvocation h loop) (λ instsPerInvocation,
  if double_eq instsPerInvocation double_zero then Ok double_zero
  else
    rbind (getAverageLoopIterationsPerInvocation h loop) (λ itersPerInvocation,
    if double_eq itersPerInvocation double_zero then Ok double_zero
    else Ok (double_div instsPerInvocation itersPerInvocation))).

(** ** The total instructions of a function *)
Definition on_hot {A} (m : M Hot A) : M (Hot * EvalStack) A := zoom fst (λ h s, (h, s.2)) m.
Definition push_evaluation (F : Ptr) : M (Hot * EvalStack) unit :=
  modify (λ s, (s.1, <[F := true]> s.2)).
(** [evaluationStack[callee]] inserts [false] for an absent key *)
Definition evaluation_at (callee : Ptr) : M (Hot * EvalStack) bool :=
  λ s, let b := default false (s.2 !! callee) in Ok ((s.1, <[callee := b]> s.2), b).

(** the instructions a callee executes per invocation *)
Definition calleeTotalInstsPerInvocation (calleeTotalInsts calleeInvocations : Z) : Res Z :=
  u64_of_double (double_div (double_of_u64 calleeTotalInsts) (double_of_u64 calleeInvocations)).

(** one instruction of the loop over a function; [evaluate] evaluates a callee *)
Definition countInstruction (evaluate : Ptr → M (Hot * EvalStack) unit) (t : Z) (inst : Ptr)
    : M (Hot * EvalStack) Z :=
  let* executed := on_hot (ask (λ h, hasBeenExecuted_inst h inst)) in
  if negb executed then ret t
  else
    let* instructionInvocations := on_hot (ask (λ h, getInvocations_inst h inst)) in
    let t := u64 (t + instructionInvocations) in
    if negb (isCallBase md inst) then ret t
    else
      match getCalledFunction md inst with
      | None => ret t
      | Some callee =>
          if isDeclaration md callee then ret t
          else
            let* calleeExecuted := on_hot (ask (λ h, hasBeenExecuted_function h callee)) in
            massert calleeExecuted ;;;
            let* calleeInvocations := on_hot (ask (λ h, getInvocations_function h callee)) in
            massert (instructionInvocations <=? calleeInvocations) ;;;
            let* available := gets (λ s, isFunctionTotalInstructionsAvailable s.1 callee) in
            let* calleeTotalInsts :=
              if available : bool
              then on_hot (ask (λ h, getTotalInstructions_function h callee))
              else
                let* evaluating := evaluation_at callee in
                if evaluating : bool then ret 1
                else
                  evaluate callee ;;;
                  let* available := gets (λ s, isFunctionTotalInstructionsAvailable s.1 callee) in
                  massert available ;;;
                  on_hot (ask (λ h, getTotalInstructions_function h callee)) in
            massert (0 <? calleeTotalInsts) ;;;
            let* perInvocation := lift (calleeTotalInstsPerInvocation calleeTotalInsts calleeInvocations) in
            ret (u64 (t + u64 (perInvocation * instructionInvocations)))
      end.

Fixpoint computeTotalInstructions_function (fuel : nat) (F : Ptr) : M (Hot * EvalStack) unit :=
  match fuel with
  | O => fail OutOfFuel
  | S fuel =>
      push_evaluation F ;;;
      let* executed := on_hot (ask (λ h, hasBeenExecuted_function h F)) in
      if negb executed then on_hot (modify (setFunctionTotalInstructions F 0))
      else
        let* t := foldM (countInstruction (computeTotalInstructions_function fuel)) 0
                        (function_instructions ir md F) in
        on_hot (modify (setFunctionTotalInstructions F t))
  end.

(** ** The total instructions of calls *)

Definition setInstructionTotalInstructions (i : Ptr) (t : Z) (h : Hot) : Hot :=
  mkHot (branchProbability h) (bbInvocations h) (functionInvocations h) (functionSelfInstructions h)
    (functionTotalInstructions h) (<[i := t]> (instructionTotalInstructions h))
    (moduleNumberOfInstructionsExecuted h).

(** one user of the function: the last call seen and what is left to distribute *)
Definition distributeToUser (totalInstsOfFPerInvocation : Z) (st : option Ptr * Z) (userOfF : Ptr)
    : M Hot (option Ptr * Z) :=
  if negb (isCallBase md userOfF) then ret st
  else
    let* executed := ask (λ h, hasBeenExecuted_inst h userOfF) in
    if negb executed then ret (Some userOfF, st.2)
    else
      let* instructionInvocations := ask (λ h, getInvocations_inst h userOfF) in
      let calleeTotalInstsFraction := u64 (totalInstsOfFPerInvocation * instructionInvocations) in
      modify (setInstructionTotalInstructions userOfF (u64 (calleeTotalInstsFraction + 1))) ;;;
      ret (Some userOfF, u64 (st.2 - calleeTotalInstsFraction)).

Definition distributeTotal (F : Ptr) : M Hot unit :=
  if isDeclaration md F then ret tt
  else
    let* executed := ask (λ h, hasBeenExecuted_function h F) in
    if negb executed then ret tt
    else
      let* available := gets (λ h, isFunctionTotalInstructionsAvailable h F) in
      massert available ;;;
      let* totalInstsOfF := ask (λ h, getTotalInstructions_function h F) in
      let* invocations := ask (λ h, getInvocations_function h F) in
      let* st := foldM (distributeToUser (totalInstsOfF / invocations)) (None, totalInstsOfF)
                       (m_uses md F) in
      match st with
      | (Some callerOfF, leftover) =>
          if 0 <? leftover
          then modify (λ h, setInstructionTotalInstructions callerOfF
                 (u64 (default 0 (instructionTotalInstructions h !! callerOfF) + leftover)) h)
          else ret tt
      | (None, _) => ret tt
      end.

Definition evaluateFunction (F : Ptr) : M Hot unit :=
  if isDeclaration md F then ret tt
  else λ h, match computeTotalInstructions_function (length (m_functions md)) F (h, ∅) with
            | Ok ((h', _), _) => Ok (h', tt)
            | Fail e => Fail e
            end.

Definition computeTotalInstructions : M Hot unit :=
  forM evaluateFunction (m_functions md) ;;;
  forM distributeTotal (m_functions md).

(** ** The analysis of a profile *)

Definition addBlockToModule (bb : Ptr) : M Hot unit :=
  let* totalBBInsts := ask (λ h, getInvocations_bb h (Some bb)) in
  let* bbLength := lift (getStaticInstructions_bb bb) in
  modify (λ h,
    mkHot (branchProbability h) (bbInvocations h) (functionInvocations h) (functionSelfInstructions h)
      (functionTotalInstructions h) (instructionTotalInstructions h)
      (u64 (moduleNumberOfInstructionsExecuted h + u64 (totalBBInsts * bbLength)))).

Definition computeSelfInstructions (f : Ptr) : M Hot unit :=
  let* c := ask (λ h, sum64 (getSelfInstructions_bb h) (m_blocks md f)) in
  modify (λ h,
    mkHot (branchProbability h) (bbInvocations h) (functionInvocations h)
      (<[f := c]> (functionSelfInstructions h)) (functionTotalInstructions h)
      (instructionTotalInstructions h) (moduleNumberOfInstructionsExecuted h)).

Definition computeProgramInvocations : M Hot unit :=
  let* bbs := gets (λ h, dom (bbInvocations h)) in
  forM addBlockToModule (visit bbs) ;;;
  let* fs := gets (λ h, dom (functionInvocations h)) in
  forM computeSelfInstructions (visit fs) ;;;
  computeTotalInstructions.

Definition analyzeBlock (profile : ProfileInfo) (bb : Ptr) : M Hot unit :=
  match getBlockProfileCount profile bb with
  | None => setBasicBlockInvocations bb 0
  | Some v =>
      setBasicBlockInvocations bb v ;;;
      forM (λ succBB,
        match getEdgeProbability profile bb succBB with
        | None => ret tt
        | Some (num, den) => setBranchFrequency bb succBB (ratio num den)
        end) (ir_successors ir bb)
  end.

Definition analyzeProfiles (profile : ProfileInfo) : M Hot unit :=
  forM (λ F, forM (analyzeBlock profile) (m_blocks md F)) (m_functions md) ;;;
  computeProgramInvocations.

Definition Hot_new (profile : ProfileInfo) : Res Hot :=
  match analyzeProfiles profile Hot_empty with Ok (h, _) => Ok h | Fail e => Fail e end.
End hot.
