(* ===== verification/HotSpec.v ===== *)
(** * What a profile records

    On a module without recursion among executed calls, the analysis gives every function the
    total of its instructions and of its callees' share, and distributes that total among the
    calls of the function. *)
From S2P Require Import Prelude Doubles Hot LoopStructure IRModule.
Open Scope Z_scope.

(** ** Sums *)
Definition sumZ {A} (f : A → Z) (l : list A) : Z := foldr (λ x s, f x + s) 0 l.

Lemma sumZ_app {A} (f : A → Z) l k : sumZ f (l ++ k) = sumZ f l + sumZ f k.
Proof. induction l as [|x l IH]; simpl; [done|]. rewrite IH. lia. Qed.

Lemma sumZ_nonneg {A} (f : A → Z) l : (∀ x, x ∈ l → 0 <= f x) → 0 <= sumZ f l.
Proof.
  induction l as [|x l IH]; intros H; simpl; [done|].
  pose proof (H x ltac:(set_solver)). specialize (IH ltac:(set_solver)). lia.
Qed.

Lemma sumZ_ext {A} (f g : A → Z) l : (∀ x, x ∈ l → f x = g x) → sumZ f l = sumZ g l.
Proof.
  induction l as [|x l IH]; intros H; simpl; [done|].
  rewrite (H x), IH by set_solver. done.
Qed.

Lemma sumZ_pos {A} (f : A → Z) l x : (∀ x, x ∈ l → 0 <= f x) → x ∈ l → 0 < f x → 0 < sumZ f l.
Proof.
  intros H Hx. apply list_elem_of_split in Hx as (l1 & l2 & ->). rewrite sumZ_app. simpl.
  pose proof (sumZ_nonneg f l1 ltac:(set_solver)). pose proof (sumZ_nonneg f l2 ltac:(set_solver)). lia.
Qed.

Lemma sumZ_prefix {A} (f : A → Z) l k : (∀ x, x ∈ l ++ k → 0 <= f x) →
  0 <= sumZ f l <= sumZ f (l ++ k).
Proof.
  intros H. rewrite sumZ_app. pose proof (sumZ_nonneg f l ltac:(set_solver)).
  pose proof (sumZ_nonneg f k ltac:(set_solver)). lia.
Qed.

#[export] Instance sumZ_perm {A} (f : A → Z) : Proper ((≡ₚ) ==> (=)) (sumZ f).
Proof. induction 1; simpl; lia. Qed.


Lemma sum64_run {A} (f : A → Res Z) (g : A → Z) l :
  (∀ x, x ∈ l → f x = Ok (g x)) → sum64 f l = Ok (u64 (sumZ g l)).
Proof.
  intros H. unfold sum64.
  destruct (foldR_spec (λ t x, rbind (f x) (λ v, Ok (u64 (t + v)))) (λ pre t, t = u64 (sumZ g pre)) l 0)
    as (t & -> & ->); [done| |done].
  intros pre x t [k Hpre] ->. rewrite H by (rewrite Hpre; set_solver).
  eexists. split; [done|]. rewrite sumZ_app. simpl. rewrite u64_add_l. f_equal. lia.
Qed.

(** ** What a profile says *)
Section spec.
Context {IO : IterOrder} (ir : IRProgram) (md : LLVMModule) (profile : ProfileInfo).

Notation functions := (m_functions md).
Notation declared := (isDeclaration md).
Notation insts_of := (function_instructions ir md).

(** the functions with a body *)
Definition defined_fun (F : Ptr) : Prop := F ∈ functions ∧ declared F = false.
Definition all_blocks : list Ptr := mjoin (m_blocks md <$> functions).

Definition bb_count (bb : Ptr) : Z := default 0 (getBlockProfileCount profile bb).
Definition fun_count (F : Ptr) : Z := match head (m_blocks md F) with Some b => bb_count b | None => 0 end.
Definition known_callee (i : Ptr) : option Ptr :=
  match getCalledFunction md i with
  | Some g => if declared g then None else Some g
  | None => None
  end.
Definition inst_count (i : Ptr) : Z :=
  let inv := bb_count (ir_blockOf ir i) in
  match m_call md i, known_callee i with
  | (CallInst _ | InvokeInst _), Some g => Z.min inv (fun_count g)
  | _, _ => inv
  end.

(** the instructions an instruction stands for: itself and its share of its callee's *)
Definition inst_cost (total : Ptr → Z) (i : Ptr) : Z :=
  if inst_count i =? 0 then 0
  else inst_count i + match known_callee i with
                      | Some g => total g / fun_count g * inst_count i
                      | None => 0
                      end.
Definition total_step (total : Ptr → Z) (F : Ptr) : Z :=
  if fun_count F =? 0 then 0 else sumZ (inst_cost total) (insts_of F).
Fixpoint total_at (n : nat) : Ptr → Z :=
  match n with O => λ _, 0 | S n => total_step (total_at n) end.

(** what llvm guarantees of a module; a callbr calls inline assembly *)
Record module_wf : Prop := {
  mw_functions : NoDup functions;
  mw_blocks : NoDup all_blocks;
  mw_block : ∀ F b, F ∈ functions → b ∈ m_blocks md F → ir_functionOf ir b = F ∧ ir_insts ir b ≠ [];
  mw_inst : ∀ F b i, F ∈ functions → b ∈ m_blocks md F → i ∈ ir_insts ir b → ir_blockOf ir i = b;
  mw_callee : ∀ F i g, F ∈ functions → i ∈ insts_of F → known_callee i = Some g → g ∈ functions;
  mw_callbr : ∀ F i c, F ∈ functions → i ∈ insts_of F → m_call md i = CallBrInst c → c = None;
  mw_uses : ∀ F c, F ∈ functions → c ∈ m_uses md F → isCallBase md c = true →
    ∃ G, G ∈ functions ∧ c ∈ insts_of G
}.

Context (rank : Ptr → nat).
Definition function_total (F : Ptr) : Z := total_at (S (rank F)) F.

(** the counts fit a double, an executed function executes an instruction, executed calls are
    not recursive, and the totals fit a double *)
Record profile_ok : Prop := {
  po_counts : ∀ b, b ∈ all_blocks → 0 <= bb_count b < 2 ^ 53;
  po_executes : ∀ F, defined_fun F → 0 < fun_count F → ∃ i, i ∈ insts_of F ∧ 0 < inst_count i;
  po_rank : ∀ F i g, defined_fun F → i ∈ insts_of F → 0 < inst_count i → known_callee i = Some g →
    (rank g < rank F)%nat;
  po_totals : ∀ F, defined_fun F → function_total F < 2 ^ 53
}.

Context (MW : module_wf) (PO : profile_ok).

Lemma elem_of_all_blocks b : b ∈ all_blocks ↔ ∃ F, defined_fun F ∧ b ∈ m_blocks md F.
Proof.
  unfold all_blocks, defined_fun, isDeclaration. rewrite list_elem_of_join. setoid_rewrite list_elem_of_fmap.
  split.
  - intros (? & Hb & F & -> & HF). exists F. repeat split; [done| |done]. destruct (m_blocks md F); set_solver.
  - intros (F & [HF _] & Hb). eauto.
Qed.

Lemma fun_count_in F : defined_fun F → ∃ b, head (m_blocks md F) = Some b ∧ b ∈ all_blocks ∧ fun_count F = bb_count b.
Proof.
  intros HF. pose proof HF as [HF1 HF2]. unfold fun_count. unfold isDeclaration in HF2.
  destruct (m_blocks md F) as [|b bs] eqn:Hb; [done|]. exists b. split; [done|]. split; [|done].
  apply elem_of_all_blocks. exists F. split; [done|]. rewrite Hb. set_solver.
Qed.

Lemma fun_count_bounds F : defined_fun F → 0 <= fun_count F < 2 ^ 53.
Proof. intros HF. destruct (fun_count_in F HF) as (b & _ & Hb & ->). by apply PO. Qed.

Lemma known_callee_defined F i g : defined_fun F → i ∈ insts_of F → known_callee i = Some g → defined_fun g.
Proof.
  intros [HF _] Hi Hg. split; [by eapply (mw_callee MW)|]. unfold known_callee in Hg.
  destruct (getCalledFunction md i) as [g'|]; [|done]. destruct (declared g') eqn:?; naive_solver.
Qed.

Lemma inst_block F i : defined_fun F → i ∈ insts_of F → ir_blockOf ir i ∈ all_blocks.
Proof.
  intros HF (b & Hb & Hi)%elem_of_function_instructions. rewrite (mw_inst MW F b i) by (done || apply HF).
  apply elem_of_all_blocks. eauto.
Qed.

Lemma inst_count_bounds F i : defined_fun F → i ∈ insts_of F → 0 <= inst_count i < 2 ^ 53.
Proof.
  intros HF Hi. pose proof (po_counts PO _ (inst_block F i HF Hi)) as Hb. unfold inst_count.
  destruct (known_callee i) as [g|] eqn:Hg; [|by destruct (m_call md i)].
  pose proof (fun_count_bounds g (known_callee_defined F i g HF Hi Hg)).
  destruct (m_call md i); lia.
Qed.

(** ** The totals of functions *)

Lemma total_step_ext t1 t2 F : defined_fun F →
  (∀ g, defined_fun g → (rank g < rank F)%nat → t1 g = t2 g) → total_step t1 F = total_step t2 F.
Proof.
  intros HF H. unfold total_step. destruct (fun_count F =? 0); [done|].
  apply sumZ_ext. intros i Hi. unfold inst_cost. destruct (Z.eqb_spec (inst_count i) 0); [done|].
  destruct (known_callee i) as [g|] eqn:Hg; [|done].
  pose proof (inst_count_bounds F i HF Hi). rewrite (H g); [done| |].
  - by eapply known_callee_defined.
  - apply (po_rank PO F i g); (done || lia).
Qed.

Lemma total_at_fuel n m F : defined_fun F → (rank F < n)%nat → (rank F < m)%nat → total_at n F = total_at m F.
Proof.
  revert m F. induction n as [|n IH]; intros m F HF Hn Hm; [lia|]. destruct m as [|m]; [lia|].
  simpl. apply total_step_ext; [done|]. intros g Hg Hlt. apply IH; [done|lia..].
Qed.

Lemma function_total_eq F : defined_fun F → function_total F = total_step function_total F.
Proof.
  intros HF. unfold function_total at 1. simpl. apply total_step_ext; [done|].
  intros g Hg Hlt. apply total_at_fuel; [done|lia..].
Qed.

Lemma total_nonneg_at n F : defined_fun F → 0 <= total_at n F.
Proof.
  revert F. induction n as [|n IH]; intros F HF; simpl; [lia|]. unfold total_step.
  destruct (fun_count F =? 0); [lia|]. apply sumZ_nonneg. intros i Hi. unfold inst_cost.
  pose proof (inst_count_bounds F i HF Hi). destruct (inst_count i =? 0); [lia|].
  destruct (known_callee i) as [g|] eqn:Hg; [|lia].
  pose proof (known_callee_defined F i g HF Hi Hg) as Hdg. pose proof (fun_count_bounds g Hdg).
  specialize (IH g Hdg). destruct (Z.eq_dec (fun_count g) 0) as [->|]; [rewrite Zdiv_0_r; lia|].
  pose proof (Z.div_pos (total_at n g) (fun_count g)). nia.
Qed.

Lemma inst_cost_nonneg F i : defined_fun F → i ∈ insts_of F → 0 <= inst_cost function_total i.
Proof.
  intros HF Hi. unfold inst_cost. pose proof (inst_count_bounds F i HF Hi).
  destruct (inst_count i =? 0); [lia|]. destruct (known_callee i) as [g|] eqn:Hg; [|lia].
  pose proof (known_callee_defined F i g HF Hi Hg) as Hdg. pose proof (fun_count_bounds g Hdg).
  pose proof (total_nonneg_at (S (rank g)) g Hdg) as Ht. fold (function_total g) in Ht.
  destruct (Z.eq_dec (fun_count g) 0) as [->|]; [rewrite Zdiv_0_r; lia|].
  pose proof (Z.div_pos (function_total g) (fun_count g)). nia.
Qed.

Lemma function_total_bounds F : defined_fun F → 0 <= function_total F < 2 ^ 53.
Proof. intros HF. split; [by apply total_nonneg_at|by apply PO]. Qed.

Lemma function_total_sum F : defined_fun F → 0 < fun_count F →
  function_total F = sumZ (inst_cost function_total) (insts_of F).
Proof.
  intros HF H. rewrite function_total_eq by done. unfold total_step.
  destruct (Z.eqb_spec (fun_count F) 0); [lia|done].
Qed.

Lemma function_total_pos F : defined_fun F → 0 < fun_count F → 0 < function_total F.
Proof.
  intros HF H. rewrite function_total_sum by done.
  destruct (po_executes PO F HF H) as (i & Hi & Hc). apply (sumZ_pos _ _ i); [|done|].
  - intros j Hj. by apply (inst_cost_nonneg F).
  - pose proof (inst_cost_nonneg F i HF Hi) as Hn. revert Hn. unfold inst_cost.
    destruct (Z.eqb_spec (inst_count i) 0); [lia|].
    destruct (known_callee i) as [g|] eqn:Hg; [|lia]. intros Hn.
    pose proof (known_callee_defined F i g HF Hi Hg) as Hdg. pose proof (function_total_bounds g Hdg).
    pose proof (fun_count_bounds g Hdg). destruct (Z.eq_dec (fun_count g) 0) as [->|]; [rewrite Zdiv_0_r; lia|].
    pose proof (Z.div_pos (function_total g) (fun_count g)). nia.
Qed.

(** ** Queries on the recorded counts *)

(** the counts of the profile are recorded *)
Definition counted (h : Hot) : Prop :=
  (∀ b, bbInvocations h !! b = if decide (b ∈ all_blocks) then Some (bb_count b) else None) ∧
  (∀ F, functionInvocations h !! F = if decide (defined_fun F) then Some (fun_count F) else None).

Lemma bb_invocations h b : counted h → b ∈ all_blocks → getInvocations_bb h (Some b) = Ok (bb_count b).
Proof. intros [H _] Hb. unfold getInvocations_bb, map_at. by rewrite H, decide_True. Qed.

Lemma function_invocations h F : counted h → defined_fun F → getInvocations_function h F = Ok (fun_count F).
Proof. intros [_ H] HF. unfold getInvocations_function, map_at. by rewrite H, decide_True. Qed.

Lemma function_executed h F : counted h → defined_fun F →
  hasBeenExecuted_function h F = Ok (negb (fun_count F =? 0)).
Proof. intros Hh HF. unfold hasBeenExecuted_function. by rewrite function_invocations. Qed.

Lemma inst_invocations h F i : counted h → defined_fun F → i ∈ insts_of F →
  getInvocations_inst ir md h i = Ok (inst_count i).
Proof.
  intros Hh HF Hi. unfold getInvocations_inst.
  rewrite bb_invocations by (done || by eapply inst_block). simpl.
  assert (∀ c, getCalledFunction md i = c →
    adjusted_invocations md h c (bb_count (ir_blockOf ir i)) =
    Ok match known_callee i with
       | Some g => Z.min (bb_count (ir_blockOf ir i)) (fun_count g)
       | None => bb_count (ir_blockOf ir i)
       end) as Hadj.
  { intros c Hc. pose proof (known_callee_defined F i) as Hk. unfold known_callee in *. rewrite Hc in *.
    destruct c as [g|]; [|done]. simpl. destruct (declared g); [done|].
    rewrite function_invocations by eauto. simpl.
    destruct (Z.ltb_spec (fun_count g) (bb_count (ir_blockOf ir i))).
    - rewrite Z.leb_refl, Z.min_r by lia. done.
    - rewrite (proj2 (Z.leb_le _ _)), Z.min_l by lia. done. }
  unfold inst_count. unfold getCalledFunction in Hadj.
  destruct (m_call md i) as [|c|c|c]; try (rewrite (Hadj c) by done);
    by destruct (known_callee i).
Qed.

Lemma inst_executed h F i : counted h → defined_fun F → i ∈ insts_of F →
  hasBeenExecuted_inst ir md h i = Ok (negb (inst_count i =? 0)).
Proof. intros. unfold hasBeenExecuted_inst. by erewrite inst_invocations. Qed.

(** a call that runs has a callee that runs at least as often *)
Lemma callee_count F i g : defined_fun F → i ∈ insts_of F → known_callee i = Some g →
  inst_count i <= fun_count g ∧ isCallBase md i = true ∧ getCalledFunction md i = Some g ∧ declared g = false.
Proof.
  intros HF Hi Hg. pose proof Hg as Hg'. unfold known_callee in Hg'.
  assert (getCalledFunction md i = Some g ∧ declared g = false) as [Hc Hd].
  { destruct (getCalledFunction md i) as [g'|]; [|done]. destruct (declared g') eqn:?; naive_solver. }
  split; [|split; [|done]]; unfold inst_count, isCallBase, getCalledFunction in *;
    destruct (m_call md i) as [|c|c|c] eqn:Hk; try done; try (rewrite Hg; lia).
  rewrite (mw_callbr MW F i c) in Hc; (done || apply HF).
Qed.

(** ** The evaluation of one function *)

(** what the evaluation of functions may change *)
Record frame (h h' : Hot) : Prop := {
  fr_bb : bbInvocations h' = bbInvocations h;
  fr_fun : functionInvocations h' = functionInvocations h;
  fr_self : functionSelfInstructions h' = functionSelfInstructions h;
  fr_inst : instructionTotalInstructions h' = instructionTotalInstructions h;
  fr_module : moduleNumberOfInstructionsExecuted h' = moduleNumberOfInstructionsExecuted h;
  fr_dom : dom (functionTotalInstructions h) ⊆ dom (functionTotalInstructions h')
}.

#[local] Instance frame_preorder : PreOrder frame.
Proof.
  split; [by split|]. intros h1 h2 h3 [? ? ? ? ? ?] [? ? ? ? ? ?]. split; [congruence..|set_solver].
Qed.

Lemma counted_frame h h' : frame h h' → counted h → counted h'.
Proof. intros [Hb Hf _ _ _ _] [H1 H2]. split; [by rewrite Hb|by rewrite Hf]. Qed.

Definition totals_ok (h : Hot) : Prop :=
  ∀ F t, defined_fun F → functionTotalInstructions h !! F = Some t → t = function_total F.
Definition available (h : Hot) (F : Ptr) : Prop := F ∈ dom (functionTotalInstructions h).

Lemma available_frame h h' F : frame h h' → available h F → available h' F.
Proof. intros [_ _ _ _ _ H]. apply H. Qed.

Lemma available_total h F : totals_ok h → defined_fun F → available h F →
  isFunctionTotalInstructionsAvailable h F = true ∧
  getTotalInstructions_function h F = Ok (function_total F).
Proof.
  intros Hh HF [t Ht]%elem_of_dom. unfold getTotalInstructions_function, isFunctionTotalInstructionsAvailable, map_at.
  rewrite Ht, bool_decide_true by eauto. by rewrite (Hh F t).
Qed.

Lemma set_total h F : totals_ok h →
  let h' := setFunctionTotalInstructions F (function_total F) h in
  frame h h' ∧ totals_ok h' ∧ available h' F.
Proof.
  intros Hh. split; [split; simpl; [done..|set_solver]|]. split; [|unfold available; simpl; set_solver].
  intros G t HG. simpl. rewrite lookup_insert_Some. naive_solver.
Qed.

(** functions whose evaluation has not begun *)
Definition marked (st : EvalStack) (F : Ptr) : Prop := st !! F = Some true.
Definition unmarked (st : EvalStack) : nat := length (filter (λ g, st !! g ≠ Some true) functions).
(** every marked function is evaluated, or it is being evaluated and cannot be called again *)
Definition in_progress (r : nat) (s : Hot * EvalStack) : Prop :=
  ∀ g, defined_fun g → marked s.2 g → available s.1 g ∨ (r ≤ rank g)%nat.
Definition extends (s s' : Hot * EvalStack) : Prop :=
  frame s.1 s'.1 ∧ (∀ g, marked s.2 g → marked s'.2 g) ∧
  (∀ g, defined_fun g → marked s'.2 g → marked s.2 g ∨ available s'.1 g).

Lemma unmarked_mono (st st' : EvalStack) : (∀ g, marked st g → marked st' g) → (unmarked st' ≤ unmarked st)%nat.
Proof. intros H. apply length_filter_mono. intros g _ Hg Hm. by apply Hg, H. Qed.

#[local] Instance extends_preorder : PreOrder extends.
Proof.
  split; [intros s; split; [reflexivity|auto]|]. intros s1 s2 s3 (F1 & M1 & A1) (F2 & M2 & A2).
  split; [by transitivity s2.1|]. split; [auto|]. intros g Hg H.
  destruct (A2 g Hg H) as [H2|]; [|auto]. destruct (A1 g Hg H2) as [|Ha]; [auto|].
  right. by eapply available_frame.
Qed.

Lemma in_progress_extends r s s' : extends s s' → in_progress r s → in_progress r s'.
Proof.
  intros (HF & _ & Ha) Hp g Hg Hm. destruct (Ha g Hg Hm) as [H|]; [|by left].
  destruct (Hp g Hg H); [left; by eapply available_frame|by right].
Qed.

Definition ready (r n : nat) (s : Hot * EvalStack) : Prop :=
  counted s.1 ∧ totals_ok s.1 ∧ in_progress r s ∧ (unmarked s.2 ≤ n)%nat.

Lemma ready_extends r n s s' : extends s s' → totals_ok s'.1 → ready r n s → ready r n s'.
Proof.
  intros He Ht (Hc & _ & Hp & Hu). split; [by eapply counted_frame; [apply He|]|]. split; [done|].
  split; [by eapply in_progress_extends|]. pose proof (unmarked_mono s.2 s'.2 (proj1 (proj2 He))). lia.
Qed.

Lemma on_ask_run {A} (f : Hot → Res A) a s : f s.1 = Ok a → on_hot (ask f) s = Ok (s, a).
Proof. destruct s as [h st]. unfold on_hot, zoom, ask. simpl. by intros ->. Qed.

Section count.
Context (n : nat) (F : Ptr) (evaluate : Ptr → M (Hot * EvalStack) unit) (HF : defined_fun F).
Context (Hev : ∀ g s, defined_fun g → (rank g < rank F)%nat → ¬ marked s.2 g → ready (S (rank g)) n s →
  wp (evaluate g) (λ _ s', extends s s' ∧ totals_ok s'.1 ∧ available s'.1 g) s).

(** the share of a callee that has been evaluated *)
Lemma share_spec t i g (s : Hot * EvalStack) : 0 <= t → t + inst_cost function_total i <= function_total F → i ∈ insts_of F →
  0 < inst_count i → known_callee i = Some g →
  wp (let* perInvocation := lift (calleeTotalInstsPerInvocation (function_total g) (fun_count g)) in
      ret (u64 (u64 (t + inst_count i) + u64 (perInvocation * inst_count i))))
     (λ (t' : Z) (s' : Hot * EvalStack), t' = t + inst_cost function_total i ∧ s' = s) s.
Proof.
  intros Ht Hle Hi Hpos Hg. pose proof (known_callee_defined F i g HF Hi Hg) as Hdg.
  destruct (callee_count F i g HF Hi Hg) as [Hc _].
  pose proof (fun_count_bounds g Hdg). pose proof (function_total_bounds g Hdg).
  pose proof (function_total_pos g Hdg ltac:(lia)). pose proof (function_total_bounds F HF).
  unfold calleeTotalInstsPerInvocation. rewrite truncated_quotient by lia.
  revert Hle. unfold inst_cost. destruct (Z.eqb_spec (inst_count i) 0); [lia|]. rewrite Hg. intros Hle.
  apply wp_bind, wp_lift. eexists. split; [done|]. apply wp_ret. split; [|done].
  pose proof (Z.div_pos (function_total g) (fun_count g) ltac:(lia) ltac:(lia)).
  rewrite u64_add_l, u64_add_r, u64_small by nia. lia.
Qed.

Lemma count_spec t i s : ready (rank F) n s → i ∈ insts_of F → 0 <= t →
  t + inst_cost function_total i <= function_total F →
  wp (countInstruction ir md evaluate t i)
     (λ t' s', t' = t + inst_cost function_total i ∧ extends s s' ∧ totals_ok s'.1) s.
Proof.
  intros Hr Hi Ht Hle. pose proof Hr as (Hc & Hok & Hp & Hu). unfold countInstruction.
  pose proof (inst_count_bounds F i HF Hi) as Hb. pose proof (function_total_bounds F HF) as HbF.
  eapply wp_bind_run; [by apply on_ask_run, (inst_executed _ F)|].
  destruct (Z.eqb_spec (inst_count i) 0) as [H0|H0]; simpl.
  { apply wp_ret. unfold inst_cost. rewrite (proj2 (Z.eqb_eq _ _) H0). split; [lia|]. by split. }
  eapply wp_bind_run; [by apply on_ask_run, (inst_invocations _ F)|].
  assert (known_callee i = None → u64 (t + inst_count i) = t + inst_cost function_total i) as Hsimple.
  { revert Hle. unfold inst_cost. rewrite (proj2 (Z.eqb_neq _ _) H0). intros Hle Hn. rewrite Hn in *.
    rewrite u64_small by lia. lia. }
  destruct (known_callee i) as [g|] eqn:Hg; [clear Hsimple|].
  2: { specialize (Hsimple eq_refl). rewrite Hsimple. destruct (isCallBase md i) eqn:Hcb; simpl; [|by apply wp_ret].
       unfold known_callee in Hg. destruct (getCalledFunction md i) as [g|]; [|by apply wp_ret].
       destruct (declared g); [by apply wp_ret|done]. }
  destruct (callee_count F i g HF Hi Hg) as (Hle2 & -> & -> & ->). simpl.
  pose proof (known_callee_defined F i g HF Hi Hg) as Hdg.
  eapply wp_bind_run; [by apply on_ask_run, function_executed|].
  apply wp_bind, wp_massert. split; [by rewrite (proj2 (Z.eqb_neq _ _)) by lia|].
  eapply wp_bind_run; [by apply on_ask_run, function_invocations|].
  apply wp_bind, wp_massert. split; [by apply Z.leb_le|].
  apply wp_bind, wp_gets. apply wp_bind.
  apply (wp_mono _ (λ v s', v = function_total g ∧ extends s s' ∧ totals_ok s'.1)).
  2: { intros v s' (-> & He & Hok'). apply wp_bind, wp_massert.
       split; [apply Z.ltb_lt, function_total_pos; (done || lia)|].
       eapply wp_mono; [by apply (share_spec t i g s'); (done || lia)|]. intros t' s'' [-> ->]. done. }
  destruct (decide (g ∈ dom (functionTotalInstructions s.1))) as [Ha|Ha].
  { destruct (available_total s.1 g Hok Hdg Ha) as [-> Hget].
    unfold wp. rewrite (on_ask_run _ _ _ Hget). by split. }
  unfold isFunctionTotalInstructionsAvailable. rewrite bool_decide_false by (by rewrite <- elem_of_dom).
  pose proof (po_rank PO F i g HF Hi ltac:(lia) Hg) as Hrk.
  assert (¬ marked s.2 g) as Hm. { intros Hm. destruct (Hp g Hdg Hm) as [|]; [done|lia]. }
  set (s1 := (s.1, <[g := false]> s.2)).
  assert (extends s s1) as He1.
  { unfold s1. split; [reflexivity|]. unfold marked in *. simpl.
    split; [|intros k _; rewrite lookup_insert_Some; naive_solver].
    intros k Hk. rewrite lookup_insert_Some. right. split; [|done]. intros ->. done. }
  eapply (wp_bind_run _ _ _ _ s1 false).
  { unfold evaluation_at. unfold marked in Hm. destruct (s.2 !! g) as [[]|]; naive_solver. }
  assert (¬ marked s1.2 g) as Hm1 by (unfold marked, s1; simpl; by rewrite lookup_insert_eq).
  apply wp_bind. eapply wp_mono.
  { apply (Hev g s1); [done|done|done|]. apply (ready_extends _ _ s); [done|done|].
    split; [done|]. split; [done|]. split; [|done]. intros k Hk Hmk. destruct (Hp k Hk Hmk); [by left|right; lia]. }
  intros [] s2 (He2 & Hok2 & Ha2). destruct (available_total s2.1 g Hok2 Hdg Ha2) as [Hav Hget].
  apply wp_bind, wp_gets. unfold isFunctionTotalInstructionsAvailable in Hav |- *. rewrite Hav. apply wp_bind, wp_massert. split; [done|].
  unfold wp. rewrite (on_ask_run _ _ _ Hget). split; [done|]. split; [by transitivity s1|done].
Qed.
End count.

Lemma extends_finish F s s' : extends (s.1, <[F := true]> s.2) s' → totals_ok s'.1 →
  let s'' := (setFunctionTotalInstructions F (function_total F) s'.1, s'.2) in
  extends s s'' ∧ totals_ok s''.1 ∧ available s''.1 F.
Proof.
  intros (Hf & Hm & Ha) Hok. destruct (set_total s'.1 F Hok) as (Hf2 & Hok2 & Ha2). simpl in *.
  split; [|done]. split; [by transitivity s'.1|]. unfold marked in *. simpl in *. split.
  - intros g Hg. apply Hm. rewrite lookup_insert_Some. destruct (decide (F = g)); auto.
  - intros g Hdg Hg. destruct (Ha g Hdg Hg) as [H|H]; [|right; by eapply available_frame].
    apply lookup_insert_Some in H as [[<- _]|[_ H]]; auto.
Qed.

Lemma evaluate_spec fuel F s : defined_fun F → ¬ marked s.2 F → ready (S (rank F)) fuel s →
  wp (computeTotalInstructions_function ir md fuel F)
     (λ _ s', extends s s' ∧ totals_ok s'.1 ∧ available s'.1 F) s.
Proof.
  revert F s. induction fuel as [|fuel IH]; intros F s HF Hm (Hc & Hok & Hp & Hu).
  { exfalso. unfold unmarked in Hu. apply Nat.le_0_r, length_zero_iff_nil in Hu.
    assert (F ∈ filter (λ g, s.2 !! g ≠ Some true) functions) as H.
    { apply list_elem_of_filter. split; [done|apply HF]. }
    rewrite Hu in H. set_solver. }
  cbn [computeTotalInstructions_function]. set (s1 := (s.1, <[F := true]> s.2)).
  eapply (wp_bind_run _ _ _ _ s1); [done|].
  eapply wp_bind_run; [by apply on_ask_run, function_executed|].
  destruct (Z.eqb_spec (fun_count F) 0) as [H0|H0]; simpl.
  { assert (function_total F = 0) as Ht.
    { rewrite function_total_eq by done. unfold total_step. by rewrite (proj2 (Z.eqb_eq _ _)). }
    rewrite <- Ht. apply wp_zoom, wp_modify. by apply (extends_finish F s s1). }
  assert (ready (rank F) fuel s1) as Hr1.
  { split; [done|]. split; [done|]. split.
    - intros g Hg. unfold marked, s1. simpl. rewrite lookup_insert_Some. intros [[-> _]|[Hne H]]; [by right|].
      destruct (Hp g Hg H); [by left|right; lia].
    - assert (unmarked s1.2 < unmarked s.2)%nat; [|lia].
      apply (length_filter_lt _ _ _ F); [|apply HF|done|].
      + intros g _. unfold s1. simpl. rewrite lookup_insert_Some. intros Hg Hg'. apply Hg.
        destruct (decide (F = g)); auto.
      + unfold s1. simpl. rewrite lookup_insert_eq. auto. }
  apply wp_bind. eapply wp_mono.
  - apply (wp_foldM _ (λ pre _ t s', t = sumZ (inst_cost function_total) pre ∧ extends s1 s' ∧ totals_ok s'.1)).
    { split; [done|]. split; [reflexivity|done]. }
    intros pre i post t s' Hl (-> & He & Hok').
    assert (∀ x, x ∈ (pre ++ [i]) ++ post → 0 <= inst_cost function_total x) as Hnn.
    { intros x Hx. apply (inst_cost_nonneg F); [done|]. rewrite Hl. by rewrite <- (assoc_L (++)) in Hx. }
    pose proof (sumZ_prefix (inst_cost function_total) (pre ++ [i]) post Hnn) as Hpre.
    rewrite <- (assoc_L (++) pre [i] post) in Hpre. cbn [app] in Hpre. rewrite <- Hl in Hpre.
    pose proof (fun_count_bounds F HF).
    rewrite <- function_total_sum in Hpre by (done || lia). rewrite sumZ_app in Hpre |- *. simpl in Hpre |- *.
    pose proof (sumZ_nonneg (inst_cost function_total) pre ltac:(intros; apply Hnn; set_solver)).
    eapply wp_mono; [apply (count_spec fuel F)|]; [done| | | |done| |].
    + intros g s0 Hg _ Hmg Hrg. by apply IH.
    + by apply (ready_extends _ _ s1).
    + rewrite Hl. set_solver.
    + lia.
    + intros t' s'' (-> & He' & Hok''). split; [lia|]. split; [by transitivity s'|done].
  - intros t s' (-> & He & Hok'). pose proof (fun_count_bounds F HF).
    rewrite <- function_total_sum by (done || lia).
    apply wp_zoom, wp_modify. by apply extends_finish.
Qed.

(** ** The evaluation of every function *)

Lemma declared_or_defined F : F ∈ functions → declared F = true ∨ defined_fun F.
Proof. intros HF. unfold defined_fun. destruct (declared F); auto. Qed.

Lemma evaluateFunction_spec F h : defined_fun F → counted h → totals_ok h →
  wp (evaluateFunction ir md F) (λ _ h', frame h h' ∧ totals_ok h' ∧ available h' F) h.
Proof.
  intros HF Hc Hok. unfold evaluateFunction. rewrite (proj2 HF).
  assert (wp (computeTotalInstructions_function ir md (length functions) F)
     (λ _ s', extends (h, ∅) s' ∧ totals_ok s'.1 ∧ available s'.1 F) (h, ∅)) as H.
  { apply evaluate_spec; [done|unfold marked; simpl; by rewrite lookup_empty|].
    split; [done|]. split; [done|]. split; [|apply length_filter].
    intros g Hg. unfold marked. simpl. by rewrite lookup_empty. }
  apply wp_ok in H as ([h' st] & [] & Hrun & (Hf & _) & ? & ?). unfold wp. by rewrite Hrun.
Qed.

Lemma evaluateAll_spec h : counted h → totals_ok h →
  wp (forM (evaluateFunction ir md) functions)
     (λ _ h', frame h h' ∧ totals_ok h' ∧ ∀ F, defined_fun F → available h' F) h.
Proof.
  intros Hc Hok. eapply wp_mono.
  { apply (wp_forM _ (λ pre _ h', frame h h' ∧ totals_ok h' ∧
      ∀ F, F ∈ pre → defined_fun F → available h' F)).
    - split; [reflexivity|]. split; [done|set_solver].
    - intros pre F post h1 Hl (Hf & Hok1 & Hav).
      destruct (declared_or_defined F) as [Hd|HF]; [rewrite Hl; set_solver| |].
      + unfold evaluateFunction. rewrite Hd. apply wp_ret. split; [done|]. split; [done|].
        intros G [HG| ->]%elem_of_snoc HdG; [by apply Hav|]. destruct HdG. congruence.
      + eapply wp_mono; [apply evaluateFunction_spec; [done|by eapply counted_frame|done]|].
        intros [] h2 (Hf2 & Hok2 & Ha). split; [by transitivity h1|]. split; [done|].
        intros G [HG| ->]%elem_of_snoc HdG; [|done]. eapply available_frame; [done|auto]. }
  intros [] h' (Hf & Hok' & Hav). split; [done|]. split; [done|]. intros F HF. apply Hav; [apply HF|done].
Qed.

(** ** Recording the counts *)

(** the counts of the blocks done are recorded, and nothing else *)
Definition recorded (done : list Ptr) (h : Hot) : Prop :=
  (∀ b, bbInvocations h !! b = if decide (b ∈ done) then Some (bb_count b) else None) ∧
  (∀ F v, functionInvocations h !! F = Some v ↔
     F ∈ functions ∧ v = fun_count F ∧ ∃ b, head (m_blocks md F) = Some b ∧ b ∈ done).
Definition fresh (h : Hot) : Prop :=
  functionSelfInstructions h = ∅ ∧ functionTotalInstructions h = ∅ ∧
  instructionTotalInstructions h = ∅ ∧ moduleNumberOfInstructionsExecuted h = 0.

Lemma setBasicBlock_spec done b h : b ∈ all_blocks → recorded done h → fresh h →
  wp (setBasicBlockInvocations ir md b (bb_count b)) (λ _ h', recorded (done ++ [b]) h' ∧ fresh h') h.
Proof.
  intros (F & HF & Hb)%elem_of_all_blocks [H1 H2] Hfr. unfold setBasicBlockInvocations.
  destruct (mw_block MW F b (proj1 HF) Hb) as [-> _].
  destruct (fun_count_in F HF) as (e & He & _ & Hcnt). rewrite He.
  apply wp_bind, wp_deref. exists e. split; [done|]. apply wp_modify. split; [|done]. split; simpl.
  - intros b'. destruct (decide (b' = b)) as [->|Hne].
    + rewrite lookup_insert_eq. case_decide as Hin; [done|]. destruct Hin. apply elem_of_snoc. auto.
    + rewrite lookup_insert_ne, H1 by done. apply decide_ext. rewrite elem_of_snoc. tauto.
  - intros G v. setoid_rewrite elem_of_snoc. case_bool_decide as Heb.
    + subst e. rewrite lookup_insert_Some, H2. split.
      * intros [[<- <-]|(Hne & HG & -> & b' & ? & ?)]; [split; [apply HF|]; eauto|]. eauto 10.
      * intros (HG & -> & b' & Hb' & [Hd| ->]).
        { destruct (decide (F = G)) as [<-|]; [left; split; congruence|eauto 10]. }
        left. assert (b ∈ m_blocks md G) as HbG by (destruct (m_blocks md G); naive_solver set_solver).
        destruct (mw_block MW G b HG HbG) as [HfG _]. destruct (mw_block MW F b (proj1 HF) Hb) as [HfF _].
        split; congruence.
    + rewrite H2. split; [naive_solver|]. intros (HG & -> & b' & Hb' & [Hd| ->]); [naive_solver|].
      assert (b ∈ m_blocks md G) as HbG by (destruct (m_blocks md G); naive_solver set_solver).
      destruct (mw_block MW G b HG HbG) as [HfG _]. destruct (mw_block MW F b (proj1 HF) Hb) as [HfF _].
      assert (F = G) by congruence. naive_solver.
Qed.

Lemma analyzeBlock_spec done b h : b ∈ all_blocks → recorded done h → fresh h →
  wp (analyzeBlock ir md profile b) (λ _ h', recorded (done ++ [b]) h' ∧ fresh h') h.
Proof.
  intros Hb Hrec Hfr. pose proof (setBasicBlock_spec done b h Hb Hrec Hfr) as H.
  unfold analyzeBlock, bb_count in *. destruct (getBlockProfileCount profile b) as [v|]; [|done].
  apply wp_bind. eapply wp_mono; [exact H|]. intros [] h' Hh'. apply wp_forM_inv; [done|].
  intros succ h2 _ Hh2. destruct (getEdgeProbability profile b succ) as [[num den]|]; [|by apply wp_ret].
  by apply wp_modify.
Qed.

Lemma recorded_all h : recorded all_blocks h → counted h.
Proof.
  intros [H1 H2]. split; [done|]. intros F. destruct (decide (defined_fun F)) as [HF|HF].
  - apply H2. split; [apply HF|]. split; [done|]. destruct (fun_count_in F HF) as (b & ? & ? & _). eauto.
  - destruct (functionInvocations h !! F) as [v|] eqn:Hv; [|done].
    apply H2 in Hv as (HF1 & _ & b & Hb & _). destruct HF. split; [done|]. unfold isDeclaration.
    destruct (m_blocks md F); done.
Qed.

Lemma analyzeBlocks_spec :
  wp (forM (λ F, forM (analyzeBlock ir md profile) (m_blocks md F)) functions)
     (λ _ h, counted h ∧ fresh h) Hot_empty.
Proof.
  unfold wp. rewrite forM_join. fold all_blocks. fold (wp (forM (analyzeBlock ir md profile) all_blocks)
     (λ _ h, counted h ∧ fresh h) Hot_empty).
  eapply wp_mono; [apply (wp_forM _ (λ pre _ h, recorded pre h ∧ fresh h))|].
  - split; [|done]. split; simpl; [intros b; by rewrite lookup_empty|].
    intros F v. rewrite lookup_empty. split; [done|]. intros (_ & _ & b & _ & ?). set_solver.
  - intros pre b post h Hl [? ?]. apply analyzeBlock_spec; [rewrite Hl; set_solver|done..].
  - intros [] h [H ?]. split; [by apply recorded_all|done].
Qed.

(** ** Self instructions *)

Definition self_count (F : Ptr) : Z := sumZ (λ b, bb_count b * Z.of_nat (length (ir_insts ir b))) (m_blocks md F).
Definition module_count : Z := sumZ (λ b, bb_count b * Z.of_nat (length (ir_insts ir b))) all_blocks.

Lemma static_instructions b : b ∈ all_blocks →
  getStaticInstructions_bb ir b = Ok (Z.of_nat (length (ir_insts ir b))).
Proof.
  intros (F & [HF _] & Hb)%elem_of_all_blocks. destruct (mw_block MW F b HF Hb) as [_ Hne].
  unfold getStaticInstructions_bb. destruct (ir_insts ir b); [done|]. by rewrite (proj2 (Z.ltb_lt _ _)) by (simpl; lia).
Qed.

Lemma self_instructions h F : counted h → defined_fun F →
  sum64 (getSelfInstructions_bb ir h) (m_blocks md F) = Ok (u64 (self_count F)).
Proof.
  intros Hc HF. set (f := λ b, u64 (bb_count b * Z.of_nat (length (ir_insts ir b)))).
  rewrite (sum64_run _ f).
  - f_equal. unfold self_count. induction (m_blocks md F) as [|b l IH]; [done|]. simpl. unfold f at 1.
    rewrite u64_add_l, <- u64_add_r, IH, u64_add_r. done.
  - intros b Hb. assert (b ∈ all_blocks) as Hin by (apply elem_of_all_blocks; eauto).
    unfold getSelfInstructions_bb. rewrite bb_invocations by done. simpl.
    by rewrite static_instructions by done.
Qed.

(** what the sums change *)
Definition summing (h h' : Hot) : Prop :=
  bbInvocations h' = bbInvocations h ∧ functionInvocations h' = functionInvocations h ∧
  functionTotalInstructions h' = functionTotalInstructions h ∧
  instructionTotalInstructions h' = instructionTotalInstructions h.

Lemma counted_summing h h' : summing h h' → counted h → counted h'.
Proof. intros (Hb & Hf & _) [H1 H2]. split; [by rewrite Hb|by rewrite Hf]. Qed.

Lemma ask_run {A} (f : Hot → Res A) a h : f h = Ok a → ask f h = Ok (h, a).
Proof. unfold ask. by intros ->. Qed.

Lemma module_sum_spec h : counted h → fresh h →
  wp (forM (addBlockToModule ir) (visit (dom (bbInvocations h))))
     (λ _ h', summing h h' ∧ functionSelfInstructions h' = ∅ ∧
              moduleNumberOfInstructionsExecuted h' = u64 module_count) h.
Proof.
  intros Hc (Hs & _ & _ & Hm).
  assert (visit (dom (bbInvocations h)) ≡ₚ all_blocks) as Hperm.
  { apply NoDup_Permutation; [apply NoDup_visit|apply MW|]. intros b. rewrite elem_of_visit, elem_of_dom.
    rewrite (proj1 Hc). case_decide; naive_solver. }
  set (f := λ b, bb_count b * Z.of_nat (length (ir_insts ir b))).
  eapply wp_mono; [apply (wp_forM _ (λ pre _ h', summing h h' ∧ functionSelfInstructions h' = ∅ ∧
              moduleNumberOfInstructionsExecuted h' = u64 (sumZ f pre)))|].
  - by rewrite Hm.
  - intros pre b post h1 Hl (Hf & Hs1 & Hm1).
    assert (b ∈ all_blocks) as Hb by (rewrite <- Hperm, Hl; set_solver).
    unfold addBlockToModule.
    eapply wp_bind_run; [apply ask_run, bb_invocations; [by eapply counted_summing|done]|].
    apply wp_bind, wp_lift. exists (Z.of_nat (length (ir_insts ir b))).
    split; [by apply static_instructions|]. apply wp_modify. split; [done|]. split; [done|]. simpl.
    rewrite Hm1, u64_add_l, u64_add_r, sumZ_app. simpl. by rewrite Z.add_0_r.
  - intros [] h' (Hf & Hs1 & Hm1). split; [done|]. split; [done|]. by rewrite Hm1, Hperm.
Qed.

Lemma self_sum_spec h : counted h → functionSelfInstructions h = ∅ →
  wp (forM (computeSelfInstructions ir md) (visit (dom (functionInvocations h))))
     (λ _ h', summing h h' ∧ moduleNumberOfInstructionsExecuted h' = moduleNumberOfInstructionsExecuted h ∧
       ∀ F, defined_fun F → getSelfInstructions_function h' F = Ok (u64 (self_count F))) h.
Proof.
  intros Hc _. assert (∀ F, F ∈ dom (functionInvocations h) ↔ defined_fun F) as Hdom.
  { intros F. rewrite elem_of_dom, (proj2 Hc). case_decide; naive_solver. }
  eapply wp_mono; [apply (wp_forM _ (λ pre _ h', summing h h' ∧
      moduleNumberOfInstructionsExecuted h' = moduleNumberOfInstructionsExecuted h ∧
      ∀ F, F ∈ pre → getSelfInstructions_function h' F = Ok (u64 (self_count F))))|].
  - split; [done|]. split; [done|set_solver].
  - intros pre F post h1 Hl (Hf & Hm & Hs).
    assert (defined_fun F) as HF by (apply Hdom; rewrite <- elem_of_visit, Hl; set_solver).
    unfold computeSelfInstructions.
    eapply wp_bind_run; [apply ask_run, self_instructions; [by eapply counted_summing|done]|].
    apply wp_modify. split; [done|]. split; [done|]. intros G HG. unfold getSelfInstructions_function, map_at in *.
    simpl. destruct (decide (F = G)) as [<-|Hne]; [by rewrite lookup_insert_eq|].
    rewrite lookup_insert_ne by done. apply Hs. apply elem_of_snoc in HG as [|]; congruence.
  - intros [] h' (Hf & Hm & Hs). split; [done|]. split; [done|]. intros F HF. apply Hs.
    by rewrite elem_of_visit, Hdom.
Qed.

(** ** The calls of a function *)

Definition calls (F : Ptr) : list Ptr := filter (λ c, isCallBase md c = true) (m_uses md F).
Definition executed (c : Ptr) : Prop := inst_count c ≠ 0.
#[export] Instance executed_dec c : Decision (executed c) := _.
Definition per_invocation (F : Ptr) : Z := function_total F / fun_count F.
(** what is left after some calls took their share, and the total of one of them *)
Definition left_over (F : Ptr) (cs : list Ptr) : Z :=
  u64 (function_total F - sumZ (λ c, per_invocation F * inst_count c) cs).
Definition call_share (F c : Ptr) : Z := u64 (per_invocation F * inst_count c + 1).

Definition counts_same (h h' : Hot) : Prop :=
  bbInvocations h' = bbInvocations h ∧ functionInvocations h' = functionInvocations h ∧
  functionSelfInstructions h' = functionSelfInstructions h ∧
  functionTotalInstructions h' = functionTotalInstructions h ∧
  moduleNumberOfInstructionsExecuted h' = moduleNumberOfInstructionsExecuted h.

Lemma counted_same h h' : counts_same h h' → counted h → counted h'.
Proof. intros (Hb & Hf & _) [H1 H2]. split; [by rewrite Hb|by rewrite Hf]. Qed.

Lemma call_owner F c : F ∈ functions → c ∈ calls F → ∃ G, defined_fun G ∧ c ∈ insts_of G.
Proof.
  intros HF [Hcb Hc]%list_elem_of_filter. destruct (mw_uses MW F c HF Hc Hcb) as (G & HG & Hi).
  exists G. split; [|done]. split; [done|]. unfold isDeclaration.
  apply elem_of_function_instructions in Hi as (b & Hb & _). destruct (m_blocks md G); [set_solver|done].
Qed.

(** after the loop over [us] of the users of [F]; [m] are the totals before it *)
Definition distributed_to (F : Ptr) (us : list Ptr) (m : gmap Ptr Z) (st : option Ptr * Z) (h : Hot) : Prop :=
  let cs := filter (λ c, isCallBase md c = true) us in
  st = (last cs, left_over F cs) ∧
  ∀ c, instructionTotalInstructions h !! c =
    if decide (c ∈ cs ∧ executed c) then Some (call_share F c) else m !! c.

Lemma distributeToUser_spec F pre u m st h h0 : defined_fun F → u ∈ m_uses md F → counted h0 →
  counts_same h0 h → distributed_to F pre m st h →
  wp (distributeToUser ir md (per_invocation F) st u)
     (λ st' h', counts_same h0 h' ∧ distributed_to F (pre ++ [u]) m st' h') h.
Proof.
  intros HF Hu Hc Hs [-> Hm]. unfold distributeToUser, distributed_to. rewrite filter_app, filter_cons, filter_nil.
  set (cs := filter (λ c, isCallBase md c = true) pre) in *.
  destruct (isCallBase md u) eqn:Hcb; simpl; [|apply wp_ret; rewrite app_nil_r; done].
  destruct (call_owner F u (proj1 HF)) as (G & HG & Hi).
  { apply list_elem_of_filter. done. }
  assert (∀ v, left_over F cs - per_invocation F * inst_count u = v → u64 v = left_over F (cs ++ [u])) as Hleft.
  { intros v <-. unfold left_over. rewrite sumZ_app. simpl. rewrite <- Z.add_opp_r, u64_add_l. f_equal. lia. }
  eapply wp_bind_run; [apply ask_run, (inst_executed _ G); [by eapply counted_same|done..]|].
  destruct (Z.eqb_spec (inst_count u) 0) as [H0|H0]; simpl.
  { apply wp_ret. split; [done|]. rewrite last_snoc. split.
    - f_equal. rewrite <- (Hleft (left_over F cs)) by (rewrite H0; lia). symmetry. apply Z.mod_mod. lia.
    - intros c. rewrite Hm. apply decide_ext. rewrite elem_of_snoc. unfold executed. naive_solver. }
  eapply wp_bind_run; [apply ask_run, (inst_invocations _ G); [by eapply counted_same|done..]|].
  apply wp_bind, wp_modify, wp_ret. split; [done|]. rewrite last_snoc. split.
  - f_equal. simpl. rewrite <- (Hleft _ eq_refl). unfold left_over.
    rewrite <- Z.add_opp_r, u64_add_l, <- (Z.add_opp_r (u64 _)), u64_add_l.
    unfold u64. rewrite !Z.add_opp_r, Zminus_mod_idemp_r. done.
  - intros c. simpl. destruct (decide (c = u)) as [->|Hne].
    + rewrite lookup_insert_eq. case_decide as Hin; [by rewrite u64_add_l|].
      destruct Hin. rewrite elem_of_snoc. auto.
    + rewrite lookup_insert_ne, Hm by done. apply decide_ext. rewrite elem_of_snoc. tauto.
Qed.

(** the totals of the calls once [F] is done *)
Definition call_total (F : Ptr) (m : gmap Ptr Z) (c : Ptr) : option Z :=
  let base := if decide (c ∈ calls F ∧ executed c) then Some (call_share F c) else m !! c in
  if decide (last (calls F) = Some c ∧ 0 < left_over F (calls F))
  then Some (u64 (default 0 base + left_over F (calls F))) else base.

Lemma distributeTotal_spec F h : defined_fun F → 0 < fun_count F → counted h → totals_ok h → available h F →
  wp (distributeTotal ir md F) (λ _ h', counts_same h h' ∧
     ∀ c, instructionTotalInstructions h' !! c = call_total F (instructionTotalInstructions h) c) h.
Proof.
  intros HF Hpos Hc Hok Ha. unfold distributeTotal. rewrite (proj2 HF).
  eapply wp_bind_run; [by apply ask_run, function_executed|].
  rewrite (proj2 (Z.eqb_neq _ _)) by lia. simpl.
  destruct (available_total h F Hok HF Ha) as [Hav Hget]. apply wp_bind, wp_gets. rewrite Hav.
  apply wp_bind, wp_massert. split; [done|].
  eapply wp_bind_run; [by apply ask_run|]. eapply wp_bind_run; [by apply ask_run, function_invocations|].
  apply wp_bind. fold (per_invocation F). eapply wp_mono.
  { apply (wp_foldM _ (λ pre _ st h', counts_same h h' ∧
      distributed_to F pre (instructionTotalInstructions h) st h')).
    - split; [done|]. split; [|done]. f_equal. unfold left_over. simpl.
      pose proof (function_total_bounds F HF). rewrite u64_small by lia. lia.
    - intros pre u post st h' Hl [Hs Hd]. eapply distributeToUser_spec; [done| |done..]. rewrite Hl. set_solver. }
  intros st h' [Hs [-> Hm]]. fold (calls F) in *. cbv beta iota.
  unfold call_total. destruct (last (calls F)) as [l|] eqn:Hl.
  2: { apply wp_ret. split; [done|]. intros c. rewrite Hm. rewrite (decide_False (P := _ ∧ 0 < _)) by naive_solver. done. }
  destruct (Z.ltb_spec 0 (left_over F (calls F))) as [Hlt|Hge].
  - apply wp_modify. split; [done|]. intros c. simpl. destruct (decide (c = l)) as [->|Hne].
    + rewrite lookup_insert_eq, Hm. rewrite (decide_True (P := Some l = Some l ∧ _)) by done. done.
    + rewrite lookup_insert_ne, Hm by done. rewrite (decide_False (P := Some l = Some c ∧ _)) by naive_solver. done.
  - apply wp_ret. split; [done|]. intros c. rewrite Hm.
    rewrite (decide_False (P := Some l = Some c ∧ _)) by lia. done.
Qed.

(** every user of a function that is a call calls that function *)
Definition direct_calls : Prop := ∀ F c, defined_fun F → c ∈ calls F → known_callee c = Some F.
Definition settled (F : Ptr) (h : Hot) : Prop :=
  ∃ m, ∀ c, c ∈ calls F → instructionTotalInstructions h !! c = call_total F m c.

Lemma call_total_other F m c : c ∉ calls F → call_total F m c = m !! c.
Proof.
  intros Hc. unfold call_total. rewrite (decide_False (P := c ∈ calls F ∧ _)) by tauto.
  rewrite decide_False; [done|]. intros [Hl%last_Some_elem_of _]. done.
Qed.

Lemma distributeAll_spec h : counted h → totals_ok h → (∀ F, defined_fun F → available h F) →
  wp (forM (distributeTotal ir md) functions)
     (λ _ h', counts_same h h' ∧
        (direct_calls → ∀ F, defined_fun F → 0 < fun_count F → settled F h')) h.
Proof.
  intros Hc Hok Hav. eapply wp_mono.
  { apply (wp_forM _ (λ pre _ h', counts_same h h' ∧
      (direct_calls → ∀ F, F ∈ pre → defined_fun F → 0 < fun_count F → settled F h'))).
    - split; [done|set_solver].
    - intros pre F post h1 Hl [Hs Hset].
      assert (totals_ok h1) as Hok1 by (unfold totals_ok; by rewrite (proj1 (proj2 (proj2 (proj2 Hs))))).
      assert (F ∉ pre) as HFpre.
      { pose proof (mw_functions MW) as Hnd. rewrite Hl in Hnd. apply NoDup_app in Hnd as (_ & Hnd & _).
        intros HF. apply (Hnd F HF). set_solver. }
      assert (∀ G, G ∈ pre ++ [F] → ¬ (defined_fun F ∧ 0 < fun_count F) → defined_fun G → 0 < fun_count G → G ∈ pre)
        as Hskip. { intros G [?| ->]%elem_of_snoc; tauto. }
      destruct (declared_or_defined F) as [Hd|HF]; [rewrite Hl; set_solver| |].
      { unfold distributeTotal. rewrite Hd. apply wp_ret. split; [done|]. intros Hdir G HG HdG Hpos.
        apply Hset; [done| |done..]. apply Hskip; try done. intros [[_ ?] _]. congruence. }
      destruct (decide (0 < fun_count F)) as [Hpos|Hz].
      2: { unfold distributeTotal. rewrite (proj2 HF).
           eapply wp_bind_run; [apply ask_run, function_executed; [by eapply counted_same|done]|].
           pose proof (fun_count_bounds F HF). rewrite (proj2 (Z.eqb_eq _ _)) by lia. apply wp_ret.
           split; [done|]. intros Hdir G HG HdG HposG. apply Hset; [done| |done..]. apply Hskip; tauto. }
      eapply wp_mono.
      { apply distributeTotal_spec; [done..|by eapply counted_same|done|].
        unfold available. rewrite (proj1 (proj2 (proj2 (proj2 Hs)))). by apply Hav. }
      intros [] h2 [Hs2 Hm2]. split; [unfold counts_same in *; naive_solver congruence|].
      intros Hdir G [HG| ->]%elem_of_snoc HdG HposG; [|by exists (instructionTotalInstructions h1)].
      destruct (Hset Hdir G HG HdG HposG) as [m Hm]. exists m. intros c HcG. rewrite Hm2.
      rewrite call_total_other; [by apply Hm|]. intros HcF.
      pose proof (Hdir F c HF HcF). pose proof (Hdir G c HdG HcG). congruence. }
  intros [] h' [Hs Hset]. split; [done|]. intros Hdir F HF. apply Hset; [done|apply HF|done].
Qed.

(** the calls run at most as often as the function, and the last one runs *)
Definition shares_fit (F : Ptr) : Prop :=
  NoDup (calls F) ∧ sumZ inst_count (calls F) <= fun_count F ∧
  ∃ c, last (calls F) = Some c ∧ executed c.

Lemma sumZ_executed (f : Ptr → Z) cs : (∀ c, inst_count c = 0 → f c = 0) →
  sumZ (λ c, f c + 1) (filter executed cs) = sumZ f cs + Z.of_nat (length (filter executed cs)).
Proof.
  intros Hf. induction cs as [|c cs IH]; [done|]. rewrite filter_cons. case_decide as Hc; simpl.
  - rewrite IH. lia.
  - rewrite IH, (Hf c); [lia|]. destruct (Z.eq_dec (inst_count c) 0); [done|by destruct Hc].
Qed.

Lemma settled_sum F h : defined_fun F → 0 < fun_count F → shares_fit F → settled F h →
  sumZ (λ c, default 0 (instructionTotalInstructions h !! c)) (filter executed (calls F)) =
  function_total F + Z.of_nat (length (filter executed (calls F))).
Proof.
  intros HF Hpos (Hnd & Hsum & l & Hl & Hel) [m Hm].
  pose proof (function_total_bounds F HF) as Ht. set (p := per_invocation F).
  assert (0 <= p ∧ p * fun_count F <= function_total F) as [Hp0 Hp].
  { unfold p, per_invocation. split; [apply Z.div_pos; lia|]. rewrite Z.mul_comm. apply Z.mul_div_le. lia. }
  assert (∀ c, c ∈ calls F → 0 <= inst_count c) as Hnn.
  { intros c Hc. destruct (call_owner F c (proj1 HF) Hc) as (G & HG & Hi).
    pose proof (inst_count_bounds G c HG Hi). lia. }
  assert (∀ cs, sumZ (λ c, p * inst_count c) cs = p * sumZ inst_count cs) as Hscale.
  { induction cs as [|c cs IH]; simpl; [lia|]. rewrite IH. lia. }
  pose proof (sumZ_nonneg inst_count (calls F) Hnn) as Hs0.
  assert (left_over F (calls F) = function_total F - p * sumZ inst_count (calls F)) as Hleft.
  { unfold left_over. fold p. rewrite Hscale, u64_small by nia. done. }
  assert (∀ c, c ∈ calls F → 0 <= p * inst_count c <= function_total F) as Hshare.
  { intros c Hc. pose proof (Hnn c Hc). apply list_elem_of_split in Hc as (l1 & l2 & Hc). rewrite Hc in Hnn, Hsum.
    rewrite sumZ_app in Hsum. simpl in Hsum. pose proof (sumZ_nonneg inst_count l1 ltac:(set_solver)).
    pose proof (sumZ_nonneg inst_count l2 ltac:(set_solver)). nia. }
  apply last_Some in Hl as [k Hk]. rewrite Hk in Hnd. apply NoDup_app in Hnd as (_ & Hnd & _).
  rewrite Hk at 1 2. rewrite filter_app, filter_cons_True, filter_nil by done.
  rewrite length_app, sumZ_app. cbn [sumZ foldr length].
  transitivity (sumZ (λ c, p * inst_count c + 1) (filter executed k) +
    (p * inst_count l + 1 + left_over F (calls F) + 0)).
  - f_equal; [apply sumZ_ext; intros c [Hec Hc]%list_elem_of_filter|do 1 f_equal].
    + assert (c ∈ calls F) as Hcc by (rewrite Hk; set_solver). rewrite Hm by done. unfold call_total.
      rewrite decide_False.
      2: { intros [Hlc _]. rewrite Hk, last_snoc in Hlc. injection Hlc as ->. apply (Hnd c Hc). set_solver. }
      rewrite decide_True by done. simpl. unfold call_share. fold p.
      pose proof (Hshare c Hcc). rewrite u64_small by lia. done.
    + assert (l ∈ calls F) as Hlc by (rewrite Hk; set_solver). rewrite Hm by done. unfold call_total.
      rewrite (decide_True (P := l ∈ calls F ∧ _)) by done. simpl. unfold call_share. fold p.
      pose proof (Hshare l Hlc). rewrite (u64_small (_ + 1)) by lia.
      case_decide as Hd; simpl; [rewrite u64_small by nia; lia|].
      assert (left_over F (calls F) = 0); [|lia].
      assert (last (calls F) = Some l) by (by rewrite Hk, last_snoc).
      destruct (Z.lt_ge_cases 0 (left_over F (calls F))) as [|Hge]; [by destruct Hd|].
      rewrite Hleft in Hge |- *. nia.
  - rewrite sumZ_executed by (intros c ->; lia). rewrite Hleft, Hscale.
    rewrite Hk, sumZ_app. simpl. lia.
Qed.

(** ** The whole analysis *)

Lemma Hot_new_run : ∃ h, Hot_new ir md profile = Ok h ∧ counted h ∧
  getSelfInstructions_module h = u64 module_count ∧
  (∀ F, defined_fun F →
     getSelfInstructions_function h F = Ok (u64 (self_count F)) ∧
     getTotalInstructions_function h F = Ok (function_total F)) ∧
  (direct_calls → ∀ F, defined_fun F → 0 < fun_count F → settled F h).
Proof.
  assert (wp (analyzeProfiles ir md profile) (λ _ h, counted h ∧
    getSelfInstructions_module h = u64 module_count ∧
    (∀ F, defined_fun F →
       getSelfInstructions_function h F = Ok (u64 (self_count F)) ∧
       getTotalInstructions_function h F = Ok (function_total F)) ∧
    (direct_calls → ∀ F, defined_fun F → 0 < fun_count F → settled F h)) Hot_empty) as H.
  { unfold analyzeProfiles. apply wp_bind. eapply wp_mono; [apply analyzeBlocks_spec|].
    intros [] h1 [Hc1 Hf1]. unfold computeProgramInvocations. apply wp_bind, wp_gets, wp_bind.
    eapply wp_mono; [by apply module_sum_spec|]. intros [] h2 (Hs2 & Hself2 & Hm2).
    pose proof (counted_summing h1 h2 Hs2 Hc1) as Hc2. apply wp_bind, wp_gets, wp_bind.
    eapply wp_mono; [by apply self_sum_spec|]. intros [] h3 (Hs3 & Hm3 & Hself3).
    pose proof (counted_summing h2 h3 Hs3 Hc2) as Hc3.
    assert (totals_ok h3) as Hok3.
    { intros F t _. destruct Hs2 as (_ & _ & Ht2 & _), Hs3 as (_ & _ & -> & _). rewrite Ht2.
      destruct Hf1 as (_ & -> & _). by rewrite lookup_empty. }
    unfold computeTotalInstructions. apply wp_bind. eapply wp_mono; [by apply evaluateAll_spec|].
    intros [] h4 (Hf4 & Hok4 & Hav4). pose proof (counted_frame h3 h4 Hf4 Hc3) as Hc4.
    eapply wp_mono; [by apply distributeAll_spec|]. intros [] h5 (Hs5 & Hset).
    split; [by eapply counted_same|]. destruct Hs5 as (Hb5 & Hfn5 & Hse5 & Ht5 & Hmo5).
    split; [|split; [|done]].
    - unfold getSelfInstructions_module. by rewrite Hmo5, (fr_module _ _ Hf4), Hm3.
    - intros F HF. split.
      + unfold getSelfInstructions_function. rewrite Hse5, (fr_self _ _ Hf4). by apply Hself3.
      + unfold getTotalInstructions_function, isFunctionTotalInstructionsAvailable. rewrite Ht5.
        by apply available_total; [..|by apply Hav4]. }
  apply wp_ok in H as (h & [] & Hrun & H). exists h. split; [|done]. unfold Hot_new. by rewrite Hrun.
Qed.
End spec.

(** (C14) The analysis of a profile returns, and what it records for each function with a body
    is exact: the count of its entry block, the instructions of its blocks, and the
    total in which every executed call counts for itself and for its share of the total of its
    callee, as long as no executed calls are recursive and the totals are below 2^53. *)
Theorem Hot_new_spec {IO : IterOrder} ir md profile rank :
  module_wf ir md → profile_ok ir md profile rank →
  let total := function_total ir md profile rank in
  ∃ h, Hot_new ir md profile = Ok h ∧
    getSelfInstructions_module h = u64 (module_count ir md profile) ∧
    ∀ F, defined_fun md F →
      getInvocations_function h F = Ok (fun_count md profile F) ∧
      getSelfInstructions_function h F = Ok (u64 (self_count ir md profile F)) ∧
      getTotalInstructions_function h F = Ok (total F) ∧
      total F = total_step ir md profile total F.
Proof.
  intros MW PO total. destruct (Hot_new_run ir md profile rank MW PO) as (h & Hrun & Hc & Hm & HF & _).
  exists h. split; [done|]. split; [done|]. intros F HdF. destruct (HF F HdF) as [Hs Ht].
  split; [by eapply function_invocations|]. split; [done|]. split; [done|].
  by apply (function_total_eq ir md profile rank MW PO).
Qed.

(** (C37) The total of a function is distributed among its calls: when every user of a function
    that is a call calls that function, the totals recorded for its executed calls add up to the
    total of the function plus one for each call, provided the calls run at most as often as the
    function and the last one runs. *)
Theorem calls_share_total {IO : IterOrder} ir md profile rank F :
  module_wf ir md → profile_ok ir md profile rank → direct_calls md →
  defined_fun md F → 0 < fun_count md profile F → shares_fit ir md profile F →
  let cs := filter (executed ir md profile) (calls md F) in
  ∃ h, Hot_new ir md profile = Ok h ∧
    (∀ c, c ∈ cs → is_Some (instructionTotalInstructions h !! c)) ∧
    sumZ (λ c, match getTotalInstructions_inst ir md h c with Ok v => v | Fail _ => 0 end) cs =
    function_total ir md profile rank F + Z.of_nat (length cs).
Proof.
  intros MW PO Hdir HF Hpos Hfit cs.
  destruct (Hot_new_run ir md profile rank MW PO) as (h & Hrun & _ & _ & _ & Hset). exists h. split; [done|].
  specialize (Hset Hdir F HF Hpos).
  assert (∀ c, c ∈ cs → is_Some (instructionTotalInstructions h !! c)) as Hsome.
  { intros c Hc. apply list_elem_of_filter in Hc as [He Hc]. destruct Hset as [m Hm]. rewrite Hm by done.
    unfold call_total. repeat case_decide; try done; tauto. }
  split; [done|]. unfold cs. rewrite <- (settled_sum ir md profile rank MW PO F h HF Hpos Hfit Hset).
  apply sumZ_ext. intros c Hc. unfold getTotalInstructions_inst, map_at. by destruct (Hsome c Hc) as [v ->].
Qed.

(** (C38) The average a callee executes per invocation is computed with doubles: it is the quotient of
    the two counters as integers when both are below 2^53; beyond, it can lose an instruction, and the
    conversion back to uint64_t can be undefined. *)
Theorem calleeTotalInstsPerInvocation_spec :
  (∀ t n, 0 < t < 2 ^ 53 → 0 < n < 2 ^ 53 → calleeTotalInstsPerInvocation t n = Ok (t / n)) ∧
  calleeTotalInstsPerInvocation (2 ^ 53 + 1) 1 = Ok (2 ^ 53) ∧
  calleeTotalInstsPerInvocation (2 ^ 64 - 1) 1 = Fail UndefinedBehaviour.
Proof.
  split; [intros; by apply truncated_quotient|]. split.
  - exact truncated_quotient_rounds.
  - exact truncated_quotient_overflows.
Qed.

(** The number of iterations of a loop that tests its condition in the header, entered [k] times
    for [n] iterations in total, is [n] when it was entered at most once; for more invocations
    the answer is too large by [k - 1]. *)
Theorem getIterations_spec ir h l (count : Ptr → Z) n k :
  let body := filter (λ s, isIncludedBB l s = true) (ir_successors ir (getHeader l)) in
  (∀ b, b ∈ getHeader l :: body → bbInvocations h !! b = Some (count b)) →
  count (getHeader l) = n + k → sumZ count body = n → 0 <= n → 0 <= k → n + k < 2 ^ 64 →
  getIterations ir h l = Ok (if k =? 0 then n else n + (k - 1)).
Proof.
  intros body Hb Hh Hsum Hn Hk Hlt. unfold getIterations, getInvocations_bb, map_at.
  rewrite (Hb (getHeader l)), Hh by set_solver. cbn [rbind].
  assert (∀ ss t, (∀ s, s ∈ ss → isIncludedBB l s = true → bbInvocations h !! s = Some (count s)) →
    u64 t = t →
    foldR (λ t succBB, if isIncludedBB l succBB
           then rbind (match bbInvocations h !! succBB with Some v => Ok v | None => Fail Aborted end)
                      (λ v, Ok (u64 (t + v))) else Ok t) t ss =
    Ok (u64 (t + sumZ count (filter (λ s, isIncludedBB l s = true) ss)))) as Hfold.
  { induction ss as [|s ss IH]; intros t Hss Ht; simpl; [by rewrite Z.add_0_r, Ht|].
    rewrite filter_cons. destruct (isIncludedBB l s) eqn:Hi; simpl.
    - rewrite (Hss s) by set_solver. simpl. rewrite IH; [|set_solver|unfold u64; by rewrite Z.mod_mod].
      f_equal. rewrite u64_add_l. f_equal. lia.
    - rewrite IH by set_solver. done. }
  rewrite Hfold; [|intros s Hs Hi; apply Hb, list_elem_of_further; by apply list_elem_of_filter|done]. fold body. rewrite Hsum, Z.add_0_l, u64_small by lia.
  simpl. destruct (Z.eqb_spec k 0) as [->|Hk0].
  - rewrite Z.add_0_r, Z.eqb_refl. done.
  - rewrite (proj2 (Z.eqb_neq _ _)) by lia. f_equal. rewrite u64_small by lia. lia.
Qed.
