(* ===== verification/CallGraph.v ===== *)
(** * Call graphs (src/core/call_graph: CallGraph.cpp, CallGraphNode.cpp, CallGraphEdge.cpp)

    The class [CallGraph]: nodes for the functions of a module, an edge between two functions
    with one sub-edge per call, the removal of sub-edges, and the islands of the graph. *)
From S2P Require Import Prelude LoopStructure IRModule.

(** ** State *)

(** [CallGraphInstructionFunctionEdge] and [CallGraphFunctionFunctionEdge] *)
Record SubEdge := mkSubEdge { se_caller : Ptr; se_callee : Ptr; se_isMust : bool }.
Record CGEdge := mkCGEdge {
  ce_caller : Ptr;
  ce_callee : Ptr;
  ce_isMust : bool;
  ce_subEdges : gset Ptr;
  ce_subEdgesMap : gmap Ptr Ptr
}.

Record CallGraph := mkCallGraph {
  functions : gmap Ptr (option Ptr);
  instructionNodes : gmap Ptr (option Ptr);
  outgoingEdges : gmap Ptr (gmap Ptr Ptr);
  incomingEdges : gmap Ptr (gmap Ptr Ptr)
}.
Definition CallGraph_empty : CallGraph := mkCallGraph ∅ ∅ ∅ ∅.

(** the heap: function nodes with their function, instruction nodes with their instruction,
    edges and sub-edges *)
Record CGHeap := mkCGHeap {
  h_funNodes : gmap Ptr Ptr;
  h_instNodes : gmap Ptr Ptr;
  h_edges : gmap Ptr CGEdge;
  h_subs : gmap Ptr SubEdge;
  h_fresh : Ptr
}.
(** the heap and [*this] *)
Abbreviation CGSt := (CGHeap * CallGraph)%type.

Section call_graph.
Context {IO : IterOrder} (ir : IRProgram) (md : LLVMModule).

(** ** Nodes and edges *)

Definition CallGraphFunctionNode_new (f : Ptr) : M CGSt Ptr := λ s,
  let '(h, g) := s in
  Ok ((mkCGHeap (<[h_fresh h := f]> (h_funNodes h)) (h_instNodes h) (h_edges h) (h_subs h)
         (Pos.succ (h_fresh h)), g), h_fresh h).
Definition CallGraphInstructionNode_new (i : Ptr) : M CGSt Ptr := λ s,
  let '(h, g) := s in
  Ok ((mkCGHeap (h_funNodes h) (<[h_fresh h := i]> (h_instNodes h)) (h_edges h) (h_subs h)
         (Pos.succ (h_fresh h)), g), h_fresh h).
Definition CallGraphFunctionFunctionEdge_new (caller callee : Ptr) (isMust : bool) : M CGSt Ptr := λ s,
  let '(h, g) := s in
  Ok ((mkCGHeap (h_funNodes h) (h_instNodes h)
         (<[h_fresh h := mkCGEdge caller callee isMust ∅ ∅]> (h_edges h)) (h_subs h)
         (Pos.succ (h_fresh h)), g), h_fresh h).
Definition CallGraphInstructionFunctionEdge_new (caller callee : Ptr) (isMust : bool) : M CGSt Ptr := λ s,
  let '(h, g) := s in
  Ok ((mkCGHeap (h_funNodes h) (h_instNodes h) (h_edges h)
         (<[h_fresh h := mkSubEdge caller callee isMust]> (h_subs h))
         (Pos.succ (h_fresh h)), g), h_fresh h).

(** accesses through pointers *)
Definition getFunction (node : Ptr) : M CGSt Ptr := λ s, deref (h_funNodes s.1 !! node) s.
Definition getInstruction (node : Ptr) : M CGSt Ptr := λ s, deref (h_instNodes s.1 !! node) s.
Definition load_cgedge (e : Ptr) : M CGSt CGEdge := λ s, deref (h_edges s.1 !! e) s.
Definition load_subedge (se : Ptr) : M CGSt SubEdge := λ s, deref (h_subs s.1 !! se) s.
Definition store_cgedge (e : Ptr) (x : CGEdge) : M CGSt unit :=
  load_cgedge e ;;;
  modify (λ s, (mkCGHeap (h_funNodes s.1) (h_instNodes s.1) (<[e := x]> (h_edges s.1)) (h_subs s.1)
                  (h_fresh s.1), s.2)).
Definition delete_cgedge (e : Ptr) : M CGSt unit :=
  load_cgedge e ;;;
  modify (λ s, (mkCGHeap (h_funNodes s.1) (h_instNodes s.1) (delete e (h_edges s.1)) (h_subs s.1)
                  (h_fresh s.1), s.2)).
Definition delete_subedge (se : Ptr) : M CGSt unit :=
  load_subedge se ;;;
  modify (λ s, (mkCGHeap (h_funNodes s.1) (h_instNodes s.1) (h_edges s.1) (delete se (h_subs s.1))
                  (h_fresh s.1), s.2)).

Definition getCaller (x : CGEdge) : Ptr := ce_caller x.
Definition getCallee (x : CGEdge) : Ptr := ce_callee x.
Definition isAMustCall (x : CGEdge) : bool := ce_isMust x.
Definition setMust (x : CGEdge) : CGEdge :=
  mkCGEdge (ce_caller x) (ce_callee x) true (ce_subEdges x) (ce_subEdgesMap x).
Definition unsetMust (x : CGEdge) : CGEdge :=
  mkCGEdge (ce_caller x) (ce_callee x) false (ce_subEdges x) (ce_subEdgesMap x).
Definition getSubEdges (x : CGEdge) : gset Ptr := ce_subEdges x.
Definition getNumberOfSubEdges (x : CGEdge) : Z := Z.of_nat (size (ce_subEdges x)).

(** [e->addSubEdge(subEdge)] *)
Definition addSubEdge (e subEdge : Ptr) : M CGSt unit :=
  let* se := load_subedge subEdge in
  let* inst := getInstruction (se_caller se) in
  let* x := load_cgedge e in
  store_cgedge e (mkCGEdge (ce_caller x) (ce_callee x) (ce_isMust x)
                    ({[subEdge]} ∪ ce_subEdges x) (<[inst := subEdge]> (ce_subEdgesMap x))).

(** [e->removeSubEdge(subEdge)] *)
Definition edge_removeSubEdge (e subEdge : Ptr) : M CGSt unit :=
  let* x := load_cgedge e in
  massert (bool_decide (subEdge ∈ ce_subEdges x)) ;;;
  let* se := load_subedge subEdge in
  let* callInst := getInstruction (se_caller se) in
  let x := mkCGEdge (ce_caller x) (ce_callee x) (ce_isMust x)
             (ce_subEdges x ∖ {[subEdge]}) (delete callInst (ce_subEdgesMap x)) in
  store_cgedge e x ;;;
  (if se_isMust se then
     massert (isAMustCall x) ;;;
     let* found := anyM (λ another, let* y := load_subedge another in ret (se_isMust y))
                        (visit (ce_subEdges x)) in
     if found : bool then ret tt else store_cgedge e (unsetMust x)
   else ret tt) ;;;
  delete_subedge subEdge.

(** ** The graph *)

Definition on_functions (f : gmap Ptr (option Ptr) → gmap Ptr (option Ptr)) (g : CallGraph) : CallGraph :=
  mkCallGraph (f (functions g)) (instructionNodes g) (outgoingEdges g) (incomingEdges g).

(** the nodes come out as a set *)
Definition getFunctionNodes (g : CallGraph) (mustHaveBody : bool) : gset (option Ptr) :=
  foldl (λ s f, if mustHaveBody && isDeclaration md f then s
                else match functions g !! f with Some n => {[n]} ∪ s | None => s end)
        ∅ (visit (dom (functions g))).

(** [nullptr] stands for an absent function and for an absent node *)
Definition getFunctionNode (g : CallGraph) (f : Ptr) : option Ptr :=
  match functions g !! f with Some n => n | None => None end.
(** [main] is the function of the module with that name, if there is one *)
Definition getEntryNode (g : CallGraph) (main : option Ptr) : option Ptr :=
  match main with Some f => getFunctionNode g f | None => None end.

Definition getEdge (g : CallGraph) (from to : Ptr) : option Ptr :=
  match outgoingEdges g !! from with
  | Some tmp => tmp !! to
  | None => None
  end.

Definition edge_set (m : option (gmap Ptr Ptr)) : gset Ptr :=
  match m with
  | Some tmp => foldl (λ s n, match tmp !! n with Some e => {[e]} ∪ s | None => s end) ∅ (visit (dom tmp))
  | None => ∅
  end.
Definition getIncomingEdges (g : CallGraph) (node : Ptr) : gset Ptr := edge_set (incomingEdges g !! node).
Definition getOutgoingEdges (g : CallGraph) (node : Ptr) : gset Ptr := edge_set (outgoingEdges g !! node).
Definition getEdges (g : CallGraph) (node : Ptr) : gset Ptr :=
  getIncomingEdges g node ∪ getOutgoingEdges g node.

(** [outgoingEdges[from][to] = e; incomingEdges[to][from] = e;] *)
Definition registerEdge (from to e : Ptr) (g : CallGraph) : CallGraph :=
  mkCallGraph (functions g) (instructionNodes g)
    (<[from := <[to := e]> (default ∅ (outgoingEdges g !! from))]> (outgoingEdges g))
    (<[to := <[from := e]> (default ∅ (incomingEdges g !! to))]> (incomingEdges g)).

(** [instructionNodes[callInst]], created when it is null *)
Definition fetchInstructionNode (callInst : Ptr) : M CGSt Ptr :=
  let* g := gets snd in
  match default None (instructionNodes g !! callInst) with
  | Some instNode => ret instNode
  | None =>
      let* instNode := CallGraphInstructionNode_new callInst in
      modify (λ s, (s.1, mkCallGraph (functions s.2) (<[callInst := Some instNode]> (instructionNodes s.2))
                           (outgoingEdges s.2) (incomingEdges s.2))) ;;;
      ret instNode
  end.

Definition fetchOrCreateEdge (fromNode callInst callee : Ptr) (isMust : bool) : M CGSt Ptr :=
  let* g := gets snd in
  massert (bool_decide (is_Some (functions g !! callee))) ;;;
  let* toNode := deref (default None (functions g !! callee)) in
  let* instNode := fetchInstructionNode callInst in
  let* subEdge := CallGraphInstructionFunctionEdge_new instNode toNode isMust in
  let* g := gets snd in
  let* existingEdge :=
    match getEdge g fromNode toNode with
    | Some e => ret e
    | None =>
        let* newEdge := CallGraphFunctionFunctionEdge_new fromNode toNode isMust in
        modify (λ s, (s.1, registerEdge fromNode toNode newEdge s.2)) ;;;
        ret newEdge
    end in
  addSubEdge existingEdge subEdge ;;;
  (if isMust then let* x := load_cgedge existingEdge in store_cgedge existingEdge (setMust x)
   else ret tt) ;;;
  ret existingEdge.

(** ** Construction

    [hasIndCSCallees] and [getIndCSCallees] answer for the indirect calls. *)
Context (hasIndCSCallees : Ptr → bool) (getIndCSCallees : Ptr → gset Ptr).

Definition handleCallInstruction (fromNode callInst : Ptr) : M CGSt unit :=
  match getCalledFunction md callInst with
  | Some callee => fetchOrCreateEdge fromNode callInst callee true ;;; ret tt
  | None =>
      match m_call md callInst with
      | CallInst _ =>
          if negb (hasIndCSCallees callInst) then ret tt
          else forM (λ callee, fetchOrCreateEdge fromNode callInst callee false ;;; ret tt)
                    (visit (getIndCSCallees callInst))
      | _ => ret tt
      end
  end.

Definition addFunctionNode (F : Ptr) : M CGSt unit :=
  let* newNode := CallGraphFunctionNode_new F in
  modify (λ s, (s.1, on_functions <[F := Some newNode]> s.2)).

Definition addCallsOf (F : Ptr) : M CGSt unit :=
  let* g := gets snd in
  let* fromNode := deref (default None (functions g !! F)) in
  forM (λ inst,
    match m_call md inst with
    | CallInst _ | InvokeInst _ => handleCallInstruction fromNode inst
    | NotACall | CallBrInst _ => ret tt
    end) (function_instructions ir md F).

Definition CallGraph_build : M CGSt unit :=
  forM addFunctionNode (m_functions md) ;;;
  forM addCallsOf (m_functions md).
Definition CallGraph_new (h : CGHeap) : Res CGSt :=
  match CallGraph_build (h, CallGraph_empty) with Ok (s, _) => Ok s | Fail e => Fail e end.

(** ** Removal of a sub-edge *)

(** [tmp.at(k) == e] for [tmp = m.at(node)], then [tmp.erase(k)] *)
Definition unlinkEdge (m : gmap Ptr (gmap Ptr Ptr)) (node k e : Ptr) : Res (gmap Ptr (gmap Ptr Ptr)) :=
  match m !! node with
  | None => Fail Aborted
  | Some tmp =>
      match tmp !! k with
      | None => Fail Aborted
      | Some e' => if bool_decide (e' = e) then Ok (<[node := delete k tmp]> m) else Fail AssertionFailure
      end
  end.

Definition removeSubEdge (e se : Ptr) : M CGSt unit :=
  edge_removeSubEdge e se ;;;
  let* x := load_cgedge e in
  if (getNumberOfSubEdges x =? 0)%Z then
    let caller := getCaller x in
    let callee := getCallee x in
    let* g := gets snd in
    let* out := lift (unlinkEdge (outgoingEdges g) caller callee e) in
    let* inc := lift (unlinkEdge (incomingEdges g) callee caller e) in
    modify (λ s, (s.1, mkCallGraph (functions s.2) (instructionNodes s.2) out inc)) ;;;
    delete_cgedge e
  else ret tt.

(** ** Escaping functions *)

(** the arguments of a call, and which instructions store to memory *)
Context (arg_operands : Ptr → list Ptr) (isStoreInst : Ptr → bool).

Definition isInstruction (v : Ptr) : bool := match ir_kind ir v with IsInstruction => true | _ => false end.

(** the loop over the users, which can return early, and the final [return true] *)
Fixpoint escapesThrough (f : Ptr) (users : list Ptr) : bool :=
  match users with
  | [] => true
  | user :: users =>
      if negb (isInstruction user) then escapesThrough f users
      else if isCallBase md user then
        if existsb (λ arg, bool_decide (arg = f)) (arg_operands user) then true
        else escapesThrough f users
      else if isStoreInst user then true
      else escapesThrough f users
  end.
Definition canFunctionEscape (f : Ptr) : bool := escapesThrough f (m_uses md f).

Lemma canFunctionEscape_always f : canFunctionEscape f = true.
Proof.
  unfold canFunctionEscape. induction (m_uses md f) as [|u us IH]; [done|]. simpl.
  rewrite IH. by repeat case_match.
Qed.
End call_graph.
