(* ===== verification/CallGraphSpec.v ===== *)
(** * What a call graph records

    A well-formed call graph relates its nodes, its edges and their sub-edges; it stands for the
    relation between a caller, a callee, an instruction and whether the call is certain. The
    constructor records the calls of the module, and the removal of a sub-edge removes one call. *)
From S2P Require Import Prelude LoopStructure IRModule CallGraph.

(** the loops that collect the functions with a property *)
Lemma elem_of_foldl_if (p : Ptr → bool) l (r : gset Ptr) F :
  F ∈ foldl (λ r f, if p f then {[f]} ∪ r else r) r l ↔ F ∈ r ∨ (F ∈ l ∧ p F = true).
Proof.
  revert r. induction l as [|f l IH]; intros r; simpl; [set_solver|]. rewrite IH.
  rewrite elem_of_cons. destruct (p f) eqn:Hp; rewrite ?elem_of_union, ?elem_of_singleton;
    destruct (decide (F = f)) as [->|]; rewrite ?Hp; naive_solver.
Qed.

(** ** Well-formed call graphs *)

Definition is_node (g : CallGraph) (n : Ptr) : Prop := ∃ F, functions g !! F = Some (Some n).
Definition incEdge (g : CallGraph) (to from : Ptr) : option Ptr :=
  match incomingEdges g !! to with Some tmp => tmp !! from | None => None end.

(** the calls an edge stands for: an instruction and whether the call is certain *)
Definition edge_calls (h : CGHeap) (x : CGEdge) (i : Ptr) (must : bool) : Prop :=
  ∃ se y, se ∈ ce_subEdges x ∧ h_subs h !! se = Some y ∧ h_instNodes h !! se_caller y = Some i ∧
          se_isMust y = must.

Record edge_ok (h : CGHeap) (x : CGEdge) : Prop := {
  eo_sub se : se ∈ ce_subEdges x → ∃ y i, h_subs h !! se = Some y ∧ se_callee y = ce_callee x ∧
    h_instNodes h !! se_caller y = Some i ∧ ce_subEdgesMap x !! i = Some se;
  eo_map i se : ce_subEdgesMap x !! i = Some se → ∃ y, se ∈ ce_subEdges x ∧
    h_subs h !! se = Some y ∧ h_instNodes h !! se_caller y = Some i;
  eo_must : ce_isMust x = true ↔ ∃ i, edge_calls h x i true
}.

Record cg_wf (s : CGSt) : Prop := {
  wf_fun F o : functions s.2 !! F = Some o → ∃ n, o = Some n ∧ h_funNodes s.1 !! n = Some F;
  wf_inst i o : instructionNodes s.2 !! i = Some o → ∃ n, o = Some n ∧ h_instNodes s.1 !! n = Some i;
  wf_inc a b : getEdge s.2 a b = incEdge s.2 b a;
  wf_edge a b e : getEdge s.2 a b = Some e → is_node s.2 a ∧ is_node s.2 b ∧
    ∃ x, h_edges s.1 !! e = Some x ∧ ce_caller x = a ∧ ce_callee x = b ∧ ce_subEdges x ≠ ∅ ∧ edge_ok s.1 x;
  wf_disjoint a b e c d e' x x' se : getEdge s.2 a b = Some e → getEdge s.2 c d = Some e' →
    h_edges s.1 !! e = Some x → h_edges s.1 !! e' = Some x' →
    se ∈ ce_subEdges x → se ∈ ce_subEdges x' → e = e';
  wf_fresh p : p ∈ dom (h_funNodes s.1) ∪ dom (h_instNodes s.1) ∪ dom (h_edges s.1) ∪ dom (h_subs s.1) →
    (p < h_fresh s.1)%positive
}.

(** the instruction [i] of [F] calls [G] *)
Definition records (s : CGSt) (F G i : Ptr) (must : bool) : Prop :=
  ∃ a b e x, functions s.2 !! F = Some (Some a) ∧ functions s.2 !! G = Some (Some b) ∧
    getEdge s.2 a b = Some e ∧ h_edges s.1 !! e = Some x ∧ edge_calls s.1 x i must.

Section facts.
Context (s : CGSt) (W : cg_wf s).

Lemma node_function F a : functions s.2 !! F = Some (Some a) → h_funNodes s.1 !! a = Some F.
Proof. intros H. destruct (wf_fun s W F _ H) as (n & [= ->] & ?). done. Qed.

Lemma function_node_unique F G a : functions s.2 !! F = Some (Some a) → functions s.2 !! G = Some (Some a) → F = G.
Proof. intros H1%node_function H2%node_function. congruence. Qed.

Lemma fresh_none : h_funNodes s.1 !! h_fresh s.1 = None ∧ h_instNodes s.1 !! h_fresh s.1 = None ∧
  h_edges s.1 !! h_fresh s.1 = None ∧ h_subs s.1 !! h_fresh s.1 = None.
Proof.
  assert (∀ p, p = h_fresh s.1 → ¬ p ∈ dom (h_funNodes s.1) ∪ dom (h_instNodes s.1) ∪ dom (h_edges s.1) ∪ dom (h_subs s.1)) as H.
  { intros p -> Hp%W. lia. }
  specialize (H _ eq_refl). rewrite !not_elem_of_union, !not_elem_of_dom in H. tauto.
Qed.

Lemma records_functional F G i m m' : records s F G i m → records s F G i m' → m = m'.
Proof.
  intros (a & b & e & x & Ha & Hb & He & Hx & se & y & Hse & Hy & Hi & <-)
         (a' & b' & e' & x' & Ha' & Hb' & He' & Hx' & se' & y' & Hse' & Hy' & Hi' & <-).
  simplify_eq. destruct (wf_edge s W a b e He) as (_ & _ & x0 & Hx0 & _ & _ & _ & Hok). simplify_eq.
  destruct (eo_sub _ _ Hok se Hse) as (? & ? & ? & _ & ? & Hm).
  destruct (eo_sub _ _ Hok se' Hse') as (? & ? & ? & _ & ? & Hm'). simplify_eq. done.
Qed.

(** an edge is certain when one of its calls is *)
Lemma edge_must F G a b e x : functions s.2 !! F = Some (Some a) → functions s.2 !! G = Some (Some b) →
  getEdge s.2 a b = Some e → h_edges s.1 !! e = Some x →
  isAMustCall x = true ↔ ∃ i, records s F G i true.
Proof.
  intros Ha Hb He Hx. destruct (wf_edge s W a b e He) as (_ & _ & x' & Hx' & _ & _ & _ & Hok). simplify_eq.
  rewrite (eo_must _ _ Hok). split.
  - intros [i Hi]. exists i, a, b, e, x. done.
  - intros (i & a' & b' & e' & x' & ? & ? & ? & ? & ?). simplify_eq. eauto.
Qed.

(** there is an edge when there is a call *)
Lemma edge_exists F G a b : functions s.2 !! F = Some (Some a) → functions s.2 !! G = Some (Some b) →
  is_Some (getEdge s.2 a b) ↔ ∃ i m, records s F G i m.
Proof.
  intros Ha Hb. split.
  - intros [e He]. destruct (wf_edge s W a b e He) as (_ & _ & x & Hx & _ & _ & Hne & Hok).
    apply set_choose_L in Hne as [se Hse]. destruct (eo_sub _ _ Hok se Hse) as (y & i & Hy & _ & Hi & _).
    exists i, (se_isMust y), a, b, e, x. do 4 (split; [done|]). exists se, y. done.
  - intros (i & m & a' & b' & e & x & ? & ? & ? & _). simplify_eq. eauto.
Qed.
End facts.

(** ** The instruction node of a call *)

Lemma edge_ok_frame h h' x : h_subs h' = h_subs h →
  (∀ n i, h_instNodes h !! n = Some i → h_instNodes h' !! n = Some i) → edge_ok h x →
  edge_ok h' x ∧ ∀ i m, edge_calls h' x i m ↔ edge_calls h x i m.
Proof.
  intros Hs Hi [H1 H2 H3].
  assert (∀ i m, edge_calls h' x i m ↔ edge_calls h x i m) as Hc.
  { intros i m. unfold edge_calls. rewrite Hs.
    split; intros (se & y & Hse & Hy & Hn & ?); exists se, y; split_and!; auto.
    destruct (H1 se Hse) as (y' & i' & ? & _ & Hi' & _). simplify_eq. by rewrite (Hi _ _ Hi') in Hn; simplify_eq. }
  split; [|done]. split.
  - intros se Hse. destruct (H1 se Hse) as (y & i & ? & ? & ? & ?). exists y, i. rewrite Hs. auto.
  - intros i se Hm. destruct (H2 i se Hm) as (y & ? & ? & ?). exists y. rewrite Hs. auto.
  - rewrite H3. by setoid_rewrite Hc.
Qed.

(** a state with the same graph and edges, and more nodes *)
Record grows (s s' : CGSt) : Prop := {
  gr_out : outgoingEdges s'.2 = outgoingEdges s.2;
  gr_inc : incomingEdges s'.2 = incomingEdges s.2;
  gr_edges : h_edges s'.1 = h_edges s.1;
  gr_subs : h_subs s'.1 = h_subs s.1;
  gr_inst n i : h_instNodes s.1 !! n = Some i → h_instNodes s'.1 !! n = Some i;
  gr_fun F o : functions s.2 !! F = Some o → functions s'.2 !! F = Some o
}.

Lemma getEdge_grows s s' a b : grows s s' → getEdge s'.2 a b = getEdge s.2 a b ∧ incEdge s'.2 b a = incEdge s.2 b a.
Proof. intros G. unfold getEdge, incEdge. by rewrite (gr_out _ _ G), (gr_inc _ _ G). Qed.

Lemma edges_grow s s' : cg_wf s → grows s s' →
  (∀ a b, getEdge s'.2 a b = incEdge s'.2 b a) ∧
  (∀ a b e, getEdge s'.2 a b = Some e → is_node s'.2 a ∧ is_node s'.2 b ∧
     ∃ x, h_edges s'.1 !! e = Some x ∧ ce_caller x = a ∧ ce_callee x = b ∧ ce_subEdges x ≠ ∅ ∧ edge_ok s'.1 x) ∧
  (∀ a b e c d e' x x' se, getEdge s'.2 a b = Some e → getEdge s'.2 c d = Some e' →
     h_edges s'.1 !! e = Some x → h_edges s'.1 !! e' = Some x' →
     se ∈ ce_subEdges x → se ∈ ce_subEdges x' → e = e').
Proof.
  intros W G. split_and!.
  - intros a b. destruct (getEdge_grows s s' a b G) as [-> ->]. apply W.
  - intros a b e. destruct (getEdge_grows s s' a b G) as [-> _]. intros He.
    destruct (wf_edge s W a b e He) as ([F HF] & [F' HF'] & x & Hx & ? & ? & ? & Hok).
    split; [exists F; by apply G|]. split; [exists F'; by apply G|]. exists x. rewrite (gr_edges _ _ G).
    split_and!; try done. by apply (edge_ok_frame s.1); [apply G..|].
  - intros a b e c d e' x x' se. destruct (getEdge_grows s s' a b G) as [-> _].
    destruct (getEdge_grows s s' c d G) as [-> _]. rewrite (gr_edges _ _ G). by eapply wf_disjoint.
Qed.

Lemma records_grow s s' F G i m : cg_wf s → cg_wf s' → grows s s' → records s' F G i m ↔ records s F G i m.
Proof.
  intros W W' Hg. unfold records. split.
  - intros (a & b & e & x & Ha & Hb & He & Hx & Hc).
    destruct (getEdge_grows s s' a b Hg) as [Heq _]. rewrite Heq in He. rewrite (gr_edges _ _ Hg) in Hx.
    destruct (wf_edge s W a b e He) as ([F0 HF0] & [G0 HG0] & x' & ? & _ & _ & _ & Hok). simplify_eq.
    pose proof (gr_fun _ _ Hg _ _ HF0) as HF1. pose proof (gr_fun _ _ Hg _ _ HG0) as HG1.
    pose proof (function_node_unique s' W' F F0 a Ha HF1). pose proof (function_node_unique s' W' G G0 b Hb HG1). subst F0 G0.
    exists a, b, e, x. split_and!; try done. by apply (edge_ok_frame s.1 s'.1); [apply Hg..|done|].
  - intros (a & b & e & x & Ha & Hb & He & Hx & Hc).
    destruct (wf_edge s W a b e He) as (_ & _ & x' & ? & _ & _ & _ & Hok). simplify_eq.
    exists a, b, e, x. destruct (getEdge_grows s s' a b Hg) as [-> _]. rewrite (gr_edges _ _ Hg).
    split_and!; try done; [by apply Hg..|]. by apply (edge_ok_frame s.1 s'.1); [apply Hg..|done|].
Qed.

Definition with_instNode (i n : Ptr) (s : CGSt) : CGSt :=
  (mkCGHeap (h_funNodes s.1) (<[n := i]> (h_instNodes s.1)) (h_edges s.1) (h_subs s.1) (Pos.succ (h_fresh s.1)),
   mkCallGraph (functions s.2) (<[i := Some n]> (instructionNodes s.2)) (outgoingEdges s.2) (incomingEdges s.2)).

Lemma with_instNode_wf i s : cg_wf s →
  let s' := with_instNode i (h_fresh s.1) s in cg_wf s' ∧ grows s s'.
Proof.
  intros W s'. destruct (fresh_none s W) as (_ & Hn & _ & _).
  assert (grows s s') as G.
  { split; try done. intros n j Hj. simpl. rewrite lookup_insert_ne by congruence. done. }
  split; [|done]. destruct (edges_grow s s' W G) as (H1 & H2 & H3). split; try done.
  - apply W.
  - intros j o. simpl. rewrite lookup_insert_Some. intros [[-> <-]|[_ Hj]].
    + exists (h_fresh s.1). by rewrite lookup_insert_eq.
    + destruct (wf_inst s W j o Hj) as (n & -> & ?). exists n. split; [done|]. by apply G.
  - intros p. simpl. rewrite dom_insert_L. intros Hp. pose proof (wf_fresh s W p). 
    destruct (decide (p = h_fresh s.1)); [lia|]. assert (p < h_fresh s.1)%positive; [|lia]. set_solver.
Qed.

Lemma fetchInstructionNode_spec i s : cg_wf s →
  wp (fetchInstructionNode i) (λ n s', cg_wf s' ∧ grows s s' ∧ functions s'.2 = functions s.2 ∧
    h_instNodes s'.1 !! n = Some i) s.
Proof.
  intros W. unfold fetchInstructionNode. apply wp_bind, wp_gets.
  destruct (instructionNodes s.2 !! i) as [o|] eqn:Ho; simpl.
  { destruct (wf_inst s W i o Ho) as (n & -> & Hn). apply wp_ret. by split_and!. }
  destruct s as [h g]. unfold wp. simpl. destruct (with_instNode_wf i (h, g) W) as [W' G].
  split; [done|]. split; [done|]. split; [done|]. apply lookup_insert_eq.
Qed.

(** ** One more call *)

(** [s'] is [s] with the call [i] on the edge [e] from [a] to [b], which had the content [x0] *)
Record added (s s' : CGSt) (a b e : Ptr) (x0 : CGEdge) (se n i : Ptr) (must : bool) : Prop := {
  ad_old : (getEdge s.2 a b = Some e ∧ h_edges s.1 !! e = Some x0) ∨
           (getEdge s.2 a b = None ∧ h_edges s.1 !! e = None ∧ x0 = mkCGEdge a b false ∅ ∅);
  ad_inst : h_instNodes s.1 !! n = Some i;
  ad_sub : h_subs s.1 !! se = None;
  ad_funs : functions s'.2 = functions s.2 ∧ instructionNodes s'.2 = instructionNodes s.2 ∧
            h_funNodes s'.1 = h_funNodes s.1 ∧ h_instNodes s'.1 = h_instNodes s.1;
  ad_subs : h_subs s'.1 = <[se := mkSubEdge n b must]> (h_subs s.1);
  ad_edges : h_edges s'.1 = <[e := mkCGEdge a b (must || ce_isMust x0) ({[se]} ∪ ce_subEdges x0)
                                    (<[i := se]> (ce_subEdgesMap x0))]> (h_edges s.1);
  ad_get c d : getEdge s'.2 c d = if decide (c = a ∧ d = b) then Some e else getEdge s.2 c d;
  ad_inc c d : incEdge s'.2 d c = if decide (c = a ∧ d = b) then Some e else incEdge s.2 d c;
  ad_fresh : (e < h_fresh s'.1 ∧ se < h_fresh s'.1 ∧ h_fresh s.1 <= h_fresh s'.1)%positive
}.

Section added.
Context (s s' : CGSt) (a b e : Ptr) (x0 : CGEdge) (se n i : Ptr) (must : bool).
Context (W : cg_wf s) (A : added s s' a b e x0 se n i must).
Context (Ha : is_node s.2 a) (Hb : is_node s.2 b) (Hno : ∀ m, ¬ edge_calls s.1 x0 i m).
Notation x1 := (mkCGEdge a b (must || ce_isMust x0) ({[se]} ∪ ce_subEdges x0) (<[i := se]> (ce_subEdgesMap x0))).

Lemma old_ok : edge_ok s.1 x0 ∧ ce_caller x0 = a ∧ ce_callee x0 = b.
Proof.
  destruct (ad_old _ _ _ _ _ _ _ _ _ _ A) as [[He Hx]|(_ & _ & ->)].
  - destruct (wf_edge s W a b e He) as (_ & _ & x & ? & ? & ? & _ & ?). by simplify_eq.
  - split; [|done]. split; [set_solver|done|]. split; [done|]. intros (? & ? & ? & ? & _). set_solver.
Qed.

Lemma sub_kept q y : h_subs s.1 !! q = Some y → h_subs s'.1 !! q = Some y ∧ q ≠ se.
Proof.
  intros Hq. pose proof (ad_sub _ _ _ _ _ _ _ _ _ _ A). assert (q ≠ se) by congruence.
  rewrite (ad_subs _ _ _ _ _ _ _ _ _ _ A), lookup_insert_ne by done. done.
Qed.

Lemma insts_same : h_instNodes s'.1 = h_instNodes s.1.
Proof. apply (ad_funs _ _ _ _ _ _ _ _ _ _ A). Qed.

Lemma new_calls j m : edge_calls s'.1 x1 j m ↔ edge_calls s.1 x0 j m ∨ (j = i ∧ m = must).
Proof.
  destruct old_ok as ([H1 _ _] & _). unfold edge_calls. rewrite insts_same. simpl. split.
  - intros (q & y & [->%elem_of_singleton|Hq]%elem_of_union & Hy & Hj & <-).
    + rewrite (ad_subs _ _ _ _ _ _ _ _ _ _ A), lookup_insert_eq in Hy. simplify_eq. simpl in *.
      rewrite (ad_inst _ _ _ _ _ _ _ _ _ _ A) in Hj. simplify_eq. auto.
    + left. exists q, y. split_and!; try done. destruct (H1 q Hq) as (y' & ? & Hy' & _).
      destruct (sub_kept q y' Hy'). congruence.
  - intros [(q & y & Hq & Hy & Hj & <-)|[-> ->]].
    + exists q, y. destruct (sub_kept q y Hy). split_and!; [set_solver|done..].
    + exists se, (mkSubEdge n b must). rewrite (ad_subs _ _ _ _ _ _ _ _ _ _ A), lookup_insert_eq.
      split_and!; [set_solver|done|apply A|done].
Qed.

Lemma new_ok : edge_ok s'.1 x1.
Proof.
  destruct old_ok as ([H1 H2 H3] & _ & Hcallee). split; simpl.
  - intros q [->%elem_of_singleton|Hq]%elem_of_union.
    + exists (mkSubEdge n b must), i. rewrite (ad_subs _ _ _ _ _ _ _ _ _ _ A), !lookup_insert_eq, insts_same.
      split_and!; [done..|apply A|done].
    + destruct (H1 q Hq) as (y & j & Hy & Hc & Hj & Hm). exists y, j. destruct (sub_kept q y Hy).
      rewrite insts_same. split_and!; [done|congruence|done|].
      rewrite lookup_insert_ne; [done|]. intros <-. eapply Hno. by exists q, y.
  - intros j q. rewrite lookup_insert_Some, insts_same. intros [[<- <-]|[_ Hm]].
    + exists (mkSubEdge n b must). rewrite (ad_subs _ _ _ _ _ _ _ _ _ _ A), lookup_insert_eq.
      split_and!; [set_solver|done|apply A].
    + destruct (H2 j q Hm) as (y & ? & Hy & ?). exists y. destruct (sub_kept q y Hy). split_and!; [set_solver|done..].
  - setoid_rewrite new_calls. rewrite orb_true_iff, H3. split.
    + intros [->|[j Hj]]; eauto.
    + intros (j & [Hj|[_ <-]]); eauto.
Qed.

(** the other edges *)
Lemma edges_kept c d e' : getEdge s.2 c d = Some e' → ¬ (c = a ∧ d = b) → e' ≠ e.
Proof.
  intros He' Hne ->. destruct (wf_edge s W c d e He') as (_ & _ & x & Hx & <- & <- & _).
  destruct (ad_old _ _ _ _ _ _ _ _ _ _ A) as [[He Hx0]|(_ & Hn & _)]; [|congruence].
  destruct (wf_edge s W a b e He) as (_ & _ & x' & ? & ? & ? & _). simplify_eq. tauto.
Qed.

Lemma edge_after c d e' : getEdge s'.2 c d = Some e' →
  (c = a ∧ d = b ∧ e' = e ∧ h_edges s'.1 !! e' = Some x1) ∨
  (¬ (c = a ∧ d = b) ∧ getEdge s.2 c d = Some e' ∧ e' ≠ e ∧ h_edges s'.1 !! e' = h_edges s.1 !! e').
Proof.
  rewrite (ad_get _ _ _ _ _ _ _ _ _ _ A), (ad_edges _ _ _ _ _ _ _ _ _ _ A).
  case_decide as Hc.
  - intros [= <-]. left. destruct Hc as [-> ->]. by rewrite lookup_insert_eq.
  - intros He'. right. pose proof (edges_kept c d e' He' Hc). by rewrite lookup_insert_ne by done.
Qed.

Lemma other_ok x : edge_ok s.1 x → edge_ok s'.1 x ∧ ∀ j m, edge_calls s'.1 x j m ↔ edge_calls s.1 x j m.
Proof.
  intros [H1 H2 H3].
  assert (∀ j m, edge_calls s'.1 x j m ↔ edge_calls s.1 x j m) as Hc.
  { intros j m. unfold edge_calls. rewrite insts_same.
    split; intros (q & y & Hq & Hy & ? & ?); exists q, y; split_and!; try done.
    - destruct (H1 q Hq) as (y' & ? & Hy' & _). destruct (sub_kept q y' Hy'). congruence.
    - by apply sub_kept. }
  split; [|done]. split.
  - intros q Hq. destruct (H1 q Hq) as (y & j & Hy & ? & ? & ?). exists y, j. rewrite insts_same.
    split_and!; try done. by apply sub_kept.
  - intros j q Hm. destruct (H2 j q Hm) as (y & ? & Hy & ?). exists y. rewrite insts_same. split_and!; try done.
    by apply sub_kept.
  - rewrite H3. by setoid_rewrite Hc.
Qed.

Lemma added_disjoint c d e' x' q : getEdge s.2 c d = Some e' → ¬ (c = a ∧ d = b) →
  h_edges s.1 !! e' = Some x' → q ∈ ce_subEdges x' → q ∈ {[se]} ∪ ce_subEdges x0 → False.
Proof.
  intros He' Hne Hx' Hq. destruct (wf_edge s W c d e' He') as (_ & _ & x & ? & _ & _ & _ & Hok). simplify_eq.
  destruct (eo_sub _ _ Hok q Hq) as (y & ? & Hy & _). destruct (sub_kept q y Hy) as [_ Hqse].
  intros [->%elem_of_singleton|Hq0]%elem_of_union; [done|].
  destruct (ad_old _ _ _ _ _ _ _ _ _ _ A) as [[He Hx0]|(_ & _ & ->)]; [|set_solver].
  apply (edges_kept c d e' He' Hne). by eapply (wf_disjoint s W c d e' a b e).
Qed.

Lemma added_wf : cg_wf s'.
Proof.
  destruct (ad_funs _ _ _ _ _ _ _ _ _ _ A) as (Hf & Hi & Hfn & Hin). split.
  - rewrite Hf, Hfn. apply W.
  - rewrite Hi, Hin. apply W.
  - intros c d. rewrite (ad_get _ _ _ _ _ _ _ _ _ _ A), (ad_inc _ _ _ _ _ _ _ _ _ _ A). by rewrite (wf_inc s W).
  - unfold is_node. rewrite Hf. intros c d e' [(-> & -> & -> & Hx)|(_ & He' & _ & Hx)]%edge_after.
    + split_and!; [done..|]. exists x1. split_and!; [done..|simpl; set_solver|apply new_ok].
    + destruct (wf_edge s W c d e' He') as (? & ? & x & ? & ? & ? & ? & Hok). split_and!; [done..|].
      exists x. rewrite Hx. split_and!; try done. by apply other_ok.
  - intros c d e1 c' d' e2 y1 y2 q H1 H2 Hy1 Hy2 Hq1 Hq2.
    apply edge_after in H1 as [(-> & -> & -> & Hx1)|(Hn1 & H1 & _ & Hx1)];
      apply edge_after in H2 as [(-> & -> & -> & Hx2)|(Hn2 & H2 & _ & Hx2)]; simplify_eq; try done.
    + exfalso. rewrite Hx2 in Hy2. by eapply (added_disjoint c' d').
    + exfalso. rewrite Hx1 in Hy1. by eapply (added_disjoint c d).
    + rewrite Hx1 in Hy1. rewrite Hx2 in Hy2. by eapply (wf_disjoint s W c d e1 c' d' e2).
  - intros p. rewrite Hfn, Hin, (ad_edges _ _ _ _ _ _ _ _ _ _ A), (ad_subs _ _ _ _ _ _ _ _ _ _ A), !dom_insert_L.
    pose proof (ad_fresh _ _ _ _ _ _ _ _ _ _ A) as (? & ? & ?). intros Hp.
    destruct (decide (p = e)) as [->|]; [done|]. destruct (decide (p = se)) as [->|]; [done|].
    assert (p < h_fresh s.1)%positive; [|lia]. apply W. set_solver.
Qed.

Lemma added_records F G : functions s.2 !! F = Some (Some a) → functions s.2 !! G = Some (Some b) →
  ∀ F' G' j m, records s' F' G' j m ↔ records s F' G' j m ∨ (F' = F ∧ G' = G ∧ j = i ∧ m = must).
Proof.
  intros HF HG F' G' j m. destruct (ad_funs _ _ _ _ _ _ _ _ _ _ A) as (Hf & _). unfold records. rewrite Hf. split.
  - intros (a' & b' & e' & x & Ha' & Hb' & [(-> & -> & -> & Hx)|(_ & He' & _ & Hx)]%edge_after & Hx' & Hc).
    + rewrite Hx in Hx'. simplify_eq. apply new_calls in Hc as [Hc|[-> ->]].
      * left. destruct (ad_old _ _ _ _ _ _ _ _ _ _ A) as [[He Hx0]|(_ & _ & ->)]; [by exists a, b, e, x0|].
        destruct Hc as (? & ? & ? & _). set_solver.
      * right. pose proof (function_node_unique s W _ _ _ HF Ha'). pose proof (function_node_unique s W _ _ _ HG Hb'). auto.
    + left. rewrite Hx in Hx'. exists a', b', e', x. split_and!; try done.
      destruct (wf_edge s W a' b' e' He') as (_ & _ & ? & ? & _ & _ & _ & Hok). simplify_eq. by apply other_ok.
  - intros [(a' & b' & e' & x & Ha' & Hb' & He' & Hx & Hc)|(-> & -> & -> & ->)].
    + destruct (wf_edge s W a' b' e' He') as (_ & _ & ? & ? & _ & _ & _ & Hok). simplify_eq.
      destruct (decide (a' = a ∧ b' = b)) as [[-> ->]|Hne].
      * exists a, b, e, x1. rewrite (ad_get _ _ _ _ _ _ _ _ _ _ A), decide_True by done.
        rewrite (ad_edges _ _ _ _ _ _ _ _ _ _ A), lookup_insert_eq. split_and!; try done. apply new_calls. left.
        destruct (ad_old _ _ _ _ _ _ _ _ _ _ A) as [[He Hx0]|(He & _)]; congruence.
      * exists a', b', e', x. rewrite (ad_get _ _ _ _ _ _ _ _ _ _ A), decide_False by done.
        rewrite (ad_edges _ _ _ _ _ _ _ _ _ _ A), lookup_insert_ne by (apply not_eq_sym; by eapply edges_kept).
        split_and!; try done. by apply other_ok.
    + exists a, b, e, x1. rewrite (ad_get _ _ _ _ _ _ _ _ _ _ A), decide_True by done.
      rewrite (ad_edges _ _ _ _ _ _ _ _ _ _ A), lookup_insert_eq. split_and!; try done. apply new_calls. auto.
Qed.
End added.

(** ** fetchOrCreateEdge *)

Lemma getEdge_register a b e g c d :
  getEdge (registerEdge a b e g) c d = (if decide (c = a ∧ d = b) then Some e else getEdge g c d) ∧
  incEdge (registerEdge a b e g) d c = (if decide (c = a ∧ d = b) then Some e else incEdge g d c).
Proof.
  unfold getEdge, incEdge, registerEdge. simpl. split.
  - destruct (decide (c = a)) as [->|]; [|rewrite lookup_insert_ne, decide_False by naive_solver; done].
    rewrite lookup_insert_eq. destruct (decide (d = b)) as [->|].
    + rewrite lookup_insert_eq, decide_True by done. done.
    + rewrite lookup_insert_ne, decide_False by naive_solver. by destruct (outgoingEdges g !! a).
  - destruct (decide (d = b)) as [->|]; [|rewrite lookup_insert_ne, decide_False by naive_solver; done].
    rewrite lookup_insert_eq. destruct (decide (c = a)) as [->|].
    + rewrite lookup_insert_eq, decide_True by done. done.
    + rewrite lookup_insert_ne, decide_False by naive_solver. by destruct (incomingEdges g !! b).
Qed.

Lemma load_subedge_run se y s : h_subs s.1 !! se = Some y → load_subedge se s = Ok (s, y).
Proof. intros H. unfold load_subedge. by rewrite H. Qed.
Lemma load_cgedge_run e x s : h_edges s.1 !! e = Some x → load_cgedge e s = Ok (s, x).
Proof. intros H. unfold load_cgedge. by rewrite H. Qed.
Lemma getInstruction_run n i s : h_instNodes s.1 !! n = Some i → getInstruction n s = Ok (s, i).
Proof. intros H. unfold getInstruction. by rewrite H. Qed.

Definition with_edge (e : Ptr) (x : CGEdge) (s : CGSt) : CGSt :=
  (mkCGHeap (h_funNodes s.1) (h_instNodes s.1) (<[e := x]> (h_edges s.1)) (h_subs s.1) (h_fresh s.1), s.2).
Lemma store_cgedge_run e x x' s : h_edges s.1 !! e = Some x' → store_cgedge e x s = Ok (with_edge e x s, tt).
Proof. intros H. unfold store_cgedge, bind. by rewrite (load_cgedge_run e x'). Qed.

(** the sub-edge [se] joins the edge [e], which becomes certain if the call is *)
Lemma addSub_run s e x se y i must : h_edges s.1 !! e = Some x → h_subs s.1 !! se = Some y →
  h_instNodes s.1 !! se_caller y = Some i →
  (addSubEdge e se ;;;
   (if must : bool then let* x := load_cgedge e in store_cgedge e (setMust x) else ret tt) ;;;
   ret e) s =
  Ok (with_edge e (mkCGEdge (ce_caller x) (ce_callee x) (must || ce_isMust x) ({[se]} ∪ ce_subEdges x)
                     (<[i := se]> (ce_subEdgesMap x))) s, e).
Proof.
  intros Hx Hy Hi.
  set (x1 := mkCGEdge (ce_caller x) (ce_callee x) (ce_isMust x) ({[se]} ∪ ce_subEdges x) (<[i := se]> (ce_subEdgesMap x))).
  assert (addSubEdge e se s = Ok (with_edge e x1 s, tt)) as Hadd.
  { unfold addSubEdge. rewrite (bind_ok _ _ _ _ _ (load_subedge_run se y s Hy)).
    rewrite (bind_ok _ _ _ _ _ (getInstruction_run _ i s Hi)).
    rewrite (bind_ok _ _ _ _ _ (load_cgedge_run e x s Hx)). by rewrite (store_cgedge_run e _ x). }
  rewrite (bind_ok _ _ _ _ _ Hadd). assert (h_edges (with_edge e x1 s).1 !! e = Some x1) as Hx1 by apply lookup_insert_eq.
  destruct must; [|done]. unfold bind at 1.
  rewrite (bind_ok _ _ _ _ _ (load_cgedge_run e x1 _ Hx1)), (store_cgedge_run e _ x1 _ Hx1).
  unfold ret, with_edge. simpl. by rewrite insert_insert_eq.
Qed.

(** the steps after the instruction node is known *)
Lemma addCall_run s a b n i must : cg_wf s → h_instNodes s.1 !! n = Some i →
  wp (let* subEdge := CallGraphInstructionFunctionEdge_new n b must in
      let* g := gets snd in
      let* existingEdge :=
        match getEdge g a b with
        | Some e => ret e
        | None =>
            let* newEdge := CallGraphFunctionFunctionEdge_new a b must in
            modify (λ s, (s.1, registerEdge a b newEdge s.2)) ;;;
            ret newEdge
        end in
      addSubEdge existingEdge subEdge ;;;
      (if must then let* x := load_cgedge existingEdge in store_cgedge existingEdge (setMust x)
       else ret tt) ;;;
      ret existingEdge)
     (λ e s', ∃ x0 se, added s s' a b e x0 se n i must ∧ getEdge s'.2 a b = Some e) s.
Proof.
  intros W Hn. destruct (fresh_none s W) as (_ & _ & _ & Hse). destruct s as [h g]. simpl in *.
  eapply wp_bind_run; [done|]. apply wp_bind, wp_gets. simpl.
  destruct (getEdge g a b) as [e|] eqn:He.
  - destruct (wf_edge _ W a b e He) as (_ & _ & x0 & Hx0 & Hca & Hcb & _). simpl in Hx0.
    apply wp_bind, wp_ret. unfold wp. erewrite addSub_run; [|done|apply lookup_insert_eq|done].
    rewrite Hca, Hcb. exists x0, (h_fresh h). split; [|done]. split; simpl; try done; [by left| | |].
    + intros c d. case_decide as Hc; [|done]. destruct Hc as [-> ->]. done.
    + intros c d. pose proof (wf_inc _ W c d) as Hi. simpl in Hi. rewrite <- Hi.
      case_decide as Hc; [|done]. destruct Hc as [-> ->]. done.
    + assert (e < h_fresh h)%positive; [|lia]. apply (wf_fresh _ W). simpl.
      rewrite !elem_of_union, (elem_of_dom (h_edges h)), Hx0. eauto.
  - assert (h_edges h !! Pos.succ (h_fresh h) = None) as Hefresh.
    { apply not_elem_of_dom. intros Hin. assert (Pos.succ (h_fresh h) < h_fresh h)%positive; [|lia].
      apply (wf_fresh _ W). simpl. set_solver. }
    apply wp_bind. eapply wp_bind_run; [done|]. apply wp_bind, wp_modify, wp_ret. unfold wp.
    erewrite addSub_run; [|apply lookup_insert_eq|apply lookup_insert_eq|done].
    exists (mkCGEdge a b false ∅ ∅), (h_fresh h).
    split; [split; simpl; try done; [by right|..]|].
    + rewrite insert_insert_eq. by destruct must.
    + apply getEdge_register.
    + apply getEdge_register.
    + lia.
    + simpl. rewrite (proj1 (getEdge_register _ _ _ _ _ _)), decide_True by done. done.
Qed.

Lemma fetchOrCreateEdge_spec F G a b i must s : cg_wf s →
  functions s.2 !! F = Some (Some a) → functions s.2 !! G = Some (Some b) → (∀ m, ¬ records s F G i m) →
  wp (fetchOrCreateEdge a i G must)
     (λ e s', cg_wf s' ∧ functions s'.2 = functions s.2 ∧ getEdge s'.2 a b = Some e ∧
        ∀ F' G' j m, records s' F' G' j m ↔ records s F' G' j m ∨ (F' = F ∧ G' = G ∧ j = i ∧ m = must)) s.
Proof.
  intros W HF HG Hno. unfold fetchOrCreateEdge. apply wp_bind, wp_gets. apply wp_bind, wp_massert.
  split; [apply bool_decide_eq_true; rewrite HG; eauto|].
  apply wp_bind, wp_deref. exists b. rewrite HG. split; [done|].
  apply wp_bind. eapply wp_mono; [by apply fetchInstructionNode_spec|]. intros n s1 (W1 & Gr & Hf1 & Hn).
  assert (is_node s1.2 a) as Ha by (exists F; by rewrite Hf1).
  assert (is_node s1.2 b) as Hb by (exists G; by rewrite Hf1).
  eapply wp_mono; [by apply (addCall_run s1 a b n i must)|]. intros e s2 (x0 & se & A & He).
  assert (∀ m, ¬ edge_calls s1.1 x0 i m) as Hno1.
  { intros m Hc. destruct (ad_old _ _ _ _ _ _ _ _ _ _ A) as [[He0 Hx0]|(_ & _ & ->)].
    - apply (Hno m). apply (records_grow s s1); [done..|]. exists a, b, e, x0. rewrite Hf1. done.
    - destruct Hc as (? & ? & ? & _). set_solver. }
  split; [by eapply added_wf|]. split; [rewrite (proj1 (ad_funs _ _ _ _ _ _ _ _ _ _ A)); done|]. split; [done|].
  intros F' G' j m. rewrite (added_records s1 s2 a b e x0 se n i must W1 A) by (done || by rewrite Hf1).
  by rewrite records_grow.
Qed.

(** ** The constructor *)
Section construction.
Context {IO : IterOrder} (ir : IRProgram) (md : LLVMModule).
Context (hasIndCSCallees : Ptr → bool) (getIndCSCallees : Ptr → gset Ptr).

(** the calls of an instruction: a known callee, or the callees an indirect call may have *)
Definition calls_in (i G : Ptr) (must : bool) : Prop :=
  match m_call md i with
  | CallInst (Some c) | InvokeInst (Some c) => G = c ∧ must = true
  | CallInst None => hasIndCSCallees i = true ∧ G ∈ getIndCSCallees i ∧ must = false
  | InvokeInst None | NotACall | CallBrInst _ => False
  end.

(** functions and instructions are listed once, and every callee is a function of the module *)
Record calls_wf : Prop := {
  cw_functions : NoDup (m_functions md);
  cw_insts F : F ∈ m_functions md → NoDup (function_instructions ir md F);
  cw_callees F i G m : F ∈ m_functions md → i ∈ function_instructions ir md F → calls_in i G m → G ∈ m_functions md
}.
Definition heap_ok (h : CGHeap) : Prop :=
  ∀ p, p ∈ dom (h_funNodes h) ∪ dom (h_instNodes h) ∪ dom (h_edges h) ∪ dom (h_subs h) → (p < h_fresh h)%positive.

Lemma addFunctionNode_spec F s : cg_wf s → functions s.2 !! F = None →
  wp (addFunctionNode F) (λ _ s', cg_wf s' ∧ outgoingEdges s'.2 = outgoingEdges s.2 ∧
    ∃ n, functions s'.2 = <[F := Some n]> (functions s.2)) s.
Proof.
  intros W HF. destruct (fresh_none s W) as (Hfr & _). destruct s as [h g]. simpl in *.
  unfold addFunctionNode. eapply wp_bind_run; [done|]. apply wp_modify. simpl.
  split; [|split; [done|by eexists]].
  set (s' := (mkCGHeap (<[h_fresh h := F]> (h_funNodes h)) (h_instNodes h) (h_edges h) (h_subs h) (Pos.succ (h_fresh h)),
              on_functions <[F := Some (h_fresh h)]> g)).
  assert (grows (h, g) s') as Gr.
  { split; try done. intros F' o Ho. simpl in *. rewrite lookup_insert_ne by congruence. done. }
  destruct (edges_grow _ s' W Gr) as (H1 & H2 & H3). split; try done.
  - intros F' o. simpl. rewrite lookup_insert_Some. intros [[<- <-]|[Hne Ho]].
    + exists (h_fresh h). by rewrite lookup_insert_eq.
    + destruct (wf_fun _ W F' o Ho) as (n & -> & Hn). exists n. split; [done|].
      rewrite lookup_insert_ne; [done|]. simpl in Hn. congruence.
  - apply W.
  - intros p. simpl. rewrite dom_insert_L. intros Hp. pose proof (wf_fresh _ W p) as Hw. simpl in Hw.
    destruct (decide (p = h_fresh h)); [lia|]. assert (p < h_fresh h)%positive; [|lia]. set_solver.
Qed.

Definition no_edges (s : CGSt) : Prop := outgoingEdges s.2 = ∅.

Lemma addFunctionNodes_spec s : cg_wf s → no_edges s → functions s.2 = ∅ → NoDup (m_functions md) →
  wp (forM addFunctionNode (m_functions md))
     (λ _ s', cg_wf s' ∧ no_edges s' ∧ ∀ F, is_Some (functions s'.2 !! F) ↔ F ∈ m_functions md) s.
Proof.
  intros W He Hf Hnd. apply (wp_forM _ (λ pre _ s', cg_wf s' ∧ no_edges s' ∧ ∀ F, is_Some (functions s'.2 !! F) ↔ F ∈ pre)).
  - split; [done|]. split; [done|]. intros F. rewrite Hf, lookup_empty. split; [by intros []|set_solver].
  - intros pre F post s1 Hl (W1 & He1 & Hf1).
    assert (F ∉ pre) as HF. { rewrite Hl in Hnd. apply NoDup_app in Hnd as (_ & Hnd & _). intros ?. eapply Hnd; [done|set_solver]. }
    eapply wp_mono; [apply addFunctionNode_spec; [done|]|].
    + destruct (functions s1.2 !! F) eqn:?; [|done]. destruct HF. apply Hf1. eauto.
    + intros [] s2 (W2 & He2 & n & Hf2). split; [done|]. split; [unfold no_edges in *; congruence|].
      intros F'. rewrite Hf2, elem_of_snoc, <- Hf1. destruct (decide (F = F')) as [->|].
      * rewrite lookup_insert_eq. split; eauto.
      * rewrite lookup_insert_ne by done. naive_solver.
Qed.

Lemma fetch_run F G a i must s Q : cg_wf s →
  functions s.2 !! F = Some (Some a) → is_Some (functions s.2 !! G) → (∀ m, ¬ records s F G i m) →
  (∀ s', cg_wf s' → functions s'.2 = functions s.2 →
     (∀ F' G' j m, records s' F' G' j m ↔ records s F' G' j m ∨ (F' = F ∧ G' = G ∧ j = i ∧ m = must)) → Q tt s') →
  wp (fetchOrCreateEdge a i G must ;;; ret tt) Q s.
Proof.
  intros W HF [o Ho] Hno HQ. destruct (wf_fun s W G o Ho) as (b & -> & _). apply wp_bind.
  eapply wp_mono; [by apply (fetchOrCreateEdge_spec F G a b)|]. intros e s' (W' & Hf & _ & Hr). apply wp_ret. auto.
Qed.

Lemma handleCall_spec F a i s : cg_wf s → functions s.2 !! F = Some (Some a) →
  (∀ G m, calls_in i G m → is_Some (functions s.2 !! G)) → (∀ G m, ¬ records s F G i m) →
  wp (match m_call md i with
      | CallInst _ | InvokeInst _ => handleCallInstruction md hasIndCSCallees getIndCSCallees a i
      | NotACall | CallBrInst _ => ret tt
      end)
     (λ _ s', cg_wf s' ∧ functions s'.2 = functions s.2 ∧
        ∀ F' G' j m, records s' F' G' j m ↔ records s F' G' j m ∨ (F' = F ∧ j = i ∧ calls_in i G' m)) s.
Proof.
  intros W HF Hcal Hno. unfold handleCallInstruction, getCalledFunction, calls_in in *.
  destruct (m_call md i) as [|[c|]|[c|]|]; try (apply wp_ret; split; [done|]; split; [done|]; naive_solver).
  - eapply (fetch_run F c); [done..|by apply (Hcal c true)|done|]. intros s' W' Hf Hr. split; [done|]. split; [done|].
    intros. rewrite Hr. naive_solver.
  - destruct (hasIndCSCallees i); simpl; [|apply wp_ret; split; [done|]; split; [done|]; naive_solver].
    eapply wp_mono; [apply (wp_forM _ (λ pre _ s', cg_wf s' ∧ functions s'.2 = functions s.2 ∧
      ∀ F' G' j m, records s' F' G' j m ↔ records s F' G' j m ∨ (F' = F ∧ j = i ∧ G' ∈ pre ∧ m = false)))|].
    + split; [done|]. split; [done|]. set_solver.
    + intros pre c post s1 Hl (W1 & Hf1 & Hr1). destruct (visit_split _ _ _ _ Hl) as (Hc & Hcp & _).
      eapply (fetch_run F c); [done|by rewrite Hf1|rewrite Hf1; by apply (Hcal c false)| |].
      * intros m [Hr|(_ & _ & Hin & _)]%Hr1; [by eapply Hno|done].
      * intros s' W' Hf Hr. split; [done|]. split; [congruence|]. intros. rewrite Hr, Hr1, elem_of_snoc. naive_solver.
    + intros [] s' (W' & Hf & Hr). split; [done|]. split; [done|]. intros. rewrite Hr, elem_of_visit. naive_solver.
  - eapply (fetch_run F c); [done..|by apply (Hcal c true)|done|]. intros s' W' Hf Hr. split; [done|]. split; [done|].
    intros. rewrite Hr. naive_solver.
Qed.

Lemma addCallsOf_spec F s : calls_wf → cg_wf s → F ∈ m_functions md →
  (∀ G, is_Some (functions s.2 !! G) ↔ G ∈ m_functions md) → (∀ G i m, ¬ records s F G i m) →
  wp (addCallsOf ir md hasIndCSCallees getIndCSCallees F)
     (λ _ s', cg_wf s' ∧ functions s'.2 = functions s.2 ∧
        ∀ F' G' j m, records s' F' G' j m ↔
          records s F' G' j m ∨ (F' = F ∧ j ∈ function_instructions ir md F ∧ calls_in j G' m)) s.
Proof.
  intros CW W HF Hdom Hno. unfold addCallsOf. apply wp_bind, wp_gets.
  destruct (proj2 (Hdom F) HF) as [o Ho]. destruct (wf_fun s W F o Ho) as (a & -> & _).
  apply wp_bind, wp_deref. exists a. rewrite Ho. split; [done|].
  apply (wp_forM _ (λ pre _ s', cg_wf s' ∧ functions s'.2 = functions s.2 ∧
    ∀ F' G' j m, records s' F' G' j m ↔ records s F' G' j m ∨ (F' = F ∧ j ∈ pre ∧ calls_in j G' m))).
  - split; [done|]. split; [done|]. set_solver.
  - intros pre i post s1 Hl (W1 & Hf1 & Hr1).
    assert (i ∉ pre) as Hi.
    { pose proof (cw_insts CW F HF) as Hnd. rewrite Hl in Hnd. apply NoDup_app in Hnd as (_ & Hnd & _).
      intros ?. eapply Hnd; [done|set_solver]. }
    eapply wp_mono; [apply (handleCall_spec F)|]; [done|by rewrite Hf1| | |].
    + intros G m Hc. rewrite Hf1. apply Hdom. eapply (cw_callees CW F i); [done| |done]. rewrite Hl. set_solver.
    + intros G m [Hr|(_ & ? & _)]%Hr1; [by eapply Hno|done].
    + intros [] s2 (W2 & Hf2 & Hr2). split; [done|]. split; [congruence|].
      intros. rewrite Hr2, Hr1, elem_of_snoc. naive_solver.
Qed.

Lemma CallGraph_new_run h : heap_ok h → calls_wf →
  ∃ s, CallGraph_new ir md hasIndCSCallees getIndCSCallees h = Ok s ∧ cg_wf s ∧
    (∀ F, is_Some (functions s.2 !! F) ↔ F ∈ m_functions md) ∧
    ∀ F G i m, records s F G i m ↔
      F ∈ m_functions md ∧ i ∈ function_instructions ir md F ∧ calls_in i G m.
Proof.
  intros Hh CW. set (s0 := (h, CallGraph_empty)).
  assert (cg_wf s0) as W0 by (split; simpl; try done).
  assert (wp (CallGraph_build ir md hasIndCSCallees getIndCSCallees) (λ _ s, cg_wf s ∧
    (∀ F, is_Some (functions s.2 !! F) ↔ F ∈ m_functions md) ∧
    ∀ F G i m, records s F G i m ↔
      F ∈ m_functions md ∧ i ∈ function_instructions ir md F ∧ calls_in i G m) s0) as H.
  { unfold CallGraph_build. apply wp_bind.
    eapply wp_mono; [apply addFunctionNodes_spec; [done..|apply CW]|]. intros [] s1 (W1 & He1 & Hdom1).
    assert (∀ F G i m, ¬ records s1 F G i m) as Hno.
    { intros F G i m (a & b & e & x & _ & _ & He & _). unfold getEdge in He. by rewrite He1, lookup_empty in He. }
    eapply wp_mono; [apply (wp_forM _ (λ pre _ s', cg_wf s' ∧ functions s'.2 = functions s1.2 ∧
      ∀ F G j m, records s' F G j m ↔ F ∈ pre ∧ j ∈ function_instructions ir md F ∧ calls_in j G m))|].
    - split; [done|]. split; [done|]. intros. split; [by intros ?%Hno|set_solver].
    - intros pre F post s2 Hl (W2 & Hf2 & Hr2).
      assert (F ∉ pre) as HF. { pose proof (cw_functions CW) as Hnd. rewrite Hl in Hnd.
        apply NoDup_app in Hnd as (_ & Hnd & _). intros ?. eapply Hnd; [done|set_solver]. }
      eapply wp_mono; [apply addCallsOf_spec; [done|done|rewrite Hl; set_solver|by rewrite Hf2|]|].
      + intros G i m [? _]%Hr2. done.
      + intros [] s3 (W3 & Hf3 & Hr3). split; [done|]. split; [congruence|].
        intros. rewrite Hr3, Hr2, elem_of_snoc. naive_solver.
    - intros [] s2 (W2 & Hf2 & Hr2). split; [done|]. rewrite Hf2. done. }
  apply wp_ok in H as (s & [] & Hrun & H). exists s. split; [|done]. unfold CallGraph_new. fold s0. by rewrite Hrun.
Qed.
End construction.

(** ** The edges of a node *)
Section edge_sets.
Context {IO : IterOrder}.

Lemma elem_of_edge_set e m : e ∈ edge_set m ↔ ∃ tmp n, m = Some tmp ∧ tmp !! n = Some e.
Proof.
  unfold edge_set. destruct m as [tmp|]; [|set_solver].
  assert (∀ l (s : gset Ptr), e ∈ foldl (λ s n, match tmp !! n with Some e => {[e]} ∪ s | None => s end) s l ↔
    e ∈ s ∨ ∃ n, n ∈ l ∧ tmp !! n = Some e) as H.
  { induction l as [|n l IH]; intros s; simpl; [set_solver|]. rewrite IH. destruct (tmp !! n) eqn:?; set_solver. }
  rewrite H. split.
  - intros [?|(n & _ & Hn)]; [set_solver|eauto].
  - intros (tmp' & n & [= <-] & Hn). right. exists n. rewrite elem_of_visit, elem_of_dom. eauto.
Qed.

Lemma elem_of_outgoing g a e : e ∈ getOutgoingEdges g a ↔ ∃ b, getEdge g a b = Some e.
Proof.
  unfold getOutgoingEdges, getEdge. rewrite elem_of_edge_set.
  destruct (outgoingEdges g !! a) as [tmp|]; naive_solver.
Qed.
Lemma elem_of_incoming g b e : e ∈ getIncomingEdges g b ↔ ∃ a, incEdge g b a = Some e.
Proof.
  unfold getIncomingEdges, incEdge. rewrite elem_of_edge_set.
  destruct (incomingEdges g !! b) as [tmp|]; naive_solver.
Qed.

End edge_sets.

(** (C11) The constructor ends with a well-formed graph: a node for each function of the module, an
    edge between two functions exactly when an instruction of the first may call the second, whose
    sub-edges are these calls; it is certain exactly when one of them is a direct call. *)
Theorem CallGraph_new_spec {IO : IterOrder} ir md hasIndCSCallees getIndCSCallees h :
  heap_ok h → calls_wf ir md hasIndCSCallees getIndCSCallees →
  ∃ s, CallGraph_new ir md hasIndCSCallees getIndCSCallees h = Ok s ∧ cg_wf s ∧
    (∀ F, is_Some (getFunctionNode s.2 F) ↔ F ∈ m_functions md) ∧
    ∀ F G a b, getFunctionNode s.2 F = Some a → getFunctionNode s.2 G = Some b →
      let calls i m := i ∈ function_instructions ir md F ∧
                       calls_in md hasIndCSCallees getIndCSCallees i G m in
      (is_Some (getEdge s.2 a b) ↔ ∃ i m, calls i m) ∧
      ∀ e, getEdge s.2 a b = Some e → ∃ x, h_edges s.1 !! e = Some x ∧
        (∀ i m, edge_calls s.1 x i m ↔ calls i m) ∧ (isAMustCall x = true ↔ ∃ i, calls i true).
Proof.
  intros Hh CW. destruct (CallGraph_new_run ir md hasIndCSCallees getIndCSCallees h Hh CW) as (s & Hrun & W & Hdom & Hrec).
  exists s. split; [done|]. split; [done|].
  assert (∀ F a, getFunctionNode s.2 F = Some a ↔ functions s.2 !! F = Some (Some a)) as Hnode.
  { intros F a. unfold getFunctionNode. destruct (functions s.2 !! F) as [o|]; naive_solver. }
  split.
  - intros F. rewrite <- Hdom. unfold getFunctionNode. split; [destruct (functions s.2 !! F); by intros []|].
    intros [o Ho]. rewrite Ho. destruct (wf_fun s W F o Ho) as (n & -> & _). eauto.
  - intros F G a b Ha%Hnode Hb%Hnode calls.
    assert (F ∈ m_functions md) as HF by (apply Hdom; eauto).
    assert (∀ i m, records s F G i m ↔ calls i m) as Hcalls by (intros; rewrite Hrec; unfold calls; tauto).
    split; [rewrite (edge_exists s W F G a b Ha Hb); by setoid_rewrite Hcalls|].
    intros e He. destruct (wf_edge s W a b e He) as (_ & _ & x & Hx & _). exists x. split; [done|]. split.
    + intros i m. rewrite <- Hcalls. split; [by exists a, b, e, x|].
      intros (a' & b' & e' & x' & ? & ? & ? & ? & Hc). congruence.
    + rewrite (edge_must s W F G a b e x Ha Hb He Hx). by setoid_rewrite Hcalls.
Qed.
