(* ===== verification/CallGraphRemove.v ===== *)
(** * Removing a call from a call graph

    [removeSubEdge] removes exactly one call, keeps the graph well-formed, and removes the edge
    with its last call. *)
From S2P Require Import Prelude LoopStructure IRModule CallGraph CallGraphSpec.

(** the outcome of a computation from what holds after it *)
Lemma wp_run {S A} (m : M S A) s s' a : wp m (λ a' s'', s'' = s' ∧ a' = a) s → m s = Ok (s', a).
Proof. intros (? & ? & ? & -> & ->)%wp_ok. done. Qed.

Section remove.
Context {IO : IterOrder}.
Context (s : CGSt) (W : cg_wf s) (a b e : Ptr) (x : CGEdge) (se : Ptr) (y : SubEdge) (i : Ptr).
Context (He : getEdge s.2 a b = Some e) (Hx : h_edges s.1 !! e = Some x) (Hse : se ∈ ce_subEdges x).
Context (Hy : h_subs s.1 !! se = Some y) (Hi : h_instNodes s.1 !! se_caller y = Some i).

Definition other_must : bool :=
  existsb (λ q, match h_subs s.1 !! q with Some z => se_isMust z | None => false end)
          (visit (ce_subEdges x ∖ {[se]})).
(** the edge without the sub-edge *)
Definition edge_left : CGEdge :=
  mkCGEdge a b (if se_isMust y then other_must else ce_isMust x) (ce_subEdges x ∖ {[se]})
    (delete i (ce_subEdgesMap x)).
Definition heap_left : CGHeap :=
  mkCGHeap (h_funNodes s.1) (h_instNodes s.1) (<[e := edge_left]> (h_edges s.1)) (delete se (h_subs s.1))
    (h_fresh s.1).

Lemma edge_x : ce_caller x = a ∧ ce_callee x = b ∧ edge_ok s.1 x.
Proof. destruct (wf_edge s W a b e He) as (_ & _ & x' & ? & ? & ? & _ & ?). by simplify_eq. Qed.

Lemma map_se : ce_subEdgesMap x !! i = Some se.
Proof.
  destruct edge_x as (_ & _ & Hok). destruct (eo_sub _ _ Hok se Hse) as (y' & i' & ? & _ & ? & ?). by simplify_eq.
Qed.

(** two sub-edges of one edge have different instructions *)
Lemma sub_of_inst q z : q ∈ ce_subEdges x → h_subs s.1 !! q = Some z → h_instNodes s.1 !! se_caller z = Some i → q = se.
Proof.
  intros Hq Hz Hiz. destruct edge_x as (_ & _ & Hok). pose proof map_se.
  destruct (eo_sub _ _ Hok q Hq) as (z' & i' & ? & _ & ? & ?). by simplify_eq.
Qed.

Lemma other_must_spec : other_must = true ↔
  ∃ q z, q ∈ ce_subEdges x ∧ q ≠ se ∧ h_subs s.1 !! q = Some z ∧ se_isMust z = true.
Proof.
  unfold other_must. rewrite existsb_exists. split.
  - intros (q & Hq & Hm). apply list_elem_of_In, elem_of_visit in Hq.
    destruct (h_subs s.1 !! q) as [z|] eqn:Hz; [|done]. exists q, z. set_solver.
  - intros (q & z & Hq & Hne & Hz & Hm). exists q. rewrite <- list_elem_of_In, elem_of_visit, Hz. set_solver.
Qed.

Lemma edge_removeSubEdge_run : edge_removeSubEdge e se s = Ok ((heap_left, s.2), tt).
Proof.
  destruct edge_x as (Ha & Hb & Hok).
  set (x1 := mkCGEdge (ce_caller x) (ce_callee x) (ce_isMust x) (ce_subEdges x ∖ {[se]}) (delete i (ce_subEdgesMap x))).
  unfold edge_removeSubEdge. rewrite (bind_ok _ _ _ _ _ (load_cgedge_run e x s Hx)).
  rewrite (bind_ok (massert _) _ s s tt) by (by rewrite bool_decide_true by done).
  rewrite (bind_ok _ _ _ _ _ (load_subedge_run se y s Hy)).
  rewrite (bind_ok _ _ _ _ _ (getInstruction_run _ i s Hi)). fold x1.
  rewrite (bind_ok _ _ _ _ _ (store_cgedge_run e x1 x s Hx)).
  assert (h_edges (with_edge e x1 s).1 !! e = Some x1) as Hx1 by apply lookup_insert_eq.
  assert (∀ s2 : CGSt, s2 = with_edge e edge_left s → delete_subedge se s2 = Ok ((heap_left, s.2), tt)) as Hdel.
  { intros s2 ->. unfold delete_subedge. by rewrite (bind_ok _ _ _ _ _ (load_subedge_run se y (with_edge e edge_left s) Hy)). }
  apply wp_run, wp_bind. unfold edge_left in Hdel. destruct (se_isMust y) eqn:Hmust.
  - apply wp_bind, wp_massert. split.
    { apply (eo_must _ _ Hok). exists i, se, y. done. }
    apply wp_bind. apply (wp_anyM _ (λ q, match h_subs s.1 !! q with Some z => se_isMust z | None => false end)).
    { intros q Hq%elem_of_visit. destruct (eo_sub _ _ Hok q) as (z & _ & Hz & _); [set_solver|].
      rewrite Hz. unfold bind. by rewrite (load_subedge_run q z). }
    change (existsb _ (visit (ce_subEdges x1))) with other_must. destruct other_must eqn:Hom.
    + apply wp_ret. unfold wp. rewrite Hdel; [done|]. unfold with_edge, x1. rewrite Ha, Hb.
      assert (ce_isMust x = true) as ->; [|done]. apply (eo_must _ _ Hok). exists i, se, y. done.
    + unfold wp. rewrite (store_cgedge_run e _ x1 _ Hx1), Hdel; [done|].
      unfold with_edge, unsetMust, x1. simpl. by rewrite insert_insert_eq, Ha, Hb.
  - apply wp_ret. unfold wp. rewrite Hdel; [done|]. unfold with_edge, x1. by rewrite Ha, Hb.
Qed.

(** ** The calls that are left *)

Lemma left_calls j m : edge_calls heap_left edge_left j m ↔ edge_calls s.1 x j m ∧ j ≠ i.
Proof.
  unfold edge_calls. simpl. split.
  - intros (q & z & Hq & Hz & Hj & <-). apply lookup_delete_Some in Hz as [_ Hz].
    split; [exists q, z; set_solver|]. intros Hji. rewrite Hji in Hj. pose proof (sub_of_inst q z). set_solver.
  - intros [(q & z & Hq & Hz & Hj & <-) Hne]. exists q, z.
    assert (q ≠ se) by (intros ->; simplify_eq). rewrite lookup_delete_ne by done. set_solver.
Qed.

Lemma left_ok : edge_ok heap_left edge_left.
Proof.
  destruct edge_x as (_ & _ & Hok). pose proof Hok as [H1 H2 H3]. pose proof map_se as Hmap. split; simpl.
  - intros q Hq. destruct (H1 q) as (z & j & Hz & Hc & Hj & Hm); [set_solver|]. exists z, j.
    assert (j ≠ i) by (intros ->; simplify_eq; set_solver).
    rewrite !lookup_delete_ne by set_solver. pose proof (proj1 (proj2 edge_x)). split_and!; [done|congruence|done..].
  - intros j q [Hne Hm]%lookup_delete_Some. destruct (H2 j q Hm) as (z & Hq & Hz & Hj). exists z.
    assert (q ≠ se) by (intros ->; simplify_eq). rewrite lookup_delete_ne by done. set_solver.
  - setoid_rewrite left_calls. destruct (se_isMust y) eqn:Hmust.
    + rewrite other_must_spec. split.
      * intros (q & z & Hq & Hne & Hz & Hm). destruct (H1 q Hq) as (z' & j & ? & _ & Hj & _). simplify_eq.
        exists j. split; [by exists q, z|]. intros ->. by pose proof (sub_of_inst q z Hq Hz Hj).
      * intros (j & (q & z & Hq & Hz & Hj & Hm) & Hne). exists q, z. split_and!; try done. intros ->. simplify_eq.
    + rewrite H3. split; [|naive_solver]. intros [j Hj]. exists j. split; [done|]. intros Hji.
      destruct Hj as (q & z & Hq & Hz & Hj & Hm). rewrite Hji in Hj. pose proof (sub_of_inst q z Hq Hz Hj). simplify_eq. congruence.
Qed.

(** an edge that does not hold [se] *)
Lemma kept_ok x' : (∀ q, q ∈ ce_subEdges x' → q ≠ se) → edge_ok s.1 x' →
  edge_ok heap_left x' ∧ ∀ j m, edge_calls heap_left x' j m ↔ edge_calls s.1 x' j m.
Proof.
  intros Hne [H1 H2 H3].
  assert (∀ j m, edge_calls heap_left x' j m ↔ edge_calls s.1 x' j m) as Hc.
  { intros j m. unfold edge_calls. simpl. split; intros (q & z & Hq & Hz & ?); exists q, z.
    - by apply lookup_delete_Some in Hz as [_ Hz].
    - by rewrite lookup_delete_ne by (apply not_eq_sym, Hne; done). }
  split; [|done]. split.
  - intros q Hq. destruct (H1 q Hq) as (z & j & ?). exists z, j. simpl.
    by rewrite lookup_delete_ne by (apply not_eq_sym, Hne; done).
  - intros j q Hm. destruct (H2 j q Hm) as (z & Hq & ?). exists z. simpl.
    by rewrite lookup_delete_ne by (apply not_eq_sym, Hne; done).
  - rewrite H3. by setoid_rewrite Hc.
Qed.

(** the graph when [e] has calls left, and when it has none *)
Definition graph_left : CallGraph :=
  if decide (ce_subEdges x ∖ {[se]} = ∅) then
    mkCallGraph (functions s.2) (instructionNodes s.2)
      (<[a := delete b (default ∅ (outgoingEdges s.2 !! a))]> (outgoingEdges s.2))
      (<[b := delete a (default ∅ (incomingEdges s.2 !! b))]> (incomingEdges s.2))
  else s.2.
Definition final_heap : CGHeap :=
  if decide (ce_subEdges x ∖ {[se]} = ∅) then
    mkCGHeap (h_funNodes s.1) (h_instNodes s.1) (delete e (h_edges s.1)) (delete se (h_subs s.1)) (h_fresh s.1)
  else heap_left.

Lemma unlink_run m k c : (match m !! k with Some tmp => tmp !! c | None => None end) = Some e →
  unlinkEdge m k c e = Ok (<[k := delete c (default ∅ (m !! k))]> m).
Proof.
  unfold unlinkEdge. destruct (m !! k) as [tmp|]; [|done]. intros ->. by rewrite bool_decide_true.
Qed.

Lemma removeSubEdge_run : removeSubEdge e se s = Ok ((final_heap, graph_left), tt).
Proof.
  unfold removeSubEdge. rewrite (bind_ok _ _ _ _ _ edge_removeSubEdge_run).
  assert (h_edges (heap_left, s.2).1 !! e = Some edge_left) as Hl by apply lookup_insert_eq.
  rewrite (bind_ok _ _ _ _ _ (load_cgedge_run e edge_left _ Hl)).
  unfold getNumberOfSubEdges, final_heap, graph_left. cbn [edge_left ce_subEdges].
  destruct (decide (ce_subEdges x ∖ {[se]} = ∅)) as [Hem|Hne].
  - rewrite Hem, size_empty. cbn [getCaller getCallee edge_left ce_caller ce_callee]. simpl (_ =? _)%Z. cbv iota.
    apply wp_run, wp_bind, wp_gets. pose proof (wf_inc s W a b) as Hinc. rewrite He in Hinc.
    apply wp_bind, wp_lift. eexists. split; [by apply unlink_run|].
    apply wp_bind, wp_lift. eexists. split; [by apply unlink_run|].
    apply wp_bind, wp_modify. unfold wp, delete_cgedge, bind, load_cgedge. simpl.
    rewrite lookup_insert_eq. simpl. unfold modify. simpl. rewrite delete_insert_eq. done.
  - destruct (Z.eqb_spec (Z.of_nat (size (ce_subEdges x ∖ {[se]}))) 0) as [H0|_]; [|done].
    destruct Hne. apply leibniz_equiv, size_empty_inv. lia.
Qed.

Lemma left_get c d :
  getEdge graph_left c d = (if decide (c = a ∧ d = b ∧ ce_subEdges x ∖ {[se]} = ∅) then None else getEdge s.2 c d) ∧
  incEdge graph_left d c = (if decide (c = a ∧ d = b ∧ ce_subEdges x ∖ {[se]} = ∅) then None else incEdge s.2 d c).
Proof.
  unfold graph_left. destruct (decide (ce_subEdges x ∖ {[se]} = ∅)) as [Hem|Hne].
  2: { by rewrite !(decide_False (P := c = a ∧ _)) by tauto. }
  unfold getEdge, incEdge. simpl. split.
  - destruct (decide (c = a)) as [->|]; [|rewrite lookup_insert_ne, decide_False by naive_solver; done].
    rewrite lookup_insert_eq. destruct (decide (d = b)) as [->|].
    + by rewrite lookup_delete_eq, decide_True.
    + rewrite lookup_delete_ne, decide_False by naive_solver. by destruct (outgoingEdges s.2 !! a).
  - destruct (decide (d = b)) as [->|]; [|rewrite lookup_insert_ne, decide_False by naive_solver; done].
    rewrite lookup_insert_eq. destruct (decide (c = a)) as [->|].
    + by rewrite lookup_delete_eq, decide_True.
    + rewrite lookup_delete_ne, decide_False by naive_solver. by destruct (incomingEdges s.2 !! b).
Qed.

Lemma final_same : h_subs final_heap = h_subs heap_left ∧ h_instNodes final_heap = h_instNodes s.1 ∧
  h_funNodes final_heap = h_funNodes s.1 ∧ h_fresh final_heap = h_fresh s.1 ∧
  (∀ p, p ≠ e → h_edges final_heap !! p = h_edges s.1 !! p) ∧
  functions graph_left = functions s.2 ∧ instructionNodes graph_left = instructionNodes s.2.
Proof.
  unfold final_heap, graph_left. case_decide; simpl; split_and!; try done; intros p Hp.
  - by rewrite lookup_delete_ne.
  - by rewrite lookup_insert_ne.
Qed.

Lemma final_ok x' : edge_ok heap_left x' →
  edge_ok final_heap x' ∧ ∀ j m, edge_calls final_heap x' j m ↔ edge_calls heap_left x' j m.
Proof.
  destruct final_same as (Hs & Hn & _). apply edge_ok_frame; [done|]. intros n j Hj. rewrite Hn. exact Hj.
Qed.

Lemma edge_then c d e' : getEdge graph_left c d = Some e' →
  (c = a ∧ d = b ∧ e' = e ∧ ce_subEdges x ∖ {[se]} ≠ ∅ ∧ h_edges final_heap !! e' = Some edge_left) ∨
  (¬ (c = a ∧ d = b) ∧ getEdge s.2 c d = Some e' ∧ e' ≠ e ∧ h_edges final_heap !! e' = h_edges s.1 !! e').
Proof.
  rewrite (proj1 (left_get c d)). case_decide as Hc; [done|]. intros He'.
  destruct (decide (c = a ∧ d = b)) as [[-> ->]|Hne].
  - left. assert (e' = e) as -> by congruence. assert (ce_subEdges x ∖ {[se]} ≠ ∅) as Hn by tauto.
    split_and!; try done. unfold final_heap. rewrite decide_False by done. apply lookup_insert_eq.
  - right. assert (e' ≠ e) as Hee.
    { intros ->. destruct (wf_edge s W c d e He') as (_ & _ & x' & ? & ? & ? & _).
      destruct edge_x as (? & ? & _). apply Hne. split; congruence. }
    split_and!; try done. by apply final_same.
Qed.

(** the other edges do not hold [se] *)
Lemma other_edge c d e' : getEdge s.2 c d = Some e' → e' ≠ e →
  ∃ x', h_edges s.1 !! e' = Some x' ∧ edge_ok final_heap x' ∧
    ∀ j m, edge_calls final_heap x' j m ↔ edge_calls s.1 x' j m.
Proof.
  intros He' Hne. destruct (wf_edge s W c d e' He') as (_ & _ & x' & Hx' & _ & _ & _ & Hok).
  exists x'. split; [done|]. destruct (kept_ok x') as [Hk Hc]; [|done|].
  { intros q Hq ->. apply Hne. by eapply (wf_disjoint s W c d e' a b e x' x se). }
  destruct (final_ok x' Hk) as [Hk' Hc']. split; [done|]. intros j m. by rewrite Hc', Hc.
Qed.

Lemma removed_wf : cg_wf (final_heap, graph_left).
Proof.
  destruct final_same as (Hs & Hn & Hfn & Hfr & He' & Hf & Hin). split; simpl.
  - rewrite Hf, Hfn. apply W.
  - rewrite Hin, Hn. apply W.
  - intros c d. destruct (left_get c d) as [-> ->]. by rewrite (wf_inc s W).
  - unfold is_node. rewrite Hf. intros c d e' [(-> & -> & -> & Hne & Hx')|(_ & Hg & Hne & Hx')]%edge_then.
    + destruct (wf_edge s W a b e He) as (? & ? & _). split_and!; try done. exists edge_left.
      split_and!; try done. by apply final_ok, left_ok.
    + destruct (wf_edge s W c d e' Hg) as (? & ? & x' & Hx0 & ? & ? & ? & _). split_and!; try done.
      exists x'. destruct (other_edge c d e' Hg Hne) as (x'' & ? & ? & _).
      assert (x'' = x') as -> by congruence. split_and!; try done; congruence.
  - intros c d e1 c' d' e2 x1 x2 q H1 H2 Hx1 Hx2 Hq1 Hq2.
    assert (∀ c d e' x', getEdge graph_left c d = Some e' → h_edges final_heap !! e' = Some x' →
      ∃ x0, getEdge s.2 c d = Some e' ∧ h_edges s.1 !! e' = Some x0 ∧ ∀ q, q ∈ ce_subEdges x' → q ∈ ce_subEdges x0) as Hback.
    { intros c0 d0 e' x' [(-> & -> & -> & _ & Hl)|(_ & Hg & _ & Hl)]%edge_then Hx'.
      - exists x. split_and!; try done. assert (x' = edge_left) as -> by congruence. simpl. set_solver.
      - exists x'. split_and!; try done. congruence. }
    destruct (Hback c d e1 x1 H1 Hx1) as (y1 & ? & ? & ?). destruct (Hback c' d' e2 x2 H2 Hx2) as (y2 & ? & ? & ?).
    eapply (wf_disjoint s W c d e1 c' d' e2 y1 y2 q); auto.
  - intros p. rewrite Hfn, Hn, Hs, Hfr. simpl. intros Hp. apply W.
    assert (p ∈ dom (h_edges final_heap) → p ∈ dom (h_edges s.1)) as Hd.
    { destruct (decide (p = e)) as [->|Hpe]; [intros _; apply elem_of_dom; eauto|].
      rewrite !elem_of_dom, He' by done. done. }
    rewrite dom_delete_L in Hp. set_solver.
Qed.

Lemma removed_records F G : functions s.2 !! F = Some (Some a) → functions s.2 !! G = Some (Some b) →
  ∀ F' G' j m, records (final_heap, graph_left) F' G' j m ↔
    records s F' G' j m ∧ ¬ (F' = F ∧ G' = G ∧ j = i).
Proof.
  intros HF HG F' G' j m. destruct final_same as (_ & _ & _ & _ & _ & Hf & _).
  unfold records. simpl. rewrite Hf. split.
  - intros (a' & b' & e' & x' & Ha' & Hb' & [(Hca & Hcb & Hce & Hne & Hl)|(Hab & Hg & Hne & Hl)]%edge_then & Hx' & Hc).
    + assert (x' = edge_left) as -> by congruence. apply final_ok in Hc; [|apply left_ok].
      apply left_calls in Hc as [Hc Hji]. split; [|tauto]. exists a', b', e, x. subst a' b'. done.
    + destruct (other_edge a' b' e' Hg Hne) as (x'' & Hx'' & _ & Hiff).
      assert (x'' = x') as -> by congruence. apply Hiff in Hc. split; [by exists a', b', e', x'|].
      intros (-> & -> & _). apply Hab. split; congruence.
  - intros [(a' & b' & e' & x' & Ha' & Hb' & Hg & Hx' & Hc) Hne].
    destruct (decide (a' = a ∧ b' = b)) as [[Hca Hcb]|Hab].
    + assert (F' = F) as -> by (eapply (function_node_unique s W); [done|by rewrite Hca]).
      assert (G' = G) as -> by (eapply (function_node_unique s W); [done|by rewrite Hcb]).
      assert (j ≠ i) as Hji by tauto. assert (e' = e) as -> by congruence. assert (x' = x) as -> by congruence.
      assert (edge_calls heap_left edge_left j m) as Hcl by by apply left_calls.
      assert (ce_subEdges x ∖ {[se]} ≠ ∅) as Hns.
      { destruct Hcl as (q & ? & Hq & _). simpl in Hq. set_solver. }
      exists a, b, e, edge_left. split_and!; try done.
      * by rewrite (proj1 (left_get a b)), decide_False by tauto.
      * unfold final_heap. rewrite decide_False by done. apply lookup_insert_eq.
      * apply final_ok; [apply left_ok|done].
    + assert (e' ≠ e) as Hee.
      { intros ->. destruct (wf_edge s W a' b' e Hg) as (_ & _ & x0 & ? & ? & ? & _).
        destruct edge_x as (? & ? & _). apply Hab. split; congruence. }
      destruct (other_edge a' b' e' Hg Hee) as (x'' & Hx'' & _ & Hiff). assert (x'' = x') as -> by congruence.
      exists a', b', e', x'. split_and!; try done.
      * by rewrite (proj1 (left_get a' b')), decide_False by tauto.
      * by rewrite (proj1 (proj2 (proj2 (proj2 (proj2 final_same))))).
      * by apply Hiff.
Qed.
End remove.

(** (C39) Removing a sub-edge of an edge of a well-formed call graph succeeds and leaves a well-formed
    graph that records the same calls but the one removed; the edge goes when it was the last. *)
Theorem removeSubEdge_spec {IO : IterOrder} s F G a b e x se y i :
  cg_wf s → functions s.2 !! F = Some (Some a) → functions s.2 !! G = Some (Some b) →
  getEdge s.2 a b = Some e → h_edges s.1 !! e = Some x → se ∈ ce_subEdges x →
  h_subs s.1 !! se = Some y → h_instNodes s.1 !! se_caller y = Some i →
  ∃ s', removeSubEdge e se s = Ok (s', tt) ∧ cg_wf s' ∧ functions s'.2 = functions s.2 ∧
    (∀ F' G' j m, records s' F' G' j m ↔ records s F' G' j m ∧ ¬ (F' = F ∧ G' = G ∧ j = i)) ∧
    (getEdge s'.2 a b = None ↔ ce_subEdges x = {[se]}).
Proof.
  intros W HF HG He Hx Hse Hy Hi. eexists. split; [by eapply removeSubEdge_run|].
  split; [by eapply removed_wf|]. split; [simpl; unfold graph_left; case_decide; done|].
  split; [by eapply removed_records|]. simpl. edestruct left_get as [-> _]. rewrite He.
  case_decide as Hd.
  - split; [|done]. intros _. destruct Hd as (_ & _ & Hd). apply set_eq. intros q.
    destruct (decide (q = se)) as [->|]; [set_solver|]. split; [|set_solver]. intros Hq.
    assert (q ∈ (∅ : gset Ptr)); [rewrite <- Hd|]; set_solver.
  - split; [done|]. intros Hs. destruct Hd. split_and!; [done..|]. rewrite Hs. set_solver.
Qed.
