(* ===== verification/CallGraphRefine.v ===== *)
(** * The call graph of a program (src/core/pdg_generator: PDGGenerator_callGraph.cpp)

    [PDGGenerator::getProgramCallGraph] builds the call graph when it is first asked for, with
    the functions that may escape as the callees of indirect calls, and lets the registered
    analyses exclude or confirm the calls that are not certain. *)
From S2P Require Import Prelude LoopStructure IRModule CallGraph.

(** [CallStrength] of src/core/call_graph_analysis *)
Inductive CallStrength := CS_CANNOT_EXIST | CS_MAY_EXIST | CS_MUST_EXIST.
#[global] Instance CallStrength_eq_dec : EqDecision CallStrength.
Proof. solve_decision. Defined.

(** an analysis: [canThisFunctionBeACallee] for an instruction and a function *)
Abbreviation CallGraphAnalysis := (Ptr → Ptr → CallStrength).

Section program_call_graph.
Context {IO : IterOrder} (ir : IRProgram) (md : LLVMModule).

(** ** The callees of an indirect call

    the types of functions, and of the functions that calls expect *)
Context (function_type call_type : Ptr → Ptr).

Definition getFunctionsWithSignature (functions : gset Ptr) (signature : Ptr) : gset Ptr :=
  foldl (λ s f, if bool_decide (function_type f = signature) then {[f]} ∪ s else s) ∅ (visit functions).

(** some user of [F] is not a call of [F] *)
Definition mightEscape (F : Ptr) : bool :=
  existsb (λ user, negb (isCallBase md user && bool_decide (getCalledFunction md user = Some F))) (m_uses md F).
Definition getFunctionsThatMightEscape : gset Ptr :=
  foldl (λ s F, if mightEscape F then {[F]} ∪ s else s) ∅ (m_functions md).

(** the local [hasF] and [getCallees] *)
Definition hasF (call : Ptr) : bool := bool_decide (getCalledFunction md call = None).
Definition getCallees (call : Ptr) : gset Ptr :=
  match getCalledFunction md call with
  | Some calleeF => {[calleeF]}
  | None => getFunctionsWithSignature getFunctionsThatMightEscape (call_type call)
  end.

(** ** Refinement *)

(** [e->setMust()] through a pointer *)
Definition edge_setMust (e : Ptr) : M CGSt unit :=
  let* x := load_cgedge e in store_cgedge e (setMust x).
Definition subedge_setMust (se : Ptr) : M CGSt unit :=
  let* y := load_subedge se in
  modify (λ s, (mkCGHeap (h_funNodes s.1) (h_instNodes s.1) (h_edges s.1)
                  (<[se := mkSubEdge (se_caller y) (se_callee y) true]> (h_subs s.1)) (h_fresh s.1), s.2)).

(** the first analysis that excludes or confirms the call decides *)
Fixpoint queryAnalyses (cgAnalyses : list CallGraphAnalysis) (caller callee : Ptr) : CallStrength :=
  match cgAnalyses with
  | [] => CS_MAY_EXIST
  | cga :: cgAnalyses =>
      match cga caller callee with
      | CS_CANNOT_EXIST => CS_CANNOT_EXIST
      | CS_MUST_EXIST => CS_MUST_EXIST
      | CS_MAY_EXIST => queryAnalyses cgAnalyses caller callee
      end
  end.

Context (cgAnalyses : list CallGraphAnalysis).

(** one sub-edge; [toDelete] and [mustSubEdge] live for all sub-edges of the edge *)
Definition refineSubEdge (outgoingEdge callee : Ptr) (st : gset Ptr * option Ptr) (subedge : Ptr)
    : M CGSt (gset Ptr * option Ptr) :=
  let* y := load_subedge subedge in
  if se_isMust y then ret st
  else
    let* caller := getInstruction (se_caller y) in
    massert (isCallBase md caller) ;;;
    let '(toDelete, mustSubEdge) :=
      match queryAnalyses cgAnalyses caller callee with
      | CS_CANNOT_EXIST => ({[subedge]} ∪ st.1, st.2)
      | CS_MUST_EXIST => (st.1, Some subedge)
      | CS_MAY_EXIST => st
      end in
    (if bool_decide (0 < size toDelete) then
       massert (bool_decide (mustSubEdge = None)) ;;;
       removeSubEdge outgoingEdge subedge
     else ret tt) ;;;
    (if bool_decide (mustSubEdge ≠ None) then
       subedge_setMust subedge ;;; edge_setMust outgoingEdge
     else ret tt) ;;;
    ret (toDelete, mustSubEdge).

Definition refineEdge (outgoingEdge : Ptr) : M CGSt unit :=
  let* x := load_cgedge outgoingEdge in
  let* callee := getFunction (getCallee x) in
  foldM (refineSubEdge outgoingEdge callee) (∅, None) (visit (getSubEdges x)) ;;;
  ret tt.

(** a null node has no edges *)
Definition refineNode (node : Ptr) : M CGSt unit :=
  let* g := gets snd in forM refineEdge (visit (getOutgoingEdges g node)).
Definition refineCallGraph : M CGSt unit :=
  let* g := gets snd in forM refineNode (visit (set_omap id (getFunctionNodes md g false))).

(** [disableSVFCallGraph] and what SVF says of indirect calls *)
Context (disableSVFCallGraph : bool) (svf_hasIndCSCallees : Ptr → bool) (svf_getIndCSCallees : Ptr → gset Ptr).

Definition emptyCGHeap : CGHeap := mkCGHeap ∅ ∅ ∅ ∅ 1%positive.
(** the graph that [noelleCG] holds, built when it is null *)
Definition fetchCallGraph (noelleCG : option CGSt) : Res CGSt :=
  match noelleCG with
  | Some s => Ok s
  | None =>
      if disableSVFCallGraph then CallGraph_new ir md hasF getCallees emptyCGHeap
      else CallGraph_new ir md svf_hasIndCSCallees svf_getIndCSCallees emptyCGHeap
  end.
Definition getProgramCallGraph (noelleCG : option CGSt) : Res CGSt :=
  rbind (fetchCallGraph noelleCG) (λ s,
  match cgAnalyses with
  | [] => Ok s
  | _ => match refineCallGraph s with Ok (s, _) => Ok s | Fail e => Fail e end
  end).
End program_call_graph.
