(* ===== verification/CallGraphRefineSpec.v ===== *)
(** * What the analyses of calls achieve

    When the analyses treat all uncertain calls of an edge alike, the call graph of the program
    loses exactly the calls they exclude, and exactly the calls they confirm become certain. *)
From S2P Require Import Prelude LoopStructure IRModule CallGraph CallGraphSpec CallGraphRemove CallGraphRefine.

(** ** A call becomes certain *)
Section confirm.
Context (s : CGSt) (W : cg_wf s) (a b e : Ptr) (x : CGEdge) (se : Ptr) (y : SubEdge) (i : Ptr).
Context (He : getEdge s.2 a b = Some e) (Hx : h_edges s.1 !! e = Some x) (Hse : se ∈ ce_subEdges x).
Context (Hy : h_subs s.1 !! se = Some y) (Hi : h_instNodes s.1 !! se_caller y = Some i).

Definition must_sub : SubEdge := mkSubEdge (se_caller y) (se_callee y) true.
Definition confirmed : CGHeap :=
  mkCGHeap (h_funNodes s.1) (h_instNodes s.1) (<[e := setMust x]> (h_edges s.1)) (<[se := must_sub]> (h_subs s.1))
    (h_fresh s.1).

Lemma confirm_run : (subedge_setMust se ;;; edge_setMust e) s = Ok ((confirmed, s.2), tt).
Proof.
  unfold subedge_setMust, edge_setMust, bind, modify. rewrite (load_subedge_run se y s Hy).
  set (s1 := (_, s.2) : CGSt). rewrite (load_cgedge_run e x s1 Hx). by rewrite (store_cgedge_run e _ x s1 Hx).
Qed.

Lemma sub_confirmed q : h_subs confirmed !! q = if decide (q = se) then Some must_sub else h_subs s.1 !! q.
Proof. simpl. case_decide as Hq; [rewrite Hq; apply lookup_insert_eq|by rewrite lookup_insert_ne]. Qed.

(** an edge that does not hold [se] *)
Lemma unconfirmed_ok x' : se ∉ ce_subEdges x' → edge_ok s.1 x' →
  edge_ok confirmed x' ∧ ∀ j m, edge_calls confirmed x' j m ↔ edge_calls s.1 x' j m.
Proof.
  intros Hne [H1 H2 H3].
  assert (∀ q, q ∈ ce_subEdges x' → h_subs confirmed !! q = h_subs s.1 !! q) as Hsub.
  { intros q Hq. rewrite sub_confirmed, decide_False; [done|]. by intros ->. }
  assert (∀ j m, edge_calls confirmed x' j m ↔ edge_calls s.1 x' j m) as Hc.
  { intros j m. unfold edge_calls. split; intros (q & z & Hq & Hz & ?); exists q, z; rewrite Hsub in *; auto. }
  split; [|done]. split.
  - intros q Hq. rewrite Hsub by done. by apply H1.
  - intros j q Hm. destruct (H2 j q Hm) as (z & Hq & ?). exists z. by rewrite Hsub.
  - rewrite H3. by setoid_rewrite Hc.
Qed.

Lemma confirmed_ok : edge_ok confirmed (setMust x) ∧
  ∀ j m, edge_calls confirmed (setMust x) j m ↔
    ∃ m0, edge_calls s.1 x j m0 ∧ m = if decide (j = i) then true else m0.
Proof.
  destruct (edge_x s W a b e x He Hx) as (_ & _ & Hok). pose proof Hok as [H1 H2 H3].
  assert (∀ j m, edge_calls confirmed (setMust x) j m ↔
    ∃ m0, edge_calls s.1 x j m0 ∧ m = if decide (j = i) then true else m0) as Hc.
  { intros j m. unfold edge_calls. split.
    - intros (q & z & Hq & Hz & Hj & <-). rewrite sub_confirmed in Hz. case_decide as Hqs.
      + simplify_eq. simpl in *. rewrite Hi in Hj. simplify_eq. exists (se_isMust y).
        split; [by exists se, y|by rewrite decide_True].
      + exists (se_isMust z). split; [by exists q, z|]. rewrite decide_False; [done|].
        intros Hji. rewrite Hji in Hj. by pose proof (sub_of_inst s W a b e x se y i He Hx Hse Hy Hi q z Hq Hz Hj).
    - intros (m0 & (q & z & Hq & Hz & Hj & <-) & ->). case_decide as Hji.
      + exists se, must_sub. rewrite sub_confirmed, decide_True by done. rewrite Hji. done.
      + exists q, z. rewrite sub_confirmed, decide_False by (intros ->; simplify_eq). done. }
  split; [|done]. split; simpl.
  - intros q Hq. destruct (H1 q Hq) as (z & j & Hz & Hzc & Hj & Hm).
    destruct (decide (q = se)) as [->|Hne].
    + exists must_sub, j. rewrite lookup_insert_eq. simplify_eq. done.
    + exists z, j. by rewrite lookup_insert_ne.
  - intros j q Hm. destruct (H2 j q Hm) as (z & Hq & Hz & Hj). destruct (decide (q = se)) as [->|Hne].
    + exists must_sub. rewrite lookup_insert_eq. simplify_eq. done.
    + exists z. by rewrite lookup_insert_ne.
  - split; [|done]. intros _. exists i. apply Hc. exists (se_isMust y). rewrite decide_True by done.
    split; [by exists se, y|done].
Qed.

Lemma other_unconfirmed c d e' : getEdge s.2 c d = Some e' → e' ≠ e →
  ∃ x', h_edges s.1 !! e' = Some x' ∧ edge_ok confirmed x' ∧
    ∀ j m, edge_calls confirmed x' j m ↔ edge_calls s.1 x' j m.
Proof.
  intros He' Hne. destruct (wf_edge s W c d e' He') as (_ & _ & x' & Hx' & _ & _ & _ & Hok).
  exists x'. split; [done|]. apply unconfirmed_ok; [|done].
  intros Hin. apply Hne. by eapply (wf_disjoint s W c d e' a b e x' x se).
Qed.

Lemma confirmed_wf : cg_wf (confirmed, s.2).
Proof.
  split; simpl.
  - apply W.
  - apply W.
  - apply W.
  - intros c d e' He'. destruct (wf_edge s W c d e' He') as (? & ? & x' & Hx' & ? & ? & ? & _). split_and!; try done.
    destruct (decide (e' = e)) as [->|Hne].
    + rewrite lookup_insert_eq. exists (setMust x). simplify_eq. split_and!; try done. apply confirmed_ok.
    + rewrite lookup_insert_ne by done. exists x'. destruct (other_unconfirmed c d e' He' Hne) as (x'' & ? & ? & _).
      simplify_eq. done.
  - intros c d e1 c' d' e2 x1 x2 q H1 H2 Hx1 Hx2 Hq1 Hq2.
    assert (∀ e' x', <[e := setMust x]> (h_edges s.1) !! e' = Some x' →
      ∃ x0, h_edges s.1 !! e' = Some x0 ∧ ce_subEdges x' = ce_subEdges x0) as Hback.
    { intros e' x' [[<- <-]|[_ ?]]%lookup_insert_Some; eauto. }
    destruct (Hback e1 x1 Hx1) as (y1 & ? & Hs1), (Hback e2 x2 Hx2) as (y2 & ? & Hs2). rewrite Hs1 in Hq1. rewrite Hs2 in Hq2.
    by eapply (wf_disjoint s W c d e1 c' d' e2 y1 y2 q).
  - intros p. rewrite !dom_insert_lookup_L by eauto. apply W.
Qed.

Lemma confirmed_records F G : functions s.2 !! F = Some (Some a) → functions s.2 !! G = Some (Some b) →
  ∀ F' G' j m, records (confirmed, s.2) F' G' j m ↔
    ∃ m0, records s F' G' j m0 ∧ m = if decide (F' = F ∧ G' = G ∧ j = i) then true else m0.
Proof.
  intros HF HG F' G' j m. unfold records. simpl. split.
  - intros (a' & b' & e' & x' & Ha' & Hb' & He' & Hx' & Hc). destruct (decide (e' = e)) as [->|Hne].
    + rewrite lookup_insert_eq in Hx'. simplify_eq. apply confirmed_ok in Hc as (m0 & Hc & ->).
      exists m0. split; [by exists a', b', e, x|]. apply decide_ext.
      destruct (wf_edge s W a' b' e He') as (_ & _ & x' & ? & ? & ? & _).
      destruct (edge_x s W a b e x He Hx) as (? & ? & _). simplify_eq.
      pose proof (function_node_unique s W F F' _ HF Ha'). pose proof (function_node_unique s W G G' _ HG Hb'). naive_solver.
    + rewrite lookup_insert_ne in Hx' by done. destruct (other_unconfirmed a' b' e' He' Hne) as (x'' & ? & _ & Hiff).
      simplify_eq. apply Hiff in Hc. exists m. split; [by exists a', b', e', x'|].
      rewrite decide_False; [done|]. intros (-> & -> & _). congruence.
  - intros (m0 & (a' & b' & e' & x' & Ha' & Hb' & He' & Hx' & Hc) & ->). destruct (decide (e' = e)) as [->|Hne].
    + exists a', b', e, (setMust x). rewrite lookup_insert_eq. split_and!; try done. apply confirmed_ok.
      simplify_eq. exists m0. split; [done|]. apply decide_ext.
      destruct (wf_edge s W a' b' e He') as (_ & _ & x' & ? & ? & ? & _).
      destruct (edge_x s W a b e x He Hx) as (? & ? & _). simplify_eq.
      pose proof (function_node_unique s W F F' _ HF Ha'). pose proof (function_node_unique s W G G' _ HG Hb'). naive_solver.
    + exists a', b', e', x'. rewrite lookup_insert_ne by done. split_and!; try done.
      destruct (other_unconfirmed a' b' e' He' Hne) as (x'' & ? & _ & Hiff). simplify_eq. apply Hiff.
      rewrite decide_False; [done|]. intros (-> & -> & _). congruence.
Qed.
End confirm.

(** ** One call *)

(** what becomes of a call that was certain or not, when the analyses say [v] *)
Definition refined (v : CallStrength) (m0 m : bool) : Prop :=
  if m0 then m = true
  else match v with CS_CANNOT_EXIST => False | CS_MAY_EXIST => m = false | CS_MUST_EXIST => m = true end.
(** the variables that the sub-edges of an edge share, when the analyses say [v] of all of them *)
Definition shared_ok (v : CallStrength) (st : gset Ptr * option Ptr) : Prop :=
  match v with
  | CS_CANNOT_EXIST => st.2 = None
  | CS_MAY_EXIST => st = (∅, None)
  | CS_MUST_EXIST => st.1 = ∅
  end.

Section refine.
Context {IO : IterOrder} (md : LLVMModule) (cgAnalyses : list CallGraphAnalysis).
Notation verdict := (queryAnalyses cgAnalyses).

(** the sub-edge [se] of the edge [e] in the state [s] *)
Record holds (s : CGSt) (a b e se : Ptr) (y : SubEdge) (i : Ptr) : Prop := {
  ho_edge : getEdge s.2 a b = Some e;
  ho_sub : ∃ x, h_edges s.1 !! e = Some x ∧ se ∈ ce_subEdges x;
  ho_content : h_subs s.1 !! se = Some y;
  ho_inst : h_instNodes s.1 !! se_caller y = Some i
}.
(** what a step on the edge [e] leaves alone *)
Record others_kept (s s' : CGSt) (e : Ptr) : Prop := {
  ok_funs : functions s'.2 = functions s.2;
  ok_old c d e' : getEdge s'.2 c d = Some e' → getEdge s.2 c d = Some e';
  ok_edge c d e' : e' ≠ e → getEdge s.2 c d = Some e' → getEdge s'.2 c d = Some e'
}.

Lemma holds_records s a b e se y i F G : functions s.2 !! F = Some (Some a) → functions s.2 !! G = Some (Some b) →
  holds s a b e se y i → records s F G i (se_isMust y).
Proof. intros HF HG [He (x & Hx & Hse) Hy Hi]. exists a, b, e, x. split_and!; try done. by exists se, y. Qed.

Lemma refineSubEdge_spec s a b e se y i F G v st : cg_wf s →
  functions s.2 !! F = Some (Some a) → functions s.2 !! G = Some (Some b) → holds s a b e se y i → shared_ok v st →
  (se_isMust y = false → isCallBase md i = true ∧ verdict i G = v) →
  wp (refineSubEdge md cgAnalyses e G st se) (λ st' s', cg_wf s' ∧ others_kept s s' e ∧ shared_ok v st' ∧
    (∀ q z j, q ≠ se → holds s a b e q z j → holds s' a b e q z j) ∧
    ∀ F' G' j m, records s' F' G' j m ↔ ∃ m0, records s F' G' j m0 ∧
      if decide (F' = F ∧ G' = G ∧ j = i) then refined v m0 m else m = m0) s.
Proof.
  intros W HF HG Hh Hst Hv. pose proof (holds_records _ _ _ _ _ _ _ F G HF HG Hh) as Hrec.
  pose proof Hh as [He (x & Hx & Hse) Hy Hi].
  assert (∀ F' G' j m0, records s F' G' j m0 → F' = F ∧ G' = G ∧ j = i → m0 = se_isMust y) as Hfun.
  { intros F' G' j m0 Hr (-> & -> & ->). by eapply records_functional. }
  assert (others_kept s s e) as Hsame by (by split).
  unfold refineSubEdge. eapply wp_bind_run; [by apply load_subedge_run|].
  destruct (se_isMust y) eqn:Hm; rewrite ?Hm in Hfun.
  { apply wp_ret. split_and!; [done..|]. intros F' G' j m. split.
    - intros Hr. exists m. split; [done|]. case_decide as Hd; [|done]. by rewrite (Hfun _ _ _ _ Hr Hd).
    - intros (m0 & Hr & Hd). case_decide as Hc; [|by subst]. pose proof (Hfun _ _ _ _ Hr Hc). subst m0. simpl in Hd. by subst. }
  destruct (Hv eq_refl) as [Hcall Hver].
  eapply wp_bind_run; [by apply getInstruction_run|]. apply wp_bind, wp_massert. split; [done|]. rewrite Hver.
  destruct st as [toDelete must]. destruct v; cbn [fst snd] in *.
  - (* excluded *) simpl in Hst. subst must. rewrite bool_decide_true.
    2: { assert (size ({[se]} ∪ toDelete) ≠ 0); [|lia]. rewrite size_non_empty_iff. set_solver. }
    apply wp_bind, wp_bind, wp_massert. split; [done|].
    unfold wp at 1. rewrite (removeSubEdge_run s W a b e x se y i He Hx Hse Hy Hi).
    apply wp_bind. rewrite bool_decide_false by (intros H; by apply H). apply wp_ret, wp_ret. split_and!.
    + by eapply removed_wf.
    + split; [simpl; unfold graph_left; case_decide; done|..]; intros c d e'; simpl; edestruct left_get as [-> _].
      * by case_decide.
      * intros Hne Hg. rewrite decide_False; [done|]. intros (-> & -> & _). congruence.
    + done.
    + intros q z j Hne [Hqe (x' & Hx' & Hq) Hz Hj]. simplify_eq. split; simpl.
      * edestruct left_get as [-> _]. rewrite decide_False; [done|]. set_solver.
      * unfold final_heap. rewrite decide_False by set_solver. simpl. rewrite lookup_insert_eq.
        eexists. split; [done|]. simpl. set_solver.
      * unfold final_heap. case_decide; simpl; by rewrite lookup_delete_ne.
      * unfold final_heap. case_decide; done.
    + intros F' G' j m. rewrite (removed_records s W a b e x se y i He Hx Hse Hy Hi F G HF HG). split.
      * intros [Hr Hne]. exists m. split; [done|]. by rewrite decide_False.
      * intros (m0 & Hr & Hd). case_decide as Hc; [|by subst]. by rewrite (Hfun _ _ _ _ Hr Hc) in Hd.
  - (* left *) simpl in Hst. simplify_eq. apply wp_bind, wp_ret, wp_bind. simpl. apply wp_ret, wp_ret. split_and!; [done..|].
    intros F' G' j m. split.
    + intros Hr. exists m. split; [done|]. case_decide as Hd; [|done]. by rewrite (Hfun _ _ _ _ Hr Hd).
    + intros (m0 & Hr & Hd). case_decide as Hc; [|by subst]. pose proof (Hfun _ _ _ _ Hr Hc). subst m0. simpl in Hd. by subst.
  - (* confirmed *) simpl in Hst. subst toDelete. apply wp_bind. simpl. apply wp_ret, wp_bind.
    unfold wp at 1. rewrite (confirm_run s e x se y Hx Hy). apply wp_ret. split_and!.
    + by eapply confirmed_wf.
    + by split.
    + done.
    + intros q z j Hne [Hqe (x' & Hx' & Hq) Hz Hj]. simplify_eq. split; simpl; [done| |by rewrite lookup_insert_ne|done].
      rewrite lookup_insert_eq. eexists. split; [done|]. done.
    + intros F' G' j m. rewrite (confirmed_records s W a b e x se y i He Hx Hse Hy Hi F G HF HG). split.
      * intros (m0 & Hr & ->). exists m0. split; [done|]. case_decide as Hd; [|done]. by rewrite (Hfun _ _ _ _ Hr Hd).
      * intros (m0 & Hr & Hd). exists m0. split; [done|]. case_decide as Hc; [|done]. by rewrite (Hfun _ _ _ _ Hr Hc) in Hd.
Qed.

Lemma others_kept_trans s1 s2 s3 e : others_kept s1 s2 e → others_kept s2 s3 e → others_kept s1 s3 e.
Proof. intros [] []. split; [congruence|auto|auto]. Qed.

Lemma refined_twice v m1 m : (∃ m0, refined v m1 m0 ∧ refined v m0 m) ↔ refined v m1 m.
Proof. destruct m1, v, m; simpl; split; try naive_solver; intros; (exists true + exists false); naive_solver. Qed.

Lemma refined_none v (R : bool → Prop) (P : Prop) `{!Decision P} m :
  ¬ P → R m ↔ ∃ m0, R m0 ∧ if decide P then refined v m0 m else m = m0.
Proof. intros HP. destruct (decide P); naive_solver. Qed.

(** two rounds of refinement make one *)
Lemma refined_trans v (R0 R1 R2 : bool → Prop) (P1 P2 P : Prop)
    `{!Decision P1} `{!Decision P2} `{!Decision P} m :
  (∀ m, R1 m ↔ ∃ m0, R0 m0 ∧ if decide P1 then refined v m0 m else m = m0) →
  (∀ m, R2 m ↔ ∃ m0, R1 m0 ∧ if decide P2 then refined v m0 m else m = m0) → (P ↔ P1 ∨ P2) →
  R2 m ↔ ∃ m0, R0 m0 ∧ if decide P then refined v m0 m else m = m0.
Proof.
  intros H1 H2 HP. rewrite H2. setoid_rewrite H1.
  destruct (decide P1), (decide P2), (decide P); try tauto; try naive_solver.
  setoid_rewrite <- refined_twice at 3. clear. split.
  - intros (m0 & (m1 & ? & ?) & ?). exists m1. eauto.
  - intros (m1 & ? & m0 & ? & ?). exists m0. eauto.
Qed.

(** ** One edge *)

Definition insts_of (s : CGSt) (l : list Ptr) : list Ptr :=
  omap (λ q, match h_subs s.1 !! q with Some y => h_instNodes s.1 !! se_caller y | None => None end) l.
Lemma elem_of_insts_of s l j : j ∈ insts_of s l ↔
  ∃ q y, q ∈ l ∧ h_subs s.1 !! q = Some y ∧ h_instNodes s.1 !! se_caller y = Some j.
Proof.
  unfold insts_of. rewrite list_elem_of_omap. split.
  - intros (q & Hq & Hj). destruct (h_subs s.1 !! q) as [y|] eqn:?; [|done]. eauto.
  - intros (q & y & Hq & Hy & Hj). exists q. by rewrite Hy.
Qed.

(** the analyses say [v] of all uncertain calls of [G] by [F], which are calls *)
Definition says (s : CGSt) (F G : Ptr) (v : CallStrength) : Prop :=
  ∀ i, records s F G i false → isCallBase md i = true ∧ verdict i G = v.

Lemma refineEdge_spec s a b e F G v : cg_wf s →
  functions s.2 !! F = Some (Some a) → functions s.2 !! G = Some (Some b) → getEdge s.2 a b = Some e → says s F G v →
  wp (refineEdge md cgAnalyses e) (λ _ s', cg_wf s' ∧ others_kept s s' e ∧
    ∀ F' G' j m, records s' F' G' j m ↔ ∃ m0, records s F' G' j m0 ∧
      if decide (F' = F ∧ G' = G) then refined v m0 m else m = m0) s.
Proof.
  intros W HF HG He Hv. destruct (wf_edge s W a b e He) as (_ & _ & x & Hx & _ & Hxb & _ & Hok).
  assert (∀ q, q ∈ visit (ce_subEdges x) → ∃ y i, holds s a b e q y i) as Hall.
  { intros q Hq%elem_of_visit. destruct (eo_sub _ _ Hok q Hq) as (y & i & ? & _ & ? & _).
    exists y, i. split; eauto. }
  unfold refineEdge. eapply wp_bind_run; [by apply load_cgedge_run|].
  eapply wp_bind_run; [unfold getFunction, getCallee; by rewrite Hxb, (node_function s W G b HG)|].
  apply wp_bind. eapply wp_mono.
  { apply (wp_foldM _ (λ pre post st s1, cg_wf s1 ∧ others_kept s s1 e ∧ shared_ok v st ∧
      (∀ q y i, q ∈ post → holds s a b e q y i → holds s1 a b e q y i) ∧
      ∀ F' G' j m, records s1 F' G' j m ↔ ∃ m0, records s F' G' j m0 ∧
        if decide (F' = F ∧ G' = G ∧ j ∈ insts_of s pre) then refined v m0 m else m = m0)).
    - split; [done|]. split; [by split|]. split; [by destruct v|]. split; [done|].
      intros F' G' j m. apply refined_none. by intros (_ & _ & ?%not_elem_of_nil).
    - intros pre q post st s1 Hl (W1 & K1 & Hst & Hpost & Hrec).
      destruct (Hall q) as (y & i & Hq); [change (visit (getSubEdges x)) with (visit (ce_subEdges x)) in Hl; rewrite Hl; set_solver|].
      eapply wp_mono.
      { apply (refineSubEdge_spec s1 a b e q y i F G v st W1); [by rewrite (ok_funs _ _ _ K1)..| |done|].
        - apply Hpost; [set_solver|done].
        - intros Hm. apply Hv. rewrite <- Hm. by eapply holds_records. }
      intros st2 s2 (W2 & K2 & Hst2 & Hkeep & Hrec2). split; [done|].
      split; [by eapply others_kept_trans|]. split; [done|]. split.
      + intros q' y' i' Hq' Hh. apply Hkeep; [|apply Hpost; [set_solver|done]]. intros ->.
        pose proof (NoDup_visit (getSubEdges x)) as Hnd. rewrite Hl in Hnd.
        apply NoDup_app in Hnd as (_ & _ & Hnd%NoDup_cons). by destruct Hnd.
      + intros F' G' j m. eapply refined_trans; [apply Hrec|apply Hrec2|].
        unfold insts_of. rewrite omap_app, elem_of_app. simpl.
        rewrite (ho_content _ _ _ _ _ _ _ Hq), (ho_inst _ _ _ _ _ _ _ Hq), list_elem_of_singleton. tauto. }
  intros st s' (W' & K' & _ & _ & Hrec). apply wp_ret. split; [done|]. split; [done|].
  intros F' G' j m. rewrite Hrec. f_equiv. intros m0. apply and_iff_under. intros Hr.
  rewrite (decide_ext (F' = F ∧ G' = G ∧ j ∈ _) (F' = F ∧ G' = G)); [done|]. split; [tauto|].
  intros [-> ->]. split_and!; [done..|]. destruct Hr as (a' & b' & e' & x' & Ha' & Hb' & He' & Hx' & q & y & Hq & Hy & Hi & _).
  simplify_eq. apply elem_of_insts_of. exists q, y. by rewrite elem_of_visit.
Qed.

(** ** All edges *)

Definition edge_of (s : CGSt) (F G : Ptr) : option Ptr :=
  match getFunctionNode s.2 F, getFunctionNode s.2 G with
  | Some a, Some b => getEdge s.2 a b
  | _, _ => None
  end.
Definition edge_in (s : CGSt) (P : gset Ptr) (F G : Ptr) : bool :=
  match edge_of s F G with Some e => bool_decide (e ∈ P) | None => false end.

Lemma edge_of_nodes s F G a b : functions s.2 !! F = Some (Some a) → functions s.2 !! G = Some (Some b) →
  edge_of s F G = getEdge s.2 a b.
Proof. intros HF HG. unfold edge_of, getFunctionNode. by rewrite HF, HG. Qed.
Lemma edge_of_Some s F G e : edge_of s F G = Some e →
  ∃ a b, functions s.2 !! F = Some (Some a) ∧ functions s.2 !! G = Some (Some b) ∧ getEdge s.2 a b = Some e.
Proof.
  unfold edge_of, getFunctionNode. destruct (functions s.2 !! F) as [[a|]|]; [|done..].
  destruct (functions s.2 !! G) as [[b|]|]; [|done..]. eauto.
Qed.
Lemma edge_of_unique s F G F' G' e : cg_wf s → edge_of s F G = Some e → edge_of s F' G' = Some e → F' = F ∧ G' = G.
Proof.
  intros W (a & b & HF & HG & He)%edge_of_Some (a' & b' & HF' & HG' & He')%edge_of_Some.
  destruct (wf_edge s W a b e He) as (_ & _ & x & ? & ? & ? & _).
  destruct (wf_edge s W a' b' e He') as (_ & _ & x' & ? & ? & ? & _). simplify_eq.
  split; by eapply (function_node_unique s W).
Qed.

(** the edges [P] of [s] have been refined *)
Record refined_upto (s : CGSt) (P : gset Ptr) (s1 : CGSt) : Prop := {
  ru_wf : cg_wf s1;
  ru_funs : functions s1.2 = functions s.2;
  ru_old c d e : getEdge s1.2 c d = Some e → getEdge s.2 c d = Some e;
  ru_edge c d e : e ∉ P → getEdge s.2 c d = Some e → getEdge s1.2 c d = Some e;
  ru_records F G j m : records s1 F G j m ↔ ∃ m0, records s F G j m0 ∧
    if decide (edge_in s P F G = true) then refined (verdict j G) m0 m else m = m0
}.

Context (s : CGSt) (W : cg_wf s) (Hsays : ∀ F G, ∃ v, says s F G v).

Lemma records_refined s1 F G v j m0 m : records s1 F G j m0 → says s1 F G v → refined v m0 m ↔ refined (verdict j G) m0 m.
Proof. intros Hr Hv. destruct m0; [done|]. by destruct (Hv j Hr) as [_ <-]. Qed.

Lemma refineEdge_upto P a b e s1 : refined_upto s P s1 → getEdge s.2 a b = Some e → e ∉ P →
  wp (refineEdge md cgAnalyses e) (λ _ s2, refined_upto s ({[e]} ∪ P) s2) s1.
Proof.
  intros [W1 Hf1 Hold1 Hedge1 Hrec1] He HeP. destruct (wf_edge s W a b e He) as ([F HF] & [G HG] & _).
  destruct (Hsays F G) as [v Hv]. pose proof (edge_of_nodes s F G a b HF HG) as HFG. rewrite He in HFG.
  assert (says s1 F G v) as Hv1.
  { intros i (m0 & Hr & Hd)%Hrec1. apply Hv. unfold edge_in in Hd. rewrite HFG, bool_decide_false in Hd by done.
    simpl in Hd. by subst. }
  eapply wp_mono; [apply (refineEdge_spec s1 a b e F G v W1); [by rewrite Hf1..|by apply Hedge1|done]|].
  intros [] s2 (W2 & [Hf2 Hold2 Hedge2] & Hrec2). split.
  - done.
  - congruence.
  - auto.
  - intros c d e' He'. rewrite not_elem_of_union, not_elem_of_singleton in He'. destruct He'. auto.
  - intros F' G' j m. eapply (refined_trans _ _ _ _ _ (F' = F ∧ G' = G)); [apply Hrec1| |].
    + intros m'. rewrite Hrec2. f_equiv. intros m0. apply and_iff_under. intros Hr.
      case_decide as Hc; [|done]. destruct Hc as [-> ->]. by eapply records_refined.
    + unfold edge_in. destruct (edge_of s F' G') as [e'|] eqn:He'.
      * rewrite !bool_decide_eq_true, elem_of_union, elem_of_singleton. split; [|intros [?|[-> ->]]; [auto|left; congruence]].
        intros [->|?]; [|auto]. right. by apply (edge_of_unique s F G F' G' e).
      * split; [done|]. intros [?|[-> ->]]; congruence.
Qed.

Lemma refineNode_upto P a s1 : refined_upto s P s1 → (∀ b e, getEdge s.2 a b = Some e → e ∉ P) →
  wp (refineNode md cgAnalyses a) (λ _ s2, ∃ P', refined_upto s P' s2 ∧
    ∀ e, e ∈ P' ↔ e ∈ P ∨ ∃ b, getEdge s.2 a b = Some e) s1.
Proof.
  intros R HP. unfold refineNode. apply wp_bind, wp_gets.
  assert (∀ e, e ∈ visit (getOutgoingEdges s1.2 a) ↔ ∃ b, getEdge s.2 a b = Some e) as Hout.
  { intros e. rewrite elem_of_visit, elem_of_outgoing. split; intros [b Hb]; exists b; [by eapply ru_old|].
    eapply ru_edge; [done| |done]. by eapply HP. }
  eapply wp_mono.
  { apply (wp_forM _ (λ pre _ s2, refined_upto s (list_to_set pre ∪ P) s2)).
    - by rewrite list_to_set_nil, union_empty_l_L.
    - intros pre e post s2 Hl R2. destruct (proj1 (Hout e)) as [b Hb]; [rewrite Hl; set_solver|].
      eapply wp_mono; [apply (refineEdge_upto _ a b e s2 R2 Hb)|].
      + rewrite not_elem_of_union, elem_of_list_to_set. split; [|by eapply HP].
        pose proof (NoDup_visit (getOutgoingEdges s1.2 a)) as Hnd. rewrite Hl in Hnd.
        apply NoDup_app in Hnd as (_ & Hnd & _). intros Hpre. eapply Hnd; [done|set_solver].
      + intros [] s3 R3. replace (list_to_set (pre ++ [e]) ∪ P) with ({[e]} ∪ (list_to_set pre ∪ P)); [done|].
        rewrite list_to_set_app_L. simpl. set_solver. }
  intros [] s2 R2. eexists. split; [done|]. intros e. rewrite elem_of_union, elem_of_list_to_set, Hout. tauto.
Qed.

Lemma elem_of_getFunctionNodes g o : o ∈ getFunctionNodes md g false ↔ ∃ F, functions g !! F = Some o.
Proof.
  unfold getFunctionNodes. simpl.
  assert (∀ l (r : gset (option Ptr)), o ∈ foldl (λ s f, match functions g !! f with Some n => {[n]} ∪ s | None => s end) r l ↔
    o ∈ r ∨ ∃ F, F ∈ l ∧ functions g !! F = Some o) as H.
  { induction l as [|f l IH]; intros r; simpl; [set_solver|]. rewrite IH. destruct (functions g !! f) eqn:?; set_solver. }
  rewrite H. split.
  - intros [?%elem_of_empty|(F & _ & HF)]; [done|eauto].
  - intros [F HF]. right. exists F. rewrite elem_of_visit, elem_of_dom. eauto.
Qed.

Lemma refineCallGraph_run : ∃ s', refineCallGraph md cgAnalyses s = Ok (s', tt) ∧ cg_wf s' ∧
  functions s'.2 = functions s.2 ∧
  ∀ F G j m, records s' F G j m ↔ ∃ m0, records s F G j m0 ∧ refined (verdict j G) m0 m.
Proof.
  assert (∀ a, a ∈ visit (set_omap id (getFunctionNodes md s.2 false) : gset Ptr) ↔ is_node s.2 a) as Hnodes.
  { intros a. rewrite elem_of_visit, elem_of_set_omap. setoid_rewrite elem_of_getFunctionNodes. unfold is_node, id. naive_solver. }
  assert (wp (refineCallGraph md cgAnalyses) (λ _ s', ∃ P, refined_upto s P s' ∧
    ∀ e, e ∈ P ↔ ∃ a b, is_node s.2 a ∧ getEdge s.2 a b = Some e) s) as H.
  { unfold refineCallGraph. apply wp_bind, wp_gets. eapply wp_mono.
    { apply (wp_forM _ (λ pre _ s1, ∃ P, refined_upto s P s1 ∧ ∀ e, e ∈ P ↔ ∃ a b, a ∈ pre ∧ getEdge s.2 a b = Some e)).
      - exists ∅. split.
        + split; try done. intros F G j m. unfold edge_in. destruct (edge_of s F G); [rewrite bool_decide_false by set_solver|]; naive_solver.
        + intros e. split; [by intros ?%elem_of_empty|by intros (? & ? & ?%not_elem_of_nil & _)].
      - intros pre a post s1 Hl (P & R & HP). eapply wp_mono.
        { apply (refineNode_upto P a s1 R). intros b e He (a' & b' & Ha' & He')%HP.
          destruct (wf_edge s W a b e He) as (_ & _ & x & ? & ? & _).
          destruct (wf_edge s W a' b' e He') as (_ & _ & x' & ? & ? & _).
          assert (a' = a) as -> by congruence.
          pose proof (NoDup_visit (set_omap id (getFunctionNodes md s.2 false) : gset Ptr)) as Hnd. rewrite Hl in Hnd.
          apply NoDup_app in Hnd as (_ & Hnd & _). eapply Hnd; [done|set_solver]. }
        intros [] s2 (P' & R' & HP'). exists P'. split; [done|]. intros e. rewrite HP', HP.
        setoid_rewrite elem_of_snoc. naive_solver. }
    intros [] s' (P & R & HP). exists P. split; [done|]. intros e. rewrite HP. by setoid_rewrite Hnodes. }
  apply wp_ok in H as (s' & [] & Hrun & P & [W' Hf' _ _ Hrec'] & HP). exists s'. split_and!; [done..|].
  intros F G j m. rewrite Hrec'. f_equiv. intros m0. apply and_iff_under. intros (a & b & e & x & Ha & Hb & He & _).
  rewrite decide_True; [done|]. unfold edge_in. rewrite (edge_of_nodes s F G a b Ha Hb), He.
  apply bool_decide_eq_true, HP. exists a, b. split; [|done]. by exists F.
Qed.
End refine.

(** ** The call graph of a program *)

(** a direct call of [G], or a call through a pointer that [G] may be the target of *)
Definition calls_directly (md : LLVMModule) (i G : Ptr) : Prop :=
  m_call md i = CallInst (Some G) ∨ m_call md i = InvokeInst (Some G).
Definition may_target (md : LLVMModule) (function_type call_type : Ptr → Ptr) (i G : Ptr) : Prop :=
  m_call md i = CallInst None ∧ G ∈ m_functions md ∧ mightEscape md G = true ∧ function_type G = call_type i.

Lemma calls_in_program {IO : IterOrder} md function_type call_type i G m :
  calls_in md (hasF md) (getCallees md function_type call_type) i G m ↔
    (calls_directly md i G ∧ m = true) ∨ (may_target md function_type call_type i G ∧ m = false).
Proof.
  unfold calls_in, calls_directly, may_target, hasF, getCallees, getCalledFunction.
  destruct (m_call md i) as [|[c|]|[c|]|[c|]] eqn:Hi; try intuition congruence.
  unfold getFunctionsWithSignature, getFunctionsThatMightEscape.
  rewrite elem_of_foldl_if, elem_of_visit, elem_of_foldl_if, bool_decide_true, bool_decide_eq_true by done.
  set_solver.
Qed.

(** (C12) Without SVF, when the analyses treat the uncertain calls between two functions alike, the
    call graph of the program is well-formed and has exactly these calls: the direct ones, which are
    certain, and those of a pointer to an escaping function of the right type that no analysis
    excludes, which are certain when an analysis confirms them. *)
Theorem getProgramCallGraph_spec {IO : IterOrder} ir md function_type call_type cgAnalyses has get :
  NoDup (m_functions md) →
  (∀ F, F ∈ m_functions md → NoDup (function_instructions ir md F)) →
  (∀ F i G, F ∈ m_functions md → i ∈ function_instructions ir md F → calls_directly md i G → G ∈ m_functions md) →
  (∀ F G, ∃ v, ∀ i, i ∈ function_instructions ir md F → may_target md function_type call_type i G →
     queryAnalyses cgAnalyses i G = v) →
  ∃ s, getProgramCallGraph ir md function_type call_type cgAnalyses true has get None = Ok s ∧ cg_wf s ∧
    (∀ F, is_Some (functions s.2 !! F) ↔ F ∈ m_functions md) ∧
    ∀ F G i m, records s F G i m ↔ F ∈ m_functions md ∧ i ∈ function_instructions ir md F ∧
      ((calls_directly md i G ∧ m = true) ∨
       (may_target md function_type call_type i G ∧ refined (queryAnalyses cgAnalyses i G) false m)).
Proof.
  intros Hnd Hndi Hcal Huni.
  destruct (CallGraph_new_run ir md (hasF md) (getCallees md function_type call_type) emptyCGHeap) as (s0 & Hnew & W & Hdom & Hrec).
  - intros p. simpl. set_solver.
  - split; [done..|]. intros F i G m HF Hi [[Hd _]|[Hm _]]%calls_in_program; [by eapply Hcal|apply Hm].
  - assert (∀ F G, ∃ v, says md cgAnalyses s0 F G v) as Hsays.
    { intros F G. destruct (Huni F G) as [v Hv]. exists v. intros i (HF & Hi & [[_ [=]]|[Hm _]]%calls_in_program)%Hrec.
      split; [|by apply Hv]. unfold isCallBase. by rewrite (proj1 Hm). }
    assert (∃ s, getProgramCallGraph ir md function_type call_type cgAnalyses true has get None = Ok s ∧ cg_wf s ∧
      functions s.2 = functions s0.2 ∧ ∀ F G j m, records s F G j m ↔
        ∃ m0, records s0 F G j m0 ∧ refined (queryAnalyses cgAnalyses j G) m0 m) as (s & Hrun & W' & Hf & Hr).
    { unfold getProgramCallGraph, fetchCallGraph. rewrite Hnew. simpl. destruct (refineCallGraph_run md cgAnalyses s0 W Hsays)
        as (s1 & Hrun & W1 & Hf1 & Hr1). destruct cgAnalyses as [|cga l]; [|rewrite Hrun; by exists s1].
      exists s0. split_and!; [done..|]. intros F G j m. simpl. split.
      - intros Hm. exists m. by destruct m.
      - intros ([] & Hm & Heq); simpl in Heq; by subst. }
    exists s. rewrite Hf. split_and!; [done..|]. intros F G i m. rewrite Hr. setoid_rewrite Hrec.
    setoid_rewrite calls_in_program. clear. split.
    + intros (m0 & (HF & Hi & [[Hd ->]|[Hm ->]]) & Hv); split_and!; try done; [by left|by right].
    + intros (HF & Hi & [[Hd ->]|[Hm Hv]]).
      * exists true. split_and!; try done. by left.
      * exists false. split_and!; try done. by right.
Qed.
