(* ===== verification/FunctionsManager.v ===== *)
(** * The functions of a program (src/core/functions_manager: FunctionsManager.cpp)

    The class [FunctionsManager]: the functions of the module, those reachable from one in the
    call graph, and their order by hotness. It asks the call graph and the profile. *)
From S2P Require Import Prelude LoopStructure IRModule CallGraph CallGraphSpec Doubles Hot.
Open Scope nat_scope.

(** the call graph, null until it is first asked for *)
Record FunctionsManager := mkFunctionsManager { pcg : option CGSt }.

(** ** Generic lemmas *)

Lemma sum_list_with_drop (f f' : Ptr → nat) l x d :
  (∀ y, f' y ≤ f y) → x ∈ l → f' x + d ≤ f x → sum_list_with f' l + d ≤ sum_list_with f l.
Proof.
  intros Hle Hx Hd. induction l as [|y l IH]; [set_solver|]. simpl.
  assert (sum_list_with f' l ≤ sum_list_with f l) by (apply sum_list_with_le; auto).
  apply elem_of_cons in Hx as [<-|Hx]; [lia|]. specialize (IH Hx). pose proof (Hle y). lia.
Qed.

Section functions_manager.
Context {IO : IterOrder} (md : LLVMModule).
(** the call graph that [PDGGenerator::getProgramCallGraph] builds *)
Context (generateCallGraph : Res CGSt).

(** [main] is the function of the module with that name *)
Definition getEntryFunction (main : option Ptr) : option Ptr := main.

Definition getProgramCallGraph : M FunctionsManager CGSt := λ fm,
  match pcg fm with
  | Some g => Ok (fm, g)
  | None =>
      match generateCallGraph with
      | Ok g => Ok (mkFunctionsManager (Some g), g)
      | Fail e => Fail e
      end
  end.

(** [libraryFunction] can be null; [knownPure] holds of the names of the pure functions of libraries *)
Definition isTheLibraryFunctionPure (knownPure : Ptr → bool) (libraryFunction : option Ptr) : bool :=
  match libraryFunction with
  | None => false
  | Some f => if negb (isDeclaration md f) then false else if knownPure f then true else false
  end.

Definition getFunctions (isIntrinsic : Ptr → bool) : gset Ptr :=
  foldl (λ s f, if isDeclaration md f then s else if isIntrinsic f then s else {[f]} ∪ s) ∅ (m_functions md).
Definition getFunctionsWithBody : gset Ptr :=
  foldl (λ s f, if isDeclaration md f then s else {[f]} ∪ s) ∅ (m_functions md).
Definition getFunctionsWithPrefix (hasPrefix : Ptr → bool) : gset Ptr :=
  foldl (λ s f, if hasPrefix f then {[f]} ∪ s else s) ∅ (m_functions md).

(** ** Reachable functions *)

(** an edge out of the function that is visited: its callee is queued if it has a body *)
Definition queueCallee (h : CGHeap) (q : list Ptr) (outEdge : Ptr) : Res (list Ptr) :=
  match h_edges h !! outEdge with
  | None => Fail UndefinedBehaviour
  | Some x =>
      match h_funNodes h !! getCallee x with
      | None => Fail UndefinedBehaviour
      | Some F => Ok (if isDeclaration md F then q else q ++ [F])
      end
  end.
(** one iteration of the loop over the queue *)
Definition reachStep (s : CGSt) (st : gset Ptr * list Ptr) : Res ((gset Ptr * list Ptr) + gset Ptr) :=
  let '(funcSet, funcToTraverse) := st in
  match funcToTraverse with
  | [] => Ok (inr funcSet)
  | func :: q =>
      if bool_decide (func ∈ funcSet) then Ok (inl (funcSet, q))
      else
        let out := match getFunctionNode s.2 func with Some n => getOutgoingEdges s.2 n | None => ∅ end in
        rbind (foldR (queueCallee s.1) q (visit out)) (λ q, Ok (inl ({[func]} ∪ funcSet, q)))
  end.
Definition outDegree (s : CGSt) (F : Ptr) : nat :=
  size (match getFunctionNode s.2 F with Some n => getOutgoingEdges s.2 n | None => ∅ end).
(** every edge is queued once *)
Definition reachableFuel (s : CGSt) : nat :=
  S (S (sum_list_with (outDegree s) (elements (dom (functions s.2))))).

(** the functions of the module that were reached *)
Definition getFunctionsReachableFrom (startingPoint : Ptr) : M FunctionsManager (gset Ptr) :=
  let* s := getProgramCallGraph in
  let* funcSet := lift (while (reachableFuel s) (reachStep s) (∅, [startingPoint])) in
  ret (foldl (λ r f, if bool_decide (f ∈ funcSet) then {[f]} ∪ r else r) ∅ (m_functions md)).

(** ** Order by hotness

    [std::sort] returns some permutation in which no function is hotter than an earlier one; the
    model takes the one of merge sort. *)
Definition hotterOrEqual (a b : Z * Ptr) : Prop := (b.1 <= a.1)%Z.
#[global] Instance hotterOrEqual_dec : RelDecision hotterOrEqual.
Proof. intros a b. unfold hotterOrEqual. apply _. Defined.
Definition sortByHotness (prof : Hot) (functions : list Ptr) : Res (list Ptr) :=
  rbind (foldR (λ l f, rbind (getTotalInstructions_function prof f) (λ t, Ok (l ++ [(t, f)]))) [] functions) (λ l,
  Ok (snd <$> merge_sort hotterOrEqual l)).

(** ** What is reached *)

(** [F] calls [G], which has a body *)
Definition calls_body (s : CGSt) : relation Ptr := λ F G,
  (∃ i m, records s F G i m) ∧ isDeclaration md G = false.

Section reach.
Context (s : CGSt) (W : cg_wf s) (start : Ptr).

(** the callees queued from a function *)
Lemma queue_spec func q : 
  ∃ l, foldR (queueCallee s.1) q (visit (match getFunctionNode s.2 func with
                                         | Some n => getOutgoingEdges s.2 n | None => ∅ end)) = Ok (q ++ l) ∧
    (length l ≤ outDegree s func)%nat ∧ ∀ G, G ∈ l ↔ calls_body s func G.
Proof.
  set (out := match getFunctionNode s.2 func with Some n => getOutgoingEdges s.2 n | None => ∅ end).
  assert (∀ e, e ∈ out → ∃ a b G x, functions s.2 !! func = Some (Some a) ∧ getEdge s.2 a b = Some e ∧
    functions s.2 !! G = Some (Some b) ∧ h_edges s.1 !! e = Some x ∧ getCallee x = b ∧ h_funNodes s.1 !! b = Some G) as Hout.
  { intros e. unfold out, getFunctionNode. destruct (functions s.2 !! func) as [[a|]|] eqn:Ha; [|set_solver..].
    intros [b Hb]%elem_of_outgoing. destruct (wf_edge s W a b e Hb) as (_ & [G HG] & x & Hx & _ & Hc & _).
    exists a, b, G, x. split_and!; try done. by eapply node_function. }
  destruct (foldR_spec (queueCallee s.1) (λ pre q', ∃ l, q' = q ++ l ∧ (length l ≤ length pre)%nat ∧
      ∀ G, G ∈ l ↔ isDeclaration md G = false ∧ ∃ e a b, e ∈ pre ∧ functions s.2 !! func = Some (Some a) ∧
        getEdge s.2 a b = Some e ∧ functions s.2 !! G = Some (Some b)) (visit out) q) as (q' & Hq' & l & -> & Hlen & Hl).
  - exists []. rewrite app_nil_r. split_and!; [done..|]. intros G.
    split; [by intros ?%not_elem_of_nil|]. by intros (_ & e & a & b & ?%not_elem_of_nil & _).
  - intros pre e q' [k Hpre] (l & -> & Hlen & Hl).
    assert (e ∈ out) as He by (apply elem_of_visit; rewrite Hpre; set_solver).
    destruct (Hout e He) as (a & b & G & x & Ha & Hb & HG & Hx & Hc & Hn).
    unfold queueCallee. rewrite Hx, Hc, Hn. eexists. split; [done|].
    assert (∀ G' a' b', functions s.2 !! func = Some (Some a') → getEdge s.2 a' b' = Some e →
      functions s.2 !! G' = Some (Some b') → G' = G) as Huniq.
    { intros G' a' b' Ha' Hb' HG'. destruct (wf_edge s W a' b' e Hb') as (_ & _ & x' & ? & _ & ? & _).
      assert (b' = b) as -> by (unfold getCallee in Hc; congruence). by eapply function_node_unique. }
    destruct (isDeclaration md G) eqn:Hd.
    + exists l. rewrite length_app. split_and!; [done|lia|]. intros G'. rewrite Hl. setoid_rewrite elem_of_snoc.
      split; intros (Hd' & e' & a' & b' & He' & Hrest); (split; [done|]).
      * exists e', a', b'. auto.
      * destruct He' as [He'| ->]; [exists e', a', b'; auto|]. destruct Hrest as (? & ? & ?).
        rewrite (Huniq G' a' b') in Hd' by done. congruence.
    + exists (l ++ [G]). rewrite <- (assoc_L (++)), !length_app. split_and!; [done|simpl; lia|].
      intros G'. rewrite elem_of_snoc, Hl. setoid_rewrite elem_of_snoc. split.
      * intros [(Hd' & e' & a' & b' & He' & Hrest)| ->]; (split; [done|]); [exists e', a', b'|exists e, a, b]; auto.
      * intros (Hd' & e' & a' & b' & [He'| ->] & Hrest); [left; split; [done|]; exists e', a', b'; auto|].
        right. destruct Hrest as (? & ? & ?). eauto.
  - exists l. split; [done|]. rewrite length_visit in Hlen. split; [done|]. intros G. rewrite Hl.
    unfold calls_body. setoid_rewrite elem_of_visit. split.
    + intros (Hd & e & a & b & He & Ha & Hb & HG). split; [|done]. apply (edge_exists s W func G a b); eauto.
    + intros [(i & m & a & b & e & x & Ha & HG & He & _) Hd]. split; [done|]. exists e, a, b. split_and!; try done.
      unfold out, getFunctionNode. rewrite Ha. apply elem_of_outgoing. eauto.
Qed.

Definition reach_measure (st : gset Ptr * list Ptr) : nat :=
  sum_list_with (λ F, if decide (F ∈ st.1) then 0 else outDegree s F) (elements (dom (functions s.2))) + length st.2.

Lemma visit_measure F funcSet q l : F ∉ funcSet → length l ≤ outDegree s F →
  reach_measure ({[F]} ∪ funcSet, q ++ l) < reach_measure (funcSet, F :: q).
Proof.
  intros HF Hl. unfold reach_measure. simpl. rewrite length_app.
  set (f' := λ G, if decide (G ∈ {[F]} ∪ funcSet) then 0 else outDegree s G).
  set (f := λ G, if decide (G ∈ funcSet) then 0 else outDegree s G).
  assert (∀ G, f' G ≤ f G) as Hle by (intros G; unfold f, f'; repeat case_decide; set_solver by lia).
  destruct (decide (F ∈ elements (dom (functions s.2)))) as [HFd|HFd].
  - pose proof (sum_list_with_drop f f' _ F (outDegree s F) Hle HFd) as H.
    assert (f' F + outDegree s F ≤ f F); [|specialize (H ltac:(done)); lia].
    unfold f, f'. rewrite decide_True, decide_False by set_solver. lia.
  - assert (outDegree s F = 0) as H0.
    { unfold outDegree, getFunctionNode. destruct (functions s.2 !! F) eqn:HF'; [|done].
      destruct HFd. rewrite elem_of_elements, elem_of_dom. eauto. }
    pose proof (sum_list_with_le f' f (elements (dom (functions s.2))) ltac:(auto)). lia.
Qed.

Lemma reach_run : ∃ funcSet, while (reachableFuel s) (reachStep s) (∅, [start]) = Ok funcSet ∧
  ∀ F, F ∈ funcSet ↔ rtc (calls_body s) start F.
Proof.
  destruct (while_spec (reachStep s) (λ st,
    (∀ F, F ∈ st.1 ∨ F ∈ st.2 → rtc (calls_body s) start F) ∧ (start ∈ st.1 ∨ start ∈ st.2) ∧
    (∀ F G, F ∈ st.1 → calls_body s F G → G ∈ st.1 ∨ G ∈ st.2)) reach_measure
    (λ funcSet, ∀ F, F ∈ funcSet ↔ rtc (calls_body s) start F) (reachableFuel s) (∅, [start])) as (r & Hr & HQ).
  - simpl. split_and!; [|set_solver|set_solver]. intros F [?|HF]; [set_solver|].
    apply list_elem_of_singleton in HF as ->. done.
  - intros [funcSet q] (H1 & H2 & H3). simpl in *. destruct q as [|F q].
    { right. eexists. split; [done|]. intros F. split; [intros HF; apply H1; auto|].
      apply (rtc_closed (calls_body s) (λ F, F ∈ funcSet)).
      - intros A B HA HB. destruct (H3 A B HA HB); set_solver.
      - destruct H2; set_solver. }
    left. cbn [reachStep]. case_bool_decide as Hin.
    { exists (funcSet, q). split; [done|]. split; [|unfold reach_measure; simpl; lia].
      split_and!; simpl.
      - intros G HG. apply H1. set_solver.
      - destruct H2 as [|H2]; [auto|]. apply elem_of_cons in H2 as [->|]; auto.
      - intros A B HA HB. destruct (H3 A B HA HB) as [|H]; [auto|]. apply elem_of_cons in H as [->|]; auto. }
    destruct (queue_spec F q) as (l & -> & Hlen & Hl).
    exists ({[F]} ∪ funcSet, q ++ l). split; [done|]. split; [|by apply visit_measure]. split_and!; simpl.
    + intros G HG. setoid_rewrite elem_of_app in HG. rewrite elem_of_union, elem_of_singleton in HG.
      destruct HG as [[->|HG]|[HG|HG]]; [apply H1; set_solver..|].
      eapply rtc_r; [apply (H1 F); set_solver|by apply Hl].
    + rewrite elem_of_app. set_solver.
    + intros A B. rewrite elem_of_union, elem_of_singleton, elem_of_app. intros [->|HA] HB.
      * right. right. by apply Hl.
      * destruct (H3 A B HA HB) as [|H]; [set_solver|]. apply elem_of_cons in H as [->|]; set_solver.
  - unfold reach_measure, reachableFuel. cbn [fst snd length].
    match goal with |- sum_list_with ?f _ + _ < _ =>
      pose proof (sum_list_with_le f (outDegree s) (elements (dom (functions s.2)))) as Hle end.
    specialize (Hle ltac:(intros F _; simpl; case_decide; lia)). lia.
  - eauto.
Qed.
End reach.

(** (C40) getFunctionsReachableFrom terminates and returns the functions of the module that chains of
    calls reach from the given one through functions with a body; the call graph is built when it is
    first needed and kept. *)
Theorem getFunctionsReachableFrom_spec fm start s :
  (pcg fm = Some s ∨ pcg fm = None ∧ generateCallGraph = Ok s) → cg_wf s →
  ∃ r, getFunctionsReachableFrom start fm = Ok (mkFunctionsManager (Some s), r) ∧
    ∀ F, F ∈ r ↔ F ∈ m_functions md ∧ rtc (calls_body s) start F.
Proof.
  intros Hs W. destruct (reach_run s W start) as (funcSet & Hrun & Hset).
  assert (getProgramCallGraph fm = Ok (mkFunctionsManager (Some s), s)) as Hg.
  { unfold getProgramCallGraph. destruct fm as [o]. by destruct Hs as [[= ->]|[[= ->] ->]]. }
  eexists. split.
  - unfold getFunctionsReachableFrom. rewrite (bind_ok _ _ _ _ _ Hg). unfold bind. rewrite Hrun. done.
  - intros F. rewrite elem_of_foldl_if, bool_decide_eq_true, Hset. set_solver.
Qed.

(** ** The order by hotness *)

Lemma sortByHotness_sorted prof l r : sortByHotness prof l = Ok r →
  r ≡ₚ l ∧ Sorted (λ f1 f2, ∀ t1 t2, getTotalInstructions_function prof f1 = Ok t1 →
    getTotalInstructions_function prof f2 = Ok t2 → (t2 <= t1)%Z) r.
Proof.
  unfold sortByHotness.
  assert (∀ l k, foldR (λ l f, rbind (getTotalInstructions_function prof f) (λ t, Ok (l ++ [(t, f)]))) k l =
    Ok (k ++ ((λ f, (match getTotalInstructions_function prof f with Ok t => t | _ => 0%Z end, f)) <$> l))) as Hfold.
  { assert (∀ f, ∃ t, getTotalInstructions_function prof f = Ok t) as Htot.
    { intros f. unfold getTotalInstructions_function, isFunctionTotalInstructionsAvailable, map_at.
      destruct (functionTotalInstructions prof !! f) eqn:Hf; [rewrite bool_decide_true by eauto|rewrite bool_decide_false by (by intros [])]; eauto. }
    induction l0 as [|f l0 IH]; intros k; simpl; [by rewrite app_nil_r|].
    destruct (Htot f) as [t ->]. simpl. rewrite IH, <- (assoc_L (++)). done. }
  rewrite Hfold. simpl. intros [= <-].
  set (k := (λ f, (match getTotalInstructions_function prof f with Ok t => t | _ => 0%Z end, f)) <$> l).
  assert (Transitive hotterOrEqual) by (intros ???; unfold hotterOrEqual; lia).
  assert (Total hotterOrEqual) by (intros ??; unfold hotterOrEqual; lia).
  split.
  - rewrite merge_sort_Permutation. unfold k. rewrite <- list_fmap_compose. unfold compose. simpl.
    by rewrite list_fmap_id.
  - pose proof (Sorted_merge_sort hotterOrEqual k) as Hs.
    assert (∀ p, p ∈ merge_sort hotterOrEqual k → ∀ t, getTotalInstructions_function prof p.2 = Ok t → p.1 = t) as Hk.
    { intros p Hp. rewrite merge_sort_Permutation in Hp. apply list_elem_of_fmap in Hp as (f & -> & _). simpl.
      intros t ->. done. }
    revert Hs Hk. generalize (merge_sort hotterOrEqual k). induction l0 as [|p l0 IH]; intros Hs Hk; simpl; [constructor|].
    inversion_clear Hs as [|?? Hs' Hhd]. constructor.
    + apply IH; [done|]. intros p' Hp'. apply Hk. set_solver.
    + destruct Hhd as [|p' l' Hpp]; simpl; constructor. intros t1 t2 Ht1 Ht2. unfold hotterOrEqual in Hpp.
      rewrite <- (Hk p) with (t := t1), <- (Hk p') with (t := t2); [done|set_solver|done|set_solver|done].
Qed.
End functions_manager.
