(* ===== verification/CGIslands.v ===== *)
(** * The islands of a call graph (src/core/call_graph: CallGraph::getIslands)

    [getIslands] splits the functions of a call graph into islands: sub-graphs that no call and
    no escaping function connects. An island is a graph of its own, of which only the map of
    functions is filled. *)
From S2P Require Import Prelude LoopStructure IRModule CallGraph.

(** the nodes of the islands, the islands, the map from functions to islands (null for an absent
    key that was read), the functions visited *)
Record ISt := mkISt {
  i_funNodes : gmap Ptr Ptr;
  i_graphs : gmap Ptr CallGraph;
  i_islands : gmap Ptr (option Ptr);
  i_visited : gset Ptr;
  i_fresh : Ptr
}.

Section islands.
Context {IO : IterOrder} (ir : IRProgram) (md : LLVMModule).
(** the graph that is split is not changed *)
Context (h : CGHeap) (g : CallGraph).

Definition load_island (p : Ptr) : M ISt CallGraph := λ s, deref (i_graphs s !! p) s.
Definition on_island (p : Ptr) (f : CallGraph → CallGraph) : M ISt unit :=
  let* x := load_island p in
  modify (λ s, mkISt (i_funNodes s) (<[p := f x]> (i_graphs s)) (i_islands s) (i_visited s) (i_fresh s)).
Definition set_island (f : Ptr) (p : option Ptr) : M ISt unit :=
  modify (λ s, mkISt (i_funNodes s) (i_graphs s) (<[f := p]> (i_islands s)) (i_visited s) (i_fresh s)).
(** [islands[f]] inserts null for an absent key *)
Definition island_at (f : Ptr) : M ISt (option Ptr) := λ s,
  let p := default None (i_islands s !! f) in
  Ok (mkISt (i_funNodes s) (i_graphs s) (<[f := p]> (i_islands s)) (i_visited s) (i_fresh s), p).

Definition newIsland : M ISt Ptr := λ s,
  Ok (mkISt (i_funNodes s) (<[i_fresh s := CallGraph_empty]> (i_graphs s)) (i_islands s) (i_visited s)
        (Pos.succ (i_fresh s)), i_fresh s).
Definition newIslandNode (f : Ptr) : M ISt Ptr := λ s,
  Ok (mkISt (<[i_fresh s := f]> (i_funNodes s)) (i_graphs s) (i_islands s) (i_visited s)
        (Pos.succ (i_fresh s)), i_fresh s).
Definition delete_island (p : Ptr) : M ISt unit :=
  load_island p ;;;
  modify (λ s, mkISt (i_funNodes s) (delete p (i_graphs s)) (i_islands s) (i_visited s) (i_fresh s)).

(** the local [addToIsland] *)
Definition addToIsland (f island : Ptr) : M ISt unit :=
  let* newNode := newIslandNode f in
  on_island island (on_functions <[f := Some newNode]>) ;;;
  modify (λ s, mkISt (i_funNodes s) (i_graphs s) (i_islands s) ({[f]} ∪ i_visited s) (i_fresh s)) ;;;
  set_island f (Some island).

(** one end of an edge: a function that is not in the island yet joins it *)
Definition visitEnd (island node : Ptr) (todos : list Ptr) : M ISt (list Ptr) :=
  let* f := lift (match h_funNodes h !! node with Some f => Ok f | None => Fail UndefinedBehaviour end) in
  let* x := load_island island in
  match getFunctionNode x f with
  | Some _ => ret todos
  | None =>
      let* visited := gets i_visited in
      massert (bool_decide (f ∉ visited)) ;;;
      addToIsland f island ;;;
      ret (node :: todos)
  end.

(** one edge: its callee, then its caller *)
Definition visitIslandEdge (island : Ptr) (todos : list Ptr) (edge : Ptr) : M ISt (list Ptr) :=
  let* x := lift (match h_edges h !! edge with Some x => Ok x | None => Fail UndefinedBehaviour end) in
  let* todos := visitEnd island (getCallee x) todos in
  visitEnd island (getCaller x) todos.

(** one iteration of the loop over the stack *)
Definition islandStep (island : Ptr) (todos : list Ptr) : M ISt (list Ptr + unit) :=
  match todos with
  | [] => ret (inr tt)
  | currentNode :: todos =>
      let* f := lift (match h_funNodes h !! currentNode with Some f => Ok f | None => Fail UndefinedBehaviour end) in
      massert (bool_decide (getFunctionNode g f = Some currentNode)) ;;;
      let* todos := foldM (visitIslandEdge island) todos (visit (getEdges g currentNode)) in
      ret (inl todos)
  end.

Definition identifyIslandOf (f : Ptr) : M ISt unit :=
  let* visited := gets i_visited in
  if bool_decide (f ∈ visited) then ret tt
  else
    let* island := newIsland in
    addToIsland f island ;;;
    let* n := deref (default None (functions g !! f)) in
    whileM (S (S (size (functions g)))) (islandStep island) [n].

Definition identifyCallGraphIslandsByCallInstructions : M ISt unit :=
  forM identifyIslandOf (visit (dom (functions g))).

(** [user] is a call of [f] itself *)
Definition callsDirectly (user f : Ptr) : bool :=
  match m_call md user with
  | CallInst c | InvokeInst c => bool_decide (c = Some f)
  | NotACall | CallBrInst _ => false
  end.

(** the functions of [instIsland] move to [fIsland], and [instIsland] is deleted *)
Definition moveIsland (instIsland fIsland : Ptr) : M ISt unit :=
  let* x := load_island instIsland in
  let* toDelete :=
    foldM (λ toDelete F,
      let* n := deref (functions x !! F) in
      on_island fIsland (on_functions <[F := n]>) ;;;
      set_island F (Some fIsland) ;;;
      ret (toDelete ++ [F])) [] (visit (dom (functions x))) in
  forM (λ F, on_island instIsland (on_functions <[F := None]>) ;;;
             on_island instIsland (on_functions (delete F))) toDelete ;;;
  delete_island instIsland.

(** one user of [f] *)
Definition mergeThroughUser (f user : Ptr) : M ISt unit :=
  if negb (isInstruction ir user) then ret tt
  else if callsDirectly user f then ret tt
  else
    let instFunction := ir_functionOf ir (ir_blockOf ir user) in
    let* instIsland := island_at instFunction in
    massert (bool_decide (is_Some instIsland)) ;;;
    let* fIsland := island_at f in
    massert (bool_decide (is_Some fIsland)) ;;;
    match instIsland, fIsland with
    | Some instIsland, Some fIsland =>
        if bool_decide (instIsland = fIsland) then ret tt else moveIsland instIsland fIsland
    | _, _ => ret tt
    end.

Definition mergeCallGraphIslandsForEscapedFunctions : M ISt unit :=
  forM (λ f, forM (mergeThroughUser f) (m_uses md f)) (visit (dom (functions g))).

Definition getIslands : Res (ISt * gmap Ptr (option Ptr)) :=
  (identifyCallGraphIslandsByCallInstructions ;;;
   mergeCallGraphIslandsForEscapedFunctions ;;;
   gets i_islands) (mkISt ∅ ∅ ∅ ∅ 1%positive).
End islands.
