(* ===== verification/CGIslandsSpec.v ===== *)
(** * The islands are the connected components

    Two functions are in one island exactly when calls and escaping functions connect them. *)
From S2P Require Import Prelude LoopStructure IRModule CallGraph CallGraphSpec CallGraphRemove.
From S2P Require Import FunctionsManager CGIslands.

(** ** One more link *)

(** [R] with the pair of [A] and [B] *)
Definition linked (R : relation Ptr) (A B : Ptr) : relation Ptr := λ x y, R x y ∨ (x = A ∧ y = B).

Lemma rtsc_mono (R R' : relation Ptr) x y : (∀ a b, R a b → R' a b) → rtsc R x y → rtsc R' x y.
Proof. intros H. apply (rtsc_congruence id). exact H. Qed.

Lemma rtsc_linked R A B x y : rtsc (linked R A B) x y ↔
  rtsc R x y ∨ (rtsc R x A ∧ rtsc R B y) ∨ (rtsc R x B ∧ rtsc R A y).
Proof.
  split.
  - induction 1 as [x|x z y Hxz _ IH]; [by left|].
    assert (rtsc R x z ∨ (x = A ∧ z = B) ∨ (x = B ∧ z = A)) as Hcase.
    { destruct Hxz as [[H|[-> ->]]|[H|[-> ->]]]; auto using rtsc_lr, rtsc_rl. }
    assert (∀ w, rtsc R w w) as Hrefl by (intros; reflexivity).
    destruct Hcase as [Hxz'|[[-> ->]|[-> ->]]].
    + destruct IH as [IH|[[H1 H2]|[H1 H2]]].
      * left. by transitivity z.
      * right. left. split; [by transitivity z|done].
      * right. right. split; [by transitivity z|done].
    + destruct IH as [IH|[[H1 H2]|[H1 H2]]]; auto.
    + destruct IH as [IH|[[H1 H2]|[H1 H2]]]; auto.
  - assert (∀ a b, rtsc R a b → rtsc (linked R A B) a b) as Hm.
    { intros a b. apply rtsc_mono. by left. }
    assert (rtsc (linked R A B) A B) as HAB by (apply rtsc_lr; by right).
    intros [H|[[H1 H2]|[H1 H2]]]; [auto|..].
    + transitivity A; [auto|]. transitivity B; auto.
    + transitivity B; [auto|]. transitivity A; [by symmetry|auto].
Qed.

(** ** A partition of functions into islands *)

(** the functions [V] are split along [R]; an island holds the nodes of its functions *)
Record partitioned (R : relation Ptr) (V : gset Ptr) (s : ISt) : Prop := {
  pt_none F : F ∉ V → i_islands s !! F = None;
  pt_some F : F ∈ V → ∃ p x, i_islands s !! F = Some (Some p) ∧ i_graphs s !! p = Some x;
  pt_members p x F : i_graphs s !! p = Some x →
    (functions x !! F = None ∧ i_islands s !! F ≠ Some (Some p)) ∨
    (is_Some (getFunctionNode x F) ∧ i_islands s !! F = Some (Some p));
  pt_rel F G : F ∈ V → G ∈ V → i_islands s !! F = i_islands s !! G ↔ rtsc R F G;
  pt_fresh p : p ∈ dom (i_graphs s) → (p < i_fresh s)%positive
}.

Section islands.
Context {IO : IterOrder} (ir : IRProgram) (md : LLVMModule).
Context (h : CGHeap) (g : CallGraph) (W : cg_wf (h, g)).

Definition adj : relation Ptr := λ F G, ∃ i m, records (h, g) F G i m.
Notation all_functions := (dom (functions g)).

Lemma function_node F : F ∈ all_functions → ∃ n, functions g !! F = Some (Some n) ∧ h_funNodes h !! n = Some F.
Proof. intros [o Ho]%elem_of_dom. destruct (wf_fun _ W F o Ho) as (n & -> & Hn). eauto. Qed.

(** the edges at a node are the calls of its function and to it *)
Lemma edges_at F a e : functions g !! F = Some (Some a) → e ∈ getEdges g a →
  ∃ x A B, h_edges h !! e = Some x ∧ functions g !! A = Some (Some (getCaller x)) ∧
    functions g !! B = Some (Some (getCallee x)) ∧ adj A B ∧ (A = F ∨ B = F).
Proof.
  unfold getEdges. intros Ha [He|He]%elem_of_union.
  - apply elem_of_incoming in He as [b He]. pose proof (wf_inc _ W b a) as Hinc. simpl in Hinc. rewrite <- Hinc in He.
    destruct (wf_edge _ W b a e He) as ([B HB] & _ & x & Hx & Hb & Hc & _). exists x, B, F.
    unfold getCaller, getCallee. rewrite Hb, Hc. split_and!; try done; [|auto].
    apply (edge_exists _ W B F b a HB Ha). eauto.
  - apply elem_of_outgoing in He as [b He].
    destruct (wf_edge _ W a b e He) as (_ & [B HB] & x & Hx & Hb & Hc & _). exists x, F, B.
    unfold getCaller, getCallee. rewrite Hb, Hc. split_and!; try done; [|auto].
    apply (edge_exists _ W F B a b Ha HB). eauto.
Qed.

Lemma neighbour_edge F a G : functions g !! F = Some (Some a) → sc adj F G →
  ∃ e x b, e ∈ getEdges g a ∧ h_edges h !! e = Some x ∧ functions g !! G = Some (Some b) ∧
    (b = getCaller x ∨ b = getCallee x).
Proof.
  intros Ha [(i & m & a' & b & e & x & ? & Hb & He & Hx & _)|(i & m & b & a' & e & x & Hb & ? & He & Hx & _)];
    simpl in *; simplify_eq.
  - destruct (wf_edge _ W _ _ _ He) as (_ & _ & x' & Hx' & _ & Hc & _).
    assert (x' = x) as -> by (simpl in *; congruence). exists e, x, b.
    split_and!; try done; [|by right]. unfold getEdges. apply elem_of_union. right. apply elem_of_outgoing. eauto.
  - destruct (wf_edge _ W _ _ _ He) as (_ & _ & x' & Hx' & Hc & _).
    assert (x' = x) as -> by (simpl in *; congruence). exists e, x, b.
    split_and!; try done; [|by left]. unfold getEdges. apply elem_of_union. left. apply elem_of_incoming.
    exists b. match goal with He : getEdge _ b ?k = _ |- _ => pose proof (wf_inc _ W b k) as Hinc end.
    simpl in Hinc. by rewrite <- Hinc.
Qed.

(** ** One island grows *)

(** the island [p] has the members [M]; the rest is as in [s0] *)
Record expanding (s0 : ISt) (p : Ptr) (M : gset Ptr) (s : ISt) : Prop := {
  ex_island : ∃ x, i_graphs s !! p = Some x ∧
    ∀ F, (F ∈ M → is_Some (getFunctionNode x F)) ∧ (F ∉ M → functions x !! F = None);
  ex_graphs q : q ≠ p → i_graphs s !! q = i_graphs s0 !! q;
  ex_islands F : i_islands s !! F = if decide (F ∈ M) then Some (Some p) else i_islands s0 !! F;
  ex_visited : i_visited s = i_visited s0 ∪ M;
  ex_fresh : (p < i_fresh s ∧ i_fresh s0 <= i_fresh s)%positive
}.

Lemma newIsland_spec s0 : wp newIsland (λ p s, p = i_fresh s0 ∧ expanding s0 p ∅ s) s0.
Proof.
  unfold wp, newIsland. split; [done|]. split; simpl; try done.
  - exists CallGraph_empty. rewrite lookup_insert_eq. split; [done|]. intros F. split; [set_solver|done].
  - intros q Hq. by rewrite lookup_insert_ne.
  - set_solver.
  - lia.
Qed.

Lemma addToIsland_spec s0 p M F s : expanding s0 p M s →
  wp (addToIsland F p) (λ _ s', expanding s0 p ({[F]} ∪ M) s') s.
Proof.
  intros [(x & Hx & Hmem) Hgr Hisl Hvis Hfr]. unfold addToIsland, on_island, load_island, set_island.
  eapply wp_bind_run; [done|]. apply wp_bind. eapply wp_bind_run; [simpl; by rewrite Hx|].
  apply wp_modify, wp_bind, wp_modify, wp_modify. split; simpl.
  - eexists. rewrite lookup_insert_eq. split; [done|]. intros G. unfold getFunctionNode. simpl.
    destruct (decide (G = F)) as [->|Hne].
    + rewrite lookup_insert_eq. split; [eauto|set_solver].
    + rewrite lookup_insert_ne by done. destruct (Hmem G) as [H1 H2]. split; [|set_solver].
      intros HG. apply H1. set_solver.
  - intros q Hq. rewrite lookup_insert_ne by done. by apply Hgr.
  - intros G. destruct (decide (G = F)) as [->|Hne].
    + by rewrite lookup_insert_eq, decide_True by set_solver.
    + rewrite lookup_insert_ne, Hisl by done. apply decide_ext. set_solver.
  - rewrite Hvis. set_solver.
  - lia.
Qed.

(** the members grew from [M] to [M'] and the nodes of the new ones were pushed *)
Definition grown (M : gset Ptr) (todos : list Ptr) (M' : gset Ptr) (todos' : list Ptr) : Prop :=
  M ⊆ M' ∧ ∃ new, todos' = new ++ todos ∧ size M' = size M + length new ∧
    ∀ n, n ∈ new ↔ ∃ F, F ∈ M' ∖ M ∧ functions g !! F = Some (Some n).

Lemma grown_refl M todos : grown M todos M todos.
Proof. split; [done|]. exists []. split_and!; [done|simpl; lia|]. set_solver. Qed.
Lemma island_grown_trans M1 t1 M2 t2 M3 t3 : grown M1 t1 M2 t2 → grown M2 t2 M3 t3 → grown M1 t1 M3 t3.
Proof.
  intros [H12 (n1 & -> & Hs1 & Hn1)] [H23 (n2 & -> & Hs2 & Hn2)]. split; [set_solver|].
  exists (n2 ++ n1). rewrite (assoc_L (++)), length_app. split_and!; [done|lia|].
  intros n. rewrite elem_of_app, Hn1, Hn2. split.
  - intros [(F & ? & ?)|(F & ? & ?)]; exists F; set_solver.
  - intros (F & HF & ?). destruct (decide (F ∈ M2)); [right|left]; exists F; set_solver.
Qed.

Lemma visitEnd_spec s0 p M F n todos s : expanding s0 p M s → functions g !! F = Some (Some n) →
  (F ∉ M → F ∉ i_visited s0) →
  wp (visitEnd h p n todos) (λ todos' s', expanding s0 p ({[F]} ∪ M) s' ∧ grown M todos ({[F]} ∪ M) todos') s.
Proof.
  intros E HF Hnv. pose proof E as [(x & Hx & Hmem) _ _ Hvis _]. unfold visitEnd.
  apply wp_bind, wp_lift. exists F. split.
  { pose proof (node_function _ W F n HF) as Hn. simpl in Hn. by rewrite Hn. }
  eapply wp_bind_run; [unfold load_island; by rewrite Hx|].
  destruct (Hmem F) as [H1 H2]. destruct (decide (F ∈ M)) as [Hin|Hout].
  - destruct (H1 Hin) as [o ->]. apply wp_ret. replace ({[F]} ∪ M) with M by set_solver.
    split; [done|apply grown_refl].
  - unfold getFunctionNode. rewrite (H2 Hout). apply wp_bind, wp_gets. apply wp_bind, wp_massert.
    split; [apply bool_decide_eq_true; rewrite Hvis; set_solver|].
    apply wp_bind. eapply wp_mono; [by apply addToIsland_spec|]. intros [] s' E'. apply wp_ret. split; [done|].
    split; [set_solver|]. exists [n]. split_and!; [done| |].
    + rewrite size_union, size_singleton by set_solver. simpl. lia.
    + intros k. rewrite list_elem_of_singleton. split.
      * intros ->. exists F. set_solver.
      * intros (G & HG & HGk). assert (G = F) as -> by set_solver. congruence.
Qed.

(** ** The search for one island *)

Section search.
Context (s0 : ISt) (p f : Ptr).
Notation V0 := (i_visited s0).
Context (Hclosed : ∀ F G, F ∈ V0 → sc adj F G → G ∈ V0).

(** the members found are connected to [f], and none was visited before *)
Definition members_ok (M : gset Ptr) : Prop :=
  f ∈ M ∧ M ⊆ all_functions ∧ ∀ F, F ∈ M → F ∉ V0 ∧ rtsc adj f F.

Lemma outside_V0 M F G : members_ok M → F ∈ M → sc adj F G → G ∉ V0.
Proof.
  intros (_ & _ & HM) HF HFG HG. apply (HM F HF). apply (Hclosed G F HG). destruct HFG; [by right|by left].
Qed.

Lemma members_add M F G : members_ok M → F ∈ M → sc adj F G → G ∈ all_functions → members_ok ({[G]} ∪ M).
Proof.
  intros HM HF HFG HG. pose proof (outside_V0 M F G HM HF HFG). destruct HM as (H1 & H2 & H3).
  split; [set_solver|]. split; [set_solver|]. intros K [->%elem_of_singleton|HK]%elem_of_union; [|auto].
  split; [done|]. eapply rtc_r; [by apply (H3 F)|done].
Qed.

Lemma visitEdge_spec M F a e todos s : expanding s0 p M s → members_ok M → F ∈ M →
  functions g !! F = Some (Some a) → e ∈ getEdges g a →
  wp (visitIslandEdge h p todos e) (λ todos' s', ∃ M', expanding s0 p M' s' ∧ members_ok M' ∧ grown M todos M' todos' ∧
    ∃ x A B, h_edges h !! e = Some x ∧ functions g !! A = Some (Some (getCaller x)) ∧
      functions g !! B = Some (Some (getCallee x)) ∧ A ∈ M' ∧ B ∈ M') s.
Proof.
  intros E HM HF Ha He. destruct (edges_at F a e Ha He) as (x & A & B & Hx & HA & HB & HAB & HFe).
  assert (sc adj F A ∨ A = F) as HFA by (destruct HFe as [->| ->]; [by right|left; by right]).
  assert (sc adj F B ∨ B = F) as HFB by (destruct HFe as [->| ->]; [left; by left|by right]).
  assert (∀ M K, members_ok M → F ∈ M → sc adj F K ∨ K = F → K ∉ M → K ∉ V0) as Hnv.
  { intros M1 K HM1 HF1 [HK| ->] HnK; [by eapply outside_V0|done]. }
  assert (∀ M K k, members_ok M → F ∈ M → sc adj F K ∨ K = F → functions g !! K = Some k → members_ok ({[K]} ∪ M)) as Hadd.
  { intros M1 K k HM1 HF1 HK Hk. assert (K ∈ all_functions) as HKa by (apply elem_of_dom; eauto).
    destruct HK as [HK| ->]; [by eapply members_add|]. by replace ({[F]} ∪ M1) with M1 by set_solver. }
  unfold visitIslandEdge. apply wp_bind, wp_lift. exists x. rewrite Hx. split; [done|]. apply wp_bind.
  eapply wp_mono; [apply (visitEnd_spec s0 p M B); [done..|by apply Hnv]|]. intros t1 s1 [E1 G1].
  assert (members_ok ({[B]} ∪ M)) as HM1 by (by eapply Hadd).
  eapply wp_mono; [apply (visitEnd_spec s0 p ({[B]} ∪ M) A); [done..|apply Hnv; [done|set_solver|done]]|]. intros t2 s2 [E2 G2].
  exists ({[A]} ∪ ({[B]} ∪ M)). split; [done|]. split; [eapply Hadd; [done|set_solver|done..]|].
  split; [by eapply island_grown_trans|]. exists x, A, B. split_and!; [done..|set_solver|set_solver].
Qed.

Lemma visitCallEdges_spec M F a todos s : expanding s0 p M s → members_ok M → F ∈ M → functions g !! F = Some (Some a) →
  wp (foldM (visitIslandEdge h p) todos (visit (getEdges g a)))
     (λ todos' s', ∃ M', expanding s0 p M' s' ∧ members_ok M' ∧ grown M todos M' todos' ∧
        ∀ G, sc adj F G → G ∈ M') s.
Proof.
  intros E HM HF Ha. eapply wp_mono.
  { apply (wp_foldM _ (λ pre _ t s', ∃ M', expanding s0 p M' s' ∧ members_ok M' ∧ grown M todos M' t ∧
      ∀ e x G b, e ∈ pre → h_edges h !! e = Some x → functions g !! G = Some (Some b) →
        b = getCaller x ∨ b = getCallee x → G ∈ M')).
    - exists M. split_and!; [done..|apply grown_refl|set_solver].
    - intros pre e post t s1 Hl (M1 & E1 & HM1 & G1 & Hends).
      eapply wp_mono; [apply (visitEdge_spec M1 F a e); [done..| |done|]|].
      + destruct G1 as [Hsub _]. set_solver.
      + rewrite <- elem_of_visit, Hl. set_solver.
      + intros t2 s2 (M2 & E2 & HM2 & G2 & x & A & B & Hx & HA & HB & HAM & HBM). exists M2.
        split_and!; [done..|by eapply island_grown_trans|].
        intros e' x' G b [He'| ->]%elem_of_snoc Hx' HG Hb.
        { destruct G2 as [Hsub _]. apply Hsub. by eapply Hends. }
        assert (x' = x) as -> by congruence.
        destruct Hb as [->| ->]; [rewrite (function_node_unique _ W G A (getCaller x))|rewrite (function_node_unique _ W G B (getCallee x))]; done. }
  intros todos' s' (M' & E' & HM' & G' & Hends). exists M'. split_and!; [done..|].
  intros G HFG. destruct (neighbour_edge F a G Ha HFG) as (e & x & b & He & Hx & Hb & Hor).
  apply (Hends e x G b); [by apply elem_of_visit|done..].
Qed.

(** the state of the loop over the stack *)
Definition searching (M : gset Ptr) (todos : list Ptr) (s : ISt) : Prop :=
  expanding s0 p M s ∧ members_ok M ∧
  (∀ n, n ∈ todos → ∃ F, F ∈ M ∧ functions g !! F = Some (Some n)) ∧
  (∀ F n, F ∈ M → functions g !! F = Some (Some n) → n ∈ todos ∨ ∀ G, sc adj F G → G ∈ M).

Lemma grown_size M t M' t' : grown M t M' t' → M' ⊆ all_functions →
  size all_functions - size M' + length t' = size all_functions - size M + length t ∧ size M' ≤ size all_functions.
Proof.
  intros [Hsub (new & -> & Hs & _)] HM'. rewrite length_app. pose proof (subseteq_size _ _ HM'). lia.
Qed.

Lemma island_search_spec s : expanding s0 p {[f]} s → f ∈ all_functions → f ∉ V0 →
  wp (let* n := deref (default None (functions g !! f)) in
      whileM (S (S (size (functions g)))) (islandStep h g p) [n])
     (λ _ s', ∃ M, expanding s0 p M s' ∧ members_ok M ∧ ∀ F G, F ∈ M → sc adj F G → G ∈ M) s.
Proof.
  intros E Hf HfV. destruct (function_node f Hf) as (n & Hn & _).
  apply wp_bind, wp_deref. exists n. rewrite Hn. split; [done|].
  apply (wp_whileM _ (λ todos s, ∃ M, searching M todos s)
    (λ todos s, size all_functions - size (dom (functions (default CallGraph_empty (i_graphs s !! p)))) + length todos)).
  - exists {[f]}. split; [done|]. split.
    { split; [set_solver|]. split; [set_solver|]. intros F ->%elem_of_singleton. split; [done|reflexivity]. }
    split.
    + intros k ->%list_elem_of_singleton. exists f. set_solver.
    + intros F k ->%elem_of_singleton Hk. left. apply list_elem_of_singleton. congruence.
  - assert (∀ M s, expanding s0 p M s → dom (functions (default CallGraph_empty (i_graphs s !! p))) = M) as Hdom.
    { intros M s1 [(x & -> & Hx) _ _ _ _]. simpl. apply set_eq. intros F. rewrite elem_of_dom.
      destruct (Hx F) as [H1 H2]. split.
      - intros [o Ho]. destruct (decide (F ∈ M)); [done|]. rewrite H2 in Ho by done. done.
      - intros HF. destruct (H1 HF) as [k Hk]. unfold getFunctionNode in Hk.
        destruct (functions x !! F); [eauto|done]. }
    intros todos s1 (M & E1 & HM & Ht & Hcl). destruct todos as [|k todos].
    { apply wp_ret. exists M. split_and!; [done..|]. intros F G HF.
      destruct HM as (_ & HMf & _). destruct (function_node F) as (k & Hk & _); [by apply HMf|].
      destruct (Hcl F k HF Hk) as [Hin|H]; [|apply H]. set_solver. }
    destruct (Ht k) as (F & HF & Hk); [set_solver|]. cbn [islandStep].
    apply wp_bind, wp_lift. exists F. split.
    { pose proof (node_function _ W F k Hk) as HkF. simpl in HkF. by rewrite HkF. }
    apply wp_bind, wp_massert. split; [apply bool_decide_eq_true; unfold getFunctionNode; by rewrite Hk|].
    apply wp_bind. eapply wp_mono; [by apply (visitCallEdges_spec M F k)|].
    intros todos' s2 (M' & E2 & HM' & Hgr & Hnew). apply wp_ret. split.
    + exists M'. split; [done|]. split; [done|]. destruct Hgr as [Hsub (new & -> & _ & Hnew')]. split.
      * intros j [Hj|Hj]%elem_of_app.
        { apply Hnew' in Hj as (G & HG & Hj). exists G. set_solver. }
        destruct (Ht j) as (G & HG & Hj'); [set_solver|]. exists G. set_solver.
      * intros G j HG Hj. destruct (decide (G ∈ M)) as [HGM|HGM].
        { destruct (decide (G = F)) as [->|HGF]; [by right|].
          destruct (Hcl G j HGM Hj) as [Hin|Hcl']; [|right; set_solver].
          left. apply elem_of_app. right. apply elem_of_cons in Hin as [->|]; [|done].
          destruct HGF. by eapply (function_node_unique _ W). }
        left. apply elem_of_app. left. apply Hnew'. exists G. set_solver.
    + rewrite (Hdom M s1), (Hdom M' s2) by done. destruct (grown_size _ _ _ _ Hgr) as [Heq _]; [apply HM'|].
      simpl in *. lia.
  - destruct E as [(x & -> & _) _ _ _ _]. simpl. rewrite size_dom. lia.
Qed.
End search.

(** ** All the islands *)

Definition closed (V : gset Ptr) : Prop := V ⊆ all_functions ∧ ∀ F G, F ∈ V → sc adj F G → G ∈ V.

Lemma closed_rtsc (V : gset Ptr) F G : (∀ F G, F ∈ V → sc adj F G → G ∈ V) → F ∈ V → rtsc adj F G → G ∈ V.
Proof. intros HV HF. by apply (rtc_closed (sc adj) (λ G, G ∈ V)). Qed.

(** the island found joins the partition *)
Lemma partition_extended s0 p f M s : partitioned adj (i_visited s0) s0 → closed (i_visited s0) →
  p = i_fresh s0 → expanding s0 p M s → members_ok s0 f M → (∀ F G, F ∈ M → sc adj F G → G ∈ M) →
  partitioned adj (i_visited s) s ∧ closed (i_visited s) ∧ i_visited s = i_visited s0 ∪ M.
Proof.
  intros P [HV1 HV2] Hp E (HfM & HMf & HM) HMc.
  pose proof E as [(x & Hx & Hmem) Hgr Hisl Hvis [Hfr1 Hfr2]].
  assert (i_graphs s0 !! p = None) as Hpn.
  { apply not_elem_of_dom. intros H%(pt_fresh _ _ _ P). lia. }
  assert (∀ F, F ∈ i_visited s0 → i_islands s0 !! F ≠ Some (Some p)) as Hnp.
  { intros F HF Heq. destruct (pt_some _ _ _ P F HF) as (q & y & Hq & Hy). congruence. }
  assert (∀ F, F ∈ i_visited s → F ∉ M → F ∈ i_visited s0) as Hold.
  { intros F HF HFM. rewrite Hvis in HF. apply elem_of_union in HF as [?|?]; done. }
  split; [|split; [|done]].
  - split.
    + intros F HF. rewrite Hvis, not_elem_of_union in HF. destruct HF.
      rewrite Hisl, decide_False by done. by apply P.
    + intros F HF. rewrite Hisl. case_decide as HFM; [eauto|].
      destruct (pt_some _ _ _ P F (Hold F HF HFM)) as (q & y & Hq & Hy). exists q, y. split; [done|].
      rewrite Hgr; [done|congruence].
    + intros q y F Hy. rewrite Hisl. destruct (decide (q = p)) as [->|Hqp].
      * assert (y = x) as -> by congruence. destruct (Hmem F) as [H1 H2].
        case_decide as HFM; [right; auto|left; split; [auto|]].
        destruct (decide (F ∈ i_visited s0)); [by apply Hnp|]. by rewrite (pt_none _ _ _ P).
      * rewrite Hgr in Hy by done. destruct (pt_members _ _ _ P q y F Hy) as [[HF Hne]|[HF Heq]].
        { left. split; [done|]. case_decide; [congruence|done]. }
        right. split; [done|]. rewrite decide_False; [done|]. intros HFM.
        apply (HM F HFM). destruct (decide (F ∈ i_visited s0)); [done|]. by rewrite (pt_none _ _ _ P) in Heq.
    + intros F G HF HG. rewrite !Hisl. case_decide as HFM; case_decide as HGM.
      * split; [|done]. intros _. transitivity f; [symmetry|]; by apply HM.
      * split; [intros Heq; by destruct (Hnp G (Hold G HG HGM))|]. intros HFG. destruct HGM.
        by apply (closed_rtsc M F G).
      * split; [intros Heq; by destruct (Hnp F (Hold F HF HFM))|]. intros HFG. destruct HFM.
        apply (closed_rtsc M G F); [done..|by symmetry].
      * apply P; auto.
    + intros q Hq. destruct (decide (q = p)) as [->|Hne]; [done|].
      apply elem_of_dom in Hq. rewrite Hgr in Hq by done. apply elem_of_dom, (pt_fresh _ _ _ P) in Hq. lia.
  - rewrite Hvis. split; [set_solver|]. intros F G [HF|HF]%elem_of_union HFG; apply elem_of_union; eauto.
Qed.

Lemma identifyIslandOf_spec f s : f ∈ all_functions → partitioned adj (i_visited s) s → closed (i_visited s) →
  wp (identifyIslandOf h g f) (λ _ s', partitioned adj (i_visited s') s' ∧ closed (i_visited s') ∧
     i_visited s ⊆ i_visited s' ∧ f ∈ i_visited s') s.
Proof.
  intros Hf P HV. unfold identifyIslandOf. apply wp_bind, wp_gets. case_bool_decide as Hv; [by apply wp_ret|].
  apply wp_bind. eapply wp_mono; [apply newIsland_spec|]. intros p s1 [-> E1].
  apply wp_bind. eapply wp_mono; [by apply addToIsland_spec|]. intros [] s2 E2.
  rewrite (union_empty_r_L {[f]}) in E2.
  eapply wp_mono; [by apply (island_search_spec s (i_fresh s) f (proj2 HV))|]. intros [] s3 (M & E3 & HM & HMc).
  destruct (partition_extended s (i_fresh s) f M s3 P HV eq_refl E3 HM HMc) as (P3 & HV3 & Hvis).
  split_and!; [done..|set_solver|]. rewrite Hvis. destruct HM as [HfM _]. set_solver.
Qed.

Lemma identify_spec : wp (identifyCallGraphIslandsByCallInstructions h g)
  (λ _ s, partitioned adj all_functions s) (mkISt ∅ ∅ ∅ ∅ 1%positive).
Proof.
  eapply wp_mono.
  { apply (wp_forM _ (λ pre _ s, partitioned adj (i_visited s) s ∧ closed (i_visited s) ∧ ∀ f, f ∈ pre → f ∈ i_visited s)).
    - simpl. split_and!; [|split; set_solver|set_solver].
      split; simpl; try done; try set_solver.
    - intros pre f post s Hl (P & HV & Hpre). eapply wp_mono.
      { apply identifyIslandOf_spec; [apply elem_of_visit; rewrite Hl; set_solver|done..]. }
      intros [] s' (P' & HV' & Hsub & Hf). split_and!; [done..|]. intros k [Hk| ->]%elem_of_snoc; auto. }
  intros [] s (P & HV & Hall). assert (i_visited s = all_functions) as <-; [|done].
  apply set_eq. intros F. split; [apply HV|]. intros HF. by apply Hall, elem_of_visit.
Qed.

(** ** Islands merge *)

(** the island [q] with the functions of the island [p] *)
Lemma moveIsland_spec R q p A f s : partitioned R all_functions s → q ≠ p → A ∈ all_functions → f ∈ all_functions →
  i_islands s !! A = Some (Some q) → i_islands s !! f = Some (Some p) →
  wp (moveIsland q p) (λ _ s', partitioned (linked R A f) all_functions s') s.
Proof.
  intros P Hqp HA Hf Hq Hp.
  destruct (pt_some _ _ _ P A HA) as (q' & x & Hq' & Hx). assert (q' = q) as -> by congruence.
  destruct (pt_some _ _ _ P f Hf) as (p' & y & Hp' & Hy). assert (p' = p) as -> by congruence.
  unfold moveIsland. eapply wp_bind_run; [unfold load_island; by rewrite Hx|]. apply wp_bind.
  assert (∀ F, F ∈ dom (functions x) → ∃ n, functions x !! F = Some (Some n) ∧ i_islands s !! F = Some (Some q)) as Hxf.
  { intros F [o Ho]%elem_of_dom. destruct (pt_members _ _ _ P q x F Hx) as [[? _]|[[n Hn] ?]]; [congruence|].
    exists n. split; [|done]. unfold getFunctionNode in Hn. rewrite Ho in *. congruence. }
  eapply wp_mono.
  { apply (wp_foldM _ (λ pre _ toDelete s', toDelete = pre ∧ i_fresh s' = i_fresh s ∧
      (∀ k, k ≠ p → i_graphs s' !! k = i_graphs s !! k) ∧
      (∃ y', i_graphs s' !! p = Some y' ∧ ∀ F, functions y' !! F = if decide (F ∈ pre) then functions x !! F else functions y !! F) ∧
      ∀ F, i_islands s' !! F = if decide (F ∈ pre) then Some (Some p) else i_islands s !! F)).
    - split_and!; [done..|by exists y|done].
    - intros pre F post l s1 Hl (-> & Hfr & Hgr & (y' & Hy' & Hyf) & Hisl).
      destruct (Hxf F) as (n & Hn & _); [apply elem_of_visit; rewrite Hl; set_solver|].
      apply wp_bind, wp_deref. eexists. split; [done|]. unfold on_island. apply wp_bind, wp_bind.
      unfold wp at 1, load_island. rewrite Hy'. apply wp_modify, wp_bind, wp_modify, wp_ret. simpl.
      split_and!; [done|done| | |].
      + intros k Hk. rewrite lookup_insert_ne by done. by apply Hgr.
      + eexists. rewrite lookup_insert_eq. split; [done|]. intros G. simpl.
        destruct (decide (G = F)) as [->|Hne].
        * rewrite lookup_insert_eq, decide_True by (apply elem_of_snoc; auto). done.
        * rewrite lookup_insert_ne, Hyf by done. apply decide_ext. rewrite elem_of_snoc. tauto.
      + intros G. destruct (decide (G = F)) as [->|Hne].
        * rewrite lookup_insert_eq, decide_True by (apply elem_of_snoc; auto). done.
        * rewrite lookup_insert_ne, Hisl by done. apply decide_ext. rewrite elem_of_snoc. tauto. }
  intros l s1 (-> & Hfr & Hgr & (y' & Hy' & Hyf) & Hisl). apply wp_bind.
  eapply wp_mono.
  { apply (wp_forM _ (λ _ _ s', i_fresh s' = i_fresh s1 ∧ (∀ k, k ≠ q → i_graphs s' !! k = i_graphs s1 !! k) ∧
      is_Some (i_graphs s' !! q) ∧ i_islands s' = i_islands s1)).
    - split_and!; [done..| |done]. rewrite Hgr, Hx by done. eauto.
    - intros pre F post s2 _ (Hfr2 & Hgr2 & [z Hz] & Hisl2). unfold on_island.
      apply wp_bind, wp_bind. unfold wp at 1, load_island. rewrite Hz. apply wp_modify, wp_bind.
      unfold wp at 1. simpl. rewrite lookup_insert_eq. apply wp_modify. simpl.
      split_and!; [done| |rewrite lookup_insert_eq; eauto|done].
      intros k Hk. rewrite !lookup_insert_ne by done. by apply Hgr2. }
  intros [] s2 (Hfr2 & Hgr2 & [z Hz] & Hisl2). unfold delete_island. eapply wp_bind_run.
  { unfold load_island. by rewrite Hz. }
  apply wp_modify.
  assert (∀ F, F ∈ visit (dom (functions x)) ↔ i_islands s !! F = Some (Some q)) as Hin.
  { intros F. rewrite elem_of_visit. split; [intros HF; by destruct (Hxf F HF) as (? & _ & ?)|].
    intros HF. destruct (pt_members _ _ _ P q x F Hx) as [[_ ?]|[[n Hn] _]]; [done|].
    apply elem_of_dom. unfold getFunctionNode in Hn. destruct (functions x !! F); [eauto|done]. }
  assert (∀ F, i_islands s2 !! F = if decide (i_islands s !! F = Some (Some q)) then Some (Some p) else i_islands s !! F) as Hisl'.
  { intros F. rewrite Hisl2, Hisl. apply decide_ext, Hin. }
  assert (∀ F, F ∈ all_functions → (i_islands s !! F = Some (Some q) ↔ rtsc R F A) ∧
    (i_islands s !! F = Some (Some p) ↔ rtsc R F f)) as Hclass.
  { intros F HF. rewrite <- (pt_rel _ _ _ P F A HF HA), <- (pt_rel _ _ _ P F f HF Hf), Hq, Hp. done. }
  split; simpl.
  - intros F HF. rewrite Hisl'. rewrite (pt_none _ _ _ P F HF). by rewrite decide_False.
  - intros F HF. rewrite Hisl'. case_decide as Hd.
    + exists p, y'. split; [done|]. rewrite lookup_delete_ne, Hgr2 by done. done.
    + destruct (pt_some _ _ _ P F HF) as (k & z' & Hk & Hz'). assert (k ≠ q) by congruence.
      destruct (decide (k = p)) as [->|]; [exists p, y'|exists k, z']; (split; [done|]);
        rewrite lookup_delete_ne, Hgr2 by done; [done|by rewrite Hgr].
  - intros k z' F Hz'. apply lookup_delete_Some in Hz' as [Hkq Hz']. rewrite Hgr2 in Hz' by done.
    rewrite Hisl'. destruct (decide (k = p)) as [->|Hkp].
    + assert (z' = y') as -> by congruence. unfold getFunctionNode. rewrite Hyf.
      destruct (decide (F ∈ visit (dom (functions x)))) as [HFx|HFx].
      * rewrite decide_True by (by apply Hin). destruct (Hxf F) as (n & -> & _); [by apply elem_of_visit|]. right. eauto.
      * rewrite decide_False by (by rewrite <- Hin). exact (pt_members _ _ _ P p y F Hy).
    + rewrite Hgr in Hz' by done. destruct (pt_members _ _ _ P k z' F Hz') as [[HF Hne]|[HF Heq]].
      * left. split; [done|]. case_decide; [congruence|done].
      * right. split; [done|]. by rewrite decide_False by congruence.
  - intros F G HF HG. rewrite !Hisl', rtsc_linked, <- (pt_rel _ _ _ P F G HF HG).
    destruct (Hclass F HF) as [HFq HFp], (Hclass G HG) as [HGq HGp].
    assert (rtsc R f G ↔ rtsc R G f) as -> by (split; intros; by symmetry).
    assert (rtsc R A G ↔ rtsc R G A) as -> by (split; intros; by symmetry).
    rewrite <- HFq, <- HFp, <- HGq, <- HGp. repeat case_decide; naive_solver congruence.
  - intros k Hk. rewrite dom_delete_L in Hk. rewrite Hfr2, Hfr. apply (pt_fresh _ _ _ P).
    assert (k ≠ q) by set_solver. apply elem_of_difference in Hk as [Hk _]. apply elem_of_dom in Hk.
    rewrite Hgr2 in Hk by done. apply elem_of_dom.
    destruct (decide (k = p)) as [->|]; [eauto|]. by rewrite Hgr in Hk.
Qed.

(** ** Escaping functions *)

(** [user] is an instruction of [A] that mentions [f] without calling it *)
Definition through (user f A : Ptr) : Prop :=
  isInstruction ir user = true ∧ callsDirectly md user f = false ∧ A = ir_functionOf ir (ir_blockOf ir user).
Definition escapes : relation Ptr := λ A f, ∃ user, user ∈ m_uses md f ∧ through user f A.
(** a call, or a function of the graph that escapes *)
Definition connected : relation Ptr := λ A B, adj A B ∨ (B ∈ all_functions ∧ escapes A B).

Lemma partitioned_iff R R' V s : (∀ F G, R F G ↔ R' F G) → partitioned R V s → partitioned R' V s.
Proof.
  intros HR [H1 H2 H3 H4 H5]. split; try done. intros F G HF HG. rewrite H4 by done.
  split; apply rtsc_mono; intros; by apply HR.
Qed.

(** a link inside an island changes nothing *)
Lemma partitioned_linked R A f s : partitioned R all_functions s → A ∈ all_functions → f ∈ all_functions →
  i_islands s !! A = i_islands s !! f → partitioned (linked R A f) all_functions s.
Proof.
  intros P HA Hf Heq. assert (rtsc R A f) as HAf by (by apply P). pose proof P as [H1 H2 H3 H4 H5].
  split; try done. intros F G HF HG. rewrite H4, rtsc_linked by done. split; [auto|].
  intros [?|[[HFA HfG]|[HFf HAG]]]; [done|..].
  - transitivity A; [done|]. by transitivity f.
  - transitivity f; [done|]. transitivity A; [by symmetry|done].
Qed.

Lemma island_at_run s F p : i_islands s !! F = Some (Some p) → island_at F s = Ok (s, Some p).
Proof. intros HF. unfold island_at. rewrite HF. simpl. rewrite insert_id by done. by destruct s. Qed.

Lemma mergeThroughUser_spec R f user s : partitioned R all_functions s → f ∈ all_functions →
  (isInstruction ir user = true → ir_functionOf ir (ir_blockOf ir user) ∈ all_functions) →
  wp (mergeThroughUser ir md f user)
     (λ _ s', partitioned (λ A F, R A F ∨ (F = f ∧ through user f A)) all_functions s') s.
Proof.
  intros P Hf HA. unfold mergeThroughUser. unfold through.
  destruct (isInstruction ir user) eqn:Hi; simpl.
  2: { apply wp_ret. revert P. apply partitioned_iff. naive_solver. }
  destruct (callsDirectly md user f) eqn:Hc.
  { apply wp_ret. revert P. apply partitioned_iff. naive_solver. }
  set (A := ir_functionOf ir (ir_blockOf ir user)) in *.
  clearbody A. assert (∀ s', partitioned (linked R A f) all_functions s' →
    partitioned (λ A0 F, R A0 F ∨ (F = f ∧ true = true ∧ false = false ∧ A0 = A)) all_functions s') as Hlink.
  { intros s'. apply partitioned_iff. unfold linked. naive_solver. }
  destruct (pt_some _ _ _ P A (HA eq_refl)) as (q & x & Hq & Hx).
  destruct (pt_some _ _ _ P f Hf) as (p & y & Hp & Hy).
  eapply wp_bind_run; [by apply island_at_run|]. apply wp_bind, wp_massert. split; [done|].
  eapply wp_bind_run; [by apply island_at_run|]. apply wp_bind, wp_massert. split; [done|].
  case_bool_decide as Hqp.
  - apply wp_ret, Hlink, partitioned_linked; [done|auto|done|congruence].
  - eapply wp_mono; [by apply (moveIsland_spec R q p A f s P Hqp (HA eq_refl))|]. intros [] s' P'. by apply Hlink.
Qed.

(** every instruction that mentions a function of the graph is in one *)
Context (Huses : ∀ f user, f ∈ all_functions → user ∈ m_uses md f → isInstruction ir user = true →
  ir_functionOf ir (ir_blockOf ir user) ∈ all_functions).

Lemma mergeThroughUsers_spec R f s : partitioned R all_functions s → f ∈ all_functions →
  wp (forM (mergeThroughUser ir md f) (m_uses md f))
     (λ _ s', partitioned (λ A F, R A F ∨ (F = f ∧ escapes A F)) all_functions s') s.
Proof.
  intros P Hf. eapply wp_mono.
  { apply (wp_forM _ (λ pre _ s', partitioned (λ A F, R A F ∨ (F = f ∧ ∃ u, u ∈ pre ∧ through u f A)) all_functions s')).
    - revert P. apply partitioned_iff. intros A F. split; [auto|].
      intros [?|(_ & u & Hu%not_elem_of_nil & _)]; done.
    - intros pre u post s1 Hl P1. eapply wp_mono.
      { apply (mergeThroughUser_spec _ f u s1 P1 Hf). apply (Huses f u Hf). rewrite Hl. set_solver. }
      intros [] s2. apply partitioned_iff. intros A F. setoid_rewrite elem_of_snoc. naive_solver. }
  intros [] s'. apply partitioned_iff. intros A F. unfold escapes. naive_solver.
Qed.

Lemma merge_spec s : partitioned adj all_functions s →
  wp (mergeCallGraphIslandsForEscapedFunctions ir md g)
     (λ _ s', partitioned connected all_functions s') s.
Proof.
  intros P. eapply wp_mono.
  { apply (wp_forM _ (λ pre _ s', partitioned (λ A F, adj A F ∨ (F ∈ pre ∧ escapes A F)) all_functions s')).
    - revert P. apply partitioned_iff. intros A F. split; [auto|].
      intros [?|[?%not_elem_of_nil _]]; done.
    - intros pre f post s1 Hl P1. eapply wp_mono.
      { apply (mergeThroughUsers_spec _ f s1 P1). apply elem_of_visit. rewrite Hl. set_solver. }
      intros [] s2. apply partitioned_iff. intros A F. rewrite elem_of_snoc. naive_solver. }
  intros [] s'. apply partitioned_iff. intros A F. unfold connected. by rewrite elem_of_visit.
Qed.
End islands.

(** (C13) The islands split the functions of a well-formed call graph: no assertion fails, every
    function gets an island and nothing else does, and the island of a function holds exactly the
    functions that calls and escaping functions, in either direction, connect to it. *)
Theorem getIslands_spec {IO : IterOrder} ir md h g :
  cg_wf (h, g) →
  (∀ f user, f ∈ dom (functions g) → user ∈ m_uses md f → isInstruction ir user = true →
     ir_functionOf ir (ir_blockOf ir user) ∈ dom (functions g)) →
  ∃ s islands, getIslands ir md h g = Ok (s, islands) ∧
    (∀ F, is_Some (islands !! F) ↔ F ∈ dom (functions g)) ∧
    ∀ F, F ∈ dom (functions g) → ∃ p x, islands !! F = Some (Some p) ∧ i_graphs s !! p = Some x ∧
      ∀ G, G ∈ dom (functions g) →
        (is_Some (getFunctionNode x G) ↔ rtsc (connected ir md h g) F G).
Proof.
  intros W Huses.
  assert (wp (identifyCallGraphIslandsByCallInstructions h g ;;;
              mergeCallGraphIslandsForEscapedFunctions ir md g ;;; gets i_islands)
    (λ r s, r = i_islands s ∧
       partitioned (connected ir md h g) (dom (functions g)) s)
    (mkISt ∅ ∅ ∅ ∅ 1%positive)) as Hrun.
  { apply wp_bind. eapply wp_mono; [by apply identify_spec|]. intros [] s1 P1.
    apply wp_bind. eapply wp_mono; [by apply merge_spec|]. intros [] s2 P2. apply wp_gets. done. }
  unfold wp in Hrun. unfold getIslands.
  destruct ((identifyCallGraphIslandsByCallInstructions h g ;;; _) _) as [[s r]|e]; [|done].
  destruct Hrun as [-> P]. exists s, (i_islands s). split; [done|]. split.
  - intros F. split.
    + intros [o Ho]. destruct (decide (F ∈ dom (functions g))); [done|]. by rewrite (pt_none _ _ _ P) in Ho.
    + intros HF. destruct (pt_some _ _ _ P F HF) as (p & x & -> & _). eauto.
  - intros F HF. destruct (pt_some _ _ _ P F HF) as (p & x & Hp & Hx). exists p, x. split_and!; [done..|].
    intros G HG. transitivity (i_islands s !! F = i_islands s !! G).
    + rewrite Hp. destruct (pt_members _ _ _ P p x G Hx) as [[Hn Hne]|[Hn Heq]].
      * unfold getFunctionNode. rewrite Hn. split; [by intros []|congruence].
      * split; [congruence|done].
    + by apply P.
Qed.
