(* ===== verification/Witnesses.v ===== *)
(** * Witnesses

    Each theorem about dependence graphs that has hypotheses is applied here to a concrete
    graph on which they hold. *)
From S2P Require Import Prelude SCCIterator DGEdge DGNode DGBase DGInvariant DGSpec DGQuery DGCopy Samples.
From S2P Require Import PDG PDGSpec SCC SCCSpec SCCCycle.
From S2P Require BitMatrix BitMatrixSpec.
From S2P Require Import SCCDAG SCCDAGSpec SCCDAGComponents SCCDAGEdges SCCDAGNewSpec.

(** ** The abstract graph *)

(** a client that copies the edge it added, removes the first one, and then an end of the other *)
Definition sample_client : client :=
  Call (CallAddNode 1 true) (λ _,
  Call (CallFetchOrAddNode 2 false) (λ _,
  Call (CallAddControl 1 2) (λ r,
    match r with
    | Some e =>
        Call (CallCopyAddEdge e) (λ r',
        match r' with
        | Some e' =>
            Call (CallRemoveEdge e) (λ _,
            Call (CallRemoveEdge e') (λ _,
            Call (CallRemoveNodeOf 2) (λ _, Done)))
        | None => Done
        end)
    | None => Done
    end))).

(** two nodes at 1 and 2, the edge at 3 and its copy at 4 *)
Example sample_client_calls : ∃ s, @run visit_elements sample_client (empty_heap, DG_new) =
    Ok (s, [CallAddNode 1 true; CallFetchOrAddNode 2 false; CallAddControl 1 2; CallCopyAddEdge 3; CallRemoveEdge 3; CallRemoveEdge 4;
            CallRemoveNodeOf 2]) ∧ allEdges s.2 = ∅ ∧ allNodes s.2 = {[1%positive]}.
Proof. eexists. split; [vm_compute; reflexivity|]. split; vm_compute; reflexivity. Qed.

Lemma step_addNode A c t b A' : a_step A c A' → c = CallAddNode t b ∨ c = CallFetchOrAddNode t b → t ∉ a_values A →
  a_values A' = {[t]} ∪ a_values A ∧ a_edges A' = a_edges A ∧ a_count A' = (a_count A + 1)%Z.
Proof.
  intros Hs Hc Ht. inversion Hs as [c' t' b' Hc'|t' b' Ht'|? ? ? Hx| | | |]; subst; try (by destruct Hc).
  - assert (t' = t ∧ b' = b) as [-> ->] by (destruct Hc as [-> | ->], Hc'; naive_solver).
    split; [|done]. unfold a_values. simpl. destruct b; set_solver.
  - by destruct Hc as [|[= -> ->]].
  - by destruct Hc; subst.
Qed.

Lemma sample_client_well_behaved : well_behaved a_empty sample_client.
Proof.
  assert (a_values a_empty = ∅) as V0 by by vm_compute. simpl. split.
  { eexists. eapply a_addNode; [by left|by rewrite V0|done]. }
  intros A1 _ H1 _. destruct (step_addNode _ _ _ _ _ H1 (or_introl eq_refl)) as (V1 & E1 & N1); [by rewrite V0|]. split.
  { eexists. eapply a_addNode; [by right|rewrite V1; set_solver|by rewrite N1]. }
  intros A2 _ H2 _. destruct (step_addNode _ _ _ _ _ H2 (or_intror eq_refl)) as (V2 & E2 & N2); [rewrite V1; set_solver|].
  assert (a_edges A2 = ∅) as E by by rewrite E2, E1. split.
  { eexists. eapply (a_addEdge _ _ _ 1); [done|rewrite V2, V1; set_solver..|]. by rewrite E. }
  intros A3 [e|] H3 Hr; [|done]. destruct Hr as (x & _ & E3). rewrite E in E3.
  assert (a_kind x = CONTROL_DEPENDENCE ∧ a_values A3 = a_values A2) as [K V3].
  { inversion H3 as [? ? ? [?|?]| |c y e' Hy| | | |]; subst; try done. simpl in *. injection Hy as <-.
    assert (<[e := x]> (∅ : gmap Ptr AEdge) !! e' = Some (mkAEdge 1 2 CONTROL_DEPENDENCE None)) as Hx.
    { rewrite <- E3, E. apply lookup_insert_eq. }
    by apply lookup_insert_Some in Hx as [[_ ->]|[_ ?]]. }
  split.
  { destruct (exist_fresh (dom (a_edges A3))) as [e' He']. eexists. eapply (a_copyEdge _ e x e').
    - rewrite E3. apply lookup_insert_eq.
    - by rewrite K.
    - by apply not_elem_of_dom. }
  intros A4 [e'|] H4 Hr; [|done]. destruct Hr as (x' & Hnew & E4). split.
  { eexists. apply a_removeEdge. rewrite E4, lookup_insert_ne, E3, lookup_insert_eq; [by eexists|]. intros <-.
    by rewrite E3, lookup_insert_eq in Hnew. }
  assert (e' ≠ e) as Hne by (intros ->; by rewrite E3, lookup_insert_eq in Hnew).
  assert (a_values A4 = a_values A3) as V4 by by inversion H4 as [? ? ? [?|?]| |? ? ? Hy| | | |]; subst.
  intros A5 _ H5 _. assert (a_edges A5 = delete e (a_edges A4) ∧ a_values A5 = a_values A4) as [E5 V5]
    by (by inversion H5 as [? ? ? [?|?]| |? ? ? Hy| | | |]; subst).
  split.
  { eexists. apply a_removeEdge. rewrite E5, lookup_delete_ne, E4, lookup_insert_eq by done. by eexists. }
  intros A6 _ H6 _. assert (a_values A6 = a_values A5) as V6
    by (by inversion H6 as [? ? ? [?|?]| |? ? ? Hy| | | |]; subst).
  split; [|done]. eexists. apply a_removeNode. rewrite V6, V5, V4, V3, V2. set_solver.
Qed.

Lemma dg_refines_abstract_graph_witness :
  well_behaved a_empty sample_client ∧
  wp (@run visit_elements sample_client)
     (λ cs s', ∃ A', a_trace a_empty cs A' ∧ rep s'.1 s'.2 A' ∧ wf s'.1 s'.2)
     (empty_heap, DG_new).
Proof.
  split; [exact sample_client_well_behaved|].
  exact (dg_refines_abstract_graph empty_heap sample_client empty_heap_ok sample_client_well_behaved).
Defined.

(** ** Queries *)

Lemma getDisconnectedSubgraphs_components_witness :
  @getDisconnectedSubgraphs visit_elements sample_heap sample_graph = Ok [allNodes sample_graph] ∧
  ∃ cs, @getDisconnectedSubgraphs visit_elements sample_heap sample_graph = Ok cs ∧
    ⋃ cs = allNodes sample_graph ∧
    (∀ c, c ∈ cs → ∃ n, n ∈ allNodes sample_graph ∧
       ∀ m, m ∈ c ↔ rtc (adjacent sample_heap sample_graph) n m) ∧
    (∀ i j c d, cs !! i = Some c → cs !! j = Some d → i ≠ j → c ## d).
Proof.
  split.
  - vm_compute. reflexivity.
  - exact (@getDisconnectedSubgraphs_components visit_elements _ _ sample_wf).
Defined.

Lemma boundary_nodes_spec_witness :
  (∃ s, @getTopLevelNodes visit_elements true (sample_heap, sample_graph) = Ok ((sample_heap, sample_graph), s) ∧
     ∀ n, n ∈ s ↔ n ∈ allNodes sample_graph ∧ is_top_level sample_heap sample_graph true n) ∧
  (∃ s, @getLeafNodes visit_elements true (sample_heap, sample_graph) = Ok ((sample_heap, sample_graph), s) ∧
     ∀ n, n ∈ s ↔ n ∈ allNodes sample_graph ∧ is_leaf sample_heap sample_graph n ∧
            (true = true → ∃ t, internalNodeMap sample_graph !! t = Some (Some n))).
Proof. exact (@boundary_nodes_spec visit_elements _ _ true sample_wf). Defined.

Lemma sortDependences_sorted_witness :
  ∃ l, @sortDependences visit_reversed (allEdges sample_graph) sample_heap = Ok (sample_heap, l) ∧
    l ≡ₚ elements (allEdges sample_graph) ∧
    ∀ i j e e' a b a' b', i < j → l !! i = Some e → l !! j = Some e' →
      edge_key sample_heap e = Some (a, b) → edge_key sample_heap e' = Some (a', b') →
      (a < a' ∨ a = a' ∧ b ≤ b')%positive.
Proof.
  exact (@sortDependences_sorted visit_reversed _ _ (allEdges sample_graph) sample_wf (reflexivity _)).
Defined.

(** ** Sub-graphs *)

Lemma sample_copyable e : e ∈ allEdges sample_graph → copyable sample_heap e.
Proof. apply copyable_check. vm_compute. reflexivity. Qed.

Lemma sample_no_phantom t : externalNodeMap sample_graph !! t ≠ Some None.
Proof.
  intros Ht. assert (bool_decide (map_Forall (λ _ p, is_Some p) (externalNodeMap sample_graph)) = true) as H
    by (vm_compute; reflexivity).
  apply bool_decide_eq_true in H. specialize (H t None Ht). by destruct H.
Qed.

Lemma createSubgraphFromValues_spec_witness :
  ∃ h' g' m, @createSubgraphFromValues visit_elements sample_graph [11; 12]%positive true ∅ sample_heap
               = Ok (h', Some g') ∧
    subgraph sample_heap sample_graph (λ t, t ∈ [11; 12]%positive) true ∅
      (λ e, e ∈ allEdges sample_graph) m (h', g').
Proof.
  apply (@createSubgraphFromValues_spec visit_elements).
  - exact sample_wf.
  - done.
  - apply (bool_decide_eq_true_1 _). vm_compute. reflexivity.
  - intros e He _. by apply sample_copyable.
  - vm_compute. congruence.
Defined.

Lemma clone_spec_witness :
  ∃ h' g' m, @clone visit_elements sample_graph true sample_heap = Ok (h', Some g') ∧
    subgraph sample_heap sample_graph
      (λ t, internal_value sample_graph t ∨ (true = true ∧ external_value sample_graph t)) true ∅
      (λ e, e ∈ allEdges sample_graph) m (h', g').
Proof.
  apply (@clone_spec visit_elements).
  - exact sample_wf.
  - exact sample_no_phantom.
  - exists 11%positive, 1%positive. vm_compute. reflexivity.
  - exact sample_copyable.
  - vm_compute. congruence.
Defined.

Lemma iterateOverDependences_spec_witness :
  (∃ l, NoDup l.*2 ∧
    (∀ t' e, (t', e) ∈ l ↔ ∃ x, e ∈ allEdges sample_graph ∧ hedges sample_heap !! e = Some x ∧
       from x = 3%positive ∧ node_of sample_graph t' (to x) ∧
       dependence_selected true false false x = true) ∧
    ∀ C (f : Ptr → Ptr → M C bool) c,
      @iterateOverDependencesFrom visit_elements C 13 true false false f ((sample_heap, sample_graph), c) =
      match anyM (λ te : Ptr * Ptr, f te.1 te.2) l c with
      | Ok (c', r) => Ok ((sample_heap, sample_graph, c'), r) | Fail err => Fail err end) ∧
  (∃ l, NoDup l.*2 ∧
    (∀ t' e, (t', e) ∈ l ↔ ∃ x, e ∈ allEdges sample_graph ∧ hedges sample_heap !! e = Some x ∧
       to x = 3%positive ∧ node_of sample_graph t' (from x) ∧
       dependence_selected true false false x = true) ∧
    ∀ C (f : Ptr → Ptr → M C bool) c,
      @iterateOverDependencesTo visit_elements C 13 true false false f ((sample_heap, sample_graph), c) =
      match anyM (λ te : Ptr * Ptr, f te.1 te.2) l c with
      | Ok (c', r) => Ok ((sample_heap, sample_graph, c'), r) | Fail err => Fail err end).
Proof.
  apply (@iterateOverDependences_spec visit_elements sample_heap sample_graph 13%positive 3%positive).
  - exact sample_wf.
  - left. vm_compute. reflexivity.
Defined.

Lemma query_of_absent_value_witness :
  ∃ g', (∀ C (f : Ptr → Ptr → M C bool) c,
      @iterateOverDependencesFrom visit_elements C 99 true true true f ((sample_heap, sample_graph), c)
        = Ok ((sample_heap, g', c), false)) ∧
    wf sample_heap g' ∧ allNodes g' = allNodes sample_graph ∧ allEdges g' = allEdges sample_graph ∧
    isExternal g' 99 = true ∧ numExternalNodes g' = S (numExternalNodes sample_graph) ∧
    fetchOrAddNode 99 true (sample_heap, g') = Ok ((sample_heap, g'), None).
Proof.
  exact (@query_of_absent_value visit_elements _ _ 99%positive true true true true sample_wf eq_refl).
Defined.

Lemma undefined_edges_cannot_be_copied_witness :
  ∃ e h' g', addUndefinedDependenceEdge 11 14 (sample_heap, sample_graph) = Ok ((h', g'), e) ∧ wf h' g' ∧
    @copyAddEdge visit_elements e (h', DG_new) = Fail AssertionFailure.
Proof.
  apply (@undefined_edges_cannot_be_copied visit_elements sample_heap sample_graph 11%positive 14%positive
           1%positive 4%positive DG_new).
  - exact sample_wf.
  - left. vm_compute. reflexivity.
  - left. vm_compute. reflexivity.
Defined.

(** ** Components *)

Definition cycle_nodes : gset Ptr := {[1; 2; 3]}%positive.

Lemma SCC_new_spec_witness :
  wp (@SCC_new visit_elements cycle_nodes)
     (λ _ s', ∃ m, subgraph sample_heap sample_graph
        (λ t, ∃ n, n ∈ cycle_nodes ∧ node_of sample_graph t n) true ∅
        (λ e, e ∈ allEdges sample_graph) m s') (sample_heap, DG_new).
Proof.
  apply (@SCC_new_spec visit_elements).
  - exact sample_wf.
  - apply (bool_decide_eq_true_1 _). vm_compute. reflexivity.
  - apply (bool_decide_eq_true_1 _). vm_compute. reflexivity.
  - intros e [He _]. by apply sample_copyable.
  - vm_compute. congruence.
Defined.

Lemma hasCycle_complete_witness :
  @hasCycle visit_elements sample_heap sample_graph false = Ok true ∧
  ∃ r, @hasCycle visit_elements sample_heap sample_graph false = Ok r ∧
    (r = false → ∀ t n, internalNodeMap sample_graph !! t = Some (Some n) →
       ¬ tc (succ sample_heap sample_graph false) n n).
Proof.
  split; [vm_compute; reflexivity|].
  exact (@hasCycle_complete visit_elements _ _ false sample_wf).
Defined.

(** ** The graph of the components *)

Definition sample_world : @World BitMatrix.ListBitVector :=
  mkWorld sample_heap ∅ (mkSCCDAG DG_new ∅ (BitMatrix.resize 0) true ∅).

Definition sample_dag : @World BitMatrix.ListBitVector :=
  match @SCCDAG_new visit_elements reference_scc_iterator _
          (setEntryNode (Some 1%positive) sample_graph) sample_world with
  | Ok (w, _) => w | Fail _ => sample_world end.

Lemma sample_dag_wf : wf (w_heap sample_dag) (dag (w_dag sample_dag)).
Proof. apply wf_check. vm_compute. reflexivity. Qed.

Lemma orderedBefore_decides_paths_witness :
  wp (@computeReachabilityAmongSCCs visit_elements _) (λ _ w',
    w_heap w' = w_heap sample_dag ∧ dag (w_dag w') = dag (w_dag sample_dag) ∧
    ∀ a b, (∃ n, node_of (dag (w_dag sample_dag)) a n) →
      (∃ n, node_of (dag (w_dag sample_dag)) b n) →
      ∃ r, orderedBefore (w_dag w') a b = Ok r ∧
        (r = true ↔ tc (depends (w_heap sample_dag) (dag (w_dag sample_dag))) a b)) sample_dag.
Proof.
  apply (@orderedBefore_decides_paths visit_elements _ _).
  - exact sample_dag_wf.
  - vm_compute. congruence.
Defined.

Definition sample_pdg : DG := setEntryNode (Some 1%positive) sample_graph.

Lemma sample_pdg_wf : wf sample_heap sample_pdg.
Proof. apply wf_check. vm_compute. reflexivity. Qed.

Lemma SCCDAG_new_spec_witness :
  wp (@SCCDAG_new visit_elements reference_scc_iterator BitMatrix.ListBitVector sample_pdg) (λ _ w',
    condensation (w_heap sample_world) sample_pdg w') sample_world.
Proof.
  refine (@SCCDAG_new_spec visit_elements _ BitMatrixSpec.ListBitVector_laws reference_scc_iterator reference_laws
            sample_world sample_pdg _ _ _ _ _).
  - exact sample_pdg_wf.
  - eexists. reflexivity.
  - exact sample_copyable.
  - vm_compute. congruence.
  - reflexivity.
Defined.

(** the nodes of the components of 14 and 20 *)
Definition merged_pair : gset Ptr :=
  list_to_set (take 2 (elements (allNodes (dag (w_dag sample_dag))))).

Definition merged_world : @World BitMatrix.ListBitVector :=
  match @mergeSCCs visit_elements _ merged_pair sample_dag with Ok (w, _) => w | Fail _ => sample_dag end.

Lemma merged_SCC_has_no_index_witness :
  ∃ nodes w1 p, @nodesOfSCCs visit_elements _ merged_pair sample_dag = Ok (sample_dag, nodes) ∧
    @new_SCC visit_elements _ nodes sample_dag = Ok (w1, p) ∧ w_sccs merged_world !! p = w_sccs w1 !! p ∧
    is_Some (w_sccs merged_world !! p) ∧ sccIndexes (w_dag sample_dag) !! p = None ∧
    orderedDirty (w_dag merged_world) = false ∧
    getSCCIndex (w_dag merged_world) p = Fail UndefinedBehaviour ∧
    ∀ q, orderedBefore (w_dag merged_world) p q = Fail UndefinedBehaviour.
Proof.
  apply (@merged_SCC_has_no_index visit_elements _ merged_pair sample_dag).
  - apply (bool_decide_eq_true_1 _). vm_compute. reflexivity.
  - vm_compute. reflexivity.
  - assert (bool_decide (map_Forall (λ s _, (s < nextAddr (w_heap sample_dag))%positive)
      (sccIndexes (w_dag sample_dag))) = true) as H by (vm_compute; reflexivity).
    apply bool_decide_eq_true in H. intros s [i Hi]. exact (H s i Hi).
  - vm_compute. reflexivity.
Defined.
