(* ===== verification/ForestWitnesses.v ===== *)
(** * Witnesses for dominator and loop forests

    One function with five blocks: an entry, the headers of three loops nested in each other,
    and an exit. *)
From S2P Require Import Prelude Forest Dominators DominatorsQuery DominatorsClone DominatorsSpec DominatorsInst.
From S2P Require Import LoopStructure LoopForest LoopNesting LoopTreeSpec LoopVisit LoopForestSpec.

(** ** The dominator tree *)

(** the nodes 1 to 5 for the blocks 10 to 14: 10 dominates 11, which dominates 12 and 14;
    12 dominates 13 *)
Definition sample_tree : LLVMDomTree := {|
  lt_nodes := list_to_map [(1, mkLLVMDomNode (Some 10) 0 [2]); (2, mkLLVMDomNode (Some 11) 1 [3; 5]);
    (3, mkLLVMDomNode (Some 12) 2 [4]); (4, mkLLVMDomNode (Some 13) 3 []);
    (5, mkLLVMDomNode (Some 14) 2 [])];
  lt_roots := [10];
  lt_getNode b := if decide (b = 10) then Some 1 else None;
  lt_getRootNode := Some 1
|}%positive.
Definition sample_idom (n : Ptr) : option Ptr :=
  match n with 2 => Some 1 | 3 | 5 => Some 2 | 4 => Some 3 | _ => None end%positive.

Lemma sample_tree_ok : llvm_tree_ok sample_tree sample_idom.
Proof.
  assert (is_forest (dom (lt_nodes sample_tree)) (ln_kids sample_tree) sample_idom
            (λ n, Z.to_nat (ln_depth sample_tree n))) as F.
  { apply forest_check_sound. vm_compute. reflexivity. }
  assert (bool_decide (set_Forall (λ n, n ∈ preorder (ln_kids sample_tree)
    (height (dom (lt_nodes sample_tree)) (λ n, Z.to_nat (ln_depth sample_tree n))) 1%positive)
    (dom (lt_nodes sample_tree))) = true) as Hcover by (vm_compute; reflexivity).
  assert (bool_decide (set_Forall (λ a, set_Forall (λ b, ln_blk sample_tree a = ln_blk sample_tree b → a = b)
    (dom (lt_nodes sample_tree))) (dom (lt_nodes sample_tree))) = true) as Hblk by (vm_compute; reflexivity).
  assert (1%positive ∈ dom (lt_nodes sample_tree)) as H1 by (apply (bool_decide_eq_true_1 _); vm_compute; reflexivity).
  split; [done|..].
  - intros a b Ha Hb. apply bool_decide_eq_true in Hblk. by apply (Hblk a Ha b Hb).
  - intros r Hr. exists 1%positive. split; [|done]. simpl in Hr.
    apply elem_of_cons in Hr as [->|Hr]; [done|]. by apply list_elem_of_singleton in Hr.
  - intros n Hn. exists 1%positive. split; [by left|]. apply (above_check _ _ _ _ _ _ F); [done|].
    apply bool_decide_eq_true in Hcover. by apply bool_decide_eq_true, Hcover.
Qed.

Definition empty_doms : DSt := (mkDomHeap ∅ 1, emptyForest).

Lemma DominatorForest_ofTree_spec_witness :
  wp (@DominatorForest_ofTree visit_elements sample_tree false) (λ _ s',
    dom_wf s'.1 s'.2 ∧ df_post s'.2 = Some false ∧ dh_nodes empty_doms.1 ⊆ dh_nodes s'.1 ∧
    size (df_nodes s'.2) = size (lt_nodes sample_tree) ∧
    ∀ a b, a ∈ dom (lt_nodes sample_tree) → b ∈ dom (lt_nodes sample_tree) →
      ∃ r, dominatesBlock (ln_blk sample_tree a) (ln_blk sample_tree b) s' = Ok (s', r) ∧
           (r = true ↔ llvm_dominates sample_tree a b)) empty_doms.
Proof.
  apply (@DominatorForest_ofTree_spec visit_elements _ sample_idom); [exact sample_tree_ok|].
  intros q [x Hx]. discriminate Hx.
Defined.

Definition sample_doms : DSt :=
  match @DominatorForest_ofTree visit_elements sample_tree false empty_doms with
  | Ok (s, _) => s | Fail _ => empty_doms end.
Definition sample_dh : DomHeap := sample_doms.1.
Definition sample_df : DominatorForest := sample_doms.2.
Definition dnode (b : Ptr) : Ptr := default 1%positive (df_bbNodeMap sample_df !! Some b).

(** every clause of [dom_wf] *)
Definition dom_check (h : DomHeap) (f : DominatorForest) : bool :=
  bool_decide (set_Forall (λ n, is_Some (dh_nodes h !! n) ∧ df_bbNodeMap f !! block_of h n = Some n) (df_nodes f)) &&
  forest_check (df_nodes f) (kids_of h) (par_of h) (rank_of h) &&
  bool_decide (map_Forall (λ b n, n ∈ df_nodes f ∧ block_of h n = b) (df_bbNodeMap f)) &&
  bool_decide (map_Forall (λ q _, (q < dh_next h)%positive) (dh_nodes h)).

Lemma dom_check_sound h f : dom_check h f = true → dom_wf h f.
Proof.
  unfold dom_check. rewrite !andb_true_iff, !bool_decide_eq_true.
  intros [[[H1 H2%forest_check_sound] H3] H4]. split; [|done|..].
  - intros n Hn. by apply H1.
  - intros b n. split; [apply H3|]. intros [Hn <-]. by apply H1.
  - intros n [x Hx]. exact (H4 _ _ Hx).
Qed.

Lemma sample_dom_wf : dom_wf sample_dh sample_df.
Proof. apply dom_check_sound. vm_compute. reflexivity. Qed.

Definition two_blocks : gset (option Ptr) := {[Some 10; Some 12]}%positive.

Lemma DominatorForest_subset_spec_witness :
  wp (@DominatorForest_subset visit_elements sample_df two_blocks) (λ _ s',
    dom_wf s'.1 s'.2 ∧ dom_wf s'.1 sample_df ∧ dh_nodes sample_doms.1 ⊆ dh_nodes s'.1 ∧ df_post s'.2 = None ∧
    (∀ b, is_Some (df_bbNodeMap s'.2 !! b) ↔ is_Some (df_bbNodeMap sample_df !! b) ∧ b ∈ two_blocks) ∧
    ∀ b1 b2 n1 n2, df_bbNodeMap sample_df !! b1 = Some n1 → df_bbNodeMap sample_df !! b2 = Some n2 →
      b1 ∈ two_blocks → b2 ∈ two_blocks →
      ∃ r, dominatesBlock b1 b2 s' = Ok (s', r) ∧
        (r = true ↔ rtc (kept_child sample_doms.1 sample_df two_blocks) n1 n2)) sample_doms.
Proof. exact (@DominatorForest_subset_spec visit_elements sample_df two_blocks sample_doms sample_dom_wf). Defined.

Lemma dominance_queries_agree_witness :
  ∃ r doms ds,
    dominatesBlock (Some 11%positive) (Some 13%positive) (sample_dh, sample_df) = Ok ((sample_dh, sample_df), r) ∧
    dominatorsOf (Some (dnode 13)) (sample_dh, sample_df) = Ok ((sample_dh, sample_df), doms) ∧
    Dominators.getDescendants (Some 11%positive) (sample_dh, sample_df) = Ok ((sample_dh, sample_df), ds) ∧
    (r = true ↔ dom_above sample_dh sample_df (dnode 11) (dnode 13)) ∧ (r = true ↔ dnode 11 ∈ doms) ∧
    (r = true ↔ Some 13%positive ∈ ds) ∧
    ∀ b, b ∈ ds → is_Some (df_bbNodeMap sample_df !! b).
Proof.
  apply dominance_queries_agree; [exact sample_dom_wf|vm_compute; reflexivity..].
Defined.

Lemma findNearestCommonDominator_spec_witness :
  (∃ c, findNearestCommonDominator (Some 13%positive) (Some 14%positive) (sample_dh, sample_df) =
       Ok ((sample_dh, sample_df), block_of sample_dh c) ∧
     dom_above sample_dh sample_df c (dnode 13) ∧ dom_above sample_dh sample_df c (dnode 14) ∧
     ∀ a, dom_above sample_dh sample_df a (dnode 13) → dom_above sample_dh sample_df a (dnode 14) →
       dom_above sample_dh sample_df a c) ∨
  (findNearestCommonDominator (Some 13%positive) (Some 14%positive) (sample_dh, sample_df) = Fail AssertionFailure ∧
     ∀ a, dom_above sample_dh sample_df a (dnode 13) → ¬ dom_above sample_dh sample_df a (dnode 14)).
Proof.
  apply findNearestCommonDominator_spec; [exact sample_dom_wf|vm_compute; reflexivity..].
Defined.

(** two instructions per block, twice its number and the next one *)
Definition sample_blocks : IRBlocks := {|
  getParent i := Pos.div2 i;
  getNextNode i := match i with xO b => Some (xI b) | _ => None end;
  block_insts b := [xO b; xI b]
|}.

Lemma sample_blocks_ok : ir_ok sample_blocks.
Proof.
  split.
  - intros b [|[|k]] i; simpl; intros [= <-]; done.
  - intros b. apply NoDup_cons. split; [|apply NoDup_singleton].
    intros H%list_elem_of_singleton. discriminate H.
Qed.

Lemma dominatesInst_spec_witness :
  ((22%positive = 22%positive →
     (df_post sample_df = Some false → dominatesInst sample_blocks 44 45 (sample_dh, sample_df) =
        Ok ((sample_dh, sample_df), bool_decide (0 ≤ 1))) ∧
     (df_post sample_df = Some true → dominatesInst sample_blocks 44 45 (sample_dh, sample_df) =
        Ok ((sample_dh, sample_df), bool_decide (1 < 0))) ∧
     (df_post sample_df = None → dominatesInst sample_blocks 44 45 (sample_dh, sample_df) = Fail UndefinedBehaviour)) ∧
   (22%positive ≠ 22%positive →
     ∀ n1 n2, df_bbNodeMap sample_df !! Some 22%positive = Some n1 →
       df_bbNodeMap sample_df !! Some 22%positive = Some n2 →
       ∃ r, dominatesInst sample_blocks 44 45 (sample_dh, sample_df) = Ok ((sample_dh, sample_df), r) ∧
         (r = true ↔ dom_above sample_dh sample_df n1 n2))).
Proof.
  exact (dominatesInst_spec sample_blocks 44 45 0 1 sample_dh sample_df sample_blocks_ok sample_dom_wf eq_refl eq_refl).
Defined.

(** every block becomes the one a hundred above *)
Definition clone_map : gmap (option Ptr) (option Ptr) :=
  list_to_map ((λ b : Ptr, (Some b, Some (b + 100)%positive)) <$> [10; 11; 12; 13; 14]%positive).

Lemma transferToClones_stale_witness :
  wp (@transferToClones visit_elements clone_map) (λ _ s',
    clone_map !! block_of sample_dh (dnode 11) = Some (block_of s'.1 (dnode 11)) ∧
    (df_bbNodeMap sample_df !! block_of s'.1 (dnode 11) = None →
       Dominators.getNode (block_of s'.1 (dnode 11)) s' = Ok (s', None) ∧
       ∀ b, dominatesBlock (block_of s'.1 (dnode 11)) b s' = Fail AssertionFailure)) (sample_dh, sample_df).
Proof.
  apply (@transferToClones_stale visit_elements).
  - exact sample_dom_wf.
  - intros n Hn. assert (bool_decide (set_Forall (λ n, is_Some (clone_map !! block_of sample_dh n))
      (df_nodes sample_df)) = true) as H by (vm_compute; reflexivity).
    apply bool_decide_eq_true in H. by apply H.
  - apply (bool_decide_eq_true_1 _). vm_compute. reflexivity.
Defined.

(** ** The loops *)

Definition sample_ir : IRProgram := {|
  ir_insts b := [xO b; xI b];
  ir_terminator b := xI b;
  ir_successors b := match b with 10 => [11] | 11 => [12; 14] | 12 => [13; 11] | 13 => [13; 12] | _ => [] end;
  ir_blockOf i := Pos.div2 i;
  ir_functionOf _ := 1;
  ir_kind _ := IsInstruction
|}%positive.

(** the loops 51, 52 and 53 with the headers 11, 12 and 13 *)
Definition sample_loop (l : Ptr) : LoopStructure :=
  match l with
  | 51 => mkLoopStructure 11 (Some 10) 1 ∅ {[12]} {[11; 12; 13]} [14] [(11, 14)]
  | 52 => mkLoopStructure 12 None 2 ∅ {[13]} {[12; 13]} [11] [(12, 11)]
  | _ => mkLoopStructure 13 None 3 ∅ {[13]} {[13]} [12] [(13, 12)]
  end%positive.
Definition sample_doms_of : gmap Ptr DominatorForest := {[1%positive := sample_df]}.
Definition all_loops : list Ptr := [51; 52; 53]%positive.
Definition inner_loops : list Ptr := [52; 53]%positive.

Lemma sample_headed l : l ∈ all_loops → headed sample_ir sample_loop sample_dh sample_doms_of l.
Proof.
  intros Hl. exists sample_df. split; [vm_compute; reflexivity|]. split; [exact sample_dom_wf|].
  assert (bool_decide (Forall (λ l, set_Forall (λ b, dnode (ls_header (sample_loop l)) ∈ df_nodes sample_df ∧
    df_bbNodeMap sample_df !! Some (ls_header (sample_loop l)) = Some (dnode (ls_header (sample_loop l))) ∧
    df_bbNodeMap sample_df !! Some b = Some (dnode b) ∧
    bool_decide (dnode b ∈ preorder (kids_of sample_dh) (height (df_nodes sample_df) (rank_of sample_dh))
      (dnode (ls_header (sample_loop l)))) = true) (ls_bbs (sample_loop l))) all_loops) = true) as H
    by (vm_compute; reflexivity).
  apply bool_decide_eq_true in H. rewrite Forall_forall in H. intros b Hb.
  destruct (H l Hl b Hb) as (Hin & H1 & H2 & H3). exists (dnode (ls_header (sample_loop l))), (dnode b).
  split; [done|]. split; [done|]. by eapply above_check; [apply (dw_forest _ _ sample_dom_wf)| |].
Qed.

Definition pair_ok (l k : Ptr) : Prop :=
  (ls_header (sample_loop l) = ls_header (sample_loop k) → l = k) ∧
  (ls_bbs (sample_loop l) ## ls_bbs (sample_loop k) ∨ ls_bbs (sample_loop l) ⊆ ls_bbs (sample_loop k) ∨
   ls_bbs (sample_loop k) ⊆ ls_bbs (sample_loop l)) ∧
  (l ≠ k → ls_header (sample_loop k) ∈ ls_bbs (sample_loop l) →
   (ls_depth (sample_loop l) < ls_depth (sample_loop k))%Z).
#[export] Instance pair_ok_dec l k : Decision (pair_ok l k).
Proof. unfold pair_ok. apply _. Defined.

Lemma sample_selection sel : NoDup sel → sel ⊆ all_loops → selection_ok sample_ir sample_loop sel sample_dh sample_doms_of.
Proof.
  intros Hnd Hsub.
  assert (bool_decide (Forall (λ l, Forall (pair_ok l) all_loops) all_loops) = true) as H2 by (vm_compute; reflexivity).
  assert (bool_decide (Forall (λ l, ls_header (sample_loop l) ∈ ls_bbs (sample_loop l) ∧
    (1 ≤ ls_depth (sample_loop l))%Z) all_loops) = true) as H1 by (vm_compute; reflexivity).
  apply bool_decide_eq_true in H1, H2. rewrite Forall_forall in H1, H2.
  assert (∀ l k, l ∈ sel → k ∈ sel → pair_ok l k) as Hp.
  { intros l k Hl%Hsub Hk%Hsub. pose proof (H2 l Hl) as H. rewrite Forall_forall in H. by apply H. }
  split.
  - done.
  - intros l Hl%Hsub. by apply H1.
  - intros l k Hl Hk. by apply (Hp l k).
  - intros l k Hl Hk. by apply (Hp l k).
  - done.
  - intros l Hl%Hsub. by apply sample_headed.
  - intros l Hl%Hsub. by apply H1.
  - intros l k Hl Hk. by apply (Hp l k).
Qed.

Definition no_forest : LFSt := mkLFSt ∅ 1 (mkLoopForest ∅ ∅ ∅ ∅).

Lemma no_forest_next q : is_Some (tree_objs no_forest !! q) → (q < tree_next no_forest)%positive.
Proof. intros [x Hx]. discriminate Hx. Qed.

Lemma LoopForest_new_spec_witness :
  wp (@LoopForest_new visit_elements sample_ir sample_loop all_loops sample_dh sample_doms_of) (λ _ s',
    @forest_wf visit_elements (map_img (lf_nodes (lf s'))) (level_of sample_loop s') s' ∧
    (∀ l, l ∈ all_loops ↔ is_Some (lf_nodes (lf s') !! l)) ∧
    (∀ l n, lf_nodes (lf s') !! l = Some n → loop_of s' n = Some l ∧
       getNode sample_loop l s' = Ok (s', Some n) ∧
       ∀ q, parent_of s' n = Some q ↔
         ∃ p, lf_nodes (lf s') !! p = Some q ∧ immediate sample_loop all_loops p l ∧
           rooted sample_loop all_loops p)) no_forest.
Proof.
  apply (@LoopForest_new_spec visit_elements); [|exact no_forest_next].
  apply sample_selection; [|done]. apply (bool_decide_eq_true_1 _). vm_compute. reflexivity.
Defined.

Lemma nested_loops_left_apart_witness :
  wp (@LoopForest_new visit_elements sample_ir sample_loop inner_loops sample_dh sample_doms_of) (λ _ s', ∃ np nc,
    lf_nodes (lf s') !! 52%positive = Some np ∧ lf_nodes (lf s') !! 53%positive = Some nc ∧
    parent_of s' nc = None ∧ np ∈ lf_trees (lf s') ∧ nc ∈ lf_trees (lf s')) no_forest.
Proof.
  apply (@nested_loops_left_apart visit_elements _ _ _ _ inner_loops).
  - apply sample_selection; [|set_solver]. apply (bool_decide_eq_true_1 _). vm_compute. reflexivity.
  - exact no_forest_next.
  - split_and!; [set_solver..|done|]. apply (bool_decide_eq_true_1 _). vm_compute. reflexivity.
  - intros t Ht _. apply elem_of_cons in Ht as [->|Ht]; [done|].
    apply list_elem_of_singleton in Ht as ->. done.
Defined.

(** In that forest the innermost loop of an instruction of the block 13 is not found: the
    first tree that includes it is the one of the outer loop. *)
Example innermost_loop_missed :
  match @LoopForest_new visit_reversed sample_ir sample_loop inner_loops sample_dh sample_doms_of no_forest with
  | Ok (s, _) =>
      match @forest_getInnermostLoopThatContains visit_reversed sample_ir sample_loop 26 s with
      | Ok (_, r) => r = lf_nodes (lf s) !! 52%positive
      | Fail _ => False
      end
  | Fail _ => False
  end.
Proof. vm_compute. reflexivity. Qed.

(** ** The forest of the three loops *)

Definition sample_forest : LFSt :=
  match @LoopForest_new visit_elements sample_ir sample_loop all_loops sample_dh sample_doms_of no_forest with
  | Ok (s, _) => s | Fail _ => no_forest end.
Definition sample_live : gset Ptr := map_img (lf_nodes (lf sample_forest)).
Definition sample_rank : Ptr → nat := level_of sample_loop sample_forest.
Definition node_of_loop (l : Ptr) : Ptr := default 1%positive (lf_nodes (lf sample_forest) !! l).

Lemma sample_forest_wf : @forest_wf visit_elements sample_live sample_rank sample_forest.
Proof.
  assert (selection_ok sample_ir sample_loop all_loops sample_dh sample_doms_of) as Hsel.
  { apply sample_selection; [|done]. apply (bool_decide_eq_true_1 _). vm_compute. reflexivity. }
  pose proof (@LoopForest_new_run visit_elements sample_ir sample_loop sample_dh sample_doms_of all_loops
    Hsel no_forest no_forest_next) as H.
  pose proof (proj1 (wp_ok _ _ _) H) as (s' & [] & Hrun & A & Ht).
  assert (s' = sample_forest) as -> by (unfold sample_forest; by rewrite Hrun).
  by apply (@attached_forest visit_elements _ _ _ _ _ Hsel _ _ A).
Qed.

Lemma node_live l : bool_decide (node_of_loop l ∈ sample_live) = true → node_of_loop l ∈ sample_live.
Proof. apply bool_decide_eq_true_1. Qed.

Lemma LoopTree_destroy_spec_witness :
  wp (@LoopTree_destroy visit_elements (node_of_loop 52)) (λ _ s',
    @forest_wf visit_elements (sample_live ∖ {[node_of_loop 52]}) sample_rank s' ∧
    tree_objs s' !! node_of_loop 52 = None ∧
    (∀ b, b ∈ sample_live ∖ {[node_of_loop 52]} → loop_of s' b = loop_of sample_forest b) ∧
    (∀ a b, a ∈ sample_live ∖ {[node_of_loop 52]} → b ∈ sample_live ∖ {[node_of_loop 52]} →
       above (sample_live ∖ {[node_of_loop 52]}) (@children_of visit_elements s') a b ↔
       above sample_live (@children_of visit_elements sample_forest) a b)) sample_forest.
Proof.
  apply (@LoopTree_destroy_spec visit_elements); [exact sample_forest_wf|].
  apply node_live. vm_compute. reflexivity.
Defined.

Lemma LoopForest_destroy_spec_witness :
  wp (@LoopForest_destroy visit_elements map_to_list) (λ _ s', lf_trees (lf s') = ∅ ∧
    ∀ l n, lf_nodes (lf sample_forest) !! l = Some n → tree_objs s' !! n = None) sample_forest.
Proof.
  apply (@LoopForest_destroy_spec visit_elements map_to_list sample_rank).
  - done.
  - assert (bool_decide (map_Forall (λ a n, map_Forall (λ b m, n = m → a = b) (lf_nodes (lf sample_forest)))
      (lf_nodes (lf sample_forest))) = true) as H by (vm_compute; reflexivity).
    apply bool_decide_eq_true in H. intros a b n Ha Hb. exact (H a n Ha b n Hb eq_refl).
  - exact sample_forest_wf.
Defined.

Lemma visits_spec_witness :
  ∃ pre post : list (Ptr * Z),
    (∀ C (f : Ptr → Z → M (LFSt * C) bool) c, keeps_forest sample_forest f →
       @visitPreOrder visit_elements C (tree_fuel sample_forest) f (node_of_loop 51) 1%Z (sample_forest, c) =
         anyM (λ p, f p.1 p.2) pre (sample_forest, c) ∧
       @visitPostOrder visit_elements C (tree_fuel sample_forest) f (node_of_loop 51) 1%Z (sample_forest, c) =
         anyM (λ p, f p.1 p.2) post (sample_forest, c)) ∧
    pre ≡ₚ post ∧ NoDup pre.*1 ∧
    (∀ m, m ∈ pre.*1 ↔ above sample_live (@children_of visit_elements sample_forest) (node_of_loop 51) m) ∧
    head pre = Some (node_of_loop 51, 1%Z) ∧ last post = Some (node_of_loop 51, 1%Z) ∧
    (∀ m k, (m, k) ∈ pre → ∃ l1 ps l2, pre = l1 ++ (m, k) :: ps ++ l2 ∧ @below visit_elements sample_live sample_forest m ps) ∧
    (∀ m k, (m, k) ∈ post → ∃ l1 ps l2, post = l1 ++ ps ++ (m, k) :: l2 ∧ @below visit_elements sample_live sample_forest m ps) ∧
    ((Z.of_nat (size sample_live) < 2 ^ 32)%Z → ∀ m k, (m, k) ∈ pre →
       ∃ d, nsteps (child sample_live (@children_of visit_elements sample_forest)) d (node_of_loop 51) m ∧
         k = (1 + Z.of_nat d)%Z).
Proof.
  apply (@visits_spec visit_elements _ _ _ sample_forest_wf). apply node_live. vm_compute. reflexivity.
Defined.

Lemma getNumberOfLoops_spec_witness :
  ((Z.of_nat (size sample_live) < 2 ^ 32)%Z →
     @getNumberOfLoops visit_elements sample_forest = Ok (sample_forest, Z.of_nat (size sample_live))) ∧
  ∀ n, n ∈ sample_live → ∃ below : gset Ptr,
    @getNumberOfSubLoops visit_elements (tree_fuel sample_forest) n sample_forest =
      Ok (sample_forest, (Z.of_nat (size below) mod 2 ^ 32)%Z) ∧
    ∀ m, m ∈ below ↔ m ≠ n ∧ above sample_live (@children_of visit_elements sample_forest) n m.
Proof. exact (@getNumberOfLoops_spec visit_elements _ _ _ sample_forest_wf). Defined.

Lemma loops_of_block_spec_witness :
  (∃ r, @getInnermostLoopThatContains visit_elements sample_loop (node_of_loop 51) 12 sample_forest =
       Ok (sample_forest, r) ∧
     match r with
     | None => ¬ includes sample_loop sample_forest 12 (node_of_loop 51)
     | Some l => ∃ d, above sample_live (@children_of visit_elements sample_forest) (node_of_loop 51) d ∧
         loop_of sample_forest d = Some l ∧ includes sample_loop sample_forest 12 d ∧
         ∀ a, above sample_live (@children_of visit_elements sample_forest) (node_of_loop 51) a →
           includes sample_loop sample_forest 12 a →
           above sample_live (@children_of visit_elements sample_forest) a d
     end) ∧
  (∃ r, @getOutermostLoopThatContains visit_elements sample_loop (node_of_loop 51) 12 sample_forest =
       Ok (sample_forest, r) ∧
     (includes sample_loop sample_forest 12 (node_of_loop 51) → r = loop_of sample_forest (node_of_loop 51)) ∧
     (¬ includes sample_loop sample_forest 12 (node_of_loop 51) → r = None)).
Proof.
  apply (@loops_of_block_spec visit_elements _ sample_live sample_rank _ sample_forest_wf).
  - apply node_live. vm_compute. reflexivity.
  - vm_compute. reflexivity.
  - intros a b Ha Hb _ _. pose proof (fw_forest _ _ _ sample_forest_wf) as F.
    assert (bool_decide (set_Forall (λ a, set_Forall (λ b,
      b ∈ preorder (@children_of visit_elements sample_forest) (height sample_live sample_rank) a ∨
      a ∈ preorder (@children_of visit_elements sample_forest) (height sample_live sample_rank) b)
      sample_live) sample_live) = true) as H by (vm_compute; reflexivity).
    apply bool_decide_eq_true in H.
    assert (node_of_loop 51 ∈ sample_live) as Hr by (apply node_live; vm_compute; reflexivity).
    destruct (above_in _ _ _ _ F _ _ Ha (or_introl Hr)) as [_ HaU].
    destruct (above_in _ _ _ _ F _ _ Hb (or_introl Hr)) as [_ HbU].
    destruct (H a HaU b HbU) as [Hab|Hab]; [left|right];
      by apply (above_check _ _ _ _ _ _ F); [|apply bool_decide_eq_true].
Defined.
