(* ===== verification/LoopWitnesses.v ===== *)
(** * Witnesses for the analyses of loops

    The three nested loops of ForestWitnesses with dependences between their instructions. *)
From S2P Require Import Prelude Forest DGEdge DGNode DGBase DGInvariant DGSpec DGQuery Samples.
From S2P Require Import Dominators DominatorsQuery DominatorsInst LoopStructure LoopForest LoopTreeSpec LoopVisit.
From S2P Require Import LoopCarried LoopCarriedSpec ForestWitnesses.

(** ** Loop-carried dependences *)

Definition sample_insts : gset Ptr := list_to_set (concat ((λ b : Ptr, [xO b; xI b]) <$> [10; 11; 12; 13; 14]))%positive.
Definition loop_ir : IRProgram := {|
  ir_insts := ir_insts sample_ir;
  ir_terminator := ir_terminator sample_ir;
  ir_successors := ir_successors sample_ir;
  ir_blockOf := ir_blockOf sample_ir;
  ir_functionOf := ir_functionOf sample_ir;
  ir_kind i := if decide (i ∈ sample_insts) then IsInstruction else IsConstant
|}.
(** 24 is a PHI, and no instruction is a load or a store with a known pointer *)
Definition loop_mem : MemIR := {| pointerOperand _ := None; isPHI i := bool_decide (i = 24%positive) |}.

(** the variables 22-24 and 26-24, the memory dependence 24-26 and the control dependence 23-25 *)
Definition loop_calls : list dg_call :=
  [ CallAddNode 22 true; CallAddNode 23 true; CallAddNode 24 true; CallAddNode 25 true; CallAddNode 26 true;
    CallAddVariable 22 24 DG_DATA_RAW; CallAddVariable 26 24 DG_DATA_RAW;
    CallAddMemory 24 26 DG_DATA_RAW false; CallAddControl 23 25 ].
Definition loop_deps : GSt :=
  match @forM GSt dg_call (@exec visit_elements) loop_calls (empty_heap, DG_new) with
  | Ok (s, _) => s | Fail _ => (empty_heap, DG_new) end.

Lemma loop_deps_wf : wf loop_deps.1 loop_deps.2.
Proof. apply wf_check. vm_compute. reflexivity. Qed.

Lemma natural_check l (path : list (Ptr * Ptr)) :
  bool_decide (set_Forall (λ a, Forall (λ b, b ∈ ls_bbs (sample_loop l) ∨ b ∈ ls_exitBlocks (sample_loop l))
    (ir_successors loop_ir a)) (ls_bbs (sample_loop l))) = true →
  bool_decide (Forall (λ b, b ∉ ls_bbs (sample_loop l)) (ls_exitBlocks (sample_loop l))) = true →
  bool_decide (Forall (λ p : Ptr * Ptr, p.1 ∈ ls_bbs (sample_loop l) ∧ p.2 ∈ ls_bbs (sample_loop l) ∧
    p.2 ∈ ir_successors loop_ir p.1) path) = true →
  (∀ a, a ∈ ls_bbs (sample_loop l) → rtc (λ x y, (x, y) ∈ path) a (ls_header (sample_loop l))) →
  natural_loop loop_ir (sample_loop l).
Proof.
  intros H1%bool_decide_eq_true H2%bool_decide_eq_true H3%bool_decide_eq_true H4.
  rewrite Forall_forall in H2. rewrite Forall_forall in H3. split.
  - intros a b Ha. specialize (H1 a Ha). simpl in H1. rewrite Forall_forall in H1. apply H1.
  - exact H2.
  - intros a Ha. specialize (H4 a Ha). eapply rtc_subrel; [|exact H4]. intros x y Hxy. exact (H3 _ Hxy).
Qed.

(** the paths back to the headers *)
Definition back_path (l : Ptr) : list (Ptr * Ptr) :=
  match l with 51 => [(13, 12); (12, 11)] | 52 => [(13, 12)] | _ => [] end%positive.

Lemma sample_natural l : l ∈ all_loops → natural_loop loop_ir (sample_loop l).
Proof.
  intros Hl. apply (natural_check l (back_path l)).
  1-3: revert l Hl; apply Forall_forall, (bool_decide_eq_true_1 _); vm_compute; reflexivity.
  assert (Forall (λ l, set_Forall (λ a, a = ls_header (sample_loop l) ∨ (a, ls_header (sample_loop l)) ∈ back_path l ∨
    ((a, 12) ∈ back_path l ∧ (12, ls_header (sample_loop l)) ∈ back_path l))%positive (ls_bbs (sample_loop l))) all_loops) as H.
  { apply (bool_decide_eq_true_1 _). vm_compute. reflexivity. }
  rewrite Forall_forall in H. intros a Ha. destruct (H l Hl a Ha) as [->|[H1|[H1 H2]]].
  - apply rtc_refl.
  - by apply rtc_once.
  - eapply rtc_l; [exact H1|by apply rtc_once].
Qed.

Lemma sample_above n : n ∈ sample_live →
  above sample_live (@children_of visit_elements sample_forest) (node_of_loop 51) n.
Proof.
  intros Hn. assert (set_Forall (λ m, m ∈ preorder (@children_of visit_elements sample_forest)
    (height sample_live sample_rank) (node_of_loop 51)) sample_live) as H
    by (apply (bool_decide_eq_true_1 _); vm_compute; reflexivity).
  apply (above_check _ _ _ _ _ _ (fw_forest _ _ _ sample_forest_wf)); [apply node_live; vm_compute; reflexivity|].
  apply bool_decide_eq_true, (H n Hn).
Qed.

Lemma sample_node l : l ∈ all_loops → node_of_loop l ∈ sample_live ∧ loop_of sample_forest (node_of_loop l) = Some l.
Proof. revert l. apply Forall_forall, (bool_decide_eq_true_1 _). vm_compute. reflexivity. Qed.

Lemma sample_live_loop n : n ∈ sample_live → ∃ l, l ∈ all_loops ∧ n = node_of_loop l.
Proof.
  intros Hn. assert (set_Forall (λ n, Exists (λ l, n = node_of_loop l) all_loops) sample_live) as H
    by (apply (bool_decide_eq_true_1 _); vm_compute; reflexivity).
  specialize (H n Hn). apply Exists_exists in H. exact H.
Qed.

Lemma sample_loop_of n l : n ∈ sample_live → loop_of sample_forest n = Some l → l ∈ all_loops ∧ n = node_of_loop l.
Proof.
  intros (l' & Hl' & ->)%sample_live_loop. destruct (sample_node l' Hl') as [_ ->]. by intros [= <-].
Qed.

Lemma sample_includes bb n : n ∈ sample_live → includes sample_loop sample_forest bb n →
  includes sample_loop sample_forest bb (node_of_loop 51).
Proof.
  intros Hn (l & Hl & Hb). destruct (sample_loop_of n l Hn Hl) as [Hal ->].
  exists 51%positive. split; [vm_compute; reflexivity|].
  assert (Forall (λ l, set_Forall (λ b, b ∈ ls_bbs (sample_loop 51)) (ls_bbs (sample_loop l))) all_loops) as H
    by (apply (bool_decide_eq_true_1 _); vm_compute; reflexivity).
  rewrite Forall_forall in H. exact (H l Hal bb Hb).
Qed.

Lemma sample_chain a b : a ∈ sample_live → b ∈ sample_live →
  above sample_live (@children_of visit_elements sample_forest) a b ∨
  above sample_live (@children_of visit_elements sample_forest) b a.
Proof.
  intros Ha Hb. pose proof (fw_forest _ _ _ sample_forest_wf) as F.
  assert (bool_decide (set_Forall (λ a, set_Forall (λ b,
    b ∈ preorder (@children_of visit_elements sample_forest) (height sample_live sample_rank) a ∨
    a ∈ preorder (@children_of visit_elements sample_forest) (height sample_live sample_rank) b)
    sample_live) sample_live) = true) as H by (vm_compute; reflexivity).
  apply bool_decide_eq_true in H. destruct (H a Ha b Hb) as [Hab|Hab]; [left|right];
    by apply (above_check _ _ _ _ _ _ F); [|apply bool_decide_eq_true].
Qed.

Lemma sample_inst i : isInstruction loop_ir i = true → i ∈ sample_insts.
Proof. unfold isInstruction. simpl. by case_decide. Qed.

Lemma sample_context : @loop_context visit_elements loop_ir sample_blocks sample_loop sample_live sample_rank
  sample_forest (node_of_loop 51) 51 sample_dh sample_df.
Proof.
  assert (node_of_loop 51 ∈ sample_live) as H51 by (apply node_live; vm_compute; reflexivity).
  pose proof (fw_forest _ _ _ sample_forest_wf) as F.
  assert (∀ a, above sample_live (@children_of visit_elements sample_forest) (node_of_loop 51) a → a ∈ sample_live) as Hin.
  { intros a Ha. by destruct (above_in _ _ _ _ F _ _ Ha (or_introl H51)). }
  split.
  - exact sample_forest_wf.
  - exact H51.
  - vm_compute. reflexivity.
  - vm_compute. reflexivity.
  - intros bb a b Ha%Hin Hb%Hin _ _. by apply sample_chain.
  - intros bb a Ha%Hin. by apply sample_includes.
  - intros a l Ha%Hin Hl. apply sample_natural. by apply (sample_loop_of a).
  - exact sample_dom_wf.
  - vm_compute. reflexivity.
  - exact sample_blocks_ok.
  - reflexivity.
  - intros i Hi%sample_inst. revert i Hi. apply (bool_decide_eq_true_1 (set_Forall _ _)). vm_compute. reflexivity.
  - intros i Hi%sample_inst. revert i Hi. apply (bool_decide_eq_true_1 (set_Forall _ _)). vm_compute. reflexivity.
  - vm_compute. reflexivity.
Qed.

(** the only variable dependence whose source does not dominate its use is 26-24 *)
Lemma sample_uses : @uses_in_loop visit_elements loop_ir sample_blocks sample_loop sample_live
  sample_forest (node_of_loop 51) sample_dh sample_df loop_deps.1 loop_deps.2.
Proof.
  intros e y p c l (He & Hy & Hp & Hc) Hk Ip Ic (d & Hd & Hl & (l' & Hl' & Hb) & _) Hnd.
  assert (set_Forall (λ e, holds (λ y, kind y = VARIABLE_DEPENDENCE →
    holds (λ x, theT x = 22 ∨ theT x = 26)%positive (hnodes loop_deps.1 !! from y) ∧
    holds (λ x, theT x = 24)%positive (hnodes loop_deps.1 !! to y)) (hedges loop_deps.1 !! e)) (allEdges loop_deps.2)) as H.
  { apply (bool_decide_eq_true_1 _). vm_compute. reflexivity. }
  specialize (H e He). simpl in H. rewrite Hy in H. destruct (H Hk) as [H1 H2].
  destruct (wf_map _ _ loop_deps_wf _ _ Hp) as (_ & x & Hx & <-), (wf_map _ _ loop_deps_wf _ _ Hc) as (_ & z & Hz & <-).
  rewrite Hx in H1. rewrite Hz in H2. simpl in H1, H2. rewrite H2 in *.
  destruct H1 as [E|E]; rewrite E in *.
  - exfalso. destruct Hnd as [Hnd|Hnd]; [discriminate Hnd|]. apply Hnd. right. split; [vm_compute; discriminate|].
    exists (dnode 11), (dnode 12). split; [vm_compute; reflexivity|]. split; [vm_compute; reflexivity|].
    apply (above_check _ _ _ _ _ _ (dw_forest _ _ sample_dom_wf)); [apply (bool_decide_eq_true_1 _)|]; vm_compute; reflexivity.
  - assert (node_of_loop 51 ∈ sample_live) as H51 by (apply node_live; vm_compute; reflexivity).
    destruct (above_in _ _ _ _ (fw_forest _ _ _ sample_forest_wf) _ _ Hd (or_introl H51)) as [_ Hdl].
    destruct (sample_loop_of d l' Hdl Hl') as [Hal _].
    assert (Forall (λ l, 12 ∈ ls_bbs (sample_loop l) → 13 ∈ ls_bbs (sample_loop l))%positive all_loops) as Hall
      by (apply (bool_decide_eq_true_1 _); vm_compute; reflexivity).
    rewrite Forall_forall in Hall. rewrite Hl in Hl'. injection Hl' as <-. exact (Hall l Hal Hb).
Qed.

Lemma setLoopCarriedDependencies_spec_witness :
  let w := mkLCSt loop_deps.1 sample_forest (sample_dh, sample_df) in
  ((∀ e y, e ∈ allEdges loop_deps.2 → hedges loop_deps.1 !! e = Some y → isLoopCarried y = false) →
    wp (@setLoopCarriedDependencies visit_elements loop_ir sample_blocks loop_mem sample_loop (node_of_loop 51) loop_deps.2)
      (λ _ w', ∃ h', w' = mkLCSt h' sample_forest (sample_dh, sample_df) ∧
      hnodes h' = hnodes loop_deps.1 ∧ (∀ e, e ∉ allEdges loop_deps.2 → hedges h' !! e = hedges loop_deps.1 !! e) ∧
      ∀ e y p c, edge_ends loop_deps.1 loop_deps.2 e y p c → ∃ b, hedges h' !! e = Some (setLoopCarried b y) ∧
        (b = true ↔ @carried visit_elements loop_ir sample_blocks loop_mem sample_loop sample_live sample_forest
           (node_of_loop 51) 51 sample_dh sample_df y p c)) w) ∧
  ((∃ e y, e ∈ allEdges loop_deps.2 ∧ hedges loop_deps.1 !! e = Some y ∧ isLoopCarried y = true) →
    @setLoopCarriedDependencies visit_elements loop_ir sample_blocks loop_mem sample_loop (node_of_loop 51) loop_deps.2 w =
      Fail AssertionFailure).
Proof.
  refine (@setLoopCarriedDependencies_spec visit_elements loop_ir sample_blocks loop_mem sample_loop sample_live sample_rank
    sample_forest (node_of_loop 51) 51 sample_dh sample_df loop_deps.1 loop_deps.2 _ _ _).
  - exact sample_context.
  - exact loop_deps_wf.
  - exact sample_uses.
Defined.

(** only the memory dependence 24-26 is carried *)
Example carried_edges :
  match @setLoopCarriedDependencies visit_elements loop_ir sample_blocks loop_mem sample_loop (node_of_loop 51)
          loop_deps.2 (mkLCSt loop_deps.1 sample_forest (sample_dh, sample_df)) with
  | Ok (w, _) => omap (λ e, y ← hedges (lc_heap w) !! e; if isLoopCarried y then Some (kind y) else None)
                      (elements (allEdges loop_deps.2))
  | Fail _ => []
  end = [MAY_MEMORY_DEPENDENCE].
Proof. vm_compute. reflexivity. Qed.
