(* ===== verification/EnvironmentWitnesses.v ===== *)
(** * Witnesses for the environments of loops

    A dependence graph with values that enter and leave, its environment, and a builder of it. *)
From S2P Require Import Prelude DGEdge DGNode DGBase DGInvariant DGSpec DGQuery DGCopy PDGSpec Samples.
From S2P Require Import LoopEnvironment LoopEnvironmentSpec LoopEnvBuilder LoopEnvBuilderSpec.

Open Scope Z_scope.

(** ** The environment *)

(** 11 to 13 inside the loop and 1, 20, 21 outside: 1 enters at 11 and 12, the values of 12 and
    13 leave to 20, that of 11 to 21; 13-1 is a memory dependence *)
Definition env_calls : list dg_call :=
  [ CallAddNode 11 true; CallAddNode 12 true; CallAddNode 13 true;
    CallAddNode 1 false; CallAddNode 20 false; CallAddNode 21 false;
    CallAddVariable 1 11 DG_DATA_RAW; CallAddVariable 1 12 DG_DATA_RAW; CallAddVariable 11 12 DG_DATA_RAW;
    CallAddVariable 12 20 DG_DATA_RAW; CallAddVariable 13 20 DG_DATA_RAW; CallAddVariable 11 21 DG_DATA_RAW;
    CallAddMemory 13 1 DG_DATA_RAW false ].
Definition env_st : GSt :=
  match @forM GSt dg_call (@exec visit_elements) env_calls (empty_heap, DG_new) with
  | Ok (s, _) => s | Fail _ => (empty_heap, DG_new) end.
Definition env_isInst (v : Ptr) : bool := bool_decide (v ≠ 1%positive).
(** the type of a value is twice its address; 7 is [i32] *)
Definition env_type (v : Ptr) : Ptr := (2 * v)%positive.

Lemma env_st_wf : wf env_st.1 env_st.2.
Proof. apply wf_check. vm_compute. reflexivity. Qed.

(** a check of the value edges of a graph *)
Lemma value_edges_check h g (P : Ptr → Ptr → Prop) : wf h g →
  set_Forall (λ e, holds (λ y, carriesNoValue y = false →
    holds (λ x, holds (λ z, P (theT x) (theT z)) (hnodes h !! to y)) (hnodes h !! from y)) (hedges h !! e)) (allEdges g) →
  ∀ e s t, value_edge h g e s t → P s t.
Proof.
  intros W H e s t (He & y & Hy & Hc & Hs & Ht). specialize (H e He). simpl in H. rewrite Hy in H. specialize (H Hc).
  destruct (wf_map _ _ W _ _ Hs) as (_ & x & Hx & <-), (wf_map _ _ W _ _ Ht) as (_ & z & Hz & <-).
  rewrite Hx in H. simpl in H. by rewrite Hz in H.
Qed.

Lemma external_inv g v : external_value g v → is_Some (externalNodeMap g !! v).
Proof. intros [n ?]. by eexists. Qed.

Definition sample_env : LoopEnvironment :=
  match @LoopEnvironment_new visit_elements env_isInst 7%positive env_st.2 [30; 31]%positive {[21%positive]} env_st.1 with
  | Ok (_, env) => env | Fail _ => env_empty end.

Lemma LoopEnvironment_new_spec_witness :
  (∀ e s t, value_edge env_st.1 env_st.2 e s t → external_value env_st.2 s → ¬ external_value env_st.2 t ∧ env_isInst t = true) ∧
  wp (@LoopEnvironment_new visit_elements env_isInst 7%positive env_st.2 [30; 31]%positive {[21%positive]})
    (λ env h', h' = env_st.1 ∧ env_wf env ∧
    (∀ v, isLiveIn v env = true ↔ external_value env_st.2 v ∧ v ∉ ({[21%positive]} : gset Ptr) ∧ ∃ e t, value_edge env_st.1 env_st.2 e v t) ∧
    (∀ v, isProducer v env = true ↔ isLiveIn v env = true ∨
       ∃ e x, value_edge env_st.1 env_st.2 e v x ∧ external_value env_st.2 x ∧ x ∉ ({[21%positive]} : gset Ptr)) ∧
    (∀ v c, c ∈ consumersOf env v ↔ ∃ e, value_edge env_st.1 env_st.2 e v c ∧
       ((external_value env_st.2 v ∧ v ∉ ({[21%positive]} : gset Ptr)) ∨ (external_value env_st.2 c ∧ c ∉ ({[21%positive]} : gset Ptr)))) ∧
    getExitBlockID env = (if decide (1 < length [30; 31]%positive)%nat then Z.of_nat (length (envProducers env)) else -1)) env_st.1.
Proof.
  assert (∀ e s t, value_edge env_st.1 env_st.2 e s t → external_value env_st.2 s →
    ¬ external_value env_st.2 t ∧ env_isInst t = true) as H.
  { intros e s t He Hs%external_inv. pose proof env_st_wf as W.
    assert (is_Some (externalNodeMap env_st.2 !! s) → externalNodeMap env_st.2 !! t = None ∧ env_isInst t = true) as H.
    { clear Hs. revert e s t He. apply (value_edges_check _ _ (λ s t, is_Some (externalNodeMap env_st.2 !! s) →
        externalNodeMap env_st.2 !! t = None ∧ env_isInst t = true) W). apply (bool_decide_eq_true_1 _). vm_compute. reflexivity. }
    destruct (H Hs) as [Ht ?]. split; [|done]. intros [k Hk]. congruence. }
  split; [exact H|].
  refine (@LoopEnvironment_new_spec visit_elements env_isInst 7%positive env_st.1 env_st.2 [30; 31]%positive {[21%positive]} _ _ _ _).
  - exact env_st_wf.
  - intros t Ht. assert (bool_decide (map_Forall (λ _ p, is_Some p) (externalNodeMap env_st.2)) = true) as Hn by (vm_compute; reflexivity).
    apply bool_decide_eq_true in Hn. by destruct (Hn t None Ht).
  - vm_compute. reflexivity.
  - exact H.
Defined.

(** 12 and 13 leave, 1 is the only live-in value, and 3 stands for the exit *)
Example sample_env_values : envProducers sample_env = [13; 12; 1]%positive ∧
  producerIDMap sample_env = list_to_map [(13%positive, 0); (12%positive, 1); (1%positive, 2)] ∧
  liveInIDs sample_env = {[2]} ∧ liveOutIDs sample_env = {[0; 1]} ∧
  hasExitBlockEnv sample_env = true ∧ exitBlockType sample_env = Some 7%positive.
Proof. split_and!; apply (bool_decide_eq_true_1 _); vm_compute; reflexivity. Qed.

Lemma sample_env_wf : env_wf sample_env.
Proof.
  destruct sample_env_values as (E1 & E2 & E3 & E4 & _). split; rewrite ?E1, ?E2, ?E3, ?E4; clear E1 E2 E3 E4.
  - apply (bool_decide_eq_true_1 _). reflexivity.
  - intros v i. rewrite <- elem_of_list_to_map, !elem_of_cons by (apply (bool_decide_eq_true_1 _); reflexivity). split.
    + intros [[= -> ->]|[[= -> ->]|[[= -> ->]|[]%elem_of_nil]]]; (split; [lia|reflexivity]).
    + intros [Hi Hv]. assert (i < 3) by (apply lookup_lt_Some in Hv; simpl in Hv; lia).
      assert (i = 0 ∨ i = 1 ∨ i = 2) as [->|[->| ->]] by lia; injection Hv as <-; auto.
  - intros i. rewrite elem_of_union, !elem_of_singleton. simpl. lia.
  - set_solver.
Qed.

(** ** The builder *)

(** 12 is skipped and 13 is reduced by four workers *)
Definition sample_reduced (id : Z) (o : bool) : bool := bool_decide (id = 0) && o.
Definition sample_skipped (id : Z) (o : bool) : bool := bool_decide (id = 1) && o.
Definition sample_builder : EnvBuilder :=
  match LoopEnvironmentBuilder_ofEnvironment env_type sample_env sample_reduced sample_skipped 4 2 with
  | Ok b => b
  | Fail _ => mkEnvBuilder None None ∅ ∅ 0 0 [] ∅ ∅ ∅ ∅ 0 []
  end.

Lemma LoopEnvironmentBuilder_layout_witness :
  env_wf sample_env ∧
  ∃ b, LoopEnvironmentBuilder_ofEnvironment env_type sample_env sample_reduced sample_skipped 4 2 = Ok b ∧
    builder_wf b ∧ getNumberOfUsers b = u32 2 ∧
    (∀ id, isIncludedEnvironmentVariable b id = true ↔ included sample_env sample_skipped id) ∧
    (∀ id, included sample_env sample_skipped id → ∃ ix t r, getIndexOfEnvironmentVariable b id = Ok ix ∧ 0 ≤ ix < envSize b ∧
       envTypes b !! Z.to_nat ix = Some t ∧ typeOfEnvironmentLocation env_type sample_env id = Ok t ∧
       hasVariableBeenReduced b id = Ok r ∧ (r = true ↔ to_reduce sample_env sample_reduced sample_skipped id)) ∧
    (∀ id id' ix, getIndexOfEnvironmentVariable b id = Ok ix → getIndexOfEnvironmentVariable b id' = Ok ix → id = id').
Proof.
  split; [exact sample_env_wf|].
  refine (@LoopEnvironmentBuilder_layout env_type sample_env sample_reduced sample_skipped 4 2 _ _ _).
  - exact sample_env_wf.
  - intros _. vm_compute. by eexists.
  - vm_compute. reflexivity.
Defined.

(** slots: 1, the exit, then the reduced 13 *)
Example sample_builder_values : sorted (dom (envIDToIndex sample_builder)) = [0; 2; 3] ∧
  getIndexOfEnvironmentVariable sample_builder 2 = Ok 0 ∧ getIndexOfEnvironmentVariable sample_builder 3 = Ok 1 ∧
  getIndexOfEnvironmentVariable sample_builder 0 = Ok 2 ∧ envTypes sample_builder = [2; 7; 26]%positive ∧
  hasVariableBeenReduced sample_builder 0 = Ok true ∧ envArrayType sample_builder = 24.
Proof. vm_compute. done. Qed.

Lemma sample_builder_wf : builder_wf sample_builder.
Proof.
  destruct (@ofEnvironment_run env_type sample_env sample_reduced sample_skipped 4 2)
    as (b & ts & s & r & E & [W _ _ _ _ _] & _).
  - exact sample_env_wf.
  - intros _. vm_compute. by eexists.
  - vm_compute. reflexivity.
  - unfold sample_builder. by rewrite E.
Qed.

Lemma addVariableToEnvironment_spec_witness :
  let b' := addVariableToEnvironment 9 40%positive sample_builder in
  builder_wf sample_builder ∧ builder_wf b' ∧
  (∀ id ix, envIDToIndex sample_builder !! id = Some ix → envIDToIndex b' !! id = Some ix ∧
     envTypes b' !! Z.to_nat ix = envTypes sample_builder !! Z.to_nat ix ∧
     hasVariableBeenReduced b' id = hasVariableBeenReduced sample_builder id) ∧
  (∀ id, isIncludedEnvironmentVariable b' id = true ↔ isIncludedEnvironmentVariable sample_builder id = true ∨ id = 9) ∧
  (isIncludedEnvironmentVariable sample_builder 9 = true → b' = sample_builder) ∧
  (isIncludedEnvironmentVariable sample_builder 9 = false →
     envIDToIndex b' !! 9 = Some (envSize sample_builder) ∧ envTypes b' !! Z.to_nat (envSize sample_builder) = Some 40%positive ∧
     hasVariableBeenReduced b' 9 = Ok false).
Proof.
  intros b'. split; [exact sample_builder_wf|].
  refine (@addVariableToEnvironment_spec 9 40%positive sample_builder _ _ _).
  - exact sample_builder_wf.
  - vm_compute. reflexivity.
  - lia.
Defined.

(** an emitter that numbers the values it creates *)
Definition emit_log (op : IROp) : M (list (IROp * Ptr) * Ptr) Ptr := λ s, Ok ((s.1 ++ [(op, s.2)], Pos.succ s.2), s.2).
Definition allocated_builder : EnvBuilder := set_array (Some 100%positive) (Some 101%positive) sample_builder.

Lemma allocated_builder_wf : builder_wf allocated_builder.
Proof. apply (same_layout_wf sample_builder); [by split|apply sample_builder_wf]. Qed.

Lemma generateEnvVariables_bounds_witness :
  let s := ([], 102%positive) in
  builder_wf allocated_builder ∧
  wp (generateEnvVariables emit_log allocated_builder) (λ b' s', ∃ ops, s'.1 = s.1 ++ ops ∧
    Forall (λ o, access_ok 100%positive (envArrayType allocated_builder) ops o.1) ops ∧ builder_wf b' ∧
    envIDToIndex b' = envIDToIndex allocated_builder ∧
    ∀ id ix, envIDToIndex allocated_builder !! id = Some ix → ∃ r, hasVariableBeenReduced b' id = Ok r ∧
      if r : bool
      then vector_ok 100%positive ops allocated_builder b' ix ∧
        ∀ i, 0 ≤ i < numReducers allocated_builder → ∃ p arr t,
          getReducedEnvironmentVariable b' id (Z.of_nat (length (default [] (envIndexToReducableVar allocated_builder !! ix))) + i) = Ok p ∧
          envIndexToVectorOfReducableVar b' !! ix = Some arr ∧ envTypes allocated_builder !! Z.to_nat ix = Some t ∧
          points_to ops arr (i * valuesInCacheLine) (ValueType t) p
      else ∃ p t, getEnvironmentVariable b' id = Ok (Some p) ∧ envTypes allocated_builder !! Z.to_nat ix = Some t ∧
        points_to ops 100%positive (ix * valuesInCacheLine) (ValueType t) p) s.
Proof.
  intros s. split; [exact allocated_builder_wf|].
  refine (@generateEnvVariables_bounds _ emit_log fst 100%positive allocated_builder s _ _ _ _).
  - intros op s'. by eexists _, _.
  - exact allocated_builder_wf.
  - reflexivity.
  - vm_compute. done.
Defined.

(** two single variables and a vector of four elements *)
Example sample_accesses :
  match generateEnvVariables emit_log allocated_builder ([], 102%positive) with
  | Ok (s, _) => omap (λ o, match o.1 with CreateGEP a [_; Const _ k] => Some (a, k) | _ => None end) s.1
  | Fail _ => []
  end = [(100%positive, 0); (100%positive, 8); (100%positive, 16); (106%positive, 0); (106%positive, 8); (106%positive, 16); (106%positive, 24)].
Proof. vm_compute. reflexivity. Qed.

(** ** Unset arrays, unbounded reducers, unknown variables *)

Example array_read_before_set : createEnvironmentVariablePointer emit_log (λ _, true) (envIDToIndex sample_builder) 2 5%positive
  LoopEnvironmentUser_new ([], 102%positive) = Fail UndefinedBehaviour.
Proof. reflexivity. Qed.

(** a vector for 2^32 reducers *)
Definition huge_builder : EnvBuilder :=
  mkEnvBuilder (Some 100%positive) (Some 101%positive) {[0 := 0]} {[0 := 0]} 1 8 [5%positive] ∅ ∅ {[0 := []]} ∅ (2 ^ 32) [].
Example reducer_loop_diverges : generateEnvVariables emit_log huge_builder ([], 102%positive) = Fail OutOfFuel.
Proof. vm_compute. reflexivity. Qed.

(** the reduction of 77, which the builder does not have, is about slot 0, that of variable 2 *)
Definition unknown_reduction : Res (EnvBuilder * list Ptr) :=
  match accumulatorPHI emit_log (λ v, ret v) 50%positive 51%positive (allocated_builder, []) (77, 60%positive) ([], 102%positive) with
  | Ok (_, r) => Ok r | Fail e => Fail e end.
Example unknown_variable_gets_slot_0 :
  isIncludedEnvironmentVariable allocated_builder 77 = false ∧
  match unknown_reduction with
  | Ok (b, _) => getIndexOfEnvironmentVariable b 77 = Ok 0 ∧ getIndexOfEnvironmentVariable b 2 = Ok 0
  | Fail _ => False
  end.
Proof. vm_compute. done. Qed.
