(* ===== verification/HotWitnesses.v ===== *)
(** * Witnesses for profiles

    A program with a loop: [main] calls [g] from the body of its loop and after it. The exit of
    [g] is reached by some of its invocations only, so its total does not divide evenly. *)
From S2P Require Import Prelude Doubles Hot HotSpec LoopStructure IRModule.
Open Scope Z_scope.

Definition sample_ir : IRProgram := {|
  ir_insts := λ b, match b with
    | 11 => [101] | 12 => [102] | 13 => [103; 104] | 14 => [105; 106]
    | 21 => [201; 202; 203] | 22 => [204] | _ => [] end%positive;
  ir_terminator := λ b, match b with
    | 11 => 101 | 12 => 102 | 13 => 104 | 14 => 106 | 21 => 203 | _ => 204 end%positive;
  ir_successors := λ b, match b with
    | 11 => [12] | 12 => [13; 14] | 13 => [12] | 21 => [22] | _ => [] end%positive;
  ir_blockOf := λ i, match i with
    | 101 => 11 | 102 => 12 | 103 | 104 => 13 | 105 | 106 => 14 | 204 => 22 | _ => 21 end%positive;
  ir_functionOf := λ b, match b with 21 | 22 => 2 | _ => 1 end%positive;
  ir_kind := λ _, IsInstruction |}.

Definition sample_module : LLVMModule := {|
  m_functions := [1; 2; 3]%positive;
  m_blocks := λ F, match F with 1 => [11; 12; 13; 14] | 2 => [21; 22] | _ => [] end%positive;
  m_call := λ i, match i with
    | 103 | 105 => CallInst (Some 2%positive) | 202 => CallInst (Some 3%positive) | _ => NotACall end%positive;
  m_uses := λ F, match F with 2 => [103; 105] | 3 => [202] | _ => [] end%positive |}.

Definition sample_profile : ProfileInfo := {|
  getBlockProfileCount := λ b, match b with
    | (11 | 14)%positive => Some 1 | 13%positive => Some 10 | (12 | 21)%positive => Some 11
    | 22%positive => Some 4 | _ => None end;
  getEdgeProbability := λ b s, match b, s with
    | 12%positive, 13%positive => Some (10, 11) | 12%positive, 14%positive => Some (1, 11)
    | _, _ => None end |}.

Definition sample_rank (F : Ptr) : nat := if decide (F = 1%positive) then 1%nat else 0%nat.

#[local] Existing Instance visit_elements.

(** case analysis on the members of concrete lists *)
Ltac each_member :=
  repeat match goal with
  | H : _ ∈ [] |- _ => by apply not_elem_of_nil in H
  | H : _ ∈ _ :: _ |- _ => apply elem_of_cons in H as [->|H]
  | H : ?x ∈ ?l |- _ => let l' := eval vm_compute in l in progress change (x ∈ l') in H
  end.

Lemma sample_module_wf : module_wf sample_ir sample_module.
Proof.
  split.
  - apply (bool_decide_unpack _). vm_compute. done.
  - apply (bool_decide_unpack _). vm_compute. done.
  - intros F b HF Hb. each_member; (split; [done|discriminate]).
  - intros F b i HF Hb Hi. each_member; done.
  - intros F i g HF Hi. each_member; intros Hg; vm_compute in Hg;
      simplify_eq; simpl; set_solver.
  - intros F i c HF Hi. each_member; intros Hk; vm_compute in Hk; congruence.
  - intros F c HF Hc _.
    each_member; [exists 1%positive|exists 1%positive|exists 2%positive];
      (split; [simpl; set_solver|]; vm_compute; set_solver).
Qed.

Lemma sample_counts b : b ∈ all_blocks sample_module → 0 <= bb_count sample_profile b < 2 ^ 53.
Proof. intros Hb. each_member; vm_compute; split; done. Qed.

Lemma sample_profile_ok : profile_ok sample_ir sample_module sample_profile sample_rank.
Proof.
  split; [exact sample_counts| | |].
  - intros F [HF Hd] _. each_member; [exists 101%positive|exists 201%positive|done];
      (split; [vm_compute; set_solver|done]).
  - intros F i g [HF _] Hi _ Hg.
    each_member; vm_compute in Hg; simplify_eq; vm_compute; lia.
  - intros F [HF _]. each_member; by vm_compute.
Qed.

Lemma sample_direct : direct_calls sample_module.
Proof. intros F c [HF Hd] Hc. each_member; done. Qed.

Lemma sample_fit : shares_fit sample_ir sample_module sample_profile 2.
Proof.
  split; [apply (bool_decide_unpack _); by vm_compute|]. split; [by vm_compute|].
  exists 105%positive. split; [done|]. by vm_compute.
Qed.

(** [g] executes 37 instructions in 11 invocations: three for each, and four are left over *)
Example sample_total : function_total sample_ir sample_module sample_profile sample_rank 2 = 37.
Proof. vm_compute. reflexivity. Qed.

Lemma main_defined : defined_fun sample_module 1.
Proof. split; [simpl; set_solver|done]. Qed.
Lemma g_defined : defined_fun sample_module 2.
Proof. split; [simpl; set_solver|done]. Qed.

Lemma Hot_new_spec_witness :
  ∃ h, Hot_new sample_ir sample_module sample_profile = Ok h ∧
    getSelfInstructions_module h = 71 ∧ getTotalInstructions_function h 2 = Ok 37 ∧
    getTotalInstructions_function h 1 = Ok 67.
Proof.
  destruct (Hot_new_spec sample_ir sample_module sample_profile sample_rank sample_module_wf sample_profile_ok)
    as (h & Hrun & Hm & HF).
  exists h. split; [exact Hrun|].
  destruct (HF 1%positive main_defined) as (_ & _ & H1 & _), (HF 2%positive g_defined) as (_ & _ & H2 & _).
  split; [exact Hm|]. split; [exact H2|exact H1].
Defined.

Lemma calls_share_total_witness :
  ∃ h, Hot_new sample_ir sample_module sample_profile = Ok h ∧
    sumZ (λ c, match getTotalInstructions_inst sample_ir sample_module h c with Ok v => v | Fail _ => 0 end)
      [103%positive; 105%positive] = 39.
Proof.
  destruct (calls_share_total sample_ir sample_module sample_profile sample_rank 2 sample_module_wf
              sample_profile_ok sample_direct) as (h & Hrun & _ & Hsum).
  - exact g_defined.
  - by vm_compute.
  - exact sample_fit.
  - exists h. split; [exact Hrun|exact Hsum].
Defined.

(** A call that did not run takes what is left over when it is the last user of its callee. *)
Definition late_profile : ProfileInfo := {|
  getBlockProfileCount := λ b, match b with
    | 11%positive => Some 1 | 13%positive => Some 11 | (12 | 21)%positive => Some 11
    | 22%positive => Some 4 | _ => None end;
  getEdgeProbability := λ _ _, None |}.

Example unexecuted_call_is_charged :
  ∃ h, Hot_new sample_ir sample_module late_profile = Ok h ∧
    hasBeenExecuted_inst sample_ir sample_module h 105 = Ok false ∧
    getTotalInstructions_inst sample_ir sample_module h 105 = Ok 4.
Proof.
  destruct (Hot_new sample_ir sample_module late_profile) as [h|] eqn:Hh; [|by vm_compute in Hh].
  exists h. split; [done|]. vm_compute in Hh. injection Hh as <-. vm_compute. done.
Qed.

(** ** The loop of [main] *)
Definition sample_loop : LoopStructure := {|
  ls_header := 12; ls_preHeader := Some 11%positive; ls_depth := 1; ls_invariants := ∅;
  ls_latchBBs := {[13%positive]}; ls_bbs := {[12%positive; 13%positive]};
  ls_exitBlocks := [14%positive]; ls_exitEdges := [(12, 14)%positive] |}.

(** entered twice for ten iterations, its header runs twelve times *)
Definition sample_loop_counts (b : Ptr) : Z := if decide (b = 12%positive) then 12 else 10.
Definition sample_hot : Hot := mkHot ∅ {[12%positive := 12; 13%positive := 10; 11%positive := 2]} ∅ ∅ ∅ ∅ 0.

Lemma getIterations_spec_witness : getIterations sample_ir sample_hot sample_loop = Ok 11.
Proof.
  apply (getIterations_spec sample_ir sample_hot sample_loop sample_loop_counts 10 2); try done.
  intros b Hb. each_member; done.
Defined.

(** the self instructions of a loop are its static ones, however often it runs *)
Example loop_self_instructions_are_static :
  getSelfInstructions_loop sample_ir sample_hot sample_loop = Ok 3 ∧
  getInvocations_bb sample_hot (Some 12%positive) = Ok 12.
Proof. vm_compute. done. Qed.

Lemma calleeTotalInstsPerInvocation_spec_witness : calleeTotalInstsPerInvocation 37 11 = Ok 3.
Proof. apply (proj1 calleeTotalInstsPerInvocation_spec 37 11); done. Defined.
