(* ===== verification/CallGraphWitnesses.v ===== *)
(** * Witnesses for call graphs

    A module with six functions: the first calls the second and calls the second or the third
    through a pointer, the second calls the third, the fourth stores the address of the fifth, and
    the sixth is alone and has no body. *)
From S2P Require Import Prelude LoopStructure IRModule CallGraph CallGraphSpec CallGraphRemove FunctionsManager.
From S2P Require Import CGIslands CGIslandsSpec CallGraphRefine CallGraphRefineSpec.
Open Scope nat_scope.

Definition cg_ir : IRProgram := {|
  ir_insts := λ b, match b with
    | 11 => [101; 102] | 12 => [103] | 21 => [201; 202] | 31 => [301] | 41 => [401; 402] | 51 => [501]
    | _ => [] end%positive;
  ir_terminator := λ b, match b with
    | 11 => 102 | 12 => 103 | 21 => 202 | 31 => 301 | 41 => 402 | _ => 501 end%positive;
  ir_successors := λ b, match b with 11 => [12] | _ => [] end%positive;
  ir_blockOf := λ i, match i with
    | 101 | 102 => 11 | 103 => 12 | 201 | 202 => 21 | 301 => 31 | 401 | 402 => 41 | _ => 51 end%positive;
  ir_functionOf := λ b, match b with 11 | 12 => 1 | 21 => 2 | 31 => 3 | 41 => 4 | _ => 5 end%positive;
  ir_kind := λ _, IsInstruction |}.

Definition cg_module : LLVMModule := {|
  m_functions := [1; 2; 3; 4; 5; 6]%positive;
  m_blocks := λ F, match F with
    | 1 => [11; 12] | 2 => [21] | 3 => [31] | 4 => [41] | 5 => [51] | _ => [] end%positive;
  m_call := λ i, match i with
    | 101 => CallInst (Some 2%positive) | 103 => CallInst None | 201 => CallInst (Some 3%positive)
    | _ => NotACall end%positive;
  m_uses := λ F, match F with 2 => [101] | 3 => [201] | 5 => [401] | _ => [] end%positive |}.
Definition cg_hasCallees (i : Ptr) : bool := bool_decide (i = 103%positive).
Definition cg_callees (i : Ptr) : gset Ptr := if cg_hasCallees i then {[2; 3]}%positive else ∅.

#[local] Existing Instance visit_elements.

Definition cg_heap : CGHeap := mkCGHeap ∅ ∅ ∅ ∅ 1%positive.
Definition cg_graph : CGSt :=
  match CallGraph_new cg_ir cg_module cg_hasCallees cg_callees cg_heap with
  | Ok s => s
  | Fail _ => (cg_heap, CallGraph_empty)
  end.

(** the first edge: from the first function to the second *)
Definition cg_edge : CGEdge := default (mkCGEdge 1 1 false ∅ ∅)%positive (h_edges cg_graph.1 !! 9%positive).

(** case analysis on the members of concrete lists *)
Ltac each_case :=
  repeat match goal with
  | H : _ ∈ [] |- _ => by apply not_elem_of_nil in H
  | H : _ ∈ _ :: _ |- _ => apply elem_of_cons in H as [->|H]
  | H : ?x ∈ ?l |- _ => let l' := eval vm_compute in l in progress change (x ∈ l') in H
  end.

Ltac decided := apply (bool_decide_unpack _); vm_compute; exact I.

Lemma cg_calls_wf : calls_wf cg_ir cg_module cg_hasCallees cg_callees.
Proof.
  split.
  - decided.
  - intros F HF. each_case; decided.
  - intros F i G m HF Hi Hc. apply elem_of_function_instructions in Hi as (b & Hb & Hi).
    assert (G = 2%positive ∨ G = 3%positive) as [->| ->]; [|decided..].
    assert (∀ j, G ∈ cg_callees j → G = 2%positive ∨ G = 3%positive) as Hind.
    { clear. intros j. unfold cg_callees. case_match; [|intros []%elem_of_empty].
      by rewrite elem_of_union, !elem_of_singleton. }
    revert Hc. unfold calls_in. each_case; cbn; naive_solver.
Qed.

Lemma cg_heap_ok : heap_ok cg_heap.
Proof. intros p. simpl. set_solver. Qed.
Lemma cg_graph_new : CallGraph_new cg_ir cg_module cg_hasCallees cg_callees cg_heap = Ok cg_graph.
Proof.
  unfold cg_graph. destruct (CallGraph_new_run _ _ _ _ _ cg_heap_ok cg_calls_wf) as (s & -> & _). done.
Qed.
Lemma cg_graph_wf : cg_wf cg_graph.
Proof.
  unfold cg_graph. destruct (CallGraph_new_run _ _ _ _ _ cg_heap_ok cg_calls_wf) as (s & -> & W & _). exact W.
Qed.

Lemma cg_wf_eta s : cg_wf s → cg_wf (s.1, s.2).
Proof. by destruct s. Qed.

#[local] Opaque cg_graph.

Lemma CallGraph_new_spec_witness :
  heap_ok cg_heap ∧ calls_wf cg_ir cg_module cg_hasCallees cg_callees ∧
  ∃ s, CallGraph_new cg_ir cg_module cg_hasCallees cg_callees cg_heap = Ok s ∧ cg_wf s ∧
    ∀ F, is_Some (getFunctionNode s.2 F) ↔ F ∈ m_functions cg_module.
Proof.
  split; [exact cg_heap_ok|]. split; [exact cg_calls_wf|].
  destruct (CallGraph_new_spec cg_ir cg_module cg_hasCallees cg_callees cg_heap cg_heap_ok cg_calls_wf)
    as (s & Hs & W & Hdom & _).
  exists s. split; [exact Hs|]. split; [exact W|exact Hdom].
Defined.

(** the direct call of the second function goes; the call through the pointer is left *)
Lemma removeSubEdge_spec_witness :
  ∃ s', removeSubEdge 9 8 cg_graph = Ok (s', tt) ∧ cg_wf s' ∧
    ¬ records s' 1 2 101 true ∧ records s' 1 2 103 false.
Proof.
  assert (records cg_graph 1 2 103 false) as Hleft.
  { exists 1%positive, 2%positive, 9%positive, cg_edge. do 4 (split; [by vm_compute|]).
    exists 13%positive, (mkSubEdge 10 2 false). split; [|by vm_compute].
    decided. }
  destruct (removeSubEdge_spec cg_graph 1 2 1 2 9 cg_edge 8 (mkSubEdge 7 2 true) 101) as (s' & Hr & W & _ & Hrec & _).
  - exact cg_graph_wf.
  - by vm_compute.
  - by vm_compute.
  - by vm_compute.
  - by vm_compute.
  - decided.
  - by vm_compute.
  - by vm_compute.
  - exists s'. split; [exact Hr|]. split; [exact W|]. split.
    + rewrite Hrec. tauto.
    + rewrite Hrec. split; [exact Hleft|]. by intros (_ & _ & ?).
Defined.

Lemma getFunctionsReachableFrom_spec_witness :
  CallGraph_new cg_ir cg_module cg_hasCallees cg_callees cg_heap = Ok cg_graph ∧ cg_wf cg_graph ∧
  ∃ r, getFunctionsReachableFrom cg_module (CallGraph_new cg_ir cg_module cg_hasCallees cg_callees cg_heap) 2
         (mkFunctionsManager None) = Ok (mkFunctionsManager (Some cg_graph), r) ∧ 3%positive ∈ r.
Proof.
  split; [exact cg_graph_new|]. split; [exact cg_graph_wf|].
  destruct (getFunctionsReachableFrom_spec cg_module _ (mkFunctionsManager None) 2 cg_graph
    (or_intror (conj eq_refl cg_graph_new)) cg_graph_wf) as (r & Hr & Hin).
  exists r. split; [exact Hr|]. apply Hin. split; [decided|].
  apply rtc_once. split; [|done]. exists 201%positive, true.
  exists 2%positive, 3%positive, 16%positive, (default cg_edge (h_edges cg_graph.1 !! 16%positive)).
  do 4 (split; [by vm_compute|]). exists 15%positive, (mkSubEdge 14 3 true).
  split; [decided|]. split_and!; vm_compute; reflexivity.
Defined.

Lemma cg_users f user : user ∈ m_uses cg_module f → user ∈ [101; 201; 401]%positive.
Proof. simpl. repeat case_match; rewrite ?elem_of_nil, ?list_elem_of_singleton; intros; subst; try done; decided. Qed.

(** the fifth function escapes into the fourth: they share an island *)
Lemma getIslands_spec_witness :
  cg_wf (cg_graph.1, cg_graph.2) ∧
  ∃ s islands p x, getIslands cg_ir cg_module cg_graph.1 cg_graph.2 = Ok (s, islands) ∧
    islands !! 4%positive = Some (Some p) ∧ i_graphs s !! p = Some x ∧ is_Some (getFunctionNode x 5).
Proof.
  assert (cg_wf (cg_graph.1, cg_graph.2)) as W by exact (cg_wf_eta cg_graph cg_graph_wf).
  split; [exact W|].
  assert (∀ F, F ∈ m_functions cg_module → F ∈ dom (functions cg_graph.2)) as Hdom.
  { intros F HF. each_case; decided. }
  destruct (getIslands_spec cg_ir cg_module cg_graph.1 cg_graph.2 W) as (s & islands & Hrun & _ & Hisl).
  - intros f user _ Hu _. apply Hdom.
    pose proof (cg_users f user Hu) as Hu'. each_case; decided.
  - destruct (Hisl 4%positive) as (p & x & Hp & Hx & Hmem); [apply Hdom; decided|].
    exists s, islands, p, x. do 3 (split; [done|]). apply Hmem; [apply Hdom; decided|].
    apply rtc_once. left. right. split; [apply Hdom; decided|].
    exists 401%positive. split; [decided|]. split_and!; vm_compute; reflexivity.
Defined.

(** ** The analyses of calls

    The first function calls twice through a pointer, and stores the addresses of the second and
    the third. *)
Definition ind_ir : IRProgram := {|
  ir_insts := λ b, match b with 11 => [101; 102; 103; 104] | 21 => [201] | 31 => [301] | _ => [] end%positive;
  ir_terminator := λ b, match b with 11 => 104 | 21 => 201 | _ => 301 end%positive;
  ir_successors := λ _, [];
  ir_blockOf := λ i, match i with 201 => 21 | 301 => 31 | _ => 11 end%positive;
  ir_functionOf := λ b, match b with 21 => 2 | 31 => 3 | _ => 1 end%positive;
  ir_kind := λ _, IsInstruction |}.
Definition ind_module : LLVMModule := {|
  m_functions := [1; 2; 3]%positive;
  m_blocks := λ F, match F with 1 => [11] | 2 => [21] | 3 => [31] | _ => [] end%positive;
  m_call := λ i, match i with 101 | 102 => CallInst None | _ => NotACall end%positive;
  m_uses := λ F, match F with 2 => [103] | 3 => [104] | _ => [] end%positive |}.
Definition one_type (p : Ptr) : Ptr := 1%positive.

(** an analysis that excludes the third function, and one that excludes one call of the second *)
Definition not_the_third : CallGraphAnalysis := λ _ G, if decide (G = 3%positive) then CS_CANNOT_EXIST else CS_MAY_EXIST.
Definition not_one_call (k : Ptr) : CallGraphAnalysis :=
  λ i G, if decide (i = k ∧ G = 2%positive) then CS_CANNOT_EXIST else CS_MAY_EXIST.
Definition ind_graph (cga : CallGraphAnalysis) : Res CGSt :=
  getProgramCallGraph ind_ir ind_module one_type one_type [cga] true (λ _, false) (λ _, ∅) None.


Lemma getProgramCallGraph_spec_witness :
  ∃ s, ind_graph not_the_third = Ok s ∧ cg_wf s ∧ records s 1 2 101 false ∧ ∀ i m, ¬ records s 1 3 i m.
Proof.
  destruct (getProgramCallGraph_spec ind_ir ind_module one_type one_type [not_the_third] (λ _, false) (λ _, ∅))
    as (s & Hrun & W & _ & Hrec).
  - decided.
  - intros F HF. each_case; decided.
  - intros F i G HF Hi [Hc|Hc]; simpl in Hc; repeat case_match; done.
  - intros F G. exists (if decide (G = 3%positive) then CS_CANNOT_EXIST else CS_MAY_EXIST).
    intros i _ _. unfold queryAnalyses, not_the_third. by destruct (decide (G = 3%positive)).
  - exists s. split; [exact Hrun|]. split; [exact W|]. split.
    + apply Hrec. split; [decided|]. split; [decided|]. right.
      split; [|vm_compute; reflexivity]. split; [reflexivity|]. split; [decided|]. split; reflexivity.
    + clear Hrun. intros i m (_ & _ & [[[Hc|Hc] _]|[_ Hr]])%Hrec; [simpl in Hc; repeat case_match; done..|by vm_compute in Hr].
Defined.

(** an analysis excludes one of the two calls of the second function, and both are removed *)
Lemma exclusion_spreads :
  may_target ind_module one_type one_type 101 2 ∧
  queryAnalyses [not_one_call 102] 101 2 = CS_MAY_EXIST ∧
  match ind_graph (not_one_call 102) with Ok s => getEdge s.2 1 2 = None | Fail _ => False end.
Proof. split; [|by vm_compute]. split; [done|]. split; [decided|done]. Qed.
