(* ===== verification/PartitionWitnesses.v ===== *)
(** * Witnesses for partitions

    Two concrete partitions, built by the constructor of [SCCDAGPartition]: a chain of three
    sets, and two sets of which one depends on itself. *)
From S2P Require Import Prelude SCCIterator DGEdge DGNode DGBase DGInvariant DGSpec DGQuery Samples.
From S2P Require BitMatrix Witnesses.
From S2P Require Import SCCDAG Partition PartitionSpec PartitionQuery PartitionMerge PartitionMergeSpec.

Notation World0 := (@PWorld BitMatrix.ListBitVector).

(** four initial sets, with the SCCs 1, 2, 3 and 4, and 5 *)
Definition initial_sets : gmap Ptr (gset Ptr) :=
  list_to_map [(101, {[1]}); (102, {[2]}); (103, {[3; 4]}); (104, {[5]})]%positive.

Definition partition_of (parents : gmap Ptr (gset Ptr)) : World0 :=
  let w := mkPWorld (mkHeap ∅ ∅ 200) initial_sets
             (mkPartition DG_new ∅ (mkSCCDAG DG_new ∅ (BitMatrix.resize 0) true ∅)) in
  match @SCCDAGPartition_new visit_elements _ (dom initial_sets) parents w with
  | Ok (w, _) => w | Fail _ => w end.

(** 2 depends on 1, and 3 on 2 and 1 *)
Definition chain : World0 :=
  partition_of (list_to_map [(2, {[1]}); (3, {[2; 1]})]%positive).
(** the same, and 4 depends on 3, which is in its set *)
Definition looped : World0 :=
  partition_of (list_to_map [(2, {[1]}); (3, {[2]}); (4, {[3]})]%positive).

Definition view (w : World0) : AGraph := graph_view (pw_heap w) (p_graph (pw_part w)).

Lemma view_rep w :
  bool_decide (wf_finite (pw_heap w) (p_graph (pw_part w))) = true →
  bool_decide (map_Forall (λ _ p, is_Some p) (externalNodeMap (p_graph (pw_part w)))) = true →
  p_rep w (view w).
Proof. apply graph_view_rep. Qed.

(** the sets of the SCCs 1, 2, 3 and 5 *)
Definition set_with (w : World0) (scc : Ptr) : Ptr := default 1%positive (sccToSetMap (pw_part w) !! scc).

Lemma chain_rep : p_rep chain (view chain).
Proof. apply view_rep; vm_compute; reflexivity. Qed.
Lemma looped_rep : p_rep looped (view looped).
Proof. apply view_rep; vm_compute; reflexivity. Qed.

(** a graph whose edges go up in rank has no cycle *)
Lemma ranked_acyclic (rank : Ptr → nat) A :
  bool_decide (map_Forall (λ _ x, rank (a_src x) < rank (a_dst x)) (a_edges A)) = true → acyclic A.
Proof.
  intros H%bool_decide_eq_true. assert (∀ x y, tc (p_edge A) x y → rank x < rank y) as Htc.
  { induction 1 as [x y (e & z & He & <- & <-)|x y z (e & u & He & <- & <-) _ IH].
    - exact (H _ _ He).
    - specialize (H _ _ He). simpl in H. lia. }
  intros x Hx%Htc. lia.
Qed.

Lemma chain_acyclic : acyclic (view chain).
Proof.
  apply (ranked_acyclic (λ t, if decide (t = set_with chain 1) then 0
                              else if decide (t = set_with chain 2) then 1 else 2)).
  vm_compute. reflexivity.
Qed.

(** membership in the sets of a concrete partition *)
Lemma view_values w t :
  bool_decide (t ∈ a_values (view w)) = true → t ∈ a_values (view w).
Proof. apply bool_decide_eq_true_1. Qed.

Lemma no_path_from A a b :
  bool_decide (map_Forall (λ _ x, a_src x ≠ a) (a_edges A)) = true → ¬ tc (p_edge A) a b.
Proof.
  intros H%bool_decide_eq_true Htc.
  assert (∃ y, p_edge A a y) as (y & e & x & He & Hs & _) by (inversion Htc; eauto).
  exact (H _ _ He Hs).
Qed.

Lemma view_edge w e x :
  a_edges (view w) !! e = Some x → p_edge (view w) (a_src x) (a_dst x).
Proof. intros He. by exists e, x. Qed.

Lemma getDepthOrderedSets_spec_witness :
  (∃ l, @getDepthOrderedSets visit_elements _ chain = Ok (chain, l) ∧ NoDup l ∧
     (∀ t, t ∈ l ↔ t ∈ a_values (view chain)) ∧ parents_first (view chain) l) ∧
  @getDepthOrderedSets visit_elements _ looped = Fail AssertionFailure.
Proof.
  split.
  - apply (@getDepthOrderedSets_spec visit_elements _ _ _ chain_rep); [exact chain_acyclic|].
    intros H. assert (set_with chain 1 ∈ a_values (view chain)) as Hin
      by (apply view_values; vm_compute; reflexivity).
    rewrite H in Hin. by apply elem_of_empty in Hin.
  - apply (@getDepthOrderedSets_spec visit_elements _ _ _ looped_rep) with (x := set_with looped 3).
    apply tc_once. by apply (view_edge looped 209 (mkAEdge _ _ UNDEFINED_DEPENDENCE None)).
Defined.

Lemma isMergeIntroducingCycle_spec_witness :
  (∃ r, @isMergeIntroducingCycle visit_elements _ 257 (set_with chain 3) (set_with chain 1) chain = Ok (chain, r) ∧
     (r = true ↔ ∃ x, tc (merged_edge (p_edge (view chain)) (set_with chain 3) (set_with chain 1)) x x)) ∧
  (∃ s, @getCycleIntroducedByMerging visit_elements _ 257 (set_with chain 3) (set_with chain 1) chain = Ok (chain, s) ∧
     ∀ z, z ∈ s ↔ z = set_with chain 3 ∨ z = set_with chain 1 ∨
       (tc (p_edge (view chain)) (set_with chain 3) z ∧ tc (p_edge (view chain)) z (set_with chain 1)) ∨
       (tc (p_edge (view chain)) (set_with chain 1) z ∧ tc (p_edge (view chain)) z (set_with chain 3))).
Proof.
  apply (@isMergeIntroducingCycle_spec visit_elements).
  - exact chain_rep.
  - exact chain_acyclic.
  - apply view_values. vm_compute. reflexivity.
  - apply view_values. vm_compute. reflexivity.
  - apply Nat.ltb_lt. vm_compute. reflexivity.
Defined.

Lemma isAncestor_diverges_witness :
  @isAncestor visit_elements _ 1000 (set_with looped 5) (set_with looped 3) looped = Fail OutOfFuel.
Proof.
  apply (@isAncestor_diverges visit_elements _ _ (view looped)).
  - exact looped_rep.
  - apply view_values. vm_compute. reflexivity.
  - exists (set_with looped 3). split; [|done].
    apply tc_once. by apply (view_edge looped 209 (mkAEdge _ _ UNDEFINED_DEPENDENCE None)).
  - apply no_path_from. vm_compute. reflexivity.
Defined.

Lemma mergePair_reads_deleted_set_witness :
  ¬ ∃ r, @mergePair visit_elements reference_scc_iterator _ (set_with chain 1) (set_with chain 2) chain = Ok r.
Proof.
  apply (@mergePair_reads_deleted_set visit_elements).
  vm_compute. reflexivity.
Defined.

(** every clause of [p_wf] but the first *)
Lemma p_wf_check w :
  p_rep w (view w) →
  bool_decide (set_Forall (λ t, holds (λ s, s ≠ ∅) (pw_sets w !! t)) (a_values (view w))) = true →
  bool_decide (map_Forall (λ t _, (t < nextAddr (pw_heap w))%positive) (pw_sets w)) = true →
  bool_decide (map_Forall (λ scc t, t ∈ a_values (view w) ∧ holds (λ s, scc ∈ s) (pw_sets w !! t))
                 (sccToSetMap (pw_part w))) = true →
  bool_decide (set_Forall (λ t, holds_if (set_Forall (λ scc, sccToSetMap (pw_part w) !! scc = Some t))
                 (pw_sets w !! t)) (a_values (view w))) = true →
  p_wf w (view w).
Proof.
  intros R H1%bool_decide_eq_true H2%bool_decide_eq_true H3%bool_decide_eq_true H4%bool_decide_eq_true.
  split; [done|..].
  - intros t Ht. by apply H1, holds_spec in Ht.
  - intros t [s Hs]. exact (H2 _ _ Hs).
  - intros scc t. split.
    + intros Ht. destruct (H3 _ _ Ht) as [Hv Hs]. by apply holds_spec in Hs.
    + intros (Hv & s & Hs & Hin). specialize (H4 t Hv). simpl in H4. rewrite Hs in H4. by apply H4.
Qed.

Definition merged_sets : gset Ptr := {[set_with chain 2; set_with chain 3]}.

Lemma mergeSets_spec_witness :
  wp (@mergeSets visit_elements _ merged_sets) (λ _ w', ∃ A' m, p_wf w' A' ∧ m ∉ a_values (view chain) ∧
    a_values A' = {[m]} ∪ (a_values (view chain) ∖ merged_sets) ∧
    (∀ scc, scc ∈ members w' m ↔ ∃ t, t ∈ merged_sets ∧ scc ∈ members chain t) ∧
    (∀ t, t ∈ a_values (view chain) → t ∉ merged_sets → members w' t = members chain t) ∧
    (∀ a b, p_edge A' a b ↔ ∃ u v, p_edge (view chain) u v ∧ ¬ (u ∈ merged_sets ∧ v ∈ merged_sets) ∧
       merged_into merged_sets m u = a ∧ merged_into merged_sets m v = b)) chain.
Proof.
  apply (@mergeSets_spec visit_elements).
  - apply p_wf_check; [exact chain_rep|vm_compute; reflexivity..].
  - apply (bool_decide_eq_true_1 _). vm_compute. reflexivity.
  - intros H. assert (set_with chain 2 ∈ merged_sets) as Hin by (apply (bool_decide_eq_true_1 _); vm_compute; reflexivity).
    rewrite H in Hin. by apply elem_of_empty in Hin.
  - vm_compute. reflexivity.
Defined.
