(* ===== verification/GeneratorWitnesses.v ===== *)
(** * Witnesses for the generator of the program dependence graph

    A function that stores to a global, tests, and in one branch loads two globals; the values of a
    PHI at the join are constants, so the test controls it. The alias analysis of llvm tells nothing
    about two different pointers, the points-to analysis tells them apart. *)
From stdpp Require Import strings.
From S2P Require Import Prelude DGEdge DGNode DGBase DGInvariant DGSpec PDG DataFlow DataFlowSpec.
From S2P Require Import PDGValues PDGModRef PDGGenerator PDGGrowth PDGModRefSpec.
From S2P Require Import PDGControlSpec PDGGeneratorSpec PDGConstruction PDGTrimSpec PDGMetadata PDGMetadataSpec PDGCompare PDGCompareSpec.
Open Scope positive_scope.

Definition gen_cfg : CFG := {|
  blocks := [10; 11; 12];
  insts := λ b, match b with 10 => [1; 2] | 11 => [3; 7; 4] | 12 => [5; 6] | _ => [] end;
  getTerminator := λ b, match b with 10 => Some 2 | 11 => Some 4 | 12 => Some 6 | _ => None end;
  successors := λ b, match b with 10 => [11; 12] | 11 => [12] | _ => [] end;
  predecessors := λ b, match b with 11 => [10] | 12 => [10; 11] | _ => [] end |}.

(** the globals 30 and 31, the constants 40 and 41, the calls 50, 51 of the function 60 *)
Definition gen_values : Values := {|
  v_class := λ v, match v with
    | 1 => StoreValue 30 | 3 => LoadValue 30 | 7 => LoadValue 31
    | 5 => PHIValue [(Some 40, 10); (Some 41, 11)]
    | 2 | 4 | 6 => OtherInstruction
    | 30 | 31 => GlobalVariable
    | 50 | 51 => CallValue true (Some 60) []
    | _ => OtherValue end;
  v_uses := λ v, match v with 5 => [6] | 30 => [1; 3] | 31 => [7] | _ => [] end;
  v_parent := λ v, match v with 1 | 2 => 10 | 3 | 7 | 4 => 11 | _ => 12 end;
  v_isLifetime := λ _, false;
  v_isPointer := λ _, true;
  fn_name := λ _, "f"%string;
  fn_empty := λ _, true |}.

Definition gen_function : GenFunction := mkGenFunction [] gen_cfg.
Definition gen_module : GenModule := mkGenModule [gen_function] (Some gen_function).
Definition gen_pdt (_ : GenFunction) : PostDominatorTree := {|
  pdt_getDescendants := λ b, match b with 12 => [12; 11; 10] | 11 => [11] | 10 => [10] | _ => [] end;
  pdt_properlyDominates := λ a b, bool_decide (a = 12) && negb (bool_decide (b = 12)) |}.

Definition gen_aa : AliasAnalysis := {|
  aa_alias_location := λ _ _, MayAlias;
  aa_alias_value := λ _ _, MayAlias;
  aa_modref_location := λ _ _, ModRef;
  aa_modref_call := λ _ _, ModRef |}.
Definition gen_svf : SVFAnalysis := {|
  svf_aa := gen_aa;
  svf_modref := λ _, ModRef;
  svf_hasIndCSCallees := λ _, false;
  svf_getIndCSCallees := λ _, [];
  svf_isReachableBetweenFunctions := λ _ _, false |}.
Definition gen_allocAA : AllocAA := {|
  getPrimitiveArrayAccess := λ _, (None, None);
  areGEPIndicesConstantOrIV := λ _, false;
  areIdenticalGEPAccessesInSameLoop := λ _ _, false;
  isMemoryless := λ _, false;
  isReadOnly := λ _, false |}.
Definition samePointer (i j : Ptr) : bool := bool_decide (getPointer gen_values i = getPointer gen_values j).
Definition gen_mayAlias (p q : Ptr) : bool := bool_decide (p = q).

Definition gen_run (disableAllocAA : bool) : M GSt unit :=
  constructPDGFromAnalysis (IO := visit_elements) gen_values (λ _, gen_aa) gen_svf [] true false disableAllocAA ∅
    samePointer gen_pdt gen_allocAA gen_mayAlias (λ _, gen_cfg) (λ _, None) gen_module.
Definition edges_of (s : GSt) : list AEdge := omap (edge_view s.1 s.2) (merge_sort Pos.le (elements (allEdges s.2))).

(** the use of the PHI, the dependence on the store of the same pointer, the one that the points-to
    analysis refutes, and the control dependences *)
Example gen_edges b :
  match gen_run b (empty_heap, DG_new) with
  | Ok (s, _) => edges_of s
  | Fail _ => []
  end =
  ([mkAEdge 5 6 VARIABLE_DEPENDENCE (Some DG_DATA_RAW)] ++
   (if b then [memory_edge 1 7 DG_DATA_RAW false] else []) ++
   [memory_edge 1 3 DG_DATA_RAW true; control_edge 2 3; control_edge 2 7; control_edge 2 4; control_edge 2 5])%list.
Proof. destruct b; vm_compute; reflexivity. Qed.

(** ** The hypotheses *)

Lemma gen_cfg_wf : wf_cfg gen_cfg.
Proof. apply cfg_check_wf. by vm_compute. Qed.

Lemma in_gen_cfg i : i ∈ instructions gen_cfg → i = 1 ∨ i = 2 ∨ i = 3 ∨ i = 7 ∨ i = 4 ∨ i = 5 ∨ i = 6.
Proof. change (instructions gen_cfg) with [1; 2; 3; 7; 4; 5; 6]. rewrite !elem_of_cons, elem_of_nil. tauto. Qed.

Lemma gen_values_are : module_values (gm_functions gen_module) = [1; 2; 3; 7; 4; 5; 6].
Proof. reflexivity. Qed.

Lemma gen_control_wf : wf_control gen_values gen_cfg (gen_pdt gen_function).
Proof.
  split.
  - apply gen_cfg_wf.
  - intros B E HB HE. assert (B = 10 ∨ B = 11 ∨ B = 12) as [->|[->| ->]] by (cbn in HB; set_solver); cbn in *; set_solver.
  - intros i inc Hi%in_gen_cfg. destruct_or!; subst; cbn; set_solver.
  - intros B t HB. assert (B = 10 ∨ B = 11 ∨ B = 12) as [->|[->| ->]] by (cbn in HB; set_solver); by intros [= <-].
Qed.

Lemma gen_program_wf : wf_program gen_values gen_pdt gen_module.
Proof.
  split.
  - rewrite gen_values_are. by apply (bool_decide_unpack _).
  - by rewrite gen_values_are.
  - exists gen_function. split_and!; [done|by left|done].
  - intros F ->%list_elem_of_singleton _. apply gen_control_wf.
  - rewrite gen_values_are. intros v u Hv. rewrite !elem_of_cons, elem_of_nil in Hv.
    destruct_or!; subst; try done; cbn; set_solver.
  - intros d. unfold isDeallocator, callsLibrary. destruct (calledFunction _ d); [|done]. by cbn.
Qed.

Lemma gen_placed : placed gen_values (λ _, gen_cfg) (gm_functions gen_module).
Proof.
  intros F i ->%list_elem_of_singleton _ Hi%in_gen_cfg. split; [done|].
  destruct_or!; subst; (split; [by apply (bool_decide_unpack _)|by apply (bool_decide_unpack _)]).
Qed.

Lemma gen_follows : may_follow gen_values false gen_function 1 3.
Proof.
  split_and!; [by apply (bool_decide_unpack _)..|]. right. split; [done|]. apply (tc_l _ _ 2).
  - exists 10. split; [by left|]. left. by exists 0%nat.
  - apply tc_once. exists 10. split; [by left|]. right. exists 11. split_and!; [done|by left|done].
Qed.

(** ** The witnesses *)

Lemma constructPDGFromAnalysis_spec_witness :
  wf_program gen_values gen_pdt gen_module ∧ placed gen_values (λ _, gen_cfg) (gm_functions gen_module) ∧
  wp (gen_run false) (λ _ s', ∃ A, rep s'.1 s'.2 A ∧
    a_internal A = list_to_set (module_values (gm_functions gen_module)) ∧ a_external A = ∅ ∧
    ∀ x, present A x ↔
      dependence gen_values (λ _, gen_aa) gen_svf [] true false ∅ samePointer gen_pdt gen_module x ∧
      ¬ (false = false ∧ to_remove gen_values gen_allocAA gen_mayAlias (λ _, gen_cfg) (λ _, None) x)) (empty_heap, DG_new).
Proof.
  split; [exact gen_program_wf|]. split; [exact gen_placed|].
  exact (@constructPDGFromAnalysis_spec visit_elements gen_values (λ _, gen_aa) gen_svf [] true false false ∅ samePointer
    gen_pdt gen_allocAA gen_mayAlias (λ _, gen_cfg) (λ _, None) gen_module empty_heap empty_heap_ok gen_program_wf gen_placed).
Defined.

Lemma memory_dependences_sound_witness :
  wf_program gen_values gen_pdt gen_module ∧ may_follow gen_values false gen_function 1 3 ∧
  wp (gen_run false) (λ _ s', ∃ A, rep s'.1 s'.2 A ∧ ∃ must,
    ¬ (false = false ∧ to_remove gen_values gen_allocAA gen_mayAlias (λ _, gen_cfg) (λ _, None) (memory_edge 1 3 DG_DATA_RAW must)) →
    present A (memory_edge 1 3 DG_DATA_RAW must)) (empty_heap, DG_new).
Proof.
  split; [exact gen_program_wf|]. split; [exact gen_follows|].
  refine (wp_mono _ _ _ _ (@memory_dependences_sound visit_elements gen_values (λ _, gen_aa) gen_svf [] true false false ∅ samePointer
    gen_pdt gen_allocAA gen_mayAlias (λ _, gen_cfg) (λ _, None) gen_module empty_heap empty_heap_ok gen_program_wf gen_placed) _).
  intros _ s' (A & R & HA). exists A. split; [exact R|].
  refine (HA gen_function 1 3 DG_DATA_RAW (list_elem_of_here _ _) eq_refl gen_follows eq_refl eq_refl
    (or_intror (or_introl (conj eq_refl (conj eq_refl eq_refl)))) eq_refl _).
  by vm_compute.
Defined.

(** a graph with two calls *)
Lemma two_calls_graph : ∃ h g, rep h g (values_graph [50; 51]).
Proof.
  destruct (proj1 (wp_ok _ _ _) (@addValues_run [50; 51] [] empty_heap DG_new ltac:(by apply (bool_decide_unpack _))
    ltac:(done) (@DG_new_rep empty_heap empty_heap_ok))) as ([h g] & [] & _ & R). by exists h, g.
Qed.

Lemma addEdgeFromFunctionModRef_call_spec_witness :
  (∃ h g, rep h g (values_graph [50; 51]) ∧
    wp (@addEdgeFromFunctionModRef_call gen_values gen_aa gen_svf [] true ∅ samePointer 50 51 false)
      (λ _ s', ∃ A', rep s'.1 s'.2 A' ∧
         grown (values_graph [50; 51]) (calls_edges gen_values gen_aa gen_svf [] true ∅ samePointer 50 51 false) A') (h, g)) ∧
  calls_edges gen_values gen_aa gen_svf [] true ∅ samePointer 50 51 false =
    [memory_edge 50 51 DG_DATA_RAW false; memory_edge 50 51 DG_DATA_WAW false].
Proof.
  split; [|vm_compute; reflexivity]. destruct two_calls_graph as (h & g & R). exists h, g. split; [exact R|].
  exact (@addEdgeFromFunctionModRef_call_spec gen_values gen_aa gen_svf [] true ∅ samePointer h g _ 50 51 false
    (wp_free _ _ _ gen_program_wf) R ltac:(by apply (bool_decide_unpack _)) ltac:(by apply (bool_decide_unpack _)) ltac:(done)).
Defined.

(** ** The graph before the trimming *)

Definition gen_functions : list (Ptr * GenFunction) := [(100, gen_function)].
Abbreviation gen_depends := (dependence gen_values (λ _, gen_aa) gen_svf [] true false ∅ samePointer gen_pdt gen_module).

(** the objects of the edges are plain dependences of concrete classes *)
Definition plain_edges (s : GSt) : bool :=
  forallb (λ e, match hedges s.1 !! e with
    | Some y => bool_decide (getSubEdges y = ∅) &&
        (bool_decide (kind y = CONTROL_DEPENDENCE ∧ dataDepType y = None) ||
         bool_decide (kind y ∈ [VARIABLE_DEPENDENCE; MAY_MEMORY_DEPENDENCE; MUST_MEMORY_DEPENDENCE] ∧ dataDepType y ≠ None))
    | None => false end) (elements (allEdges s.2)).

Lemma plain_edges_spec h g : plain_edges (h, g) = true → no_sub_edges h g ∧ concrete_edges h g.
Proof.
  intros Hp. assert (∀ e y, e ∈ allEdges g → hedges h !! e = Some y → getSubEdges y = ∅ ∧ edge_class_ok y) as H.
  { intros e y He Hy. unfold plain_edges in Hp. rewrite forallb_forall in Hp. cbn [fst snd] in Hp.
    specialize (Hp e (proj1 (list_elem_of_In _ _) (proj2 (elem_of_elements _ _) He))). rewrite Hy in Hp.
    apply andb_prop in Hp as [Hs%bool_decide_eq_true Hk]. split; [done|].
    apply orb_prop in Hk as [[Hk Ht]%bool_decide_eq_true|[Hk Ht]%bool_decide_eq_true]; unfold edge_class_ok; [by rewrite Hk|].
    apply not_eq_None_Some in Ht. rewrite !elem_of_cons, elem_of_nil in Hk. destruct_or!; by rewrite ?Hk. }
  split; intros e y He Hy; by apply (H e y He Hy).
Qed.

(** what holds of the result of a run whose edges are tested by evaluation *)
Lemma plain_result {A} (m : M GSt A) Q s : wp m Q s →
  match m s with Ok (s', _) => plain_edges s' | Fail _ => false end = true → ∃ s' a, Q a s' ∧ plain_edges s' = true.
Proof. unfold wp. destruct (m s) as [[s' a]|]; [eauto|done]. Qed.

Lemma gen_graph : ∃ h g A, rep h g A ∧ no_sub_edges h g ∧ concrete_edges h g ∧ generated gen_functions gen_depends A.
Proof.
  pose proof (@constructPDG_run visit_elements gen_values (λ _, gen_aa) gen_svf [] true false ∅ samePointer gen_pdt
    gen_module empty_heap empty_heap_ok gen_program_wf) as Hrun.
  destruct (plain_result _ _ _ Hrun) as ([h g] & u & (A & R & Ai & Ae & HA) & Hp); [vm_compute; reflexivity|].
  destruct (plain_edges_spec h g Hp) as [Hs Hc]. exists h, g, A. split; [exact R|]. split; [exact Hs|].
  split; [exact Hc|]. split; [exact Ai|exact Ae|intros x Hx; by apply HA|intros x Hx _; by apply HA].
Qed.

Lemma gen_module_wf : wf_module gen_values (λ _, 100) (λ _, 0%nat) gen_functions gen_pdt (Some gen_function).
Proof.
  split.
  - exact gen_program_wf.
  - by apply (bool_decide_unpack _).
  - intros p F i [= -> ->]%list_elem_of_singleton _ Hi%in_gen_cfg. by destruct_or!; subst.
  - intros p F k a [= -> ->]%list_elem_of_singleton _ Ha. done.
Qed.

Lemma metadata_roundtrip_witness :
  ∃ h g A, rep h g A ∧ no_sub_edges h g ∧ generated gen_functions gen_depends A ∧
  wp (cleanAndEmbedPDGAsMetadata (IO := visit_elements) gen_values (λ _, 100) (λ _, 0%nat) gen_functions (mkIRMetadata ∅ ∅ ∅ None))
    (λ md' s', s' = (h, g) ∧ hasPDGAsMetadata md' = Ok true ∧ ∀ h2, heap_ok h2 →
       wp (constructPDGFromMetadata (IO := visit_elements) gen_values (λ _, 0%nat) gen_functions md' gen_pdt (Some gen_function))
         (λ _ s'', ∃ A', rep s''.1 s''.2 A' ∧ a_internal A' = a_internal A ∧ a_external A' = a_external A ∧
            ∀ x, present A' x ↔ present A x) (h2, DG_new)) (h, g).
Proof.
  destruct gen_graph as (h & g & A & R & Hs & _ & G). exists h, g, A. split_and!; [exact R|exact Hs|exact G|].
  exact (@metadata_roundtrip visit_elements gen_values (λ _, 100) (λ _, 0%nat) gen_functions gen_pdt (Some gen_function)
    (λ _, gen_aa) gen_svf [] true false ∅ samePointer h g A _ gen_module_wf R Hs G).
Defined.

Lemma comparePDGs_spec_witness :
  ∃ h g A, rep h g A ∧ concrete_edges h g ∧
    ∃ (b : bool) g', comparePDGs (IO := visit_elements) (h, (g, g)) = Ok ((h, (g, g')), b) ∧ (b = true → g' = g) ∧
      (b = true ↔ a_values A = a_values A ∧ size (a_edges A) = size (a_edges A) ∧ ∀ e, matched h A A e).
Proof.
  destruct gen_graph as (h & g & A & R & _ & Hc & _). exists h, g, A. split; [exact R|]. split; [exact Hc|].
  exact (@comparePDGs_spec visit_elements h g g A A R R Hc Hc).
Defined.
